(* ===== verification/_CoqProject ===== *)
-Q . S2P
Prelude.v
Wire.v
Digests.v
Capability.v
Journal.v
JobSpec.v
Lease.v
Board.v
Retention.v
SlotMap.v
Stemma.v
Lineage.v
LineageGc.v
StableGraph.v
GraphLog.v
GraphSpec.v
GraphReplay.v
GraphCheckpoint.v
Delegation.v
DelegationTable.v
Deadband.v
Grant.v
Watch.v
Gate.v
Standing.v
Constitution.v
MootDelegation.v
Causal.v
CausalOrder.v
Muniment.v
Persist.v
Nested.v
KernelEdges.v
KernelGraph.v
KernelNav.v
KernelNode.v
KernelImports.v
KernelDelta.v
KernelRelate.v
KernelUrls.v
KernelSync.v
KernelReplay.v
KernelJournal.v
KernelBatch.v
KernelWalk.v
KernelQuery.v
KernelCopy.v
