(* ===== verification/Prelude.v ===== *)
(** * mere: the graph, its history, its authority and its mesh

    mere is a local-first browser built around a graph: what the user visits is
    kept as a navigation lineage, what they keep is a graph of containers edited
    through an attributed log, helpers ("denizens") act on that graph only through
    a capability gate, and devices of one person share work through a mesh of
    signed operations and govern shared spaces in moots.  This library models these
    cores, the storage beneath them and the graph kernel with its journal, and
    proves what the rest of the program relies on.

    ** Parts and files

    - [Prelude]: results, strings as Rust reads them ([split], [split_once],
      [strip_prefix]), saturating and wrapping 32- and 64-bit arithmetic,
      list and map lemmas, the [mere] hint database.
    - [Wire]: the byte and text encodings shared by the components (little-endian
      bytes, length-prefixed strings, hex keys, decimal integers, stable sorting).
    - [Digests]: src/crates/system/proofs/src/lib.rs.  Typed digests and blob
      references, shared by the mesh and the moots.
    - [Capability]: src/crates/capability/src/lib.rs.  Powers, scopes, facet
      namespaces and modes, their parsing, printing and coverage; the [Capability]
      class is the trait and its laws.
    - [Journal]: src/crates/eidetic/muniment/src/journal/{log,causal,fork}.rs.  The
      append-only log with causal citations and forks.
    - [StableGraph], [GraphLog], [GraphSpec], [GraphReplay], [GraphCheckpoint]:
      src/crates/eidetic/chartulary/src/{graph,facet,edit,commit,spine,snapshot}.rs.
      [StableGraph] is the interface of the third-party petgraph structure (a class
      of operations with its documented laws, and an instance); [GraphLog] the identity-indexed graph, the edits, commits, replay,
      forks and snapshots; [GraphSpec] the abstract graph and the simulation;
      [GraphReplay] sessions of commits; [GraphCheckpoint] snapshots and a concrete
      run.
    - [Muniment], [Persist], [Nested]:
      src/crates/eidetic/muniment/src/{backend,codec,slot,blob,error}.rs,
      src/crates/eidetic/muniment/src/journal/persist.rs and
      src/crates/eidetic/chartulary/src/{spine,nested}.rs.  [Muniment] is the
      [Backend] trait as a class with its contract and two instances, slots, blobs
      and journals; [Persist] the log and its snapshot as slots over any backend and
      codec; [Nested] the graphs a node bears, their archive and its recovery.
    - [KernelEdges], [KernelGraph]:
      src/crates/graph/graph-kernel/src/graph/{edge_taxonomy,edge_data,edge_payload,
      edge_ops}.rs.  The kernel's typed relations: the payload of an edge, its
      statements and their identity, and the edits of a graph of such edges over
      the [StableGraph] interface.
    - [KernelNav], [KernelNode], [KernelDelta], [KernelBatch]: the rest of the
      kernel's write path in src/crates/graph/graph-kernel/src/.  [KernelNav] is
      graph/history.rs, the navigation memory over [Stemma]; [KernelNode] is
      address.rs, types.rs and graph/{node,node_props,node_facets,import_records,
      field_ops,mod}.rs, nodes and every setter, facets, the URL index, import
      records, fields and couplings; [KernelDelta] is graph/{apply,capture,journal}.rs
      and persistence_fields.rs, every delta with what it changes and captures, the
      replay of what was captured, and the attributed journal; [KernelBatch] the
      batched facet writers.
    - [KernelWalk], [KernelQuery]:
      src/crates/graph/graph-kernel/src/graph/query.rs.  The two loops of the query
      layer over any neighbour function, and the kernel's neighbourhoods, ego
      networks, components and candidates over them.
    - [KernelCopy]: src/crates/graph/graph-kernel/src/graph/cross_graph.rs.  Copying a
      node, or the component of a node, into another graph.
    - [KernelImports], [KernelRelate], [KernelUrls], [KernelSync], [KernelReplay],
      [KernelJournal]: the proof that the kernel's graph is its journal.  In order:
      import records in normal form; the invariant [k_inv], the agreement of two
      graphs by stable id and the setters that keep it; moving, adding and removing
      nodes; provenance derived from import records; the simulation of every delta by
      what it captured; sessions and the theorems.
    - [Causal], [CausalOrder]: src/crates/stickleback/src/causal.rs.  Operations that
      name what they were made after; the projection that orders the ones whose
      history is complete.
    - [SlotMap], [Stemma], [Lineage], [LineageGc]:
      src/crates/eidetic/chartulary/src/stemma/.
      [SlotMap] is the interface of the third-party slotmap; [Stemma] the data model
      and every mutation and query; [Lineage] the invariant and its preservation;
      [LineageGc] deletion, collection, snapshots and the theorems.
    - [JobSpec], [Lease], [Board], [Retention]: src/crates/mesh/mesh/src/.  Job
      manifests and their validation, the lease chain and its time-indexed phases,
      the fold of operations into the job board, checkpoints and blob collection.
    - [Delegation]: src/crates/dramatis/personae/src/{delegation,provider}.rs.
      Certificates, attenuation, signing bytes, issue and verification; signatures
      and key derivation are the class [Ed25519], BLAKE3 a parameter.
    - [DelegationTable], [Grant], [Deadband], [Watch], [Gate]:
      src/crates/servitor/src/{delegation,grant,deadband,watch,cascade,tick,gate}.rs
      and src/crates/eidetic/chartulary/src/container.rs.  The two authority
      providers behind the [AuthorityProvider] class, actuation deadbands, watches
      with their cascades and schedules, and the gate that composes capabilities,
      providers, deadbands and the graph spine.
    - [Standing], [Constitution], [MootDelegation]:
      src/crates/moot/gemot/src/moot/{standing/{event,ledger,gate,persona_chain},
      constitution/{event,fold},delegation,typed_authorization}.rs.  The governance of a group ("moot"): the
      standing ledger, admission policies and persona forks; the fold of signed
      amendments into a constitution; and delegation beneath its grants, which is
      a third authority provider of the gate.

    ** How state and effects are modelled

    A struct is a [Record], an enum an [Inductive] with the source's constructors, a
    method taking [&mut self] a function returning the new state with its result,
    [Result] is [result], a panic is [None].  A [HashMap] or [BTreeMap] is a [gmap]
    (iterated in key order where the source's order is observable), a [HashSet]'s
    iteration order is a parameter known only up to permutation.  Machine integers
    are [Z]; [wrap64], [wrap32], [saturating_add] and [saturating_sub] are written
    where the source's operation wraps or saturates, and a theorem that needs a
    counter not to have overflowed says so.  What the program reads from the machine
    (clock, fresh ids) is an argument of the operation that reads it.  A live kernel
    graph and its replay are compared under one iteration order of the hash sets and
    one allocation order of the slot maps, though each replayed record has its own
    clock and ids.

    ** What the theorems show

    - Graph spine: after any sequence of commits, refused ones included, the log is
      its own replay ([session_is_its_replay]) and refines a graph of maps keyed by
      stable ids ([session_refines]); the precheck is exact on every branch
      ([commit_outcome_exact]); minted edge ids are new; reopening and forking
      recover the counter; a snapshot plus the journal's tail loads to the live
      state ([checkpoint_load_agrees]).
    - Storage: a reopened session is the saved one whatever was written to other
      keys since ([reopened_session_is_saved_session]); removing a node that bears a
      graph archives it first, and a crash in between followed by recovery ends where
      the uninterrupted removal does when no other node bears that graph and nothing
      else was pending ([crash_recovery_completes]).
    - Kernel relations: a payload stays well formed and refines a set of relation
      kinds; a graph of payloads refines a map from pairs of stable ids
      ([kernel_refines_pairs]), so replicas keep agreeing; an edge means a fact; the
      structural revision is a sound cache key.
    - Kernel journal: after any session of deltas that meet what their callers owe
      ([delta_ok] of [KernelReplay], five clauses), the records the capture hook was
      given replay from nothing to a graph that agrees with the live one
      ([live_is_its_journal]), from any earlier cursor to the graph of that moment
      ([snapshot_is_the_past]), and from a saved graph onwards ([checkpoint_and_tail]);
      the URL index is exact, provenance is exactly what the import records say, and
      only a delta through the navigation memory can panic, or one that adds a node
      without an id in a wasm32 build ([what_panics]); a batched facet write is its
      items one by one.  What is compared is listed in [agrees]: keys, statement
      ids, last-visited clocks and the session and revision counters are not.
    - Kernel queries: ego networks and components hold exactly the nodes their walk
      can reach, each once and nearest first; the walk of a component ends and
      overflows its depth exactly at 256 hops; weak components partition the graph
      and agree with the walks; candidates carry their distance.  A fork copies a
      component node by node under fresh ids with its edges and content, and leaves
      the rest alone ([copy_component_faithful]).
    - Causal order: the projection always returns and is the greedy order by key of
      the operations with complete history, errors included
      ([causal_projection_correct]); it depends on the set of operations only; an
      operation is delivered once its own history is there and stays delivered
      ([causal_delivery]).
    - Lineage: links stay live and inverse of each other, history is not rewritten,
      parent chains end, deletion collects exactly the visits it reports, saving is
      total exactly under a stated condition, back and forward are inverse.
    - Journal: the forward and backward causal queries agree and terminate.
    - Mesh: the board is independent of the order of operations where it can be,
      claims go to the lowest hash, leases are exclusive and backed by operations,
      commits honour their grant, checkpoints never rewind, blob collection is exact.
    - Authority: capabilities round-trip and their path encoding embeds coverage;
      signing bytes are injective; chain verification terminates and is exact,
      delegated authority is contained in the root's, revocation cascades; a
      petition is confined to its scope and facets, except that it may disconnect an
      edge anywhere by its id ([petition_confined]); projections of grants survive
      every petition, behaviors and schedules are rate-bounded, watches wake exactly
      and inside what their subject may read, cascades terminate within budget.
    - Moots: the constitution is independent of the order of operations, its fold
      ends and follows the rules in force at each step, outsiders have no say, an
      accepted majority amendment stays accepted, and what a live peer answers to one
      more operation says where the fold goes, a stale revision or a second founding
      apart ([live_apply_is_the_fold]); the chain walk ends and is exact, delegated authority lies
      inside a current grant, revocation and ungranting cascade exactly, the
      inspection view is the decision, key epochs count revocations, and a peer
      petitioning through the gate stays inside a grant; scores agree, rate limits
      hold over every window, forking never launders debt.
    - Deviations found are theorems or lemmas on concrete inputs in the [Sample]
      modules (a forged root certificate is accepted; saving panics after deleting a
      creator; a leased commit may exceed its grant; vouching for oneself mints
      standing; a disconnect escapes its scope;
      and others).

    ** Fuel and bounds

    [Journal.causes_loop] runs on fuel proved sufficient for every journal;
    [Stemma.root_of], [collect_subtree], [delete_branch] and the linear history run
    on fuel bounded by the number of visits, and [parent_chains_end] and
    [delete_owner_safe] show it is enough on every reachable lineage (the linear
    history is shown to exceed any fuel on one input);
    [DelegationTable.verify_inner] runs on the number of adopted certificates plus
    two, [MootDelegation.live_loop] on the number of accepted certificates plus one
    and [Standing.root_loop] on the size of the fork forest, all proved
    never to run out; [Constitution.advance] runs on the number of revisions the
    amendments name, proved enough when the amendments are hash-linked.
    The walks of [KernelWalk] run on one more than the number of nodes.
    The blocking loop of [Causal] runs on the number of operations plus one pop per
    dependency of each, its ordering loop on the number of operations and its
    reachability walk on the sum of the dependency counts; [causal_projection_correct]
    and [happens_before_exact] show that none runs out.  [decimal] has the 20 digits of a [u64].

    ** Not modelled

    Serialization through serde, postcard and CBOR (a [Codec] known by its round
    trip); cryptographic primitives (parameters with their documented laws); Display
    texts; transport, UI, rendering, engines, ports and vendored patches.  Of
    chartulary: RDF and taxonomy.  Of the graph kernel: the persisted snapshot and its
    rkyv forms, the searches petgraph runs, URL containment, filters,
    charts, the batch of tags and the host-facing types; the
    position a delta carries is captured and, as in the source, stored nowhere.
    JSON, UUID and field-definition texts are parameters known by what the kernel
    uses of them.  Of gemot: records, flora, groups, tulpa, the stores, wire and
    service.  Of stickleback: the stores and epoch retention.  What would
    come next: the kernel's snapshots, gemot's record and group folds, the stores of
    stickleback, forme's tree. *)

From Stdlib Require Export ZArith Lia Ascii.
From stdpp Require Export base gmap sets list strings sorting.
From stdpp Require Export ssreflect.
#[export] Set Default Goal Selector "!".

#[global] Arguments String.append !_ _ : simpl nomatch.

(** * Hint databases *)

Create HintDb mere.

(** * Results

    A Rust [Result<A, E>]. *)

Inductive result (E A : Type) : Type :=
| Ok (a : A)
| Err (e : E).
Arguments Ok {E A} _.
Arguments Err {E A} _.

Declare Scope result_scope.
Delimit Scope result_scope with result.

(** The [?] operator. *)
Notation "'let?' x ':=' c 'in' k" :=
  (match c with Ok x => k | Err e => Err e end)
  (at level 10, x binder, c at level 100, k at level 200) : result_scope.

Definition is_ok {E A} (r : result E A) : bool :=
  match r with Ok _ => true | Err _ => false end.

Definition ok_or {E A} (o : option A) (e : E) : result E A :=
  match o with Some a => Ok a | None => Err e end.

Definition map_err {E F A} (f : E → F) (r : result E A) : result F A :=
  match r with Ok a => Ok a | Err e => Err (f e) end.

#[export] Instance result_fmap {E} : FMap (result E) :=
  λ A B f r, match r with Ok a => Ok (f a) | Err e => Err e end.

(** * Machine integers

    Unsigned integers are [Z] values; the release build's wrap-around is
    written out where the source uses plain [+], the saturating operations are
    those of [u64]. *)

Definition u64_max : Z := 18446744073709551615.
Definition u32_max : Z := 4294967295.

Definition is_u64 (z : Z) : Prop := (0 ≤ z ≤ u64_max)%Z.

Definition wrap64 (z : Z) : Z := (z mod (u64_max + 1))%Z.
Definition wrap32 (z : Z) : Z := (z mod (u32_max + 1))%Z.
Definition saturating_add (a b : Z) : Z := Z.min u64_max (a + b).
Definition saturating_mul (a b : Z) : Z := Z.min u64_max (a * b).
Definition saturating_sub (a b : Z) : Z := Z.max 0 (a - b).

Lemma wrap64_small z : is_u64 z → wrap64 z = z.
Proof. intros H. apply Z.mod_small. unfold is_u64 in H. lia. Qed.

Lemma wrap64_range z : is_u64 (wrap64 z).
Proof.
  unfold is_u64, wrap64. pose proof (Z.mod_pos_bound z (u64_max + 1)).
  unfold u64_max in *. lia.
Qed.

Lemma saturating_add_range a b :
  (0 ≤ a)%Z → (0 ≤ b)%Z → is_u64 (saturating_add a b).
Proof. unfold is_u64, saturating_add, u64_max. lia. Qed.

#[export] Hint Resolve wrap64_range saturating_add_range : mere.

(** * Strings

    Rust string slices are byte strings here.  Every delimiter the sources
    split on is an ASCII character, whose byte never occurs inside a multi-byte
    UTF-8 sequence, so the byte-level functions agree with the [char]-level
    ones. *)

Section strings.
Open Scope string_scope.

Fixpoint contains_char (c : ascii) (s : string) : bool :=
  match s with
  | EmptyString => false
  | String a s' => bool_decide (a = c) || contains_char c s'
  end.

(** [str::split(c)]: always at least one piece. *)
Fixpoint split (c : ascii) (s : string) : list string :=
  match s with
  | EmptyString => [""]
  | String a s' =>
      if bool_decide (a = c) then "" :: split c s'
      else match split c s' with
           | [] => [String a ""]
           | h :: t => String a h :: t
           end
  end.

(** [segments.join(c)]. *)
Fixpoint join (c : ascii) (l : list string) : string :=
  match l with
  | [] => ""
  | [x] => x
  | x :: rest => x +:+ String c (join c rest)
  end.

(** [str::strip_suffix(c)]. *)
Fixpoint strip_suffix (c : ascii) (s : string) : option string :=
  match s with
  | EmptyString => None
  | String a EmptyString => if bool_decide (a = c) then Some "" else None
  | String a s' => String a <$> strip_suffix c s'
  end.

(** [str::strip_prefix(p)]. *)
Fixpoint strip_prefix (p s : string) : option string :=
  match p, s with
  | EmptyString, _ => Some s
  | String a p', String b s' =>
      if bool_decide (a = b) then strip_prefix p' s' else None
  | String _ _, EmptyString => None
  end.

(** [str::starts_with(p)]. *)
Definition starts_with (p s : string) : bool :=
  match strip_prefix p s with Some _ => true | None => false end.

(** [str::split_once(c)]. *)
Fixpoint split_once (c : ascii) (s : string) : option (string * string) :=
  match s with
  | EmptyString => None
  | String a s' =>
      if bool_decide (a = c) then Some ("", s')
      else match split_once c s' with
           | Some (l, r) => Some (String a l, r)
           | None => None
           end
  end.
End strings.

Arguments contains_char : simpl nomatch.

Lemma string_app_assoc (s t u : string) : s +:+ (t +:+ u) = (s +:+ t) +:+ u.
Proof. induction s as [|a s IH]; [done|]. cbn. by rw IH. Qed.

Lemma string_app_nil_r (s : string) : s +:+ EmptyString = s.
Proof. induction s as [|a s IH]; [done|]. cbn. by rw IH. Qed.

Lemma strip_prefix_Some p s r : strip_prefix p s = Some r ↔ s = p +:+ r.
Proof.
  revert s. induction p as [|a p IH]; intros s; cbn.
  - split; [by intros [= ->]|by intros ->].
  - destruct s as [|b s]; [done|]. case_bool_decide.
    + rw IH. split; [by intros ->; subst|by intros [= _ ->]].
    + split; [done|]. by intros [= ? _].
Qed.

Lemma starts_with_true p s : starts_with p s = true ↔ ∃ r, s = p +:+ r.
Proof.
  unfold starts_with. destruct (strip_prefix p s) as [r|] eqn:E.
  - apply strip_prefix_Some in E. naive_solver.
  - split; [done|]. intros [r Hr%strip_prefix_Some]. congruence.
Qed.

Section string_lemmas.
Context (c : ascii).

Lemma contains_char_app s t :
  contains_char c (s +:+ t) = contains_char c s || contains_char c t.
Proof.
  induction s as [|a s IH]; [done|].
  cbn. by rw IH orb_assoc.
Qed.

Lemma split_nonempty s : split c s ≠ [].
Proof.
  destruct s as [|a s]; cbn; [done|].
  case_bool_decide; [done|]. by destruct (split c s).
Qed.

Lemma split_no_delim s :
  contains_char c s = false → split c s = [s].
Proof.
  induction s as [|a s IH]; [done|]. cbn.
  intros [-> ?]%orb_false_iff. by rw IH.
Qed.

(** Splitting at a delimiter that ends a delimiter-free prefix. *)
Lemma split_app_delim s t :
  contains_char c s = false →
  split c (s +:+ String c t) = s :: split c t.
Proof.
  induction s as [|a s IH]; cbn.
  - intros _. by rw bool_decide_eq_true_2.
  - intros [-> ?]%orb_false_iff. by rw IH.
Qed.

Lemma split_app s t : split c (s +:+ String c t) = split c s ++ split c t.
Proof.
  induction s as [|a s IH]; cbn.
  - by rw bool_decide_eq_true_2.
  - rw IH. case_bool_decide; [done|].
    pose proof (split_nonempty s). by destruct (split c s).
Qed.

Lemma split_pieces_no_delim s :
  Forall (λ p, contains_char c p = false) (split c s).
Proof.
  induction s as [|a s IH]; cbn.
  - by repeat constructor.
  - case_bool_decide as Ha; [by constructor|].
    destruct (split c s) as [|h t]; [by repeat constructor; rw /= bool_decide_eq_false_2|].
    inversion IH; subst. constructor; [|done].
    cbn. by rw bool_decide_eq_false_2.
Qed.

Lemma join_cons x y l :
  join c (x :: y :: l) = x +:+ String c (join c (y :: l)).
Proof. done. Qed.

Lemma join_app l k :
  l ≠ [] → k ≠ [] → join c (l ++ k) = join c l +:+ String c (join c k).
Proof.
  intros Hl Hk. induction l as [|x l IH]; [done|]. destruct l as [|y l].
  - cbn. by destruct k.
  - change ((x :: y :: l) ++ k) with (x :: y :: (l ++ k)).
    rw !join_cons. change (y :: l ++ k) with ((y :: l) ++ k).
    rw IH //. by rw -string_app_assoc.
Qed.

Lemma join_split s : join c (split c s) = s.
Proof.
  induction s as [|a s IH]; [done|]. cbn.
  case_bool_decide as Ha.
  - subst. pose proof (split_nonempty s).
    destruct (split c s) as [|h t] eqn:E; [done|]. by rw join_cons IH.
  - pose proof (split_nonempty s).
    destruct (split c s) as [|h t] eqn:E; [done|].
    destruct t; cbn in *; by rw -IH.
Qed.

Lemma split_join l :
  l ≠ [] → Forall (λ p, contains_char c p = false) l →
  split c (join c l) = l.
Proof.
  induction l as [|x l IH]; [done|]. intros _ HF.
  inversion HF; subst. destruct l as [|y l].
  - cbn. by apply split_no_delim.
  - rw join_cons split_app_delim // IH //.
Qed.

Lemma split_once_app s t :
  contains_char c s = false →
  split_once c (s +:+ String c t) = Some (s, t).
Proof.
  induction s as [|a s IH]; cbn.
  - intros _. by rw bool_decide_eq_true_2.
  - intros [-> ?]%orb_false_iff. by rw IH.
Qed.

Lemma split_once_Some s l r :
  split_once c s = Some (l, r) →
  s = l +:+ String c r ∧ contains_char c l = false.
Proof.
  revert l. induction s as [|a s IH]; intros l; cbn; [done|].
  case_bool_decide as Ha.
  - intros [= <- <-]. by subst.
  - destruct (split_once c s) as [[l' r']|] eqn:E; [|done].
    intros [= <- <-]. destruct (IH l' eq_refl) as [-> Hl].
    cbn. by rw bool_decide_eq_false_2.
Qed.

Lemma strip_suffix_snoc s : strip_suffix c (s +:+ String c "") = Some s.
Proof.
  induction s as [|a s IH]; cbn.
  - by rw bool_decide_eq_true_2.
  - rw IH. by destruct s.
Qed.

Lemma strip_suffix_Some s t :
  strip_suffix c s = Some t → s = t +:+ String c "".
Proof.
  revert t. induction s as [|a s IH]; intros t; cbn; [done|].
  destruct s as [|b s].
  - case_bool_decide; [|done]. intros [= <-]. by subst.
  - destruct (strip_suffix c (String b s)) as [u|] eqn:E; [|done].
    intros [= <-]. by rw (IH u eq_refl).
Qed.

(** A nonempty delimiter-free tail leaves nothing to strip. *)
Lemma strip_suffix_None s t :
  t ≠ EmptyString → contains_char c t = false →
  strip_suffix c (s +:+ t) = None.
Proof.
  intros Ht Hc. destruct (strip_suffix c (s +:+ t)) as [u|] eqn:E; [|done].
  apply strip_suffix_Some in E. exfalso. revert u E.
  induction s as [|x s IH]; intros u E; cbn in E.
  - subst t. by rw contains_char_app /= bool_decide_eq_true_2 ?orb_true_r in Hc.
  - destruct u as [|y u]; cbn in E; injection E as -> E.
    + by destruct s, t; cbn in E.
    + by apply (IH u).
Qed.
End string_lemmas.

(** * Ordered collections

    A [BTreeSet]/[BTreeMap] is its extensional content (a [gset]/[gmap]); what
    its iterators yield is the ascending enumeration of that content. *)

Definition ascending (X : gset nat) : list nat := merge_sort (≤) (elements X).

Lemma elem_of_ascending X x : x ∈ ascending X ↔ x ∈ X.
Proof. unfold ascending. by rw merge_sort_Permutation elem_of_elements. Qed.

Lemma ascending_sorted X : StronglySorted (≤) (ascending X).
Proof. apply StronglySorted_merge_sort; apply _. Qed.

Lemma ascending_NoDup X : NoDup (ascending X).
Proof. unfold ascending. rw merge_sort_Permutation. apply NoDup_elements. Qed.

#[export] Hint Resolve ascending_sorted ascending_NoDup : mere.

(** [BTreeMap<[u8; 32], V>]: a 32-byte key is its big-endian value, so the
    lexicographic order of arrays is the order of [Z]. *)

Definition key_le {V} (a b : Z * V) : Prop := (a.1 ≤ b.1)%Z.
#[export] Instance key_le_dec {V} : RelDecision (@key_le V).
Proof. intros a b. unfold key_le. apply _. Defined.
#[export] Instance key_le_total {V} : Total (@key_le V).
Proof. intros a b. unfold key_le. lia. Qed.
#[export] Instance key_le_trans {V} : Transitive (@key_le V).
Proof. intros a b c. unfold key_le. lia. Qed.

Definition bt_iter {V} (m : gmap Z V) : list (Z * V) := merge_sort key_le (map_to_list m).
Definition bt_values {V} (m : gmap Z V) : list V := (bt_iter m).*2.
Definition bt_first {V} (m : gmap Z V) : option (Z * V) := head (bt_iter m).

Lemma elem_of_bt_iter {V} (m : gmap Z V) k v : (k, v) ∈ bt_iter m ↔ m !! k = Some v.
Proof. unfold bt_iter. by rw merge_sort_Permutation elem_of_map_to_list. Qed.

Lemma elem_of_bt_values {V} (m : gmap Z V) v : v ∈ bt_values m ↔ ∃ k, m !! k = Some v.
Proof.
  unfold bt_values. rw list_elem_of_fmap. split.
  - intros ([k w] & -> & H%elem_of_bt_iter). by exists k.
  - intros [k H%elem_of_bt_iter]. by exists (k, v).
Qed.

Lemma bt_iter_sorted {V} (m : gmap Z V) : StronglySorted key_le (bt_iter m).
Proof. apply StronglySorted_merge_sort; apply _. Qed.

Lemma sorted_lookup {A} (R : A → A → Prop) l i j x y :
  StronglySorted R l → i < j → l !! i = Some x → l !! j = Some y → R x y.
Proof.
  intros Hs. revert i j. induction Hs as [|a l Hl IH HF]; [done|].
  intros [|i] [|j] Hij Hi Hj; cbn in *; try lia.
  - simplify_eq. rw Forall_forall in HF. apply HF. by eapply list_elem_of_lookup_2.
  - apply (IH i j); [lia|done|done].
Qed.

Lemma bt_iter_keys_NoDup {V} (m : gmap Z V) : NoDup (bt_iter m).*1.
Proof. unfold bt_iter. rw merge_sort_Permutation. apply NoDup_fst_map_to_list. Qed.

(** The first entry is the one with the least key. *)
Lemma bt_first_Some {V} (m : gmap Z V) k v :
  bt_first m = Some (k, v) → m !! k = Some v ∧ ∀ k', is_Some (m !! k') → (k ≤ k')%Z.
Proof.
  unfold bt_first. pose proof (bt_iter_sorted m) as Hs.
  destruct (bt_iter m) as [|[k0 v0] l] eqn:E; [done|]. cbn. intros [= -> ->]. split.
  - apply elem_of_bt_iter. rw E. left.
  - intros k' [v' Hv']. apply elem_of_bt_iter in Hv'. rw E in Hv'.
    apply elem_of_cons in Hv' as [[= -> ->]|Hin]; [done|].
    inversion Hs as [|? ? _ HF]; subst.
    rw Forall_forall in HF. exact (HF _ Hin).
Qed.

Lemma bt_first_None {V} (m : gmap Z V) : bt_first m = None ↔ m = ∅.
Proof.
  unfold bt_first. split; [|by intros ->].
  destruct (bt_iter m) as [|[k v] l] eqn:E; [|done]. intros _.
  apply map_eq. intros i. rw lookup_empty. apply eq_None_not_Some. intros [v Hv].
  apply elem_of_bt_iter in Hv. rw E in Hv. by apply elem_of_nil in Hv.
Qed.

Lemma NoDup_only {A} (l : list A) x : NoDup l → (∀ y, y ∈ l ↔ y = x) → l = [x].
Proof.
  intros Hnd Hin. destruct l as [|y [|z l]].
  - exfalso. apply (not_elem_of_nil x). by apply Hin.
  - f_equal. apply Hin. by left.
  - exfalso. assert (y = x) as -> by (apply Hin; by left). assert (z = x) as -> by (apply Hin; right; by left).
    apply NoDup_cons in Hnd as [Hx _]. apply Hx. by left.
Qed.

(** [BTreeSet<[u8; 32]>] as its iterator. *)
Definition bt_set (X : gset Z) : list Z := merge_sort Z.le (elements X).

Lemma elem_of_bt_set X x : x ∈ bt_set X ↔ x ∈ X.
Proof. unfold bt_set. by rw merge_sort_Permutation elem_of_elements. Qed.

Lemma bt_set_NoDup X : NoDup (bt_set X).
Proof. unfold bt_set. rw merge_sort_Permutation. apply NoDup_elements. Qed.

#[export] Hint Resolve bt_set_NoDup : mere.

(** The derived [Ord] of a pair. *)
Definition lex_le {A B} (R : relation A) (S : relation B) (p q : A * B) : Prop :=
  strict R p.1 q.1 ∨ (p.1 = q.1 ∧ S p.2 q.2).

Section lex.
Context {A B : Type} (R : relation A) (S : relation B) `{!EqDecision A, !RelDecision R, !RelDecision S}.
Context `{!TotalOrder R, !TotalOrder S}.

#[export] Instance lex_le_dec : RelDecision (lex_le R S).
Proof. intros p q. unfold lex_le, strict. apply _. Defined.

#[export] Instance lex_le_total_order : TotalOrder (lex_le R S).
Proof.
  split; [split; [split|]|].
  - intros [a b]. right. by split.
  - intros [a b] [a' b'] [a'' b''] [H1|[H1 H1']] [H2|[H2 H2']]; unfold lex_le; cbn in *; subst; eauto.
    + left. by transitivity a'.
    + right. split; [done|]. by transitivity b'.
  - intros [a b] [a' b'] [H1|[H1 H1']] [H2|[H2 H2']]; cbn in *; subst; try (by destruct H1); try (by destruct H2).
    + destruct (irreflexivity (strict R) a). by transitivity a'.
    + f_equal. exact (anti_symm S _ _ H1' H2').
  - intros p q. assert (∀ p q, lex_le R S p q → p = q ∨ strict (lex_le R S) p q) as Hstrict.
    { clear p q. intros [a b] [a' b'] H1. destruct (decide (lex_le R S (a', b') (a, b))) as [H2|H2]; [left|by right].
      destruct H1 as [H1|[H1 H1']], H2 as [H2|[H2 H2']]; cbn in *; subst; try (by destruct H1); try (by destruct H2).
      - by destruct H1, H2.
      - f_equal. exact (anti_symm S _ _ H1' H2'). }
    assert (lex_le R S p q ∨ lex_le R S q p) as [H1%Hstrict|H1%Hstrict]; [|naive_solver..].
    destruct p as [a b], q as [a' b']. unfold lex_le. cbn. destruct (trichotomy (strict R) a a') as [H1|[<-|H1]]; [naive_solver| |naive_solver].
    destruct (trichotomy (strict S) b b') as [[H2 _]|[<-|[H2 _]]]; naive_solver.
Qed.
End lex.

#[export] Instance Z_le_order : TotalOrder Z.le.
Proof. split; [apply _|]. intros x y. unfold strict. lia. Qed.
#[export] Instance nat_le_order : TotalOrder Nat.le.
Proof. split; [apply _|]. intros x y. unfold strict. lia. Qed.

(** * Folds over sets of events

    A left fold whose steps commute and absorb repetitions depends only on the
    set of its elements. *)

Section fold_set.
Context {A B : Type} (f : A → B → A) (S : list B).
Hypothesis f_comm : ∀ a x y, x ∈ S → y ∈ S → f (f a x) y = f (f a y) x.
Hypothesis f_idem : ∀ a x, x ∈ S → f (f a x) x = f a x.

Lemma fold_left_step_comm l a x :
  l ⊆ S → x ∈ S → fold_left f l (f a x) = f (fold_left f l a) x.
Proof.
  revert a. induction l as [|y l IH]; intros a Hl Hx; cbn; [done|].
  rw f_comm //; [|set_solver]. apply IH; [set_solver|done].
Qed.

Lemma fold_left_absorb l a x : l ⊆ S → x ∈ l → fold_left f l (f a x) = fold_left f l a.
Proof.
  revert a. induction l as [|y l IH]; intros a Hl; [by intros ?%elem_of_nil|].
  intros [->|Hx]%elem_of_cons; cbn.
  - rw f_idem //. set_solver.
  - rw f_comm; [|set_solver..]. apply IH; set_solver.
Qed.

Lemma fold_left_absorb_list l k a : l ⊆ S → k ⊆ l → fold_left f l (fold_left f k a) = fold_left f l a.
Proof.
  revert a. induction k as [|x k IH]; intros a Hl Hk; cbn; [done|].
  rw IH //; [|set_solver]. apply fold_left_absorb; set_solver.
Qed.

Lemma fold_left_swap l k a :
  l ⊆ S → k ⊆ S → fold_left f l (fold_left f k a) = fold_left f k (fold_left f l a).
Proof.
  revert a. induction l as [|x l IH]; intros a Hl Hk; cbn; [done|].
  rw -IH; [|set_solver|done]. f_equal. rw fold_left_step_comm //. set_solver.
Qed.

Lemma fold_left_set_eq l k a :
  l ⊆ S → (∀ x, x ∈ l ↔ x ∈ k) → fold_left f l a = fold_left f k a.
Proof.
  intros Hl He. rw -(fold_left_absorb_list l k a) //; [|set_solver].
  rw fold_left_swap //; [|set_solver]. apply fold_left_absorb_list; set_solver.
Qed.
End fold_set.

(** A slot of a folded state that steps only ever overwrite holds what some
    event filed there, and stays filled. *)

Section fold_view.
Context {G Ev K V : Type} `{EqDecision K}.
Context (step : G → Ev → G) (view : G → K → option V) (filed : Ev → option (K * V)).
Hypothesis step_view : ∀ g o k,
  view (step g o) k =
    match filed o with
    | Some kv => if decide (kv.1 = k) then Some kv.2 else view g k
    | None => view g k
    end.

Lemma fold_view_inv ops g k v :
  view (fold_left step ops g) k = Some v →
  view g k = Some v ∨ ∃ o, o ∈ ops ∧ filed o = Some (k, v).
Proof.
  revert g. induction ops as [|o ops IH]; intros g; cbn; [by left|].
  intros [H|(o' & Ho' & Hf)]%IH; [|right; exists o'; set_solver].
  rw step_view in H. destruct (filed o) as [[k' v']|] eqn:E; [|by left].
  cbn in H. case_decide; [|by left]. right. exists o. simplify_eq. set_solver.
Qed.

Lemma fold_view_keep ops g k : is_Some (view g k) → is_Some (view (fold_left step ops g) k).
Proof.
  revert g. induction ops as [|o ops IH]; intros g H; cbn; [done|].
  apply IH. rw step_view. destruct (filed o) as [[k' v']|]; [|done]. by case_decide.
Qed.

Lemma fold_view_filed ops g o k v :
  o ∈ ops → filed o = Some (k, v) → is_Some (view (fold_left step ops g) k).
Proof.
  revert g. induction ops as [|o' ops IH]; intros g; [by intros ?%elem_of_nil|].
  intros [->|Ho]%elem_of_cons Hf; cbn; [|by eapply IH].
  apply fold_view_keep. rw step_view Hf. by rw decide_True.
Qed.
End fold_view.

(** A duplicate-free list of keys of a map is no longer than the map. *)
Lemma keys_length_le {V} (m : gmap Z V) (l : list Z) :
  NoDup l → (∀ k, k ∈ l → is_Some (m !! k)) → length l ≤ size m.
Proof.
  intros Hnd Hin. rw -size_dom -(size_list_to_set (C := gset Z) l) //.
  apply subseteq_size. intros k Hk. rw elem_of_list_to_set in Hk. rw elem_of_dom. by apply Hin.
Qed.

(** A fold whose steps may fail. *)
Definition foldM {A B} (f : A → B → option A) (l : list B) (a : A) : option A :=
  fold_left (λ acc b, acc ≫= λ a, f a b) l (Some a).

Lemma foldM_app {A B} (f : A → B → option A) l l' a : foldM f (l ++ l') a = foldM f l a ≫= foldM f l'.
Proof.
  unfold foldM. rw fold_left_app. destruct (fold_left _ l (Some a)) as [b|]; [done|]. cbn. by induction l'.
Qed.
Lemma foldM_cons {A B} (f : A → B → option A) x l a : foldM f (x :: l) a = f a x ≫= foldM f l.
Proof. apply (foldM_app f [x] l a). Qed.
Lemma foldM_inv {A B} (P : A → Prop) (f : A → B → option A) l a b :
  (∀ a x a', P a → f a x = Some a' → P a') → P a → foldM f l a = Some b → P b.
Proof.
  intros Hf. revert a. induction l as [|x l IH]; intros a Ha; [by intros [= <-]|]. rw foldM_cons. intros (a' & Hx & Hl)%bind_Some. eapply IH; [by eapply Hf|done].
Qed.
