(* ===== verification/Wire.v ===== *)
(** Text and byte encodings the persisted records share: decimal integers
    ([u64::to_string], [str::parse]), hexadecimal keys ([Subject] of
    crates/servitor/src/lib.rs), and the length-prefixed byte strings of signed
    payloads.

    A 32-byte key is its big-endian value, so the order of arrays is the order
    of [Z]; a byte is a [Z] below 256. *)

From S2P Require Import Prelude.

Local Open Scope Z_scope.

(** ** Fixed-width integers as bytes *)

(** [to_le_bytes] of a [w]-byte integer. *)
Fixpoint le_bytes (w : nat) (z : Z) : list Z :=
  match w with 0%nat => [] | S w => (z mod 256) :: le_bytes w (z / 256) end.

(** The 32 bytes of a key. *)
Definition key_bytes (k : Z) : list Z := reverse (le_bytes 32 k).
Definition key_max : Z := 2 ^ 256 - 1.
Definition is_key (k : Z) : Prop := 0 ≤ k ≤ key_max.

Lemma length_le_bytes w z : length (le_bytes w z) = w.
Proof. revert z. induction w as [|w IH]; intros z; [done|]. cbn. by rw IH. Qed.

Lemma le_bytes_inj w a b :
  0 ≤ a < 256 ^ Z.of_nat w → 0 ≤ b < 256 ^ Z.of_nat w → le_bytes w a = le_bytes w b → a = b.
Proof.
  revert a b. induction w as [|w IH]; intros a b Ha Hb; cbn [le_bytes].
  { cbn in *. intros _. lia. }
  rw Nat2Z.inj_succ Z.pow_succ_r in Ha; [|lia]. rw Nat2Z.inj_succ Z.pow_succ_r in Hb; [|lia].
  intros [= Hm Hd]. apply IH in Hd; [|split; [apply Z.div_pos; lia|apply Z.div_lt_upper_bound; lia]..].
  rw (Z.div_mod a 256) // (Z.div_mod b 256) //. lia.
Qed.

Lemma app_inj_length {A} (a b r s : list A) : length a = length b → a ++ r = b ++ s → a = b ∧ r = s.
Proof. intros Hl. by apply app_inj_1. Qed.

Lemma le_bytes_app_inj w a b r s :
  0 ≤ a < 256 ^ Z.of_nat w → 0 ≤ b < 256 ^ Z.of_nat w →
  le_bytes w a ++ r = le_bytes w b ++ s → a = b ∧ r = s.
Proof.
  intros Ha Hb Heq. apply app_inj_length in Heq as [Heq ->]; [|by rw !length_le_bytes].
  split; [|done]. by apply (le_bytes_inj w).
Qed.

Lemma key_bytes_app_inj a b r s :
  is_key a → is_key b → key_bytes a ++ r = key_bytes b ++ s → a = b ∧ r = s.
Proof.
  unfold key_bytes. intros Ha Hb Heq. apply app_inj_length in Heq as [Heq ->].
  - split; [|done]. apply (inj reverse) in Heq. unfold is_key, key_max in *.
    apply (le_bytes_inj 32); [..|done]; change (256 ^ Z.of_nat 32) with (2 ^ 256); lia.
  - by rw !length_reverse !length_le_bytes.
Qed.

(** [push_bytes]: the length as a [u64], then the bytes. *)
Definition push_bytes (value : list Z) : list Z := le_bytes 8 (Z.of_nat (length value)) ++ value.

Fixpoint str_bytes (s : string) : list Z :=
  match s with EmptyString => [] | String a s => Z.of_N (N_of_ascii a) :: str_bytes s end.
Definition push_str (s : string) : list Z := push_bytes (str_bytes s).

Definition len64 {A} (l : list A) : Prop := Z.of_nat (length l) ≤ u64_max.

Lemma str_bytes_inj s t : str_bytes s = str_bytes t → s = t.
Proof.
  revert t. induction s as [|a s IH]; intros [|b t]; [done..|]. cbn. intros [= Ha%N2Z.inj Hs%IH]. subst.
  f_equal. by rw -(ascii_N_embedding a) -(ascii_N_embedding b) Ha.
Qed.

Lemma push_bytes_app_inj a b r s :
  len64 a → len64 b → push_bytes a ++ r = push_bytes b ++ s → a = b ∧ r = s.
Proof.
  unfold len64, push_bytes. intros Ha Hb. rw -!app_assoc. intros [Hl Heq]%le_bytes_app_inj.
  - apply Nat2Z.inj in Hl. by apply app_inj_length in Heq.
  - change (256 ^ Z.of_nat 8) with (u64_max + 1). lia.
  - change (256 ^ Z.of_nat 8) with (u64_max + 1). lia.
Qed.

Lemma push_str_app_inj a b r s :
  len64 (str_bytes a) → len64 (str_bytes b) → push_str a ++ r = push_str b ++ s → a = b ∧ r = s.
Proof. intros Ha Hb [H%str_bytes_inj ->]%push_bytes_app_inj; done. Qed.

(** ** Digits *)

(** [char::from_digit] and [char::to_digit]. *)
Definition from_digit (d : Z) : ascii := ascii_of_N (Z.to_N (if bool_decide (d < 10) then 48 + d else 87 + d)).

Definition to_digit (radix : Z) (c : ascii) : option Z :=
  let n := Z.of_N (N_of_ascii c) in
  let d := if bool_decide (48 ≤ n ≤ 57) then n - 48
           else if bool_decide (97 ≤ n ≤ 122) then n - 87
           else if bool_decide (65 ≤ n ≤ 90) then n - 55 else radix in
  if bool_decide (d < radix) then Some d else None.

Lemma to_from_digit radix d : 0 ≤ d < radix → radix ≤ 16 → to_digit radix (from_digit d) = Some d.
Proof.
  intros Hd Hr. unfold to_digit, from_digit. destruct (bool_decide_reflect (d < 10)) as [H10|H10].
  - rw N_ascii_embedding; [|lia]. rw Z2N.id; [|lia]. rw (bool_decide_eq_true_2 (48 ≤ _ ≤ 57)); [|lia].
    rw bool_decide_eq_true_2; [|lia]. f_equal. lia.
  - rw N_ascii_embedding; [|lia]. rw Z2N.id; [|lia]. rw (bool_decide_eq_false_2 (48 ≤ _ ≤ 57)); [|lia].
    rw (bool_decide_eq_true_2 (97 ≤ _ ≤ 122)); [|lia]. rw bool_decide_eq_true_2; [|lia]. f_equal. lia.
Qed.

(** The digit loop of [from_str_radix], refusing past [max]. *)
Fixpoint radix_loop (radix max v : Z) (s : string) : option Z :=
  match s with
  | EmptyString => Some v
  | String c s =>
      match to_digit radix c with
      | Some d => let v' := v * radix + d in if bool_decide (v' ≤ max) then radix_loop radix max v' s else None
      | None => None
      end
  end.

Definition plus_sign : ascii := "+"%char.
Definition minus_sign : ascii := "-"%char.

(** [from_str_radix] of an unsigned type: one leading [+] is accepted. *)
Definition parse_radix (radix max : Z) (s : string) : option Z :=
  match s with
  | EmptyString => None
  | String c rest =>
      if bool_decide (c = plus_sign) then if bool_decide (rest = "") then None else radix_loop radix max 0 rest
      else radix_loop radix max 0 s
  end.

Definition parse_u64 : string → option Z := parse_radix 10 u64_max.

Definition i64_min : Z := - 2 ^ 63.
Definition i64_max : Z := 2 ^ 63 - 1.
Definition is_i64 (z : Z) : Prop := i64_min ≤ z ≤ i64_max.

Definition parse_i64 (s : string) : option Z :=
  match s with
  | String c rest =>
      if bool_decide (c = minus_sign)
      then if bool_decide (rest = "") then None else Z.opp <$> radix_loop 10 (- i64_min) 0 rest
      else parse_radix 10 i64_max s
  | EmptyString => None
  end.

(** ** Decimal printing; twenty digits hold a [u64] *)

Fixpoint decimal (fuel : nat) (n : Z) (acc : string) : string :=
  match fuel with
  | 0%nat => acc
  | S fuel =>
      let acc := String (from_digit (n mod 10)) acc in
      if bool_decide (n / 10 = 0) then acc else decimal fuel (n / 10) acc
  end.

Definition print_u64 (n : Z) : string := decimal 20 n "".
Definition print_i64 (n : Z) : string :=
  if bool_decide (n < 0) then String minus_sign (print_u64 (- n)) else print_u64 n.

Lemma decimal_loop fuel max n acc :
  0 ≤ n ≤ max → n < 10 ^ Z.of_nat fuel →
  radix_loop 10 max 0 (decimal fuel n acc) = radix_loop 10 max n acc.
Proof.
  revert n acc. induction fuel as [|fuel IH]; intros n acc Hn Hf.
  { cbn in Hf. replace n with 0 by lia. done. }
  rw Nat2Z.inj_succ Z.pow_succ_r in Hf; [|lia]. cbn [decimal].
  pose proof (Z.mod_pos_bound n 10 ltac:(lia)) as Hm. pose proof (Z.div_mod n 10 ltac:(lia)) as Hdm.
  assert (0 ≤ n / 10) as Hd by (apply Z.div_pos; lia).
  case_bool_decide as Hz.
  - cbn [radix_loop]. rw to_from_digit; [|lia..]. rw bool_decide_eq_true_2; [|lia]. f_equal. lia.
  - rw IH; [|lia|apply Z.div_lt_upper_bound; lia].
    cbn [radix_loop]. rw to_from_digit; [|lia..]. rw bool_decide_eq_true_2; [|lia]. f_equal. lia.
Qed.

Lemma decimal_head fuel n acc : ∃ c r, decimal (S fuel) n acc = String c r ∧ is_Some (to_digit 10 c).
Proof.
  revert n acc. induction fuel as [|fuel IH]; intros n acc; cbn [decimal].
  all: pose proof (Z.mod_pos_bound n 10 ltac:(lia)) as Hm.
  all: assert (is_Some (to_digit 10 (from_digit (n mod 10)))) as Hs by (rw to_from_digit; [by eexists|lia..]).
  - case_bool_decide; by eexists _, _.
  - case_bool_decide; [by eexists _, _|]. apply IH.
Qed.

Lemma contains_char_decimal c fuel n acc :
  to_digit 10 c = None → contains_char c (decimal fuel n acc) = contains_char c acc.
Proof.
  intros Hc. revert n acc. induction fuel as [|fuel IH]; intros n acc; [done|]. cbn [decimal].
  pose proof (Z.mod_pos_bound n 10 ltac:(lia)) as Hm.
  assert (contains_char c (String (from_digit (n mod 10)) acc) = contains_char c acc) as Ha.
  { cbn [contains_char]. rw bool_decide_eq_false_2; [done|]. intros <-. by rw to_from_digit in Hc; [|lia..]. }
  case_bool_decide; [done|]. by rw IH.
Qed.

Lemma print_u64_no_char c n : to_digit 10 c = None → contains_char c (print_u64 n) = false.
Proof. apply contains_char_decimal. Qed.

Lemma parse_radix_digits max s c r :
  s = String c r → is_Some (to_digit 10 c) → parse_radix 10 max s = radix_loop 10 max 0 s.
Proof. intros -> [d Hd]. cbn. case_bool_decide as Hp; [|done]. by rw Hp in Hd. Qed.

Lemma parse_print_u64 n : is_u64 n → parse_u64 (print_u64 n) = Some n.
Proof.
  unfold is_u64. intros Hn. unfold parse_u64, print_u64. destruct (decimal_head 19 n "") as (c & r & Hs & Hc).
  rw (parse_radix_digits _ _ c r) // decimal_loop //. unfold u64_max in Hn. cbn. lia.
Qed.

Lemma parse_print_i64 n : is_i64 n → parse_i64 (print_i64 n) = Some n.
Proof.
  unfold is_i64, i64_min, i64_max. intros Hn. unfold print_i64. destruct (bool_decide_reflect (n < 0)) as [Hneg|Hpos].
  - unfold parse_i64. rw bool_decide_eq_true_2 //. destruct (decimal_head 19 (- n) "") as (c & r & Hs & Hc).
    unfold print_u64. rw bool_decide_eq_false_2; [|by rw Hs]. rw decimal_loop; [cbn; f_equal; lia|unfold i64_min; lia|cbn; lia].
  - unfold print_u64. destruct (decimal_head 19 n "") as (c & r & Hs & Hc). unfold parse_i64.
    assert (c ≠ minus_sign) as Hm by (intros ->; by destruct Hc). rw Hs bool_decide_eq_false_2 //.
    rw -Hs (parse_radix_digits _ _ c r) // decimal_loop //; [unfold i64_max; lia|cbn; lia].
Qed.

(** ** Keys in hexadecimal (crates/servitor/src/lib.rs) *)

Definition hex_byte (b : Z) : string := String (from_digit (b / 16)) (String (from_digit (b mod 16)) "").

Fixpoint hex_bytes (bs : list Z) : string :=
  match bs with [] => "" | b :: bs => hex_byte b +:+ hex_bytes bs end.

Definition to_hex (k : Z) : string := hex_bytes (key_bytes k).

(** [hex.as_bytes().chunks(2)], each read with [u8::from_str_radix]. *)
Fixpoint hex_pairs (s : string) : option (list Z) :=
  match s with
  | EmptyString => Some []
  | String a EmptyString => (λ v, [v]) <$> parse_radix 16 255 (String a "")
  | String a (String b s) =>
      v ← parse_radix 16 255 (String a (String b "")); vs ← hex_pairs s; Some (v :: vs)
  end.

Definition of_bytes (bs : list Z) : Z := fold_left (λ k b, k * 256 + b) bs 0.

Definition from_hex (hex : string) : option Z :=
  if bool_decide (String.length hex ≠ 64%nat) then None else of_bytes <$> hex_pairs hex.

Lemma le_bytes_range w z : Forall (λ b, 0 ≤ b < 256) (le_bytes w z).
Proof. revert z. induction w as [|w IH]; intros z; constructor; [apply Z.mod_pos_bound; lia|apply IH]. Qed.

Lemma key_bytes_range k : Forall (λ b, 0 ≤ b < 256) (key_bytes k).
Proof. unfold key_bytes. apply Forall_reverse, le_bytes_range. Qed.

Lemma hex_pairs_bytes bs : Forall (λ b, 0 ≤ b < 256) bs → hex_pairs (hex_bytes bs) = Some bs.
Proof.
  induction 1 as [|b bs Hb _ IH]; [done|]. cbn.
  assert (0 ≤ b / 16 < 16) as Hd by (split; [apply Z.div_pos; lia|apply Z.div_lt_upper_bound; lia]).
  pose proof (Z.mod_pos_bound b 16 ltac:(lia)) as Hm. pose proof (Z.div_mod b 16 ltac:(lia)) as Hdm.
  rw bool_decide_eq_false_2.
  - cbn [radix_loop]. rw !to_from_digit; [|lia..]. rw bool_decide_eq_true_2; [|lia].
    rw bool_decide_eq_true_2; [|lia]. cbn. rw IH. cbn. do 2 f_equal. lia.
  - intros Hp. assert (to_digit 16 (from_digit (b / 16)) = Some (b / 16)) as Hx by (apply to_from_digit; lia).
    by rw Hp in Hx.
Qed.

Lemma of_bytes_app bs b : of_bytes (bs ++ [b]) = of_bytes bs * 256 + b.
Proof. unfold of_bytes. by rw fold_left_app. Qed.

Lemma of_bytes_le w z : 0 ≤ z < 256 ^ Z.of_nat w → of_bytes (reverse (le_bytes w z)) = z.
Proof.
  revert z. induction w as [|w IH]; intros z Hz.
  { cbn in *. unfold of_bytes. cbn. lia. }
  rw Nat2Z.inj_succ Z.pow_succ_r in Hz; [|lia]. cbn [le_bytes]. rw reverse_cons of_bytes_app IH.
  - pose proof (Z.div_mod z 256 ltac:(lia)). lia.
  - split; [apply Z.div_pos; lia|apply Z.div_lt_upper_bound; lia].
Qed.

Lemma length_hex_bytes bs : String.length (hex_bytes bs) = (2 * length bs)%nat.
Proof. induction bs as [|b bs IH]; [done|]. cbn. rw IH. lia. Qed.

Lemma length_key_bytes k : length (key_bytes k) = 32%nat.
Proof. unfold key_bytes. by rw length_reverse length_le_bytes. Qed.

Lemma of_key_bytes k : is_key k → of_bytes (key_bytes k) = k.
Proof.
  unfold is_key, key_max. intros Hk. apply (of_bytes_le 32).
  change (256 ^ Z.of_nat 32) with (2 ^ 256). lia.
Qed.

Lemma from_to_hex k : is_key k → from_hex (to_hex k) = Some k.
Proof.
  intros Hk. unfold from_hex, to_hex. rw length_hex_bytes length_key_bytes.
  rw bool_decide_eq_false_2; [|lia]. rw (hex_pairs_bytes _ (key_bytes_range k)).
  apply (f_equal Some (of_key_bytes k Hk)).
Qed.

Lemma to_hex_no_char c k : to_digit 16 c = None → contains_char c (to_hex k) = false.
Proof.
  intros Hc. unfold to_hex. induction (key_bytes_range k) as [|b bs Hb _ IH]; [done|]. cbn [hex_bytes].
  rw contains_char_app IH orb_false_r. unfold hex_byte. cbn.
  assert (0 ≤ b / 16 < 16) as Hd by (split; [apply Z.div_pos; lia|apply Z.div_lt_upper_bound; lia]).
  pose proof (Z.mod_pos_bound b 16 ltac:(lia)) as Hm.
  assert (∀ d, 0 ≤ d < 16 → from_digit d ≠ c) as Hne.
  { intros d Hdd <-. by rw to_from_digit in Hc; [|lia..]. }
  by rw !bool_decide_eq_false_2; [|apply Hne..].
Qed.

(** ** Stable sorting: [sort_by_key] *)

Section sort_by_key.
Context {A : Type} (key : A → Z).

Fixpoint insert_by_key (x : A) (l : list A) : list A :=
  match l with
  | [] => [x]
  | y :: l => if bool_decide (key x ≤ key y) then x :: y :: l else y :: insert_by_key x l
  end.
Definition sort_by_key (l : list A) : list A := foldr insert_by_key [] l.

Lemma insert_by_key_perm x l : insert_by_key x l ≡ₚ x :: l.
Proof. induction l as [|y l IH]; cbn; [done|]. case_bool_decide; [done|]. rw IH. apply Permutation_swap. Qed.

Lemma sort_by_key_perm l : sort_by_key l ≡ₚ l.
Proof. unfold sort_by_key. induction l as [|x l IH]; cbn; [done|]. by rw insert_by_key_perm IH. Qed.

Lemma sort_by_key_sorted l : StronglySorted (λ x y, key x ≤ key y) (sort_by_key l).
Proof.
  assert (∀ x k, StronglySorted (λ x y, key x ≤ key y) k → StronglySorted (λ x y, key x ≤ key y) (insert_by_key x k)) as Hins.
  { intros x k. induction 1 as [|y k Hk IH HF]; cbn; [by repeat constructor|]. case_bool_decide as Hxy.
    - repeat constructor; [done|done|done|]. eapply Forall_impl; [exact HF|]. cbn. intros; lia.
    - constructor; [done|]. rw insert_by_key_perm. constructor; [lia|done]. }
  induction l as [|x l IH]; cbn; [constructor|]. by apply Hins.
Qed.

Lemma insert_by_key_min x l : Forall (λ y, key x ≤ key y) l → insert_by_key x l = x :: l.
Proof. destruct l as [|y l]; [done|]. intros HF. inversion HF. cbn. by rw bool_decide_eq_true_2. Qed.

Lemma sort_by_key_id l : StronglySorted (λ x y, key x ≤ key y) l → sort_by_key l = l.
Proof. unfold sort_by_key. induction 1 as [|x l _ IH HF]; [done|]. cbn. rw IH. by apply insert_by_key_min. Qed.
End sort_by_key.

(** [dedup]: adjacent repetitions collapse. *)
Fixpoint dedup (l : list Z) : list Z :=
  match l with
  | [] => []
  | x :: l => match dedup l with
              | y :: r => if bool_decide (x = y) then y :: r else x :: y :: r
              | [] => [x]
              end
  end.

Lemma elem_of_dedup x l : x ∈ dedup l ↔ x ∈ l.
Proof.
  induction l as [|a l IH]; [done|]. cbn. rw elem_of_cons -IH. destruct (dedup l) as [|y r]; [set_solver|].
  case_bool_decide; set_solver.
Qed.

Lemma dedup_NoDup l : StronglySorted (λ x y, x ≤ y) l → NoDup (dedup l) ∧ StronglySorted (λ x y, x ≤ y) (dedup l).
Proof.
  induction 1 as [|x l Hl [IH1 IH2] HF]; [repeat constructor|]. cbn.
  assert (Forall (λ y, x ≤ y) (dedup l)) as HF'.
  { apply Forall_forall. intros y Hy. rw elem_of_dedup in Hy. rw Forall_forall in HF. by apply HF. }
  destruct (dedup l) as [|y r]; [repeat constructor; apply not_elem_of_nil|]. case_bool_decide as Hxy; [done|].
  split; [|by constructor]. apply NoDup_cons. split; [|done]. intros Hx.
  inversion IH2 as [|? ? _ HF2]; subst. rw Forall_forall in HF'. rw Forall_forall in HF2.
  apply elem_of_cons in Hx as [->|Hx]; [done|]. specialize (HF' y ltac:(by left)). specialize (HF2 x Hx). lia.
Qed.

(** ** Lines *)

(** [line.trim().is_empty()]: nothing but Unicode white space, read from UTF-8. *)
Definition code (a : ascii) : Z := Z.of_N (N_of_ascii a).

Fixpoint is_blank (s : string) : bool :=
  match s with
  | EmptyString => true
  | String a s1 =>
      if bool_decide (9 ≤ code a ≤ 13 ∨ code a = 32) then is_blank s1
      else match s1 with
           | String b s2 =>
               if bool_decide (code a = 194 ∧ (code b = 133 ∨ code b = 160)) then is_blank s2
               else match s2 with
                    | String c s3 =>
                        if bool_decide ((code a = 225 ∧ code b = 154 ∧ code c = 128) ∨
                             (code a = 226 ∧ code b = 128 ∧ (128 ≤ code c ≤ 138 ∨ 168 ≤ code c ≤ 169 ∨ code c = 175)) ∨
                             (code a = 226 ∧ code b = 129 ∧ code c = 159) ∨
                             (code a = 227 ∧ code b = 128 ∧ code c = 128))
                        then is_blank s3 else false
                    | EmptyString => false
                    end
           | EmptyString => false
           end
  end.

Definition space : ascii := " "%char.

Lemma is_blank_digit radix a s : is_Some (to_digit radix a) → radix ≤ 36 → is_blank (String a s) = false.
Proof.
  intros [d Hd] Hr. assert (48 ≤ code a ≤ 122) as Ha.
  { unfold to_digit in Hd. fold (code a) in Hd. pose proof (N2Z.is_nonneg (N_of_ascii a)).
    destruct (bool_decide_reflect (48 ≤ code a ≤ 57)); [lia|].
    destruct (bool_decide_reflect (97 ≤ code a ≤ 122)); [lia|].
    destruct (bool_decide_reflect (65 ≤ code a ≤ 90)); [lia|].
    rw bool_decide_eq_false_2 // in Hd. lia. }
  cbn. rw bool_decide_eq_false_2; [|lia]. destruct s as [|b s2]; [done|]. rw bool_decide_eq_false_2; [|lia].
  destruct s2 as [|c s3]; [done|]. rw bool_decide_eq_false_2; [done|lia].
Qed.

Lemma to_hex_not_blank k s : is_blank (to_hex k +:+ s) = false.
Proof.
  unfold to_hex. pose proof (key_bytes_range k) as HF. pose proof (length_key_bytes k) as Hl.
  destruct (key_bytes k) as [|b bs]; [done|]. inversion HF; subst.
  assert (0 ≤ b / 16 < 16) as Hd by (split; [apply Z.div_pos; lia|apply Z.div_lt_upper_bound; lia]).
  apply (is_blank_digit 16); [|lia]. exists (b / 16). apply to_from_digit; lia.
Qed.

(** ** Byte order of strings *)

Definition string_le (a b : string) : Prop := String.leb a b = true.
#[export] Instance string_le_dec : RelDecision string_le.
Proof. intros a b. unfold string_le. apply _. Defined.

#[export] Instance string_le_total : Total string_le.
Proof. intros a b. unfold string_le. destruct (String.leb_total a b); auto. Qed.

Lemma string_le_cons c d (a b : string) :
  string_le (String c a) (String d b) ↔ (N_of_ascii c < N_of_ascii d)%N ∨ (c = d ∧ string_le a b).
Proof.
  unfold string_le, String.leb. cbn [String.compare]. unfold Ascii.compare.
  destruct (N.compare_spec (N_of_ascii c) (N_of_ascii d)) as [Heq|Hlt|Hgt].
  - apply (f_equal ascii_of_N) in Heq. rw !ascii_N_embedding in Heq. subst d.
    split; [by right|]. intros [?|[_ ?]]; [lia|done].
  - split; [by left|done].
  - split; [done|]. intros [?|[-> _]]; lia.
Qed.

#[export] Instance string_le_trans : Transitive string_le.
Proof.
  intros a. induction a as [|c a IH]; intros b d; [by destruct d|].
  destruct b as [|c' b]; [done|]. destruct d as [|c'' d]; [by destruct b|]. rw !string_le_cons.
  intros [?|[-> ?]] [?|[-> ?]]; [left; lia|by left|by left|right; eauto].
Qed.
