(* ===== verification/Digests.v ===== *)
(** Typed digests, commitments and blob references
    (crates/system/proofs/src/lib.rs), shared by the mesh's manifests and the moot
    constitution.

    BLAKE3 is a parameter, as the 256-bit value it yields; that two inputs with
    one digest are one input is a hypothesis where a statement needs it. *)

From S2P Require Import Prelude Wire.

Local Open Scope Z_scope.

Inductive DigestAlg : Type := Blake3 | P2pandaOperation | Sha256 | William3.
Record Digest : Type := mkDigest { dg_alg : DigestAlg; dg_bytes : list Z }.

#[export] Instance DigestAlg_eq_dec : EqDecision DigestAlg.
Proof. solve_decision. Defined.
#[export] Instance Digest_eq_dec : EqDecision Digest.
Proof. solve_decision. Defined.
#[export] Instance DigestAlg_countable : Countable DigestAlg.
Proof.
  apply (inj_countable' (λ a, match a with Blake3 => 0%nat | P2pandaOperation => 1%nat | Sha256 => 2%nat | William3 => 3%nat end)
    (λ n, match n with 0%nat => Blake3 | 1%nat => P2pandaOperation | 2%nat => Sha256 | _ => William3 end)). by intros [].
Defined.
#[export] Instance Digest_countable : Countable Digest.
Proof. apply (inj_countable' (λ d, (dg_alg d, dg_bytes d)) (λ p, mkDigest p.1 p.2)). by intros []. Defined.

Definition p2panda_operation (hash : Z) : Digest := mkDigest P2pandaOperation (key_bytes hash).

Inductive ProofTypeError : Type := WrongDigestLength (n : nat).

(** The 32 bytes, when there are 32. *)
Definition as_32 (d : Digest) : result ProofTypeError (list Z) :=
  if bool_decide (length (dg_bytes d) = 32%nat) then Ok (dg_bytes d) else Err (WrongDigestLength (length (dg_bytes d))).

(** [Digest::as_32().is_ok()]. *)
Definition as_32_ok (d : Digest) : bool := match as_32 d with Ok _ => true | Err _ => false end.

Inductive CommitmentScheme : Type :=
| DigestV1 | MerkleV1 | SparseMerkleV1 | MmrV1 | AccumulatorV1 | VectorCommitmentV1 | PsiCardinalityV1.
Inductive CommitmentDomain : Type :=
| MootAdmins | MootMods | MootStakeholders | MootMembers | StandingReceipts | StorageChunks | StorageCheckpoints
| MeshJobResults | DelegationSet.
#[export] Instance CommitmentScheme_eq_dec : EqDecision CommitmentScheme.
Proof. solve_decision. Defined.
#[export] Instance CommitmentDomain_eq_dec : EqDecision CommitmentDomain.
Proof. solve_decision. Defined.

Record AppCommitment : Type := mkAppCommitment {
  ac_scheme : CommitmentScheme;
  ac_domain : CommitmentDomain;
  ac_version : Z;
  ac_digest : Digest
}.

Record BlobRef : Type := mkBlobRef { blob_digest : Digest; blob_byte_len : Z }.
#[export] Instance BlobRef_eq_dec : EqDecision BlobRef.
Proof. solve_decision. Defined.

Section hashing.
Context (blake3 : list Z → Z).

Definition digest_blake3 (bytes : list Z) : Digest := mkDigest Blake3 (key_bytes (blake3 bytes)).

Definition commit_direct (domain : CommitmentDomain) (bytes : list Z) : AppCommitment :=
  mkAppCommitment DigestV1 domain 1 (digest_blake3 bytes).

Definition verifies_direct (c : AppCommitment) (domain : CommitmentDomain) (bytes : list Z) : bool :=
  bool_decide (ac_scheme c = DigestV1) && bool_decide (ac_domain c = domain) &&
  bool_decide (ac_version c = 1) && bool_decide (ac_digest c = digest_blake3 bytes).

Definition blob_ref_blake3 (bytes : list Z) : BlobRef := mkBlobRef (digest_blake3 bytes) (Z.of_nat (length bytes)).

Definition blob_verifies (r : BlobRef) (bytes : list Z) : bool :=
  bool_decide (blob_byte_len r = Z.of_nat (length bytes)) && bool_decide (blob_digest r = digest_blake3 bytes).

(** A BLAKE3 digest never reads as a p2panda operation. *)
Lemma digest_kinds_apart bytes hash : digest_blake3 bytes ≠ p2panda_operation hash.
Proof. by intros [=]. Qed.

Lemma digest_blake3_32 bytes : as_32_ok (digest_blake3 bytes) = true.
Proof. unfold as_32_ok, as_32. rw bool_decide_eq_true_2; [done|]. cbn [dg_bytes digest_blake3]. unfold key_bytes. by rw length_reverse length_le_bytes. Qed.
End hashing.
