(* ===== verification/Capability.v ===== *)
(** The capability algebra (crates/capability/src/lib.rs).

    [Cap] is the sum of the three structural shapes: powers (coverage by
    equality), node scopes (slash-separated, coverage by segment prefix) and
    facet namespaces (dot-separated, coverage by segment prefix); [Mode] is the
    access mode.  The class [Capability] is the trait of the same name together
    with the laws its documentation asks of every implementation; the grant
    layer ([Gate]) is proved against it.

    The theorems: the coverage order is a partial order on every shape, the
    wire form round-trips, parsing yields only well-formed capabilities, and
    segment coverage means exactly what a reader of the printed path expects
    (equal, or longer past a delimiter). *)

From S2P Require Import Prelude.

Local Open Scope string_scope.
Local Open Scope nat_scope.
Local Open Scope stdpp_scope.

(** ** The trait and its laws *)

Class Capability (C : Type) := {
  covers : C → C → bool;
  covers_refl : ∀ a, covers a a = true;
  covers_trans : ∀ a b c,
    covers a b = true → covers b c = true → covers a c = true
}.

(** ** Data *)

Inductive CapError : Type :=
| EmptySegment
| RelativeSegment
| EmptyPower
| EmptyFacetSegment
| UnknownKind (kind : string).

Record ScopePath : Type := mkScope { scope_segments : list string }.
Record FacetNamespace : Type := mkFacet { facet_segments : list string }.

Inductive Cap : Type :=
| Power (name : string)
| Scope (path : ScopePath)
| Facet (namespace : FacetNamespace).

Inductive Mode : Type := Read | Write | Delegate.

#[export] Instance CapError_eq_dec : EqDecision CapError.
Proof. solve_decision. Defined.
#[export] Instance ScopePath_eq_dec : EqDecision ScopePath.
Proof. solve_decision. Defined.
#[export] Instance FacetNamespace_eq_dec : EqDecision FacetNamespace.
Proof. solve_decision. Defined.
#[export] Instance Cap_eq_dec : EqDecision Cap.
Proof. solve_decision. Defined.
#[export] Instance Mode_eq_dec : EqDecision Mode.
Proof. solve_decision. Defined.

(** ** Scope paths *)

Definition slash : ascii := "/"%char.
Definition dot : ascii := "."%char.
Definition colon : ascii := ":"%char.

(** The loop of [ScopePath::parse] over the pieces of [trimmed.split('/')]. *)
Fixpoint scope_pieces (pieces : list string) : result CapError (list string) :=
  match pieces with
  | [] => Ok []
  | segment :: rest =>
      if bool_decide (segment = "") then Err EmptySegment
      else if bool_decide (segment = "." ∨ segment = "..") then Err RelativeSegment
      else match scope_pieces rest with
           | Ok segments => Ok (segment :: segments)
           | Err e => Err e
           end
  end.

Definition ScopePath_parse (raw : string) : result CapError ScopePath :=
  let trimmed := default raw (strip_suffix slash raw) in
  if bool_decide (trimmed = "") then Ok (mkScope [])
  else mkScope <$> scope_pieces (split slash trimmed).

Definition ScopePath_root : ScopePath := mkScope [].

(** Length test, then slice comparison, as [covers_scope] and
    [covers_namespace] both write it. *)
Definition segments_cover (self other : list string) : bool :=
  bool_decide (length self ≤ length other) &&
  bool_decide (take (length self) other = self).

Definition covers_scope (self other : ScopePath) : bool :=
  segments_cover (scope_segments self) (scope_segments other).

Definition ScopePath_display (p : ScopePath) : string :=
  join slash (scope_segments p).

(** ** Facet namespaces *)

Fixpoint facet_pieces (pieces : list string) : result CapError (list string) :=
  match pieces with
  | [] => Ok []
  | segment :: rest =>
      if bool_decide (segment = "") then Err EmptyFacetSegment
      else match facet_pieces rest with
           | Ok segments => Ok (segment :: segments)
           | Err e => Err e
           end
  end.

Definition FacetNamespace_parse (raw : string) : result CapError FacetNamespace :=
  let trimmed := default raw (strip_suffix dot raw) in
  if bool_decide (trimmed = "") then Ok (mkFacet [])
  else mkFacet <$> facet_pieces (split dot trimmed).

Definition FacetNamespace_root : FacetNamespace := mkFacet [].

Definition covers_namespace (self other : FacetNamespace) : bool :=
  segments_cover (facet_segments self) (facet_segments other).

Definition FacetNamespace_display (n : FacetNamespace) : string :=
  join dot (facet_segments n).

(** ** Capabilities *)

Definition Cap_power (name : string) : result CapError Cap :=
  if bool_decide (name = "") then Err EmptyPower else Ok (Power name).

Definition Cap_scope (raw : string) : result CapError Cap :=
  Scope <$> ScopePath_parse raw.

Definition Cap_facet (raw : string) : result CapError Cap :=
  Facet <$> FacetNamespace_parse raw.

Definition root_scope : Cap := Scope ScopePath_root.
Definition root_facet : Cap := Facet FacetNamespace_root.

Definition Cap_parse (raw : string) : result CapError Cap :=
  match split_once colon raw with
  | Some (kind, rest) =>
      if bool_decide (kind = "power") then Cap_power rest
      else if bool_decide (kind = "scope") then Cap_scope rest
      else if bool_decide (kind = "facet") then Cap_facet rest
      else if negb (contains_char slash kind) then Err (UnknownKind kind)
      else Cap_scope raw
  | None => Cap_scope raw
  end.

Definition to_wire (c : Cap) : string :=
  match c with
  | Power name => "power:" +:+ name
  | Scope path => "scope:" +:+ ScopePath_display path
  | Facet namespace => "facet:" +:+ FacetNamespace_display namespace
  end.

Definition Cap_covers (self needed : Cap) : bool :=
  match self, needed with
  | Power held, Power want => bool_decide (held = want)
  | Scope held, Scope want => covers_scope held want
  | Facet held, Facet want => covers_namespace held want
  | _, _ => false
  end.

(** ** Modes: [Mode::covers] is [self >= needed] in the derived order. *)

Definition mode_rank (m : Mode) : nat :=
  match m with Read => 0 | Write => 1 | Delegate => 2 end.

Definition Mode_covers (self needed : Mode) : bool :=
  bool_decide (mode_rank needed ≤ mode_rank self).

(** ** Well-formed capabilities: what the constructors and parsers admit *)

Definition scope_segment_ok (s : string) : Prop :=
  s ≠ "" ∧ s ≠ "." ∧ s ≠ ".." ∧ contains_char slash s = false.
Definition facet_segment_ok (s : string) : Prop :=
  s ≠ "" ∧ contains_char dot s = false.

Definition scope_wf (p : ScopePath) : Prop := Forall scope_segment_ok (scope_segments p).
Definition facet_wf (n : FacetNamespace) : Prop := Forall facet_segment_ok (facet_segments n).

Definition Cap_wf (c : Cap) : Prop :=
  match c with
  | Power name => name ≠ ""
  | Scope p => scope_wf p
  | Facet n => facet_wf n
  end.

(** ** Lemmas *)

Lemma segments_cover_prefix a b : segments_cover a b = true ↔ a `prefix_of` b.
Proof.
  unfold segments_cover. rw andb_true_iff !bool_decide_eq_true. split.
  - intros [_ H]. exists (drop (length a) b). rw -{1}H. symmetry. apply take_drop.
  - intros [k ->]. rw length_app. split; [lia|]. apply take_app_length.
Qed.

Lemma segments_cover_refl a : segments_cover a a = true.
Proof. by apply segments_cover_prefix. Qed.

Lemma segments_cover_trans a b c :
  segments_cover a b = true → segments_cover b c = true → segments_cover a c = true.
Proof. rw !segments_cover_prefix. by intros ->. Qed.

Lemma segments_cover_antisym a b :
  segments_cover a b = true → segments_cover b a = true → a = b.
Proof.
  rw !segments_cover_prefix. intros [k ->] [k' H].
  assert (length (k ++ k') = 0) as Hl.
  { apply (f_equal length) in H. rw !length_app in H. rw length_app. lia. }
  destruct k; [by rw app_nil_r|done].
Qed.

#[export] Hint Resolve segments_cover_refl segments_cover_trans : mere.

#[export] Program Instance Cap_Capability : Capability Cap := {|
  covers := Cap_covers |}.
Next Obligation.
  intros [n|p|f]; cbn; [by apply bool_decide_eq_true_2| |]; apply segments_cover_refl.
Qed.
Next Obligation.
  intros [n|p|f] [n'|p'|f'] [n''|p''|f'']; cbn; try done.
  - rw !bool_decide_eq_true. congruence.
  - apply segments_cover_trans.
  - apply segments_cover_trans.
Qed.

#[export] Program Instance Mode_Capability : Capability Mode := {|
  covers := Mode_covers |}.
Next Obligation. intros a. by apply bool_decide_eq_true_2. Qed.
Next Obligation.
  intros a b c. unfold Mode_covers. rw !bool_decide_eq_true. lia.
Qed.

(** *** Parsing *)

Lemma scope_pieces_ok pieces :
  Forall scope_segment_ok pieces → scope_pieces pieces = Ok pieces.
Proof.
  induction 1 as [|s l (H1 & H2 & H3 & _) _ IH]; [done|]. cbn.
  rw bool_decide_eq_false_2 // bool_decide_eq_false_2; [|by intros [?|?]].
  by rw IH.
Qed.

Lemma scope_pieces_inv pieces l :
  Forall (λ p, contains_char slash p = false) pieces →
  scope_pieces pieces = Ok l → l = pieces ∧ Forall scope_segment_ok pieces.
Proof.
  revert l. induction pieces as [|s ps IH]; intros l HF; cbn.
  - by intros [= <-].
  - inversion HF; subst. repeat case_bool_decide; try done.
    destruct (scope_pieces ps) as [segs|e] eqn:E; [|done].
    intros [= <-]. destruct (IH segs) as [-> Hps]; [done|done|].
    split; [done|]. constructor; [|done]. clear IH. unfold scope_segment_ok. naive_solver.
Qed.

Lemma facet_pieces_ok pieces :
  Forall facet_segment_ok pieces → facet_pieces pieces = Ok pieces.
Proof.
  induction 1 as [|s l (H1 & _) _ IH]; [done|]. cbn.
  rw bool_decide_eq_false_2 //. by rw IH.
Qed.

Lemma facet_pieces_inv pieces l :
  Forall (λ p, contains_char dot p = false) pieces →
  facet_pieces pieces = Ok l → l = pieces ∧ Forall facet_segment_ok pieces.
Proof.
  revert l. induction pieces as [|s ps IH]; intros l HF; cbn.
  - by intros [= <-].
  - inversion HF; subst. case_bool_decide; [done|].
    destruct (facet_pieces ps) as [segs|e] eqn:E; [|done].
    intros [= <-]. destruct (IH segs) as [-> Hps]; [done|done|].
    split; [done|]. by constructor.
Qed.

(** The printed form of a nonempty list of nonempty delimiter-free segments is
    not empty and has no trailing delimiter. *)
Lemma join_segments c l :
  l ≠ [] → Forall (λ s, s ≠ "" ∧ contains_char c s = false) l →
  join c l ≠ "" ∧ strip_suffix c (join c l) = None.
Proof.
  induction l as [|x l IH]; [done|]. intros _ HF. inversion HF as [|? ? [Hx Hc] HF']; subst.
  destruct l as [|y l].
  - cbn. split; [done|]. by apply (strip_suffix_None c "").
  - rw join_cons. destruct IH as [Hne Hs]; [done|done|]. split.
    + by destruct x.
    + destruct (strip_suffix c (x +:+ String c (join c (y :: l)))) as [u|] eqn:E; [|done].
      apply strip_suffix_Some in E. exfalso.
      destruct (join c (y :: l)) as [|a r] eqn:Ej; [done|]. clear -E Hs.
      revert u E. induction x as [|b x IHx]; intros [|d u] E; cbn in E.
      * done.
      * injection E as _ E. rw E strip_suffix_snoc in Hs. done.
      * by destruct x.
      * injection E as _ E. by apply (IHx u).
Qed.

Lemma scope_wf_plain p :
  scope_wf p → Forall (λ s, s ≠ "" ∧ contains_char slash s = false) (scope_segments p).
Proof. intros H. eapply Forall_impl; [exact H|]. by intros s (?&?&?&?). Qed.

Lemma ScopePath_parse_display p :
  scope_wf p → ScopePath_parse (ScopePath_display p) = Ok p.
Proof.
  destruct p as [[|x l]]; intros Hwf; [done|].
  unfold ScopePath_parse, ScopePath_display; cbn [scope_segments].
  destruct (join_segments slash (x :: l)) as [Hne Hs]; [done|by apply scope_wf_plain in Hwf|].
  rw Hs; cbn [default]. rw bool_decide_eq_false_2 // split_join //.
  - by rw scope_pieces_ok.
  - eapply Forall_impl; [exact Hwf|]. by intros s (?&?&?&?).
Qed.

Lemma FacetNamespace_parse_display n :
  facet_wf n → FacetNamespace_parse (FacetNamespace_display n) = Ok n.
Proof.
  destruct n as [[|x l]]; intros Hwf; [done|].
  unfold FacetNamespace_parse, FacetNamespace_display; cbn [facet_segments].
  destruct (join_segments dot (x :: l)) as [Hne Hs]; [done|by apply Hwf|].
  rw Hs; cbn [default]. rw bool_decide_eq_false_2 // split_join //.
  - by rw facet_pieces_ok.
  - eapply Forall_impl; [exact Hwf|]. by intros s (?&?).
Qed.

Lemma ScopePath_parse_wf raw p : ScopePath_parse raw = Ok p → scope_wf p.
Proof.
  unfold ScopePath_parse. set (t := default raw _).
  case_bool_decide; [by intros [= <-]; constructor|].
  destruct (scope_pieces (split slash t)) as [l|e] eqn:E; [|done]. intros [= <-].
  apply scope_pieces_inv in E as [-> ?]; [done|apply split_pieces_no_delim].
Qed.

Lemma FacetNamespace_parse_wf raw n : FacetNamespace_parse raw = Ok n → facet_wf n.
Proof.
  unfold FacetNamespace_parse. set (t := default raw _).
  case_bool_decide; [by intros [= <-]; constructor|].
  destruct (facet_pieces (split dot t)) as [l|e] eqn:E; [|done]. intros [= <-].
  apply facet_pieces_inv in E as [-> ?]; [done|apply split_pieces_no_delim].
Qed.

#[export] Hint Resolve ScopePath_parse_wf FacetNamespace_parse_wf : mere.

Lemma Cap_parse_wf raw c : Cap_parse raw = Ok c → Cap_wf c.
Proof.
  assert (∀ s d, Cap_scope s = Ok d → Cap_wf d) as Hscope.
  { intros s d. unfold Cap_scope. destruct (ScopePath_parse s) eqn:E; [|done].
    intros [= <-]. cbn. eauto with mere. }
  unfold Cap_parse. destruct (split_once colon raw) as [[k r]|]; [|apply Hscope].
  repeat case_bool_decide; [| apply Hscope| |by destruct (negb _); [|apply Hscope]].
  - unfold Cap_power. case_bool_decide; [done|]. by intros [= <-].
  - unfold Cap_facet. destruct (FacetNamespace_parse r) eqn:E; [|done].
    intros [= <-]. cbn. eauto with mere.
Qed.

Lemma Cap_parse_to_wire c : Cap_wf c → Cap_parse (to_wire c) = Ok c.
Proof.
  unfold Cap_parse. destruct c as [n|p|f]; cbn [to_wire Cap_wf]; intros Hwf.
  - change ("power:" +:+ n) with ("power" +:+ String colon n).
    rw split_once_app //. rw bool_decide_eq_true_2 //.
    unfold Cap_power. by rw bool_decide_eq_false_2.
  - change ("scope:" +:+ ?x) with ("scope" +:+ String colon x).
    rw split_once_app // bool_decide_eq_false_2 // bool_decide_eq_true_2 //.
    unfold Cap_scope. by rw ScopePath_parse_display.
  - change ("facet:" +:+ ?x) with ("facet" +:+ String colon x).
    rw split_once_app // bool_decide_eq_false_2 // bool_decide_eq_false_2 //
      bool_decide_eq_true_2 //.
    unfold Cap_facet. by rw FacetNamespace_parse_display.
Qed.

(** ** Theorems *)

(** Coverage is a partial order on capabilities, across powers, scopes and
    facet namespaces. *)
Theorem Cap_covers_partial_order :
  (∀ a, Cap_covers a a = true) ∧
  (∀ a b c, Cap_covers a b = true → Cap_covers b c = true → Cap_covers a c = true) ∧
  (∀ a b, Cap_covers a b = true → Cap_covers b a = true → a = b).
Proof.
  split_and!.
  - exact (covers_refl (C := Cap)).
  - exact (covers_trans (C := Cap)).
  - intros [n|[p]|[f]] [n'|[p']|[f']]; cbn; try done.
    + by intros ->%bool_decide_eq_true.
    + intros H1 H2. by rw (segments_cover_antisym p p').
    + intros H1 H2. by rw (segments_cover_antisym f f').
Qed.

(** Printing a capability and parsing it back gives the same capability
    exactly when it is well formed (a nonempty power name, or nonempty
    delimiter-free segments). *)
Theorem Cap_wire_roundtrip c : Cap_wf c ↔ Cap_parse (to_wire c) = Ok c.
Proof. split; [apply Cap_parse_to_wire|apply Cap_parse_wf]. Qed.

(** On well-formed scopes the segment test agrees with the reading of the
    printed paths: one scope covers another when it is the root, or prints the
    same, or its printed form followed by a slash begins the other's. *)
Theorem covers_scope_printed a b (Ha : scope_wf a) (Hb : scope_wf b) :
  covers_scope a b = true ↔
  a = ScopePath_root ∨
  ScopePath_display b = ScopePath_display a ∨
  starts_with (ScopePath_display a +:+ String slash "") (ScopePath_display b) = true.
Proof.
  unfold covers_scope, ScopePath_display, ScopePath_root, scope_wf in *.
  destruct a as [a], b as [b]; cbn in *. rw segments_cover_prefix starts_with_true.
  assert (∀ l, Forall scope_segment_ok l → l ≠ [] → split slash (join slash l) = l) as Hsj.
  { intros l Hl ?. apply split_join; [done|]. eapply Forall_impl; [exact Hl|]. by intros ? (?&?&?&?). }
  split.
  - intros [k ->]. destruct a as [|x a]; [by left|right].
    destruct k as [|y k]; [left; by rw app_nil_r|right].
    exists (join slash (y :: k)). rw join_app //. by rw -string_app_assoc.
  - intros [[= ->]|[Heq|[r Heq]]].
    + apply prefix_nil.
    + destruct (decide (a = [])) as [->|Hna]; [apply prefix_nil|].
      destruct (decide (b = [])) as [->|Hnb].
      { apply (f_equal (split slash)) in Heq. rw (Hsj a) // in Heq. cbn in Heq. subst a.
        inversion Ha as [|? ? [H _]]; by subst. }
      apply (f_equal (split slash)) in Heq. rw !Hsj // in Heq. by subst.
    + destruct (decide (a = [])) as [->|Hna]; [apply prefix_nil|].
      destruct (decide (b = [])) as [->|Hnb].
      { by destruct (join slash a). }
      apply (f_equal (split slash)) in Heq.
      rw -string_app_assoc /= split_app !Hsj // in Heq. by exists (split slash r).
Qed.

Lemma covers_scope_printed_witness :
  covers_scope (mkScope ["trail"]) (mkScope ["trailer"; "x"]) = false ∧
  (covers_scope (mkScope ["trail"]) (mkScope ["trail"; "x"]) = true ↔
   mkScope ["trail"] = ScopePath_root ∨
   ScopePath_display (mkScope ["trail"; "x"]) = ScopePath_display (mkScope ["trail"]) ∨
   starts_with (ScopePath_display (mkScope ["trail"]) +:+ String slash "")
     (ScopePath_display (mkScope ["trail"; "x"])) = true).
Proof.
  split; [reflexivity|].
  apply (covers_scope_printed (mkScope ["trail"]) (mkScope ["trail"; "x"]));
    repeat constructor; discriminate.
Defined.
