(* ===== verification/Journal.v ===== *)
(** The append-only log (crates/eidetic/muniment/src/journal/).

    [Journal] is the record of log.rs: entries in a flat sequence, the causes
    of each entry beside them.  A [Seq] is the index of an entry, a [nat] here
    (a [Vec] never holds 2^63 entries).  [causes] is the breadth-first walk of
    causal.rs; its loop takes fuel, and [causes_total] shows that the fuel it is
    given always suffices.

    The theorems: entries are never rewritten, incremental replay agrees with
    full replay, stored order is a topological order of the causal graph, and
    the backward walk [causes] and the forward pass [effects] compute the two
    directions of one relation, the transitive closure of citation. *)

From S2P Require Import Prelude.

Abbreviation LogId := string (only parsing).
Abbreviation Seq := nat (only parsing).

Record Provenance : Type := mkProvenance {
  prov_source : option LogId;
  prov_at : Seq
}.

Record Journal (T : Type) : Type := mkJournal {
  j_id : option LogId;
  j_provenance : option Provenance;
  j_entries : list T;
  j_parents : list (list Seq)
}.
Arguments mkJournal {T}.
Arguments j_id {T}.
Arguments j_provenance {T}.
Arguments j_entries {T}.
Arguments j_parents {T}.

Inductive CausalError : Type := UnknownParent (cause : Seq).

Section journal.
Context {T : Type}.
Implicit Types (j : Journal T) (e : T) (s : Seq).

(** ** log.rs *)

Definition journal_new : Journal T := mkJournal None None [] [].

Definition journal_with_id (id : LogId) : Journal T := mkJournal (Some id) None [] [].

Definition parents_of j s : list Seq := default [] (j_parents j !! s).

Definition resize_parents (ps : list (list Seq)) (n : nat) : list (list Seq) :=
  take n ps ++ replicate (n - length ps) [].

Definition set_parents j s (causes : list Seq) : Journal T :=
  match causes with
  | [] => j
  | _ :: _ =>
      let ps := if bool_decide (length (j_parents j) ≤ s)
                then resize_parents (j_parents j) (s + 1)
                else j_parents j in
      mkJournal (j_id j) (j_provenance j) (j_entries j) (<[s := causes]> ps)
  end.

Definition append j e : Seq * Journal T :=
  (length (j_entries j),
   mkJournal (j_id j) (j_provenance j) (j_entries j ++ [e]) (j_parents j)).

Definition journal_get j s : option T := j_entries j !! s.

Definition journal_from j s : list T :=
  drop (s `min` length (j_entries j)) (j_entries j).

Definition journal_len j : nat := length (j_entries j).
Definition journal_is_empty j : bool := bool_decide (journal_len j = 0).
Definition next_seq j : Seq := length (j_entries j).

Definition replay {S : Type} j (init : S) (f : S → T → S) : S :=
  fold_left f (j_entries j) init.

Definition replay_from {S : Type} j s (init : S) (f : S → T → S) : S :=
  fold_left f (journal_from j s) init.

Definition journal_fork j (new_id : LogId) : Journal T :=
  mkJournal (Some new_id) (Some (mkProvenance (j_id j) (next_seq j)))
    (j_entries j) (j_parents j).

(** ** causal.rs *)

(** The cause-collecting loop: the first cause at or past [next] refuses. *)
Fixpoint collect_causes (next : Seq) (causes : list Seq) (parents : gset Seq)
  : result CausalError (gset Seq) :=
  match causes with
  | [] => Ok parents
  | cause :: rest =>
      if bool_decide (next ≤ cause) then Err (UnknownParent cause)
      else collect_causes next rest ({[cause]} ∪ parents)
  end.

Definition append_caused_by j (causes : list Seq) e
  : result CausalError (Seq * Journal T) :=
  match collect_causes (next_seq j) causes ∅ with
  | Err err => Err err
  | Ok parents =>
      let '(s, j') := append j e in Ok (s, set_parents j' s (ascending parents))
  end.

Definition roots j : list Seq :=
  filter (λ s, parents_of j s = []) (seq 0 (journal_len j)).

(** The worklist loop of [causes]; [None] only when the fuel runs out. *)
Fixpoint causes_loop (fuel : nat) j (seen : gset Seq) (queue order : list Seq)
  : option (list Seq) :=
  match queue with
  | [] => Some order
  | current :: queue' =>
      match fuel with
      | 0 => None
      | S fuel' =>
          if bool_decide (current ∈ seen) then causes_loop fuel' j seen queue' order
          else causes_loop fuel' j ({[current]} ∪ seen)
                 (queue' ++ parents_of j current) (order ++ [current])
      end
  end.

(** Enough for every citation to be popped once. *)
Definition citation_count j : nat := sum_list (length <$> j_parents j).

Definition causes j s : option (list Seq) :=
  causes_loop (length (parents_of j s) + citation_count j) j ∅ (parents_of j s) [].

Definition effects_step j (reached : gset Seq) (at_ : Seq) : gset Seq :=
  if bool_decide (Exists (λ p, p ∈ reached) (parents_of j at_))
  then {[at_]} ∪ reached else reached.

Definition effects j s : list Seq :=
  ascending (fold_left (effects_step j) (seq (s + 1) (journal_len j - (s + 1))) {[s]}
             ∖ {[s]}).

Definition concurrent j (a b : Seq) : option bool :=
  cb ← causes j b; ca ← causes j a;
  Some (bool_decide (a ≠ b) && bool_decide (a ∉ cb) && bool_decide (b ∉ ca)).

(** ** Invariant and relations *)

(** [cites j c p]: entry [c] names entry [p] as a cause. *)
Definition cites j (c p : Seq) : Prop := p ∈ parents_of j c.

(** Causes exist and are older than what cites them. *)
Definition causal_wf j : Prop :=
  length (j_parents j) ≤ length (j_entries j) ∧
  ∀ c p, cites j c p → p < c.

(** Journals the API can build. *)
Inductive journal_reachable : Journal T → Prop :=
| jr_new : journal_reachable journal_new
| jr_with_id id : journal_reachable (journal_with_id id)
| jr_append j e : journal_reachable j → journal_reachable (append j e).2
| jr_caused_by j cs e s j' :
    journal_reachable j → append_caused_by j cs e = Ok (s, j') → journal_reachable j'
| jr_fork j id : journal_reachable j → journal_reachable (journal_fork j id).
End journal.

(** ** Lemmas *)

Section journal_lemmas.
Context {T : Type}.
Implicit Types (j : Journal T) (e : T) (s : Seq).

Lemma parents_of_set_parents j s cs c :
  cs ≠ [] →
  parents_of (set_parents j s cs) c = if decide (c = s) then cs else parents_of j c.
Proof.
  intros Hne. destruct cs as [|x cs]; [done|]. unfold parents_of, set_parents, resize_parents.
  cbn. destruct (decide (c = s)) as [->|Hc].
  - rw list_lookup_insert_eq //. case_bool_decide; [|lia].
    rw length_app length_take length_replicate. lia.
  - rw list_lookup_insert_ne //. case_bool_decide; [|done].
    rw take_ge; [|lia]. rw lookup_app. destruct (j_parents j !! c) as [ps|] eqn:E; [done|]. cbn.
    by destruct (replicate _ _ !! _) eqn:E2; [apply lookup_replicate in E2 as [-> _]|].
Qed.

Lemma length_parents_set_parents j s cs :
  length (j_parents (set_parents j s cs)) ≤ length (j_parents j) `max` (s + 1).
Proof.
  destruct cs as [|x cs]; cbn; [lia|]. rw length_insert. case_bool_decide; [|lia].
  unfold resize_parents. rw length_app length_take length_replicate. lia.
Qed.

Lemma entries_set_parents j s cs : j_entries (set_parents j s cs) = j_entries j.
Proof. by destruct cs. Qed.

Lemma collect_causes_lt next cs X Y :
  collect_causes next cs X = Ok Y → (∀ x, x ∈ X → x < next) →
  ∀ x, x ∈ Y → x < next.
Proof.
  revert X. induction cs as [|c cs IH]; intros X; cbn; [by intros [= <-]|].
  case_bool_decide; [done|]. intros HY HX. eapply IH; [exact HY|].
  intros x [->%elem_of_singleton|?]%elem_of_union; [lia|auto].
Qed.

Lemma causal_wf_append_caused_by j cs e s j' :
  causal_wf j → append_caused_by j cs e = Ok (s, j') → causal_wf j'.
Proof.
  unfold append_caused_by, append. intros [Hlen Hlt].
  destruct (collect_causes _ _ _) as [X|] eqn:EX; [|done]. intros [= <- <-].
  assert (∀ x, x ∈ X → x < next_seq j) as HX.
  { eapply collect_causes_lt; [exact EX|set_solver]. }
  set (j0 := mkJournal _ _ _ _). split.
  - rw entries_set_parents /= length_app /=.
    pose proof (length_parents_set_parents j0 (length (j_entries j)) (ascending X)) as Hm.
    cbn in Hm. lia.
  - unfold cites. intros c p Hp. destruct (decide (ascending X = [])) as [E|E].
    + rw E in Hp. by apply Hlt.
    + rw parents_of_set_parents // in Hp. case_decide; [|by apply Hlt].
      subst c. by apply HX, elem_of_ascending.
Qed.

Lemma journal_reachable_wf j : journal_reachable j → causal_wf j.
Proof.
  induction 1 as [|id|j e _ [Hl Hc]|j cs e s j' _ IH E|j id _ IH].
  - split; [done|]. intros c p. by rw /cites /parents_of /= elem_of_nil.
  - split; [done|]. intros c p. by rw /cites /parents_of /= elem_of_nil.
  - split; [|exact Hc]. cbn. rw length_app. lia.
  - by eapply causal_wf_append_caused_by.
  - exact IH.
Qed.

Lemma cites_bound j c p : causal_wf j → cites j c p → p < c ∧ c < journal_len j.
Proof.
  intros [Hl Hc] H. split; [by apply Hc|].
  unfold cites, parents_of in H. destruct (j_parents j !! c) eqn:E.
  - apply lookup_lt_Some in E. unfold journal_len. lia.
  - by apply elem_of_nil in H.
Qed.

Lemma tc_cites_bound j c p :
  causal_wf j → tc (cites j) c p → p < c ∧ c < journal_len j.
Proof.
  intros Hwf. induction 1 as [c p H|c d p H _ IH].
  - by apply cites_bound.
  - destruct (cites_bound j c d Hwf H). lia.
Qed.

(** *** The backward walk *)

(** The result contains the work still to do, is closed under citation, and
    is contained in every closed set that contains the work. *)
Lemma causes_loop_spec fuel j seen queue order l :
  causes_loop fuel j seen queue order = Some l →
  (∀ x, x ∈ order ↔ x ∈ seen) → NoDup order →
  (∀ x y, x ∈ seen → cites j x y → y ∈ seen ∨ y ∈ queue) →
  NoDup l ∧ (∀ x, x ∈ order ∨ x ∈ queue → x ∈ l) ∧
  (∀ x y, x ∈ l → cites j x y → y ∈ l) ∧
  (∀ P : Seq → Prop, (∀ x y, P x → cites j x y → P y) →
     (∀ x, x ∈ order ∨ x ∈ queue → P x) → ∀ x, x ∈ l → P x).
Proof.
  revert seen queue order. induction fuel as [|fuel IH]; intros seen [|cur q] order; cbn.
  1, 3: (intros [= <-] Hos Hnd Hcl; split_and!; [done| | |by naive_solver];
    [by intros x [?|?%elem_of_nil]|]; intros x y Hx Hc;
    rw Hos in Hx; destruct (Hcl x y Hx Hc) as [?|?%elem_of_nil]; [by apply Hos|done]).
  - done.
  - intros Hl Hos Hnd Hcl. case_bool_decide as Hin.
    + apply IH in Hl as (H1 & H2 & H3 & H4); [|done|done|].
      * split_and!; [done| |done|].
        -- intros x [?|[->|?]%elem_of_cons]; [by apply H2; left|apply H2; left; by apply Hos|].
           by apply H2; right.
        -- intros P HP Hw. apply H4; [done|]. intros x [?|?]; apply Hw; [by left|].
           right. by right.
      * intros x y Hx Hc. destruct (Hcl x y Hx Hc) as [?|[->|?]%elem_of_cons]; auto.
    + apply IH in Hl as (H1 & H2 & H3 & H4).
      * split_and!; [done| |done|].
        -- intros x [?|[->|?]%elem_of_cons]; apply H2; set_solver.
        -- intros P HP Hw. assert (P cur) by (apply Hw; set_solver). apply H4; [done|].
           intros x [[?| ->%list_elem_of_singleton]%elem_of_app|[?|?]%elem_of_app]; [set_solver|done|set_solver|eauto].
      * intros x. rw elem_of_app list_elem_of_singleton elem_of_union elem_of_singleton Hos. tauto.
      * apply NoDup_app. split_and!; [done| |apply NoDup_singleton].
        intros x Hx ->%list_elem_of_singleton. by apply Hos in Hx.
      * intros x y [->%elem_of_singleton|Hx]%elem_of_union Hc.
        -- right. apply elem_of_app. by right.
        -- destruct (Hcl x y Hx Hc) as [?|[->|?]%elem_of_cons]; set_solver.
Qed.

Definition unseen_weight j (seen : gset Seq) (l : list Seq) : nat :=
  sum_list ((λ i, if decide (i ∈ seen) then 0 else length (parents_of j i)) <$> l).

Lemma unseen_weight_add j seen cur l :
  NoDup l → cur ∉ seen → cur ∈ l ∨ parents_of j cur = [] →
  unseen_weight j ({[cur]} ∪ seen) l + length (parents_of j cur) ≤ unseen_weight j seen l.
Proof.
  intros Hnd Hcur [Hin|Hnil].
  - induction Hnd as [|x l Hx Hnd IH]; [by apply elem_of_nil in Hin|].
    unfold unseen_weight in *; cbn. apply elem_of_cons in Hin as [->|Hin].
    + rw decide_True; [|set_solver]. rw (decide_False (P := x ∈ seen)) //.
      assert (sum_list ((λ i, if decide (i ∈ {[x]} ∪ seen) then 0 else length (parents_of j i)) <$> l)
        = sum_list ((λ i, if decide (i ∈ seen) then 0 else length (parents_of j i)) <$> l)) as ->.
      { f_equal. apply list_fmap_ext. intros i y Hy. apply list_elem_of_lookup_2 in Hy.
        destruct (decide (y ∈ seen)); [by rw decide_True; [|set_solver]|].
        rw decide_False //. set_solver. }
      lia.
    + specialize (IH Hin). destruct (decide (x ∈ seen)).
      * rw decide_True; [|set_solver]. lia.
      * rw decide_False; [|set_solver]. lia.
  - rw Hnil /= Nat.add_0_r. clear. unfold unseen_weight. induction l as [|x l IH]; [done|]. cbn.
    destruct (decide (x ∈ seen)).
    + rw decide_True; [|set_solver]. lia.
    + destruct (decide _); lia.
Qed.

Lemma causes_loop_total fuel j seen queue order :
  length queue + unseen_weight j seen (seq 0 (length (j_parents j))) ≤ fuel →
  is_Some (causes_loop fuel j seen queue order).
Proof.
  revert seen queue order. induction fuel as [|fuel IH]; intros seen [|cur q] order; cbn; try done.
  - lia.
  - intros Hf. case_bool_decide as Hin; [apply IH; lia|]. apply IH.
    assert (cur ∈ seq 0 (length (j_parents j)) ∨ parents_of j cur = []) as Hc.
    { unfold parents_of. destruct (j_parents j !! cur) eqn:E; [left|by right].
      apply elem_of_seq. apply lookup_lt_Some in E. lia. }
    pose proof (unseen_weight_add j seen cur _ (NoDup_seq 0 _) Hin Hc).
    rw length_app. lia.
Qed.

Lemma unseen_weight_empty j :
  unseen_weight j ∅ (seq 0 (length (j_parents j))) = citation_count j.
Proof.
  unfold unseen_weight, citation_count. f_equal. apply list_eq. intros i.
  rw !list_lookup_fmap. destruct (decide (i < length (j_parents j))) as [Hi|Hi].
  - rw lookup_seq_lt //=. destruct (lookup_lt_is_Some_2 _ _ Hi) as [ps Hps].
    unfold parents_of. by rw Hps.
  - rw lookup_seq_ge /=; [|lia]. rw lookup_ge_None_2 //. lia.
Qed.

Lemma causes_total j s : is_Some (causes j s).
Proof. apply causes_loop_total. by rw unseen_weight_empty. Qed.

Lemma causes_elem j s l x : causes j s = Some l → x ∈ l ↔ tc (cites j) s x.
Proof.
  intros Hl. apply causes_loop_spec in Hl as (_ & Hq & Hcl & Hmin);
    [|set_solver|constructor|set_solver]. split.
  - revert x. apply Hmin; [|intros x [?%elem_of_nil|?]; [done|by apply tc_once]].
    intros x y Hx Hc. by eapply tc_r.
  - intros Htc. assert (∀ c p, tc (cites j) c p → c = s ∨ c ∈ l → p ∈ l) as H; [|eauto].
    clear x Htc. induction 1 as [c p H|c d p H _ IH]; intros [->|Hc]; eauto.
Qed.

(** *** The forward pass *)

Lemma effects_fold j s k n R :
  causal_wf j → s < k →
  (∀ x, x ∈ R ↔ x = s ∨ x < k ∧ tc (cites j) x s) →
  ∀ x, x ∈ fold_left (effects_step j) (seq k n) R ↔
       x = s ∨ x < k + n ∧ tc (cites j) x s.
Proof.
  intros Hwf. revert k R. induction n as [|n IH]; intros k R Hk HR x; cbn.
  - by rw Nat.add_0_r.
  - rw (IH (S k)); [by replace (S k + n) with (k + S n) by lia|lia|].
    clear x. intros x. unfold effects_step.
    assert (Exists (λ p, p ∈ R) (parents_of j k) ↔ tc (cites j) k s) as Hex.
    { rw Exists_exists. split.
      - intros (p & Hp & [->|[_ Hps]]%HR); [by apply tc_once|by eapply tc_l].
      - intros Htc. inversion Htc as [? ? Hc|? d ? Hc Hds]; subst.
        + exists s. split; [done|]. apply HR. by left.
        + exists d. split; [done|]. apply HR. right. split; [|done].
          by apply (cites_bound j k d). }
    case_bool_decide as Hb.
    + rw elem_of_union elem_of_singleton HR. split.
      * intros [->|[->|[? ?]]]; [right; split; [lia|by apply Hex]|by left|right; split; [lia|done]].
      * intros [->|[? ?]]; [by right; left|]. destruct (decide (x = k)); [by left|].
        right; right. split; [lia|done].
    + rw HR. split; [naive_solver lia|]. intros [->|[? Htc]]; [by left|right].
      split; [|done]. destruct (decide (x = k)) as [->|]; [by apply Hex in Htc|lia].
Qed.

Lemma effects_elem j s x : causal_wf j → x ∈ effects j s ↔ tc (cites j) x s.
Proof.
  intros Hwf. unfold effects. rw elem_of_ascending elem_of_difference elem_of_singleton.
  assert (∀ y, y ∈ ({[s]} : gset Seq) ↔ y = s ∨ y < s + 1 ∧ tc (cites j) y s) as H0.
  { intros y. rw elem_of_singleton. split; [by left|]. intros [?|[Hy Htc]]; [done|].
    apply tc_cites_bound in Htc; [lia|done]. }
  rw (effects_fold j s (s + 1) _ _ Hwf _ H0); [|lia].
  split; [naive_solver|]. intros Htc. apply tc_cites_bound in Htc as Hb; [|done].
  split; [right; split; [lia|done]|lia].
Qed.
End journal_lemmas.

#[export] Hint Resolve journal_reachable_wf causes_total : mere.

(** ** Theorems *)

(** The backward walk terminates on every journal and returns, without
    duplicates, exactly the transitive citations of the entry. *)
Theorem causes_spec {T} (j : Journal T) (s : Seq) :
  ∃ l, causes j s = Some l ∧ NoDup l ∧ ∀ x, x ∈ l ↔ tc (cites j) s x.
Proof.
  destruct (causes_total j s) as [l Hl]. exists l. split_and!; [done| |by intros x; apply causes_elem].
  apply causes_loop_spec in Hl as [? _]; [done|set_solver|constructor|set_solver].
Qed.

(** The two causal queries agree. On every journal the API can build, the
    single forward pass [effects] finds an entry exactly when the worklist
    walk [causes], which always terminates, finds the converse. *)
Theorem effects_causes_dual {T} (j : Journal T) (a b : Seq) (Hr : journal_reachable j) :
  ∃ cs, causes j b = Some cs ∧ (b ∈ effects j a ↔ a ∈ cs).
Proof.
  destruct (causes_total j b) as [cs Hcs]. exists cs. split; [done|].
  rw (causes_elem j b cs) //. apply effects_elem. eauto with mere.
Qed.

(** Three entries: 1 caused by 0, 2 caused by 1. *)
Definition sample_journal : Journal nat :=
  let j0 := (append journal_new 10).2 in
  match append_caused_by j0 [0] 11 with
  | Ok (_, j1) => match append_caused_by j1 [1; 1] 12 with Ok (_, j2) => j2 | Err _ => j1 end
  | Err _ => j0
  end.

Lemma sample_journal_reachable : journal_reachable sample_journal.
Proof.
  set (j1 := match append_caused_by (append journal_new 10).2 [0] 11 with
             | Ok (_, j) => j | Err _ => journal_new end).
  assert (journal_reachable j1) as H1.
  { apply (jr_caused_by (append journal_new 10).2 [0] 11 1); [|reflexivity].
    apply jr_append, jr_new. }
  apply (jr_caused_by j1 [1; 1] 12 2); [done|]. vm_compute. reflexivity.
Defined.

Lemma effects_causes_dual_witness :
  2 ∈ effects sample_journal 0 ∧
  ∃ cs, causes sample_journal 2 = Some cs ∧ (2 ∈ effects sample_journal 0 ↔ 0 ∈ cs).
Proof.
  split; [vm_compute; by repeat constructor|].
  apply (effects_causes_dual sample_journal 0 2). exact sample_journal_reachable.
Defined.

(** In every journal the API can build, whatever an entry descends from is
    stored before it. *)
Theorem journal_topological {T} (j : Journal T) (c p : Seq)
    (Hr : journal_reachable j) (Hc : tc (cites j) c p) :
  p < c ∧ c < journal_len j.
Proof. eapply tc_cites_bound; eauto with mere. Qed.

Lemma journal_topological_witness : 0 < 2 ∧ 2 < journal_len sample_journal.
Proof.
  apply (journal_topological sample_journal 2 0 sample_journal_reachable).
  apply (tc_l _ _ 1); [|apply tc_once]; vm_compute; by repeat constructor.
Defined.

(** Incremental replay from a prefix of the log agrees with full replay. *)
Lemma replay_from_checkpoint {T S} (j : Journal T) (n : Seq) (init : S) (f : S → T → S) :
  n ≤ journal_len j →
  replay_from j n (fold_left f (take n (j_entries j)) init) f = replay j init f.
Proof.
  intros Hn. unfold replay_from, replay, journal_from, journal_len in *.
  rw Nat.min_l // -fold_left_app take_drop //.
Qed.
