(* ===== verification/JobSpec.v ===== *)
(** Job manifests, outputs and identifiers of the mesh
    (crates/mesh/mesh/src/{ident,spec}.rs), with the lease terms of lease.rs that a
    manifest carries.

    Identifiers are byte strings; digests are byte vectors ([list Z]).  The
    validation functions return the first error in source order. *)

From S2P Require Import Prelude Wire Digests.

Local Open Scope string_scope.
Local Open Scope nat_scope.
Local Open Scope stdpp_scope.

(** A 32-byte array, as its big-endian value. *)
Abbreviation Bytes32 := Z (only parsing).

(** ** Byte classes *)

Definition ascii_between (lo hi : nat) (a : ascii) : bool :=
  bool_decide (lo ≤ nat_of_ascii a) && bool_decide (nat_of_ascii a ≤ hi).
Definition is_lower (a : ascii) : bool := ascii_between 97 122 a.
Definition is_digit (a : ascii) : bool := ascii_between 48 57 a.
Definition edge_byte (a : ascii) : bool := is_lower a || is_digit a.

(** ** Identifiers (ident.rs) *)

Inductive IdentError : Type :=
| IdentEmpty
| IdentTooLong
| IdentShape (raw : string)
| IdentSegment (segment : string)
| IdentVersion (version : string).

Definition MAX_IDENT_LEN : nat := 128.

Fixpoint rsplit_once (c : ascii) (s : string) : option (string * string) :=
  match s with
  | EmptyString => None
  | String a s' =>
      match rsplit_once c s' with
      | Some (l, r) => Some (String a l, r)
      | None => if bool_decide (a = c) then Some ("", s') else None
      end
  end.

Definition valid_segment (segment : string) : bool :=
  let bytes := String.list_ascii_of_string segment in
  match head bytes, last bytes with
  | Some first, Some last =>
      edge_byte first && edge_byte last &&
      forallb (λ b, edge_byte b || bool_decide (b = "-"%char) || bool_decide (b = "_"%char)) bytes
  | _, _ => false
  end.

Fixpoint validate_segments (segments : list string) : result IdentError unit :=
  match segments with
  | [] => Ok tt
  | segment :: rest =>
      if valid_segment segment then validate_segments rest else Err (IdentSegment segment)
  end.

Definition ident_validate (raw : string) : result IdentError unit :=
  if bool_decide (raw = "") then Err IdentEmpty
  else if bool_decide (MAX_IDENT_LEN < String.length raw) then Err IdentTooLong
  else match rsplit_once "/"%char raw with
       | None => Err (IdentShape raw)
       | Some (path, version) =>
           if bool_decide (path = "") then Err (IdentShape raw)
           else match validate_segments (split "."%char path) with
                | Err e => Err e
                | Ok _ =>
                    match strip_prefix "v" version with
                    | None => Err (IdentVersion version)
                    | Some digits =>
                        if bool_decide (digits = "") ||
                           negb (forallb is_digit (String.list_ascii_of_string digits))
                        then Err (IdentVersion version) else Ok tt
                    end
                end
       end.

Record ResourceId : Type := mkResourceId { resource_raw : string }.
Record ImplementationId : Type := mkImplementationId { implementation_raw : string }.

#[export] Instance ResourceId_eq_dec : EqDecision ResourceId.
Proof. solve_decision. Defined.
#[export] Instance ImplementationId_eq_dec : EqDecision ImplementationId.
Proof. solve_decision. Defined.

Definition ResourceId_parse (raw : string) : result IdentError ResourceId :=
  match ident_validate raw with Ok _ => Ok (mkResourceId raw) | Err e => Err e end.

(** ** Lease terms (lease.rs) *)

Definition MAX_LEASE_DURATION_MS : Z := 86400000.
Definition MIN_HEARTBEAT_MS : Z := 1000.
Definition MAX_MISS_ALLOWANCE : Z := 60.

Record LeaseTerms : Type := mkLeaseTerms {
  max_duration_ms : Z;
  heartbeat_ms : Z;
  miss_allowance : Z
}.

#[export] Instance LeaseTerms_eq_dec : EqDecision LeaseTerms.
Proof. solve_decision. Defined.

Inductive LeaseTermsError : Type :=
| DurationError (ms : Z) | HeartbeatError (ms : Z) | MissAllowanceError (n : Z).

Definition LeaseTerms_new (max_duration heartbeat : Z) : LeaseTerms :=
  mkLeaseTerms max_duration heartbeat 3.

Definition LeaseTerms_validate (t : LeaseTerms) : result LeaseTermsError unit :=
  if bool_decide (max_duration_ms t = 0%Z) ||
     bool_decide (MAX_LEASE_DURATION_MS < max_duration_ms t)%Z
  then Err (DurationError (max_duration_ms t))
  else if bool_decide (heartbeat_ms t < MIN_HEARTBEAT_MS)%Z ||
          bool_decide (max_duration_ms t < heartbeat_ms t)%Z
  then Err (HeartbeatError (heartbeat_ms t))
  else if bool_decide (miss_allowance t = 0%Z) ||
          bool_decide (MAX_MISS_ALLOWANCE < miss_allowance t)%Z
  then Err (MissAllowanceError (miss_allowance t))
  else Ok tt.

Definition silence_window_ms (t : LeaseTerms) : Z :=
  saturating_mul (heartbeat_ms t) (miss_allowance t).

(** ** Manifests (spec.rs) *)

Definition MAX_INPUTS : nat := 32.
Definition MAX_NAME_LEN : nat := 64.
Definition MAX_OUTPUT_BYTES : Z := 67108864.

Record JobInput : Type := mkJobInput { input_name : string; input_blob : BlobRef }.
Record OutputGrant : Type := mkOutputGrant { grant_name : string; grant_max_bytes : Z }.

Inductive ComputeClass : Type := Cpu | Gpu.
Record ResourceRequirements : Type := mkRequirements {
  req_memory_mib : Z; req_compute : ComputeClass }.
Record HostFacts : Type := mkHostFacts { host_memory_mib : Z; host_gpu : bool }.

Definition satisfied_by (r : ResourceRequirements) (host : HostFacts) : bool :=
  bool_decide (req_memory_mib r ≤ host_memory_mib host)%Z &&
  match req_compute r with Cpu => true | Gpu => host_gpu host end.

Inductive DeterminismClass : Type := Exact | Tolerant | Observed.
Inductive CheckpointClass : Type := Restart | Resumable | NonInterruptible.

Record JobSpec : Type := mkJobSpec {
  spec_resource : ResourceId;
  spec_inputs : list JobInput;
  spec_output : OutputGrant;
  spec_requirements : ResourceRequirements;
  spec_determinism : DeterminismClass;
  spec_checkpoint : CheckpointClass;
  spec_lease : option LeaseTerms
}.

Inductive SpecError : Type :=
| SpecResource (e : IdentError)
| TooManyInputs (n : nat)
| DuplicateInput (name : string)
| SpecMalformedName (name : string)
| MalformedInputDigest (name : string)
| OversizedGrant (bytes : Z)
| SpecLease (e : LeaseTermsError).

Definition name_byte (b : ascii) : bool :=
  is_lower b || is_digit b || bool_decide (b = "-"%char) ||
  bool_decide (b = "_"%char) || bool_decide (b = "."%char).

Definition validate_name (name : string) : result SpecError unit :=
  let bytes := String.list_ascii_of_string name in
  match bytes with
  | [] => Err (SpecMalformedName name)
  | first :: _ =>
      if bool_decide (MAX_NAME_LEN < length bytes) then Err (SpecMalformedName name)
      else if negb (is_lower first || is_digit first) then Err (SpecMalformedName name)
      else if negb (forallb name_byte bytes) then Err (SpecMalformedName name)
      else Ok tt
  end.

Fixpoint validate_inputs (seen : gset string) (inputs : list JobInput) : result SpecError unit :=
  match inputs with
  | [] => Ok tt
  | input :: rest =>
      match validate_name (input_name input) with
      | Err e => Err e
      | Ok _ =>
          if bool_decide (input_name input ∈ seen) then Err (DuplicateInput (input_name input))
          else if negb (as_32_ok (blob_digest (input_blob input)))
          then Err (MalformedInputDigest (input_name input))
          else validate_inputs ({[input_name input]} ∪ seen) rest
      end
  end.

Definition JobSpec_validate (s : JobSpec) : result SpecError unit :=
  match ident_validate (resource_raw (spec_resource s)) with
  | Err e => Err (SpecResource e)
  | Ok _ =>
      match (match spec_lease s with Some terms => LeaseTerms_validate terms | None => Ok tt end) with
      | Err e => Err (SpecLease e)
      | Ok _ =>
          if bool_decide (MAX_INPUTS < length (spec_inputs s))
          then Err (TooManyInputs (length (spec_inputs s)))
          else match validate_inputs ∅ (spec_inputs s) with
               | Err e => Err e
               | Ok _ =>
                   match validate_name (grant_name (spec_output s)) with
                   | Err e => Err e
                   | Ok _ =>
                       if bool_decide (grant_max_bytes (spec_output s) = 0%Z) ||
                          bool_decide (MAX_OUTPUT_BYTES < grant_max_bytes (spec_output s))%Z
                       then Err (OversizedGrant (grant_max_bytes (spec_output s)))
                       else Ok tt
                   end
               end
      end
  end.

Definition JobSpec_input (s : JobSpec) (name : string) : option BlobRef :=
  (λ found, input_blob found.2) <$> list_find (λ i, input_name i = name) (spec_inputs s).

(** ** Outputs (spec.rs) *)

Inductive VerificationClass : Type :=
| ExactBytes
| Tolerance (max_abs_error_ppm : Z)
| ProducerOnly.

Definition verification_class (v : VerificationClass) : DeterminismClass :=
  match v with
  | ExactBytes => Exact
  | Tolerance _ => Tolerant
  | ProducerOnly => Observed
  end.

Definition satisfies (v : VerificationClass) (requested : DeterminismClass) : bool :=
  match verification_class v, requested with
  | Exact, _ => true
  | Tolerant, (Tolerant | Observed) => true
  | Observed, Observed => true
  | _, _ => false
  end.

Record JobOutput : Type := mkJobOutput {
  out_name : string;
  out_blob : BlobRef;
  out_resource : ResourceId;
  out_implementation : ImplementationId;
  out_verification : VerificationClass
}.

Inductive OutputError : Type :=
| OutResource (e : IdentError)
| OutImplementation (e : IdentError)
| OutMalformedName (name : string)
| UngrantedName (name : string)
| WrongResource (r : ResourceId)
| OverGrant (bytes max_bytes : Z)
| OutMalformedDigest
| WeakerThanAsked (declared asked : DeterminismClass).

Definition validate_self (o : JobOutput) : result OutputError unit :=
  match ident_validate (resource_raw (out_resource o)) with
  | Err e => Err (OutResource e)
  | Ok _ =>
      match ident_validate (implementation_raw (out_implementation o)) with
      | Err e => Err (OutImplementation e)
      | Ok _ =>
          match validate_name (out_name o) with
          | Err _ => Err (OutMalformedName (out_name o))
          | Ok _ => if as_32_ok (blob_digest (out_blob o)) then Ok tt else Err OutMalformedDigest
          end
      end
  end.

Definition validate_against (o : JobOutput) (spec : JobSpec) : result OutputError unit :=
  match validate_self o with
  | Err e => Err e
  | Ok _ =>
      if bool_decide (out_name o ≠ grant_name (spec_output spec)) then Err (UngrantedName (out_name o))
      else if bool_decide (out_resource o ≠ spec_resource spec) then Err (WrongResource (out_resource o))
      else if bool_decide (grant_max_bytes (spec_output spec) < blob_byte_len (out_blob o))%Z
      then Err (OverGrant (blob_byte_len (out_blob o)) (grant_max_bytes (spec_output spec)))
      else if negb (satisfies (out_verification o) (spec_determinism spec))
      then Err (WeakerThanAsked (verification_class (out_verification o)) (spec_determinism spec))
      else Ok tt
  end.

(** ** What validation guarantees *)

Lemma validate_against_ok o spec :
  is_ok (validate_against o spec) = true →
  out_name o = grant_name (spec_output spec) ∧
  out_resource o = spec_resource spec ∧
  (blob_byte_len (out_blob o) ≤ grant_max_bytes (spec_output spec))%Z ∧
  satisfies (out_verification o) (spec_determinism spec) = true ∧
  as_32_ok (blob_digest (out_blob o)) = true.
Proof.
  unfold validate_against, validate_self. intros H.
  repeat (case_match; try done). repeat case_bool_decide; try done.
  destruct (satisfies _ _) eqn:?; [|done]. split_and!; first [done|lia|by apply dec_stable].
Qed.

Lemma LeaseTerms_validate_ok t :
  is_ok (LeaseTerms_validate t) = true →
  max_duration_ms t ≠ 0%Z ∧ (max_duration_ms t ≤ MAX_LEASE_DURATION_MS)%Z ∧
  (MIN_HEARTBEAT_MS ≤ heartbeat_ms t ≤ max_duration_ms t)%Z ∧
  miss_allowance t ≠ 0%Z ∧ (miss_allowance t ≤ MAX_MISS_ALLOWANCE)%Z.
Proof.
  unfold LeaseTerms_validate. intros H.
  repeat (case_bool_decide; cbn in H; try done). lia.
Qed.

(** Terms that validate never make the silence window saturate. *)
Lemma silence_window_exact t :
  is_ok (LeaseTerms_validate t) = true →
  (0 ≤ heartbeat_ms t)%Z → (0 ≤ miss_allowance t)%Z →
  silence_window_ms t = (heartbeat_ms t * miss_allowance t)%Z.
Proof.
  intros H%LeaseTerms_validate_ok Hh Hm.
  unfold silence_window_ms, saturating_mul, u64_max, MAX_LEASE_DURATION_MS, MAX_MISS_ALLOWANCE in *.
  apply Z.min_r. nia.
Qed.
