(* ===== verification/Lease.v ===== *)
(** Job leases (crates/mesh/mesh/src/{lease,projection}.rs).

    [LeaseRecord] is the chain of granted epochs of one job; [resolve] builds it
    from the gathered grants and facts exactly as [GatheredLeases::resolve] and
    [apply_facts] do, over the enumeration in operation-hash order of
    [Prelude.bt_values].  [phase_at] is the time-indexed projection, the only
    definition here that takes an observation time.

    Timestamps are [u64] values in [Z]; epoch numbers wrap at 32 bits.

    The theorems: the resolved chain is a chain (consecutive epoch numbers, no
    overlap of binding intervals, nothing after completion, every holder the
    claim winner of its own window, every window inside the signed terms),
    folding the same facts twice changes nothing, and a phase reported as held
    is one whose grant, silence window and end fact all say so. *)

From S2P Require Import Prelude JobSpec.

Local Open Scope Z_scope.

(** ** Data *)

Inductive LeaseActivity : Type := Fetching | Preparing | Running | Checkpointing.

Record LeaseProgress : Type := mkProgress {
  prog_done : Z;
  prog_total : Z;
  checkpoint_held : bool;
  activity : LeaseActivity
}.

Definition LeaseProgress_default : LeaseProgress := mkProgress 0 0 false Running.

Inductive ReleaseReason : Type := Yielded | Failed | InputUnavailable.
Inductive ReclaimReason : Type :=
| ForegroundActivity | Battery | Thermal | Network | QuietHours | AtCapacity
| PolicyChange | Manual.

Inductive LeaseEnd : Type :=
| EndReleased (reason : ReleaseReason) (at_ms : Z)
| EndReclaimed (reason : ReclaimReason) (at_ms : Z)
| EndCompleted (at_ms : Z).

Definition end_at (e : LeaseEnd) : Z :=
  match e with EndReleased _ t | EndReclaimed _ t | EndCompleted t => t end.

Definition is_final (e : LeaseEnd) : bool :=
  match e with EndCompleted _ => true | _ => false end.

Record LeaseEpoch : Type := mkEpoch {
  ep_epoch : Z;
  ep_lease : Bytes32;
  ep_holder : Bytes32;
  granted_at_ms : Z;
  expires_at_ms : Z;
  last_seen_ms : Z;
  progress : LeaseProgress;
  ep_end : option LeaseEnd
}.

Definition boundary_ms (e : LeaseEpoch) : Z :=
  match ep_end e with Some f => end_at f | None => expires_at_ms e end.

Definition epoch_covers (e : LeaseEpoch) (at_ms : Z) : bool :=
  bool_decide (granted_at_ms e ≤ at_ms) && bool_decide (at_ms ≤ expires_at_ms e).

Inductive LapseWindow : Type := WindowExpired | WindowSilent.

Definition lapse_at (e : LeaseEpoch) (at_ms : Z) (terms : LeaseTerms) (skew_ms : Z)
  : option LapseWindow :=
  if bool_decide (saturating_add (expires_at_ms e) skew_ms ≤ at_ms) then Some WindowExpired
  else
    let silent_from :=
      saturating_add (saturating_add (last_seen_ms e) (silence_window_ms terms)) skew_ms in
    if bool_decide (silent_from ≤ at_ms) then Some WindowSilent else None.

Record LeaseRecord : Type := mkLeaseRecord { epochs : list LeaseEpoch }.

Definition LeaseRecord_default : LeaseRecord := mkLeaseRecord [].
Definition record_is_empty (r : LeaseRecord) : bool :=
  match epochs r with [] => true | _ => false end.
Definition current (r : LeaseRecord) : option LeaseEpoch := last (epochs r).

Definition find_epoch (r : LeaseRecord) (n : Z) : option LeaseEpoch :=
  snd <$> list_find (λ e, ep_epoch e = n) (epochs r).
Definition by_lease (r : LeaseRecord) (l : Bytes32) : option LeaseEpoch :=
  snd <$> list_find (λ e, ep_lease e = l) (epochs r).

Definition completed (e : LeaseEpoch) : bool :=
  match ep_end e with Some f => is_final f | None => false end.

Definition next_epoch (r : LeaseRecord) : option (Z * Z) :=
  match last (epochs r) with
  | None => Some (0, 0)
  | Some l => if completed l then None else Some (wrap32 (ep_epoch l + 1), boundary_ms l)
  end.

Definition accepts_grant (r : LeaseRecord) (epoch granted_at : Z) : bool :=
  match next_epoch r with
  | Some (next, boundary) => bool_decide (epoch = next) && bool_decide (boundary ≤ granted_at)
  | None => false
  end.

Definition push_epoch (r : LeaseRecord) (e : LeaseEpoch) : LeaseRecord :=
  mkLeaseRecord (epochs r ++ [e]).

Record GrantFact : Type := mkGrantFact {
  gf_operation : Bytes32;
  gf_author : Bytes32;
  gf_epoch : Z;
  gf_granted_at_ms : Z;
  gf_expires_at_ms : Z
}.

Inductive LeaseFactBody : Type := Heartbeat (p : LeaseProgress) | End_ (e : LeaseEnd).

Record LeaseFact : Type := mkLeaseFact {
  lf_operation : Bytes32;
  lf_author : Bytes32;
  lf_lease : Bytes32;
  lf_at_ms : Z;
  lf_body : LeaseFactBody
}.

Record GatheredLeases : Type := mkGathered {
  g_grants : gmap Z GrantFact;
  g_facts : gmap Z LeaseFact
}.

(** ** Folding facts into the newest epoch *)

(** Lexicographic comparison of [(at_ms, operation)] pairs. *)
Definition key_lt (a b : Z * Z) : Prop := a.1 < b.1 ∨ a.1 = b.1 ∧ a.2 < b.2.
#[export] Instance key_lt_dec : RelDecision key_lt.
Proof. intros a b. unfold key_lt. apply _. Defined.

(** The loop's accumulators: newest heartbeat, earliest end. *)
Definition fact_acc : Type :=
  option (Z * Z * LeaseProgress) * option (Z * Z * LeaseEnd).

Definition admissible (e : LeaseEpoch) (f : LeaseFact) : bool :=
  bool_decide (lf_lease f = ep_lease e) && bool_decide (lf_author f = ep_holder e) &&
  epoch_covers e (lf_at_ms f).

Definition fact_step (cur : LeaseEpoch) (acc : fact_acc) (f : LeaseFact) : fact_acc :=
  if negb (admissible cur f) then acc
  else
    let key := (lf_at_ms f, lf_operation f) in
    match lf_body f with
    | Heartbeat p =>
        match acc.1 with
        | Some (k, _) => if bool_decide (key_lt k key) then (Some (key, p), acc.2) else acc
        | None => (Some (key, p), acc.2)
        end
    | End_ e =>
        match acc.2 with
        | Some (k, _) => if bool_decide (key_lt key k) then (acc.1, Some (key, e)) else acc
        | None => (acc.1, Some (key, e))
        end
    end.

Definition scan_facts (g : GatheredLeases) (cur : LeaseEpoch) : fact_acc :=
  fold_left (fact_step cur) (bt_values (g_facts g)) (None, None).

Definition set_seen (e : LeaseEpoch) (seen : Z) (p : LeaseProgress) (en : option LeaseEnd) : LeaseEpoch :=
  mkEpoch (ep_epoch e) (ep_lease e) (ep_holder e) (granted_at_ms e) (expires_at_ms e) seen p en.

(** The updates [apply_facts] makes to [current] after the scan. *)
Definition apply_scan (cur : LeaseEpoch) (acc : fact_acc) : LeaseEpoch :=
  let cur1 := match acc.1 with
              | Some (k, p) => set_seen cur (Z.max (last_seen_ms cur) k.1) p (ep_end cur)
              | None => cur
              end in
  let cur2 := match acc.2 with
              | Some (_, e) =>
                  if match ep_end cur1 with
                     | Some held => bool_decide (end_at e < end_at held)
                     | None => true
                     end
                  then set_seen cur1 (last_seen_ms cur1) (progress cur1) (Some e) else cur1
              | None => cur1
              end in
  match ep_end cur2 with
  | Some e => set_seen cur2 (Z.min (last_seen_ms cur2) (end_at e)) (progress cur2) (Some e)
  | None => cur2
  end.

Fixpoint update_last {A} (f : A → A) (l : list A) : list A :=
  match l with
  | [] => []
  | [x] => [f x]
  | x :: l' => x :: update_last f l'
  end.

Definition apply_facts (g : GatheredLeases) (r : LeaseRecord) : LeaseRecord :=
  mkLeaseRecord (update_last (λ cur, apply_scan cur (scan_facts g cur)) (epochs r)).

Arguments apply_facts : simpl never.

(** ** Building the chain *)

(** [sort_by_key (epoch, granted_at_ms, operation)]. *)
Definition grant_le (a b : GrantFact) : Prop :=
  gf_epoch a < gf_epoch b ∨
  gf_epoch a = gf_epoch b ∧
    (gf_granted_at_ms a < gf_granted_at_ms b ∨
     gf_granted_at_ms a = gf_granted_at_ms b ∧ gf_operation a ≤ gf_operation b).
#[export] Instance grant_le_dec : RelDecision grant_le.
Proof. intros a b. unfold grant_le. apply _. Defined.

Definition granted_epoch (grant : GrantFact) : LeaseEpoch :=
  mkEpoch (gf_epoch grant) (gf_operation grant) (gf_author grant) (gf_granted_at_ms grant)
    (gf_expires_at_ms grant) (gf_granted_at_ms grant) LeaseProgress_default None.

Definition grant_step (g : GatheredLeases) (terms : LeaseTerms)
    (winner_for : Z → Z → option Bytes32) (r : LeaseRecord) (grant : GrantFact) : LeaseRecord :=
  if negb (accepts_grant r (gf_epoch grant) (gf_granted_at_ms grant)) then r
  else if bool_decide (gf_expires_at_ms grant ≤ gf_granted_at_ms grant) ||
          bool_decide (max_duration_ms terms < gf_expires_at_ms grant - gf_granted_at_ms grant)
  then r
  else
    let boundary := match next_epoch r with Some (_, b) => b | None => 0 end in
    if bool_decide (winner_for boundary (gf_granted_at_ms grant) ≠ Some (gf_author grant)) then r
    else apply_facts g (push_epoch r (granted_epoch grant)).

Definition lease_resolve (g : GatheredLeases) (r : LeaseRecord) (terms : LeaseTerms)
    (winner_for : Z → Z → option Bytes32) : LeaseRecord :=
  fold_left (grant_step g terms winner_for)
    (merge_sort grant_le (bt_values (g_grants g))) (apply_facts g r).

(** ** The time-indexed projection (projection.rs) *)

Record LeasePolicy : Type := mkLeasePolicy { max_skew_ms : Z }.
Definition LeasePolicy_default : LeasePolicy := mkLeasePolicy 60000.

Inductive LapseReason : Type := Expired | HeartbeatSilence.

Inductive LeasePhase : Type :=
| Unleased
| Open (epoch : Z)
| Held (epoch : Z) (lease holder : Bytes32) (expires last_seen : Z) (p : LeaseProgress)
| Released (epoch : Z) (lease holder : Bytes32) (reason : ReleaseReason) (at_ms : Z)
| Reclaimed (epoch : Z) (lease holder : Bytes32) (reason : ReclaimReason) (at_ms : Z)
| Lapsed (epoch : Z) (lease holder : Bytes32) (reason : LapseReason)
| PhaseDone (epoch : Z) (lease holder : Bytes32).

Definition phase_holder (p : LeasePhase) : option Bytes32 :=
  match p with
  | Unleased | Open _ => None
  | Held _ _ h _ _ _ | Released _ _ h _ _ | Reclaimed _ _ h _ _ | Lapsed _ _ h _
  | PhaseDone _ _ h => Some h
  end.

Definition phase_lease (p : LeasePhase) : option Bytes32 :=
  match p with
  | Unleased | Open _ => None
  | Held _ l _ _ _ _ | Released _ l _ _ _ | Reclaimed _ l _ _ _ | Lapsed _ l _ _
  | PhaseDone _ l _ => Some l
  end.

Definition held_by (p : LeasePhase) (me : Bytes32) : bool :=
  match p with Held _ _ h _ _ _ => bool_decide (h = me) | _ => false end.

Definition open_epoch (p : LeasePhase) : option Z :=
  match p with
  | Open e => Some e
  | Released e _ _ _ _ | Reclaimed e _ _ _ _ | Lapsed e _ _ _ => Some (wrap32 (e + 1))
  | Unleased | Held _ _ _ _ _ _ | PhaseDone _ _ _ => None
  end.

(** The newest epoch whose grant is not in the observer's future. *)
Definition observed_epoch (r : LeaseRecord) (at_ms skew : Z) : option LeaseEpoch :=
  snd <$> list_find (λ e, granted_at_ms e ≤ saturating_add at_ms skew) (reverse (epochs r)).

Definition phase_at (r : LeaseRecord) (terms : option LeaseTerms) (at_ms : Z)
    (policy : LeasePolicy) : LeasePhase :=
  match terms with
  | None => Unleased
  | Some terms =>
      let skew := max_skew_ms policy in
      match observed_epoch r at_ms skew with
      | None => Open 0
      | Some e =>
          match (match ep_end e with
                 | Some f => if bool_decide (end_at f ≤ saturating_add at_ms skew) then Some f else None
                 | None => None
                 end) with
          | Some (EndReleased reason t) => Released (ep_epoch e) (ep_lease e) (ep_holder e) reason t
          | Some (EndReclaimed reason t) => Reclaimed (ep_epoch e) (ep_lease e) (ep_holder e) reason t
          | Some (EndCompleted _) => PhaseDone (ep_epoch e) (ep_lease e) (ep_holder e)
          | None =>
              match lapse_at e at_ms terms skew with
              | Some WindowExpired => Lapsed (ep_epoch e) (ep_lease e) (ep_holder e) Expired
              | Some WindowSilent => Lapsed (ep_epoch e) (ep_lease e) (ep_holder e) HeartbeatSilence
              | None => Held (ep_epoch e) (ep_lease e) (ep_holder e) (expires_at_ms e)
                          (last_seen_ms e) (progress e)
              end
          end
      end
  end.

(** ** Invariants *)

(** Heartbeats and ends carry the instant their operation was signed at, as the
    gather phase of the board builds them. *)
Definition facts_consistent (g : GatheredLeases) : Prop :=
  ∀ k f e, g_facts g !! k = Some f → lf_body f = End_ e → end_at e = lf_at_ms f.

(** A window inside the signed terms, with the signs of life and the end inside
    it. *)
Definition window_ok (terms : LeaseTerms) (e : LeaseEpoch) : Prop :=
  granted_at_ms e < expires_at_ms e ∧
  expires_at_ms e - granted_at_ms e ≤ max_duration_ms terms ∧
  granted_at_ms e ≤ last_seen_ms e ≤ boundary_ms e ∧
  granted_at_ms e ≤ boundary_ms e ≤ expires_at_ms e.

(** [e] may follow the epochs [l]: the number and the boundary are the ones
    [next_epoch] names, and the holder is the claim winner of the window that
    starts there. *)
Definition follows (winner_for : Z → Z → option Bytes32) (l : list LeaseEpoch) (e : LeaseEpoch) : Prop :=
  ∃ b, next_epoch (mkLeaseRecord l) = Some (ep_epoch e, b) ∧ b ≤ granted_at_ms e ∧
       winner_for b (granted_at_ms e) = Some (ep_holder e).

Inductive chain_ok (terms : LeaseTerms) (winner_for : Z → Z → option Bytes32)
  : list LeaseEpoch → Prop :=
| chain_nil : chain_ok terms winner_for []
| chain_snoc l e :
    chain_ok terms winner_for l → window_ok terms e → follows winner_for l e →
    chain_ok terms winner_for (l ++ [e]).

(** ** Lemmas *)

Lemma update_last_snoc {A} (f : A → A) l x : update_last f (l ++ [x]) = l ++ [f x].
Proof.
  induction l as [|y l IH]; [done|]. cbn. rw IH. by destruct (l ++ [x]) eqn:E; [destruct l|].
Qed.

Section scan.
Context (g : GatheredLeases) (cur : LeaseEpoch).

Lemma scan_facts_spec :
  (∀ k p, (scan_facts g cur).1 = Some (k, p) →
     ∃ f, f ∈ bt_values (g_facts g) ∧ admissible cur f = true ∧ k.1 = lf_at_ms f) ∧
  (∀ k e, (scan_facts g cur).2 = Some (k, e) →
     ∃ f, f ∈ bt_values (g_facts g) ∧ admissible cur f = true ∧ k.1 = lf_at_ms f ∧
          lf_body f = End_ e).
Proof.
  unfold scan_facts.
  assert (∀ l acc,
    (∀ f, f ∈ l → f ∈ bt_values (g_facts g)) →
    ((∀ k p, acc.1 = Some (k, p) →
       ∃ f, f ∈ bt_values (g_facts g) ∧ admissible cur f = true ∧ k.1 = lf_at_ms f) ∧
     (∀ k e, acc.2 = Some (k, e) →
       ∃ f, f ∈ bt_values (g_facts g) ∧ admissible cur f = true ∧ k.1 = lf_at_ms f ∧
          lf_body f = End_ e)) →
    let r := fold_left (fact_step cur) l acc in
    (∀ k p, r.1 = Some (k, p) →
       ∃ f, f ∈ bt_values (g_facts g) ∧ admissible cur f = true ∧ k.1 = lf_at_ms f) ∧
    (∀ k e, r.2 = Some (k, e) →
       ∃ f, f ∈ bt_values (g_facts g) ∧ admissible cur f = true ∧ k.1 = lf_at_ms f ∧
          lf_body f = End_ e)) as H.
  { intros l. induction l as [|f l IH]; intros acc Hin Hacc; cbn; [done|].
    apply IH; [set_solver|]. clear IH. destruct Hacc as [H1 H2].
    assert (f ∈ bt_values (g_facts g)) by set_solver. unfold fact_step.
    destruct (admissible cur f) eqn:Ha; cbn; [|done].
    destruct acc as [a1 a2]; cbn [fst snd] in *.
    destruct (lf_body f) as [p|e] eqn:Hb.
    - destruct a1 as [[k0 p0]|]; [case_bool_decide; [|done]|]; cbn; (split; [|done]);
        intros k p' Hk; simplify_eq; eauto.
    - destruct a2 as [[k0 e0]|]; [case_bool_decide; [|done]|]; cbn; (split; [done|]);
        intros k e' Hk; simplify_eq; eauto 10. }
  apply H; [done|]. by split.
Qed.

Lemma scan_facts_apply acc : scan_facts g (apply_scan cur acc) = scan_facts g cur.
Proof.
  unfold scan_facts. f_equal. unfold fact_step, admissible, epoch_covers.
  assert (ep_lease (apply_scan cur acc) = ep_lease cur ∧
          ep_holder (apply_scan cur acc) = ep_holder cur ∧
          granted_at_ms (apply_scan cur acc) = granted_at_ms cur ∧
          expires_at_ms (apply_scan cur acc) = expires_at_ms cur) as (-> & -> & -> & ->); [|done].
  unfold apply_scan. destruct acc as [[[? ?]|] [[? ?]|]]; cbn;
    destruct (ep_end cur) eqn:?; cbn; try case_bool_decide; cbn; rw ?Heqo; done.
Qed.
End scan.

Lemma apply_scan_idem cur acc : apply_scan (apply_scan cur acc) acc = apply_scan cur acc.
Proof.
  destruct cur as [a b c d e seen p en]. unfold apply_scan.
  destruct acc as [[[k1 p1]|] [[k2 e2]|]], en as [held|]; cbn;
    repeat (case_bool_decide; cbn); unfold set_seen; cbn; f_equal; lia.
Qed.

Lemma apply_scan_fixed cur acc :
  let e := apply_scan cur acc in
  ep_epoch e = ep_epoch cur ∧ ep_lease e = ep_lease cur ∧ ep_holder e = ep_holder cur ∧
  granted_at_ms e = granted_at_ms cur ∧ expires_at_ms e = expires_at_ms cur.
Proof.
  unfold apply_scan. destruct acc as [[[k1 p1]|] [[k2 e2]|]]; cbn;
    destruct (ep_end cur) eqn:E; cbn; repeat (case_bool_decide; cbn); rw ?E; done.
Qed.

Lemma apply_scan_window g terms cur :
  facts_consistent g → window_ok terms cur → window_ok terms (apply_scan cur (scan_facts g cur)).
Proof.
  intros Hc (Hw1 & Hw2 & Hw3 & Hw4). destruct (scan_facts_spec g cur) as [Hh He].
  assert (∀ f, admissible cur f = true → granted_at_ms cur ≤ lf_at_ms f ≤ expires_at_ms cur) as Hadm.
  { intros f. unfold admissible, epoch_covers. rw !andb_true_iff !bool_decide_eq_true. lia. }
  assert (∀ k p, (scan_facts g cur).1 = Some (k, p) → granted_at_ms cur ≤ k.1 ≤ expires_at_ms cur) as Hh'.
  { intros k p Hk. destruct (Hh k p Hk) as (f & _ & Ha & ->). by apply Hadm. }
  assert (∀ k e, (scan_facts g cur).2 = Some (k, e) → granted_at_ms cur ≤ end_at e ≤ expires_at_ms cur) as He'.
  { intros k e Hk. destruct (He k e Hk) as (f & [op Hf]%elem_of_bt_values & Ha & _ & Hb).
    rw (Hc op f e) //. by apply Hadm. }
  destruct (scan_facts g cur) as [h e]; cbn [fst snd] in *. clear Hh He Hadm.
  destruct cur as [a b c gr ex seen pr en]. unfold window_ok, boundary_ms, apply_scan in *; cbn in *.
  destruct h as [[k1 p1]|]; [specialize (Hh' _ _ eq_refl)|clear Hh'];
    (destruct e as [[k2 e2]|]; [specialize (He' _ _ eq_refl)|clear He']);
    destruct en as [held|]; cbn in *; repeat (case_bool_decide; cbn in *); lia.
Qed.

Lemma follows_fixed winner_for l e e' :
  ep_epoch e' = ep_epoch e → ep_holder e' = ep_holder e → granted_at_ms e' = granted_at_ms e →
  follows winner_for l e → follows winner_for l e'.
Proof. intros H1 H2 H3. unfold follows. by rw H1 H2 H3. Qed.

Lemma apply_facts_chain g terms winner_for r :
  facts_consistent g → chain_ok terms winner_for (epochs r) →
  chain_ok terms winner_for (epochs (apply_facts g r)).
Proof.
  intros Hc H. destruct r as [l]; unfold apply_facts; cbn in *.
  destruct H as [|l e Hl Hw Hf]; [constructor|].
  rw update_last_snoc. destruct (apply_scan_fixed e (scan_facts g e)) as (H1 & _ & H3 & H4 & _).
  constructor; [done|by apply apply_scan_window|by eapply follows_fixed].
Qed.

Lemma grant_step_chain g terms winner_for r grant :
  facts_consistent g → chain_ok terms winner_for (epochs r) →
  chain_ok terms winner_for (epochs (grant_step g terms winner_for r grant)).
Proof.
  intros Hc Hr. unfold grant_step, accepts_grant.
  destruct (next_epoch r) as [[next boundary]|] eqn:En; [|done].
  case_bool_decide as H1; [|done]; case_bool_decide as H2; [|done]; cbn.
  repeat (case_bool_decide; cbn; try done).
  apply apply_facts_chain; [done|]. constructor; [done| |].
  - unfold window_ok, boundary_ms; cbn. lia.
  - exists boundary. destruct r as [l]; cbn in *. rw En H1. split_and!; [done|done|].
    done.
Qed.

Lemma lease_resolve_chain g r terms winner_for :
  facts_consistent g → chain_ok terms winner_for (epochs r) →
  chain_ok terms winner_for (epochs (lease_resolve g r terms winner_for)).
Proof.
  intros Hc Hr. unfold lease_resolve. generalize (merge_sort grant_le (bt_values (g_grants g))).
  intros l. apply (apply_facts_chain g) in Hr; [|done]. revert Hr. generalize (apply_facts g r).
  clear r. induction l as [|gr l IH]; intros r Hr; cbn; [done|].
  by apply IH, grant_step_chain.
Qed.

Lemma next_epoch_snoc l p n b :
  next_epoch (mkLeaseRecord (l ++ [p])) = Some (n, b) →
  completed p = false ∧ n = wrap32 (ep_epoch p + 1) ∧ b = boundary_ms p.
Proof.
  unfold next_epoch; cbn. rw last_snoc. destruct (completed p); [done|]. by intros [= <- <-].
Qed.

Lemma chain_exclusive terms winner_for l i j a b :
  chain_ok terms winner_for l → (i < j)%nat → l !! i = Some a → l !! j = Some b →
  boundary_ms a ≤ granted_at_ms b ∧ completed a = false.
Proof.
  intros H. revert i j a b. induction H as [|l e Hl IH Hw (bd & Hn & Hb & _)]; [done|].
  intros i j a b Hij Ha Hb'. destruct (decide (j < length l)%nat) as [Hj|Hj].
  - rw lookup_app_l // in Hb'. rw lookup_app_l in Ha; [|lia].
    exact (IH i j a b Hij Ha Hb').
  - assert (j = length l) as ->.
    { apply lookup_lt_Some in Hb'. rw length_app /= in Hb'. lia. }
    rw lookup_app_r // Nat.sub_diag in Hb'. injection Hb' as <-.
    rw lookup_app_l // in Ha.
    destruct Hl as [|l p Hl Hwp Hfp]; [done|].
    apply next_epoch_snoc in Hn as (Hnc & _ & ->).
    destruct (decide (i < length l)%nat) as [Hi|Hi].
    + rw lookup_app_l // in Ha. destruct (IH i (length l) a p) as [Hap Hac]; [done| | |].
      * by rw lookup_app_l.
      * rw lookup_app_r // Nat.sub_diag //.
      * unfold window_ok in Hwp. split; [lia|done].
    + rw length_app /= in Hij. assert (i = length l) as -> by lia.
      rw lookup_app_r // Nat.sub_diag in Ha. by injection Ha as <-.
Qed.

(** The claim that won an epoch was signed after every earlier epoch's
    boundary. *)
(** Where the claim window of epoch [i] starts: at the boundary of the epoch before
    it, at 0 for the first. *)
Definition window_start (l : list LeaseEpoch) (i : nat) : Z :=
  match i with 0%nat => 0 | S p => default 0 (boundary_ms <$> l !! p) end.

Lemma window_start_app l k i : (i ≤ length l)%nat → window_start (l ++ k) i = window_start l i.
Proof. intros Hi. destruct i as [|p]; [done|]. cbn. rw lookup_app_l; [done|lia]. Qed.

Lemma chain_lookup terms winner_for l i e :
  chain_ok terms winner_for l → l !! i = Some e →
  window_ok terms e ∧ window_start l i ≤ granted_at_ms e ∧ winner_for (window_start l i) (granted_at_ms e) = Some (ep_holder e) ∧
    ∀ i' e', (i' < i)%nat → l !! i' = Some e' → boundary_ms e' ≤ window_start l i.
Proof.
  intros H. revert i e. induction H as [|l e Hl IH Hw (b & Hn & Hb & Hwin)]; [done|].
  intros i x Hx. destruct (decide (i < length l)%nat) as [Hi|Hi].
  - rw lookup_app_l // in Hx. rw window_start_app; [|lia]. destruct (IH i x Hx) as (? & ? & ? & Hall).
    split_and!; [done..|]. intros i' e' Hi'. rw lookup_app_l; [by apply Hall|lia].
  - assert (i = length l) as ->.
    { apply lookup_lt_Some in Hx. rw length_app /= in Hx. lia. }
    rw lookup_app_r // Nat.sub_diag in Hx. injection Hx as <-. rw window_start_app //.
    destruct Hl as [|l p Hl Hwp Hfp].
    { cbn in Hn. injection Hn as _ <-. split_and!; [done..|]. intros i' e' Hi'. cbn in Hi'. lia. }
    apply next_epoch_snoc in Hn as (_ & _ & ->). assert (window_start (l ++ [p]) (length (l ++ [p])) = boundary_ms p) as ->.
    { rw length_app Nat.add_comm. cbn. by rw lookup_app_r // Nat.sub_diag. }
    split_and!; [done..|]. intros i' e' Hi'. rw lookup_app_l // => He'.
    destruct (decide (i' < length l)%nat) as [Hlt|Hge].
    + destruct (chain_exclusive terms winner_for (l ++ [p]) i' (length l) e' p) as [Hep _];
        [by constructor|done|done|by rw lookup_app_r // Nat.sub_diag|].
      unfold window_ok in Hwp. lia.
    + rw length_app /= in Hi'. assert (i' = length l) as -> by lia.
      rw lookup_app_r // Nat.sub_diag in He'. by injection He' as <-.
Qed.

Lemma chain_numbered terms winner_for l i e :
  chain_ok terms winner_for l → l !! i = Some e → ep_epoch e = wrap32 (Z.of_nat i).
Proof.
  intros H. revert i e. induction H as [|l e Hl IH _ (bd & Hn & _ & _)]; [done|].
  intros i x Hx. destruct (decide (i < length l)%nat) as [Hi|Hi].
  - rw lookup_app_l // in Hx. by apply IH.
  - assert (i = length l) as ->.
    { apply lookup_lt_Some in Hx. rw length_app /= in Hx. lia. }
    rw lookup_app_r // Nat.sub_diag in Hx. injection Hx as <-.
    destruct Hl as [|l p Hl Hwp Hfp]; [by injection Hn as <- _|].
    apply next_epoch_snoc in Hn as (_ & -> & _).
    rw (IH (length l) p); [|by rw lookup_app_r // Nat.sub_diag].
    rw length_app /=. unfold wrap32. rw Zplus_mod_idemp_l. f_equal. lia.
Qed.

Lemma chain_window terms winner_for l e :
  chain_ok terms winner_for l → e ∈ l →
  window_ok terms e ∧ ∃ b, b ≤ granted_at_ms e ∧ winner_for b (granted_at_ms e) = Some (ep_holder e).
Proof.
  induction 1 as [|l x Hl IH Hw (b & _ & Hb & Hwin)]; [by intros ?%elem_of_nil|].
  intros [?| ->%list_elem_of_singleton]%elem_of_app; [by apply IH|]. eauto.
Qed.

(** Every epoch of a chain resolved from nothing comes from a gathered grant. *)
Definition from_grant (g : GatheredLeases) (e : LeaseEpoch) : Prop :=
  ∃ k gr, g_grants g !! k = Some gr ∧ ep_lease e = gf_operation gr ∧ ep_holder e = gf_author gr ∧
    ep_epoch e = gf_epoch gr ∧ granted_at_ms e = gf_granted_at_ms gr ∧
    expires_at_ms e = gf_expires_at_ms gr.

Lemma apply_facts_from_grant g r :
  Forall (from_grant g) (epochs r) → Forall (from_grant g) (epochs (apply_facts g r)).
Proof.
  destruct r as [l]; unfold apply_facts; cbn. destruct l as [|e l _] using rev_ind; [done|].
  rw update_last_snoc !Forall_app !Forall_singleton. intros [? He]. split; [done|].
  unfold from_grant in *. destruct (apply_scan_fixed e (scan_facts g e)) as (-> & -> & -> & -> & ->).
  done.
Qed.

Lemma lease_resolve_from_grant g terms winner_for :
  Forall (from_grant g) (epochs (lease_resolve g LeaseRecord_default terms winner_for)).
Proof.
  unfold lease_resolve.
  assert (∀ gr, gr ∈ merge_sort grant_le (bt_values (g_grants g)) → ∃ k, g_grants g !! k = Some gr) as Hin.
  { intros gr. rw merge_sort_Permutation. by intros ?%elem_of_bt_values. }
  revert Hin. generalize (merge_sort grant_le (bt_values (g_grants g))). intros l Hin.
  assert (Forall (from_grant g) (epochs (apply_facts g LeaseRecord_default))) as H by constructor.
  revert H. generalize (apply_facts g LeaseRecord_default).
  induction l as [|gr l IH]; intros r Hr; cbn; [done|]. apply IH; [set_solver|].
  assert (Forall (from_grant g) (epochs (apply_facts g (push_epoch r (granted_epoch gr))))).
  { apply apply_facts_from_grant. cbn. apply Forall_app. split; [done|]. apply Forall_singleton.
    destruct (Hin gr) as [k Hk]; [left|]. by exists k, gr. }
  unfold grant_step. by repeat (case_match; try done).
Qed.

Lemma apply_facts_idem g r : apply_facts g (apply_facts g r) = apply_facts g r.
Proof.
  destruct r as [l]; unfold apply_facts; cbn. destruct l as [|e l _] using rev_ind; [done|].
  by rw !update_last_snoc scan_facts_apply apply_scan_idem.
Qed.

(** ** Theorems *)

(** C35. A lease is exclusive. In the chain resolved from any consistent
    facts, a later epoch is granted only at or after the boundary (end or
    expiry) of every earlier one, no epoch follows a completed one, and epochs
    are numbered by their position (modulo 2^32). *)
Theorem lease_epochs_exclusive g terms winner_for i j a b
    (Hc : facts_consistent g) (Hij : (i < j)%nat)
    (Ha : epochs (lease_resolve g LeaseRecord_default terms winner_for) !! i = Some a)
    (Hb : epochs (lease_resolve g LeaseRecord_default terms winner_for) !! j = Some b) :
  boundary_ms a ≤ granted_at_ms b ∧ completed a = false ∧
  ep_epoch a = wrap32 (Z.of_nat i) ∧ ep_epoch b = wrap32 (Z.of_nat j).
Proof.
  assert (chain_ok terms winner_for (epochs (lease_resolve g LeaseRecord_default terms winner_for))) as H.
  { apply lease_resolve_chain; [done|constructor]. }
  destruct (chain_exclusive _ _ _ _ _ _ _ H Hij Ha Hb).
  split_and!; [done|done| |]; by eapply chain_numbered.
Qed.

(** Every epoch of a resolved lease comes from a gathered grant, lies
    inside the terms, and is held by the winner of the claim window that
    closes at its grant. *)
Theorem lease_epoch_authorized g terms winner_for e (Hc : facts_consistent g)
    (He : e ∈ epochs (lease_resolve g LeaseRecord_default terms winner_for)) :
  from_grant g e ∧ window_ok terms e ∧
  ∃ b, b ≤ granted_at_ms e ∧ winner_for b (granted_at_ms e) = Some (ep_holder e).
Proof.
  split.
  - pose proof (lease_resolve_from_grant g terms winner_for) as H. rw Forall_forall in H. by apply H.
  - eapply chain_window; [|exact He]. apply lease_resolve_chain; [done|constructor].
Qed.

(** Folding the same heartbeats and ends again changes nothing, and
    neither does resolving from a record they were already folded into. *)
Theorem lease_facts_idempotent g r terms winner_for :
  apply_facts g (apply_facts g r) = apply_facts g r ∧
  lease_resolve g (apply_facts g r) terms winner_for = lease_resolve g r terms winner_for.
Proof.
  split; [apply apply_facts_idem|]. unfold lease_resolve. by rw apply_facts_idem.
Qed.

(** A lease reported held at a time has an epoch that, within the allowed
    clock skew, was already granted, has not expired, was seen inside the
    silence window and has not ended. *)
Theorem phase_at_held_sound r terms at_ms policy n l h ex seen p
    (H : phase_at r terms at_ms policy = Held n l h ex seen p) :
  ∃ t e, terms = Some t ∧ e ∈ epochs r ∧ ep_epoch e = n ∧ ep_lease e = l ∧ ep_holder e = h ∧
    expires_at_ms e = ex ∧ last_seen_ms e = seen ∧
    granted_at_ms e ≤ saturating_add at_ms (max_skew_ms policy) ∧
    at_ms < saturating_add ex (max_skew_ms policy) ∧
    at_ms < saturating_add (saturating_add seen (silence_window_ms t)) (max_skew_ms policy) ∧
    (∀ f, ep_end e = Some f → saturating_add at_ms (max_skew_ms policy) < end_at f).
Proof.
  unfold phase_at, observed_epoch in H. destruct terms as [t|]; [|done]. cbn in H.
  destruct (list_find _ _) as [[i e]|] eqn:Ef; [|done]. cbn in H.
  apply list_find_Some in Ef as (Hin & Hg & _).
  apply list_elem_of_lookup_2 in Hin. rw elem_of_reverse in Hin.
  exists t, e.
  assert (lapse_at e at_ms t (max_skew_ms policy) = None ∧
          (∀ f, ep_end e = Some f → saturating_add at_ms (max_skew_ms policy) < end_at f) ∧
          Held (ep_epoch e) (ep_lease e) (ep_holder e) (expires_at_ms e) (last_seen_ms e) (progress e)
            = Held n l h ex seen p) as (Hl & He & Heq).
  { destruct (ep_end e) as [f|]; [case_bool_decide; [by destruct f|]|];
      (destruct (lapse_at e at_ms t (max_skew_ms policy)) as [[]|]; [done..|]);
      split_and!; try done. intros f' [= <-]. lia. }
  injection Heq as <- <- <- <- <- _. unfold lapse_at in Hl. repeat case_bool_decide; try done.
  split_and!; first [done|lia].
Qed.

(** ** A worked chain

    Device 1 takes epoch 0, yields at 140, and device 2 takes epoch 1. *)

Definition sample_gathered : GatheredLeases :=
  mkGathered
    (<[10 := mkGrantFact 10 1 0 100 200]> (<[11 := mkGrantFact 11 2 1 150 300]> ∅))
    (<[20 := mkLeaseFact 20 1 10 140 (End_ (EndReleased Yielded 140))]>
      (<[21 := mkLeaseFact 21 1 10 130 (Heartbeat (mkProgress 1 2 false Running))]> ∅)).

Definition sample_terms : LeaseTerms := mkLeaseTerms 1000 100 3.
Definition sample_winner (from_ms until_ms : Z) : option Bytes32 :=
  if bool_decide (until_ms ≤ 120) then Some 1 else Some 2.

Definition sample_record : LeaseRecord :=
  lease_resolve sample_gathered LeaseRecord_default sample_terms sample_winner.

Definition sample_epoch0 : LeaseEpoch :=
  mkEpoch 0 10 1 100 200 130 (mkProgress 1 2 false Running) (Some (EndReleased Yielded 140)).
Definition sample_epoch1 : LeaseEpoch :=
  mkEpoch 1 11 2 150 300 150 LeaseProgress_default None.

Lemma sample_record_eq : epochs sample_record = [sample_epoch0; sample_epoch1].
Proof. vm_compute. reflexivity. Qed.

Lemma sample_consistent : facts_consistent sample_gathered.
Proof.
  intros k f e. unfold sample_gathered; cbn [g_facts].
  rw !lookup_insert_Some lookup_empty. intros [[_ <-]|[_ [[_ <-]|[_ ?]]]] [=]; by subst.
Qed.

Lemma lease_epochs_exclusive_witness :
  140 ≤ 150 ∧ completed sample_epoch0 = false ∧
  ep_epoch sample_epoch0 = wrap32 0 ∧ ep_epoch sample_epoch1 = wrap32 1.
Proof.
  apply (lease_epochs_exclusive sample_gathered sample_terms sample_winner 0 1
    sample_epoch0 sample_epoch1 sample_consistent); [lia| |];
    change (lease_resolve _ _ _ _) with sample_record; by rw sample_record_eq.
Defined.

Lemma lease_epoch_authorized_witness :
  from_grant sample_gathered sample_epoch1 ∧ window_ok sample_terms sample_epoch1 ∧
  ∃ b, b ≤ granted_at_ms sample_epoch1 ∧
       sample_winner b (granted_at_ms sample_epoch1) = Some (ep_holder sample_epoch1).
Proof.
  apply (lease_epoch_authorized sample_gathered sample_terms sample_winner sample_epoch1 sample_consistent).
  change (lease_resolve _ _ _ _) with sample_record. rw sample_record_eq. right; left.
Defined.

Lemma phase_at_held_sound_witness :
  ∃ t e, Some sample_terms = Some t ∧ e ∈ epochs sample_record ∧ ep_epoch e = 1 ∧ ep_lease e = 11 ∧
    ep_holder e = 2 ∧ expires_at_ms e = 300 ∧ last_seen_ms e = 150 ∧
    granted_at_ms e ≤ saturating_add 200 (max_skew_ms LeasePolicy_default) ∧
    200 < saturating_add 300 (max_skew_ms LeasePolicy_default) ∧
    200 < saturating_add (saturating_add 150 (silence_window_ms t)) (max_skew_ms LeasePolicy_default) ∧
    (∀ f, ep_end e = Some f → saturating_add 200 (max_skew_ms LeasePolicy_default) < end_at f).
Proof.
  apply (phase_at_held_sound sample_record (Some sample_terms) 200 LeasePolicy_default
    1 11 2 300 150 LeaseProgress_default). vm_compute. reflexivity.
Defined.
