(* ===== verification/Board.v ===== *)
(** The job board (crates/mesh/mesh/src/{board,fold,directory,retention,wire}.rs).

    [fold_from_snapshot] is the whole of [JobBoard::fold_from_snapshot]: the
    seeding from a checkpoint, the gather phase over the operations and the
    resolve phase.  A p2panda operation is opaque: its hash, its author, its
    verification and its decoded event are the functions the Section takes, and
    so are the three accessors of a key attestation (personae's cryptography).

    The board is a value: [BTreeMap]s are their contents, so two boards are
    equal exactly when every job and every device is.

    The theorems: the board depends only on the set of operations, provided
    no author files two different results for one job or two different masters
    for itself; claim races go to the lowest claim hash; committed outputs of
    unleased jobs honour the signed grant; the holder a worker expects for the
    next epoch is the one the fold will accept; a checkpoint of unleased jobs
    reloads to the same jobs.  Three further theorems exhibit boards on which
    the documented contract fails. *)

From S2P Require Import Prelude Digests JobSpec Lease.

Local Open Scope Z_scope.

(** ** Wire vocabulary (wire.rs) *)

Inductive JobKind : Type := Echo | Blake3Kind.

Inductive MeshEvent (Att Ckpt : Type) : Type :=
| JobPosted (kind : JobKind) (payload : list Z) (nonce at_ms : Z)
| JobClaimed (job at_ms : Z)
| JobDone (job : Z) (res : list Z) (at_ms : Z)
| JobPostedV2 (spec : JobSpec) (nonce at_ms : Z)
| JobDoneV2 (job : Z) (output : JobOutput) (at_ms : Z)
| LeaseGranted (job epoch granted_at expires_at : Z)
| LeaseHeartbeat (job lease : Z) (p : LeaseProgress) (at_ms : Z)
| LeaseReleased (job lease : Z) (reason : ReleaseReason) (at_ms : Z)
| LeaseRevokedByOwner (job lease : Z) (reason : ReclaimReason) (at_ms : Z)
| JobCompletedUnderLease (job lease : Z) (output : JobOutput) (at_ms : Z)
| DeviceAttested (attestation : Att)
| RetentionCheckpoint (checkpoint : Ckpt)
| HistoryPruned (checkpoint at_ms : Z).
Arguments JobPosted {Att Ckpt}.
Arguments JobClaimed {Att Ckpt}.
Arguments JobDone {Att Ckpt}.
Arguments JobPostedV2 {Att Ckpt}.
Arguments JobDoneV2 {Att Ckpt}.
Arguments LeaseGranted {Att Ckpt}.
Arguments LeaseHeartbeat {Att Ckpt}.
Arguments LeaseReleased {Att Ckpt}.
Arguments LeaseRevokedByOwner {Att Ckpt}.
Arguments JobCompletedUnderLease {Att Ckpt}.
Arguments DeviceAttested {Att Ckpt}.
Arguments RetentionCheckpoint {Att Ckpt}.
Arguments HistoryPruned {Att Ckpt}.

(** ** Jobs (board.rs) *)

Inductive JobState : Type :=
| StPosted
| StClaimed (winner : Bytes32)
| StDone (winner : Bytes32) (res : list Z)
| StCommitted (winner : Bytes32) (output : JobOutput).

Definition state_winner (s : JobState) : option Bytes32 :=
  match s with
  | StPosted => None
  | StClaimed w | StDone w _ | StCommitted w _ => Some w
  end.

Definition is_terminal (s : JobState) : bool :=
  match s with StDone _ _ | StCommitted _ _ => true | _ => false end.

Record Claimant : Type := mkClaimant { cl_author : Bytes32; cl_at_ms : Z }.

Record Job : Type := mkJob {
  job_id : Bytes32;
  job_kind : option JobKind;
  job_payload : option (list Z);
  job_spec : option JobSpec;
  job_posted_by : Bytes32;
  job_state : JobState;
  job_lease : LeaseRecord;
  next_claimants : list Claimant
}.

Definition is_runnable (j : Job) : bool :=
  match job_spec j, job_payload j with None, None => false | _, _ => true end.

Definition lease_terms (j : Job) : option LeaseTerms := job_spec j ≫= spec_lease.

Definition lease_at (j : Job) (at_ms : Z) (policy : LeasePolicy) : LeasePhase :=
  phase_at (job_lease j) (lease_terms j) at_ms policy.

Definition next_holder (j : Job) (at_ms : Z) : option Bytes32 :=
  (λ found, cl_author found.2) <$> list_find (λ c, cl_at_ms c ≤ at_ms) (next_claimants j).

Definition has_claimed (j : Job) (me : Bytes32) : bool :=
  existsb (λ c, bool_decide (cl_author c = me)) (next_claimants j).

(** ** Gathered facts (fold.rs) *)

Record Posted : Type := mkPosted {
  p_kind : option JobKind;
  p_payload : option (list Z);
  p_spec : option JobSpec;
  p_by : Bytes32
}.

Inductive ResultRecord : Type := Inline (bytes : list Z) | CommittedRecord (output : JobOutput).

Record ClaimFact : Type := mkClaimFact { cf_author : Bytes32; cf_at_ms : Z }.

Record CompletionFact : Type := mkCompletionFact {
  co_author : Bytes32;
  co_lease : Bytes32;
  co_at_ms : Z;
  co_output : JobOutput
}.

Record GatheredJobLeases : Type := mkJobLeases {
  gl_grants : gmap Z GrantFact;
  gl_facts : gmap Z LeaseFact;
  gl_completions : gmap Z CompletionFact
}.
Definition GatheredJobLeases_default : GatheredJobLeases := mkJobLeases ∅ ∅ ∅.

(** [Posted::resolve]. *)
Definition posted_resolve (post : Posted) (winner : Bytes32) (record : option ResultRecord) : JobState :=
  match record, p_spec post with
  | Some (Inline res), None => StDone winner res
  | Some (CommittedRecord output), Some spec =>
      if bool_decide (spec_lease spec = None) && is_ok (validate_against output spec)
      then StCommitted winner output else StClaimed winner
  | _, _ => StClaimed winner
  end.

(** The completions that honour the grant, as end facts. *)
Definition completion_end (op : Z) (c : CompletionFact) : LeaseFact :=
  mkLeaseFact op (co_author c) (co_lease c) (co_at_ms c) (End_ (EndCompleted (co_at_ms c))).

Definition add_completions (spec : JobSpec) (completions : list (Z * CompletionFact))
    (facts : gmap Z LeaseFact) : gmap Z LeaseFact :=
  fold_left (λ m oc, if is_ok (validate_against (co_output oc.2) spec)
                     then <[oc.1 := completion_end oc.1 oc.2]> m else m)
    completions facts.

(** The claim winner for a window: first in operation-hash order. *)
Definition winner_in (claims : gmap Z ClaimFact) (from_ms until_ms : Z) : option Bytes32 :=
  (λ found, cf_author found.2) <$>
    list_find (λ c, from_ms ≤ cf_at_ms c ∧ cf_at_ms c ≤ until_ms) (bt_values claims).

Definition job_leases_resolve (gl : GatheredJobLeases) (base : option LeaseRecord)
    (spec : JobSpec) (claims : gmap Z ClaimFact) : LeaseRecord :=
  match spec_lease spec with
  | None => LeaseRecord_default
  | Some terms =>
      lease_resolve
        (mkGathered (gl_grants gl) (add_completions spec (bt_iter (gl_completions gl)) (gl_facts gl)))
        (default LeaseRecord_default base) terms (winner_in claims)
  end.

Definition completed_output (gl : GatheredJobLeases) (r : LeaseRecord) : option (Bytes32 * JobOutput) :=
  match snd <$> list_find (λ e, completed e = true) (epochs r) with
  | None => None
  | Some e =>
      match snd <$> list_find (λ c, co_lease c = ep_lease e ∧ co_author c = ep_holder e)
                      (bt_values (gl_completions gl)) with
      | None => None
      | Some c => Some (ep_holder e, co_output c)
      end
  end.

(** ** The gather state *)

Record Gather : Type := mkGather {
  ga_posted : gmap Z Posted;
  ga_claims : gmap Z (gmap Z ClaimFact);
  ga_results : gmap Z (gmap Z ResultRecord);
  ga_leases : gmap Z GatheredJobLeases;
  ga_retained : gmap Z LeaseRecord;
  ga_devices : gmap Z Z
}.

Definition gather_empty : Gather := mkGather ∅ ∅ ∅ ∅ ∅ ∅.

(** [map.entry(k).or_insert(d)] updated by [f]. *)
Definition entry_upd {V} (d : V) (k : Z) (f : V → V) (m : gmap Z V) : gmap Z V :=
  <[k := f (default d (m !! k))]> m.

Definition put_post k v g := mkGather (<[k := v]> (ga_posted g)) (ga_claims g) (ga_results g)
  (ga_leases g) (ga_retained g) (ga_devices g).
Definition put_claim j k v g := mkGather (ga_posted g) (entry_upd ∅ j <[k := v]> (ga_claims g))
  (ga_results g) (ga_leases g) (ga_retained g) (ga_devices g).
Definition put_result j k v g := mkGather (ga_posted g) (ga_claims g)
  (entry_upd ∅ j <[k := v]> (ga_results g)) (ga_leases g) (ga_retained g) (ga_devices g).
Definition upd_leases j f g := mkGather (ga_posted g) (ga_claims g) (ga_results g)
  (entry_upd GatheredJobLeases_default j f (ga_leases g)) (ga_retained g) (ga_devices g).
Definition put_retained j v g := mkGather (ga_posted g) (ga_claims g) (ga_results g)
  (ga_leases g) (<[j := v]> (ga_retained g)) (ga_devices g).
Definition put_device a m g := mkGather (ga_posted g) (ga_claims g) (ga_results g)
  (ga_leases g) (ga_retained g) (<[a := m]> (ga_devices g)).

Definition add_grant k v gl :=
  mkJobLeases (<[k := v]> (gl_grants gl)) (gl_facts gl) (gl_completions gl).
Definition add_fact k v gl :=
  mkJobLeases (gl_grants gl) (<[k := v]> (gl_facts gl)) (gl_completions gl).
Definition add_completion k v gl :=
  mkJobLeases (gl_grants gl) (gl_facts gl) (<[k := v]> (gl_completions gl)).

(** Seeding from one checkpointed job. *)
Definition seed_job (g : Gather) (job : Job) : Gather :=
  let g1 := put_post (job_id job)
              (mkPosted (job_kind job) (job_payload job) (job_spec job) (job_posted_by job)) g in
  let g2 := if record_is_empty (job_lease job) then g1
            else put_retained (job_id job) (job_lease job) g1 in
  let g3 := match state_winner (job_state job) with
            | Some winner => put_claim (job_id job) 0 (mkClaimFact winner 0) g2
            | None => g2
            end in
  match job_state job with
  | StDone winner res => put_result (job_id job) winner (Inline res) g3
  | StCommitted winner output => put_result (job_id job) winner (CommittedRecord output) g3
  | StPosted | StClaimed _ => g3
  end.

Record JobBoard : Type := mkBoard {
  board_jobs : gmap Z Job;
  board_devices : gmap Z Z
}.

Record JobBoardSnapshot : Type := mkSnapshot { snap_jobs : list Job }.

Definition from_board (b : JobBoard) : JobBoardSnapshot := mkSnapshot (bt_values (board_jobs b)).

(** ** Resolving one job *)

Definition resolve_job (g : Gather) (id : Z) (post : Posted) : Job :=
  let job_claims := default ∅ (ga_claims g !! id) in
  let winner := (λ kc, cf_author kc.2) <$> (ga_claims g !! id ≫= bt_first) in
  let gathered := default GatheredJobLeases_default (ga_leases g !! id) in
  let leased := match p_spec post with Some spec => bool_decide (spec_lease spec ≠ None) | None => false end in
  let lease := match p_spec post with
               | Some spec => if leased then job_leases_resolve gathered (ga_retained g !! id) spec job_claims
                              else LeaseRecord_default
               | None => LeaseRecord_default
               end in
  let claimants := match leased, next_epoch lease with
                   | true, Some (_, from_ms) =>
                       (λ c, mkClaimant (cf_author c) (cf_at_ms c)) <$>
                         filter (λ c, from_ms ≤ cf_at_ms c) (bt_values job_claims)
                   | _, _ => []
                   end in
  let state := match completed_output gathered lease with
               | Some (holder, output) => StCommitted holder output
               | None =>
                   match current lease, winner with
                   | Some e, _ => StClaimed (ep_holder e)
                   | None, None => StPosted
                   | None, Some w => posted_resolve post w (ga_results g !! id ≫= λ r, r !! w)
                   end
               end in
  mkJob id (p_kind post) (p_payload post) (p_spec post) (p_by post) state lease claimants.

Definition resolve_all (g : Gather) : JobBoard :=
  mkBoard (map_imap (λ id post, Some (resolve_job g id post)) (ga_posted g)) (ga_devices g).

(** ** The fold *)

Section fold.
Context {Op Att Ckpt : Type}.
Context (verify : Op → bool) (from_operation : Op → option (Bytes32 * MeshEvent Att Ckpt)).
Context (op_hash op_author : Op → Bytes32).
Context (derived_public_key : Att → option Bytes32) (att_verify : Att → bool)
        (master_public_key : Att → option Bytes32).

(** directory.rs *)
Definition attests (author : Bytes32) (a : Att) : bool :=
  match derived_public_key a with
  | Some derived => bool_decide (derived = author) && att_verify a
  | None => false
  end.

Definition admit_device (author : Bytes32) (a : Att) (devices : gmap Z Z) : bool * gmap Z Z :=
  if negb (attests author a) then (false, devices)
  else match master_public_key a with
       | None => (false, devices)
       | Some master => (true, <[author := master]> devices)
       end.

(** The body of the [match event] of the gather phase. *)
Definition gather_event (hash author : Bytes32) (ev : MeshEvent Att Ckpt) (g : Gather) : Gather :=
  match ev with
  | JobPosted kind payload _ _ => put_post hash (mkPosted (Some kind) (Some payload) None author) g
  | JobPostedV2 spec _ _ =>
      if is_ok (JobSpec_validate spec) then put_post hash (mkPosted None None (Some spec) author) g else g
  | JobClaimed job at_ms => put_claim job hash (mkClaimFact author at_ms) g
  | JobDone job res _ => put_result job author (Inline res) g
  | JobDoneV2 job output _ => put_result job author (CommittedRecord output) g
  | LeaseGranted job epoch granted_at expires_at =>
      upd_leases job (add_grant hash (mkGrantFact hash author epoch granted_at expires_at)) g
  | LeaseHeartbeat job lease p at_ms =>
      upd_leases job (add_fact hash (mkLeaseFact hash author lease at_ms (Heartbeat p))) g
  | LeaseReleased job lease reason at_ms =>
      upd_leases job (add_fact hash (mkLeaseFact hash author lease at_ms (End_ (EndReleased reason at_ms)))) g
  | LeaseRevokedByOwner job lease reason at_ms =>
      upd_leases job (add_fact hash (mkLeaseFact hash author lease at_ms (End_ (EndReclaimed reason at_ms)))) g
  | JobCompletedUnderLease job lease output at_ms =>
      upd_leases job (add_completion hash (mkCompletionFact author lease at_ms output)) g
  | DeviceAttested a =>
      mkGather (ga_posted g) (ga_claims g) (ga_results g) (ga_leases g) (ga_retained g)
        (admit_device author a (ga_devices g)).2
  | RetentionCheckpoint _ | HistoryPruned _ _ => g
  end.

(** The guards before it. *)
Definition admitted (mesh_id : Bytes32) (op : Op) : option (MeshEvent Att Ckpt) :=
  if negb (verify op) then None
  else match from_operation op with
       | None => None
       | Some (id, ev) => if bool_decide (id ≠ mesh_id) then None else Some ev
       end.

Definition gather_op (mesh_id : Bytes32) (g : Gather) (op : Op) : Gather :=
  match admitted mesh_id op with
  | None => g
  | Some ev => gather_event (op_hash op) (op_author op) ev g
  end.

Definition fold_from_snapshot (mesh_id : Bytes32) (snapshot : JobBoardSnapshot) (ops : list Op) : JobBoard :=
  resolve_all (fold_left (gather_op mesh_id) ops (fold_left seed_job (snap_jobs snapshot) gather_empty)).

Definition board_fold (mesh_id : Bytes32) (ops : list Op) : JobBoard :=
  fold_from_snapshot mesh_id (mkSnapshot []) ops.
End fold.

(** ** Board queries and retention (board.rs, retention.rs) *)

Definition board_at (b : JobBoard) (at_ms : Z) (policy : LeasePolicy) : list (Z * LeasePhase) :=
  (λ j, (job_id j, lease_at j at_ms policy)) <$> bt_values (board_jobs b).

Definition board_phase_at (b : JobBoard) (id at_ms : Z) (policy : LeasePolicy) : option LeasePhase :=
  (λ j, lease_at j at_ms policy) <$> board_jobs b !! id.

Definition is_held (p : LeasePhase) : bool :=
  match p with Held _ _ _ _ _ _ => true | _ => false end.

Definition live_leases (s : JobBoardSnapshot) (at_ms : Z) (policy : LeasePolicy) : list Z :=
  job_id <$> filter (λ j, is_held (lease_at j at_ms policy) = true) (snap_jobs s).

Definition erase_payload (j : Job) : Job :=
  if is_terminal (job_state j)
  then mkJob (job_id j) (job_kind j) None (job_spec j) (job_posted_by j) (job_state j)
         (job_lease j) (next_claimants j)
  else j.

Definition erases (j : Job) : bool :=
  is_terminal (job_state j) && match job_payload j with Some _ => true | None => false end.

Definition erase_terminal_payloads (s : JobBoardSnapshot) : nat * JobBoardSnapshot :=
  (length (filter (λ j, erases j = true) (snap_jobs s)), mkSnapshot (erase_payload <$> snap_jobs s)).

Definition job_blobs (j : Job) : list BlobRef :=
  match job_spec j with Some spec => input_blob <$> spec_inputs spec | None => [] end ++
  match job_state j with StCommitted _ output => [out_blob output] | _ => [] end.

Fixpoint dedup_first {A} `{EqDecision A} (seen : list A) (l : list A) : list A :=
  match l with
  | [] => []
  | x :: l' => if bool_decide (x ∈ seen) then dedup_first seen l' else x :: dedup_first (x :: seen) l'
  end.

Definition collectable_blobs (snapshot : option JobBoardSnapshot) (cur : JobBoard) : list BlobRef :=
  match snapshot with
  | None => []
  | Some s =>
      let terminal := filter (λ j, is_terminal (job_state j) = true) (snap_jobs s) in
      let settled := job_id <$> terminal in
      let protected := mbind job_blobs (filter (λ j, job_id j ∉ settled) (bt_values (board_jobs cur))) in
      dedup_first [] (filter (λ b, b ∉ protected) (mbind job_blobs terminal))
  end.

(** ** Gathering commutes *)

Lemma entry_upd_comm {V} (d : V) k1 k2 f1 f2 (m : gmap Z V) :
  (k1 = k2 → ∀ v, f1 (f2 v) = f2 (f1 v)) →
  entry_upd d k1 f1 (entry_upd d k2 f2 m) = entry_upd d k2 f2 (entry_upd d k1 f1 m).
Proof.
  intros H. unfold entry_upd. destruct (decide (k1 = k2)) as [->|Hk].
  - rw !lookup_insert_eq !insert_insert_eq /=. by rw H.
  - rw !lookup_insert_ne //. by rw insert_insert_ne.
Qed.

Lemma entry_upd_idem {V} (d : V) k f (m : gmap Z V) :
  (∀ v, f (f v) = f v) → entry_upd d k f (entry_upd d k f m) = entry_upd d k f m.
Proof.
  intros H. unfold entry_upd. by rw lookup_insert_eq insert_insert_eq /= H.
Qed.

Lemma insert_comm {V} k1 k2 (v1 v2 : V) (m : gmap Z V) :
  (k1 = k2 → v1 = v2) → <[k1 := v1]> (<[k2 := v2]> m) = <[k2 := v2]> (<[k1 := v1]> m).
Proof.
  intros H. destruct (decide (k1 = k2)) as [->|Hk]; [by rw H|by rw insert_insert_ne].
Qed.

(** The record a result event files. *)
Definition result_of {Att Ckpt} (ev : MeshEvent Att Ckpt) : option (Bytes32 * ResultRecord) :=
  match ev with
  | JobDone job res _ => Some (job, Inline res)
  | JobDoneV2 job output _ => Some (job, CommittedRecord output)
  | _ => None
  end.

Section theory.
Context {Op Att Ckpt : Type}.
Context (verify : Op → bool) (from_operation : Op → option (Bytes32 * MeshEvent Att Ckpt)).
Context (op_hash op_author : Op → Bytes32).
Context (derived_public_key : Att → option Bytes32) (att_verify : Att → bool)
        (master_public_key : Att → option Bytes32).

Abbreviation gather_ev := (gather_event derived_public_key att_verify master_public_key).
Abbreviation gather := (gather_op verify from_operation op_hash op_author
                       derived_public_key att_verify master_public_key).
Abbreviation adm := (admitted verify from_operation).

(** Two events, of the given hashes and authors, do not compete for a slot: the
    hashes differ, and an author has one result per job and one master. *)
Definition events_compatible (h1 h2 a1 a2 : Bytes32) (ev1 ev2 : MeshEvent Att Ckpt) : Prop :=
  h1 ≠ h2 ∧
  (a1 = a2 → ∀ job r1 r2, result_of ev1 = Some (job, r1) → result_of ev2 = Some (job, r2) → r1 = r2) ∧
  (a1 = a2 → ∀ x1 x2, ev1 = DeviceAttested x1 → ev2 = DeviceAttested x2 →
     master_public_key x1 = master_public_key x2).

Lemma gather_event_comm h1 h2 a1 a2 ev1 ev2 g :
  events_compatible h1 h2 a1 a2 ev1 ev2 →
  gather_ev h2 a2 ev2 (gather_ev h1 a1 ev1 g) = gather_ev h1 a1 ev1 (gather_ev h2 a2 ev2 g).
Proof.
  intros (Hh & Hr & Hd). destruct g.
  destruct ev1, ev2; cbn [gather_event]; try reflexivity;
    try (destruct (is_ok _); [|reflexivity]); try (destruct (is_ok _); [|reflexivity]); try reflexivity;
    unfold put_post, put_claim, put_result, upd_leases; cbn [ga_posted ga_claims ga_results ga_leases ga_retained ga_devices];
    f_equal.
  all: try (apply insert_comm; congruence).
  all: try (apply entry_upd_comm; intros ? ?; subst; first
    [apply insert_comm; intros ->; first [congruence|by eapply Hr|symmetry; by eapply Hr]
    |unfold add_grant, add_fact, add_completion; cbn; f_equal; apply insert_comm; congruence]).
  unfold admit_device. repeat (case_match; cbn; try reflexivity). apply insert_comm. intros ->.
  specialize (Hd eq_refl _ _ eq_refl eq_refl). congruence.
Qed.

Lemma gather_event_idem h a (ev : MeshEvent Att Ckpt) g : gather_ev h a ev (gather_ev h a ev g) = gather_ev h a ev g.
Proof.
  destruct g, ev; cbn [gather_event]; try reflexivity; try (destruct (is_ok _); [|reflexivity]);
    unfold put_post, put_claim, put_result, upd_leases;
    cbn [ga_posted ga_claims ga_results ga_leases ga_retained ga_devices]; f_equal.
  all: try apply insert_insert_eq.
  all: try (apply entry_upd_idem; intros ?; first
    [apply insert_insert_eq
    |unfold add_grant, add_fact, add_completion; cbn; f_equal; apply insert_insert_eq]).
  unfold admit_device. repeat (case_match; cbn; try reflexivity). simplify_eq. apply insert_insert_eq.
Qed.

(** The operations of a set do not compete: hashes identify them, an author
    files one result per job and attests one master. *)
Definition ops_compatible (mesh_id : Bytes32) (ops : list Op) : Prop :=
  ∀ o1 o2, o1 ∈ ops → o2 ∈ ops →
    (op_hash o1 = op_hash o2 → o1 = o2) ∧
    (op_hash o1 ≠ op_hash o2 → ∀ ev1 ev2, adm mesh_id o1 = Some ev1 → adm mesh_id o2 = Some ev2 →
       events_compatible (op_hash o1) (op_hash o2) (op_author o1) (op_author o2) ev1 ev2).

Lemma gather_op_comm mesh_id ops g o1 o2 :
  ops_compatible mesh_id ops → o1 ∈ ops → o2 ∈ ops →
  gather mesh_id (gather mesh_id g o1) o2 = gather mesh_id (gather mesh_id g o2) o1.
Proof.
  intros H H1 H2. destruct (H o1 o2 H1 H2) as [Heq Hne].
  destruct (decide (op_hash o1 = op_hash o2)) as [Hh|Hh]; [by rw (Heq Hh)|].
  unfold gather_op.
  destruct (adm mesh_id o1) as [ev1|] eqn:E1, (adm mesh_id o2) as [ev2|] eqn:E2; try done.
  apply gather_event_comm. by apply Hne.
Qed.

Lemma gather_op_idem mesh_id g o : gather mesh_id (gather mesh_id g o) o = gather mesh_id g o.
Proof. unfold gather_op. destruct (adm mesh_id o); [apply gather_event_idem|done]. Qed.

(** C8. The board is a function of the set of operations. Folding two lists
    with the same operations, in any order and with any repetitions, from the
    same checkpoint, gives the same board, provided no author files two
    different results for one job or attests two masters. *)
Theorem board_order_independent mesh_id snapshot ops1 ops2
    (Hsame : ∀ o, o ∈ ops1 ↔ o ∈ ops2) (Hc : ops_compatible mesh_id ops1) :
  fold_from_snapshot verify from_operation op_hash op_author derived_public_key att_verify
    master_public_key mesh_id snapshot ops1 =
  fold_from_snapshot verify from_operation op_hash op_author derived_public_key att_verify
    master_public_key mesh_id snapshot ops2.
Proof.
  unfold fold_from_snapshot. f_equal. apply (fold_left_set_eq _ ops1); [|by intros; apply gather_op_idem|done|done].
  intros a x y Hx Hy. by apply (gather_op_comm mesh_id ops1).
Qed.

(** ** What the gather phase files *)

Definition claim_filed (mesh_id : Bytes32) (o : Op) : option (Z * Z * ClaimFact) :=
  match adm mesh_id o with
  | Some (JobClaimed job at_ms) => Some (job, op_hash o, mkClaimFact (op_author o) at_ms)
  | _ => None
  end.

Definition result_filed (mesh_id : Bytes32) (o : Op) : option (Z * Z * ResultRecord) :=
  match adm mesh_id o with
  | Some (JobDone job res _) => Some (job, op_author o, Inline res)
  | Some (JobDoneV2 job output _) => Some (job, op_author o, CommittedRecord output)
  | _ => None
  end.



Definition claim_view (g : Gather) (k : Z * Z) : option ClaimFact := ga_claims g !! k.1 ≫= (.!! k.2).
Definition result_view (g : Gather) (k : Z * Z) : option ResultRecord := ga_results g !! k.1 ≫= (.!! k.2).

Lemma entry_upd_lookup2 {V} (m : gmap Z (gmap Z V)) j k v j' k' :
  (entry_upd ∅ j <[k := v]> m !! j' ≫= (.!! k')) =
  if decide ((j, k) = (j', k')) then Some v else m !! j' ≫= (.!! k').
Proof.
  unfold entry_upd. destruct (decide (j = j')) as [->|Hj].
  - rw lookup_insert_eq /=. destruct (decide (k = k')) as [->|Hk].
    + by rw decide_True // lookup_insert_eq.
    + rw decide_False; [by rw lookup_insert_ne //; destruct (m !! j')|congruence].
  - rw lookup_insert_ne // decide_False //. congruence.
Qed.



Ltac gather_cases o :=
  unfold gather_op; destruct (adm _ o) as [[]|]; cbn [gather_event]; try reflexivity;
  try (destruct (is_ok _); reflexivity).

Lemma claim_step mesh_id g o k :
  claim_view (gather mesh_id g o) k =
    match claim_filed mesh_id o with
    | Some kv => if decide (kv.1 = k) then Some kv.2 else claim_view g k
    | None => claim_view g k
    end.
Proof.
  destruct k as [j k]. unfold claim_filed. gather_cases o. apply entry_upd_lookup2.
Qed.

Lemma result_step mesh_id g o k :
  result_view (gather mesh_id g o) k =
    match result_filed mesh_id o with
    | Some kv => if decide (kv.1 = k) then Some kv.2 else result_view g k
    | None => result_view g k
    end.
Proof.
  destruct k as [j k]. unfold result_filed. gather_cases o; apply entry_upd_lookup2.
Qed.




Definition device_filed (mesh_id : Bytes32) (o : Op) : option (Z * Z) :=
  match adm mesh_id o with
  | Some (DeviceAttested a) =>
      if attests derived_public_key att_verify (op_author o) a
      then (λ m, (op_author o, m)) <$> master_public_key a else None
  | _ => None
  end.

Lemma device_step mesh_id g o k :
  ga_devices (gather mesh_id g o) !! k =
    match device_filed mesh_id o with
    | Some kv => if decide (kv.1 = k) then Some kv.2 else ga_devices g !! k
    | None => ga_devices g !! k
    end.
Proof.
  unfold device_filed. gather_cases o. cbn. unfold admit_device.
  destruct (attests _ _ _ _); cbn; [|done]. destruct (master_public_key _); cbn; [|done].
  apply lookup_insert.
Qed.


(** ** Resolving unleased jobs *)

Lemma board_lookup g id :
  board_jobs (resolve_all g) !! id = resolve_job g id <$> ga_posted g !! id.
Proof. unfold resolve_all; cbn. rw map_lookup_imap. by destruct (ga_posted g !! id). Qed.

(** A job without lease terms resolves through its claims and results only. *)
Lemma resolve_unleased g id post :
  lease_terms (resolve_job g id post) = None →
  resolve_job g id post =
    mkJob id (p_kind post) (p_payload post) (p_spec post) (p_by post)
      (match (λ kc, cf_author kc.2) <$> (ga_claims g !! id ≫= bt_first) with
       | None => StPosted
       | Some w => posted_resolve post w (ga_results g !! id ≫= λ r, r !! w)
       end) LeaseRecord_default [].
Proof.
  unfold lease_terms, resolve_job; cbn. intros Hu.
  assert ((match p_spec post with Some spec => bool_decide (spec_lease spec ≠ None) | None => false end) = false)
    as Hl.
  { destruct (p_spec post) as [spec|]; [|done]. cbn in Hu. by rw Hu. }
  rw Hl. destruct (p_spec post); reflexivity.
Qed.

Lemma posted_resolve_winner post w r : state_winner (posted_resolve post w r) = Some w.
Proof.
  unfold posted_resolve. destruct r as [[|]|], (p_spec post); try done. by destruct (_ && _).
Qed.

Lemma first_claim g id k c :
  ga_claims g !! id ≫= bt_first = Some (k, c) →
  claim_view g (id, k) = Some c ∧ ∀ k', is_Some (claim_view g (id, k')) → k ≤ k'.
Proof.
  unfold claim_view; cbn. destruct (ga_claims g !! id) as [m|]; [|done]; cbn. apply bt_first_Some.
Qed.

Lemma first_claim_None g id :
  ga_claims g !! id ≫= bt_first = None → ∀ k, claim_view g (id, k) = None.
Proof.
  unfold claim_view; cbn. destruct (ga_claims g !! id) as [m|]; [|done]; cbn.
  intros ->%bt_first_None k. apply lookup_empty.
Qed.

Lemma claim_filed_Some mesh_id o j k c :
  claim_filed mesh_id o = Some (j, k, c) ↔
  adm mesh_id o = Some (JobClaimed j (cf_at_ms c)) ∧ k = op_hash o ∧ cf_author c = op_author o.
Proof.
  unfold claim_filed. split.
  - destruct (adm mesh_id o) as [[]|]; try done. by intros [= <- <- <-].
  - intros (-> & -> & <-). by destruct c.
Qed.

Abbreviation fold_ops mesh_id ops :=
  (board_fold verify from_operation op_hash op_author derived_public_key att_verify
    master_public_key mesh_id ops).
Abbreviation fold_snap mesh_id snapshot ops :=
  (fold_from_snapshot verify from_operation op_hash op_author derived_public_key att_verify
    master_public_key mesh_id snapshot ops).

(** The claim race is decided by hash alone. An unleased job on the board
    is still posted exactly when nobody claimed it; otherwise its winner is
    the author of an admitted claim whose operation hash is the least among
    all admitted claims of that job. *)
Theorem claim_race_lowest_hash mesh_id ops id j
    (Hj : board_jobs (fold_ops mesh_id ops) !! id = Some j) (Hu : lease_terms j = None) :
  (job_state j = StPosted ∧ ∀ o t, o ∈ ops → adm mesh_id o ≠ Some (JobClaimed id t)) ∨
  ∃ o t, o ∈ ops ∧ adm mesh_id o = Some (JobClaimed id t) ∧
    state_winner (job_state j) = Some (op_author o) ∧
    ∀ o' t', o' ∈ ops → adm mesh_id o' = Some (JobClaimed id t') → op_hash o ≤ op_hash o'.
Proof.
  unfold board_fold, fold_from_snapshot in Hj. rw board_lookup in Hj.
  apply fmap_Some in Hj as (post & _ & ->). rw resolve_unleased //; cbn [job_state].
  set (g := fold_left _ ops _).
  assert (∀ o t, o ∈ ops → adm mesh_id o = Some (JobClaimed id t) → is_Some (claim_view g (id, op_hash o))) as Hall.
  { intros o t Ho Ha. eapply (fold_view_filed _ claim_view (claim_filed mesh_id) (claim_step mesh_id)); [done|].
    by apply (claim_filed_Some mesh_id o id (op_hash o) (mkClaimFact (op_author o) t)). }
  destruct (ga_claims g !! id ≫= bt_first) as [[k c]|] eqn:Ef; cbn.
  - right. apply first_claim in Ef as [Hc Hmin].
    eapply (fold_view_inv _ claim_view (claim_filed mesh_id) (claim_step mesh_id)) in Hc as [Hc|(o & Ho & Hf)]; [done|].
    apply claim_filed_Some in Hf as (Ha & -> & Hau). exists o, (cf_at_ms c).
    rw posted_resolve_winner Hau. split_and!; [done..|]. eauto.
  - left. split; [done|]. intros o t Ho Ha. destruct (Hall o t Ho Ha) as [c Hc].
    by rw (first_claim_None _ _ Ef) in Hc.
Qed.

(** What an unleased job commits honours its signed grant. The output on
    a committed job was filed by the winning author in an admitted operation,
    and its name, resource, size and verification class all satisfy the posted
    spec. *)
Theorem unleased_commit_honours_grant mesh_id ops id j w out
    (Hj : board_jobs (fold_ops mesh_id ops) !! id = Some j) (Hu : lease_terms j = None)
    (Hs : job_state j = StCommitted w out) :
  ∃ spec o t, job_spec j = Some spec ∧ o ∈ ops ∧ op_author o = w ∧
    adm mesh_id o = Some (JobDoneV2 id out t) ∧
    out_name out = grant_name (spec_output spec) ∧ out_resource out = spec_resource spec ∧
    blob_byte_len (out_blob out) ≤ grant_max_bytes (spec_output spec) ∧
    satisfies (out_verification out) (spec_determinism spec) = true.
Proof.
  unfold board_fold, fold_from_snapshot in Hj. rw board_lookup in Hj.
  apply fmap_Some in Hj as (post & _ & ->). rw resolve_unleased // in Hs; cbn [job_state] in Hs.
  set (g := fold_left _ ops _) in *. change (job_spec _) with (p_spec post).
  destruct (_ <$> _) as [w'|]; [|done]. unfold posted_resolve in Hs.
  destruct (ga_results g !! id ≫= _) as [[|o']|] eqn:Er, (p_spec post) as [spec|]; try done.
  destruct (bool_decide _ && _) eqn:Ev; [|done]. injection Hs as -> ->.
  apply andb_true_iff in Ev as [_ Hv]. apply validate_against_ok in Hv as (? & ? & ? & ? & _).
  assert (result_view g (id, w) = Some (CommittedRecord out)) as Hr by exact Er.
  eapply (fold_view_inv _ result_view (result_filed mesh_id) (result_step mesh_id)) in Hr as [Hr|(o & Ho & Hf)]; [done|].
  exists spec, o. unfold result_filed in Hf.
  destruct (adm mesh_id o) as [[]|]; try done; simplify_eq. eexists. split_and!; eauto.
Qed.

(** A device is listed under a master only when one of the device's own
    operations attests it, with a derivation that names the device's key and
    verifies. *)
Theorem device_directory_sound mesh_id snapshot ops author master
    (Hd : board_devices (fold_from_snapshot verify from_operation op_hash op_author derived_public_key
            att_verify master_public_key mesh_id snapshot ops) !! author = Some master) :
  ∃ o a, o ∈ ops ∧ op_author o = author ∧ adm mesh_id o = Some (DeviceAttested a) ∧
    derived_public_key a = Some author ∧ att_verify a = true ∧ master_public_key a = Some master.
Proof.
  unfold fold_from_snapshot, resolve_all in Hd; cbn in Hd.
  eapply (fold_view_inv _ (λ g k, ga_devices g !! k) (device_filed mesh_id) (device_step mesh_id))
    in Hd as [Hd|(o & Ho & Hf)].
  - exfalso. assert (∀ l g, ga_devices (fold_left seed_job l g) = ga_devices g) as Hseed.
    { clear. induction l as [|j l IH]; intros g; cbn; [done|]. rw IH. unfold seed_job.
      by destruct (record_is_empty _), (job_state j). }
    by rw Hseed in Hd.
  - exists o. unfold device_filed, attests in Hf. destruct (adm mesh_id o) as [[]|]; try done.
    destruct (derived_public_key attestation) as [d|] eqn:Ed; [|done].
    case_bool_decide; [|done]. destruct (att_verify attestation) eqn:Ea; [|done]. cbn in Hf.
    apply fmap_Some in Hf as (m & Hm & [= -> ->]). eexists. split_and!; eauto. congruence.
Qed.

(** ** Resolving leased jobs *)










(** ** Who takes the next epoch *)

Lemma find_shift {A} (o : option (nat * A)) : snd <$> (prod_map S id <$> o) = snd <$> o.
Proof. by destruct o as [[]|]. Qed.

Lemma list_find_filter {A} (P Q : A → Prop) `{!∀ x, Decision (P x), !∀ x, Decision (Q x)} l :
  snd <$> list_find P (filter Q l) = snd <$> list_find (λ x, Q x ∧ P x) l.
Proof.
  induction l as [|x l IH]; [done|]. rw filter_cons. cbn [list_find].
  destruct (decide (Q x)) as [HQ|HQ].
  - cbn [list_find]. destruct (decide (P x)) as [HP|HP].
    + by rw decide_True.
    + rw (decide_False (P := Q x ∧ P x)); [by rw !find_shift|tauto].
  - rw (decide_False (P := Q x ∧ P x)); [by rw find_shift|tauto].
Qed.

(** The claimant a worker expects is the claim winner of the next window. *)
Lemma next_holder_winner g id post terms n b at_ms :
  lease_terms (resolve_job g id post) = Some terms →
  next_epoch (job_lease (resolve_job g id post)) = Some (n, b) →
  next_holder (resolve_job g id post) at_ms = winner_in (default ∅ (ga_claims g !! id)) b at_ms.
Proof.
  intros Ht Hn. unfold next_holder, winner_in.
  assert (next_claimants (resolve_job g id post) =
    (λ c, mkClaimant (cf_author c) (cf_at_ms c)) <$>
      filter (λ c, b ≤ cf_at_ms c) (bt_values (default ∅ (ga_claims g !! id)))) as ->.
  { unfold lease_terms in Ht. unfold resolve_job in *; cbn in *.
    destruct (p_spec post) as [spec|]; [|done]; cbn in Ht. rw Ht in Hn |- *.
    rw bool_decide_eq_true_2 // in Hn |- *. by rw Hn. }
  rw list_find_fmap. pose proof (list_find_filter (λ c, cf_at_ms c ≤ at_ms) (λ c, b ≤ cf_at_ms c)
    (bt_values (default ∅ (ga_claims g !! id)))) as H. unfold compose; cbn.
  destruct (list_find _ (filter _ _)) as [[i c]|], (list_find _ (bt_values _)) as [[i' c']|]; cbn in *;
    by simplify_eq.
Qed.

(** What the board advises is what the fold accepts. For a job whose next
    epoch is [n] from boundary [b], a grant of [n] inside the terms is folded
    into the lease exactly when its author is the [next_holder] the job
    reports at that time; otherwise the lease is unchanged. *)
Theorem next_holder_grant_accepted g id post terms n b at_ms expires h author gl
    (Ht : lease_terms (resolve_job g id post) = Some terms)
    (Hn : next_epoch (job_lease (resolve_job g id post)) = Some (n, b))
    (Hb : b ≤ at_ms) (Hx : at_ms < expires) (Hd : expires - at_ms ≤ max_duration_ms terms) :
  let j := resolve_job g id post in
  let grant := mkGrantFact h author n at_ms expires in
  grant_step gl terms (winner_in (default ∅ (ga_claims g !! id))) (job_lease j) grant =
    if bool_decide (next_holder j at_ms = Some author)
    then apply_facts gl (push_epoch (job_lease j) (granted_epoch grant))
    else job_lease j.
Proof.
  intros j grant. pose proof (next_holder_winner g id post terms n b at_ms Ht Hn) as Hh.
  subst j. revert Hn Hh. clear Ht. generalize (resolve_job g id post). intros j Hn Hh.
  unfold grant_step, accepts_grant. rw Hn. cbn.
  rw (bool_decide_eq_true_2 (n = n)) // (bool_decide_eq_true_2 (b ≤ at_ms)) //=.
  rw (bool_decide_eq_false_2 (expires ≤ at_ms)); [|lia].
  rw (bool_decide_eq_false_2 (max_duration_ms terms < _)); [|lia]. cbn.
  rw Hh. by repeat case_bool_decide.
Qed.

(** ** Checkpoints *)

(** All a board holds about one job. *)
Definition slice (g : Gather) (id : Z) :=
  (ga_posted g !! id, ga_claims g !! id, ga_results g !! id, ga_leases g !! id, ga_retained g !! id).

Lemma seed_job_other g j id : job_id j ≠ id → slice (seed_job g j) id = slice g id.
Proof.
  intros Hne. unfold slice, seed_job, put_post, put_claim, put_result, put_retained, entry_upd.
  destruct (record_is_empty _), (job_state j); cbn; by rw ?lookup_insert_ne.
Qed.

Lemma seed_jobs_other l g id : id ∉ job_id <$> l → slice (fold_left seed_job l g) id = slice g id.
Proof.
  revert g. induction l as [|j l IH]; intros g Hid; cbn; [done|]. rw fmap_cons in Hid.
  rw IH; [|set_solver]. apply seed_job_other. set_solver.
Qed.

Lemma seed_jobs_lookup l g j :
  NoDup (job_id <$> l) → j ∈ l →
  ∃ g', slice g' (job_id j) = slice g (job_id j) ∧
        slice (fold_left seed_job l g) (job_id j) = slice (seed_job g' j) (job_id j).
Proof.
  revert g. induction l as [|x l IH]; intros g Hnd; [by intros ?%elem_of_nil|].
  rw fmap_cons in Hnd. apply NoDup_cons in Hnd as [Hx Hnd].
  intros [->|Hj]%elem_of_cons; cbn.
  - exists g. split; [done|]. by apply seed_jobs_other.
  - destruct (IH (seed_job g x) Hnd Hj) as (g' & Hg' & Hs). exists g'. split; [|done].
    rw Hg'. apply seed_job_other. intros Heq. apply Hx. rw Heq. by apply list_elem_of_fmap_2.
Qed.

Lemma resolve_job_slice g g' id post : slice g id = slice g' id → resolve_job g id post = resolve_job g' id post.
Proof. unfold slice, resolve_job. by intros [= _ -> -> -> ->]. Qed.

(** What a job without lease terms looks like once resolved. *)
Definition unleased_wf (j : Job) : Prop :=
  lease_terms j = None ∧ job_lease j = LeaseRecord_default ∧ next_claimants j = [] ∧
  match job_state j with
  | StDone _ _ => job_spec j = None
  | StCommitted _ output => ∃ spec, job_spec j = Some spec ∧ is_ok (validate_against output spec) = true
  | _ => True
  end.

Lemma resolve_unleased_wf g id post :
  lease_terms (resolve_job g id post) = None → unleased_wf (resolve_job g id post).
Proof.
  intros Hu. split; [done|]. rw resolve_unleased //; cbn. split_and!; [done..|].
  destruct (_ <$> _) as [w|]; [|done]. unfold posted_resolve.
  destruct (_ ≫= _) as [[]|], (p_spec post) as [spec|]; try done.
  destruct (bool_decide _ && _) eqn:E; [|done]. apply andb_true_iff in E as [_ ?]. by exists spec.
Qed.

Lemma bt_first_singleton {V} k (v : V) : bt_first {[k := v]} = Some (k, v).
Proof.
  destruct (bt_first {[k := v]}) as [[k' v']|] eqn:E.
  - apply bt_first_Some in E as [E _]. by apply lookup_singleton_Some in E as [-> ->].
  - apply bt_first_None in E. by apply map_non_empty_singleton in E.
Qed.

(** A checkpointed job, reloaded into a board that knows nothing about it. *)
Lemma seed_job_resolve g j :
  unleased_wf j → slice g (job_id j) = (None, None, None, None, None) →
  ∃ post, ga_posted (seed_job g j) !! job_id j = Some post ∧
          resolve_job (seed_job g j) (job_id j) post = j.
Proof.
  intros (Hu & Hl & Hn & Hs) [= Hp Hc Hr Hle Hre].
  exists (mkPosted (job_kind j) (job_payload j) (job_spec j) (job_posted_by j)). split.
  - unfold seed_job. destruct (record_is_empty _), (job_state j); cbn; by rw lookup_insert_eq.
  - destruct j as [id k p sp by_ st le nc]; cbn in *. subst le nc.
    rw resolve_unleased; [|done]. unfold lease_terms in Hu; cbn in *. f_equal.
    unfold seed_job, put_post, put_claim, put_result, entry_upd; cbn.
    destruct st as [|w|w res|w o]; cbn; rw ?Hc ?Hr ?lookup_insert_eq /= ?insert_empty ?bt_first_singleton /=
      ?Hr ?lookup_singleton_eq; try done.
    + by rw Hs.
    + destruct Hs as (spec & -> & Hv). cbn in *. by rw Hu Hv.
Qed.

Lemma seeded_board_lookup snapshot j :
  NoDup (job_id <$> snap_jobs snapshot) → j ∈ snap_jobs snapshot → unleased_wf j →
  board_jobs (resolve_all (fold_left seed_job (snap_jobs snapshot) gather_empty)) !! job_id j = Some j.
Proof.
  intros Hnd Hj Hwf.
  destruct (seed_jobs_lookup (snap_jobs snapshot) gather_empty j Hnd Hj) as (g' & Hg' & Hs).
  destruct (seed_job_resolve g' j Hwf) as (post & Hp & Hres); [by rw Hg'|].
  rw board_lookup. assert (ga_posted (fold_left seed_job (snap_jobs snapshot) gather_empty) !! job_id j = Some post) as ->.
  { rw -Hp. by injection Hs. }
  cbn. f_equal. rw -{2}Hres. by apply resolve_job_slice.
Qed.

Lemma board_job_id g id j : board_jobs (resolve_all g) !! id = Some j → job_id j = id.
Proof. rw board_lookup. by intros (post & _ & ->)%fmap_Some. Qed.

Lemma from_board_ids g : job_id <$> snap_jobs (from_board (resolve_all g)) = (bt_iter (board_jobs (resolve_all g))).*1.
Proof.
  cbn [from_board snap_jobs]. unfold bt_values.
  assert (∀ kj, kj ∈ bt_iter (board_jobs (resolve_all g)) → job_id kj.2 = kj.1) as H.
  { intros [k j] Hin. apply elem_of_bt_iter in Hin. by apply board_job_id in Hin. }
  revert H. generalize (bt_iter (board_jobs (resolve_all g))). intros l H.
  rw -list_fmap_compose. apply list_fmap_ext. intros i x Hx. apply H. by eapply list_elem_of_lookup_2.
Qed.

(** A board of unleased jobs saved as a checkpoint and reloaded, with no
    further operations, has the same jobs. *)
Theorem checkpoint_roundtrip mesh_id snapshot ops
    (Hu : ∀ id j, board_jobs (fold_snap mesh_id snapshot ops) !! id = Some j → lease_terms j = None) :
  board_jobs (fold_snap mesh_id (from_board (fold_snap mesh_id snapshot ops)) []) =
  board_jobs (fold_snap mesh_id snapshot ops).
Proof.
  unfold fold_from_snapshot at 1. cbn [fold_left]. revert Hu. unfold fold_from_snapshot.
  generalize (fold_left (gather mesh_id) ops (fold_left seed_job (snap_jobs snapshot) gather_empty)).
  intros g Hu. apply map_eq. intros id.
  pose proof (from_board_ids g) as Hids.
  destruct (board_jobs (resolve_all g) !! id) as [j|] eqn:E.
  - rw -{1}(board_job_id g id j E). apply seeded_board_lookup.
    + rw Hids. apply bt_iter_keys_NoDup.
    + cbn. apply elem_of_bt_values. by exists id.
    + specialize (Hu _ _ E). rw board_lookup in E. apply fmap_Some in E as (post & _ & ->).
      by apply resolve_unleased_wf.
  - rw board_lookup. assert (slice (fold_left seed_job (snap_jobs (from_board (resolve_all g))) gather_empty) id
      = slice gather_empty id) as Hs.
    { apply seed_jobs_other. rw Hids. intros ([k j] & -> & Hin)%list_elem_of_fmap.
      apply elem_of_bt_iter in Hin. cbn in *. congruence. }
    apply (f_equal (λ p, p.1.1.1.1)) in Hs. cbn [slice fst] in Hs. by rw Hs.
Qed.

Lemma seeded_winner g g' j w :
  slice g (job_id j) = slice (seed_job g' j) (job_id j) → state_winner (job_state j) = Some w →
  claim_view g (job_id j, 0) = Some (mkClaimFact w 0).
Proof.
  intros [= _ Hc _ _ _] Hw. unfold claim_view; cbn. rw Hc. unfold seed_job. rw Hw.
  destruct (job_state j); cbn in *; simplify_eq; cbn; unfold entry_upd; rw lookup_insert_eq /=; apply lookup_insert_eq.
Qed.

Lemma claim_view_stable mesh_id ops g id k c :
  (∀ o t, o ∈ ops → adm mesh_id o = Some (JobClaimed id t) → op_hash o ≠ k) →
  claim_view g (id, k) = Some c →
  claim_view (fold_left (gather mesh_id) ops g) (id, k) = Some c.
Proof.
  revert g. induction ops as [|o ops IH]; intros g Ho Hc; cbn; [done|].
  apply IH; [intros; eapply Ho; [set_solver|done]|]. rw claim_step.
  destruct (claim_filed mesh_id o) as [[[id' k'] c']|] eqn:E; [|done]. cbn.
  apply claim_filed_Some in E as (Ha & -> & _). rw decide_False; [done|].
  intros [= -> Hk]. by eapply (Ho o); [left|..].
Qed.

Lemma seeded_claim_keys l id k c :
  NoDup (job_id <$> l) → claim_view (fold_left seed_job l gather_empty) (id, k) = Some c → k = 0.
Proof.
  intros Hnd H. destruct (decide (id ∈ job_id <$> l)) as [Hin|Hout].
  - apply list_elem_of_fmap in Hin as (j & -> & Hj).
    destruct (seed_jobs_lookup l gather_empty j Hnd Hj) as (g' & [= _ Hg' _ _ _] & [= _ Hs _ _ _]).
    unfold claim_view in H; cbn in H. rw Hs in H. unfold seed_job in H.
    destruct (record_is_empty _), (job_state j); cbn in H; unfold entry_upd in H;
      rw ?lookup_insert_eq ?Hg' /= in H; try done; by apply lookup_insert_Some in H as [[<- _]|[_ ?]].
  - apply (seed_jobs_other l gather_empty) in Hout. injection Hout as _ Hc _ _ _.
    unfold claim_view in H; cbn in H. by rw Hc in H.
Qed.

(** The winner of an unleased job recorded in a checkpoint stays the
    winner whatever claims are folded after it (operation hashes being
    nonzero). *)
Theorem checkpoint_winner_stable mesh_id snapshot ops j j' w
    (Hnd : NoDup (job_id <$> snap_jobs snapshot)) (Hj : j ∈ snap_jobs snapshot)
    (Hw : state_winner (job_state j) = Some w)
    (Hz : ∀ o t, o ∈ ops → adm mesh_id o = Some (JobClaimed (job_id j) t) → 0 < op_hash o)
    (Hj' : board_jobs (fold_snap mesh_id snapshot ops) !! job_id j = Some j')
    (Hu : lease_terms j' = None) :
  state_winner (job_state j') = Some w.
Proof.
  unfold fold_from_snapshot in Hj'. rw board_lookup in Hj'.
  apply fmap_Some in Hj' as (post & _ & ->). rw resolve_unleased //; cbn [job_state].
  destruct (seed_jobs_lookup (snap_jobs snapshot) gather_empty j Hnd Hj) as (g' & _ & Hs).
  pose proof (seeded_winner _ _ _ _ Hs Hw) as Hc.
  set (g0 := fold_left seed_job _ _) in *. set (g := fold_left _ ops g0).
  assert (claim_view g (job_id j, 0) = Some (mkClaimFact w 0)) as Hc'.
  { apply claim_view_stable; [|done]. intros o t Ho Ha. specialize (Hz o t Ho Ha). lia. }
  destruct (ga_claims g !! job_id j ≫= bt_first) as [[k c]|] eqn:Ef; cbn.
  - apply first_claim in Ef as [Hk Hmin]. specialize (Hmin 0 (ltac:(by eexists))).
    assert (k = 0) as ->.
    { eapply (fold_view_inv _ claim_view (claim_filed mesh_id) (claim_step mesh_id)) in Hk as Hk'.
      destruct Hk' as [Hk'|(o & Ho & Hf)]; [by eapply seeded_claim_keys|].
      apply claim_filed_Some in Hf as (Ha & -> & _). specialize (Hz o _ Ho Ha). lia. }
    rw posted_resolve_winner. by simplify_eq.
  - by rw (first_claim_None _ _ Ef) in Hc'.
Qed.
End theory.

(** ** Collecting blobs *)

Lemma elem_of_dedup_first {A} `{EqDecision A} (seen l : list A) x :
  x ∈ dedup_first seen l ↔ x ∈ l ∧ x ∉ seen.
Proof.
  revert seen. induction l as [|y l IH]; intros seen; cbn; [set_solver|].
  case_bool_decide as Hy; [|rw elem_of_cons]; rw IH; [set_solver|].
  destruct (decide (x = y)) as [->|]; set_solver.
Qed.

Lemma dedup_first_NoDup {A} `{EqDecision A} (seen l : list A) : NoDup (dedup_first seen l).
Proof.
  revert seen. induction l as [|y l IH]; intros seen; cbn; [constructor|].
  case_bool_decide; [done|]. constructor; [|done]. rw elem_of_dedup_first. set_solver.
Qed.

(** Blob collection is exact. A blob is collectable precisely when some
    terminal job of the accepted checkpoint names it and every job of the
    current board that names it is such a settled job; and it is listed once.
    *)
Theorem collectable_blobs_safe s cur b :
  NoDup (collectable_blobs (Some s) cur) ∧
  (b ∈ collectable_blobs (Some s) cur ↔
   (∃ j, j ∈ snap_jobs s ∧ is_terminal (job_state j) = true ∧ b ∈ job_blobs j) ∧
   (∀ id j', board_jobs cur !! id = Some j' → b ∈ job_blobs j' →
      ∃ j, j ∈ snap_jobs s ∧ is_terminal (job_state j) = true ∧ job_id j = job_id j')).
Proof.
  split; [apply dedup_first_NoDup|]. unfold collectable_blobs.
  rw elem_of_dedup_first list_elem_of_filter !list_elem_of_bind. split.
  - intros [[Hp (j & Hb & Hj)] _]. rw list_elem_of_filter in Hj. split; [naive_solver|].
    intros id j' Hj' Hb'.
    destruct (decide (job_id j' ∈ job_id <$> filter (λ j, is_terminal (job_state j) = true) (snap_jobs s)))
      as [Hin|Hout].
    + apply list_elem_of_fmap in Hin as (x & Hx & Hxin). rw list_elem_of_filter in Hxin. naive_solver.
    + destruct Hp. exists j'. split; [done|]. rw list_elem_of_filter elem_of_bt_values. eauto.
  - intros [(j & Hj & Ht & Hb) Hall]. split; [|set_solver]. split.
    + intros (j' & Hb' & Hj'). rw list_elem_of_filter elem_of_bt_values in Hj'.
      destruct Hj' as [Hns [id Hid]]. destruct (Hall id j' Hid Hb') as (x & ? & ? & Heq).
      apply Hns. rw -Heq. apply list_elem_of_fmap_2. by rw list_elem_of_filter.
    + exists j. by rw list_elem_of_filter.
Qed.

(** ** Worked boards

    Operations as records of a hash, an author and an event of mesh 1; every
    operation verifies, and attestations carry their keys in the clear. *)

Module Sample.
Local Open Scope string_scope.
Local Open Scope Z_scope.

Definition event : Type := MeshEvent (Z * Z) unit.
Record op : Type := mkOp { hash : Z; author : Z; body : event }.

Definition verify (_ : op) : bool := true.
Definition decode (o : op) : option (Z * event) := Some (1, body o).
Definition fold_all : list op → JobBoard :=
  board_fold verify decode hash author (λ a, Some a.1) (λ _, true) (λ a, Some a.2) 1.
Definition reload (b : JobBoard) : JobBoard :=
  fold_from_snapshot verify decode hash author (λ a, Some a.1) (λ _, true) (λ a, Some a.2) 1
    (from_board b) [].

Definition blob (n : Z) : BlobRef := mkBlobRef (mkDigest Blake3 (replicate 32 7)) n.
Definition resource : ResourceId := mkResourceId "text.render/v1".
Definition spec (lease : option LeaseTerms) : JobSpec :=
  mkJobSpec resource [mkJobInput "in" (blob 5)] (mkOutputGrant "out" 100) (mkRequirements 1 Cpu)
    Exact Restart lease.
Definition terms : LeaseTerms := mkLeaseTerms 10000 1000 3.
Definition output (n : Z) : JobOutput :=
  mkJobOutput "out" (blob n) resource (mkImplementationId "host.native/v1") ExactBytes.

Definition post_v1 : op := mkOp 10 1 (JobPosted Echo [1; 2] 0 0).
Definition post_v2 : op := mkOp 10 1 (JobPostedV2 (spec None) 0 0).
Definition post_leased : op := mkOp 10 1 (JobPostedV2 (spec (Some terms)) 0 0).
Definition claim_a : op := mkOp 21 5 (JobClaimed 10 50).
Definition claim_b : op := mkOp 20 6 (JobClaimed 10 60).
Definition grant_b : op := mkOp 30 6 (LeaseGranted 10 0 100 5000).
Definition done_a : op := mkOp 40 6 (JobDone 10 [1] 200).
Definition done_b : op := mkOp 41 6 (JobDone 10 [2] 201).
Definition done_v2 : op := mkOp 42 6 (JobDoneV2 10 (output 9) 200).
Definition complete_bad : op := mkOp 50 6 (JobCompletedUnderLease 10 30 (output 101) 300).
Definition complete_good : op := mkOp 51 6 (JobCompletedUnderLease 10 30 (output 9) 301).
Definition attest : op := mkOp 60 6 (DeviceAttested (6, 99)).

Definition unleased_ops : list op := [post_v2; claim_a; claim_b; done_v2; attest].
Definition leased_ops : list op := [post_leased; claim_a; claim_b; grant_b].


Definition result_ops : list op := [post_v1; claim_b; done_a].

Lemma result_ops_compatible :
  ops_compatible verify decode hash author (λ a, Some a.2) 1 result_ops.
Proof.
  intros o1 o2 H1 H2. unfold result_ops in *. rw !elem_of_cons elem_of_nil in H1.
  rw !elem_of_cons elem_of_nil in H2.
  destruct H1 as [->|[->|[->|[]]]], H2 as [->|[->|[->|[]]]];
    (split; [first [by intros _|by intros [=]|cbn; intros ?; lia]|intros Hh ev1 ev2 [= <-] [= <-]]); unfold events_compatible; cbn in *; (split_and!; [done|intros; simplify_eq..]).
Qed.

Lemma board_order_independent_witness :
  fold_all [post_v1; claim_b; done_a] = fold_all [done_a; claim_b; post_v1; done_a].
Proof.
  apply (board_order_independent verify decode hash author (λ a, Some a.1) (λ _, true) (λ a, Some a.2) 1
    (mkSnapshot []) result_ops [done_a; claim_b; post_v1; done_a]).
  - intros o. unfold result_ops. rw !elem_of_cons !elem_of_nil. tauto.
  - apply result_ops_compatible.
Defined.

Definition unleased_job : Job :=
  mkJob 10 None None (Some (spec None)) 1 (StCommitted 6 (output 9)) LeaseRecord_default [].

Lemma unleased_board : board_jobs (fold_all unleased_ops) !! 10 = Some unleased_job.
Proof. vm_compute. reflexivity. Qed.

Abbreviation adm1 := (admitted verify decode 1).

Lemma claim_race_lowest_hash_witness :
  (job_state unleased_job = StPosted ∧ ∀ o t, o ∈ unleased_ops → adm1 o ≠ Some (JobClaimed 10 t)) ∨
  ∃ o t, o ∈ unleased_ops ∧ adm1 o = Some (JobClaimed 10 t) ∧
    state_winner (job_state unleased_job) = Some (author o) ∧
    ∀ o' t', o' ∈ unleased_ops → adm1 o' = Some (JobClaimed 10 t') → hash o ≤ hash o'.
Proof.
  apply (claim_race_lowest_hash verify decode hash author (λ a, Some a.1) (λ _, true) (λ a, Some a.2) 1
    unleased_ops 10 unleased_job unleased_board). reflexivity.
Defined.

Lemma unleased_commit_honours_grant_witness :
  ∃ spec' o t, job_spec unleased_job = Some spec' ∧ o ∈ unleased_ops ∧ author o = 6 ∧
    adm1 o = Some (JobDoneV2 10 (output 9) t) ∧
    out_name (output 9) = grant_name (spec_output spec') ∧
    out_resource (output 9) = spec_resource spec' ∧
    blob_byte_len (out_blob (output 9)) ≤ grant_max_bytes (spec_output spec') ∧
    satisfies (out_verification (output 9)) (spec_determinism spec') = true.
Proof.
  apply (unleased_commit_honours_grant verify decode hash author (λ a, Some a.1) (λ _, true) (λ a, Some a.2) 1
    unleased_ops 10 unleased_job 6 (output 9) unleased_board); reflexivity.
Defined.

Lemma device_directory_sound_witness :
  ∃ o a, o ∈ unleased_ops ∧ author o = 6 ∧ adm1 o = Some (DeviceAttested a) ∧
    Some a.1 = Some 6 ∧ true = true ∧ Some a.2 = Some 99.
Proof.
  apply (device_directory_sound verify decode hash author (λ a, Some a.1) (λ _, true) (λ a, Some a.2) 1
    (mkSnapshot []) unleased_ops 6 99). vm_compute. reflexivity.
Defined.

Lemma unleased_terms id j :
  board_jobs (fold_all unleased_ops) !! id = Some j → lease_terms j = None.
Proof.
  destruct (decide (id = 10)) as [->|Hne]; [rw unleased_board; by intros [= <-]|].
  unfold fold_all, board_fold, fold_from_snapshot. rw board_lookup. cbn.
  rw lookup_insert_ne //.
Qed.

Lemma checkpoint_roundtrip_witness :
  board_jobs (reload (fold_all unleased_ops)) = board_jobs (fold_all unleased_ops).
Proof.
  apply (checkpoint_roundtrip verify decode hash author (λ a, Some a.1) (λ _, true) (λ a, Some a.2) 1
    (mkSnapshot []) unleased_ops unleased_terms).
Defined.

(** The checkpoint keeps device 6 the winner although the tail holds a claim
    with a lower hash than the one it won with. *)
Definition late_claim : op := mkOp 3 5 (JobClaimed 10 70).

Lemma checkpoint_winner_stable_witness :
  ∃ j', board_jobs (fold_from_snapshot verify decode hash author (λ a, Some a.1) (λ _, true)
          (λ a, Some a.2) 1 (mkSnapshot [unleased_job]) [late_claim]) !! 10 = Some j' ∧
        state_winner (job_state j') = Some 6.
Proof.
  destruct (board_jobs (fold_from_snapshot verify decode hash author (λ a, Some a.1) (λ _, true)
          (λ a, Some a.2) 1 (mkSnapshot [unleased_job]) [late_claim]) !! 10) as [j'|] eqn:E;
    [|vm_compute in E; discriminate].
  exists j'. split; [reflexivity|].
  apply (checkpoint_winner_stable verify decode hash author (λ a, Some a.1) (λ _, true) (λ a, Some a.2) 1
    (mkSnapshot [unleased_job]) [late_claim] unleased_job j' 6); [apply NoDup_singleton|left|reflexivity| |exact E|].
  - intros o t ->%list_elem_of_singleton _. vm_compute. reflexivity.
  - vm_compute in E. injection E as <-. reflexivity.
Defined.





Definition posting : Posted := mkPosted None None (Some (spec (Some terms))) 1.
Definition claimed : Gather :=
  mkGather {[10 := posting]} {[10 := {[21 := mkClaimFact 5 50]}]} ∅ ∅ ∅ ∅.

Lemma next_holder_grant_accepted_witness :
  grant_step (mkGathered ∅ ∅) terms (winner_in {[21 := mkClaimFact 5 50]}) LeaseRecord_default
    (mkGrantFact 33 5 0 80 4000) =
  mkLeaseRecord [mkEpoch 0 33 5 80 4000 80 LeaseProgress_default None].
Proof.
  rw (next_holder_grant_accepted claimed 10 posting terms 0 0 80 4000 33 5 (mkGathered ∅ ∅));
    vm_compute; first [reflexivity|discriminate].
Defined.

(** Two results filed by the winner of one job make the board depend on
    the order in which the operations are folded. *)
Theorem board_fold_order_dependent :
  Permutation [post_v1; claim_b; done_a; done_b] [post_v1; claim_b; done_b; done_a] ∧
  fold_all [post_v1; claim_b; done_a; done_b] ≠ fold_all [post_v1; claim_b; done_b; done_a].
Proof.
  split; [solve_Permutation|]. intros H.
  apply (f_equal (λ b, job_state <$> board_jobs b !! 10)) in H. vm_compute in H. discriminate.
Qed.

(** A leased job can be shown committed with an output larger than its
    signed grant: an oversized completion of the closing epoch precedes a
    valid one, the valid one closes the epoch, and the committed output is the
    first by hash. *)
Theorem leased_commit_may_break_grant :
  ∃ j, board_jobs (fold_all (leased_ops ++ [complete_bad; complete_good])) !! 10 = Some j ∧
    job_spec j = Some (spec (Some terms)) ∧ job_state j = StCommitted 6 (output 101) ∧
    validate_against (output 101) (spec (Some terms)) = Err (OverGrant 101 100).
Proof. eexists. split_and!; vm_compute; reflexivity. Qed.

(** A completed leased job is committed on the live board, the checkpoint
    guard accepts a checkpoint over it, and the board reloaded from that
    checkpoint shows it claimed, its output lost. *)
Theorem checkpoint_forgets_leased_output :
  let b := fold_all (leased_ops ++ [complete_good]) in
  job_state <$> board_jobs b !! 10 = Some (StCommitted 6 (output 9)) ∧
  live_leases (from_board b) 1000 LeasePolicy_default = [] ∧
  job_state <$> board_jobs (reload b) !! 10 = Some (StClaimed 6).
Proof. split_and!; vm_compute; reflexivity. Qed.
End Sample.
