(* ===== verification/Retention.v ===== *)
(** Retention checkpoints (crates/mesh/mesh/src/retention.rs).

    [validate_checkpoint] is [MeshRetentionPolicy::validate_checkpoint] with
    its guards in source order.  The CBOR encoding of a snapshot, the Blake3
    digests and the commitment check are functions the Section takes: the file
    relies on nothing about them.

    The theorem: along any sequence of accepted checkpoints no author's log
    frontier rewinds, each is by the configured authority of the right mesh, and
    none is taken over a live lease. *)

From S2P Require Import Prelude Digests JobSpec Lease Board.

Local Open Scope Z_scope.

(** ** Frontiers *)

Inductive MeshLogId : Type := Events | Checkpoints.
#[export] Instance MeshLogId_eq_dec : EqDecision MeshLogId.
Proof. solve_decision. Defined.
#[export] Program Instance MeshLogId_countable : Countable MeshLogId :=
  inj_countable' (λ l, match l with Events => true | Checkpoints => false end)
    (λ b, if b then Events else Checkpoints) _.
Next Obligation. by intros []. Qed.

Definition log_id {Att Ckpt} (ev : MeshEvent Att Ckpt) : MeshLogId :=
  match ev with RetentionCheckpoint _ => Checkpoints | _ => Events end.

Record LogFrontier : Type := mkFrontier {
  fr_author : Bytes32;
  fr_log : MeshLogId;
  fr_seq : Z;
  fr_operation : Bytes32
}.

Definition fr_key (f : LogFrontier) : Z * MeshLogId := (fr_author f, fr_log f).

Inductive CheckpointError : Type :=
| UnsupportedVersion (v : Z)
| ForeignMesh
| UnauthorizedAuthority
| StalePolicy
| FalseSnapshotReference
| FalseSnapshotCommitment
| DuplicateFrontier
| FrontierRewind
| LiveLease (job : Z).

(** The map [next] the first loop builds, or the duplicate it trips over. *)
Fixpoint index_frontier (next : gmap (Z * MeshLogId) LogFrontier) (l : list LogFrontier)
  : result CheckpointError (gmap (Z * MeshLogId) LogFrontier) :=
  match l with
  | [] => Ok next
  | entry :: l' =>
      match next !! fr_key entry with
      | Some _ => Err DuplicateFrontier
      | None => index_frontier (<[fr_key entry := entry]> next) l'
      end
  end.

Fixpoint check_previous (next : gmap (Z * MeshLogId) LogFrontier) (l : list LogFrontier)
  : result CheckpointError unit :=
  match l with
  | [] => Ok tt
  | previous :: l' =>
      match next !! fr_key previous with
      | None => Err FrontierRewind
      | Some candidate =>
          if bool_decide (fr_seq candidate < fr_seq previous) ||
             (bool_decide (fr_seq candidate = fr_seq previous) &&
              bool_decide (fr_operation candidate ≠ fr_operation previous))
          then Err FrontierRewind else check_previous next l'
      end
  end.

Section checkpoint.
Context {Digest_ Ref Commit : Type} `{EqDecision Digest_}.
Context (canonical_bytes : JobBoardSnapshot → list Z)
        (ref_verifies : Ref → list Z → bool)
        (commitment_verifies : Commit → list Z → bool)
        (digest_of_authority : Bytes32 → Digest_).

Record RetentionCheckpoint_ : Type := mkCheckpoint {
  ck_version : Z;
  ck_mesh_id : Bytes32;
  ck_policy_revision : Bytes32;
  ck_authority_revision : Digest_;
  ck_frontier : list LogFrontier;
  ck_snapshot : JobBoardSnapshot;
  ck_snapshot_ref : Ref;
  ck_snapshot_commitment : Commit;
  ck_at_ms : Z
}.

Record MeshRetentionPolicy : Type := mkRetentionPolicy {
  rp_revision : Bytes32;
  rp_checkpoint_authority : Bytes32;
  rp_lease : LeasePolicy
}.

Definition authority_revision (p : MeshRetentionPolicy) : Digest_ :=
  digest_of_authority (rp_checkpoint_authority p).

Definition permits_checkpoint (p : MeshRetentionPolicy) (author : Bytes32) (named : Digest_) : bool :=
  bool_decide (author = rp_checkpoint_authority p) && bool_decide (named = authority_revision p).

Definition validate_frontier (cur : option RetentionCheckpoint_) (candidate : list LogFrontier)
  : result CheckpointError unit :=
  match index_frontier ∅ candidate with
  | Err e => Err e
  | Ok next =>
      match cur with
      | None => Ok tt
      | Some c => check_previous next (ck_frontier c)
      end
  end.

Definition validate_checkpoint (p : MeshRetentionPolicy) (expected_mesh author : Bytes32)
    (cur : option RetentionCheckpoint_) (candidate : RetentionCheckpoint_)
  : result CheckpointError unit :=
  if bool_decide (ck_version candidate ≠ 1) then Err (UnsupportedVersion (ck_version candidate))
  else if bool_decide (ck_mesh_id candidate ≠ expected_mesh) then Err ForeignMesh
  else if negb (permits_checkpoint p author (ck_authority_revision candidate))
  then Err UnauthorizedAuthority
  else if bool_decide (ck_policy_revision candidate ≠ rp_revision p) then Err StalePolicy
  else match head (live_leases (ck_snapshot candidate) (ck_at_ms candidate) (rp_lease p)) with
       | Some job => Err (LiveLease job)
       | None =>
           let snapshot_bytes := canonical_bytes (ck_snapshot candidate) in
           if negb (ref_verifies (ck_snapshot_ref candidate) snapshot_bytes)
           then Err FalseSnapshotReference
           else if negb (commitment_verifies (ck_snapshot_commitment candidate) snapshot_bytes)
           then Err FalseSnapshotCommitment
           else validate_frontier cur (ck_frontier candidate)
       end.

(** ** Frontiers only advance *)

(** Every log of [l] is in [k], further on or at the same operation. *)
Definition advances (l k : list LogFrontier) : Prop :=
  ∀ f, f ∈ l → ∃ f', f' ∈ k ∧ fr_key f' = fr_key f ∧
    (fr_seq f < fr_seq f' ∨ fr_seq f = fr_seq f' ∧ fr_operation f = fr_operation f').

#[local] Instance advances_refl : Reflexive advances.
Proof. intros l f Hf. exists f. eauto. Qed.

#[local] Instance advances_trans : Transitive advances.
Proof.
  intros a b c Hab Hbc f Hf. destruct (Hab f Hf) as (f' & Hf' & Hk & Hs).
  destruct (Hbc f' Hf') as (f'' & Hf'' & Hk' & Hs'). exists f''. split_and!; [done|congruence|].
  destruct Hs as [?|[? ?]], Hs' as [?|[? ?]]; first [left; lia|right; split; [lia|congruence]].
Qed.

Lemma index_frontier_ok next l m :
  index_frontier next l = Ok m →
  (∀ k f, m !! k = Some f → next !! k = Some f ∨ f ∈ l ∧ fr_key f = k) ∧
  NoDup (fr_key <$> l) ∧ ∀ f, f ∈ l → next !! fr_key f = None.
Proof.
  revert next. induction l as [|x l IH]; intros next; cbn [index_frontier].
  - intros [= <-]. split_and!; [auto|constructor|by intros ? ?%elem_of_nil].
  - destruct (next !! fr_key x) eqn:E; [done|].
    intros (H1 & H2 & H3)%IH. rw fmap_cons. split_and!.
    + intros k f Hm. apply H1 in Hm as [[[<- <-]|[_ ?]]%lookup_insert_Some|[? ?]]; [|by left|];
        right; (split; [set_solver|done]).
    + constructor; [|done]. intros (f & Hk & Hf)%list_elem_of_fmap.
      specialize (H3 f Hf). rw -Hk lookup_insert_eq in H3. done.
    + intros f [->|Hf]%elem_of_cons; [done|]. specialize (H3 f Hf).
      by apply lookup_insert_None in H3 as [? _].
Qed.

Lemma check_previous_ok next l :
  check_previous next l = Ok tt →
  ∀ f, f ∈ l → ∃ f', next !! fr_key f = Some f' ∧
    (fr_seq f < fr_seq f' ∨ fr_seq f = fr_seq f' ∧ fr_operation f = fr_operation f').
Proof.
  induction l as [|x l IH]; cbn [check_previous]; [by intros _ ? ?%elem_of_nil|].
  destruct (next !! fr_key x) as [c|] eqn:E; [|done].
  intros H f [->|Hf]%elem_of_cons.
  - exists c. split; [done|]. repeat case_bool_decide; cbn in H; try done; lia.
  - apply IH; [|done]. by destruct (bool_decide _ || _).
Qed.

Lemma validate_frontier_ok cur candidate :
  validate_frontier cur candidate = Ok tt →
  NoDup (fr_key <$> candidate) ∧ ∀ c, cur = Some c → advances (ck_frontier c) candidate.
Proof.
  unfold validate_frontier. destruct (index_frontier ∅ candidate) as [next|] eqn:E; [|done].
  apply index_frontier_ok in E as (Hm & Hnd & _). intros H. split; [done|].
  intros c ->. intros f Hf. destruct (check_previous_ok _ _ H f Hf) as (f' & Hf' & Hs).
  apply Hm in Hf' as [?|[? ?]]; [done|]. by exists f'.
Qed.

Lemma validate_checkpoint_ok p mesh author cur c :
  validate_checkpoint p mesh author cur c = Ok tt →
  ck_version c = 1 ∧ ck_mesh_id c = mesh ∧ author = rp_checkpoint_authority p ∧
  ck_policy_revision c = rp_revision p ∧
  live_leases (ck_snapshot c) (ck_at_ms c) (rp_lease p) = [] ∧
  ref_verifies (ck_snapshot_ref c) (canonical_bytes (ck_snapshot c)) = true ∧
  commitment_verifies (ck_snapshot_commitment c) (canonical_bytes (ck_snapshot c)) = true ∧
  validate_frontier cur (ck_frontier c) = Ok tt.
Proof.
  unfold validate_checkpoint, permits_checkpoint. intros H.
  repeat (case_bool_decide; cbn in H; try done).
  destruct (live_leases _ _ _) eqn:El; [|done]. cbn in H.
  destruct (ref_verifies _ _) eqn:Er; [|done]. destruct (commitment_verifies _ _) eqn:Ec; [|done].
  by split_and!.
Qed.

(** The checkpoints a store accepts one after the other. *)
Inductive accepted (p : MeshRetentionPolicy) (mesh author : Bytes32)
  : option RetentionCheckpoint_ → list RetentionCheckpoint_ → Prop :=
| accepted_nil cur : accepted p mesh author cur []
| accepted_cons cur c l :
    validate_checkpoint p mesh author cur c = Ok tt →
    accepted p mesh author (Some c) l → accepted p mesh author cur (c :: l).

Lemma accepted_advances p mesh author c l d :
  accepted p mesh author (Some c) l → d ∈ l → advances (ck_frontier c) (ck_frontier d).
Proof.
  remember (Some c) as cur eqn:Hcur. intros H. revert c Hcur.
  induction H as [|cur c l Hv Hl IH]; intros c0 ->; [by intros ?%elem_of_nil|].
  apply validate_checkpoint_ok in Hv as (_ & _ & _ & _ & _ & _ & _ & [_ Hadv]%validate_frontier_ok).
  intros [->|Hd]%elem_of_cons; [by apply Hadv|].
  etransitivity; [by apply Hadv|by apply IH].
Qed.

(** Checkpoints never rewind. Along any sequence of accepted checkpoints,
    every log frontier of an earlier one is present and no lower in a later
    one, without duplicate logs; and each is by the configured authority, for
    this mesh, over a board with no live lease. *)
Theorem checkpoint_frontier_monotone p mesh author cur l i j c d
    (H : accepted p mesh author cur l) (Hij : (i < j)%nat)
    (Hc : l !! i = Some c) (Hd : l !! j = Some d) :
  advances (ck_frontier c) (ck_frontier d) ∧ NoDup (fr_key <$> ck_frontier d) ∧
  ck_mesh_id d = mesh ∧ author = rp_checkpoint_authority p ∧
  live_leases (ck_snapshot d) (ck_at_ms d) (rp_lease p) = [].
Proof.
  revert i j Hij Hc Hd. induction H as [|cur x l Hv Hl IH]; [done|]. intros i [|j] Hij Hc Hd; [lia|].
  cbn in Hd. destruct i as [|i]; [|by apply (IH i j); [lia|..]]. injection Hc as ->.
  apply list_elem_of_lookup_2 in Hd as Hin. split; [by eapply accepted_advances|].
  clear -Hl Hin. induction Hl as [|cur y l Hv Hl IH]; [by apply elem_of_nil in Hin|].
  apply elem_of_cons in Hin as [->|Hin]; [|by apply IH].
  by apply validate_checkpoint_ok in Hv as (_ & ? & ? & _ & ? & _ & _ & [? _]%validate_frontier_ok).
Qed.
End checkpoint.

(** ** A worked sequence of two checkpoints *)

Definition sample_policy : MeshRetentionPolicy := mkRetentionPolicy 4 7 LeasePolicy_default.
Definition sample_checkpoint (seq op : Z) : RetentionCheckpoint_ (Digest_ := Z) (Ref := unit) (Commit := unit) :=
  mkCheckpoint 1 1 4 70 [mkFrontier 5 Events seq op] (mkSnapshot []) tt tt 1000.

Lemma checkpoint_frontier_monotone_witness :
  advances [mkFrontier 5 Events 2 20] [mkFrontier 5 Events 3 21] ∧
  NoDup (fr_key <$> [mkFrontier 5 Events 3 21]) ∧ 1 = 1 ∧ 7 = 7 ∧
  live_leases (mkSnapshot []) 1000 LeasePolicy_default = [].
Proof.
  apply (checkpoint_frontier_monotone (λ _, []) (λ _ _, true) (λ _ _, true) (λ a, a * 10)
    sample_policy 1 7 None [sample_checkpoint 2 20; sample_checkpoint 3 21] 0 1
    (sample_checkpoint 2 20) (sample_checkpoint 3 21)); [|lia|reflexivity|reflexivity].
  repeat constructor; vm_compute; reflexivity.
Defined.
