(* ===== verification/SlotMap.v ===== *)
(** The interfaces of the third-party containers the lineage layer stores its
    records in.

    [SlotMap] states what the slotmap crate documents: a map from keys to
    values whose [insert] chooses a key that was never handed out before
    (removed keys stay invalid), and an iterator that yields every entry once.
    The keys of the three slot maps of the lineage layer are distinct Rust types
    over the same representation; here they are integers.

    [HashOrder] is the iteration order of a [HashSet]: every element once, in an
    order nothing may depend on.

    [counter_slotmap] and [elements_order] are instances, so every statement
    over the interfaces can be evaluated. *)

From S2P Require Import Prelude.

Class SlotMap (M : Type → Type) : Type := {
  sm_view : ∀ {V}, M V → gmap Z V;
  sm_issued : ∀ {V}, M V → gset Z;
  sm_new : ∀ {V}, M V;
  sm_insert : ∀ {V}, V → M V → Z * M V;
  sm_remove : ∀ {V}, Z → M V → M V;
  sm_alter : ∀ {V}, (V → V) → Z → M V → M V;
  sm_map_values : ∀ {V}, (V → V) → M V → M V;
  sm_iter : ∀ {V}, M V → list (Z * V);

  sm_view_new V : sm_view (sm_new (V := V)) = ∅;
  sm_issued_new V : sm_issued (sm_new (V := V)) = ∅;
  sm_insert_fresh V (v : V) m : (sm_insert v m).1 ∉ sm_issued m;
  sm_view_insert V (v : V) m : sm_view (sm_insert v m).2 = <[(sm_insert v m).1 := v]> (sm_view m);
  sm_issued_insert V (v : V) m :
    sm_issued (sm_insert v m).2 = {[(sm_insert v m).1]} ∪ sm_issued m;
  sm_view_issued V (m : M V) k : is_Some (sm_view m !! k) → k ∈ sm_issued m;
  sm_view_remove V k (m : M V) : sm_view (sm_remove k m) = delete k (sm_view m);
  sm_issued_remove V k (m : M V) : sm_issued (sm_remove k m) = sm_issued m;
  sm_view_alter V f k (m : M V) : sm_view (sm_alter f k m) = alter f k (sm_view m);
  sm_issued_alter V f k (m : M V) : sm_issued (sm_alter f k m) = sm_issued m;
  sm_view_map V f (m : M V) : sm_view (sm_map_values f m) = f <$> sm_view m;
  sm_issued_map V f (m : M V) : sm_issued (sm_map_values f m) = sm_issued m;
  sm_iter_view V (m : M V) : sm_iter m ≡ₚ map_to_list (sm_view m)
}.

Definition sm_get {M} `{SlotMap M} {V} (m : M V) (k : Z) : option V := sm_view m !! k.
Definition sm_contains {M} `{SlotMap M} {V} (m : M V) (k : Z) : bool :=
  match sm_get m k with Some _ => true | None => false end.
Definition sm_len {M} `{SlotMap M} {V} (m : M V) : nat := length (sm_iter m).

Class HashOrder : Type := {
  set_iter : gset Z → list Z;
  set_iter_elements X : set_iter X ≡ₚ elements X
}.

Lemma elem_of_set_iter `{HashOrder} X k : k ∈ set_iter X ↔ k ∈ X.
Proof. by rw set_iter_elements elem_of_elements. Qed.

Section slotmap_lemmas.
Context {M} `{SlotMap M}.

Lemma sm_insert_get_ne {V} (v : V) m : sm_view m !! (sm_insert v m).1 = None.
Proof.
  apply eq_None_not_Some. intros Hs. by apply (sm_insert_fresh V v m), sm_view_issued.
Qed.

Lemma elem_of_sm_iter {V} (m : M V) k v : (k, v) ∈ sm_iter m ↔ sm_view m !! k = Some v.
Proof. by rw sm_iter_view elem_of_map_to_list. Qed.

Lemma sm_iter_keys_NoDup {V} (m : M V) : NoDup (sm_iter m).*1.
Proof. rw sm_iter_view. apply NoDup_fst_map_to_list. Qed.

Lemma sm_len_size {V} (m : M V) : sm_len m = size (sm_view m).
Proof. unfold sm_len. by rw sm_iter_view length_map_to_list. Qed.

Lemma sm_contains_true {V} (m : M V) k : sm_contains m k = true ↔ is_Some (sm_view m !! k).
Proof. unfold sm_contains, sm_get. destruct (sm_view m !! k); naive_solver. Qed.
End slotmap_lemmas.

(** ** Instances *)

Record counter_map (V : Type) : Type := mkCounter {
  cm_contents : gmap Z V;
  cm_issued : gset Z;
  cm_next : Z;
  cm_fresh : bool_decide (set_Forall (λ k, (k < cm_next)%Z) cm_issued) = true;
  cm_live : bool_decide (map_Forall (λ k _, k ∈ cm_issued) cm_contents) = true
}.
Arguments mkCounter {V}.
Arguments cm_contents {V}.
Arguments cm_issued {V}.
Arguments cm_next {V}.
Arguments cm_fresh {V}.
Arguments cm_live {V}.

Program Definition cm_insert {V} (v : V) (m : counter_map V) : Z * counter_map V :=
  (cm_next m, mkCounter (<[cm_next m := v]> (cm_contents m)) ({[cm_next m]} ∪ cm_issued m)
                (cm_next m + 1)%Z _ _).
Next Obligation.
  intros V v m. apply bool_decide_eq_true_2. pose proof (cm_fresh m) as Hf.
  rw bool_decide_eq_true in Hf. intros k [->%elem_of_singleton|Hk]%elem_of_union; [lia|].
  specialize (Hf k Hk). cbn in Hf. lia.
Qed.
Next Obligation.
  intros V v m. apply bool_decide_eq_true_2. pose proof (cm_live m) as Hl.
  rw bool_decide_eq_true in Hl. intros k x [[<- _]|[_ Hk]]%lookup_insert_Some; [set_solver|].
  specialize (Hl k x Hk). set_solver.
Qed.

Program Definition cm_remove {V} (k : Z) (m : counter_map V) : counter_map V :=
  mkCounter (delete k (cm_contents m)) (cm_issued m) (cm_next m) (cm_fresh m) _.
Next Obligation.
  intros V k m. apply bool_decide_eq_true_2. pose proof (cm_live m) as Hl.
  rw bool_decide_eq_true in Hl. intros i x [_ Hi]%lookup_delete_Some. by eapply Hl.
Qed.

Program Definition cm_alter {V} (f : V → V) (k : Z) (m : counter_map V) : counter_map V :=
  mkCounter (alter f k (cm_contents m)) (cm_issued m) (cm_next m) (cm_fresh m) _.
Next Obligation.
  intros V f k m. apply bool_decide_eq_true_2. pose proof (cm_live m) as Hl.
  rw bool_decide_eq_true in Hl.
  intros i x [(-> & y & Hy & _)|[_ Hi]]%lookup_alter_Some; by eapply Hl.
Qed.

Program Definition cm_map {V} (f : V → V) (m : counter_map V) : counter_map V :=
  mkCounter (f <$> cm_contents m) (cm_issued m) (cm_next m) (cm_fresh m) _.
Next Obligation.
  intros V f m. apply bool_decide_eq_true_2. pose proof (cm_live m) as Hl.
  rw bool_decide_eq_true in Hl. intros i x (y & _ & Hi)%lookup_fmap_Some. by eapply Hl.
Qed.

Lemma cm_next_fresh {V} (m : counter_map V) : cm_next m ∉ cm_issued m.
Proof.
  intros Hk. pose proof (cm_fresh m) as Hf. rw bool_decide_eq_true in Hf.
  specialize (Hf _ Hk). cbn in Hf. lia.
Qed.

Lemma cm_contents_issued {V} (m : counter_map V) k :
  is_Some (cm_contents m !! k) → k ∈ cm_issued m.
Proof.
  intros [x Hx]. pose proof (cm_live m) as Hl. rw bool_decide_eq_true in Hl. by eapply Hl.
Qed.

#[export] Instance counter_slotmap : SlotMap counter_map.
Proof.
  refine {|
    sm_view V := cm_contents;
    sm_issued V := cm_issued;
    sm_new V := mkCounter ∅ ∅ 0%Z eq_refl eq_refl;
    sm_insert V := cm_insert;
    sm_remove V := cm_remove;
    sm_alter V := cm_alter;
    sm_map_values V := cm_map;
    sm_iter V m := bt_iter (cm_contents m)
  |}; try done.
  - intros V v m. apply cm_next_fresh.
  - intros V m k. apply cm_contents_issued.
  - intros V m. apply merge_sort_Permutation.
Defined.

#[export] Instance elements_order : HashOrder.
Proof. refine {| set_iter := elements |}. done. Defined.
