(* ===== verification/Stemma.v ===== *)
(** The lineage layer (crates/eidetic/chartulary/src/stemma/).

    [Stemma] is the record of the Rust struct over any [SlotMap]; every method
    of mutations.rs, queries.rs and snapshot.rs is a definition of the same name.
    A [&mut self] method returning [Result] is a function to a pair of the state
    it leaves behind and its result, so what an error path leaves behind is
    visible.  The three loops that follow links ([root_of], [collect_subtree],
    [linear_history_visits_of_owner]) run with one more unit of fuel than there
    are visits and return [None] when it runs out.  [ensure_binding] hands out a
    mutable reference: its argument [set] is what the caller writes through it.
    A [None] of the snapshot functions is an index panic. *)

From S2P Require Import Prelude SlotMap.

Local Open Scope Z_scope.

Inductive EntryPrivacy : Type := LocalOnly | ShareCandidate | Shared.

Inductive TransitionKind : Type :=
| LinkClick | UrlTyped | Back_ | Forward_ | Reload | Redirect_ | TabSpawn | Restore_ | Imported
| Unknown.
#[export] Instance TransitionKind_eq_dec : EqDecision TransitionKind.
Proof. solve_decision. Defined.

Definition transition_code (k : TransitionKind) : nat :=
  match k with
  | LinkClick => 0 | UrlTyped => 1 | Back_ => 2 | Forward_ => 3 | Reload => 4 | Redirect_ => 5
  | TabSpawn => 6 | Restore_ => 7 | Imported => 8 | Unknown => 9
  end.
Definition transition_of_code (n : nat) : TransitionKind :=
  nth n [LinkClick; UrlTyped; Back_; Forward_; Reload; Redirect_; TabSpawn; Restore_; Imported] Unknown.
#[export] Instance TransitionKind_countable : Countable TransitionKind.
Proof. apply (inj_countable' transition_code transition_of_code). by intros []. Defined.

Record TransitionRecord : Type := mkTransition { tr_kind : TransitionKind; tr_at_ms : Z }.

Abbreviation EntryId := Z (only parsing).
Abbreviation VisitId := Z (only parsing).
Abbreviation OwnerId := Z (only parsing).

Record EntryRecord (K E : Type) : Type := mkEntry {
  en_key : K;
  en_payload : E;
  first_seen_at_ms : Z;
  last_seen_at_ms : Z;
  visit_count : Z;
  privacy : EntryPrivacy
}.
Arguments mkEntry {K E}.
Arguments en_key {K E}.
Arguments en_payload {K E}.
Arguments first_seen_at_ms {K E}.
Arguments last_seen_at_ms {K E}.
Arguments visit_count {K E}.
Arguments privacy {K E}.

Record OwnerBinding : Type := mkBinding {
  forward_child : option VisitId;
  last_accessed_at_ms : Z
}.

Record VisitRecord (X : Type) : Type := mkVisit {
  vi_entry : EntryId;
  vi_parent : option VisitId;
  vi_children : list VisitId;
  created_at_ms : Z;
  vi_context : X;
  vi_inbound : option TransitionRecord;
  vi_bindings : gmap OwnerId OwnerBinding
}.
Arguments mkVisit {X}.
Arguments vi_entry {X}.
Arguments vi_parent {X}.
Arguments vi_children {X}.
Arguments created_at_ms {X}.
Arguments vi_context {X}.
Arguments vi_inbound {X}.
Arguments vi_bindings {X}.

Record OwnerRecord (O : Type) : Type := mkOwner {
  ow_identity : O;
  ow_origin : option VisitId;
  ow_current : option VisitId;
  ow_creator : option OwnerId;
  pending_origin_parent : option VisitId;
  owned_visits : gset VisitId
}.
Arguments mkOwner {O}.
Arguments ow_identity {O}.
Arguments ow_origin {O}.
Arguments ow_current {O}.
Arguments ow_creator {O}.
Arguments pending_origin_parent {O}.
Arguments owned_visits {O}.

Inductive StemmaError : Type :=
| MissingOwner (o : OwnerId) | MissingEntry (e : EntryId) | MissingVisit (v : VisitId).

(** ** Field updates *)

Definition with_bindings {X} (f : gmap OwnerId OwnerBinding → gmap OwnerId OwnerBinding)
    (r : VisitRecord X) : VisitRecord X :=
  mkVisit (vi_entry r) (vi_parent r) (vi_children r) (created_at_ms r) (vi_context r) (vi_inbound r)
    (f (vi_bindings r)).
Definition push_child {X} (c : VisitId) (r : VisitRecord X) : VisitRecord X :=
  mkVisit (vi_entry r) (vi_parent r) (vi_children r ++ [c]) (created_at_ms r) (vi_context r)
    (vi_inbound r) (vi_bindings r).
Definition make_root {X} (r : VisitRecord X) : VisitRecord X :=
  mkVisit (vi_entry r) None (vi_children r) (created_at_ms r) (vi_context r) None (vi_bindings r).

Definition set_forward (c : option VisitId) (b : OwnerBinding) : OwnerBinding :=
  mkBinding c (last_accessed_at_ms b).

Definition set_current {O} (v : VisitId) (w : OwnerRecord O) : OwnerRecord O :=
  mkOwner (ow_identity w) (ow_origin w) (Some v) (ow_creator w) (pending_origin_parent w)
    ({[v]} ∪ owned_visits w).
Definition take_pending {O} (w : OwnerRecord O) : OwnerRecord O :=
  mkOwner (ow_identity w) (ow_origin w) (ow_current w) (ow_creator w) None (owned_visits w).
Definition init_origin {O} (v : VisitId) (w : OwnerRecord O) : OwnerRecord O :=
  match ow_origin w with
  | Some _ => w
  | None => mkOwner (ow_identity w) (Some v) (ow_current w) (ow_creator w) (pending_origin_parent w)
              (owned_visits w)
  end.
Definition clear_owner {O} (w : OwnerRecord O) : OwnerRecord O :=
  mkOwner (ow_identity w) None None (ow_creator w) None ∅.
Definition set_path {O} (path : list VisitId) (cur : option VisitId) (w : OwnerRecord O) : OwnerRecord O :=
  mkOwner (ow_identity w) (head path) cur (ow_creator w) None (list_to_set path).

Definition count_visit {K E} (at_ms : Z) (e : EntryRecord K E) : EntryRecord K E :=
  mkEntry (en_key e) (en_payload e) (first_seen_at_ms e) at_ms (wrap64 (visit_count e + 1)) (privacy e).
Definition uncount_visit {K E} (e : EntryRecord K E) : EntryRecord K E :=
  mkEntry (en_key e) (en_payload e) (first_seen_at_ms e) (last_seen_at_ms e)
    (saturating_sub (visit_count e) 1) (privacy e).
Definition see_entry {K E} (payload : E) (at_ms : Z) (p : EntryPrivacy) (e : EntryRecord K E) : EntryRecord K E :=
  mkEntry (en_key e) payload (first_seen_at_ms e) at_ms (visit_count e) p.

Section stemma.
Context {M : Type → Type} `{SlotMap M} `{HashOrder}.
Context {K E O X : Type} `{Countable K} `{Countable O}.

Record Stemma : Type := mkStemma {
  entries : M (EntryRecord K E);
  visits : M (VisitRecord X);
  owners : M (OwnerRecord O);
  entry_index : gmap K EntryId;
  owner_index : gmap O OwnerId
}.

Definition stemma_new : Stemma := mkStemma sm_new sm_new sm_new ∅ ∅.

Definition set_entries m s := mkStemma m (visits s) (owners s) (entry_index s) (owner_index s).
Definition set_visits m s := mkStemma (entries s) m (owners s) (entry_index s) (owner_index s).
Definition set_owners m s := mkStemma (entries s) (visits s) m (entry_index s) (owner_index s).

Definition alter_entry f k s := set_entries (sm_alter f k (entries s)) s.
Definition alter_visit f k s := set_visits (sm_alter f k (visits s)) s.
Definition alter_owner f k s := set_owners (sm_alter f k (owners s)) s.

Definition owner_current (s : Stemma) (o : OwnerId) : option VisitId := sm_get (owners s) o ≫= ow_current.

(** ** mutations.rs *)

Definition ensure_owner (s : Stemma) (identity : O) (creator : option OwnerId) : Stemma * OwnerId :=
  match owner_index s !! identity with
  | Some id => (s, id)
  | None =>
      let pending := creator ≫= λ c, sm_get (owners s) c ≫= ow_current in
      let '(id, m) := sm_insert (mkOwner identity None None creator pending ∅) (owners s) in
      (mkStemma (entries s) (visits s) m (entry_index s) (<[identity := id]> (owner_index s)), id)
  end.

Definition resolve_or_create_entry (s : Stemma) (key : K) (payload : E) (at_ms : Z) (p : EntryPrivacy)
  : Stemma * EntryId :=
  match entry_index s !! key with
  | Some id => (alter_entry (see_entry payload at_ms p) id s, id)
  | None =>
      let '(id, m) := sm_insert (mkEntry key payload at_ms at_ms 0 p) (entries s) in
      (mkStemma m (visits s) (owners s) (<[key := id]> (entry_index s)) (owner_index s), id)
  end.

Definition ensure_binding (s : Stemma) (visit_id : VisitId) (owner_id : OwnerId) (at_ms : Z)
    (set : OwnerBinding → OwnerBinding) : option Stemma :=
  match sm_get (visits s) visit_id with
  | None => None
  | Some _ =>
      Some (alter_visit (with_bindings (λ bs,
        <[owner_id := set (mkBinding (match bs !! owner_id with Some b => forward_child b | None => None end)
                             at_ms)]> bs)) visit_id s)
  end.

Definition bind_owner_to_visit (s : Stemma) (owner_id : OwnerId) (visit_id : VisitId) (at_ms : Z)
  : Stemma * result StemmaError unit :=
  if negb (sm_contains (owners s) owner_id) then (s, Err (MissingOwner owner_id))
  else if negb (sm_contains (visits s) visit_id) then (s, Err (MissingVisit visit_id))
  else match ensure_binding s visit_id owner_id at_ms id with
       | None => (s, Err (MissingVisit visit_id))
       | Some s' => (alter_owner (set_current visit_id) owner_id s', Ok tt)
       end.

Definition adopt_visit (s : Stemma) (owner_id : OwnerId) (visit_id : VisitId) (at_ms : Z)
  : Stemma * result StemmaError VisitId :=
  if negb (sm_contains (owners s) owner_id) then (s, Err (MissingOwner owner_id))
  else if negb (sm_contains (visits s) visit_id) then (s, Err (MissingVisit visit_id))
  else
    let s1 :=
      match owner_current s owner_id with
      | None => s
      | Some current_id =>
          if match sm_get (visits s) current_id with
             | Some r => bool_decide (visit_id ∈ vi_children r)
             | None => false
             end
          then default s (ensure_binding s current_id owner_id at_ms (set_forward (Some visit_id)))
          else s
      end in
    match bind_owner_to_visit s1 owner_id visit_id at_ms with
    | (s2, Err e) => (s2, Err e)
    | (s2, Ok _) => (s2, Ok visit_id)
    end.

(** The parent of a new visit: the owner's current visit, or its pending origin
    parent, which is consumed. *)
Definition take_parent (s : Stemma) (owner_id : OwnerId) : option VisitId * Stemma :=
  match owner_current s owner_id with
  | Some c => (Some c, s)
  | None =>
      (sm_get (owners s) owner_id ≫= pending_origin_parent, alter_owner take_pending owner_id s)
  end.

Definition attach_child (s : Stemma) (parent : option VisitId) (owner_id visit_id : Z) (at_ms : Z) : Stemma :=
  match parent with
  | None => s
  | Some p =>
      let s1 := alter_visit (push_child visit_id) p s in
      default s1 (ensure_binding s1 p owner_id at_ms (set_forward (Some visit_id)))
  end.

Definition visit_entry (s : Stemma) (owner_id : OwnerId) (entry_id : EntryId) (context : X)
    (transition : TransitionKind) (at_ms : Z) : Stemma * result StemmaError VisitId :=
  if negb (sm_contains (owners s) owner_id) then (s, Err (MissingOwner owner_id))
  else if negb (sm_contains (entries s) entry_id) then (s, Err (MissingEntry entry_id))
  else
    let '(parent, s1) := take_parent s owner_id in
    let '(visit_id, vs) :=
      sm_insert (mkVisit entry_id parent [] at_ms context
                   ((λ _, mkTransition transition at_ms) <$> parent) ∅) (visits s1) in
    let s2 := attach_child (set_visits vs s1) parent owner_id visit_id at_ms in
    match bind_owner_to_visit s2 owner_id visit_id at_ms with
    | (s3, Err e) => (s3, Err e)
    | (s3, Ok _) =>
        (alter_entry (count_visit at_ms) entry_id (alter_owner (init_origin visit_id) owner_id s3),
         Ok visit_id)
    end.

Fixpoint back_loop (n : nat) (s : Stemma) (owner_id : OwnerId) (at_ms : Z) (moved_to : option VisitId)
  : Stemma * result StemmaError (option VisitId) :=
  match n with
  | 0%nat => (s, Ok moved_to)
  | S n' =>
      match owner_current s owner_id with
      | None => (s, Ok moved_to)
      | Some current_id =>
          match sm_get (visits s) current_id ≫= vi_parent with
          | None => (s, Ok moved_to)
          | Some parent_id =>
              let s1 := default s (ensure_binding s parent_id owner_id at_ms (set_forward (Some current_id))) in
              match bind_owner_to_visit s1 owner_id parent_id at_ms with
              | (s2, Err e) => (s2, Err e)
              | (s2, Ok _) => back_loop n' s2 owner_id at_ms (Some parent_id)
              end
          end
      end
  end.

Definition back (s : Stemma) (owner_id : OwnerId) (steps : nat) (at_ms : Z)
  : Stemma * result StemmaError (option VisitId) :=
  if negb (sm_contains (owners s) owner_id) then (s, Err (MissingOwner owner_id))
  else back_loop (Nat.max steps 1) s owner_id at_ms None.

Definition forward_of (s : Stemma) (visit_id : VisitId) (owner_id : OwnerId) : option VisitId :=
  sm_get (visits s) visit_id ≫= λ r, vi_bindings r !! owner_id ≫= forward_child.

Fixpoint forward_loop (n : nat) (s : Stemma) (owner_id : OwnerId) (at_ms : Z) (moved_to : option VisitId)
  : Stemma * result StemmaError (option VisitId) :=
  match n with
  | 0%nat => (s, Ok moved_to)
  | S n' =>
      match owner_current s owner_id with
      | None => (s, Ok moved_to)
      | Some current_id =>
          match forward_of s current_id owner_id with
          | None => (s, Ok moved_to)
          | Some next_id =>
              match bind_owner_to_visit s owner_id next_id at_ms with
              | (s2, Err e) => (s2, Err e)
              | (s2, Ok _) => forward_loop n' s2 owner_id at_ms (Some next_id)
              end
          end
      end
  end.

Definition forward (s : Stemma) (owner_id : OwnerId) (steps : nat) (at_ms : Z)
  : Stemma * result StemmaError (option VisitId) :=
  if negb (sm_contains (owners s) owner_id) then (s, Err (MissingOwner owner_id))
  else forward_loop (Nat.max steps 1) s owner_id at_ms None.

(** [root_of]: [None] when the chain of parents outlasts the fuel. *)
Fixpoint root_loop (fuel : nat) (s : Stemma) (cursor : VisitId) : option (result StemmaError VisitId) :=
  match fuel with
  | 0%nat => None
  | S fuel' =>
      match sm_get (visits s) cursor with
      | None => Some (Err (MissingVisit cursor))
      | Some r =>
          match vi_parent r with
          | Some parent => root_loop fuel' s parent
          | None => Some (Ok cursor)
          end
      end
  end.

Definition root_of (s : Stemma) (visit_id : VisitId) : option (result StemmaError VisitId) :=
  root_loop (S (sm_len (visits s))) s visit_id.

(** The stack of [collect_subtree], top first. *)
Fixpoint collect_loop (fuel : nat) (s : Stemma) (stack out : list VisitId) : option (list VisitId) :=
  match fuel with
  | 0%nat => None
  | S fuel' =>
      match stack with
      | [] => Some out
      | visit_id :: stack' =>
          match sm_get (visits s) visit_id with
          | None => collect_loop fuel' s stack' out
          | Some r => collect_loop fuel' s (vi_children r ++ stack') (out ++ [visit_id])
          end
      end
  end.

Definition collect_subtree (s : Stemma) (root_id : VisitId) : option (list VisitId) :=
  collect_loop (S (S (sm_len (visits s)))) s [root_id] [].

Definition branch_is_ownerless (s : Stemma) (root_id : VisitId) : option bool :=
  (λ l, forallb (λ v, match sm_get (visits s) v with
                      | Some r => bool_decide (vi_bindings r = ∅)
                      | None => true
                      end) l) <$> collect_subtree s root_id.

Fixpoint remove_visits (s : Stemma) (l : list VisitId) (deleted : list VisitId)
  : Stemma * result StemmaError (list VisitId) :=
  match l with
  | [] => (s, Ok deleted)
  | visit_id :: l' =>
      match sm_get (visits s) visit_id with
      | None => (s, Err (MissingVisit visit_id))
      | Some r =>
          remove_visits (alter_entry uncount_visit (vi_entry r) (set_visits (sm_remove visit_id (visits s)) s))
            l' (deleted ++ [visit_id])
      end
  end.

Definition delete_branch (s : Stemma) (root_id : VisitId) (deleted : list VisitId)
  : option (Stemma * result StemmaError (list VisitId)) :=
  (λ subtree, remove_visits s (reverse subtree) deleted) <$> collect_subtree s root_id.

(** The first loop of [delete_owner]: the roots of the visits still present. *)
Fixpoint collect_roots (s : Stemma) (l : list VisitId) (roots : gset VisitId)
  : option (result StemmaError (gset VisitId)) :=
  match l with
  | [] => Some (Ok roots)
  | visit_id :: l' =>
      if sm_contains (visits s) visit_id then
        match root_of s visit_id with
        | None => None
        | Some (Err e) => Some (Err e)
        | Some (Ok root) => collect_roots s l' ({[root]} ∪ roots)
        end
      else collect_roots s l' roots
  end.

Fixpoint delete_roots (s : Stemma) (l : list VisitId) (deleted : list VisitId)
  : option (Stemma * result StemmaError (list VisitId)) :=
  match l with
  | [] => Some (s, Ok deleted)
  | root :: l' =>
      match branch_is_ownerless s root with
      | None => None
      | Some false => delete_roots s l' deleted
      | Some true =>
          match delete_branch s root deleted with
          | None => None
          | Some (s', Err e) => Some (s', Err e)
          | Some (s', Ok deleted') => delete_roots s' l' deleted'
          end
      end
  end.

Definition delete_owner (s : Stemma) (owner_id : OwnerId)
  : option (Stemma * result StemmaError (list VisitId)) :=
  match sm_get (owners s) owner_id with
  | None => Some (s, Err (MissingOwner owner_id))
  | Some w =>
      let s1 := mkStemma (entries s) (sm_map_values (with_bindings (delete owner_id)) (visits s))
                  (sm_remove owner_id (owners s)) (entry_index s) (delete (ow_identity w) (owner_index s)) in
      match collect_roots s1 (set_iter (owned_visits w)) ∅ with
      | None => None
      | Some (Err e) => Some (s1, Err e)
      | Some (Ok roots) => delete_roots s1 (set_iter roots) []
      end
  end.

(** Dropping the owner's bindings from the visits it owns. *)
Definition unbind_owned (s : Stemma) (owner_id : OwnerId) (l : list VisitId) : Stemma :=
  fold_left (λ s v, alter_visit (with_bindings (delete owner_id)) v s) l s.

Definition reset_owner (s : Stemma) (owner_id : OwnerId) (context : X) (at_ms : Z)
  : Stemma * result StemmaError (option VisitId) :=
  match sm_get (owners s) owner_id with
  | None => (s, Err (MissingOwner owner_id))
  | Some w =>
      match ow_current w with
      | None => (s, Ok None)
      | Some current_id =>
          match sm_get (visits s) current_id with
          | None => (s, Err (MissingVisit current_id))
          | Some r =>
              let s1 := unbind_owned s owner_id (set_iter (owned_visits w)) in
              let s2 := alter_owner clear_owner owner_id s1 in
              match visit_entry s2 owner_id (vi_entry r) context Restore_ at_ms with
              | (s3, Err e) => (s3, Err e)
              | (s3, Ok reset_visit) => (alter_visit make_root reset_visit s3, Ok (Some reset_visit))
              end
          end
      end
  end.

Fixpoint bind_path (s : Stemma) (owner_id : OwnerId) (path : list VisitId) (at_ms : Z)
  : Stemma * result StemmaError unit :=
  match path with
  | [] => (s, Ok tt)
  | visit_id :: rest =>
      match ensure_binding s visit_id owner_id at_ms (set_forward (head rest)) with
      | None => (s, Err (MissingVisit visit_id))
      | Some s' => bind_path s' owner_id rest at_ms
      end
  end.

Definition rebind_owner_to_path (s : Stemma) (owner_id : OwnerId) (path : list VisitId)
    (current_index : nat) (at_ms : Z) : Stemma * result StemmaError unit :=
  match sm_get (owners s) owner_id with
  | None => (s, Err (MissingOwner owner_id))
  | Some w =>
      match list_find (λ v, sm_contains (visits s) v = false) path with
      | Some (_, v) => (s, Err (MissingVisit v))
      | None =>
          let s1 := unbind_owned s owner_id (set_iter (owned_visits w)) in
          match bind_path s1 owner_id path at_ms with
          | (s2, Err e) => (s2, Err e)
          | (s2, Ok _) =>
              (alter_owner (set_path path (path !! Nat.min current_index (length path - 1))) owner_id s2, Ok tt)
          end
      end
  end.

(** ** queries.rs *)

Definition owner_id_by_identity (s : Stemma) (identity : O) : option OwnerId := owner_index s !! identity.
Definition entry_id_by_key (s : Stemma) (key : K) : option EntryId := entry_index s !! key.

Definition current_entry_of_owner (s : Stemma) (owner_id : OwnerId) : option EntryId :=
  owner_current s owner_id ≫= λ v, vi_entry <$> sm_get (visits s) v.

Fixpoint linear_loop (fuel : nat) (s : Stemma) (owner_id : OwnerId) (cursor : VisitId)
    (out : list VisitId) : option (list VisitId) :=
  match fuel with
  | 0%nat => None
  | S fuel' =>
      match forward_of s cursor owner_id with
      | Some next => linear_loop fuel' s owner_id next (out ++ [next])
      | None => Some out
      end
  end.

Definition linear_history_visits_of_owner (s : Stemma) (owner_id : OwnerId)
  : option (result StemmaError (list VisitId)) :=
  match sm_get (owners s) owner_id with
  | None => Some (Err (MissingOwner owner_id))
  | Some w =>
      match ow_origin w with
      | None => Some (Ok [])
      | Some origin => Ok <$> linear_loop (S (sm_len (visits s))) s owner_id origin [origin]
      end
  end.

Fixpoint collect_entries (s : Stemma) (l : list VisitId) : result StemmaError (list EntryId) :=
  match l with
  | [] => Ok []
  | v :: l' =>
      match sm_get (visits s) v with
      | None => Err (MissingVisit v)
      | Some r =>
          match collect_entries s l' with
          | Err e => Err e
          | Ok es => Ok (vi_entry r :: es)
          end
      end
  end.

Definition linear_history_entries_of_owner (s : Stemma) (owner_id : OwnerId)
  : option (result StemmaError (list EntryId)) :=
  match linear_history_visits_of_owner s owner_id with
  | None => None
  | Some (Err e) => Some (Err e)
  | Some (Ok l) => Some (collect_entries s l)
  end.

Definition position (v : VisitId) (l : list VisitId) : option nat := fst <$> list_find (λ x, x = v) l.

Definition current_index_of_owner (s : Stemma) (owner_id : OwnerId)
  : option (result StemmaError (option nat)) :=
  match owner_current s owner_id with
  | None => Some (Ok None)
  | Some cur =>
      match linear_history_visits_of_owner s owner_id with
      | None => None
      | Some (Err e) => Some (Err e)
      | Some (Ok l) => Some (Ok (position cur l))
      end
  end.

Record OwnerBranchAlternative : Type := mkAlternative {
  alt_visit_id : VisitId;
  alt_entry_id : EntryId;
  alt_payload : E;
  alt_transition : option TransitionKind;
  alt_at_ms : Z
}.

Record OwnerBranchVisit : Type := mkBranchVisit {
  bv_visit_id : VisitId;
  bv_entry_id : EntryId;
  bv_payload : E;
  bv_transition : option TransitionKind;
  bv_at_ms : Z;
  bv_is_current : bool;
  bv_alternates : list OwnerBranchAlternative
}.

Definition alternative_of (s : Stemma) (child_id : VisitId) : option OwnerBranchAlternative :=
  match sm_get (visits s) child_id with
  | None => None
  | Some child =>
      match sm_get (entries s) (vi_entry child) with
      | None => None
      | Some e => Some (mkAlternative child_id (vi_entry child) (en_payload e)
                          (tr_kind <$> vi_inbound child) (created_at_ms child))
      end
  end.

Fixpoint branch_visits (s : Stemma) (cur : option VisitId) (linear : list VisitId)
  : result StemmaError (list OwnerBranchVisit) :=
  match linear with
  | [] => Ok []
  | visit_id :: rest =>
      match sm_get (visits s) visit_id with
      | None => Err (MissingVisit visit_id)
      | Some visit =>
          match sm_get (entries s) (vi_entry visit) with
          | None => Err (MissingEntry (vi_entry visit))
          | Some e =>
              let alternates :=
                omap (alternative_of s) (filter (λ c, Some c ≠ head rest) (vi_children visit)) in
              match branch_visits s cur rest with
              | Err err => Err err
              | Ok l => Ok (mkBranchVisit visit_id (vi_entry visit) (en_payload e)
                              (tr_kind <$> vi_inbound visit) (created_at_ms visit)
                              (bool_decide (cur = Some visit_id)) alternates :: l)
              end
          end
      end
  end.

Definition owner_branch_projection (s : Stemma) (owner_id : OwnerId)
  : option (result StemmaError (list OwnerBranchVisit * option nat)) :=
  match linear_history_visits_of_owner s owner_id with
  | None => None
  | Some (Err e) => Some (Err e)
  | Some (Ok linear) =>
      let cur := owner_current s owner_id in
      match branch_visits s cur linear with
      | Err e => Some (Err e)
      | Ok l => Some (Ok (l, cur ≫= λ v, position v linear))
      end
  end.

Record EdgeView : Type := mkEdgeView {
  from_visit : VisitId;
  to_visit : VisitId;
  from_entry : EntryId;
  to_entry : EntryId;
  ev_transition : option TransitionKind;
  ev_at_ms : Z
}.

Definition edge_view_of (s : Stemma) (kv : VisitId * VisitRecord X) : option EdgeView :=
  match vi_parent kv.2 with
  | None => None
  | Some parent_id =>
      match sm_get (visits s) parent_id with
      | None => None
      | Some parent => Some (mkEdgeView parent_id kv.1 (vi_entry parent) (vi_entry kv.2)
                               (tr_kind <$> vi_inbound kv.2) (created_at_ms kv.2))
      end
  end.

Definition edge_views (s : Stemma) : list EdgeView := omap (edge_view_of s) (sm_iter (visits s)).

Record AggregatedEntryEdgeView : Type := mkAggregate {
  ag_from_entry : EntryId;
  ag_to_entry : EntryId;
  traversal_count : Z;
  latest_transition_at_ms : Z;
  transition_counts : gmap TransitionKind Z
}.

Definition aggregate_edge (m : gmap (EntryId * EntryId) AggregatedEntryEdgeView) (e : EdgeView)
  : gmap (EntryId * EntryId) AggregatedEntryEdgeView :=
  let key := (from_entry e, to_entry e) in
  let view := default (mkAggregate (from_entry e) (to_entry e) 0 0 ∅) (m !! key) in
  <[key := mkAggregate (ag_from_entry view) (ag_to_entry view) (wrap64 (traversal_count view + 1))
      (Z.max (latest_transition_at_ms view) (ev_at_ms e))
      (match ev_transition e with
       | Some kind => <[kind := wrap64 (default 0 (transition_counts view !! kind) + 1)]>
                        (transition_counts view)
       | None => transition_counts view
       end)]> m.

(** The values of the map [aggregated_entry_edges] returns, by their key. *)
Definition aggregated_entry_edges (s : Stemma) : gmap (EntryId * EntryId) AggregatedEntryEdgeView :=
  fold_left aggregate_edge (edge_views s) ∅.

(** ** snapshot.rs *)

Record EntrySnapshot : Type := mkEntrySnap { es_record : EntryRecord K E }.
Record BindingSnapshot : Type := mkBindingSnap {
  bs_owner : nat; bs_forward_child : option nat; bs_last_accessed_at_ms : Z }.
Record VisitSnapshot : Type := mkVisitSnap {
  vs_entry : nat;
  vs_parent : option nat;
  vs_children : list nat;
  vs_created_at_ms : Z;
  vs_context : X;
  vs_inbound : option TransitionRecord;
  vs_bindings : list BindingSnapshot
}.
Record OwnerSnapshot : Type := mkOwnerSnap {
  os_identity : O;
  os_origin : option nat;
  os_current : option nat;
  os_creator : option nat;
  os_pending : option nat;
  os_owned : list nat
}.
Record StemmaSnapshot : Type := mkSnap {
  sn_entries : list EntrySnapshot;
  sn_visits : list VisitSnapshot;
  sn_owners : list OwnerSnapshot
}.

(** [index[&k]], and its lift to an optional key. *)
Definition index_of {V} (m : M V) (k : Z) : option nat := position k (sm_iter m).*1.
Definition opt_index {V} (m : M V) (o : option Z) : option (option nat) :=
  match o with None => Some None | Some k => Some <$> index_of m k end.

Definition snap_binding (s : Stemma) (ob : OwnerId * OwnerBinding) : option BindingSnapshot :=
  owner ← index_of (owners s) ob.1;
  fwd ← opt_index (visits s) (forward_child ob.2);
  Some (mkBindingSnap owner fwd (last_accessed_at_ms ob.2)).

Definition binding_list (bs : gmap OwnerId OwnerBinding) : list (OwnerId * OwnerBinding) :=
  omap (λ o, (λ b, (o, b)) <$> bs !! o) (set_iter (dom bs)).

Definition snap_visit (s : Stemma) (r : VisitRecord X) : option VisitSnapshot :=
  entry ← index_of (entries s) (vi_entry r);
  parent ← opt_index (visits s) (vi_parent r);
  children ← mapM (index_of (visits s)) (vi_children r);
  bindings ← mapM (snap_binding s) (binding_list (vi_bindings r));
  Some (mkVisitSnap entry parent children (created_at_ms r) (vi_context r) (vi_inbound r) bindings).

Definition snap_owner (s : Stemma) (w : OwnerRecord O) : option OwnerSnapshot :=
  origin ← opt_index (visits s) (ow_origin w);
  cur ← opt_index (visits s) (ow_current w);
  creator ← opt_index (owners s) (ow_creator w);
  pending ← opt_index (visits s) (pending_origin_parent w);
  owned ← mapM (index_of (visits s)) (set_iter (owned_visits w));
  Some (mkOwnerSnap (ow_identity w) origin cur creator pending owned).

Definition to_snapshot (s : Stemma) : option StemmaSnapshot :=
  vs ← mapM (snap_visit s) (sm_iter (visits s)).*2;
  os ← mapM (snap_owner s) (sm_iter (owners s)).*2;
  Some (mkSnap (mkEntrySnap <$> (sm_iter (entries s)).*2) vs os).

(** Inserting a list of records, with the keys handed out. *)
Definition insert_all {V} (l : list V) (m : M V) : list Z * M V :=
  fold_left (λ '(ids, m) v, let '(k, m') := sm_insert v m in (ids ++ [k], m')) l ([], m).

Definition index_all {A} `{Countable A} (keys : list A) (ids : list Z) : gmap A Z :=
  fold_left (λ m ki, <[ki.1 := ki.2]> m) (zip keys ids) ∅.

Definition opt_lookup (ids : list Z) (o : option nat) : option (option Z) :=
  match o with None => Some None | Some i => Some <$> ids !! i end.

Definition load_visit (entry_ids : list Z) (v : VisitSnapshot) : option (VisitRecord X) :=
  e ← entry_ids !! vs_entry v;
  Some (mkVisit e None [] (vs_created_at_ms v) (vs_context v) (vs_inbound v) ∅).

Definition load_binding (owner_ids visit_ids : list Z) (b : BindingSnapshot) : option (OwnerId * OwnerBinding) :=
  o ← owner_ids !! bs_owner b;
  fwd ← opt_lookup visit_ids (bs_forward_child b);
  Some (o, mkBinding fwd (bs_last_accessed_at_ms b)).

Definition link_visit (owner_ids visit_ids : list Z) (m : M (VisitRecord X)) (iv : Z * VisitSnapshot)
  : option (M (VisitRecord X)) :=
  parent ← opt_lookup visit_ids (vs_parent iv.2);
  children ← mapM (λ c, visit_ids !! c) (vs_children iv.2);
  bindings ← mapM (load_binding owner_ids visit_ids) (vs_bindings iv.2);
  Some (sm_alter (λ r, mkVisit (vi_entry r) parent children (created_at_ms r) (vi_context r)
          (vi_inbound r) (fold_left (λ m ob, <[ob.1 := ob.2]> m) bindings ∅)) iv.1 m).

Definition link_owner (owner_ids visit_ids : list Z) (m : M (OwnerRecord O)) (io : Z * OwnerSnapshot)
  : option (M (OwnerRecord O)) :=
  origin ← opt_lookup visit_ids (os_origin io.2);
  cur ← opt_lookup visit_ids (os_current io.2);
  creator ← opt_lookup owner_ids (os_creator io.2);
  pending ← opt_lookup visit_ids (os_pending io.2);
  owned ← mapM (λ v, visit_ids !! v) (os_owned io.2);
  Some (sm_alter (λ w, mkOwner (ow_identity w) origin cur creator pending (list_to_set owned)) io.1 m).

Definition from_snapshot (snap : StemmaSnapshot) : option Stemma :=
  let '(owner_ids, os) :=
    insert_all ((λ o, mkOwner (os_identity o) None None None None ∅) <$> sn_owners snap) sm_new in
  let '(entry_ids, es) := insert_all (es_record <$> sn_entries snap) sm_new in
  records ← mapM (load_visit entry_ids) (sn_visits snap);
  let '(visit_ids, vs) := insert_all records sm_new in
  vs' ← foldM (link_visit owner_ids visit_ids) (zip visit_ids (sn_visits snap)) vs;
  os' ← foldM (link_owner owner_ids visit_ids) (zip owner_ids (sn_owners snap)) os;
  Some (mkStemma es vs' os' (index_all (en_key ∘ es_record <$> sn_entries snap) entry_ids)
          (index_all (os_identity <$> sn_owners snap) owner_ids)).
End stemma.
