(* ===== verification/Lineage.v ===== *)
(** The invariant of the lineage layer and its preservation.

    [tree_wf] is about the visit tree alone: children and parents agree,
    children lists have no repetition, the parent relation is acyclic.  It
    depends only on the [shape] of the visits.  [bind_wf] ties owners and visits
    together: an owner's visits exist and carry its binding, its cursor and its
    origin are among them, and a forward link leads to a live visit.  Parents
    and pending origins may refer to deleted visits; everything else never
    dangles.  [wf] is their conjunction with the consistency of the two indices.

    Every mutation preserves [wf] ([wf_step] collects them), so every state the
    API can reach satisfies it ([reachable_wf]). *)

From S2P Require Import Prelude SlotMap Stemma.

Lemma alter_present {V} (f : V → V) k (m : gmap Z V) r :
  m !! k = Some r → alter f k m = <[k := f r]> m.
Proof.
  intros Hr. apply map_eq. intros i. destruct (decide (i = k)) as [->|Hi].
  - by rw lookup_alter_eq lookup_insert_eq Hr.
  - by rw lookup_alter_ne // lookup_insert_ne.
Qed.

Lemma alter_absent {V} (f : V → V) k (m : gmap Z V) : m !! k = None → alter f k m = m.
Proof.
  intros Hr. apply map_eq. intros i. destruct (decide (i = k)) as [->|Hi].
  - by rw lookup_alter_eq Hr.
  - by rw lookup_alter_ne.
Qed.

Lemma fmap_alter_same {V A} (g : V → A) f k (m : gmap Z V) :
  (∀ r, g (f r) = g r) → g <$> alter f k m = g <$> m.
Proof.
  intros Hf. apply map_eq. intros i. rw !lookup_fmap. destruct (decide (i = k)) as [->|Hi].
  - rw lookup_alter_eq. destruct (m !! k) as [r|]; cbn; [by rw Hf|done].
  - by rw lookup_alter_ne.
Qed.

(** ** The visit tree *)

Section tree.
Context {X : Type}.
Implicit Types (V : gmap Z (VisitRecord X)) (r : VisitRecord X).

Definition shape r : Z * option Z * list Z := (vi_entry r, vi_parent r, vi_children r).

Record tree_wf V (issued : gset Z) : Prop := {
  tw_children p r c :
    V !! p = Some r → c ∈ vi_children r → ∃ rc, V !! c = Some rc ∧ vi_parent rc = Some p;
  tw_nodup p r : V !! p = Some r → NoDup (vi_children r);
  tw_parent c rc p r :
    V !! c = Some rc → vi_parent rc = Some p → V !! p = Some r → c ∈ vi_children r;
  tw_issued c rc p : V !! c = Some rc → vi_parent rc = Some p → p ∈ issued;
  tw_rank : ∃ rank : Z → nat, ∀ c rc p, V !! c = Some rc → vi_parent rc = Some p → rank p < rank c
}.

Lemma shape_lookup V V' k r' :
  shape <$> V = shape <$> V' → V' !! k = Some r' → ∃ r, V !! k = Some r ∧ shape r = shape r'.
Proof.
  intros Hs Hr. assert ((shape <$> V) !! k = Some (shape r')) as Hk by by rw Hs lookup_fmap Hr.
  rw lookup_fmap in Hk. destruct (V !! k) as [r|]; [|done]. exists r. split; [done|]. by apply (inj Some).
Qed.

(** Only the shape of the visits matters. *)
Lemma tree_wf_shape V V' issued : shape <$> V = shape <$> V' → tree_wf V issued → tree_wf V' issued.
Proof.
  intros Hs [H1 H2 H3 H4 [rank H5]].
  assert (∀ k r', V' !! k = Some r' → ∃ r, V !! k = Some r ∧ vi_parent r = vi_parent r' ∧
    vi_children r = vi_children r') as Hl.
  { intros k r' Hr'. destruct (shape_lookup V V' k r' Hs Hr') as (r & Hr & [=]). eauto. }
  split.
  - intros p r' c Hp Hc. destruct (Hl _ _ Hp) as (r & Hr & _ & Hch). rw -Hch in Hc.
    destruct (H1 p r c Hr Hc) as (rc & Hrc & Hpc).
    destruct (shape_lookup V' V c rc (eq_sym Hs) Hrc) as (rc' & Hrc' & Hsh). injection Hsh as _ Hpp _.
    exists rc'. split; [done|congruence].
  - intros p r' Hp. destruct (Hl _ _ Hp) as (r & Hr & _ & <-). eauto.
  - intros c rc' p r' Hc Hpc Hp. destruct (Hl _ _ Hp) as (r & Hr & _ & <-).
    destruct (Hl _ _ Hc) as (rc & Hrc & Heq & _). apply (H3 c rc p r); [done|congruence|done].
  - intros c rc' p Hc Hpc. destruct (Hl _ _ Hc) as (rc & Hrc & Heq & _). eapply H4; [done|congruence].
  - exists rank. intros c rc' p Hc Hpc. destruct (Hl _ _ Hc) as (rc & Hrc & Heq & _).
    eapply H5; [done|congruence].
Qed.

Lemma alter_shape f k V : (∀ r, shape (f r) = shape r) → shape <$> alter f k V = shape <$> V.
Proof. apply fmap_alter_same. Qed.

Lemma fmap_shape f V : (∀ r, shape (f r) = shape r) → shape <$> (f <$> V) = shape <$> V.
Proof.
  intros Hf. apply map_eq. intros i. rw !lookup_fmap. destruct (V !! i) as [r|]; cbn; [by rw Hf|done].
Qed.

(** Growing the tree by one leaf under an already issued parent. *)
Lemma tree_wf_leaf V issued k rk parent :
  tree_wf V issued → (∀ i, is_Some (V !! i) → i ∈ issued) → k ∉ issued →
  vi_children rk = [] → vi_parent rk = parent → (∀ p, parent = Some p → p ∈ issued) →
  tree_wf (match parent with
           | Some p => alter (push_child k) p (<[k := rk]> V)
           | None => <[k := rk]> V
           end) ({[k]} ∪ issued).
Proof.
  intros [H1 H2 H3 H4 [rank H5]] Hiss Hk Hch Hpar Hp.
  assert (V !! k = None) as Hkn.
  { apply eq_None_not_Some. intros ?%Hiss. done. }
  set (V' := match parent with Some p => _ | None => _ end).
  assert (∀ i r', V' !! i = Some r' → i = k ∧ r' = rk ∨
    i ≠ k ∧ ∃ r, V !! i = Some r ∧ vi_parent r' = vi_parent r ∧
      (parent = Some i ∧ vi_children r' = vi_children r ++ [k] ∨
       parent ≠ Some i ∧ vi_children r' = vi_children r)) as Hl.
  { intros i r' Hi. unfold V' in Hi. destruct parent as [p|].
    - assert (p ≠ k) by (intros ->; by apply Hk, Hp).
      destruct (decide (i = p)) as [->|Hip].
      + rw lookup_alter_eq lookup_insert_ne // in Hi. apply fmap_Some in Hi as (r & Hr & ->).
        right. split; [done|]. exists r. split_and!; [done..|]. by left.
      + rw lookup_alter_ne // in Hi. apply lookup_insert_Some in Hi as [[<- <-]|[? ?]]; [by left|].
        right. split; [done|]. exists r'. split_and!; [done..|]. right. split; [congruence|done].
    - apply lookup_insert_Some in Hi as [[<- <-]|[? ?]]; [by left|].
      right. split; [done|]. exists r'. eauto 6. }
  assert (∀ i r, V !! i = Some r → ∃ r', V' !! i = Some r' ∧ vi_parent r' = vi_parent r) as Hold.
  { intros i r Hi. assert (i ≠ k) by congruence. unfold V'. destruct parent as [p|].
    - destruct (decide (i = p)) as [->|Hip].
      + exists (push_child k r). by rw lookup_alter_eq lookup_insert_ne // Hi.
      + exists r. by rw lookup_alter_ne // lookup_insert_ne.
    - exists r. by rw lookup_insert_ne. }
  assert (V' !! k = Some rk) as Hnew.
  { unfold V'. destruct parent as [p|]; [|by rw lookup_insert_eq].
    assert (p ≠ k) by (intros ->; by apply Hk, Hp). by rw lookup_alter_ne // lookup_insert_eq. }
  assert (∀ i r, V !! i = Some r → k ∉ vi_children r) as Hkc.
  { intros i r Hi Hin. destruct (H1 i r k Hi Hin) as (? & ? & _). congruence. }
  split.
  - intros p r' c Hpr Hc. apply Hl in Hpr as [[-> ->]|(Hpk & r & Hr & _ & Hcs)].
    { rw Hch in Hc. by apply elem_of_nil in Hc. }
    destruct (decide (c = k)) as [->|Hck].
    + destruct Hcs as [[-> _]|[_ Heq]]; [by exists rk|]. rw Heq in Hc. by apply (Hkc p r) in Hc.
    + assert (c ∈ vi_children r) as Hc'.
      { destruct Hcs as [[_ Heq]|[_ Heq]]; rw Heq in Hc; [|done].
        apply elem_of_app in Hc as [?|?%list_elem_of_singleton]; done. }
      destruct (H1 p r c Hr Hc') as (rc & Hrc & Hpc). destruct (Hold c rc Hrc) as (rc' & ? & Heq).
      exists rc'. split; [done|congruence].
  - intros p r' Hpr. apply Hl in Hpr as [[-> ->]|(Hpk & r & Hr & _ & [[_ ->]|[_ ->]])].
    + rw Hch. constructor.
    + apply NoDup_app. split_and!; [eauto| |apply NoDup_singleton].
      intros x Hx ->%list_elem_of_singleton. by eapply Hkc.
    + eauto.
  - intros c rc' p r' Hc Hpc Hpr.
    apply Hl in Hc as [[-> ->]|(Hck & rc & Hrc & Heq & _)].
    + apply Hl in Hpr as [[-> ->]|(Hpk & r & Hr & _ & [[_ ->]|[Hne _]])].
      * rw Hpar in Hpc. exfalso. by apply Hk, Hp.
      * apply elem_of_app. right. by apply list_elem_of_singleton.
      * congruence.
    + apply Hl in Hpr as [[-> ->]|(Hpk & r & Hr & _ & Hcs)].
      * exfalso. apply Hk. rw Heq in Hpc. by eapply H4.
      * assert (c ∈ vi_children r) by (apply (H3 c rc p r); [done|congruence|done]).
        destruct Hcs as [[_ ->]|[_ ->]]; [|done]. apply elem_of_app. by left.
  - intros c rc' p Hc Hpc. apply elem_of_union_r.
    apply Hl in Hc as [[-> ->]|(_ & rc & Hrc & Heq & _)]; [apply Hp; congruence|].
    eapply H4; [done|congruence].
  - exists (λ i, if decide (i = k) then match parent with Some p => S (rank p) | None => 0 end else rank i).
    intros c rc' p Hc Hpc. apply Hl in Hc as [[-> ->]|(Hck & rc & Hrc & Heq & _)].
    + rw Hpar in Hpc. rw (decide_True (P := k = k)) // decide_False; [rw Hpc; lia|].
      intros ->. by apply Hk, Hp.
    + rw (decide_False (P := c = k)) //. rw Heq in Hpc.
      rw decide_False; [by eapply H5|]. intros ->. apply Hk. by eapply H4.
Qed.

(** Removing a set of visits that is closed under children and whose members
    have their parents in it, up to roots. *)
Lemma tree_wf_prune V V' issued (D : gset Z) :
  tree_wf V issued →
  (∀ i, V' !! i = (if decide (i ∈ D) then None else V !! i)) →
  (∀ c rc p, c ∈ D → V !! c = Some rc → vi_parent rc = Some p → p ∈ D) →
  tree_wf V' issued.
Proof.
  intros [H1 H2 H3 H4 [rank H5]] HV HD.
  assert (∀ i r, V' !! i = Some r → (i ∉ D) ∧ V !! i = Some r) as Hl.
  { intros i r. rw HV. by case_decide. }
  split.
  - intros p r c [Hp Hr]%Hl Hc. destruct (H1 p r c Hr Hc) as (rc & Hrc & Hpc). exists rc.
    split; [|done]. rw HV decide_False //. intros Hin. by apply Hp, (HD c rc p).
  - intros p r [_ Hr]%Hl. eauto.
  - intros c rc p r [_ Hc]%Hl Hpc [_ Hr]%Hl. eauto.
  - intros c rc p [_ Hc]%Hl. eauto.
  - exists rank. intros c rc p [_ Hc]%Hl. eauto.
Qed.
End tree.

(** ** Following links *)

Section walks.
Context {M : Type → Type} `{SlotMap M} {K E O X : Type} `{Countable K} `{Countable O}.
Implicit Types s : Stemma (M := M) (K := K) (E := E) (O := O) (X := X).

Abbreviation vis s := (sm_view (visits s)).

(** A set of visits that is a whole branch under [root]. *)
Record branch (V : gmap Z (VisitRecord X)) (root : Z) (D : list Z) : Prop := {
  br_root : root ∈ D;
  br_nodup : NoDup D;
  br_live x : x ∈ D → is_Some (V !! x);
  br_children x r c : x ∈ D → V !! x = Some r → c ∈ vi_children r → c ∈ D;
  br_parent x r : x ∈ D → V !! x = Some r → x = root ∨ ∃ p, vi_parent r = Some p ∧ p ∈ D
}.

Lemma collect_loop_spec s issued root fuel stack out :
  tree_wf (vis s) issued →
  (∀ r, vis s !! root = Some r → vi_parent r = None) →
  root ∈ out ++ stack → NoDup (out ++ stack) → (∀ x, x ∈ out ++ stack → is_Some (vis s !! x)) →
  (∀ x r c, x ∈ out → vis s !! x = Some r → c ∈ vi_children r → c ∈ out ++ stack) →
  (∀ x r, x ∈ out ++ stack → vis s !! x = Some r →
     x = root ∨ ∃ p, vi_parent r = Some p ∧ p ∈ out) →
  S (size (vis s)) ≤ fuel + length out →
  ∃ D, collect_loop fuel s stack out = Some D ∧ branch (vis s) root D.
Proof.
  intros Hw Hroot. revert stack out. induction fuel as [|fuel IH]; intros stack out Hr Hnd Hlive Hch Hpar Hf.
  { exfalso. assert (length out ≤ size (vis s)); [|lia].
    apply NoDup_app in Hnd as [? _]. apply keys_length_le; [done|]. intros x Hx. apply Hlive. set_solver. }
  destruct stack as [|x stack]; cbn [collect_loop].
  { exists out. rw app_nil_r in Hr Hnd Hlive Hch Hpar. split; [done|]. by split. }
  unfold sm_get. destruct (Hlive x) as [r Hx]; [set_solver|]. rw Hx.
  assert (NoDup (out ++ [x])) as Hnd'.
  { apply NoDup_app in Hnd as (? & Hd & Hxs). apply NoDup_app. split_and!; [done| |apply NoDup_singleton].
    intros y Hy ->%list_elem_of_singleton. by apply (Hd x Hy); left. }
  assert (∀ c, c ∈ vi_children r → c ∉ out ++ x :: stack) as Hfresh.
  { intros c Hc Hin. destruct (tw_children _ _ Hw x r c Hx Hc) as (rc & Hrc & Hpc).
    destruct (Hpar c rc Hin Hrc) as [->|(p & Hp & Hpo)]; [by rw Hroot in Hpc|].
    assert (p = x) as -> by congruence. apply NoDup_app in Hnd as (_ & Hd & _). by apply (Hd x Hpo); left. }
  apply IH.
  - set_solver.
  - rw -app_assoc. cbn. apply NoDup_app in Hnd as (Ho & Hd & Hxs). apply NoDup_cons in Hxs as [Hx' Hs].
    apply NoDup_app. split_and!; [done| |].
    + intros y Hy [->|[Hyc|Hys]%elem_of_app]%elem_of_cons; [by apply (Hd x Hy); left| |by apply (Hd y Hy); right].
      apply (Hfresh y Hyc). set_solver.
    + constructor.
      * intros [Hxc|?]%elem_of_app; [|done]. apply (Hfresh x Hxc). set_solver.
      * apply NoDup_app. split_and!; [by eapply tw_nodup| |done].
        intros y Hy Hys. apply (Hfresh y Hy). set_solver.
  - intros y Hy. assert (y ∈ vi_children r ∨ y ∈ out ++ x :: stack) as [Hyc|Hyo] by set_solver; [|by apply Hlive].
    destruct (tw_children _ _ Hw x r y Hx Hyc) as (? & ? & _). eauto.
  - intros y ry c [Hy| ->%list_elem_of_singleton]%elem_of_app Hry Hc.
    + specialize (Hch y ry c Hy Hry Hc). set_solver.
    + assert (ry = r) as -> by congruence. set_solver.
  - intros y ry Hy Hry. assert (y ∈ vi_children r ∨ y ∈ out ++ x :: stack) as [Hyc|Hyo] by set_solver.
    + right. exists x. destruct (tw_children _ _ Hw x r y Hx Hyc) as (ry' & Hry' & ?).
      split; [congruence|set_solver].
    + destruct (Hpar y ry Hyo Hry) as [?|(p & ? & ?)]; [by left|]. right. exists p. set_solver.
  - rw length_app /=. lia.
Qed.

Lemma collect_subtree_spec s issued root r :
  tree_wf (vis s) issued → vis s !! root = Some r → vi_parent r = None →
  ∃ D, collect_subtree s root = Some D ∧ branch (vis s) root D.
Proof.
  intros Hw Hr Hp. unfold collect_subtree. rw sm_len_size. eapply collect_loop_spec; try done.
  - intros r' Hr'. congruence.
  - set_solver.
  - apply NoDup_singleton.
  - intros x ->%list_elem_of_singleton. eauto.
  - by intros ? ? ? ?%elem_of_nil.
  - intros x r' ->%list_elem_of_singleton _. by left.
  - cbn. lia.
Qed.

(** Parent chains end, at a root or at a deleted visit. *)
Lemma root_loop_spec s issued fuel seen cursor rank :
  tree_wf (vis s) issued →
  (∀ c rc p, vis s !! c = Some rc → vi_parent rc = Some p → rank p < rank c) →
  NoDup seen → (∀ x, x ∈ seen → is_Some (vis s !! x) ∧ rank cursor < rank x) →
  S (size (vis s)) ≤ fuel + length seen →
  (∃ root r, root_loop fuel s cursor = Some (Ok root) ∧ vis s !! root = Some r ∧ vi_parent r = None) ∨
  (∃ x, root_loop fuel s cursor = Some (Err (MissingVisit x)) ∧ vis s !! x = None ∧
     (x = cursor ∨ ∃ c rc, vis s !! c = Some rc ∧ vi_parent rc = Some x)).
Proof.
  intros Hw Hrank. revert seen cursor. induction fuel as [|fuel IH]; intros seen cursor Hnd Hseen Hf.
  { exfalso. assert (length seen ≤ size (vis s)); [|lia]. apply keys_length_le; [done|]. naive_solver. }
  cbn [root_loop]. unfold sm_get. destruct (vis s !! cursor) as [r|] eqn:Hc.
  - destruct (vi_parent r) as [p|] eqn:Hp.
    + destruct (IH (seen ++ [cursor]) p) as [?|(x & Hx & Hn & Hor)].
      * apply NoDup_app. split_and!; [done| |apply NoDup_singleton].
        intros y Hy ->%list_elem_of_singleton. destruct (Hseen cursor Hy). lia.
      * intros x [Hx| ->%list_elem_of_singleton]%elem_of_app.
        { destruct (Hseen x Hx). split; [done|]. specialize (Hrank _ _ _ Hc Hp). lia. }
        split; [eauto|]. by eapply Hrank.
      * rw length_app /=. lia.
      * by left.
      * right. exists x. split_and!; [done..|]. right. destruct Hor as [->|?]; eauto.
    + left. eauto.
  - right. exists cursor. eauto.
Qed.

Lemma root_of_spec s issued v :
  tree_wf (vis s) issued →
  (∃ root r, root_of s v = Some (Ok root) ∧ vis s !! root = Some r ∧ vi_parent r = None) ∨
  (∃ x, root_of s v = Some (Err (MissingVisit x)) ∧ vis s !! x = None ∧
     (x = v ∨ ∃ c rc, vis s !! c = Some rc ∧ vi_parent rc = Some x)).
Proof.
  intros Hw. destruct (tw_rank _ _ Hw) as [rank Hrank]. unfold root_of. rw sm_len_size.
  eapply (root_loop_spec s issued _ [] v rank); try done; [constructor|by intros ? ?%elem_of_nil|cbn; lia].
Qed.
End walks.

(** ** Owners and bindings *)

Section bindings.
Context {X O : Type}.
Implicit Types (V : gmap Z (VisitRecord X)) (W : gmap Z (OwnerRecord O)) (w : OwnerRecord O).

(** A forward link of owner [o] from [v] to [c] is sound: [c] is live, and is a
    child of [v] or both belong to the owner. *)
Definition link_ok V W (v o c : Z) : Prop :=
  ∃ rc, V !! c = Some rc ∧
    (vi_parent rc = Some v ∨ ∃ w, W !! o = Some w ∧ v ∈ owned_visits w ∧ c ∈ owned_visits w).

Record bind_wf V W : Prop := {
  bw_owner v r o : V !! v = Some r → is_Some (vi_bindings r !! o) → is_Some (W !! o);
  bw_owned o w v : W !! o = Some w → v ∈ owned_visits w →
    ∃ r, V !! v = Some r ∧ is_Some (vi_bindings r !! o);
  bw_current o w v : W !! o = Some w → ow_current w = Some v → v ∈ owned_visits w;
  bw_origin o w v : W !! o = Some w → ow_origin w = Some v → v ∈ owned_visits w;
  bw_forward v r o b c : V !! v = Some r → vi_bindings r !! o = Some b → forward_child b = Some c →
    link_ok V W v o c
}.

(** Changing visits without touching their parents or losing bindings. *)
Lemma link_ok_mono V V' W W' v o c :
  (∀ rc, V !! c = Some rc → ∃ rc', V' !! c = Some rc' ∧ vi_parent rc' = vi_parent rc) →
  (∀ w, W !! o = Some w → ∃ w', W' !! o = Some w' ∧ owned_visits w ⊆ owned_visits w') →
  link_ok V W v o c → link_ok V' W' v o c.
Proof.
  intros HV HW (rc & Hrc & Hor). destruct (HV rc Hrc) as (rc' & Hrc' & Hp). exists rc'. split; [done|].
  destruct Hor as [?|(w & Hw & ? & ?)]; [left; congruence|]. right.
  destruct (HW w Hw) as (w' & ? & Hsub). exists w'. set_solver.
Qed.

Lemma bind_wf_set V W v r o b :
  bind_wf V W → V !! v = Some r → is_Some (W !! o) →
  (∀ c, forward_child b = Some c → link_ok V W v o c) →
  bind_wf (<[v := with_bindings <[o := b]> r]> V) W.
Proof.
  intros [H1 H2 H3 H4 H5] Hv Ho Hb.
  assert (∀ i ri, V !! i = Some ri → ∃ ri', <[v := with_bindings <[o := b]> r]> V !! i = Some ri' ∧
    vi_parent ri' = vi_parent ri ∧ ∀ o', is_Some (vi_bindings ri !! o') → is_Some (vi_bindings ri' !! o')) as Hk.
  { intros i ri Hi. destruct (decide (i = v)) as [->|Hne].
    - eexists. rw lookup_insert_eq. split_and!; [done|by simplify_eq|]. intros o' Ho'. cbn. simplify_eq.
      destruct (decide (o = o')) as [->|]; [by rw lookup_insert_eq|by rw lookup_insert_ne].
    - exists ri. by rw lookup_insert_ne. }
  assert (∀ c o', link_ok V W v o' c → link_ok (<[v := with_bindings <[o := b]> r]> V) W v o' c) as Hmono.
  { intros c o'. apply link_ok_mono; [|eauto]. intros rc Hrc. destruct (Hk c rc Hrc) as (? & ? & ? & _). eauto. }
  split; try done.
  - intros i ri o' [[<- <-]|[_ Hi]]%lookup_insert_Some; [|by eapply H1]. cbn.
    destruct (decide (o = o')) as [->|]; [done|]. rw lookup_insert_ne //. by eapply H1.
  - intros o' w i Hw Hi. destruct (H2 o' w i Hw Hi) as (ri & Hri & Hb'). destruct (Hk i ri Hri) as (? & ? & _ & ?). eauto.
  - intros i ri o' b' c [[<- <-]|[_ Hi]]%lookup_insert_Some Hbi Hc.
    + cbn in Hbi. apply lookup_insert_Some in Hbi as [[<- <-]|[_ Hbi]]; apply Hmono; eauto.
    + eapply link_ok_mono; [..|by eapply H5]; [|eauto].
      intros rc Hrc. destruct (Hk c rc Hrc) as (? & ? & ? & _). eauto.
Qed.

(** Changing one owner whose set of visits only grows. *)
Lemma bind_wf_owner V W o w w' :
  bind_wf V W → W !! o = Some w → owned_visits w ⊆ owned_visits w' →
  (∀ v, v ∈ owned_visits w' → ∃ r, V !! v = Some r ∧ is_Some (vi_bindings r !! o)) →
  (∀ v, ow_current w' = Some v → v ∈ owned_visits w') →
  (∀ v, ow_origin w' = Some v → v ∈ owned_visits w') →
  bind_wf V (<[o := w']> W).
Proof.
  intros [H1 H2 H3 H4 H5] Hw Hsub Hb Hc Hor. split.
  - intros v r o' Hv Ho'. destruct (decide (o = o')) as [->|]; [by rw lookup_insert_eq|].
    rw lookup_insert_ne //. by eapply H1.
  - intros o' w0 v [[<- <-]|[_ ?]]%lookup_insert_Some; eauto.
  - intros o' w0 v [[<- <-]|[_ ?]]%lookup_insert_Some; eauto.
  - intros o' w0 v [[<- <-]|[_ ?]]%lookup_insert_Some; eauto.
  - intros v r o' b c Hv Hbv Hf. eapply link_ok_mono; [..|by eapply H5]; [eauto|].
    intros w0 Hw0. destruct (decide (o = o')) as [->|].
    + exists w'. rw lookup_insert_eq. split; [done|]. by simplify_eq.
    + exists w0. by rw lookup_insert_ne.
Qed.

(** Adding visits that carry no binding, and pushing children, keeps links. *)
Lemma bind_wf_grow V V' W :
  bind_wf V W →
  (∀ i r, V !! i = Some r → ∃ r', V' !! i = Some r' ∧ vi_parent r' = vi_parent r ∧ vi_bindings r' = vi_bindings r) →
  (∀ i r', V' !! i = Some r' → vi_bindings r' = ∅ ∨ ∃ r, V !! i = Some r ∧ vi_bindings r = vi_bindings r') →
  bind_wf V' W.
Proof.
  intros [H1 H2 H3 H4 H5] Hk Hb. split; try done.
  - intros v r' o Hv Ho. destruct (Hb v r' Hv) as [He|(r & Hr & He)].
    + rw He lookup_empty in Ho. by destruct Ho.
    + eapply H1; [done|]. by rw He.
  - intros o w v Hw Hv. destruct (H2 o w v Hw Hv) as (r & Hr & ?). destruct (Hk v r Hr) as (r' & ? & _ & He).
    exists r'. by rw He.
  - intros v r' o b c Hv Hbv Hf. destruct (Hb v r' Hv) as [He|(r & Hr & He)]; [by rw He lookup_empty in Hbv|].
    rw -He in Hbv. eapply link_ok_mono; [| |exact (H5 v r o b c Hr Hbv Hf)]; [|eauto].
    intros rc Hrc. destruct (Hk c rc Hrc) as (? & ? & ? & _). eauto.
Qed.

(** Dropping the bindings of [o] on the visits it owns, and its claims on them. *)
Lemma bind_wf_release V V' W o w w' :
  bind_wf V W → W !! o = Some w → ow_current w' = None → ow_origin w' = None → owned_visits w' = ∅ →
  (∀ i, V' !! i = (λ r, if decide (i ∈ owned_visits w) then with_bindings (delete o) r else r) <$> V !! i) →
  bind_wf V' (<[o := w']> W).
Proof.
  intros [H1 H2 H3 H4 H5] Hw Hc Hor Hown HV.
  assert (∀ i r', V' !! i = Some r' → ∃ r, V !! i = Some r ∧ vi_parent r' = vi_parent r ∧
    (∀ o', o' ≠ o → vi_bindings r' !! o' = vi_bindings r !! o') ∧
    (i ∈ owned_visits w → vi_bindings r' !! o = None) ∧
    (i ∉ owned_visits w → vi_bindings r' = vi_bindings r)) as Hl.
  { intros i r'. rw HV. intros (r & Hr & ->)%fmap_Some. exists r. case_decide; cbn; (split_and!; [done..| | |]).
    - intros o' Ho'. by rw lookup_delete_ne.
    - by rw lookup_delete_eq.
    - done.
    - done.
    - done.
    - done. }
  assert (∀ i r, V !! i = Some r → ∃ r', V' !! i = Some r' ∧ vi_parent r' = vi_parent r) as Hk.
  { intros i r Hr. rw HV Hr. cbn. eexists. split; [done|]. by case_decide. }
  split.
  - intros v r' o' Hv Ho'. destruct (decide (o = o')) as [->|Hne]; [by rw lookup_insert_eq|].
    rw lookup_insert_ne //. destruct (Hl v r' Hv) as (r & Hr & _ & Hb & _). eapply H1; [done|].
    by rw -Hb.
  - intros o' w0 v [[<- <-]|[Hne Hw0]]%lookup_insert_Some Hv; [set_solver|].
    destruct (H2 o' w0 v Hw0 Hv) as (r & Hr & Hb). destruct (Hk v r Hr) as (r' & Hr' & _).
    exists r'. split; [done|]. destruct (Hl v r' Hr') as (r0 & ? & _ & Hb' & _). simplify_eq. by rw Hb'.
  - intros o' w0 v [[<- <-]|[Hne Hw0]]%lookup_insert_Some; [intros; congruence|eauto].
  - intros o' w0 v [[<- <-]|[Hne Hw0]]%lookup_insert_Some; [intros; congruence|eauto].
  - intros v r' o' b c Hv Hbv Hf. destruct (Hl v r' Hv) as (r & Hr & _ & Hb & Hd & Hs).
    destruct (decide (o = o')) as [<-|Hne].
    + destruct (decide (v ∈ owned_visits w)) as [Hin|Hout]; [by rw Hd in Hbv|].
      rw Hs // in Hbv. destruct (H5 v r o b c Hr Hbv Hf) as (rc & Hrc & [Hp|(w0 & Hw0 & Hv0 & _)]).
      * destruct (Hk c rc Hrc) as (rc' & ? & ?). exists rc'. split; [done|]. left. congruence.
      * exfalso. simplify_eq. done.
    + rw Hb // in Hbv. eapply link_ok_mono; [| |by eapply (H5 v r)]; [exact (Hk c)|].
      intros w0 Hw0. exists w0. by rw lookup_insert_ne.
Qed.

(** Handing a path of live visits to an owner that owns nothing. *)
Lemma bind_wf_path V V' W o w w' (path : list Z) :
  bind_wf V W → W !! o = Some w → owned_visits w = ∅ → owned_visits w' = list_to_set path →
  (∀ v, ow_current w' = Some v → v ∈ path) → (∀ v, ow_origin w' = Some v → v ∈ path) →
  (∀ v, v ∈ path → is_Some (V !! v)) →
  (∀ i, i ∉ path → V' !! i = V !! i) →
  (∀ i r, i ∈ path → V !! i = Some r → ∃ b, V' !! i = Some (with_bindings <[o := b]> r) ∧
     ∀ c, forward_child b = Some c → c ∈ path) →
  bind_wf V' (<[o := w']> W).
Proof.
  intros [H1 H2 H3 H4 H5] Hw Hempty Hown Hc Hor Hlive Hsame Hpath.
  assert (∀ i r, V !! i = Some r → ∃ r', V' !! i = Some r' ∧ vi_parent r' = vi_parent r ∧
    (∀ o', is_Some (vi_bindings r !! o') → is_Some (vi_bindings r' !! o'))) as Hk.
  { intros i r Hr. destruct (decide (i ∈ path)) as [Hin|Hout]; [|exists r; by rw Hsame].
    destruct (Hpath i r Hin Hr) as (b & -> & _). eexists. split_and!; [done..|]. intros o' Ho'. cbn.
    destruct (decide (o = o')) as [->|]; [by rw lookup_insert_eq|by rw lookup_insert_ne]. }
  assert (∀ v o' c, link_ok V W v o' c → link_ok V' (<[o := w']> W) v o' c) as Hmono.
  { intros v o' c. apply link_ok_mono.
    - intros rc Hrc. destruct (Hk c rc Hrc) as (? & ? & ? & _). eauto.
    - intros w0 Hw0. destruct (decide (o = o')) as [<-|].
      + exists w'. rw lookup_insert_eq. split; [done|]. simplify_eq. set_solver.
      + exists w0. by rw lookup_insert_ne. }
  assert (∀ i r', V' !! i = Some r' → ((i ∉ path) ∧ V !! i = Some r') ∨
    (i ∈ path ∧ ∃ r b, V !! i = Some r ∧ r' = with_bindings <[o := b]> r ∧
       ∀ c, forward_child b = Some c → c ∈ path)) as Hl.
  { intros i r' Hr'. destruct (decide (i ∈ path)) as [Hin|Hout]; [|left; by rw -Hsame].
    right. split; [done|]. destruct (Hlive i Hin) as [r Hr]. destruct (Hpath i r Hin Hr) as (b & Hb & ?).
    exists r, b. split_and!; [done|congruence|done]. }
  split.
  - intros v r' o' Hv Ho'. destruct (decide (o = o')) as [->|Hne]; [by rw lookup_insert_eq|].
    rw lookup_insert_ne //. apply Hl in Hv as [[_ Hv]|(_ & r & b & Hr & -> & _)]; [by eapply H1|].
    cbn in Ho'. rw lookup_insert_ne // in Ho'. by eapply H1.
  - intros o' w0 v [[<- <-]|[Hne Hw0]]%lookup_insert_Some Hv.
    + rw Hown elem_of_list_to_set in Hv. destruct (Hlive v Hv) as [r Hr].
      destruct (Hpath v r Hv Hr) as (b & -> & _). eexists. split; [done|]. cbn. by rw lookup_insert_eq.
    + destruct (H2 o' w0 v Hw0 Hv) as (r & Hr & Hb). destruct (Hk v r Hr) as (r' & ? & _ & Hb'). eauto.
  - intros o' w0 v [[<- <-]|[Hne Hw0]]%lookup_insert_Some Hv; [|eauto].
    rw Hown elem_of_list_to_set. by apply Hc.
  - intros o' w0 v [[<- <-]|[Hne Hw0]]%lookup_insert_Some Hv; [|eauto].
    rw Hown elem_of_list_to_set. by apply Hor.
  - intros v r' o' b c Hv Hbv Hf. apply Hl in Hv as [[_ Hv]|(Hin & r & b' & Hr & -> & Hb')].
    + apply Hmono. by eapply H5.
    + cbn in Hbv. apply lookup_insert_Some in Hbv as [[<- <-]|[_ Hbv]]; [|apply Hmono; by eapply H5].
      specialize (Hb' c Hf). destruct (Hlive c Hb') as [rc Hrc]. destruct (Hk c rc Hrc) as (rc' & ? & _).
      exists rc'. split; [done|]. right. exists w'. rw lookup_insert_eq Hown !elem_of_list_to_set. done.
Qed.

(** Deleting an owner with all its bindings. *)
Lemma bind_wf_drop V W o : bind_wf V W → bind_wf (with_bindings (delete o) <$> V) (delete o W).
Proof.
  intros [H1 H2 H3 H4 H5].
  assert (∀ i r', (with_bindings (delete o) <$> V) !! i = Some r' → ∃ r, V !! i = Some r ∧ r' = with_bindings (delete o) r) as Hl.
  { intros i r'. rw lookup_fmap. intros (r & Hr & ->)%fmap_Some. eauto. }
  split.
  - intros v r' o' (r & Hr & ->)%Hl Ho'. cbn in Ho'. destruct Ho' as [b [Hne Hb]%lookup_delete_Some].
    rw lookup_delete_ne //. eapply H1; [done|]. by exists b.
  - intros o' w v [Hne Hw]%lookup_delete_Some Hv. destruct (H2 o' w v Hw Hv) as (r & Hr & Hb).
    exists (with_bindings (delete o) r). rw lookup_fmap Hr. split; [done|]. cbn. by rw lookup_delete_ne.
  - intros o' w v [Hne Hw]%lookup_delete_Some. eauto.
  - intros o' w v [Hne Hw]%lookup_delete_Some. eauto.
  - intros v r' o' b c (r & Hr & ->)%Hl Hb Hf. cbn in Hb. apply lookup_delete_Some in Hb as [Hne Hb].
    eapply link_ok_mono; [| |by eapply (H5 v r)].
    + intros rc Hrc. exists (with_bindings (delete o) rc). by rw lookup_fmap Hrc.
    + intros w Hw. exists w. by rw lookup_delete_ne.
Qed.

(** Deleting visits without bindings that form whole branches. *)
Lemma bind_wf_prune V V' W (D : gset Z) :
  bind_wf V W →
  (∀ i, V' !! i = (if decide (i ∈ D) then None else V !! i)) →
  (∀ c rc, c ∈ D → V !! c = Some rc → vi_bindings rc = ∅ ∧ ∀ p, vi_parent rc = Some p → p ∈ D) →
  bind_wf V' W.
Proof.
  intros [H1 H2 H3 H4 H5] HV HD.
  assert (∀ i r, V' !! i = Some r → (i ∉ D) ∧ V !! i = Some r) as Hl.
  { intros i r. rw HV. by case_decide. }
  assert (∀ o w v, W !! o = Some w → v ∈ owned_visits w → v ∉ D) as Hown.
  { intros o w v Hw Hv Hin. destruct (H2 o w v Hw Hv) as (r & Hr & Hb).
    destruct (HD v r Hin Hr) as [He _]. rw He lookup_empty in Hb. by destruct Hb. }
  split; try done.
  - intros v r o [_ Hv]%Hl. eauto.
  - intros o w v Hw Hv. destruct (H2 o w v Hw Hv) as (r & Hr & Hb). exists r. split; [|done].
    rw HV decide_False //. by eapply Hown.
  - intros v r o b c [Hv Hr]%Hl Hb Hf. destruct (H5 v r o b c Hr Hb Hf) as (rc & Hrc & Hor).
    exists rc. split; [|done]. rw HV decide_False // => Hin. destruct Hor as [Hp|(w & Hw & _ & Hc)].
    + destruct (HD c rc Hin Hrc) as [_ Hpd]. by apply Hv, Hpd.
    + by eapply Hown.
Qed.
End bindings.

(** ** The invariant *)

Section invariant.
Context {M : Type → Type} `{SlotMap M} `{HashOrder}.
Context {K E O X : Type} `{Countable K} `{Countable O}.
Implicit Types s : Stemma (M := M) (K := K) (E := E) (O := O) (X := X).

Abbreviation vis s := (sm_view (visits s)).
Abbreviation own s := (sm_view (owners s)).
Abbreviation ent s := (sm_view (entries s)).
Abbreviation issued s := (sm_issued (visits s)).

Record wf s : Prop := {
  wf_tree : tree_wf (vis s) (issued s);
  wf_bind : bind_wf (vis s) (own s);
  wf_pending o w p : own s !! o = Some w → pending_origin_parent w = Some p → p ∈ issued s;
  wf_entry v e : (vi_entry <$> vis s) !! v = Some e → is_Some ((en_key <$> ent s) !! e);
  wf_owner_index i o : owner_index s !! i = Some o ↔ (ow_identity <$> own s) !! o = Some i;
  wf_entry_index k e : entry_index s !! k = Some e ↔ (en_key <$> ent s) !! e = Some k
}.

Lemma vi_entry_shape (V V' : gmap Z (VisitRecord X)) :
  shape <$> V = shape <$> V' → vi_entry <$> V = vi_entry <$> V'.
Proof.
  intros Hs. apply (f_equal (fmap (λ t, t.1.1))) in Hs. by rw -!map_fmap_compose in Hs.
Qed.

Lemma wf_new : wf stemma_new.
Proof.
  split; unfold stemma_new; cbn; rw ?sm_view_new ?sm_issued_new.
  - split; try done. by exists (λ _, 0).
  - split; try done.
  - by intros ? ? ? ?.
  - intros v e. by rw fmap_empty lookup_empty.
  - intros i o. by rw fmap_empty !lookup_empty.
  - intros k e. by rw fmap_empty !lookup_empty.
Qed.

(** Changes to bindings, owners and entries that keep shapes, identities and
    keys. *)
Lemma wf_update s s' :
  wf s → shape <$> vis s' = shape <$> vis s → issued s' = issued s →
  ow_identity <$> own s' = ow_identity <$> own s → en_key <$> ent s' = en_key <$> ent s →
  owner_index s' = owner_index s → entry_index s' = entry_index s →
  bind_wf (vis s') (own s') →
  (∀ o w p, own s' !! o = Some w → pending_origin_parent w = Some p → p ∈ issued s) →
  wf s'.
Proof.
  intros [T1 T2 T3 T4 T5 T6] Hv Hi Ho He Hoi Hei Hb Hp. split.
  - rw Hi. by apply (tree_wf_shape (vis s)).
  - done.
  - rw Hi. done.
  - rw (vi_entry_shape _ _ Hv) He. done.
  - rw Hoi Ho. done.
  - rw Hei He. done.
Qed.

Lemma with_bindings_shape f (r : VisitRecord X) : shape (with_bindings f r) = shape r.
Proof. done. Qed.

Lemma ensure_binding_wf s v o at_ms set s' :
  wf s → is_Some (own s !! o) → ensure_binding s v o at_ms set = Some s' →
  (∀ b c, forward_child (set b) = Some c → forward_child b = Some c ∨ link_ok (vis s) (own s) v o c) →
  wf s' ∧ owners s' = owners s ∧ shape <$> vis s' = shape <$> vis s ∧
  (∃ r, vis s' !! v = Some r ∧ is_Some (vi_bindings r !! o)).
Proof.
  intros Hwf Ho Heb Hset. unfold ensure_binding, sm_get in Heb.
  destruct (vis s !! v) as [r|] eqn:Hv; [|done]. injection Heb as <-.
  unfold alter_visit, set_visits; cbn. rw sm_view_alter. split_and!.
  - apply (wf_update s); cbn; rw ?sm_view_alter ?sm_issued_alter; try done.
    + by apply alter_shape.
    + rw (alter_present _ _ _ r) //. apply bind_wf_set; [apply Hwf|done|done|].
      intros c [Hc|?]%Hset; [|done]. cbn in Hc. destruct (vi_bindings r !! o) as [b|] eqn:Hb; [|done].
      by eapply (bw_forward _ _ (wf_bind s Hwf)).
    + apply Hwf.
  - done.
  - by apply alter_shape.
  - eexists. rw lookup_alter_eq Hv. split; [done|]. cbn. by rw lookup_insert_eq.
Qed.

Lemma bind_owner_wf s o v at_ms :
  wf s → wf (bind_owner_to_visit s o v at_ms).1 ∧
    (∀ u, (bind_owner_to_visit s o v at_ms).2 = Ok u →
       shape <$> vis (bind_owner_to_visit s o v at_ms).1 = shape <$> vis s ∧
       ∃ w, own (bind_owner_to_visit s o v at_ms).1 !! o = Some w ∧ ow_current w = Some v ∧
            v ∈ owned_visits w).
Proof.
  intros Hwf. unfold bind_owner_to_visit.
  destruct (sm_contains (owners s) o) eqn:Ho; [|done]. destruct (sm_contains (visits s) v) eqn:Hv; [|done]. cbn.
  destruct (ensure_binding s v o at_ms id) as [s1|] eqn:Heb; [|done]. cbn.
  apply sm_contains_true in Ho as Ho'.
  destruct (ensure_binding_wf s v o at_ms id s1) as (Hwf1 & Ho1 & Hs1 & r1 & Hr1 & Hb1); [done..|by left|].
  destruct Ho' as [w Hw]. assert (own s1 !! o = Some w) as Hw1 by by rw Ho1.
  unfold alter_owner, set_owners; cbn. rw sm_view_alter. split.
  - apply (wf_update s1); cbn; rw ?sm_view_alter; try done.
    + by apply fmap_alter_same.
    + rw (alter_present _ _ _ w) //. apply (bind_wf_owner _ _ _ w); [apply Hwf1|done|set_solver|..]; cbn.
      * intros x [->%elem_of_singleton|Hx]%elem_of_union; [by eauto|].
        by eapply (bw_owned _ _ (wf_bind s1 Hwf1)).
      * intros x [= ->]. set_solver.
      * intros x Hx. apply elem_of_union_r. by eapply (bw_origin _ _ (wf_bind s1 Hwf1)).
    + rw (alter_present _ _ _ w) //. intros o' w' p [[<- <-]|[_ ?]]%lookup_insert_Some Hp; by eapply (wf_pending s1).
  - intros [] _. split; [done|]. exists (set_current v w). rw lookup_alter_eq Hw1. split_and!; [done..|].
    cbn. set_solver.
Qed.

Lemma set_link_wf s v o at_ms c :
  wf s → is_Some (own s !! o) → link_ok (vis s) (own s) v o c →
  let s' := default s (ensure_binding s v o at_ms (set_forward (Some c))) in
  wf s' ∧ owners s' = owners s ∧ shape <$> vis s' = shape <$> vis s.
Proof.
  intros Hwf Ho Hl s'. subst s'. destruct (ensure_binding _ _ _ _ _) as [s1|] eqn:Heb; [|done]. cbn.
  destruct (ensure_binding_wf s v o at_ms _ s1 Hwf Ho Heb) as (? & ? & ? & _); [|done].
  intros b c' [= ->]. by right.
Qed.

Lemma owner_current_Some s o v :
  owner_current s o = Some v → ∃ w, own s !! o = Some w ∧ ow_current w = Some v.
Proof. unfold owner_current, sm_get. destruct (own s !! o) as [w|]; [eauto|done]. Qed.

Lemma current_live s o v :
  wf s → owner_current s o = Some v → ∃ r, vis s !! v = Some r ∧ is_Some (vi_bindings r !! o).
Proof.
  intros Hwf (w & Hw & Hc)%owner_current_Some. eapply (bw_owned _ _ (wf_bind s Hwf)); [done|].
  by eapply (bw_current _ _ (wf_bind s Hwf)).
Qed.

Lemma adopt_visit_wf s o v at_ms : wf s → wf (adopt_visit s o v at_ms).1.
Proof.
  intros Hwf. unfold adopt_visit. destruct (sm_contains (owners s) o) eqn:Ho; [|done].
  destruct (sm_contains (visits s) v); [|done]. cbn. apply sm_contains_true in Ho.
  set (s1 := match owner_current s o with None => s | _ => _ end).
  assert (wf s1) as Hwf1.
  { unfold s1. destruct (owner_current s o) as [c|]; [|done]. unfold sm_get.
    destruct (vis s !! c) as [r|] eqn:Hc; [|done]. case_bool_decide as Hin; [|done].
    apply set_link_wf; [done..|]. destruct (tw_children _ _ (wf_tree s Hwf) c r v Hc Hin) as (rv & ? & ?).
    exists rv. auto. }
  destruct (bind_owner_wf s1 o v at_ms Hwf1) as [Hwf2 _].
  destruct (bind_owner_to_visit s1 o v at_ms) as [s2 []]; done.
Qed.

Lemma back_loop_wf n s o at_ms m : wf s → wf (back_loop n s o at_ms m).1.
Proof.
  revert s m. induction n as [|n IH]; intros s m Hwf; cbn [back_loop]; [done|].
  destruct (owner_current s o) as [c|] eqn:Hc; [|done]. unfold sm_get.
  destruct (vis s !! c) as [r|] eqn:Hr; [|done]. cbn. destruct (vi_parent r) as [p|] eqn:Hp; [|done].
  set (s1 := default s _). assert (wf s1) as Hwf1.
  { apply owner_current_Some in Hc as (w & Hw & _). apply set_link_wf; [done|eauto|]. exists r. auto. }
  destruct (bind_owner_wf s1 o p at_ms Hwf1) as [Hwf2 _].
  destruct (bind_owner_to_visit s1 o p at_ms) as [s2 []]; [by apply IH|done].
Qed.

Lemma back_wf s o n at_ms : wf s → wf (back s o n at_ms).1.
Proof. intros. unfold back. destruct (sm_contains _ _); [by apply back_loop_wf|done]. Qed.

Lemma forward_loop_wf n s o at_ms m : wf s → wf (forward_loop n s o at_ms m).1.
Proof.
  revert s m. induction n as [|n IH]; intros s m Hwf; cbn [forward_loop]; [done|].
  destruct (owner_current s o) as [c|]; [|done]. destruct (forward_of s c o) as [v|]; [|done].
  destruct (bind_owner_wf s o v at_ms Hwf) as [Hwf2 _].
  destruct (bind_owner_to_visit s o v at_ms) as [s2 []]; [by apply IH|done].
Qed.

Lemma forward_wf s o n at_ms : wf s → wf (forward s o n at_ms).1.
Proof. intros. unfold forward. destruct (sm_contains _ _); [by apply forward_loop_wf|done]. Qed.

(** Owner updates that keep identity, visits owned, cursor and origin sound. *)
Lemma alter_owner_wf s f o :
  wf s → (∀ w, ow_identity (f w) = ow_identity w) →
  (∀ w, own s !! o = Some w →
     owned_visits (f w) = owned_visits w ∧
     (∀ v, ow_current (f w) = Some v → v ∈ owned_visits w) ∧
     (∀ v, ow_origin (f w) = Some v → v ∈ owned_visits w) ∧
     (∀ p, pending_origin_parent (f w) = Some p → p ∈ issued s)) →
  wf (alter_owner f o s).
Proof.
  intros Hwf Hid Hf. unfold alter_owner, set_owners.
  destruct (own s !! o) as [w|] eqn:Hw; cycle 1.
  - apply (wf_update s); cbn; rw ?sm_view_alter; try done.
    + by apply fmap_alter_same.
    + rw alter_absent //. apply Hwf.
    + rw alter_absent //. apply Hwf.
  - destruct (Hf w eq_refl) as (Heq & Hc & Hor & Hp).
    apply (wf_update s); cbn; rw ?sm_view_alter; try done.
    + by apply fmap_alter_same.
    + rw (alter_present _ _ _ w) //. apply (bind_wf_owner _ _ _ w); [apply Hwf|done|..]; rw ?Heq; try done.
      intros v Hv. by eapply (bw_owned _ _ (wf_bind s Hwf)).
    + rw (alter_present _ _ _ w) //. intros o' w' p [[<- <-]|[_ ?]]%lookup_insert_Some; [apply Hp|by eapply (wf_pending s)].
Qed.

Lemma alter_entry_wf s f e : wf s → (∀ r, en_key (f r) = en_key r) → wf (alter_entry f e s).
Proof.
  intros Hwf Hf. unfold alter_entry, set_entries. apply (wf_update s); cbn; rw ?sm_view_alter; try done.
  - by apply fmap_alter_same.
  - apply Hwf.
  - apply Hwf.
Qed.

Lemma take_parent_spec s o w :
  wf s → own s !! o = Some w →
  let '(parent, s1) := take_parent s o in
  wf s1 ∧ visits s1 = visits s ∧ entries s1 = entries s ∧ is_Some (own s1 !! o) ∧
  (∀ p, parent = Some p → p ∈ issued s).
Proof.
  intros Hwf Hw. unfold take_parent. destruct (owner_current s o) as [c|] eqn:Hc.
  - split_and!; [done..|by rw Hw|]. intros p [= <-]. destruct (current_live s o c Hwf Hc) as (r & Hr & _).
    apply sm_view_issued. by exists r.
  - split_and!; [|done..|cbn; rw sm_view_alter lookup_alter_eq Hw; by eexists|].
    + apply alter_owner_wf; [done..|]. intros w' Hw'. cbn. split_and!; [done| | |done]; intros v Hv.
      * by eapply (bw_current _ _ (wf_bind s Hwf)).
      * by eapply (bw_origin _ _ (wf_bind s Hwf)).
    + intros p. unfold sm_get. rw Hw. cbn. by eapply (wf_pending s).
Qed.

(** Inserting a new leaf. *)
Lemma insert_leaf_wf s e parent at_ms context inb :
  wf s → is_Some (ent s !! e) → (∀ p, parent = Some p → p ∈ issued s) →
  let kv := sm_insert (mkVisit e parent [] at_ms context inb ∅) (visits s) in
  let s1 := set_visits kv.2 s in
  let s2 := match parent with Some p => alter_visit (push_child kv.1) p s1 | None => s1 end in
  wf s2 ∧ owners s2 = owners s ∧ entries s2 = entries s ∧
  ∃ r, vis s2 !! kv.1 = Some r ∧ vi_parent r = parent.
Proof.
  intros Hwf He Hp. set (rec := mkVisit e parent [] at_ms context inb ∅). intros kv s1 s2.
  pose proof (sm_insert_fresh _ rec (visits s)) as Hfresh.
  pose proof (sm_view_insert _ rec (visits s)) as Hvi. pose proof (sm_issued_insert _ rec (visits s)) as Hii.
  pose proof (sm_insert_get_ne rec (visits s)) as Hnone. fold kv in Hfresh, Hvi, Hii, Hnone.
  assert (vis s2 = match parent with
                   | Some p => alter (push_child kv.1) p (<[kv.1 := rec]> (vis s))
                   | None => <[kv.1 := rec]> (vis s) end) as HV.
  { unfold s2, s1, alter_visit, set_visits. destruct parent; cbn; by rw ?sm_view_alter Hvi. }
  assert (issued s2 = {[kv.1]} ∪ issued s) as Hiss.
  { unfold s2, s1, alter_visit, set_visits. destruct parent; cbn; by rw ?sm_issued_alter Hii. }
  assert (entries s2 = entries s ∧ owners s2 = owners s ∧ owner_index s2 = owner_index s ∧
    entry_index s2 = entry_index s) as (He2 & Ho2 & Hoi & Hei) by by unfold s2; destruct parent.
  assert (∀ i r, vis s !! i = Some r → ∃ r', vis s2 !! i = Some r' ∧ vi_parent r' = vi_parent r ∧
    vi_bindings r' = vi_bindings r ∧ vi_entry r' = vi_entry r) as Hold.
  { intros i r Hi. assert (i ≠ kv.1) by congruence. rw HV. destruct parent as [p|]; [|exists r; by rw lookup_insert_ne].
    destruct (decide (i = p)) as [->|].
    - exists (push_child kv.1 r). by rw lookup_alter_eq lookup_insert_ne // Hi.
    - exists r. by rw lookup_alter_ne // lookup_insert_ne. }
  assert (vis s2 !! kv.1 = Some rec) as Hnew.
  { rw HV. destruct parent as [p|]; [|by rw lookup_insert_eq]. rw lookup_alter_ne; [by rw lookup_insert_eq|].
    intros Heq. apply Hfresh. rw -Heq. by apply Hp. }
  assert (∀ i r', vis s2 !! i = Some r' → i = kv.1 ∧ r' = rec ∨
    ∃ r, vis s !! i = Some r ∧ vi_bindings r = vi_bindings r' ∧ vi_entry r = vi_entry r') as Hl.
  { intros i r' Hi. destruct (decide (i = kv.1)) as [->|Hne]; [left; split; congruence|]. right.
    rw HV in Hi. destruct parent as [p|].
    - apply lookup_alter_Some in Hi as [(-> & r & Hr & ->)|[_ Hi]];
        [rw lookup_insert_ne // in Hr|rw lookup_insert_ne // in Hi]; eauto.
    - rw lookup_insert_ne // in Hi. eauto. }
  split_and!; [|done..|by exists rec]. destruct Hwf as [T1 T2 T3 T4 T5 T6]. split.
  - rw HV Hiss. apply (tree_wf_leaf _ _ kv.1 rec parent); try done. intros i. apply sm_view_issued.
  - rw Ho2. apply (bind_wf_grow (vis s)); [done| |].
    + intros i r Hi. destruct (Hold i r Hi) as (r' & ? & ? & ? & _). eauto.
    + intros i r' [[-> ->]|(r & ? & ? & _)]%Hl; [by left|]. right. eauto.
  - rw Ho2 Hiss. intros o w p Hw Hpp. apply elem_of_union_r. by eapply T3.
  - intros v e'. rw lookup_fmap He2. intros (r' & Hr' & ->)%fmap_Some.
    apply Hl in Hr' as [[-> ->]|(r & Hr & _ & <-)].
    + rw lookup_fmap. cbn. by apply fmap_is_Some.
    + apply (T4 v). by rw lookup_fmap Hr.
  - by rw Hoi Ho2.
  - by rw Hei He2.
Qed.

Lemma attach_child_eq s p o v at_ms :
  attach_child s (Some p) o v at_ms =
  default (alter_visit (push_child v) p s)
    (ensure_binding (alter_visit (push_child v) p s) p o at_ms (set_forward (Some v))).
Proof. done. Qed.

Lemma visit_entry_wf s o e context kind at_ms :
  wf s → wf (visit_entry s o e context kind at_ms).1.
Proof.
  intros Hwf. unfold visit_entry. destruct (sm_contains (owners s) o) eqn:Ho; [|done].
  destruct (sm_contains (entries s) e) eqn:He; [|done]. cbn.
  apply sm_contains_true in Ho as [w Hw]. apply sm_contains_true in He.
  pose proof (take_parent_spec s o w Hwf Hw) as Htp. destruct (take_parent s o) as [parent s1].
  destruct Htp as (Hwf1 & Hv1 & He1 & Ho1 & Hp). rw -He1 in He. rw -Hv1 in Hp.
  pose proof (insert_leaf_wf s1 e parent at_ms context ((λ _, mkTransition kind at_ms) <$> parent) Hwf1 He Hp) as Hil.
  destruct (sm_insert _ (visits s1)) as [v vs]. cbn in Hil. cbn zeta.
  destruct Hil as (Hwf2 & Ho2 & _ & r & Hr & Hpr).
  set (s2 := attach_child (set_visits vs s1) parent o v at_ms).
  assert (wf s2) as Hwf2'.
  { unfold s2. destruct parent as [p|]; [|done]. rw attach_child_eq.
    apply set_link_wf; [done|by rw Ho2|]. exists r. auto. }
  destruct (bind_owner_wf s2 o v at_ms Hwf2') as [Hwf3 Hok].
  destruct (bind_owner_to_visit s2 o v at_ms) as [s3 [[]|]]; [|done]. cbn in *.
  destruct (Hok tt eq_refl) as (_ & w3 & Hw3 & Hc3 & Hin3).
  apply alter_entry_wf; [|done]. apply alter_owner_wf; [done| |].
  { intros w'. unfold init_origin. by destruct (ow_origin w'). }
  intros w' Hw'. assert (w' = w3) as -> by congruence. unfold init_origin.
  assert (∀ x, ow_current w3 = Some x → x ∈ owned_visits w3) as Hcc.
  { intros x. by eapply (bw_current _ _ (wf_bind s3 Hwf3)). }
  assert (∀ x, pending_origin_parent w3 = Some x → x ∈ issued s3) as Hpp.
  { intros x. by eapply (wf_pending s3). }
  destruct (ow_origin w3) as [x|] eqn:Hor; cbn; (split_and!; [done|done| |done]).
  - intros v' Hv'. eapply (bw_origin _ _ (wf_bind s3 Hwf3)); [done|congruence].
  - by intros v' [= <-].
Qed.

Lemma ensure_owner_wf s i creator : wf s → wf (ensure_owner s i creator).1.
Proof.
  intros Hwf. unfold ensure_owner. destruct (owner_index s !! i) as [o|] eqn:Hi; [done|].
  set (rec := mkOwner _ _ _ _ _ _).
  pose proof (sm_insert_get_ne rec (owners s)) as Hn. pose proof (sm_view_insert _ rec (owners s)) as Hv.
  destruct (sm_insert rec (owners s)) as [o m]. cbn in *. destruct Hwf as [T1 T2 T3 T4 T5 T6]. split; cbn; try done.
  - rw Hv. assert (∀ o' w, own s !! o' = Some w → o ≠ o') as Hne by (intros; congruence). split.
    + intros v r o' Hr Hb. destruct (bw_owner _ _ T2 v r o' Hr Hb) as [w Hw].
      rw lookup_insert_ne; [by exists w|by eapply Hne].
    + intros o' w v [[<- <-]|[_ Hw]]%lookup_insert_Some Hv'; [set_solver|by eapply (bw_owned _ _ T2)].
    + intros o' w v [[<- <-]|[_ Hw]]%lookup_insert_Some Hv'; [done|by eapply (bw_current _ _ T2)].
    + intros o' w v [[<- <-]|[_ Hw]]%lookup_insert_Some Hv'; [done|by eapply (bw_origin _ _ T2)].
    + intros v r o' b c Hr Hb Hf. eapply link_ok_mono; [| |by eapply (bw_forward _ _ T2)]; [eauto|].
      intros w Hw. exists w. by rw lookup_insert_ne; [|eapply Hne].
  - rw Hv. intros o' w p [[<- <-]|[_ Hw]]%lookup_insert_Some Hp; [|by eapply T3]. cbn in Hp.
    destruct creator as [c|]; [|done]. cbn in Hp. unfold sm_get in Hp.
    destruct (own s !! c) as [wc|] eqn:Hc; [|done]. cbn in Hp. apply sm_view_issued.
    destruct (bw_owned _ _ T2 c wc p) as (r & Hr & _); [done|by eapply (bw_current _ _ T2)|]. by exists r.
  - intros i' o'. rw Hv fmap_insert. cbn. rw !lookup_insert_Some. split.
    + intros [[<- <-]|[Hne Hi']]; [by left|]. right. apply T5 in Hi'. split; [|done].
      intros ->. by rw lookup_fmap Hn in Hi'.
    + intros [[<- <-]|[Hne Hi']]; [by left|]. right. apply T5 in Hi'. split; [congruence|done].
Qed.

Lemma resolve_entry_wf s k payload at_ms p : wf s → wf (resolve_or_create_entry s k payload at_ms p).1.
Proof.
  intros Hwf. unfold resolve_or_create_entry. destruct (entry_index s !! k) as [e|] eqn:Hi; [by apply alter_entry_wf|].
  set (rec := mkEntry _ _ _ _ _ _).
  pose proof (sm_insert_get_ne rec (entries s)) as Hn. pose proof (sm_view_insert _ rec (entries s)) as Hv.
  destruct (sm_insert rec (entries s)) as [e m]. cbn in *. destruct Hwf as [T1 T2 T3 T4 T5 T6]. split; cbn; try done.
  - intros v e' He'. rw Hv fmap_insert. apply T4 in He'. destruct (decide (e = e')) as [->|].
    + rw lookup_insert_eq. by eexists.
    + by rw lookup_insert_ne.
  - intros k' e'. rw Hv fmap_insert. cbn. rw !lookup_insert_Some. split.
    + intros [[<- <-]|[Hne Hi']]; [by left|]. right. apply T6 in Hi'. split; [|done].
      intros ->. by rw lookup_fmap Hn in Hi'.
    + intros [[<- <-]|[Hne Hi']]; [by left|]. right. apply T6 in Hi'. split; [congruence|done].
Qed.

(** ** Releasing and rebinding *)

Lemma unbind_owned_spec s o l :
  let s' := unbind_owned s o l in
  (∀ i, vis s' !! i = (λ r, if decide (i ∈ l) then with_bindings (delete o) r else r) <$> vis s !! i) ∧
  issued s' = issued s ∧ owners s' = owners s ∧ entries s' = entries s ∧
  owner_index s' = owner_index s ∧ entry_index s' = entry_index s ∧
  shape <$> vis s' = shape <$> vis s.
Proof.
  revert s. induction l as [|v l IH]; intros s s'; subst s'.
  - split_and!; try done. intros i. cbn. by destruct (vis s !! i).
  - change (unbind_owned s o (v :: l)) with (unbind_owned (alter_visit (with_bindings (delete o)) v s) o l).
    destruct (IH (alter_visit (with_bindings (delete o)) v s)) as (HV & Hi & -> & -> & -> & -> & Hs).
    split_and!; try done.
    + intros i. rw HV. unfold alter_visit, set_visits; cbn. rw sm_view_alter.
      destruct (decide (i = v)) as [->|Hne].
      * rw lookup_alter_eq. destruct (vis s !! v) as [r|]; [|done]. cbn.
        rw (decide_True (P := v ∈ v :: l)); [|left].
        case_decide; [|done]. f_equal. unfold with_bindings; cbn. by rw delete_delete_eq.
      * rw lookup_alter_ne //. destruct (vis s !! i) as [r|]; [cbn|done]. f_equal.
        rw (decide_ext (i ∈ v :: l) (i ∈ l)); [done|]. set_solver.
    + rw Hi. unfold alter_visit, set_visits; cbn. apply sm_issued_alter.
    + rw Hs. unfold alter_visit, set_visits; cbn. rw sm_view_alter. by apply alter_shape.
Qed.

(** Releasing everything an owner owns leaves it as new. *)
Lemma release_bind_wf s o w w' :
  wf s → own s !! o = Some w → ow_current w' = None → ow_origin w' = None → owned_visits w' = ∅ →
  bind_wf (vis (unbind_owned s o (set_iter (owned_visits w)))) (<[o := w']> (own s)).
Proof.
  intros Hwf Hw Hc Hor Hown. destruct (unbind_owned_spec s o (set_iter (owned_visits w))) as (HV & _).
  apply (bind_wf_release (vis s) _ _ _ w); [apply Hwf|done..|]. intros i. rw HV.
  destruct (vis s !! i) as [r|]; [cbn|done]. f_equal.
  rw (decide_ext (i ∈ set_iter (owned_visits w)) (i ∈ owned_visits w)); [done|apply elem_of_set_iter].
Qed.

Lemma visit_entry_parent s o e context kind at_ms v :
  wf s → (visit_entry s o e context kind at_ms).2 = Ok v →
  ∃ r, vis (visit_entry s o e context kind at_ms).1 !! v = Some r ∧ vi_parent r = (take_parent s o).1.
Proof.
  intros Hwf. unfold visit_entry. destruct (sm_contains (owners s) o) eqn:Ho; [|done].
  destruct (sm_contains (entries s) e) eqn:He; [|done]. cbn.
  apply sm_contains_true in Ho as [w Hw]. apply sm_contains_true in He.
  pose proof (take_parent_spec s o w Hwf Hw) as Htp. destruct (take_parent s o) as [parent s1].
  destruct Htp as (Hwf1 & Hv1 & He1 & Ho1 & Hp). rw -He1 in He. rw -Hv1 in Hp.
  pose proof (insert_leaf_wf s1 e parent at_ms context ((λ _, mkTransition kind at_ms) <$> parent) Hwf1 He Hp) as Hil.
  destruct (sm_insert _ (visits s1)) as [v' vs]. cbn in Hil. cbn zeta.
  destruct Hil as (Hwf2 & Ho2 & _ & r & Hr & Hpr).
  set (s2 := attach_child (set_visits vs s1) parent o v' at_ms).
  assert (wf s2 ∧ ∃ r2, vis s2 !! v' = Some r2 ∧ vi_parent r2 = parent) as (Hwf2' & r2 & Hr2 & Hp2).
  { unfold s2. destruct parent as [p|]; [|eauto]. rw attach_child_eq.
    destruct (set_link_wf (alter_visit (push_child v') p (set_visits vs s1)) p o at_ms v') as (? & _ & Hs);
      [done|by rw Ho2|exists r; auto|]. split; [done|].
    destruct (shape_lookup _ _ _ _ Hs Hr) as (r2 & ? & Hsh). exists r2. split; [done|]. by injection Hsh; congruence. }
  destruct (bind_owner_wf s2 o v' at_ms Hwf2') as [Hwf3 Hok].
  destruct (bind_owner_to_visit s2 o v' at_ms) as [s3 [[]|]]; [|done]. cbn in *. intros [= <-].
  destruct (Hok tt eq_refl) as (Hs3 & _). destruct (shape_lookup _ _ _ _ Hs3 Hr2) as (r3 & ? & Hsh).
  exists r3. split; [done|]. injection Hsh as _ Hpp _. congruence.
Qed.

Lemma make_root_wf s v r :
  wf s → vis s !! v = Some r → vi_parent r = None → wf (alter_visit make_root v s).
Proof.
  intros Hwf Hv Hp. unfold alter_visit, set_visits.
  assert (shape (make_root r) = shape r) as Hsh by (unfold shape, make_root; cbn; congruence).
  apply (wf_update s); cbn; rw ?sm_view_alter ?sm_issued_alter; try done.
  - rw (alter_present _ _ _ r) // fmap_insert Hsh. apply insert_id. by rw lookup_fmap Hv.
  - rw (alter_present _ _ _ r) //. apply (bind_wf_grow (vis s)); [apply Hwf| |].
    + intros i ri Hi. destruct (decide (v = i)) as [<-|].
      * exists (make_root r). rw lookup_insert_eq. split_and!; [done| |]; cbn; congruence.
      * exists ri. by rw lookup_insert_ne.
    + intros i ri [[<- <-]|[_ Hi]]%lookup_insert_Some; right; eauto.
  - apply Hwf.
Qed.

Lemma reset_owner_wf s o context at_ms : wf s → wf (reset_owner s o context at_ms).1.
Proof.
  intros Hwf. unfold reset_owner, sm_get. destruct (own s !! o) as [w|] eqn:Hw; [|done].
  destruct (ow_current w) as [c|]; [|done]. destruct (vis s !! c) as [r|]; [|done].
  set (s1 := unbind_owned s o _). set (s2 := alter_owner clear_owner o s1).
  destruct (unbind_owned_spec s o (set_iter (owned_visits w))) as (_ & Hi & Ho & He & Hoi & Hei & Hs).
  assert (own s2 = <[o := clear_owner w]> (own s)) as Ho2.
  { unfold s2, alter_owner, set_owners; cbn. rw sm_view_alter Ho. by apply alter_present. }
  assert (wf s2) as Hwf2.
  { apply (wf_update s); try done; cbn.
    - rw Ho2 fmap_insert. apply insert_id. by rw lookup_fmap Hw.
    - by rw He.
    - rw Ho2. apply (release_bind_wf s o w (clear_owner w)); done.
    - rw Ho2. intros o' w' p [[<- <-]|[_ Hw']]%lookup_insert_Some; [done|by eapply (wf_pending s)]. }
  pose proof (visit_entry_wf s2 o (vi_entry r) context Restore_ at_ms Hwf2) as Hwf3.
  pose proof (visit_entry_parent s2 o (vi_entry r) context Restore_ at_ms) as Hpar.
  destruct (visit_entry s2 o (vi_entry r) context Restore_ at_ms) as [s3 [v|]]; cbn in *; [|done].
  destruct (Hpar v Hwf2 eq_refl) as (rv & Hrv & Hp). eapply make_root_wf; [done..|]. rw Hp.
  unfold take_parent, owner_current, sm_get. rw Ho2 lookup_insert_eq. done.
Qed.

Lemma bind_path_spec s o path at_ms :
  (∀ v, v ∈ path → is_Some (vis s !! v)) →
  ∃ s', bind_path s o path at_ms = (s', Ok tt) ∧ owners s' = owners s ∧ entries s' = entries s ∧
    owner_index s' = owner_index s ∧ entry_index s' = entry_index s ∧ issued s' = issued s ∧
    shape <$> vis s' = shape <$> vis s ∧
    (∀ i, i ∉ path → vis s' !! i = vis s !! i) ∧
    (∀ i r, i ∈ path → vis s !! i = Some r → ∃ b, vis s' !! i = Some (with_bindings <[o := b]> r) ∧
       ∀ c, forward_child b = Some c → c ∈ path).
Proof.
  revert s. induction path as [|v path IH]; intros s Hlive; cbn.
  { exists s. split_and!; try done. by intros ? ? ?%elem_of_nil. }
  destruct (Hlive v) as [rv Hv]; [left|]. unfold ensure_binding, sm_get. rw Hv.
  set (f := with_bindings _). set (s1 := alter_visit f v s).
  assert (vis s1 = alter f v (vis s)) as HV1 by apply sm_view_alter.
  destruct (IH s1) as (s' & Hbp & Ho & He & Hoi & Hei & Hi & Hs & Hout & Hin).
  { intros x Hx. rw HV1. destruct (decide (x = v)) as [->|]; [rw lookup_alter_eq Hv; by eexists|].
    rw lookup_alter_ne //. apply Hlive. by right. }
  exists s'. split_and!; try done.
  - rw Hi. apply sm_issued_alter.
  - rw Hs HV1. by apply alter_shape.
  - intros i Hi'. rw Hout; [|set_solver]. rw HV1. apply lookup_alter_ne. set_solver.
  - intros i r Hi' Hr. destruct (decide (i ∈ path)) as [Hip|Hip].
    + destruct (decide (i = v)) as [->|Hne].
      * destruct (Hin v (f rv) Hip) as (b & Hb & Hbc); [by rw HV1 lookup_alter_eq Hv|].
        exists b. split; [|intros c ?%Hbc; by right]. rw Hb. simplify_eq. unfold f, with_bindings; cbn.
        by rw insert_insert_eq.
      * destruct (Hin i r Hip) as (b & Hb & Hbc); [by rw HV1 lookup_alter_ne|]. exists b.
        split; [done|]. intros c ?%Hbc. by right.
    + assert (i = v) as -> by set_solver. simplify_eq. rw Hout // HV1 lookup_alter_eq Hv. cbn.
      eexists. split; [done|]. intros c Hc. cbn in Hc. right. destruct path; [done|]. injection Hc as <-. left.
Qed.

Lemma rebind_owner_wf s o path idx at_ms : wf s → wf (rebind_owner_to_path s o path idx at_ms).1.
Proof.
  intros Hwf. unfold rebind_owner_to_path, sm_get. destruct (own s !! o) as [w|] eqn:Hw; [|done].
  destruct (list_find _ path) as [[]|] eqn:Hf; [done|].
  assert (∀ v, v ∈ path → is_Some (vis s !! v)) as Hlive.
  { intros v Hv. apply list_find_None in Hf. rw Forall_forall in Hf. specialize (Hf v Hv).
    apply sm_contains_true. by destruct (sm_contains (visits s) v). }
  set (s1 := unbind_owned s o _).
  destruct (unbind_owned_spec s o (set_iter (owned_visits w))) as (HV & Hi & Ho & He & Hoi & Hei & Hs).
  fold s1 in HV, Hi, Ho, He, Hoi, Hei, Hs.
  assert (∀ v, v ∈ path → is_Some (vis s1 !! v)) as Hlive1.
  { intros v Hv. rw HV. by apply fmap_is_Some, Hlive. }
  destruct (bind_path_spec s1 o path at_ms Hlive1) as (s2 & -> & Ho2 & He2 & Hoi2 & Hei2 & Hi2 & Hs2 & Hout & Hin).
  cbn. set (w' := set_path path _).
  assert (own (alter_owner w' o s2) = <[o := w' w]> (own s)) as HW.
  { cbn. rw sm_view_alter Ho2 Ho. by apply alter_present. }
  apply (wf_update s); try done; cbn [visits alter_owner set_owners].
  - by rw Hs2 Hs.
  - by rw Hi2 Hi.
  - rw HW fmap_insert. apply insert_id. by rw lookup_fmap Hw.
  - cbn. by rw He2 He.
  - cbn. by rw Hoi2 Hoi.
  - cbn. by rw Hei2 Hei.
  - rw HW -(insert_insert_eq (own s) o (w' w) (clear_owner w)).
    apply (bind_wf_path (vis s1) _ _ _ (clear_owner w) _ path); try done.
    + by apply (release_bind_wf s o w (clear_owner w)).
    + by rw lookup_insert_eq.
    + intros v Hv. cbn in Hv. by eapply list_elem_of_lookup_2.
    + intros v Hv. cbn in Hv. destruct path; [done|]. injection Hv as <-. left.
  - rw HW. intros o' w0 p [[<- <-]|[_ ?]]%lookup_insert_Some; [done|by eapply (wf_pending s)].
Qed.
End invariant.
