(* ===== verification/LineageGc.v ===== *)
(** Deleting owners, and what holds of every lineage the API can build.

    [delete_owner] terminates on every well-formed lineage, deletes only visits
    no other owner is bound to, and leaves the survivors as they were.  [step]
    is one call of the mutation API, [reachable] the states built by such calls
    from [Stemma::new].

    The last part exhibits the two ways a lineage the API builds can defeat the
    snapshot code and the linear-history query. *)

From S2P Require Import Prelude SlotMap Stemma Lineage.

Section gc.
Context {M : Type → Type} `{SlotMap M} `{HashOrder}.
Context {K E O X : Type} `{Countable K} `{Countable O}.
Implicit Types s : Stemma (M := M) (K := K) (E := E) (O := O) (X := X).

Abbreviation vis s := (sm_view (visits s)).
Abbreviation own s := (sm_view (owners s)).
Abbreviation ent s := (sm_view (entries s)).
Abbreviation issued s := (sm_issued (visits s)).

(** [s'] is [s] without the visits of [D]. *)
Definition pruned s s' (D : list Z) : Prop :=
  (∀ i, vis s' !! i = (if decide (i ∈ D) then None else vis s !! i)) ∧
  owners s' = owners s ∧ issued s' = issued s ∧ en_key <$> ent s' = en_key <$> ent s ∧
  owner_index s' = owner_index s ∧ entry_index s' = entry_index s.

Lemma pruned_refl s : pruned s s [].
Proof. split_and!; try done. Qed.

Lemma pruned_trans s1 s2 s3 D D' : pruned s1 s2 D → pruned s2 s3 D' → pruned s1 s3 (D ++ D').
Proof.
  intros (HV & Ho & Hi & He & Hoi & Hei) (HV' & Ho' & Hi' & He' & Hoi' & Hei').
  split_and!; try congruence. intros i. rw HV' HV.
  destruct (decide (i ∈ D')), (decide (i ∈ D)), (decide (i ∈ D ++ D')); set_solver.
Qed.

Lemma remove_visits_spec s l deleted :
  NoDup l → (∀ v, v ∈ l → is_Some (vis s !! v)) →
  ∃ s', remove_visits s l deleted = (s', Ok (deleted ++ l)) ∧ pruned s s' l.
Proof.
  revert s deleted. induction l as [|v l IH]; intros s deleted Hnd Hlive; cbn [remove_visits].
  { exists s. rw app_nil_r. split; [done|apply pruned_refl]. }
  apply NoDup_cons in Hnd as [Hv Hnd]. destruct (Hlive v) as [r Hr]; [left|]. unfold sm_get. rw Hr.
  set (s1 := alter_entry _ _ _).
  assert (pruned s s1 [v]) as Hp1.
  { unfold s1, alter_entry, set_entries, set_visits. split_and!; cbn; try done.
    - intros i. rw sm_view_remove. destruct (decide (i ∈ [v])) as [->%list_elem_of_singleton|Hni].
      + apply lookup_delete_eq.
      + apply lookup_delete_ne. intros ->. apply Hni. left.
    - apply sm_issued_remove.
    - rw sm_view_alter. by apply fmap_alter_same. }
  destruct (IH s1 (deleted ++ [v]) Hnd) as (s' & Hs' & Hp').
  { intros x Hx. destruct Hp1 as [HV _]. rw HV decide_False; [apply Hlive; by right|].
    intros ->%list_elem_of_singleton. done. }
  exists s'. split; [by rw Hs' -app_assoc|]. by apply (pruned_trans s s1 s' [v] l).
Qed.

Lemma pruned_wf s s' D root :
  wf s → branch (vis s) root D → (∀ r, vis s !! root = Some r → vi_parent r = None) →
  (∀ v r, v ∈ D → vis s !! v = Some r → vi_bindings r = ∅) →
  pruned s s' D → wf s'.
Proof.
  intros Hwf Hb Hroot Hown (HV & Ho & Hi & He & Hoi & Hei).
  assert (∀ c rc p, c ∈ D → vis s !! c = Some rc → vi_parent rc = Some p → p ∈ D) as Hpar.
  { intros c rc p Hc Hrc Hp. destruct (br_parent _ _ _ Hb c rc Hc Hrc) as [->|(p' & ? & ?)]; [|congruence].
    by rw (Hroot rc Hrc) in Hp. }
  assert (∀ i, vis s' !! i = (if decide (i ∈ (list_to_set D : gset Z)) then None else vis s !! i)) as HV'.
  { intros i. rw HV. rw (decide_ext (i ∈ D) (i ∈ (list_to_set D : gset Z))); [done|].
    by rw elem_of_list_to_set. }
  split.
  - rw Hi. apply (tree_wf_prune (vis s) _ _ (list_to_set D)); [apply Hwf|done|].
    intros c rc p. rw !elem_of_list_to_set. apply Hpar.
  - rw Ho. apply (bind_wf_prune (vis s) _ _ (list_to_set D)); [apply Hwf|done|].
    intros c rc Hc Hrc. rw elem_of_list_to_set in Hc. split; [by eapply Hown|].
    intros p Hp. rw elem_of_list_to_set. by eapply Hpar.
  - rw Ho Hi. apply Hwf.
  - intros v e Hv. rw He. apply (wf_entry s Hwf v). rw lookup_fmap HV in Hv. rw lookup_fmap.
    by case_decide.
  - rw Hoi Ho. apply Hwf.
  - rw Hei He. apply Hwf.
Qed.

Lemma collect_subtree_absent s root : vis s !! root = None → collect_subtree s root = Some [].
Proof. intros Hr. unfold collect_subtree. cbn [collect_loop]. unfold sm_get. by rw Hr. Qed.

(** One branch of [delete_roots]: it survives, or it goes as a whole and nobody
    was bound to it. *)
Lemma delete_roots_spec l s deleted :
  wf s → (∀ root r, root ∈ l → vis s !! root = Some r → vi_parent r = None) →
  ∃ s' D, delete_roots s l deleted = Some (s', Ok (deleted ++ D)) ∧ wf s' ∧ pruned s s' D ∧
    ∀ v, v ∈ D → ∃ r, vis s !! v = Some r ∧ vi_bindings r = ∅.
Proof.
  revert s deleted. induction l as [|root l IH]; intros s deleted Hwf Hroots; cbn [delete_roots].
  { exists s, []. rw app_nil_r. split_and!; [done|done|apply pruned_refl|by intros ? ?%elem_of_nil]. }
  assert (∀ r, vis s !! root = Some r → vi_parent r = None) as Hroot by (intros r; apply Hroots; left).
  assert (∃ D, collect_subtree s root = Some D ∧
    (D = [] ∨ branch (vis s) root D) ∧ NoDup D ∧ ∀ v, v ∈ D → is_Some (vis s !! v)) as (D & HD & Hbr & Hnd & Hlive).
  { destruct (vis s !! root) as [r|] eqn:Hr.
    - destruct (collect_subtree_spec s _ root r (wf_tree s Hwf) Hr (Hroot r eq_refl)) as (D & ? & Hb).
      exists D. split_and!; [done|by right|apply Hb|apply Hb].
    - exists []. rw collect_subtree_absent //. split_and!; [done|by left|constructor|by intros ? ?%elem_of_nil]. }
  unfold branch_is_ownerless, delete_branch. rw HD. cbn [fmap option_fmap option_map].
  destruct (forallb _ D) eqn:Hfree.
  - assert (∀ v r, v ∈ D → vis s !! v = Some r → vi_bindings r = ∅) as Hown.
    { intros v r Hv Hr. rw forallb_forall in Hfree. specialize (Hfree v).
      rw -list_elem_of_In in Hfree. specialize (Hfree Hv). unfold sm_get in Hfree. rw Hr in Hfree.
      by apply bool_decide_eq_true in Hfree. }
    destruct (remove_visits_spec s (reverse D) deleted) as (s1 & -> & Hp).
    { by rw reverse_Permutation. }
    { intros v Hv. rw elem_of_reverse in Hv. by apply Hlive. }
    assert (pruned s s1 D) as Hp1.
    { destruct Hp as [HV Hrest]. split; [|done]. intros i. rw HV.
      rw (decide_ext (i ∈ reverse D) (i ∈ D)); [done|apply elem_of_reverse]. }
    assert (wf s1) as Hwf1.
    { destruct Hbr as [->|Hb]; [|by eapply pruned_wf]. destruct Hp1 as (HV & Ho & Hi & He & Hoi & Hei).
      assert (vis s1 = vis s) as HVe.
      { apply map_eq. intros i. exact (HV i). }
      apply (wf_update s); try done; rw ?HVe ?Ho; try done; apply Hwf. }
    destruct (IH s1 (deleted ++ reverse D) Hwf1) as (s2 & D2 & Hd2 & Hwf2 & Hp2 & Hf2).
    { intros root' r Hin Hr. destruct Hp1 as [HV _]. rw HV in Hr. case_decide; [done|].
      eapply Hroots; [by right|done]. }
    exists s2, (reverse D ++ D2). rw Hd2 app_assoc. split_and!; [done|done| |].
    + by eapply pruned_trans.
    + intros v [Hv|Hv]%elem_of_app.
      * rw elem_of_reverse in Hv. destruct (Hlive v Hv) as [r Hr]. exists r. split; [done|by eapply Hown].
      * destruct (Hf2 v Hv) as (r & Hr & ?). destruct Hp1 as [HV _]. rw HV in Hr.
        case_decide; [done|]. eauto.
  - apply IH; [done|]. intros root' r Hin. apply Hroots. by right.
Qed.

Lemma collect_roots_spec s l roots :
  wf s → ∃ res, collect_roots s l roots = Some res ∧
    match res with
    | Ok R => ∀ root, root ∈ R → root ∈ roots ∨ ∃ r, vis s !! root = Some r ∧ vi_parent r = None
    | Err e => ∃ c rc p, vis s !! c = Some rc ∧ vi_parent rc = Some p ∧ vis s !! p = None ∧ e = MissingVisit p
    end.
Proof.
  intros Hwf. revert roots. induction l as [|v l IH]; intros roots; cbn [collect_roots].
  { exists (Ok roots). split; [done|]. by left. }
  destruct (sm_contains (visits s) v) eqn:Hv; [|apply IH]. apply sm_contains_true in Hv.
  destruct (root_of_spec s _ v (wf_tree s Hwf)) as [(root & r & -> & Hr & Hp)|(x & -> & Hx & Hor)].
  - destruct (IH ({[root]} ∪ roots)) as (res & -> & Hres). exists res. split; [done|].
    destruct res as [R|e]; [|done]. intros root' [Hin|?]%Hres; [|auto].
    apply elem_of_union in Hin as [->%elem_of_singleton|?]; eauto.
  - eexists. split; [done|]. destruct Hor as [->|(c & rc & ? & ?)]; [|eauto 8].
    rw Hx in Hv. by destruct Hv.
Qed.

(** The state once the owner and its bindings are gone. *)
Definition drop_owner s (o : Z) (w : OwnerRecord O) : Stemma :=
  mkStemma (entries s) (sm_map_values (with_bindings (delete o)) (visits s))
    (sm_remove o (owners s)) (entry_index s) (delete (ow_identity w) (owner_index s)).

Lemma drop_owner_wf s o w : wf s → own s !! o = Some w → wf (drop_owner s o w).
Proof.
  intros [T1 T2 T3 T4 T5 T6] Hw. split; cbn; rw ?sm_view_map ?sm_issued_map ?sm_view_remove.
  - apply (tree_wf_shape (vis s)); [|done]. by rw fmap_shape.
  - by apply bind_wf_drop.
  - intros o' w' p [_ Hw']%lookup_delete_Some. by eapply T3.
  - intros v e. rw (vi_entry_shape _ (vis s)); [apply T4|by apply fmap_shape].
  - intros i o'. rw lookup_delete_Some fmap_delete lookup_delete_Some T5.
    assert ((ow_identity <$> own s) !! o = Some (ow_identity w)) as Ho by by rw lookup_fmap Hw.
    split; intros [Hne Hi]; (split; [|done]).
    + intros <-. congruence.
    + intros <-. apply Hne. apply T5 in Hi. apply T5 in Ho. congruence.
  - done.
Qed.

Lemma no_binding_delete s v r o : wf s → own s !! o = None → vis s !! v = Some r → with_bindings (delete o) r = r.
Proof.
  intros Hwf Ho Hv. assert (vi_bindings r !! o = None) as Hn.
  { apply eq_None_not_Some. intros Hs. destruct (bw_owner _ _ (wf_bind s Hwf) v r o Hv Hs). congruence. }
  unfold with_bindings. rw delete_id //. by destruct r.
Qed.

Lemma delete_owner_spec s o :
  wf s → ∃ s' res, delete_owner s o = Some (s', res) ∧ wf s' ∧
    (∀ v r', vis s' !! v = Some r' → ∃ r, vis s !! v = Some r ∧ r' = with_bindings (delete o) r) ∧
    (∀ v r, vis s !! v = Some r → vis s' !! v = None → ∀ o', is_Some (vi_bindings r !! o') → o' = o) ∧
    match res with
    | Ok deleted => ∀ v, v ∈ deleted ↔ is_Some (vis s !! v) ∧ vis s' !! v = None
    | Err e => e = MissingOwner o ∧ s' = s ∨
        ∃ c rc p, vis s !! c = Some rc ∧ vi_parent rc = Some p ∧ vis s !! p = None ∧ e = MissingVisit p
    end.
Proof.
  intros Hwf. unfold delete_owner, sm_get. destruct (own s !! o) as [w|] eqn:Hw; cycle 1.
  { eexists s, _. split_and!; [done|done| | |by left].
    - intros v r' Hv. exists r'. split; [done|]. by rw (no_binding_delete s v).
    - intros. congruence. }
  fold (drop_owner s o w). set (s1 := drop_owner s o w).
  pose proof (drop_owner_wf s o w Hwf Hw) as Hwf1. fold s1 in Hwf1.
  assert (∀ i, vis s1 !! i = with_bindings (delete o) <$> vis s !! i) as HV1.
  { intros i. unfold s1, drop_owner; cbn. by rw sm_view_map lookup_fmap. }
  destruct (collect_roots_spec s1 (set_iter (owned_visits w)) ∅ Hwf1) as ([R|e] & -> & Hres).
  - destruct (delete_roots_spec (set_iter R) s1 [] Hwf1) as (s2 & D & -> & Hwf2 & (HV2 & _) & Hfree).
    { intros root r Hin Hr. rw elem_of_set_iter in Hin.
      destruct (Hres root Hin) as [?|(r' & ? & ?)]; [set_solver|congruence]. }
    exists s2, (Ok D). split_and!; [done|done| | |].
    + intros v r'. rw HV2. case_decide; [done|]. rw HV1. intros (r & ? & ->)%fmap_Some. eauto.
    + intros v r Hv Hn o' Ho'. rw HV2 HV1 Hv in Hn. case_decide as Hin; [|done].
      destruct (Hfree v Hin) as (r1 & Hr1 & He). rw HV1 Hv in Hr1. injection Hr1 as <-. cbn in He.
      destruct (decide (o' = o)) as [|Hne]; [done|]. assert (delete o (vi_bindings r) !! o' = None) as Hd.
      { by rw He. }
      rw lookup_delete_ne // in Hd. rw Hd in Ho'. by destruct Ho'.
    + intros v. rw HV2 HV1. split.
      * intros Hin. destruct (Hfree v Hin) as (r1 & Hr1 & _). rw HV1 in Hr1.
        apply fmap_Some in Hr1 as (r & -> & _). split; [by eexists|]. by rw decide_True.
      * intros [[r Hr] Hn]. rw Hr in Hn. by case_decide.
  - destruct Hres as (c & rc & p & Hc & Hp & Hn & ->). eexists s1, _. split_and!; [done|done| | |].
    + intros v r'. rw HV1. intros (r & ? & ->)%fmap_Some. eauto.
    + intros v r Hv Hn'. rw HV1 Hv in Hn'. done.
    + right. rw HV1 in Hc. apply fmap_Some in Hc as (rc0 & Hc0 & ->). exists c, rc0, p.
      rw HV1 in Hn. apply fmap_None in Hn. done.
Qed.

(** ** Calls of the mutation API *)

Inductive step : Stemma → Stemma → Prop :=
| step_ensure_owner s i c : step s (ensure_owner s i c).1
| step_resolve_entry s k e t p : step s (resolve_or_create_entry s k e t p).1
| step_adopt s o v t : step s (adopt_visit s o v t).1
| step_visit s o e x k t : step s (visit_entry s o e x k t).1
| step_back s o n t : step s (back s o n t).1
| step_forward s o n t : step s (forward s o n t).1
| step_delete s o s' res : delete_owner s o = Some (s', res) → step s s'
| step_reset s o x t : step s (reset_owner s o x t).1
| step_rebind s o path i t : step s (rebind_owner_to_path s o path i t).1.

Inductive reachable : Stemma → Prop :=
| reachable_new : reachable stemma_new
| reachable_step s s' : reachable s → step s s' → reachable s'.

Lemma wf_step s s' : wf s → step s s' → wf s'.
Proof.
  intros Hwf Hs. destruct Hs.
  - by apply ensure_owner_wf.
  - by apply resolve_entry_wf.
  - by apply adopt_visit_wf.
  - by apply visit_entry_wf.
  - by apply back_wf.
  - by apply forward_wf.
  - destruct (delete_owner_spec s o Hwf) as (s1 & r1 & ? & ? & _). congruence.
  - by apply reset_owner_wf.
  - by apply rebind_owner_wf.
Qed.

Lemma reachable_wf s : reachable s → wf s.
Proof. induction 1 as [|s s' _ IH Hs]; [apply wf_new|by eapply wf_step]. Qed.

(** ** The past is not rewritten *)

Definition core (r : VisitRecord X) := (vi_entry r, vi_parent r, created_at_ms r, vi_context r, vi_inbound r).

Definition kept_record (r r' : VisitRecord X) : Prop :=
  core r' = core r ∧ vi_children r `prefix_of` vi_children r'.

#[local] Instance kept_record_preorder : PreOrder kept_record.
Proof.
  split.
  - intros r. by split.
  - intros r1 r2 r3 [H1' P1] [H2' P2]. split; [congruence|by etransitivity].
Qed.

Definition kept s s' : Prop :=
  ∀ i r, vis s !! i = Some r → ∃ r', vis s' !! i = Some r' ∧ kept_record r r'.

#[local] Instance kept_preorder : PreOrder kept.
Proof.
  split.
  - intros s i r Hr. exists r. by split.
  - intros s1 s2 s3 K1 K2 i r Hr. destruct (K1 i r Hr) as (r2 & Hr2 & Hk2).
    destruct (K2 i r2 Hr2) as (r3 & Hr3 & Hk3). exists r3. split; [done|by etransitivity].
Qed.

Lemma kept_same s s' : visits s' = visits s → kept s s'.
Proof. intros Hv i r Hr. exists r. by rw Hv. Qed.

Lemma kept_alter s f k : (∀ r, kept_record r (f r)) → kept s (alter_visit f k s).
Proof.
  intros Hf i r Hr. unfold alter_visit, set_visits; cbn. rw sm_view_alter.
  destruct (decide (i = k)) as [->|Hne].
  - exists (f r). by rw lookup_alter_eq Hr.
  - exists r. by rw lookup_alter_ne.
Qed.

Lemma kept_insert s v : kept s (set_visits (sm_insert v (visits s)).2 s).
Proof.
  intros i r Hr. exists r. split; [|done]. cbn. rw sm_view_insert lookup_insert_ne //.
  intros <-. by rw sm_insert_get_ne in Hr.
Qed.

Lemma kept_push r c : kept_record r (push_child c r).
Proof. split; [done|]. by exists [c]. Qed.

Lemma kept_with f r : kept_record r (with_bindings f r).
Proof. by split. Qed.

Lemma kept_ensure s v o t set : kept s (default s (ensure_binding s v o t set)).
Proof.
  unfold ensure_binding. destruct (sm_get _ _); cbn; [|done]. apply kept_alter. intros r. apply kept_with.
Qed.

Lemma kept_bind s o v t : kept s (bind_owner_to_visit s o v t).1.
Proof.
  unfold bind_owner_to_visit. destruct (sm_contains _ _); [|done]. destruct (sm_contains _ _); [|done]. cbn.
  pose proof (kept_ensure s v o t id) as Hk. destruct (ensure_binding _ _ _ _ _) as [s1|]; [|done]. cbn in *.
  etransitivity; [exact Hk|]. by apply kept_same.
Qed.

Lemma kept_adopt s o v t : kept s (adopt_visit s o v t).1.
Proof.
  unfold adopt_visit. destruct (sm_contains _ _); [|done]. destruct (sm_contains _ _); [|done]. cbn.
  set (s1 := match owner_current s o with None => s | _ => _ end).
  assert (kept s s1) as Hk1.
  { unfold s1. destruct (owner_current s o); [|done]. destruct (match sm_get _ _ with Some _ => _ | None => _ end);
      [apply kept_ensure|done]. }
  pose proof (kept_bind s1 o v t) as Hk2. destruct (bind_owner_to_visit s1 o v t) as [s2 []]; cbn in *;
    by etransitivity.
Qed.

Lemma kept_back n s o t m : kept s (back_loop n s o t m).1.
Proof.
  revert s m. induction n as [|n IH]; intros s m; cbn [back_loop]; [done|].
  destruct (owner_current s o) as [c|]; [|done]. destruct (_ ≫= vi_parent) as [p|]; [|done].
  pose proof (kept_ensure s p o t (set_forward (Some c))) as Hk1. set (s1 := default s _) in *.
  pose proof (kept_bind s1 o p t) as Hk2. destruct (bind_owner_to_visit s1 o p t) as [s2 []]; cbn in *.
  - etransitivity; [exact Hk1|]. etransitivity; [exact Hk2|apply IH].
  - by etransitivity.
Qed.

Lemma kept_forward n s o t m : kept s (forward_loop n s o t m).1.
Proof.
  revert s m. induction n as [|n IH]; intros s m; cbn [forward_loop]; [done|].
  destruct (owner_current s o) as [c|]; [|done]. destruct (forward_of s c o) as [v|]; [|done].
  pose proof (kept_bind s o v t) as Hk. destruct (bind_owner_to_visit s o v t) as [s2 []]; cbn in *; [|done].
  etransitivity; [exact Hk|apply IH].
Qed.

Lemma take_parent_visits s o : visits (take_parent s o).2 = visits s.
Proof. unfold take_parent. by destruct (owner_current s o). Qed.

Lemma kept_attach s parent o v t : kept s (attach_child s parent o v t).
Proof.
  destruct parent as [p|]; [|done]. rw attach_child_eq. etransitivity; [|apply kept_ensure].
  apply kept_alter. intros r. apply kept_push.
Qed.

Lemma kept_visit s o e x k t :
  kept s (visit_entry s o e x k t).1 ∧ ∀ v, (visit_entry s o e x k t).2 = Ok v → vis s !! v = None.
Proof.
  unfold visit_entry. destruct (sm_contains _ _); [|done]. destruct (sm_contains _ _); [|done]. cbn.
  pose proof (take_parent_visits s o) as Hv. destruct (take_parent s o) as [parent s1]. cbn in Hv.
  set (rec := mkVisit _ _ _ _ _ _ _). pose proof (kept_insert s1 rec) as Hk1.
  pose proof (sm_insert_get_ne rec (visits s1)) as Hn.
  destruct (sm_insert rec (visits s1)) as [v vs]. cbn in Hk1, Hn. rw Hv in Hn.
  pose proof (kept_attach (set_visits vs s1) parent o v t) as Hk2. set (s2 := attach_child _ _ _ _ _) in *.
  pose proof (kept_bind s2 o v t) as Hk3.
  assert (kept s (bind_owner_to_visit s2 o v t).1) as Hk.
  { etransitivity; [by apply (kept_same s s1)|]. etransitivity; [exact Hk1|]. by etransitivity. }
  destruct (bind_owner_to_visit s2 o v t) as [s3 [[]|]]; cbn in *; [|done]. split; [|by intros ? [= <-]].
  etransitivity; [exact Hk|]. by apply kept_same.
Qed.

Lemma kept_unbind s o l : kept s (unbind_owned s o l).
Proof.
  revert s. induction l as [|v l IH]; intros s; [done|]. cbn.
  etransitivity; [|apply IH]. apply kept_alter. intros r. apply kept_with.
Qed.

Lemma kept_reset s o x t : kept s (reset_owner s o x t).1.
Proof.
  unfold reset_owner. destruct (sm_get (owners s) o) as [w|]; [|done]. destruct (ow_current w) as [c|]; [|done].
  destruct (sm_get (visits s) c) as [r|]; [|done].
  set (s2 := alter_owner _ _ _).
  assert (kept s s2) as Hk2.
  { etransitivity; [apply (kept_unbind s o (set_iter (owned_visits w)))|]. by apply kept_same. }
  clearbody s2. destruct (kept_visit s2 o (vi_entry r) x Restore_ t) as [Hk3 Hn].
  destruct (visit_entry s2 o (vi_entry r) x Restore_ t) as [s3 [v|]]; cbn in *; [|by etransitivity].
  specialize (Hn v eq_refl). intros i ri Hi. destruct (Hk2 i ri Hi) as (r2 & Hr2 & Hkr2).
  destruct (Hk3 i r2 Hr2) as (r3 & Hr3 & Hkr3). exists r3. split; [|by etransitivity].
  unfold alter_visit, set_visits; cbn. rw sm_view_alter lookup_alter_ne //. intros ->. congruence.
Qed.

Lemma kept_bind_path s o path t : kept s (bind_path s o path t).1.
Proof.
  revert s. induction path as [|v path IH]; intros s; cbn [bind_path]; [done|].
  pose proof (kept_ensure s v o t (set_forward (head path))) as Hk. destruct (ensure_binding _ _ _ _ _); [|done].
  cbn in Hk. etransitivity; [exact Hk|apply IH].
Qed.

Lemma kept_rebind s o path i t : kept s (rebind_owner_to_path s o path i t).1.
Proof.
  unfold rebind_owner_to_path. destruct (sm_get (owners s) o) as [w|]; [|done].
  destruct (list_find _ _) as [[]|]; [done|].
  pose proof (kept_unbind s o (set_iter (owned_visits w))) as Hk1. set (s1 := unbind_owned _ _ _) in *.
  pose proof (kept_bind_path s1 o path t) as Hk2.
  destruct (bind_path s1 o path t) as [s2 [[]|]]; cbn in *; [|by etransitivity].
  etransitivity; [exact Hk1|]. etransitivity; [exact Hk2|]. by apply kept_same.
Qed.

(** History is not rewritten. No call of the mutation API changes the
    entry, parent, context, creation time or inbound transition of a visit
    that survives it, and children are only appended. *)
Theorem temporal_integrity s s' v r r' (Hr : reachable s) (Hs : step s s')
    (Hv : vis s !! v = Some r) (Hv' : vis s' !! v = Some r') :
  vi_entry r' = vi_entry r ∧ vi_parent r' = vi_parent r ∧ created_at_ms r' = created_at_ms r ∧
  vi_context r' = vi_context r ∧ vi_inbound r' = vi_inbound r ∧
  vi_children r `prefix_of` vi_children r'.
Proof.
  enough (kept_record r r') as [Hc Hp] by (injection Hc; intros; by split_and!).
  assert (∀ s1, s' = s1 → kept s s1 → kept_record r r') as Hk.
  { intros s1 <- Hk. destruct (Hk v r Hv) as (r1 & Hr1 & ?). congruence. }
  destruct Hs;
    lazymatch goal with Hd : delete_owner _ _ = _ |- _ => idtac | _ => eapply Hk; [reflexivity|] end.
  - apply kept_same. unfold ensure_owner. destruct (owner_index s !! i); [done|]. by destruct (sm_insert _ _).
  - apply kept_same. unfold resolve_or_create_entry. destruct (entry_index s !! k); [done|]. by destruct (sm_insert _ _).
  - apply kept_adopt.
  - apply kept_visit.
  - unfold back. destruct (sm_contains _ _); [apply kept_back|done].
  - unfold forward. destruct (sm_contains _ _); [apply kept_forward|done].
  - destruct (delete_owner_spec s o (reachable_wf s Hr)) as (s1 & res1 & Hd & _ & Hkeep & _).
    assert (s1 = s') as -> by congruence. destruct (Hkeep v r' Hv') as (r0 & ? & ->).
    assert (r0 = r) as -> by congruence. apply kept_with.
  - apply kept_reset.
  - apply kept_rebind.
Qed.

(** C30. The links of the navigation tree stay exact. In every lineage the API
    can build, each owner's cursor, origin and owned visits are live and bound
    to it, forward links lead to live visits of live owners, children lists
    are exactly the inverse of parents, and entries exist. *)
Theorem reachable_links_live s (Hr : reachable s) :
  (∀ o w v, own s !! o = Some w →
     ow_current w = Some v ∨ ow_origin w = Some v ∨ v ∈ owned_visits w →
     ∃ r, vis s !! v = Some r ∧ is_Some (vi_bindings r !! o)) ∧
  (∀ v r o b c, vis s !! v = Some r → vi_bindings r !! o = Some b → forward_child b = Some c →
     is_Some (own s !! o) ∧ is_Some (vis s !! c)) ∧
  (∀ p r c, vis s !! p = Some r →
     c ∈ vi_children r ↔ ∃ rc, vis s !! c = Some rc ∧ vi_parent rc = Some p) ∧
  (∀ v r, vis s !! v = Some r → is_Some (ent s !! vi_entry r)).
Proof.
  apply reachable_wf in Hr as [T1 T2 T3 T4 T5 T6]. split_and!.
  - intros o w v Hw Hv. apply (bw_owned _ _ T2 o w v Hw).
    destruct Hv as [Hv|[Hv|Hv]]; [by eapply (bw_current _ _ T2)|by eapply (bw_origin _ _ T2)|done].
  - intros v r o b c Hv Hb Hc. split; [by eapply (bw_owner _ _ T2); [|eexists]|].
    destruct (bw_forward _ _ T2 v r o b c Hv Hb Hc) as (rc & ? & _). by eexists.
  - intros p r c Hp. split; [by apply (tw_children _ _ T1)|].
    intros (rc & Hc & Hpc). by eapply (tw_parent _ _ T1).
  - intros v r Hv. apply (fmap_is_Some en_key). rw -lookup_fmap. apply (T4 v). by rw lookup_fmap Hv.
Qed.

(** The walk to the root terminates on every lineage the API can build:
    at a live root, or with the error naming the missing visit it ran into. *)
Theorem parent_chains_end s v (Hr : reachable s) :
  (∃ root r, root_of s v = Some (Ok root) ∧ vis s !! root = Some r ∧ vi_parent r = None) ∨
  (∃ x, root_of s v = Some (Err (MissingVisit x)) ∧ vis s !! x = None).
Proof.
  destruct (root_of_spec s _ v (wf_tree s (reachable_wf s Hr))) as [?|(x & ? & ? & _)]; [by left|].
  right. eauto.
Qed.

(** C29. Deleting an owner always returns. It collects exactly the visits it
    reports, none of them bound to any other owner, and changes the survivors
    only by dropping the owner's binding; its only errors are an unknown
    owner, which changes nothing, and a parent that is already missing. *)
Theorem delete_owner_safe s o (Hr : reachable s) :
  ∃ s' res, delete_owner s o = Some (s', res) ∧
    (∀ v r', vis s' !! v = Some r' → ∃ r, vis s !! v = Some r ∧ r' = with_bindings (delete o) r) ∧
    (∀ v r, vis s !! v = Some r → vis s' !! v = None → ∀ o', is_Some (vi_bindings r !! o') → o' = o) ∧
    match res with
    | Ok deleted => ∀ v, v ∈ deleted ↔ is_Some (vis s !! v) ∧ vis s' !! v = None
    | Err e => e = MissingOwner o ∧ s' = s ∨
        ∃ c rc p, vis s !! c = Some rc ∧ vi_parent rc = Some p ∧ vis s !! p = None ∧ e = MissingVisit p
    end.
Proof.
  destruct (delete_owner_spec s o (reachable_wf s Hr)) as (s' & res & ? & _ & ? & ? & ?). eauto 10.
Qed.

(** ** Back and forward *)

Lemma bind_owner_ok s o v t :
  is_Some (own s !! o) → is_Some (vis s !! v) → (bind_owner_to_visit s o v t).2 = Ok tt.
Proof.
  intros Ho%sm_contains_true Hv. pose proof Hv as Hc%sm_contains_true. unfold bind_owner_to_visit. rw Ho Hc. cbn.
  unfold ensure_binding, sm_get. by destruct Hv as [r ->].
Qed.

Lemma bind_owner_current s o v t :
  is_Some (own s !! o) → is_Some (vis s !! v) → owner_current (bind_owner_to_visit s o v t).1 o = Some v.
Proof.
  intros [w Hw] Hv. unfold bind_owner_to_visit. rw (proj2 (sm_contains_true (owners s) o)); [|by eexists].
  rw (proj2 (sm_contains_true (visits s) v)) //. cbn. unfold ensure_binding, sm_get.
  destruct Hv as [r ->]. cbn. unfold owner_current, sm_get; cbn. rw sm_view_alter lookup_alter_eq Hw. done.
Qed.

(** Binding keeps every forward link. *)
Lemma bind_owner_forward s o v t u :
  is_Some (own s !! o) → is_Some (vis s !! v) →
  forward_of (bind_owner_to_visit s o v t).1 u o = forward_of s u o.
Proof.
  intros Ho Hv. unfold bind_owner_to_visit. rw (proj2 (sm_contains_true (owners s) o)) //.
  rw (proj2 (sm_contains_true (visits s) v)) //. cbn. unfold ensure_binding, sm_get.
  destruct Hv as [r Hr]. rw Hr. cbn. unfold forward_of, sm_get; cbn. rw sm_view_alter.
  destruct (decide (u = v)) as [->|Hne]; [|by rw lookup_alter_ne].
  rw lookup_alter_eq Hr. cbn. rw lookup_insert_eq. cbn. by destruct (vi_bindings r !! o).
Qed.

(** Going back one step to a live parent and forward again returns the
    owner to the visit it left, each call reporting the visit it lands on. *)
Theorem back_forward_roundtrip s o c r p t1 t2 (Hr : reachable s) (Hc : owner_current s o = Some c)
    (Hv : vis s !! c = Some r) (Hp : vi_parent r = Some p) (Hlive : is_Some (vis s !! p)) :
  let s1 := (back s o 1 t1).1 in
  let s2 := (forward s1 o 1 t2).1 in
  (back s o 1 t1).2 = Ok (Some p) ∧ owner_current s1 o = Some p ∧
  (forward s1 o 1 t2).2 = Ok (Some c) ∧ owner_current s2 o = Some c.
Proof.
  apply reachable_wf in Hr as Hwf. apply owner_current_Some in Hc as Hw. destruct Hw as (w & Hw & _).
  set (s0 := default s (ensure_binding s p o t1 (set_forward (Some c)))).
  destruct (set_link_wf s p o t1 c) as (Hwf0 & Ho0 & Hs0); [done|by eexists|exists r; auto|]. fold s0 in Hwf0, Ho0, Hs0.
  assert (∀ u, is_Some (vis s !! u) → is_Some (vis s0 !! u)) as Hl0.
  { intros u [ru Hu]. destruct (shape_lookup (vis s0) (vis s) u ru Hs0 Hu) as (r0 & ? & _). by eexists. }
  assert (is_Some (own s0 !! o)) as Ho by (rw Ho0 Hw; by eexists).
  assert (forward_of s0 p o = Some c) as Hf0.
  { unfold s0, ensure_binding, sm_get. destruct Hlive as [rp Hrp]. rw Hrp. cbn. unfold forward_of, sm_get; cbn.
    by rw sm_view_alter lookup_alter_eq Hrp /= lookup_insert_eq. }
  assert (back s o 1 t1 = ((bind_owner_to_visit s0 o p t1).1, Ok (Some p))) as Hback.
  { unfold back. rw (proj2 (sm_contains_true (owners s) o)); [|by eexists]. cbn [Nat.max back_loop negb].
    rw Hc. unfold sm_get. rw Hv. cbn. rw Hp. fold s0. pose proof (bind_owner_ok s0 o p t1 Ho (Hl0 p Hlive)) as Hok.
    by destruct (bind_owner_to_visit s0 o p t1) as [? [[]|]]. }
  rw Hback. cbn. pose proof (bind_owner_current s0 o p t1 Ho (Hl0 p Hlive)) as Hc1.
  pose proof (bind_owner_forward s0 o p t1 p Ho (Hl0 p Hlive)) as Hf1. rw Hf0 in Hf1.
  destruct (bind_owner_wf s0 o p t1 Hwf0) as [_ Hsh]. specialize (Hsh tt (bind_owner_ok s0 o p t1 Ho (Hl0 p Hlive))).
  destruct Hsh as (Hsh & w1 & Hw1 & _). set (s1 := (bind_owner_to_visit s0 o p t1).1) in *.
  assert (is_Some (vis s1 !! c)) as Hlc.
  { destruct (Hl0 c ltac:(by eexists)) as [rc Hrc]. destruct (shape_lookup _ _ c rc Hsh Hrc) as (? & ? & _). by eexists. }
  assert (forward s1 o 1 t2 = ((bind_owner_to_visit s1 o c t2).1, Ok (Some c))) as Hfwd.
  { unfold forward. rw (proj2 (sm_contains_true (owners s1) o)); [|by eexists]. cbn [Nat.max forward_loop negb].
    rw Hc1 Hf1. pose proof (bind_owner_ok s1 o c t2 ltac:(by eexists) Hlc) as Hok.
    by destruct (bind_owner_to_visit s1 o c t2) as [? [[]|]]. }
  rw Hfwd. cbn. split_and!; [done..|]. apply bind_owner_current; [by eexists|done].
Qed.

(** ** When a lineage can be saved *)

Lemma index_of_Some {V} (m : M V) k : is_Some (index_of m k) ↔ is_Some (sm_view m !! k).
Proof.
  unfold index_of, position. rw fmap_is_Some. split.
  - intros [[i x] (Hx & -> & _)%list_find_Some]. apply list_elem_of_lookup_2 in Hx.
    apply list_elem_of_fmap in Hx as ([k' v] & -> & Hin). apply elem_of_sm_iter in Hin. by exists v.
  - intros [v Hv]. apply (list_find_elem_of (λ x, x = k) _ k); [|done].
    apply list_elem_of_fmap. exists (k, v). split; [done|]. by apply elem_of_sm_iter.
Qed.

Lemma opt_index_Some {V} (m : M V) o :
  is_Some (opt_index m o) ↔ ∀ k, o = Some k → is_Some (sm_view m !! k).
Proof.
  unfold opt_index. destruct o as [k|]; [|split; [done|by eexists]].
  rw fmap_is_Some index_of_Some. split; [by intros ? ? [= <-]|auto].
Qed.

Lemma bind_is_Some {A B} (o : option A) (f : A → option B) :
  is_Some (o ≫= f) ↔ ∃ a, o = Some a ∧ is_Some (f a).
Proof. destruct o as [a|]; cbn; [naive_solver|]. split; [by intros []|by intros (? & ? & _)]. Qed.

Lemma bind_const_Some {A B} (o : option A) (f : A → option B) (P : Prop) :
  (∀ a, is_Some (f a) ↔ P) → is_Some (o ≫= f) ↔ is_Some o ∧ P.
Proof.
  intros Hf. rw bind_is_Some. split.
  - intros (a & -> & Ha). split; [by eexists|by apply (Hf a)].
  - intros [[a ->] HP]. exists a. by rw Hf.
Qed.

Lemma mapM_Some_all {A B} (f : A → option B) l : is_Some (mapM f l) ↔ ∀ x, x ∈ l → is_Some (f x).
Proof. rw mapM_is_Some Forall_forall. done. Qed.

Lemma elem_of_binding_list bs o b : (o, b) ∈ binding_list bs ↔ bs !! o = Some b.
Proof.
  unfold binding_list. rw list_elem_of_omap. split.
  - intros (o' & _ & (b' & Hb & [= -> ->])%fmap_Some). done.
  - intros Hb. exists o. rw Hb. split; [|done]. rw elem_of_set_iter elem_of_dom. by eexists.
Qed.

Lemma snap_visit_Some s v r :
  wf s → vis s !! v = Some r →
  is_Some (snap_visit s r) ↔ ∀ p, vi_parent r = Some p → is_Some (vis s !! p).
Proof.
  intros [T1 T2 T3 T4 T5 T6] Hv. unfold snap_visit.
  rw (bind_const_Some _ _ (∀ p, vi_parent r = Some p → is_Some (vis s !! p))).
  - rw index_of_Some. split; [by intros [_ ?]|]. intros Hp. split; [|done].
    apply (fmap_is_Some en_key). rw -lookup_fmap. apply (T4 v). by rw lookup_fmap Hv.
  - intros e. rw (bind_const_Some _ _ True); [rw opt_index_Some; naive_solver|]. intros pa.
    rw (bind_const_Some _ _ True).
    + split; [done|]. intros _. split; [|done]. apply mapM_Some_all. intros c Hc. apply index_of_Some.
      destruct (tw_children _ _ T1 v r c Hv Hc) as (rc & -> & _). by eexists.
    + intros cs. rw (bind_const_Some _ _ True); [|intros bs; split; [done|by eexists]].
      split; [done|]. intros _. split; [|done]. apply mapM_Some_all. intros [o b] Hb%elem_of_binding_list.
      unfold snap_binding; cbn. rw (bind_const_Some _ _ True).
      * split; [|done]. apply index_of_Some. eapply (bw_owner _ _ T2); [done|by eexists].
      * intros oi. rw (bind_const_Some _ _ True); [|intros f; split; [done|by eexists]].
        split; [done|]. intros _. split; [|done]. apply opt_index_Some. intros c Hc.
        destruct (bw_forward _ _ T2 v r o b c Hv Hb Hc) as (rc & -> & _). by eexists.
Qed.

Lemma snap_owner_Some s o w :
  wf s → own s !! o = Some w →
  is_Some (snap_owner s w) ↔
    (∀ c, ow_creator w = Some c → is_Some (own s !! c)) ∧
    (∀ p, pending_origin_parent w = Some p → is_Some (vis s !! p)).
Proof.
  intros [T1 T2 T3 T4 T5 T6] Hw. unfold snap_owner.
  assert (∀ v, v ∈ owned_visits w → is_Some (vis s !! v)) as Hown.
  { intros v Hv. destruct (bw_owned _ _ T2 o w v Hw Hv) as (r & -> & _). by eexists. }
  set (Q := (∀ c, ow_creator w = Some c → is_Some (own s !! c)) ∧ _).
  rw (bind_const_Some _ _ Q).
  { rw opt_index_Some. split; [by intros [_ ?]|]. intros HQ. split; [|done]. intros v Hv. apply Hown.
    by eapply (bw_origin _ _ T2). }
  intros orig. rw (bind_const_Some _ _ Q).
  { rw opt_index_Some. split; [by intros [_ ?]|]. intros HQ. split; [|done]. intros v Hv. apply Hown.
    by eapply (bw_current _ _ T2). }
  intros cur. rw (bind_const_Some _ _ (∀ p, pending_origin_parent w = Some p → is_Some (vis s !! p))).
  { by rw opt_index_Some. }
  intros cr. rw (bind_const_Some _ _ True); [rw opt_index_Some; naive_solver|].
  intros pe. rw (bind_const_Some _ _ True); [|intros os; split; [done|by eexists]].
  split; [done|]. intros _. split; [|done]. apply mapM_Some_all. intros v Hv%elem_of_set_iter.
  by apply index_of_Some, Hown.
Qed.

(** A lineage the API can build can be saved without panicking exactly
    when no parent, creator or pending origin refers to something that was
    deleted. *)
Theorem to_snapshot_total s (Hr : reachable s) :
  is_Some (to_snapshot s) ↔
    (∀ v r p, vis s !! v = Some r → vi_parent r = Some p → is_Some (vis s !! p)) ∧
    (∀ o w c, own s !! o = Some w → ow_creator w = Some c → is_Some (own s !! c)) ∧
    (∀ o w p, own s !! o = Some w → pending_origin_parent w = Some p → is_Some (vis s !! p)).
Proof.
  apply reachable_wf in Hr as Hwf. unfold to_snapshot.
  rw (bind_const_Some _ _ (∀ o w, own s !! o = Some w → is_Some (snap_owner s w))).
  - rw mapM_Some_all. split.
    + intros [Hvs Hos]. split; [|split].
      * intros v r p Hv. apply (snap_visit_Some s v r Hwf Hv). apply Hvs. apply list_elem_of_fmap.
        exists (v, r). split; [done|]. by apply elem_of_sm_iter.
      * intros o w c Hw. apply (snap_owner_Some s o w Hwf Hw). by eapply Hos.
      * intros o w p Hw. apply (snap_owner_Some s o w Hwf Hw). by eapply Hos.
    + intros (Hp & Hc & Hpe). split.
      * intros r ([v r'] & -> & Hin)%list_elem_of_fmap. apply elem_of_sm_iter in Hin.
        apply (snap_visit_Some s v r' Hwf Hin). intros p. by eapply Hp.
      * intros o w Hw. apply (snap_owner_Some s o w Hwf Hw). split; [intros c; by eapply Hc|intros p; by eapply Hpe].
  - intros vs. rw (bind_const_Some _ _ True); [|intros os; split; [done|by eexists]].
    rw mapM_Some_all. split.
    + intros [Hos _] o w Hw. apply Hos. apply list_elem_of_fmap. exists (o, w). split; [done|]. by apply elem_of_sm_iter.
    + intros Hos. split; [|done]. intros w ([o w'] & -> & Hin)%list_elem_of_fmap. apply elem_of_sm_iter in Hin.
      by eapply Hos.
Qed.
End gc.

(** ** Worked lineages

    Integers for keys, payloads, identities and contexts.  Owner 0 visits
    entry 0 twice: visit 0 and, under it, visit 1. *)

Module Sample.
Local Open Scope Z_scope.

Definition lineage : Type := Stemma (M := counter_map) (K := Z) (E := Z) (O := Z) (X := Z).

Definition s0 : lineage := (ensure_owner stemma_new 1 None).1.
Definition s1 : lineage := (resolve_or_create_entry s0 100 7 5 LocalOnly).1.
Definition s2 : lineage := (visit_entry s1 0 0 0 UrlTyped 10).1.
Definition s3 : lineage := (visit_entry s2 0 0 0 LinkClick 20).1.

Lemma reachable_s2 : reachable s2.
Proof.
  apply (reachable_step s1); [|apply step_visit]. apply (reachable_step s0); [|apply step_resolve_entry].
  apply (reachable_step stemma_new); [apply reachable_new|apply step_ensure_owner].
Qed.

Lemma reachable_s3 : reachable s3.
Proof. apply (reachable_step s2); [apply reachable_s2|apply step_visit]. Qed.

Definition visit0 : VisitRecord Z :=
  mkVisit 0 None [1] 10 0 None {[0 := mkBinding (Some 1) 20]}.
Definition visit1 : VisitRecord Z :=
  mkVisit 0 (Some 0) [] 20 0 (Some (mkTransition LinkClick 20)) {[0 := mkBinding None 20]}.

Lemma s3_visits :
  sm_view (visits s3) !! 0 = Some visit0 ∧ sm_view (visits s3) !! 1 = Some visit1.
Proof. split; vm_compute; reflexivity. Qed.

Lemma temporal_integrity_witness :
  ∃ r r', sm_view (visits s2) !! 0 = Some r ∧ sm_view (visits s3) !! 0 = Some r' ∧
    vi_entry r' = vi_entry r ∧ vi_parent r' = vi_parent r ∧ created_at_ms r' = created_at_ms r ∧
    vi_context r' = vi_context r ∧ vi_inbound r' = vi_inbound r ∧
    vi_children r `prefix_of` vi_children r'.
Proof.
  destruct (sm_view (visits s2) !! 0) as [r|] eqn:E; [|vm_compute in E; discriminate].
  exists r, visit0. split; [reflexivity|]. split; [apply s3_visits|].
  apply (temporal_integrity s2 s3 0 r visit0 reachable_s2); [apply step_visit|exact E|apply s3_visits].
Defined.

Lemma reachable_links_live_witness :
  ∃ r, sm_view (visits s3) !! 1 = Some r ∧ is_Some (vi_bindings r !! 0).
Proof.
  destruct (reachable_links_live s3 reachable_s3) as [H _].
  destruct (sm_view (owners s3) !! 0) as [w|] eqn:E; [|vm_compute in E; discriminate].
  apply (H 0 w 1 E). left. vm_compute in E. injection E as <-. reflexivity.
Defined.

Lemma parent_chains_end_witness :
  (∃ root r, root_of s3 1 = Some (Ok root) ∧ sm_view (visits s3) !! root = Some r ∧ vi_parent r = None) ∨
  (∃ x, root_of s3 1 = Some (Err (MissingVisit x)) ∧ sm_view (visits s3) !! x = None).
Proof. apply (parent_chains_end s3 1 reachable_s3). Defined.

Lemma delete_owner_safe_witness :
  ∃ s' res, delete_owner s3 0 = Some (s', res) ∧
    ∀ v r', sm_view (visits s') !! v = Some r' →
      ∃ r, sm_view (visits s3) !! v = Some r ∧ r' = with_bindings (delete 0) r.
Proof.
  destruct (delete_owner_safe s3 0 reachable_s3) as (s' & res & H1 & H2 & _). exists s', res. split; [exact H1|exact H2].
Defined.

Lemma back_forward_roundtrip_witness :
  (back s3 0 1 30).2 = Ok (Some 0) ∧ (forward (back s3 0 1 30).1 0 1 40).2 = Ok (Some 1).
Proof.
  destruct (back_forward_roundtrip s3 0 1 visit1 0 30 40 reachable_s3) as (H1 & _ & H2 & _);
    [vm_compute; reflexivity|apply s3_visits|reflexivity|eexists; apply s3_visits|].
  split; [exact H1|exact H2].
Defined.

Lemma to_snapshot_total_witness :
  is_Some (to_snapshot s3) ↔
    (∀ v r p, sm_view (visits s3) !! v = Some r → vi_parent r = Some p → is_Some (sm_view (visits s3) !! p)) ∧
    (∀ o w c, sm_view (owners s3) !! o = Some w → ow_creator w = Some c → is_Some (sm_view (owners s3) !! c)) ∧
    (∀ o w p, sm_view (owners s3) !! o = Some w → pending_origin_parent w = Some p →
       is_Some (sm_view (visits s3) !! p)).
Proof. apply (to_snapshot_total s3 reachable_s3). Defined.

(** Owner 1 is spawned by owner 0, which is then deleted. *)
Definition spawned : lineage := (ensure_owner s3 2 (Some 0)).1.
Definition orphaned : option lineage := fst <$> delete_owner spawned 0.
Definition stranded : option lineage := (λ s, (visit_entry s 1 0 0 TabSpawn 50).1) <$> orphaned.

(** Deleting the owner that spawned another one leaves a lineage that can
    no longer be saved, although it could before. *)
Theorem saving_panics_after_deleting_a_creator :
  is_Some (to_snapshot s3) ∧ is_Some (to_snapshot spawned) ∧ to_snapshot <$> orphaned = Some None.
Proof. split_and!; [eexists; vm_compute; reflexivity..|vm_compute; reflexivity]. Qed.

(** What [delete_owner] of owner 1 returns in the stranded lineage, and whether
    owner 1 and visit 2 are still there afterwards. *)
Definition stranded_delete (s : lineage) : option (result StemmaError (list Z) * bool * bool) :=
  (λ d, (d.2, sm_contains (owners d.1) 1, sm_contains (visits d.1) 2)) <$> delete_owner s 1.

(** An owner that visited under a collected visit cannot be deleted: the
    call fails after removing the owner, and its visits stay for good. *)
Theorem deleting_a_stranded_owner_fails :
  (λ s, vi_parent <$> sm_get (visits s) 2) <$> stranded = Some (Some (Some 1)) ∧
  (λ s, sm_contains (visits s) 1) <$> stranded = Some false ∧
  stranded_delete <$> stranded = Some (Some (Err (MissingVisit 1), false, true)).
Proof. split_and!; vm_compute; reflexivity. Qed.

Lemma linear_loop_cycle (s : lineage) o a b :
  forward_of s a o = Some b → forward_of s b o = Some a →
  ∀ fuel out, linear_loop fuel s o a out = None ∧ linear_loop fuel s o b out = None.
Proof.
  intros Ha Hb. induction fuel as [|fuel IH]; intros out; cbn [linear_loop]; [done|].
  rw Ha Hb. split; apply IH.
Qed.

(** Rebinding owner 0 to the path from visit 1 up to visit 0, then going back. *)
Definition looped : lineage := (back (rebind_owner_to_path s3 0 [1; 0] 0 60).1 0 1 70).1.

(** Rebinding an owner to a path that runs against the tree and going
    back leaves forward links in a cycle, and the linear history of that owner
    never ends, whatever the fuel. *)
Theorem linear_history_can_loop :
  (rebind_owner_to_path s3 0 [1; 0] 0 60).2 = Ok tt ∧
  (∃ w, sm_view (owners looped) !! 0 = Some w ∧ ow_origin w = Some 1) ∧
  ∀ fuel, linear_loop fuel looped 0 1 [1] = None.
Proof.
  split_and!; [vm_compute; reflexivity|eexists; split; vm_compute; reflexivity|].
  intros fuel. apply (linear_loop_cycle looped 0 1 0); vm_compute; reflexivity.
Qed.
End Sample.
