(* ===== verification/StableGraph.v ===== *)
(** The interface of petgraph's [StableGraph], the third-party structure the
    graph spine keeps its payloads in.

    What petgraph documents: indices of live nodes and edges do not move when
    others are removed, an insertion picks an index that is not live (indices of
    removed elements may come back), removing a node removes its incident
    edges, and the iterators yield each live element once.  [add_edge] is only
    specified between live nodes (petgraph panics otherwise).

    [fresh_graph] is an instance. *)

From S2P Require Import Prelude.

Class StableGraph (G : Type → Type → Type) : Type := {
  sg_nodes : ∀ {N E}, G N E → gmap Z N;
  sg_edges : ∀ {N E}, G N E → gmap Z (Z * Z * E);
  sg_new : ∀ {N E}, G N E;
  add_node : ∀ {N E}, N → G N E → Z * G N E;
  set_node : ∀ {N E}, Z → N → G N E → G N E;
  remove_node : ∀ {N E}, Z → G N E → G N E;
  add_edge : ∀ {N E}, Z → Z → E → G N E → Z * G N E;
  set_edge : ∀ {N E}, Z → E → G N E → G N E;
  remove_edge : ∀ {N E}, Z → G N E → G N E;
  node_indices : ∀ {N E}, G N E → list Z;
  edges_out : ∀ {N E}, G N E → Z → list (Z * Z * E);
  edges_in : ∀ {N E}, G N E → Z → list (Z * Z * E);

  sg_nodes_new N E : sg_nodes (sg_new (N := N) (E := E)) = ∅;
  sg_edges_new N E : sg_edges (sg_new (N := N) (E := E)) = ∅;
  add_node_fresh N E (n : N) (g : G N E) : sg_nodes g !! (add_node n g).1 = None;
  sg_nodes_add_node N E (n : N) (g : G N E) :
    sg_nodes (add_node n g).2 = <[(add_node n g).1 := n]> (sg_nodes g);
  sg_edges_add_node N E (n : N) (g : G N E) : sg_edges (add_node n g).2 = sg_edges g;
  sg_nodes_set_node N E k (n : N) (g : G N E) :
    sg_nodes (set_node k n g) = alter (λ _, n) k (sg_nodes g);
  sg_edges_set_node N E k (n : N) (g : G N E) : sg_edges (set_node k n g) = sg_edges g;
  sg_nodes_remove_node N E k (g : G N E) : sg_nodes (remove_node k g) = delete k (sg_nodes g);
  sg_edges_remove_node N E k (g : G N E) i :
    sg_edges (remove_node k g) !! i =
      (e ← sg_edges g !! i; if decide (e.1.1 = k ∨ e.1.2 = k) then None else Some e);
  add_edge_fresh N E a b (w : E) (g : G N E) :
    is_Some (sg_nodes g !! a) → is_Some (sg_nodes g !! b) →
    sg_edges g !! (add_edge a b w g).1 = None;
  sg_edges_add_edge N E a b (w : E) (g : G N E) :
    is_Some (sg_nodes g !! a) → is_Some (sg_nodes g !! b) →
    sg_edges (add_edge a b w g).2 = <[(add_edge a b w g).1 := (a, b, w)]> (sg_edges g);
  sg_nodes_add_edge N E a b (w : E) (g : G N E) :
    is_Some (sg_nodes g !! a) → is_Some (sg_nodes g !! b) →
    sg_nodes (add_edge a b w g).2 = sg_nodes g;
  sg_edges_set_edge N E k (w : E) (g : G N E) :
    sg_edges (set_edge k w g) = alter (λ e, (e.1, w)) k (sg_edges g);
  sg_nodes_set_edge N E k (w : E) (g : G N E) : sg_nodes (set_edge k w g) = sg_nodes g;
  sg_edges_remove_edge N E k (g : G N E) : sg_edges (remove_edge k g) = delete k (sg_edges g);
  sg_nodes_remove_edge N E k (g : G N E) : sg_nodes (remove_edge k g) = sg_nodes g;
  node_indices_nodes N E (g : G N E) : node_indices g ≡ₚ (map_to_list (sg_nodes g)).*1;
  elem_of_edges_out N E (g : G N E) k e t w :
    (e, t, w) ∈ edges_out g k ↔ sg_edges g !! e = Some (k, t, w);
  elem_of_edges_in N E (g : G N E) k e f w :
    (e, f, w) ∈ edges_in g k ↔ sg_edges g !! e = Some (f, k, w);
  edges_out_NoDup N E (g : G N E) k : NoDup (edges_out g k)
}.

(** ** An instance *)

Record fresh_graph (N E : Type) : Type := mkFresh {
  fg_nodes : gmap Z N;
  fg_edges : gmap Z (Z * Z * E)
}.
Arguments mkFresh {N E}.
Arguments fg_nodes {N E}.
Arguments fg_edges {N E}.

(** One more than every key. *)
Definition next_key {V} (m : gmap Z V) : Z := (foldr Z.max (-1) (map_to_list m).*1 + 1)%Z.

Lemma next_key_fresh {V} (m : gmap Z V) : m !! next_key m = None.
Proof.
  apply eq_None_not_Some. intros [v Hv%elem_of_map_to_list].
  assert (∀ l k, k ∈ l → (k ≤ foldr Z.max (-1) l)%Z) as Hmax.
  { induction l as [|x l IH]; intros k; [by intros ?%elem_of_nil|].
    intros [->|Hk]%elem_of_cons; cbn; [lia|]. specialize (IH k Hk). lia. }
  assert (next_key m ∈ (map_to_list m).*1) as Hin.
  { apply list_elem_of_fmap. by exists (next_key m, v). }
  specialize (Hmax _ _ Hin). unfold next_key in Hmax. lia.
Qed.

Definition fg_out {N E} (g : fresh_graph N E) (k : Z) : list (Z * Z * E) :=
  omap (λ ie, if decide (ie.2.1.1 = k) then Some (ie.1, ie.2.1.2, ie.2.2) else None)
    (bt_iter (fg_edges g)).
Definition fg_in {N E} (g : fresh_graph N E) (k : Z) : list (Z * Z * E) :=
  omap (λ ie, if decide (ie.2.1.2 = k) then Some (ie.1, ie.2.1.1, ie.2.2) else None)
    (bt_iter (fg_edges g)).

Lemma elem_of_fg_out {N E} (g : fresh_graph N E) k e t w :
  (e, t, w) ∈ fg_out g k ↔ fg_edges g !! e = Some (k, t, w).
Proof.
  unfold fg_out. rw list_elem_of_omap. split.
  - intros ([i [[a b] x]] & Hin%elem_of_bt_iter & He). cbn in He. case_decide; [|done]. by simplify_eq.
  - intros He%elem_of_bt_iter. exists (e, (k, t, w)). split; [done|]. cbn. by rw decide_True.
Qed.

Lemma elem_of_fg_in {N E} (g : fresh_graph N E) k e f w :
  (e, f, w) ∈ fg_in g k ↔ fg_edges g !! e = Some (f, k, w).
Proof.
  unfold fg_in. rw list_elem_of_omap. split.
  - intros ([i [[a b] x]] & Hin%elem_of_bt_iter & He). cbn in He. case_decide; [|done]. by simplify_eq.
  - intros He%elem_of_bt_iter. exists (e, (f, k, w)). split; [done|]. cbn. by rw decide_True.
Qed.

Lemma fg_out_NoDup {N E} (g : fresh_graph N E) k : NoDup (fg_out g k).
Proof.
  unfold fg_out. pose proof (bt_iter_keys_NoDup (fg_edges g)) as Hn. revert Hn.
  generalize (bt_iter (fg_edges g)). intros l. induction l as [|[i [[a b] w]] l IH]; cbn; [constructor|].
  intros [Hi Hl]%NoDup_cons. case_decide; [|by apply IH]. constructor; [|by apply IH].
  intros ([i' [[a' b'] w']] & Hin & Hy)%list_elem_of_omap. cbn in Hy. case_decide; [|done].
  simplify_eq. apply Hi. by apply (list_elem_of_fmap_2 fst) in Hin.
Qed.

#[export] Instance fresh_stable_graph : StableGraph fresh_graph.
Proof.
  refine {|
    sg_nodes N E := fg_nodes;
    sg_edges N E := fg_edges;
    sg_new N E := mkFresh ∅ ∅;
    add_node N E n g := (next_key (fg_nodes g), mkFresh (<[next_key (fg_nodes g) := n]> (fg_nodes g)) (fg_edges g));
    set_node N E k n g := mkFresh (alter (λ _, n) k (fg_nodes g)) (fg_edges g);
    remove_node N E k g :=
      mkFresh (delete k (fg_nodes g))
        (omap (λ e, if decide (e.1.1 = k ∨ e.1.2 = k) then None else Some e) (fg_edges g));
    add_edge N E a b w g :=
      (next_key (fg_edges g), mkFresh (fg_nodes g) (<[next_key (fg_edges g) := (a, b, w)]> (fg_edges g)));
    set_edge N E k w g := mkFresh (fg_nodes g) (alter (λ e, (e.1, w)) k (fg_edges g));
    remove_edge N E k g := mkFresh (fg_nodes g) (delete k (fg_edges g));
    node_indices N E g := (bt_iter (fg_nodes g)).*1;
    edges_out N E := fg_out;
    edges_in N E := fg_in
  |}; try done.
  - intros. apply next_key_fresh.
  - intros N E k g i. cbn. rw lookup_omap. by destruct (fg_edges g !! i).
  - intros. apply next_key_fresh.
  - intros N E g. unfold bt_iter. by rw merge_sort_Permutation.
  - intros. apply elem_of_fg_out.
  - intros. apply elem_of_fg_in.
  - intros. apply fg_out_NoDup.
Defined.
