(* ===== verification/GraphLog.v ===== *)
(** The graph and its edit spine
    (crates/eidetic/chartulary/src/{graph,edit,facet,commit,spine}.rs).

    [Graph] is the identity-indexed graph over any [StableGraph]; [GraphLog] is
    the event-sourced graph: the materialization, the journal of attributed
    batches, the edge bookkeeping, derivations and facets.  [apply_edit] is the
    one mutation path of live editing and replay, [commit_batch] the whole
    attributed commit (revision check, precheck, lowering, application, append).
    [take_snapshot], [load_snapshot] and [load_checkpointed] are the value level
    of snapshot.rs's slots; [Persist] puts them in a store.

    Payloads [N], [E], identities [Id], facet ids [F] and facet values [V] are
    parameters, as in the source; [node_id] is the [Identified] capability. *)

From S2P Require Import Prelude Journal StableGraph.

Local Open Scope Z_scope.

(** ** Identities (edit.rs) *)

Abbreviation WriterId := Z (only parsing).
Definition WriterId_LOCAL : WriterId := 0.
Definition is_local (w : WriterId) : bool := bool_decide (w = WriterId_LOCAL).

Record EdgeId : Type := mkEdgeId { ei_writer : WriterId; ei_counter : Z }.
Definition EdgeId_local (counter : Z) : EdgeId := mkEdgeId WriterId_LOCAL counter.

#[export] Instance EdgeId_eq_dec : EqDecision EdgeId.
Proof. solve_decision. Defined.
#[export] Instance EdgeId_countable : Countable EdgeId.
Proof.
  apply (inj_countable' (λ e, (ei_writer e, ei_counter e)) (λ p, mkEdgeId p.1 p.2)). by intros [].
Defined.

Inductive DerivationKind : Type := CopiedFrom | ClippedFrom | GeneratedFrom | TranslatedFrom.

Record DerivationRecord (Id : Type) : Type := mkDerivation {
  source_log : LogId;
  source_node : Id;
  der_kind : DerivationKind
}.
Arguments mkDerivation {Id}.
Arguments source_log {Id}.
Arguments source_node {Id}.
Arguments der_kind {Id}.

Abbreviation Author := string (only parsing).
Definition pre_gate : Author := "pre-gate"%string.

Section graph.
Context {G : Type → Type → Type} `{StableGraph G}.
Context {N E Id F V : Type} `{Countable Id} `{Countable F}.
Context (node_id : N → Id).

(** ** Facets (facet.rs) *)

Abbreviation FacetStore := (gmap Id (gmap F V)) (only parsing).

Record FacetError : Type := mkFacetError { fe_facet : F; fe_reason : string }.

Definition facet_set (st : FacetStore) (node : Id) (facet : F) (value : V)
    (validate : F → V → result FacetError unit) : result FacetError FacetStore :=
  match validate facet value with
  | Err e => Err e
  | Ok _ => Ok (<[node := <[facet := value]> (default ∅ (st !! node))]> st)
  end.

Definition accept_all (_ : F) (_ : V) : result FacetError unit := Ok tt.

Definition facet_get (st : FacetStore) (node : Id) (facet : F) : option V := st !! node ≫= (.!! facet).

Definition facet_remove (st : FacetStore) (node : Id) (facet : F) : option V * FacetStore :=
  match st !! node with
  | None => (None, st)
  | Some fs =>
      let fs' := delete facet fs in
      (fs !! facet, if bool_decide (fs' = ∅) then delete node st else <[node := fs']> st)
  end.

Definition facet_remove_node (st : FacetStore) (node : Id) : FacetStore := delete node st.

Definition facet_overlay (st other : FacetStore) : FacetStore :=
  union_with (λ mine theirs, Some (theirs ∪ mine)) st other.

(** ** The graph (graph.rs) *)

Record Graph : Type := mkGraph { inner : G N E; by_id : gmap Id Z }.

Definition graph_new : Graph := mkGraph sg_new ∅.

Definition key_of (g : Graph) (id : Id) : option Z := by_id g !! id.

Definition graph_insert (g : Graph) (n : N) : Z * Graph :=
  match by_id g !! node_id n with
  | Some key => (key, mkGraph (set_node key n (inner g)) (by_id g))
  | None => let '(key, i) := add_node n (inner g) in (key, mkGraph i (<[node_id n := key]> (by_id g)))
  end.

Definition graph_node (g : Graph) (key : Z) : option N := sg_nodes (inner g) !! key.

Definition graph_get (g : Graph) (id : Id) : option N := key_of g id ≫= graph_node g.

Definition graph_remove (g : Graph) (key : Z) : option N * Graph :=
  let removed := sg_nodes (inner g) !! key in
  (removed, mkGraph (remove_node key (inner g))
              (match removed with Some n => delete (node_id n) (by_id g) | None => by_id g end)).

Definition graph_connect (g : Graph) (from to : Z) (edge : E) : Z * Graph :=
  let '(key, i) := add_edge from to edge (inner g) in (key, mkGraph i (by_id g)).

Definition graph_edge (g : Graph) (key : Z) : option E := snd <$> sg_edges (inner g) !! key.

Definition graph_disconnect (g : Graph) (key : Z) : option E * Graph :=
  (graph_edge g key, mkGraph (remove_edge key (inner g)) (by_id g)).

Definition graph_nodes (g : Graph) : list (Z * N) :=
  omap (λ k, (λ n, (k, n)) <$> graph_node g k) (node_indices (inner g)).

(** [sort] and [dedup] of the incident edges in both directions. *)
Definition incident_edges (g : Graph) (key : Z) : list Z :=
  merge_sort (≤) (elements (list_to_set (C := gset Z)
    ((λ e, e.1.1) <$> (edges_out (inner g) key ++ edges_in (inner g) key)))).

(** The index [Deserialize] rebuilds. *)
Definition rebuild_index (i : G N E) : Graph :=
  mkGraph i (fold_left (λ m k, match sg_nodes i !! k with Some n => <[node_id n := k]> m | None => m end)
               (node_indices i) ∅).

(** ** Edits (edit.rs, commit.rs) *)

Inductive GraphEdit : Type :=
| InsertNode (n : N)
| RemoveNode (id : Id)
| Connect (id : EdgeId) (from to : Id) (edge : E)
| Disconnect (id : EdgeId)
| Derive (node : Id) (from : DerivationRecord Id)
| SetFacet (node : Id) (facet : F) (value : V)
| RemoveFacet (node : Id) (facet : F).

Record Batch : Type := mkBatch { ba_author : Author; ba_edits : list GraphEdit }.

Inductive EditSpec : Type :=
| SpInsertNode (n : N)
| SpRemoveNode (id : Id)
| SpConnect (from to : Id) (edge : E)
| SpDisconnect (id : EdgeId)
| SpDerive (node : Id) (from : DerivationRecord Id)
| SpSetFacet (node : Id) (facet : F) (value : V)
| SpRemoveFacet (node : Id) (facet : F).

Inductive CommitError : Type :=
| RevisionConflict (current : Z)
| UnknownNode (id : Id)
| UnknownEdge (id : EdgeId)
| SelfBearing (log : LogId).

Record Committed : Type := mkCommitted { cm_batch : Z; cm_edges : list EdgeId }.

(** ** The spine (spine.rs) *)

Record GraphLog : Type := mkLog {
  graph : Graph;
  log : Journal Batch;
  by_edge_id : gmap EdgeId Z;
  by_edge_key : gmap Z EdgeId;
  derivations : gmap Id (list (DerivationRecord Id));
  facets : FacetStore;
  writer : WriterId;
  next_edge : Z
}.

Definition log_new : GraphLog := mkLog graph_new journal_new ∅ ∅ ∅ ∅ WriterId_LOCAL 0.

Definition log_with_id (id : LogId) : GraphLog :=
  mkLog graph_new (journal_with_id id) ∅ ∅ ∅ ∅ WriterId_LOCAL 0.

Definition set_graph g l :=
  mkLog g (log l) (by_edge_id l) (by_edge_key l) (derivations l) (facets l) (writer l) (next_edge l).
Definition set_log j l :=
  mkLog (graph l) j (by_edge_id l) (by_edge_key l) (derivations l) (facets l) (writer l) (next_edge l).
Definition set_edges i k l :=
  mkLog (graph l) (log l) i k (derivations l) (facets l) (writer l) (next_edge l).
Definition set_derivations d l :=
  mkLog (graph l) (log l) (by_edge_id l) (by_edge_key l) d (facets l) (writer l) (next_edge l).
Definition set_facets f l :=
  mkLog (graph l) (log l) (by_edge_id l) (by_edge_key l) (derivations l) f (writer l) (next_edge l).
Definition set_next n l :=
  mkLog (graph l) (log l) (by_edge_id l) (by_edge_key l) (derivations l) (facets l) (writer l) n.
Definition set_writer w n l :=
  mkLog (graph l) (log l) (by_edge_id l) (by_edge_key l) (derivations l) (facets l) w n.

(** The counters after the connects [w] minted. *)
Definition minted_after (w : WriterId) (e : GraphEdit) : option Z :=
  match e with
  | Connect id _ _ _ => if bool_decide (ei_writer id = w) then Some (saturating_add (ei_counter id) 1) else None
  | _ => None
  end.

Definition for_writer (l : GraphLog) (w : WriterId) : GraphLog :=
  set_writer w (foldr Z.max 0 (omap (minted_after w) (mbind ba_edits (j_entries (log l))))) l.

Definition revision (l : GraphLog) : Z := Z.of_nat (journal_len (log l)).
Definition edge_key (l : GraphLog) (id : EdgeId) : option Z := by_edge_id l !! id.
Definition derivations_of (l : GraphLog) (id : Id) : list (DerivationRecord Id) :=
  default [] (derivations l !! id).

(** The reaping loop of a node removal. *)
Definition reap_edge (l : GraphLog) (k : Z) : GraphLog :=
  match by_edge_key l !! k with
  | Some id => set_edges (delete id (by_edge_id l)) (delete k (by_edge_key l)) l
  | None => l
  end.

Definition apply_edit (l : GraphLog) (e : GraphEdit) : GraphLog :=
  match e with
  | InsertNode n => set_graph (graph_insert (graph l) n).2 l
  | RemoveNode id =>
      let l1 := match key_of (graph l) id with
                | Some key =>
                    let l' := fold_left reap_edge (incident_edges (graph l) key) l in
                    set_graph (graph_remove (graph l') key).2 l'
                | None => l
                end in
      set_facets (facet_remove_node (facets l1) id) (set_derivations (delete id (derivations l1)) l1)
  | Connect id from to edge =>
      let l1 := match key_of (graph l) from, key_of (graph l) to with
                | Some from_key, Some to_key =>
                    let '(k, g) := graph_connect (graph l) from_key to_key edge in
                    set_edges (<[id := k]> (by_edge_id l)) (<[k := id]> (by_edge_key l)) (set_graph g l)
                | _, _ => l
                end in
      if bool_decide (ei_writer id = writer l1)
      then set_next (Z.max (next_edge l1) (wrap64 (ei_counter id + 1))) l1 else l1
  | Disconnect id =>
      match by_edge_id l !! id with
      | Some k => set_graph (graph_disconnect (graph l) k).2
                    (set_edges (delete id (by_edge_id l)) (delete k (by_edge_key l)) l)
      | None => l
      end
  | Derive node from =>
      set_derivations (<[node := derivations_of l node ++ [from]]> (derivations l)) l
  | SetFacet node facet value =>
      match key_of (graph l) node with
      | Some _ => match facet_set (facets l) node facet value accept_all with
                  | Ok st => set_facets st l
                  | Err _ => l
                  end
      | None => l
      end
  | RemoveFacet node facet =>
      match key_of (graph l) node with
      | Some _ => set_facets (facet_remove (facets l) node facet).2 l
      | None => l
      end
  end.

Definition apply_batch (l : GraphLog) (b : Batch) : GraphLog := fold_left apply_edit (ba_edits b) l.

(** ** Commits (commit.rs) *)

(** The batch-local view of the precheck. *)
Record Precheck : Type := mkPrecheck {
  added : gset Id;
  removed : gset Id;
  dropped_edges : gset EdgeId
}.

Definition present (l : GraphLog) (p : Precheck) (id : Id) : bool :=
  negb (bool_decide (id ∈ removed p)) &&
  (bool_decide (id ∈ added p) || match key_of (graph l) id with Some _ => true | None => false end).

Definition require (l : GraphLog) (p : Precheck) (id : Id) : result CommitError unit :=
  if present l p id then Ok tt else Err (UnknownNode id).

Definition check_spec (l : GraphLog) (p : Precheck) (sp : EditSpec) : result CommitError Precheck :=
  match sp with
  | SpInsertNode n =>
      Ok (mkPrecheck ({[node_id n]} ∪ added p) (removed p ∖ {[node_id n]}) (dropped_edges p))
  | SpRemoveNode id =>
      match require l p id with
      | Err e => Err e
      | Ok _ => Ok (mkPrecheck (added p ∖ {[id]}) ({[id]} ∪ removed p) (dropped_edges p))
      end
  | SpConnect from to _ =>
      match require l p from with
      | Err e => Err e
      | Ok _ => match require l p to with Err e => Err e | Ok _ => Ok p end
      end
  | SpDisconnect id =>
      if bool_decide (id ∈ dropped_edges p) || match edge_key l id with Some _ => false | None => true end
      then Err (UnknownEdge id)
      else Ok (mkPrecheck (added p) (removed p) ({[id]} ∪ dropped_edges p))
  | SpDerive node _ | SpSetFacet node _ _ | SpRemoveFacet node _ =>
      match require l p node with Err e => Err e | Ok _ => Ok p end
  end.

Fixpoint check_specs (l : GraphLog) (p : Precheck) (specs : list EditSpec) : result CommitError Precheck :=
  match specs with
  | [] => Ok p
  | sp :: rest => match check_spec l p sp with Err e => Err e | Ok p' => check_specs l p' rest end
  end.

(** Lowering: the edits, the minted ids and the counter afterwards. *)
Fixpoint lower (w : WriterId) (next : Z) (specs : list EditSpec) : list GraphEdit * list EdgeId * Z :=
  match specs with
  | [] => ([], [], next)
  | sp :: rest =>
      match sp with
      | SpConnect from to edge =>
          let id := mkEdgeId w next in
          let '(edits, minted, n) := lower w (wrap64 (next + 1)) rest in
          (Connect id from to edge :: edits, id :: minted, n)
      | _ =>
          let e := match sp with
                   | SpInsertNode n => InsertNode n
                   | SpRemoveNode id => RemoveNode id
                   | SpDisconnect id => Disconnect id
                   | SpDerive node from => Derive node from
                   | SpSetFacet node facet value => SetFacet node facet value
                   | SpRemoveFacet node facet => RemoveFacet node facet
                   | SpConnect from to edge => Connect (mkEdgeId w next) from to edge
                   end in
          let '(edits, minted, n) := lower w next rest in (e :: edits, minted, n)
      end
  end.

Definition commit_batch (l : GraphLog) (author : Author) (expected : Z) (specs : list EditSpec)
  : GraphLog * result CommitError Committed :=
  if bool_decide (expected ≠ revision l) then (l, Err (RevisionConflict (revision l)))
  else match check_specs l (mkPrecheck ∅ ∅ ∅) specs with
       | Err e => (l, Err e)
       | Ok _ =>
           let '(edits, minted, n) := lower (writer l) (next_edge l) specs in
           let batch := mkBatch author edits in
           let l1 := apply_batch (set_next n l) batch in
           let '(seq, j) := append (log l1) batch in
           (set_log j l1, Ok (mkCommitted (Z.of_nat seq) minted))
       end.

Definition commit_one (l : GraphLog) (author : Author) (sp : EditSpec) : GraphLog * option Committed :=
  match commit_batch l author (revision l) [sp] with
  | (l', Ok c) => (l', Some c)
  | (l', Err _) => (l', None)
  end.

(** [insert_node]: [None] would be one of its two [expect]s failing. *)
Definition insert_node (l : GraphLog) (author : Author) (n : N) : GraphLog * option Z :=
  match commit_one l author (SpInsertNode n) with
  | (l', Some _) => (l', key_of (graph l') (node_id n))
  | (l', None) => (l', None)
  end.
Definition remove_node_by_id (l : GraphLog) (author : Author) (id : Id) : GraphLog :=
  (commit_one l author (SpRemoveNode id)).1.
Definition connect (l : GraphLog) (author : Author) (from to : Id) (edge : E) : GraphLog * option EdgeId :=
  match commit_one l author (SpConnect from to edge) with
  | (l', Some c) => (l', head (cm_edges c))
  | (l', None) => (l', None)
  end.
Definition disconnect (l : GraphLog) (author : Author) (id : EdgeId) : GraphLog * bool :=
  match commit_one l author (SpDisconnect id) with (l', Some _) => (l', true) | (l', None) => (l', false) end.
Definition derive (l : GraphLog) (author : Author) (node : Id) (from : DerivationRecord Id) : GraphLog :=
  (commit_one l author (SpDerive node from)).1.
Definition set_facet (l : GraphLog) (author : Author) (node : Id) (facet : F) (value : V) : GraphLog * bool :=
  match commit_one l author (SpSetFacet node facet value) with
  | (l', Some _) => (l', true) | (l', None) => (l', false) end.
Definition remove_facet (l : GraphLog) (author : Author) (node : Id) (facet : F) : GraphLog * bool :=
  match commit_one l author (SpRemoveFacet node facet) with
  | (l', Some _) => (l', true) | (l', None) => (l', false) end.

(** ** Replay, forks, snapshots (spine.rs) *)

Definition replay_for_writer (j : Journal Batch) (w : WriterId) : GraphLog :=
  set_log j (fold_left apply_batch (j_entries j) (for_writer log_new w)).

Definition replay_local (j : Journal Batch) : GraphLog := replay_for_writer j WriterId_LOCAL.

Definition log_fork (l : GraphLog) (new_id : LogId) : GraphLog := replay_local (journal_fork (log l) new_id).

Definition migrate_pre_gate (legacy : Journal GraphEdit) : Journal Batch :=
  fold_left (λ j e, (append j (mkBatch pre_gate [e])).2) (j_entries legacy)
    (match j_id legacy with Some id => journal_with_id id | None => journal_new end).

Record Snapshot : Type := mkGraphSnapshot {
  sp_nodes : list N;
  sp_edges : list (EdgeId * Id * Id * E);
  sp_derivations : list (Id * DerivationRecord Id);
  sp_facets : FacetStore;
  sp_writer : WriterId;
  sp_next_edge : Z;
  sp_at_seq : nat
}.

(** The edges of one node, with the ids of their endpoints; [None] would be the
    [expect] on a missing target. *)
Definition node_edges (l : GraphLog) (kn : Z * N) : option (list (EdgeId * Id * Id * E)) :=
  mapM id (omap (λ e, (λ eid, (λ t, (eid, node_id kn.2, node_id t, e.2)) <$> graph_node (graph l) e.1.2)
                      <$> by_edge_key l !! e.1.1) (edges_out (inner (graph l)) kn.1)).

Definition take_snapshot (l : GraphLog) : option Snapshot :=
  edges ← mapM (node_edges l) (graph_nodes (graph l));
  Some (mkGraphSnapshot (snd <$> graph_nodes (graph l)) (mjoin edges)
          (mbind (λ nd, (λ r, (nd.1, r)) <$> nd.2) (map_to_list (derivations l)))
          (facets l) (writer l) (next_edge l) (journal_len (log l))).

Definition load_edge (l : GraphLog) (e : EdgeId * Id * Id * E) : GraphLog :=
  let '(id, from, to, w) := e in
  match key_of (graph l) from, key_of (graph l) to with
  | Some from_key, Some to_key =>
      let '(k, g) := graph_connect (graph l) from_key to_key w in
      set_edges (<[id := k]> (by_edge_id l)) (<[k := id]> (by_edge_key l)) (set_graph g l)
  | _, _ => l
  end.

Definition load_derivation (l : GraphLog) (nd : Id * DerivationRecord Id) : GraphLog :=
  set_derivations (<[nd.1 := derivations_of l nd.1 ++ [nd.2]]> (derivations l)) l.

Definition load_snapshot (sn : Snapshot) : GraphLog * nat :=
  let l1 := fold_left (λ l n, set_graph (graph_insert (graph l) n).2 l) (sp_nodes sn) log_new in
  let l2 := fold_left load_edge (sp_edges sn) l1 in
  let l3 := fold_left load_derivation (sp_derivations sn) l2 in
  (set_writer (sp_writer sn) (sp_next_edge sn) (set_facets (sp_facets sn) l3), sp_at_seq sn).

Definition load_checkpointed (snapshot : option Snapshot) (j : Journal Batch) : GraphLog :=
  let '(l, tail_start) := match snapshot with Some sn => load_snapshot sn | None => (log_new, 0%nat) end in
  set_log j (fold_left apply_batch (journal_from j tail_start) l).
End graph.
