(* ===== verification/GraphSpec.v ===== *)
(** What the graph spine promises, and that it keeps it.

    [AGraph] is the abstract graph: nodes by identity, edges by stable id with
    the identities of their endpoints, derivations and facets; [a_apply] is what
    an edit means there.  [abs] reads the abstract graph out of a [GraphLog].
    [log_wf] is the invariant of the bookkeeping: the identity index and the two
    edge indices are exact.  [apply_edit_refines] is the simulation: on a
    well-formed log, an edit whose edge id is fresh preserves the invariant and
    commutes with [abs].

    From it: a committed log is its own replay, every committed edit finds its
    nodes, minted edge ids are fresh, and a checkpoint plus the tail of the log
    loads to the same abstract graph as the whole log, whatever keys petgraph
    hands out. *)

From S2P Require Import Prelude Journal StableGraph GraphLog.

Local Open Scope Z_scope.

Section spec.
Context {G : Type → Type → Type} `{StableGraph G}.
Context {N E Id F V : Type} `{Countable Id} `{Countable F}.
Context (node_id : N → Id).

Abbreviation Log := (GraphLog (G := G) (N := N) (E := E) (Id := Id) (F := F) (V := V)).
Abbreviation Edit := (GraphEdit (N := N) (E := E) (Id := Id) (F := F) (V := V)).
Implicit Types l : Log.

Abbreviation nodes l := (sg_nodes (inner (graph l))).
Abbreviation edges l := (sg_edges (inner (graph l))).
Abbreviation ids l := (by_id (graph l)).

(** ** The abstract graph *)

Record AGraph : Type := mkAGraph {
  a_nodes : gmap Id N;
  a_edges : gmap EdgeId (Id * Id * E);
  a_derivations : gmap Id (list (DerivationRecord Id));
  a_facets : gmap Id (gmap F V)
}.

Definition a_apply (a : AGraph) (e : Edit) : AGraph :=
  match e with
  | InsertNode n => mkAGraph (<[node_id n := n]> (a_nodes a)) (a_edges a) (a_derivations a) (a_facets a)
  | RemoveNode id =>
      mkAGraph (delete id (a_nodes a)) (filter (λ ie, ie.2.1.1 ≠ id ∧ ie.2.1.2 ≠ id) (a_edges a))
        (delete id (a_derivations a)) (delete id (a_facets a))
  | Connect i from to w =>
      match a_nodes a !! from, a_nodes a !! to with
      | Some _, Some _ =>
          mkAGraph (a_nodes a) (<[i := (from, to, w)]> (a_edges a)) (a_derivations a) (a_facets a)
      | _, _ => a
      end
  | Disconnect i => mkAGraph (a_nodes a) (delete i (a_edges a)) (a_derivations a) (a_facets a)
  | Derive node from =>
      mkAGraph (a_nodes a) (a_edges a)
        (<[node := default [] (a_derivations a !! node) ++ [from]]> (a_derivations a)) (a_facets a)
  | SetFacet node facet value =>
      match a_nodes a !! node with
      | Some _ => mkAGraph (a_nodes a) (a_edges a) (a_derivations a)
                    (<[node := <[facet := value]> (default ∅ (a_facets a !! node))]> (a_facets a))
      | None => a
      end
  | RemoveFacet node facet =>
      match a_nodes a !! node with
      | Some _ => mkAGraph (a_nodes a) (a_edges a) (a_derivations a) (facet_remove (a_facets a) node facet).2
      | None => a
      end
  end.

Definition end_ids l (w : Z * Z * E) : option (Id * Id * E) :=
  f ← nodes l !! w.1.1; t ← nodes l !! w.1.2; Some (node_id f, node_id t, w.2).

Definition abs l : AGraph :=
  mkAGraph (omap (λ k, nodes l !! k) (ids l))
    (omap (λ k, edges l !! k ≫= end_ids l) (by_edge_id l)) (derivations l) (facets l).

(** ** The bookkeeping invariant *)

Record log_wf l : Prop := {
  lw_ids i k : ids l !! i = Some k ↔ ∃ n, nodes l !! k = Some n ∧ node_id n = i;
  lw_edge_ids i k : by_edge_id l !! i = Some k ↔ by_edge_key l !! k = Some i;
  lw_edge_live k : is_Some (by_edge_key l !! k) ↔ is_Some (edges l !! k);
  lw_ends k a b w : edges l !! k = Some (a, b, w) → is_Some (nodes l !! a) ∧ is_Some (nodes l !! b)
}.

Lemma abs_node l i : a_nodes (abs l) !! i = ids l !! i ≫= λ k, nodes l !! k.
Proof. cbn. by rw lookup_omap. Qed.

Lemma abs_edge l i : a_edges (abs l) !! i = by_edge_id l !! i ≫= λ k, edges l !! k ≫= end_ids l.
Proof. cbn. by rw lookup_omap. Qed.

Lemma key_of_abs l i : log_wf l → is_Some (ids l !! i) ↔ is_Some (a_nodes (abs l) !! i).
Proof.
  intros Hw. rw abs_node. split.
  - intros [k Hk]. pose proof Hk as (n & Hn & _)%(lw_ids l Hw). rw Hk. cbn. by exists n.
  - intros [n Hn]. destruct (ids l !! i); [by eexists|done].
Qed.

Lemma agraph_eq (a b : AGraph) :
  a_nodes a = a_nodes b → a_edges a = a_edges b → a_derivations a = a_derivations b →
  a_facets a = a_facets b → a = b.
Proof. destruct a, b; cbn. by intros -> -> -> ->. Qed.

(** Two logs over the same graph and edge indices. *)
Lemma log_wf_same l l' :
  graph l' = graph l → by_edge_id l' = by_edge_id l → by_edge_key l' = by_edge_key l →
  log_wf l → log_wf l'.
Proof. intros Hg Hi Hk [T1 T2 T3 T4]. split; rw ?Hg ?Hi ?Hk; done. Qed.

Lemma abs_same l l' :
  graph l' = graph l → by_edge_id l' = by_edge_id l → derivations l' = derivations l →
  facets l' = facets l → abs l' = abs l.
Proof. intros Hg Hi Hd Hf. unfold abs, end_ids. by rw Hg Hi Hd Hf. Qed.

(** ** Inserting a node *)

Lemma node_key_unique l k k' n n' :
  log_wf l → nodes l !! k = Some n → nodes l !! k' = Some n' → node_id n = node_id n' → k = k'.
Proof.
  intros Hw Hk Hk' He. assert (ids l !! node_id n = Some k) as H1' by (apply (lw_ids l Hw); eauto).
  assert (ids l !! node_id n = Some k') as H2' by (rw He; apply (lw_ids l Hw); eauto). congruence.
Qed.

Lemma insert_refines l n :
  log_wf l →
  let l' := set_graph (graph_insert node_id (graph l) n).2 l in
  log_wf l' ∧ abs l' = a_apply (abs l) (InsertNode n).
Proof.
  intros Hw l'. destruct Hw as [T1 T2 T3 T4] eqn:HW. clear HW. unfold l', graph_insert.
  destruct (ids l !! node_id n) as [k|] eqn:Ei.
  - (* upsert *)
    pose proof Ei as (n0 & Hn0 & Hid0)%T1. cbn.
    assert (∀ i, nodes (set_graph (mkGraph (set_node k n (inner (graph l))) (ids l)) l) !! i =
      if decide (i = k) then Some n else nodes l !! i) as HN.
    { intros i. cbn. rw sg_nodes_set_node. case_decide as Hik; [subst; by rw lookup_alter_eq Hn0|by rw lookup_alter_ne]. }
    split.
    + split; cbn; rw ?sg_edges_set_node; try done.
      * intros i k'. cbn in HN. rw HN. case_decide as Hk; [subst k'|apply T1].
        split; [|by intros (n' & [= <-] & <-)]. intros Hi. exists n. split; [done|].
        apply T1 in Hi as (n' & ? & ?). congruence.
      * intros k' a b w He. cbn in HN. rw !HN. destruct (T4 k' a b w He) as [Ha Hb].
        by repeat case_decide.
    + apply agraph_eq; cbn; try done.
      * apply map_eq. intros i. cbn in HN. rw lookup_omap. destruct (decide (i = node_id n)) as [->|Hi].
        -- rw lookup_insert_eq Ei. cbn. by rw HN decide_True.
        -- rw lookup_insert_ne // lookup_omap. destruct (ids l !! i) as [k'|] eqn:E'; [cbn|done].
           rw HN decide_False //. intros ->. apply T1 in E' as (n' & ? & ?). congruence.
      * apply map_eq. intros i. rw !lookup_omap. destruct (by_edge_id l !! i) as [k'|]; [cbn|done].
        rw sg_edges_set_node. destruct (edges l !! k') as [[[a b] w]|] eqn:Ee; [cbn|done].
        assert (∀ k0 m0, nodes l !! k0 = Some m0 → ∃ m1,
          (if decide (k0 = k) then Some n else nodes l !! k0) = Some m1 ∧ node_id m1 = node_id m0) as Hsame.
        { intros k0 m0 Hm0. case_decide as Hk0; [exists n|by exists m0]. split; [done|]. subst. congruence. }
        unfold end_ids; cbn in *. rw !HN. destruct (T4 _ _ _ _ Ee) as [[na Ha] [nb Hb]].
        destruct (Hsame a na Ha) as (ma & -> & Hma), (Hsame b nb Hb) as (mb & -> & Hmb).
        rw Ha Hb. cbn. by rw Hma Hmb.
  - (* a new node *)
    pose proof (add_node_fresh _ _ n (inner (graph l))) as Hf. pose proof (sg_nodes_add_node _ _ n (inner (graph l))) as HN.
    pose proof (sg_edges_add_node _ _ n (inner (graph l))) as HE. destruct (add_node n (inner (graph l))) as [k g]. cbn in *.
    assert (∀ k', is_Some (nodes l !! k') → k' ≠ k) as Hne by (intros k' [? ?] ->; congruence).
    split.
    + split; cbn; rw ?HE; try done.
      * intros i k'. rw HN lookup_insert_Some. split.
        -- intros [[<- <-]|[Hi Hk']]; [exists n; by rw lookup_insert_eq|].
           apply T1 in Hk' as (n' & Hn' & <-). exists n'. split; [|done].
           rw lookup_insert_ne //. intros <-. congruence.
        -- intros (n' & Hn' & <-). apply lookup_insert_Some in Hn' as [[<- <-]|[Hk' Hn']]; [by left|]. right.
           assert (ids l !! node_id n' = Some k') as Hin by (apply T1; eauto). split; [congruence|done].
      * intros k' a b w He. rw HN. destruct (T4 k' a b w He) as [Ha Hb].
        rw !lookup_insert_ne; [done|..]; intros <-; by apply (Hne k).
    + apply agraph_eq; cbn; try done.
      * apply map_eq. intros i. rw lookup_omap HN. destruct (decide (i = node_id n)) as [->|Hi].
        -- rw !lookup_insert_eq. cbn. by rw lookup_insert_eq.
        -- rw !(lookup_insert_ne _ (node_id n)) // lookup_omap. destruct (ids l !! i) as [k'|] eqn:E'; [cbn|done].
           rw lookup_insert_ne //. intros ->. apply T1 in E' as (n' & ? & _). congruence.
      * apply map_eq. intros i. rw !lookup_omap. destruct (by_edge_id l !! i) as [k'|]; [cbn|done].
        rw HE. destruct (edges l !! k') as [[[a b] w]|] eqn:Ee; [cbn|done].
        unfold end_ids; cbn. rw HN. destruct (T4 _ _ _ _ Ee) as [Ha Hb].
        rw !lookup_insert_ne; [done|..]; intros <-; by apply (Hne k).
Qed.

(** ** Removing a node *)

Lemma elem_of_incident (g : Graph (G := G) (N := N) (E := E) (Id := Id)) key k :
  k ∈ incident_edges g key ↔
  ∃ e, sg_edges (inner g) !! k = Some e ∧ (e.1.1 = key ∨ e.1.2 = key).
Proof.
  unfold incident_edges. rw merge_sort_Permutation elem_of_elements elem_of_list_to_set list_elem_of_fmap. split.
  - intros ([[k' o] w] & -> & [Hin|Hin]%elem_of_app); cbn.
    + apply elem_of_edges_out in Hin. exists (key, o, w). auto.
    + apply elem_of_edges_in in Hin. exists (o, key, w). auto.
  - intros ([[a b] w] & He & Hor). cbn in Hor. destruct (decide (a = key)) as [->|Hne].
    + exists (k, b, w). split; [done|]. apply elem_of_app. left. by apply elem_of_edges_out.
    + destruct Hor as [?| ->]; [done|]. exists (k, a, w). split; [done|]. apply elem_of_app. right.
      by apply elem_of_edges_in.
Qed.

Definition edge_bijection l : Prop := ∀ i k, by_edge_id l !! i = Some k ↔ by_edge_key l !! k = Some i.

Lemma reap_spec ks l :
  edge_bijection l →
  let l' := fold_left reap_edge ks l in
  edge_bijection l' ∧ graph l' = graph l ∧ log l' = log l ∧ derivations l' = derivations l ∧
  facets l' = facets l ∧ writer l' = writer l ∧ next_edge l' = next_edge l ∧
  ∀ k, by_edge_key l' !! k = if decide (k ∈ ks) then None else by_edge_key l !! k.
Proof.
  revert l. induction ks as [|x ks IH]; intros l Hb l'; subst l'; cbn.
  { split_and!; try done. }
  assert (edge_bijection (reap_edge l x) ∧ graph (reap_edge l x) = graph l ∧ log (reap_edge l x) = log l ∧
    derivations (reap_edge l x) = derivations l ∧ facets (reap_edge l x) = facets l ∧
    writer (reap_edge l x) = writer l ∧ next_edge (reap_edge l x) = next_edge l ∧
    ∀ k, by_edge_key (reap_edge l x) !! k = if decide (k = x) then None else by_edge_key l !! k)
    as (Hb1 & Hg & Hl & Hd & Hf & Hw & Hn & Hk).
  { unfold reap_edge. destruct (by_edge_key l !! x) as [i|] eqn:Ex; cbn; (split_and!; try done).
    - intros i' k. cbn. rw !lookup_delete_Some Hb. split; intros [Hne Hk]; (split; [|done]); [congruence|].
      intros <-. apply Hne. apply Hb in Ex, Hk. congruence.
    - intros k. case_decide as Hkx; [subst; by rw lookup_delete_eq|by rw lookup_delete_ne].
    - intros k. case_decide; [by subst|done]. }
  destruct (IH (reap_edge l x) Hb1) as (Hb2 & -> & -> & -> & -> & -> & -> & Hk2).
  split_and!; try done. intros k. rw Hk2 Hk.
  destruct (decide (k ∈ ks)), (decide (k = x)), (decide (k ∈ x :: ks)); set_solver.
Qed.

Lemma abs_edge_ends l i f t w :
  log_wf l → a_edges (abs l) !! i = Some (f, t, w) → is_Some (ids l !! f) ∧ is_Some (ids l !! t).
Proof.
  intros Hw He. rw abs_edge in He. destruct (by_edge_id l !! i) as [k|]; [|done]. cbn in He.
  destruct (edges l !! k) as [[[a b] w']|]; [|done]. cbn in He. unfold end_ids in He; cbn in He.
  destruct (nodes l !! a) as [na|] eqn:Ha; [|done]. cbn in He.
  destruct (nodes l !! b) as [nb|] eqn:Hb; [|done]. cbn in He. simplify_eq.
  split; [exists a|exists b]; apply (lw_ids l Hw); eauto.
Qed.

Lemma remove_refines l id :
  log_wf l → log_wf (apply_edit node_id l (RemoveNode id)) ∧
    abs (apply_edit node_id l (RemoveNode id)) = a_apply (abs l) (RemoveNode id).
Proof.
  intros Hw. unfold apply_edit, key_of. destruct (ids l !! id) as [key|] eqn:Eid; cycle 1.
  { split; [by apply (log_wf_same l)|]. apply agraph_eq; try done; cbn.
    - apply map_eq. intros i. rw lookup_omap. destruct (decide (i = id)) as [->|Hne].
      + by rw lookup_delete_eq Eid.
      + by rw lookup_delete_ne // lookup_omap.
    - symmetry. apply map_filter_id. intros i [[f t] w] He. cbn.
      destruct (abs_edge_ends l i f t w Hw He) as [[kf Hf] [kt Ht]]. split; congruence. }
  destruct (reap_spec (incident_edges (graph l) key) l (lw_edge_ids l Hw)) as (Hb & Hg & _ & Hd & Hf & _ & _ & Hk).
  set (l1 := fold_left reap_edge _ l) in *. destruct Hw as [T1 T2 T3 T4] eqn:HW. clear HW.
  pose proof Eid as (n & Hn & Hnid)%T1. unfold graph_remove. rw Hg Hn.
  set (l2 := set_facets _ _).
  assert (nodes l2 = delete key (nodes l)) as HN by (unfold l2; cbn; apply sg_nodes_remove_node).
  assert (ids l2 = delete id (ids l)) as HI by (unfold l2; cbn; by rw Hnid).
  assert (∀ k, edges l2 !! k = (e ← edges l !! k; if decide (e.1.1 = key ∨ e.1.2 = key) then None else Some e)) as HE.
  { intros k. unfold l2; cbn. apply sg_edges_remove_node. }
  assert (by_edge_key l2 = by_edge_key l1 ∧ by_edge_id l2 = by_edge_id l1) as [Hk2 Hi2] by done.
  assert (∀ k e, edges l2 !! k = Some e ↔ edges l !! k = Some e ∧ k ∉ incident_edges (graph l) key) as HE'.
  { intros k e. rw HE elem_of_incident. destruct (edges l !! k) as [e'|]; cbn; [|naive_solver].
    case_decide; naive_solver. }
  assert (∀ i k, ids l !! i = Some k → i = id ↔ k = key) as Hkey.
  { intros i k Hi. split; [intros ->; congruence|]. intros ->. apply T1 in Hi as (n' & ? & ?). congruence. }
  split.
  - split.
    + intros i k. rw HI HN lookup_delete_Some. split.
      * intros [Hne Hi]. pose proof Hi as (n' & Hn' & Hid')%T1. exists n'. split; [|done].
        rw lookup_delete_ne //. intros <-. apply Hne. symmetry. by apply (Hkey i key).
      * intros (n' & [Hne Hn']%lookup_delete_Some & Hid'). assert (ids l !! i = Some k) as Hi by (apply T1; eauto).
        split; [|done]. intros <-. apply Hne. symmetry. by apply (Hkey id k).
    + intros i k. rw Hk2 Hi2. apply Hb.
    + intros k. rw Hk2 Hk. split.
      * case_decide as Hin; [by intros []|]. intros [e He]%T3. exists e. by apply HE'.
      * intros [e [He Hin]%HE']. rw decide_False //. apply T3. by exists e.
    + intros k a b w [He Hin]%HE'. rw HN. destruct (T4 k a b w He) as [Ha Hb'].
      rw !lookup_delete_ne; [done|..]; intros <-; apply Hin; apply elem_of_incident; eexists; (split; [exact He|]); auto.
  - apply agraph_eq; cbn [a_apply a_nodes a_edges a_derivations a_facets abs].
    + apply map_eq. intros i. rw lookup_omap HI. destruct (decide (i = id)) as [->|Hne].
      * by rw !lookup_delete_eq.
      * rw !lookup_delete_ne // lookup_omap. destruct (ids l !! i) as [k|] eqn:Ei; [cbn|done].
        rw HN lookup_delete_ne //. intros <-. by apply Hne, (Hkey i key).
    + apply map_eq. intros i. rw lookup_omap Hi2.
      assert (∀ k, by_edge_id l1 !! i = Some k ↔ by_edge_id l !! i = Some k ∧ k ∉ incident_edges (graph l) key) as Hbi.
      { intros k. rw (Hb i k) Hk T2. case_decide; naive_solver. }
      destruct (by_edge_id l1 !! i) as [k|] eqn:E1.
      * pose proof (proj1 (Hbi k) eq_refl) as [E0 Hin]. cbn.
        assert (is_Some (edges l !! k)) as [[[a b] w] He] by (apply T3; exists i; by apply T2).
        rw (proj2 (HE' k (a, b, w))) //. cbn. unfold end_ids; cbn. rw HN.
        assert (a ≠ key ∧ b ≠ key) as [Hak Hbk].
        { split; intros ->; apply Hin; apply elem_of_incident; eexists; (split; [exact He|]); auto. }
        destruct (T4 k a b w He) as [[na Ha] [nb Hb']]. rw !lookup_delete_ne // Ha Hb'. cbn. symmetry.
        apply map_lookup_filter_Some. split.
        -- rw lookup_omap E0. cbn. rw He. cbn. unfold end_ids; cbn. by rw Ha Hb'.
        -- cbn. assert (∀ x m, nodes l !! x = Some m → x ≠ key → node_id m ≠ id) as Hid.
           { intros x m Hm Hx Heq. apply Hx. assert (ids l !! id = Some x) by (apply T1; eauto). congruence. }
           split; by eapply Hid.
      * cbn. symmetry. apply map_lookup_filter_None. right. intros [[f t] w] Habs. cbn. intros [Hfid Htid].
        rw lookup_omap in Habs. destruct (by_edge_id l !! i) as [k|] eqn:E0; [|done]. cbn in Habs.
        destruct (edges l !! k) as [[[a b] w']|] eqn:He; [|done]. cbn in Habs. unfold end_ids in Habs; cbn in Habs.
        destruct (nodes l !! a) as [na|] eqn:Ha; [|done]. cbn in Habs.
        destruct (nodes l !! b) as [nb|] eqn:Hb'; [|done]. cbn in Habs. simplify_eq.
        assert (k ∈ incident_edges (graph l) key) as Hin.
        { apply dec_stable. intros Hout. assert (None = Some k) by (apply Hbi; done). done. }
        apply elem_of_incident in Hin as (e & He' & Hor). rw He in He'. injection He' as <-. cbn in Hor.
        destruct Hor as [-> | ->]; congruence.
    + unfold l2; cbn. by rw Hd.
    + unfold l2; cbn. unfold facet_remove_node. by rw Hf.
Qed.

(** ** Connecting and disconnecting *)

Definition land_edge l (i : EdgeId) (from_key to_key : Z) (w : E) : Log :=
  let kg := graph_connect (graph l) from_key to_key w in
  set_edges (<[i := kg.1]> (by_edge_id l)) (<[kg.1 := i]> (by_edge_key l)) (set_graph kg.2 l).

Lemma land_refines l i from to fk tk w :
  log_wf l → by_edge_id l !! i = None → ids l !! from = Some fk → ids l !! to = Some tk →
  log_wf (land_edge l i fk tk w) ∧ abs (land_edge l i fk tk w) = a_apply (abs l) (Connect i from to w).
Proof.
  intros [T1 T2 T3 T4] Hi Hf Ht. pose proof Hf as (nf & Hnf & Hfid)%T1. pose proof Ht as (nt & Hnt & Htid)%T1.
  unfold land_edge, graph_connect.
  pose proof (add_edge_fresh _ _ fk tk w (inner (graph l)) (ltac:(by eexists)) (ltac:(by eexists))) as Hfr.
  pose proof (sg_edges_add_edge _ _ fk tk w (inner (graph l)) (ltac:(by eexists)) (ltac:(by eexists))) as HE.
  pose proof (sg_nodes_add_edge _ _ fk tk w (inner (graph l)) (ltac:(by eexists)) (ltac:(by eexists))) as HN.
  destruct (add_edge fk tk w (inner (graph l))) as [k g]. cbn in *.
  assert (by_edge_key l !! k = None) as Hk.
  { apply eq_None_not_Some. intros [e He]%T3. congruence. }
  split.
  - split; cbn; rw ?HN ?HE; try done.
    + intros i' k'. rw !lookup_insert_Some T2. split.
      * intros [[<- <-]|[Hne Hk']]; [by left|]. right. split; [congruence|done].
      * intros [[<- <-]|[Hne Hk']]; [by left|]. right. split; [|done]. intros <-. apply T2 in Hk'. congruence.
    + intros k'. destruct (decide (k = k')) as [<-|Hne].
      * rw !lookup_insert_eq. split; by eexists.
      * rw !lookup_insert_ne //.
    + intros k' a b w' [[<- [= <- <- <-]]|[_ He]]%lookup_insert_Some; [|by eapply T4]. split; by eexists.
  - cbn [a_apply]. rw !abs_node Hf Ht. cbn. rw Hnf Hnt. apply agraph_eq; cbn; rw ?HN; try done.
    apply map_eq. intros i'. rw lookup_omap HE. destruct (decide (i' = i)) as [->|Hne].
    + rw !lookup_insert_eq. cbn. rw lookup_insert_eq. cbn. unfold end_ids; cbn. rw HN Hnf Hnt. cbn. by rw Hfid Htid.
    + rw !(lookup_insert_ne _ i) // lookup_omap. destruct (by_edge_id l !! i') as [k'|] eqn:Ei; [cbn|done].
      rw lookup_insert_ne; [|intros <-; apply T2 in Ei; congruence].
      destruct (edges l !! k') as [e|]; [cbn|done]. unfold end_ids; cbn. by rw HN.
Qed.

Lemma apply_connect_eq l i from to w :
  apply_edit node_id l (Connect i from to w) =
  let l1 := match ids l !! from, ids l !! to with
            | Some fk, Some tk => land_edge l i fk tk w
            | _, _ => l
            end in
  if bool_decide (ei_writer i = writer l1)
  then set_next (Z.max (next_edge l1) (wrap64 (ei_counter i + 1))) l1 else l1.
Proof.
  unfold apply_edit, key_of, land_edge. destruct (ids l !! from) as [fk|], (ids l !! to) as [tk|]; try done.
  by destruct (graph_connect (graph l) fk tk w).
Qed.

Lemma connect_refines l i from to w :
  log_wf l → by_edge_id l !! i = None →
  log_wf (apply_edit node_id l (Connect i from to w)) ∧
  abs (apply_edit node_id l (Connect i from to w)) = a_apply (abs l) (Connect i from to w).
Proof.
  intros Hw Hi. rw apply_connect_eq. cbn zeta. set (l1 := match ids l !! from with Some _ => _ | None => _ end).
  assert (log_wf l1 ∧ abs l1 = a_apply (abs l) (Connect i from to w)) as [Hw1 Ha1].
  { unfold l1. destruct (ids l !! from) as [fk|] eqn:Ef; cycle 1.
    { split; [done|]. cbn [a_apply]. by rw abs_node Ef. }
    destruct (ids l !! to) as [tk|] eqn:Et; [by apply land_refines|].
    split; [done|]. cbn [a_apply]. rw (abs_node l to) Et. cbn [mbind option_bind]. by destruct (a_nodes (abs l) !! from). }
  rw -Ha1. destruct (bool_decide _); [|done]. split; [by apply (log_wf_same l1)|by apply abs_same].
Qed.

Lemma disconnect_refines l i :
  log_wf l → log_wf (apply_edit node_id l (Disconnect i)) ∧
    abs (apply_edit node_id l (Disconnect i)) = a_apply (abs l) (Disconnect i).
Proof.
  intros Hw. unfold apply_edit. destruct (by_edge_id l !! i) as [k|] eqn:Ei; cycle 1.
  { split; [done|]. apply agraph_eq; try done; cbn. symmetry. apply delete_id. by rw lookup_omap Ei. }
  destruct Hw as [T1 T2 T3 T4]. pose proof Ei as Ek%T2. split.
  - split; cbn; rw ?sg_nodes_remove_edge ?sg_edges_remove_edge; try done.
    + intros i' k'. rw !lookup_delete_Some T2. split; intros [Hne Hk']; (split; [|done]).
      * intros <-. congruence.
      * intros <-. apply T2 in Hk'. congruence.
    + intros k'. destruct (decide (k = k')) as [<-|Hne].
      * rw !lookup_delete_eq. split; by intros [].
      * by rw !lookup_delete_ne.
    + intros k' a b w [_ He]%lookup_delete_Some. by eapply T4.
  - apply agraph_eq; cbn; rw ?sg_nodes_remove_edge; try done. apply map_eq. intros i'.
    rw lookup_omap. destruct (decide (i' = i)) as [->|Hne].
    + by rw !lookup_delete_eq.
    + rw !lookup_delete_ne // lookup_omap. destruct (by_edge_id l !! i') as [k'|] eqn:Ei'; [cbn|done].
      rw sg_edges_remove_edge lookup_delete_ne; [|intros <-; apply T2 in Ei'; congruence].
      destruct (edges l !! k') as [e|]; [cbn|done]. unfold end_ids; cbn. by rw sg_nodes_remove_edge.
Qed.

(** ** The simulation *)

Definition edit_fresh l (e : Edit) : Prop :=
  match e with Connect i _ _ _ => by_edge_id l !! i = None | _ => True end.

Lemma apply_edit_refines l (e : Edit) :
  log_wf l → edit_fresh l e →
  log_wf (apply_edit node_id l e) ∧ abs (apply_edit node_id l e) = a_apply (abs l) e.
Proof.
  intros Hw Hf. destruct e as [n|i|i f t w|i|node from|node facet value|node facet].
  - by apply insert_refines.
  - by apply remove_refines.
  - by apply connect_refines.
  - by apply disconnect_refines.
  - split; [by apply (log_wf_same l)|]. by apply agraph_eq.
  - unfold apply_edit, key_of, facet_set, accept_all. cbn [a_apply]. rw abs_node.
    destruct (ids l !! node) as [k|] eqn:E0; cbn; [|done].
    pose proof E0 as (n & -> & _)%(lw_ids l Hw). split; [by apply (log_wf_same l)|]. by apply agraph_eq.
  - unfold apply_edit, key_of. cbn [a_apply]. rw abs_node.
    destruct (ids l !! node) as [k|] eqn:E0; cbn; [|done].
    pose proof E0 as (n & -> & _)%(lw_ids l Hw). split; [by apply (log_wf_same l)|]. by apply agraph_eq.
Qed.
End spec.
