(* ===== verification/GraphReplay.v ===== *)
(** Replay, sessions and checkpoints of the graph spine.

    The journal is the truth and the materialization a cache: this file shows
    that every way the source has of building the cache builds the same one.
    [session] is the life of a log: opened by replaying a journal, then any
    sequence of [commit_batch] calls, refused ones included.  The bounds on the
    edge counter are those of its [u64]. *)

From S2P Require Import Prelude Journal StableGraph GraphLog GraphSpec.

Local Open Scope Z_scope.

Section replay.
Context {G : Type → Type → Type} `{StableGraph G}.
Context {N E Id F V : Type} `{Countable Id} `{Countable F}.
Context (node_id : N → Id).

Abbreviation Log := (GraphLog (G := G) (N := N) (E := E) (Id := Id) (F := F) (V := V)).
Abbreviation Edit := (GraphEdit (N := N) (E := E) (Id := Id) (F := F) (V := V)).
Abbreviation BatchT := (Batch (N := N) (E := E) (Id := Id) (F := F) (V := V)).
Abbreviation Spec := (EditSpec (N := N) (E := E) (Id := Id) (F := F) (V := V)).
Implicit Types (l : Log) (w : Z) (e : Edit) (j : Journal BatchT).

Definition apply_edits l (es : list Edit) : Log := fold_left (apply_edit node_id) es l.

Definition edits_of j : list Edit := mbind ba_edits (j_entries j).

Definition connect_id e : option EdgeId := match e with Connect i _ _ _ => Some i | _ => None end.
Definition connect_ids (es : list Edit) : list EdgeId := omap connect_id es.

Lemma apply_batches_edits l (bs : list BatchT) :
  fold_left (apply_batch node_id) bs l = apply_edits l (mbind ba_edits bs).
Proof.
  revert l. induction bs as [|b bs IH]; intros l; [done|]. cbn. unfold apply_edits in *.
  by rw fold_left_app -IH.
Qed.

Lemma replay_eq j w :
  replay_for_writer node_id j w = set_log j (apply_edits (for_writer log_new w) (edits_of j)).
Proof. unfold replay_for_writer. by rw apply_batches_edits. Qed.

(** ** The counter *)

Definition next_after w (n : Z) e : Z :=
  match e with
  | Connect i _ _ _ => if bool_decide (ei_writer i = w) then Z.max n (wrap64 (ei_counter i + 1)) else n
  | _ => n
  end.

(** An edit reads neither the journal nor the writer's counter. *)
Lemma reap_edges_frame ks l (j : Journal BatchT) w n :
  fold_left reap_edge ks (set_log j (set_writer w n l)) = set_log j (set_writer w n (fold_left reap_edge ks l)).
Proof.
  revert l. induction ks as [|k ks IH]; intros l; [done|]. cbn. rw -IH. f_equal.
  unfold reap_edge. cbn. by destruct (by_edge_key l !! k).
Qed.

Lemma apply_edit_frame l e j w n :
  apply_edit node_id (set_log j (set_writer w n l)) e =
  set_log j (set_writer w (next_after w n e) (apply_edit node_id l e)).
Proof.
  destruct e as [m|i|i f t x|i|node from|node facet value|node facet]; cbn; try done.
  - destruct (key_of (graph l) i) as [k|]; [|done]. by rw (reap_edges_frame _ l).
  - destruct (key_of (graph l) f) as [fk|]; cbn; [destruct (key_of (graph l) t) as [tk|]; cbn|].
    1: destruct (graph_connect (graph l) fk tk x) as [k g]; cbn.
    all: by repeat case_bool_decide.
  - by destruct (by_edge_id l !! i).
  - by destruct (key_of (graph l) node).
  - by destruct (key_of (graph l) node).
Qed.

Lemma apply_edits_frame l es j w n :
  apply_edits (set_log j (set_writer w n l)) es =
  set_log j (set_writer w (fold_left (next_after w) es n) (apply_edits l es)).
Proof.
  unfold apply_edits. revert l n. induction es as [|e es IH]; intros l n; [done|].
  cbn [fold_left]. by rw apply_edit_frame IH.
Qed.

Lemma set_writer_self l : set_log (log l) (set_writer (writer l) (next_edge l) l) = l.
Proof. by destruct l. Qed.

Lemma apply_edits_counter l es :
  log (apply_edits l es) = log l ∧ writer (apply_edits l es) = writer l ∧
  next_edge (apply_edits l es) = fold_left (next_after (writer l)) es (next_edge l).
Proof. rw -{1 3 5}(set_writer_self l) apply_edits_frame. done. Qed.

(** ** Lowering *)

Fixpoint spec_connects (specs : list Spec) : nat :=
  match specs with
  | [] => 0%nat
  | SpConnect _ _ _ :: rest => S (spec_connects rest)
  | _ :: rest => spec_connects rest
  end.

Lemma lower_counter w n specs :
  0 ≤ n → n + Z.of_nat (spec_connects specs) ≤ u64_max →
  let '(edits, minted, n') := lower w n specs in
  n' = n + Z.of_nat (spec_connects specs) ∧
  minted = mkEdgeId w <$> seqZ n (Z.of_nat (spec_connects specs)) ∧ connect_ids edits = minted ∧
  ∀ m, n ≤ m → fold_left (next_after w) edits m = Z.max m n'.
Proof.
  revert n. induction specs as [|sp specs IH]; intros n Hn Hb.
  { cbn. split_and!; [lia|done|done|]. intros m Hm. lia. }
  assert (wrap64 (n + 1) = n + 1 ∨ spec_connects (sp :: specs) = spec_connects specs) as Hwrap.
  { destruct sp; auto. cbn in Hb. left. apply wrap64_small. unfold is_u64. lia. }
  destruct sp as [x|x|f t x|x|node x|node fc x|node fc]; cbn [lower spec_connects] in *.
  3: { destruct Hwrap as [Hwrap|?]; [|lia]. rw Hwrap.
    specialize (IH (n + 1) ltac:(lia) ltac:(lia)). destruct (lower w (n + 1) specs) as [[edits minted] n'].
    destruct IH as (Hn' & Hm & Hc & Hf). split_and!.
    - lia.
    - rw (seqZ_cons n); [|lia]. cbn. rw Hm /Z.succ. do 3 f_equal. lia.
    - cbn. by rw -Hc.
    - intros m Hle. cbn [fold_left next_after ei_writer ei_counter]. rw bool_decide_eq_true_2 // Hwrap Hf; lia. }
  all: specialize (IH n Hn ltac:(lia)); destruct (lower w n specs) as [[edits minted] n']; cbn; exact IH.
Qed.

(** ** Sessions *)

Inductive session (w : Z) (j0 : Journal BatchT) : Log → Prop :=
| session_open : session w j0 (replay_for_writer node_id j0 w)
| session_commit l author expected specs l' r :
    session w j0 l →
    next_edge l + Z.of_nat (spec_connects specs) ≤ u64_max →
    commit_batch node_id l author expected specs = (l', r) →
    session w j0 l'.

(** What a commit does, by outcome. *)
Lemma commit_batch_eq l author expected specs l' r :
  commit_batch node_id l author expected specs = (l', r) →
  (∃ err, r = Err err ∧ l' = l) ∨
  ∃ edits minted n, lower (writer l) (next_edge l) specs = (edits, minted, n) ∧
    (∃ p, check_specs node_id l (mkPrecheck ∅ ∅ ∅) specs = Ok p) ∧ expected = revision l ∧
    r = Ok (mkCommitted (revision l) minted) ∧
    l' = set_log (append (log l) (mkBatch author edits)).2 (apply_edits (set_next n l) edits).
Proof.
  unfold commit_batch. destruct (bool_decide (expected ≠ _)) eqn:Hr; [intros [= <- <-]; left; by eexists|].
  destruct (check_specs _ l _ specs) as [p|err] eqn:Ec; [|intros [= <- <-]; left; by eexists].
  destruct (lower _ _ specs) as [[edits minted] n] eqn:El. intros Hc. right. exists edits, minted, n.
  assert (log (apply_batch node_id (set_next n l) (mkBatch author edits)) = log l) as Hl.
  { apply (apply_edits_counter (set_next n l) edits). }
  rw Hl in Hc. cbn in Hc. injection Hc as <- <-. split_and!; try done; [by eexists|].
  apply bool_decide_eq_false in Hr. apply dec_stable. exact Hr.
Qed.

Lemma set_counter_id l w n : writer l = w → next_edge l = n → set_writer w n l = l.
Proof. intros <- <-. by destruct l. Qed.

Lemma apply_edits_log l es j : apply_edits (set_log j l) es = set_log j (apply_edits l es).
Proof.
  rw -{1}(set_counter_id l (writer l) (next_edge l)) // apply_edits_frame.
  destruct (apply_edits_counter l es) as (_ & Hw & Hn). by rw set_counter_id.
Qed.

Lemma apply_edits_app l es es' : apply_edits l (es ++ es') = apply_edits (apply_edits l es) es'.
Proof. apply fold_left_app. Qed.

Lemma next_after_mono w es n : n ≤ fold_left (next_after w) es n.
Proof.
  revert n. induction es as [|e es IH]; intros n; cbn; [lia|]. trans (next_after w n e); [|apply IH].
  destruct e; cbn; try lia. case_bool_decide; lia.
Qed.

(** The counter advanced by the lowering is where the applied edits leave it. *)
Lemma apply_lowered l specs edits minted n :
  0 ≤ next_edge l → next_edge l + Z.of_nat (spec_connects specs) ≤ u64_max →
  lower (writer l) (next_edge l) specs = (edits, minted, n) →
  apply_edits (set_next n l) edits = apply_edits l edits ∧ next_edge (apply_edits l edits) = n.
Proof.
  intros Hn Hb El. pose proof (lower_counter (writer l) (next_edge l) specs Hn Hb) as Hl. rw El in Hl.
  destruct Hl as (Hn' & _ & _ & Hf). destruct (apply_edits_counter l edits) as (Hlog & Hwr & Hne).
  rw Hf in Hne; [|lia]. split; [|lia].
  change (set_next n l) with (set_log (log l) (set_writer (writer l) n l)).
  rw apply_edits_frame Hf; [|lia]. rw set_counter_id //; [|lia]. rw -Hlog. by destruct (apply_edits l edits).
Qed.

(** A committed batch from the state it was committed on. *)
Lemma commit_state l author expected specs l' c :
  0 ≤ next_edge l → next_edge l + Z.of_nat (spec_connects specs) ≤ u64_max →
  commit_batch node_id l author expected specs = (l', Ok c) →
  ∃ edits n, lower (writer l) (next_edge l) specs = (edits, cm_edges c, n) ∧
    (∃ p, check_specs node_id l (mkPrecheck ∅ ∅ ∅) specs = Ok p) ∧
    l' = set_log (append (log l) (mkBatch author edits)).2 (apply_edits l edits).
Proof.
  intros Hn Hb [(err & ? & _)|(edits & minted & n & El & Hp & _ & [= ->] & ->)]%commit_batch_eq; [done|].
  exists edits, n. split_and!; [done..|]. by destruct (apply_lowered l specs edits minted n Hn Hb El) as [-> _].
Qed.

Lemma edits_of_append j author edits :
  edits_of (append j (mkBatch author edits)).2 = edits_of j ++ edits.
Proof. unfold edits_of. cbn. rw bind_app. cbn. by rw app_nil_r. Qed.

Lemma replay_fields j w :
  log (replay_for_writer node_id j w) = j ∧ writer (replay_for_writer node_id j w) = w ∧
  next_edge (replay_for_writer node_id j w) = fold_left (next_after w) (edits_of j) 0.
Proof.
  rw replay_eq. destruct (apply_edits_counter (for_writer log_new w) (edits_of j)) as (Hlog & Hwr & Hne).
  split_and!; done.
Qed.

Lemma replay_append j author edits w :
  replay_for_writer node_id (append j (mkBatch author edits)).2 w =
  set_log (append j (mkBatch author edits)).2 (apply_edits (replay_for_writer node_id j w) edits).
Proof. by rw !replay_eq edits_of_append apply_edits_log apply_edits_app. Qed.

Lemma replay_next_nonneg j w : 0 ≤ next_edge (replay_for_writer node_id j w).
Proof. destruct (replay_fields j w) as (_ & _ & ->). apply next_after_mono. Qed.

Lemma session_replayed w j0 l : session w j0 l → l = replay_for_writer node_id (log l) w.
Proof.
  induction 1 as [|l author expected specs l' r _ IH Hb Hc]; [done|].
  destruct r as [c|err]; cycle 1.
  { by apply commit_batch_eq in Hc as [(? & _ & ->)|(? & ? & ? & _ & _ & _ & [=] & _)]. }
  assert (0 ≤ next_edge l) as Hn by (rw IH; apply replay_next_nonneg).
  destruct (commit_state l author expected specs l' c Hn Hb Hc) as (edits & n & _ & _ & ->).
  cbn [log set_log]. rw replay_append. by rw -IH.
Qed.

Lemma session_extends w j0 l : session w j0 l → ∃ tail, j_entries (log l) = j_entries j0 ++ tail.
Proof.
  induction 1 as [|l author expected specs l' r Hs [tail IH] Hb Hc].
  { exists []. destruct (replay_fields j0 w) as (-> & _). by rw app_nil_r. }
  apply commit_batch_eq in Hc as [(? & _ & ->)|(edits & ? & n & _ & _ & _ & _ & ->)]; [by eexists|].
  exists (tail ++ [mkBatch author edits]). cbn. by rw IH app_assoc.
Qed.

(** C3. Live editing and replay cannot diverge: after any sequence of
    commits, refused ones included, the whole state of the log (graph, petgraph
    keys, edge indices, derivations, facets, writer and counter) is what
    replaying its own journal for the same writer rebuilds. *)
Theorem session_is_its_replay w j0 l :
  session w j0 l → l = replay_for_writer node_id (log l) w.
Proof. apply session_replayed. Qed.

(** ** Edge ids *)

Definition ids_ok w j : Prop :=
  NoDup (connect_ids (edits_of j)) ∧
  ∀ i, i ∈ connect_ids (edits_of j) → ei_writer i = w → 0 ≤ ei_counter i < u64_max.

Lemma connect_ids_app (es es' : list Edit) : connect_ids (es ++ es') = connect_ids es ++ connect_ids es'.
Proof. apply omap_app. Qed.

Lemma next_after_bound w es n i :
  i ∈ connect_ids es → ei_writer i = w → 0 ≤ ei_counter i < u64_max →
  ei_counter i < fold_left (next_after w) es n.
Proof.
  revert n. induction es as [|e es IH]; intros n Hi Hw Hb; [by apply elem_of_nil in Hi|]. cbn [fold_left].
  destruct e as [|?|i' f t x|?|? ?|? ? ?|? ?]; cbn in Hi; try by apply IH.
  apply elem_of_cons in Hi as [->|Hi]; [|by apply IH]. eapply Z.lt_le_trans; [|apply next_after_mono].
  cbn. rw bool_decide_eq_true_2 // wrap64_small; [lia|]. unfold is_u64. lia.
Qed.

Lemma own_ids_below w j i :
  ids_ok w j → i ∈ connect_ids (edits_of j) → ei_writer i = w →
  ei_counter i < next_edge (replay_for_writer node_id j w).
Proof.
  intros [_ Hb] Hi Hw. destruct (replay_fields j w) as (_ & _ & ->). apply next_after_bound; auto.
Qed.

(** The ids a commit mints extend the journal's ids without repetition. *)
Lemma minted_extend w j specs edits minted n :
  ids_ok w j → let l := replay_for_writer node_id j w in
  next_edge l + Z.of_nat (spec_connects specs) ≤ u64_max → lower w (next_edge l) specs = (edits, minted, n) →
  connect_ids edits = minted ∧ NoDup (connect_ids (edits_of j) ++ minted) ∧
  (∀ i, i ∈ minted → ei_writer i = w ∧ 0 ≤ ei_counter i < u64_max).
Proof.
  intros Hok l Hb El. pose proof (replay_next_nonneg j w) as Hn. fold l in Hn.
  pose proof (lower_counter w (next_edge l) specs Hn Hb) as Hl. rw El in Hl. destruct Hl as (_ & Hm & Hc & _).
  assert (∀ i, i ∈ minted → ei_writer i = w ∧ next_edge l ≤ ei_counter i < next_edge l + Z.of_nat (spec_connects specs)) as Hin.
  { intros i. rw Hm. intros (k & -> & Hk%elem_of_seqZ)%list_elem_of_fmap. done. }
  split_and!; [done| |].
  - apply NoDup_app. split_and!; [apply Hok| |].
    + intros i Hi Hi'. destruct (Hin i Hi') as [Hw' Hlow]. pose proof (own_ids_below w j i Hok Hi Hw') as Hlt. fold l in Hlt. lia.
    + rw Hm. apply NoDup_fmap_2; [by intros ?? [=]|apply NoDup_seqZ].
  - intros i Hi. destruct (Hin i Hi). split; [done|]. lia.
Qed.

Lemma commit_ids w j0 l author expected specs l' c :
  ids_ok w (log l) → session w j0 l →
  next_edge l + Z.of_nat (spec_connects specs) ≤ u64_max →
  commit_batch node_id l author expected specs = (l', Ok c) →
  connect_ids (edits_of (log l')) = connect_ids (edits_of (log l)) ++ cm_edges c ∧
  NoDup (connect_ids (edits_of (log l)) ++ cm_edges c) ∧
  length (cm_edges c) = spec_connects specs ∧
  (∀ i, i ∈ cm_edges c → ei_writer i = w ∧ 0 ≤ ei_counter i < u64_max).
Proof.
  intros Hok Hs Hb Hc. pose proof (session_replayed w j0 l Hs) as Hr.
  pose proof (replay_fields (log l) w) as (_ & Hw & _). pose proof (replay_next_nonneg (log l) w) as Hn.
  rw -Hr in Hw. rw -Hr in Hn.
  destruct (commit_state l author expected specs l' c Hn Hb Hc) as (edits & n & El & _ & ->).
  rw Hw in El. pose proof (minted_extend w (log l) specs edits (cm_edges c) n Hok) as Hx. cbn zeta in Hx.
  rw -Hr in Hx. destruct (Hx Hb El) as (Hc' & Hnd & Hrng).
  pose proof (lower_counter w (next_edge l) specs Hn Hb) as Hl. rw El in Hl. destruct Hl as (_ & Hm & _).
  cbn [log set_log]. split_and!; [by rw edits_of_append connect_ids_app Hc'|done| |done].
  rw Hm length_fmap length_seqZ. lia.
Qed.

Lemma session_ids w j0 l : ids_ok w j0 → session w j0 l → ids_ok w (log l).
Proof.
  intros H0'. induction 1 as [|l author expected specs l' r Hs IH Hb Hc].
  { by destruct (replay_fields j0 w) as (-> & _). }
  destruct r as [c|err]; cycle 1.
  { by apply commit_batch_eq in Hc as [(? & _ & ->)|(? & ? & ? & _ & _ & _ & [=] & _)]. }
  destruct (commit_ids w j0 l author expected specs l' c IH Hs Hb Hc) as (Hl' & Hnd & _ & Hrng).
  unfold ids_ok. rw Hl'. split; [done|]. intros i [Hi|Hi]%elem_of_app Hwi; [by apply IH|by apply Hrng].
Qed.

(** The edge ids a commit returns carry the writer, one per connect, are
    pairwise distinct, and none was ever used by a connect of the journal, not
    even by an edge that has since been disconnected or reaped, so an id names
    one edge for the whole life of the log. *)
Theorem minted_ids_are_new w j0 l author expected specs l' c :
  ids_ok w j0 → session w j0 l →
  next_edge l + Z.of_nat (spec_connects specs) ≤ u64_max →
  commit_batch node_id l author expected specs = (l', Ok c) →
  NoDup (connect_ids (edits_of (log l)) ++ cm_edges c) ∧
  connect_ids (edits_of (log l')) = connect_ids (edits_of (log l)) ++ cm_edges c ∧
  length (cm_edges c) = spec_connects specs ∧ Forall (λ i, ei_writer i = w) (cm_edges c).
Proof.
  intros H0' Hs Hb Hc. pose proof (session_ids w j0 l H0' Hs) as IH.
  destruct (commit_ids w j0 l author expected specs l' c IH Hs Hb Hc) as (Hl' & Hnd & Hlen & Hrng).
  split_and!; try done. apply Forall_forall. intros i Hi. by apply Hrng.
Qed.

(** ** Replay refines the abstract graph *)

Abbreviation A := (AGraph (N := N) (E := E) (Id := Id) (F := F) (V := V)).
Definition a_empty : A := mkAGraph ∅ ∅ ∅ ∅.
Definition a_apply_all (a : A) (es : list Edit) : A := fold_left (a_apply node_id) es a.

Lemma edge_ids_abs l i :
  log_wf node_id l → is_Some (by_edge_id l !! i) ↔ is_Some (a_edges (abs node_id l) !! i).
Proof.
  intros Hw. rw abs_edge. split.
  - intros [k Hk]. rw Hk. cbn.
    assert (is_Some (sg_edges (inner (graph l)) !! k)) as [[[a b] x] He].
    { apply (lw_edge_live node_id l Hw). exists i. by apply (lw_edge_ids node_id l Hw). }
    rw He. cbn. destruct (lw_ends node_id l Hw k a b x He) as [[na Ha] [nb Hb]].
    unfold end_ids; cbn. rw Ha Hb. by eexists.
  - intros [x Hx]. destruct (by_edge_id l !! i); [by eexists|done].
Qed.

Lemma a_apply_edge_ids (a : A) e i :
  is_Some (a_edges (a_apply node_id a e) !! i) → is_Some (a_edges a !! i) ∨ connect_id e = Some i.
Proof.
  destruct e as [m|id|i' f t x|i'|node from|node facet value|node facet]; cbn; auto.
  - intros [y [Hy _]%map_lookup_filter_Some]. left. by exists y.
  - destruct (a_nodes a !! f), (a_nodes a !! t); cbn; auto.
    destruct (decide (i' = i)) as [->|Hne]; [by right|]. rw lookup_insert_ne //. auto.
  - intros [y [_ Hy]%lookup_delete_Some]. left. by exists y.
  - destruct (a_nodes a !! node); auto.
  - destruct (a_nodes a !! node); auto.
Qed.

(** The first edit of a batch with fresh ids, and the state it leaves the rest. *)
Lemma fresh_step l e es :
  log_wf node_id l → NoDup (connect_ids (e :: es)) →
  (∀ i, i ∈ connect_ids (e :: es) → by_edge_id l !! i = None) →
  edit_fresh l e ∧ log_wf node_id (apply_edit node_id l e) ∧ NoDup (connect_ids es) ∧
  ∀ i, i ∈ connect_ids es → by_edge_id (apply_edit node_id l e) !! i = None.
Proof.
  intros Hw Hnd Hf. assert (edit_fresh l e) as Hfe by (destruct e; cbn; auto; apply Hf; cbn; by left).
  assert (NoDup (connect_ids es) ∧ ∀ i, i ∈ connect_ids es → connect_id e ≠ Some i ∧ i ∈ connect_ids (e :: es)) as [Hnd' Hne].
  { destruct e; cbn in *; try (split; [done|]; intros; split; done). apply NoDup_cons in Hnd as [Hx Hnd].
    split; [done|]. intros i' Hi'. split; [by intros [= ->]|]. by right. }
  destruct (apply_edit_refines node_id l e Hw Hfe) as [Hw1 Ha1]. split_and!; [done..|].
  intros i Hi. destruct (Hne i Hi) as [Hc Hin]. apply eq_None_not_Some. intros Hs.
  apply edge_ids_abs in Hs; [|done]. rw Ha1 in Hs. apply a_apply_edge_ids in Hs as [Hs|?]; [|done].
  apply edge_ids_abs in Hs; [|done]. specialize (Hf i Hin). rw Hf in Hs. by destruct Hs.
Qed.

Lemma apply_edits_refines l es :
  log_wf node_id l → NoDup (connect_ids es) → (∀ i, i ∈ connect_ids es → by_edge_id l !! i = None) →
  log_wf node_id (apply_edits l es) ∧ abs node_id (apply_edits l es) = a_apply_all (abs node_id l) es.
Proof.
  revert l. induction es as [|e es IH]; intros l Hw Hnd Hf; [done|]. cbn [apply_edits a_apply_all fold_left].
  destruct (fresh_step l e es Hw Hnd Hf) as (Hfe & Hw1 & Hnd1 & Hf1).
  destruct (apply_edit_refines node_id l e Hw Hfe) as [_ <-]. by apply IH.
Qed.

Lemma log_new_wf w n : log_wf node_id (set_writer w n (log_new : Log)) ∧
  abs node_id (set_writer w n (log_new : Log)) = a_empty.
Proof.
  split.
  - split; cbn; rw ?sg_nodes_new ?sg_edges_new.
    + intros i k. rw !lookup_empty. split; [done|]. by intros (? & ? & _).
    + intros i k. by rw !lookup_empty.
    + intros k. by rw !lookup_empty.
    + intros k a b x. by rw lookup_empty.
  - apply agraph_eq; cbn; try done; apply map_eq; intros i; by rw lookup_omap !lookup_empty.
Qed.

Lemma replay_abs j w :
  NoDup (connect_ids (edits_of j)) →
  log_wf node_id (replay_for_writer node_id j w) ∧
  abs node_id (replay_for_writer node_id j w) = a_apply_all a_empty (edits_of j).
Proof.
  intros Hnd. rw replay_eq. destruct (log_new_wf w (next_edge (for_writer (log_new : Log) w))) as [Hw Ha].
  destruct (apply_edits_refines (for_writer (log_new : Log) w) (edits_of j) Hw Hnd) as [Hw' Ha'].
  { intros i _. apply lookup_empty. }
  split; [by apply (log_wf_same node_id (apply_edits (for_writer log_new w) (edits_of j)))|].
  rw -Ha -Ha'. by apply abs_same.
Qed.

(** C1. The materialized graph refines the abstract one: along any session
    the identity index and both edge indices stay exact, and reading the graph
    through them gives precisely the fold of the journal's edits over maps
    keyed by stable ids, whichever petgraph keys were handed out or reused. *)
Theorem session_refines w j0 l :
  ids_ok w j0 → session w j0 l →
  log_wf node_id l ∧ abs node_id l = a_apply_all a_empty (edits_of (log l)).
Proof.
  intros H0' Hs. destruct (session_ids w j0 l H0' Hs) as [Hnd _].
  rw (session_replayed w j0 l Hs) {2}(session_replayed w j0 l Hs). destruct (replay_fields (log l) w) as (-> & _).
  by apply replay_abs.
Qed.

(** ** The precheck *)

Definition edit_nodes e : list Id :=
  match e with
  | RemoveNode id => [id]
  | Connect _ from to _ => [from; to]
  | Derive node _ | SetFacet node _ _ | RemoveFacet node _ => [node]
  | InsertNode _ | Disconnect _ => []
  end.

Definition edit_lands l e : Prop := Forall (λ x, is_Some (key_of (graph l) x)) (edit_nodes e).

Definition lower_one w n (sp : Spec) : Edit :=
  match sp with
  | SpInsertNode x => InsertNode x
  | SpRemoveNode id => RemoveNode id
  | SpConnect from to edge => Connect (mkEdgeId w n) from to edge
  | SpDisconnect id => Disconnect id
  | SpDerive node from => Derive node from
  | SpSetFacet node facet value => SetFacet node facet value
  | SpRemoveFacet node facet => RemoveFacet node facet
  end.

Lemma lower_cons w n sp specs :
  ∃ n', (lower w n (sp :: specs)).1.1 = lower_one w n sp :: (lower w n' specs).1.1.
Proof.
  destruct sp as [x|x|f t x|x|node x|node fc x|node fc]; cbn [lower lower_one].
  3: exists (wrap64 (n + 1)); by destruct (lower w (wrap64 (n + 1)) specs) as [[??]?].
  all: exists n; by destruct (lower w n specs) as [[??]?].
Qed.

(** The batch-local view agrees with the graph the earlier specs produce. *)
Definition view_exact l0 (p : Precheck) l : Prop :=
  ∀ x, present l0 p x = true ↔ is_Some (key_of (graph l) x).

Lemma require_spec l0 p l x :
  view_exact l0 p l →
  (require l0 p x = Ok tt ∧ is_Some (key_of (graph l) x)) ∨
  (require l0 p x = Err (UnknownNode x) ∧ key_of (graph l) x = None).
Proof.
  intros Hv. unfold require. destruct (present l0 p x) eqn:Ep.
  - left. split; [done|]. by apply Hv.
  - right. split; [done|]. apply eq_None_not_Some. intros Hs%Hv. congruence.
Qed.

Lemma view_after l0 p p' l e :
  log_wf node_id l → edit_fresh l e → view_exact l0 p l →
  (∀ x, present l0 p' x = true ↔
    match e with
    | InsertNode n => x = node_id n ∨ present l0 p x = true
    | RemoveNode id => x ≠ id ∧ present l0 p x = true
    | _ => present l0 p x = true
    end) →
  view_exact l0 p' (apply_edit node_id l e).
Proof.
  intros Hw Hf Hv Hp x. destruct (apply_edit_refines node_id l e Hw Hf) as [Hw1 Ha1].
  unfold view_exact, key_of in *. rw Hp (key_of_abs node_id _ x Hw1) Ha1.
  specialize (Hv x). rw (key_of_abs node_id _ x Hw) in Hv.
  destruct e as [m|id|i' f t y|i'|node from|node facet value|node facet]; cbn [a_apply]; try done.
  - cbn [a_nodes]. rw Hv lookup_insert_is_Some. destruct (decide (node_id m = x)); naive_solver.
  - cbn [a_nodes]. rw Hv lookup_delete_is_Some. naive_solver.
  - rw Hv. by destruct (a_nodes (abs node_id l) !! f), (a_nodes (abs node_id l) !! t).
  - rw Hv. by destruct (a_nodes (abs node_id l) !! node).
  - rw Hv. by destruct (a_nodes (abs node_id l) !! node).
Qed.

Lemma check_step l0 p l w n sp :
  log_wf node_id l → edit_fresh l (lower_one w n sp) → view_exact l0 p l →
  match check_spec node_id l0 p sp with
  | Ok p' => edit_lands l (lower_one w n sp) ∧ view_exact l0 p' (apply_edit node_id l (lower_one w n sp))
  | Err (UnknownNode x) => x ∈ edit_nodes (lower_one w n sp) ∧ key_of (graph l) x = None
  | Err _ => True
  end.
Proof.
  intros Hw Hf Hv. unfold edit_lands.
  destruct sp as [x|x|f t y|i'|node from|node facet value|node facet]; cbn [check_spec lower_one edit_nodes] in *.
  - split; [constructor|]. apply (view_after l0 p); [done..|]. intros y. unfold present. cbn.
    destruct (decide (y = node_id x)) as [->|Hne].
    + rw bool_decide_eq_false_2; [|set_solver]. rw bool_decide_eq_true_2; [|set_solver]. cbn. tauto.
    + rw (bool_decide_ext (y ∈ removed p ∖ {[node_id x]}) (y ∈ removed p)); [|set_solver].
      rw (bool_decide_ext (y ∈ {[node_id x]} ∪ added p) (y ∈ added p)); [|set_solver]. tauto.
  - destruct (require_spec l0 p l x Hv) as [[-> Hx]|[-> Hx]]; [|split; [by left|done]].
    split; [by repeat constructor|]. apply (view_after l0 p); [done..|]. intros y. unfold present. cbn.
    destruct (decide (y = x)) as [->|Hne].
    + rw (bool_decide_eq_true_2 (x ∈ {[x]} ∪ _)); [|set_solver]. cbn. split; [done|tauto].
    + rw (bool_decide_ext (y ∈ {[x]} ∪ removed p) (y ∈ removed p)); [|set_solver].
      rw (bool_decide_ext (y ∈ added p ∖ {[x]}) (y ∈ added p)); [|set_solver]. tauto.
  - destruct (require_spec l0 p l f Hv) as [[-> Hx]|[-> Hx]]; [|split; [by left|done]].
    destruct (require_spec l0 p l t Hv) as [[-> Hy]|[-> Hy]]; [|split; [by right; left|done]].
    split; [by repeat constructor|]. by apply (view_after l0 p).
  - destruct (_ || _); [done|]. split; [constructor|]. by apply (view_after l0 p).
  - destruct (require_spec l0 p l node Hv) as [[-> Hx]|[-> Hx]]; [|split; [by left|done]].
    split; [by repeat constructor|]. by apply (view_after l0 p).
  - destruct (require_spec l0 p l node Hv) as [[-> Hx]|[-> Hx]]; [|split; [by left|done]].
    split; [by repeat constructor|]. by apply (view_after l0 p).
  - destruct (require_spec l0 p l node Hv) as [[-> Hx]|[-> Hx]]; [|split; [by left|done]].
    split; [by repeat constructor|]. by apply (view_after l0 p).
Qed.

Lemma check_specs_nodes l0 specs w n p l :
  let edits := (lower w n specs).1.1 in
  log_wf node_id l → NoDup (connect_ids edits) → (∀ i, i ∈ connect_ids edits → by_edge_id l !! i = None) →
  view_exact l0 p l →
  match check_specs node_id l0 p specs with
  | Ok _ => ∀ k e, edits !! k = Some e → edit_lands (apply_edits l (take k edits)) e
  | Err (UnknownNode x) => ∃ k e, edits !! k = Some e ∧ x ∈ edit_nodes e ∧
      key_of (graph (apply_edits l (take k edits))) x = None
  | Err _ => True
  end.
Proof.
  revert n p l. induction specs as [|sp specs IH]; intros n p l edits Hw Hnd Hf Hv; [done|].
  destruct (lower_cons w n sp specs) as [n' El]. subst edits. rw El in Hnd. rw El in Hf. rw El.
  destruct (fresh_step l _ _ Hw Hnd Hf) as (Hfe & Hw1 & Hnd1 & Hf1). cbn [check_specs].
  pose proof (check_step l0 p l w n sp Hw Hfe Hv) as Hstep.
  destruct (check_spec node_id l0 p sp) as [p'|err].
  - destruct Hstep as [Hl Hv1]. specialize (IH n' p' _ Hw1 Hnd1 Hf1 Hv1).
    destruct (check_specs node_id l0 p' specs) as [p''|[| x | |]]; try done.
    + intros [|k] e; cbn; [by intros [= <-]|]. apply IH.
    + destruct IH as (k & e & Hk & Hx & Hno). by exists (S k), e.
  - destruct err as [|x| |]; try done. destruct Hstep as [Hx Hno]. by exists 0%nat, (lower_one w n sp).
Qed.

Lemma check_specs_edges l0 specs p i :
  check_specs node_id l0 p specs = Err (UnknownEdge i) →
  ∃ k, specs !! k = Some (SpDisconnect i) ∧
    (edge_key l0 i = None ∨ i ∈ dropped_edges p ∨ SpDisconnect i ∈ take k specs).
Proof.
  revert p. induction specs as [|sp specs IH]; intros p; [done|]. cbn [check_specs].
  assert (∀ p', (∀ x, x ∈ dropped_edges p' → x ∈ dropped_edges p ∨ sp = SpDisconnect x) →
    check_specs node_id l0 p' specs = Err (UnknownEdge i) → ∃ k, (sp :: specs) !! k = Some (SpDisconnect i) ∧
    (edge_key l0 i = None ∨ i ∈ dropped_edges p ∨ SpDisconnect i ∈ take k (sp :: specs))) as Hgo.
  { intros p' Hp' (k & Hk & Hor)%IH. exists (S k). split; [done|]. cbn [take]. rw elem_of_cons.
    destruct Hor as [?|[Hd|?]]; [by left| |by auto]. destruct (Hp' i Hd) as [?|?]; auto. }
  destruct sp as [x|x|f t y|i'|node from|node facet value|node facet]; cbn [check_spec]; unfold require.
  - apply Hgo. cbn. auto.
  - destruct (present l0 p x); [|done]. apply Hgo. cbn. auto.
  - destruct (present l0 p f); [|done]. destruct (present l0 p t); [|done]. apply Hgo. auto.
  - destruct (_ || _) eqn:Eor.
    + intros [= ->]. exists 0%nat. split; [done|]. apply orb_true_iff in Eor as [Hd%bool_decide_eq_true|Hd]; [auto|].
      left. by destruct (edge_key l0 i).
    + apply Hgo. cbn. intros x [->%elem_of_singleton|?]%elem_of_union; auto.
  - destruct (present l0 p node); [|done]. apply Hgo. auto.
  - destruct (present l0 p node); [|done]. apply Hgo. auto.
  - destruct (present l0 p node); [|done]. apply Hgo. auto.
Qed.

Lemma check_specs_error l0 specs p err :
  check_specs node_id l0 p specs = Err err → (∃ x, err = UnknownNode x) ∨ ∃ i, err = UnknownEdge i.
Proof.
  revert p. induction specs as [|sp specs IH]; intros p; [done|]. cbn [check_specs].
  destruct (check_spec node_id l0 p sp) as [p'|err'] eqn:Es; [apply IH|]. intros [= ->].
  destruct sp; cbn in Es; unfold require in Es; repeat case_match; simplify_eq; eauto.
Qed.

Lemma a_apply_all_edge_ids es (a : A) i :
  is_Some (a_edges (a_apply_all a es) !! i) → is_Some (a_edges a !! i) ∨ i ∈ connect_ids es.
Proof.
  revert a. induction es as [|e es IH]; intros a; [by left|]. cbn [a_apply_all fold_left].
  intros [Hs|Hs]%IH; [apply a_apply_edge_ids in Hs as [?|Hc]; [by left|]|]; right.
  - destruct e; cbn in Hc |- *; simplify_eq. by left.
  - destruct e; cbn; try done. by right.
Qed.

(** An id the journal never used is not live. *)
Lemma replay_fresh j w i :
  NoDup (connect_ids (edits_of j)) → i ∉ connect_ids (edits_of j) →
  by_edge_id (replay_for_writer node_id j w) !! i = None.
Proof.
  intros Hnd Hi. destruct (replay_abs j w Hnd) as [Hw Ha]. apply eq_None_not_Some.
  intros Hlive%edge_ids_abs; [|done]. rw Ha in Hlive.
  apply a_apply_all_edge_ids in Hlive as [[? Hlive]|Hlive]; [by rw lookup_empty in Hlive|done].
Qed.

Lemma session_fresh w j0 l specs :
  ids_ok w j0 → session w j0 l → next_edge l + Z.of_nat (spec_connects specs) ≤ u64_max →
  let edits := (lower w (next_edge l) specs).1.1 in
  log_wf node_id l ∧ NoDup (connect_ids edits) ∧ ∀ i, i ∈ connect_ids edits → by_edge_id l !! i = None.
Proof.
  intros H0' Hs Hb. pose proof (session_ids w j0 l H0' Hs) as Hok. pose proof (session_replayed w j0 l Hs) as Hr.
  destruct (lower w (next_edge l) specs) as [[edits minted] n] eqn:El. cbn [fst].
  pose proof (minted_extend w (log l) specs edits minted n Hok) as Hx. cbn zeta in Hx. rw -Hr in Hx.
  destruct (Hx Hb El) as (-> & (_ & Hdisj & Hnd)%NoDup_app & Hrng).
  destruct (replay_abs (log l) w (proj1 Hok)) as [Hw _]. rw -Hr in Hw. split_and!; [done..|].
  intros i Hi. rw Hr. apply replay_fresh; [apply Hok|]. intros Hi'. by apply (Hdisj i).
Qed.

(** A committed batch, seen through [abs]. *)
Lemma commit_abs w j0 l author expected specs l' c :
  ids_ok w j0 → session w j0 l → next_edge l + Z.of_nat (spec_connects specs) ≤ u64_max →
  commit_batch node_id l author expected specs = (l', Ok c) →
  let edits := (lower w (next_edge l) specs).1.1 in
  abs node_id l' = a_apply_all (abs node_id l) edits ∧
  j_entries (log l') = j_entries (log l) ++ [mkBatch author edits].
Proof.
  intros Hok Hs Hb Hc. pose proof (session_replayed w j0 l Hs) as Hr.
  destruct (replay_fields (log l) w) as (_ & Hwr & _). rw -Hr in Hwr.
  assert (0 ≤ next_edge l) as Hn by (rw Hr; apply replay_next_nonneg).
  destruct (session_fresh w j0 l specs Hok Hs Hb) as (Hw & Hnd & Hf).
  destruct (commit_state l author expected specs l' c Hn Hb Hc) as (edits & n & El & _ & ->).
  rw Hwr in El. rw El in Hnd. rw El in Hf. rw El. cbn [fst] in *.
  destruct (apply_edits_refines l edits Hw Hnd Hf) as [_ <-]. split; [by apply abs_same|done].
Qed.

(** C32. The precheck is exact, on every branch of a commit.  A commit
    that succeeds has every edit land: at its turn, each node it names is in the
    graph.  A refused commit leaves the log as it was, and for the reason it
    gives: the revision it reports is current and was not the expected one; the
    unknown node is named by a spec at whose turn it is not in the graph; the
    unknown edge is named by a disconnect and is not live, or was disconnected
    earlier in the batch. *)
Theorem commit_outcome_exact w j0 l author expected specs :
  ids_ok w j0 → session w j0 l → next_edge l + Z.of_nat (spec_connects specs) ≤ u64_max →
  let edits := (lower w (next_edge l) specs).1.1 in
  let '(l', r) := commit_batch node_id l author expected specs in
  match r with
  | Ok _ => expected = revision l ∧ edits_of (log l') = edits_of (log l) ++ edits ∧
      ∀ k e, edits !! k = Some e → edit_lands (apply_edits l (take k edits)) e
  | Err err => l' = l ∧
      match err with
      | RevisionConflict current => current = revision l ∧ expected ≠ current
      | UnknownNode x => ∃ k e, edits !! k = Some e ∧ x ∈ edit_nodes e ∧
          key_of (graph (apply_edits l (take k edits))) x = None
      | UnknownEdge i => ∃ k, specs !! k = Some (SpDisconnect i) ∧
          (edge_key l i = None ∨ SpDisconnect i ∈ take k specs)
      | SelfBearing _ => False
      end
  end.
Proof.
  intros H0' Hs Hb edits. destruct (session_fresh w j0 l specs H0' Hs Hb) as (Hw & Hnd & Hf). fold edits in Hnd, Hf.
  pose proof (session_replayed w j0 l Hs) as Hr. destruct (replay_fields (log l) w) as (_ & Hwr & _). rw -Hr in Hwr.
  assert (view_exact l (mkPrecheck ∅ ∅ ∅) l) as Hv.
  { intros x. unfold present. cbn. destruct (key_of (graph l) x); cbn; split; try done; by eexists. }
  pose proof (check_specs_nodes l specs w (next_edge l) (mkPrecheck ∅ ∅ ∅) l Hw Hnd Hf Hv) as Hn. fold edits in Hn.
  unfold commit_batch. destruct (bool_decide (expected ≠ revision l)) eqn:Erev.
  { apply bool_decide_eq_true in Erev. done. }
  apply bool_decide_eq_false in Erev. destruct (check_specs node_id l _ specs) as [p|err] eqn:Ec.
  - rw Hwr. subst edits. destruct (lower w (next_edge l) specs) as [[edits minted] n]. cbn [fst] in *.
    destruct (apply_edits_counter (set_next n l) edits) as (Hlog & _). unfold apply_edits in Hlog.
    unfold apply_batch, append. cbn [ba_edits log set_log]. rw Hlog. cbn [log set_next].
    split_and!; [by apply dec_stable|apply edits_of_append|done].
  - split; [done|]. destruct (check_specs_error l specs _ err Ec) as [[x ->]|[i ->]]; [done|].
    apply check_specs_edges in Ec as (k & Hk & Hor). exists k. split; [done|].
    destruct Hor as [?|[?|?]]; [by left| |by right]. set_solver.
Qed.

(** ** Reopening for another writer *)

Lemma replay_frame j w :
  replay_for_writer node_id j w =
  set_log j (set_writer w (fold_left (next_after w) (edits_of j) 0) (apply_edits log_new (edits_of j))).
Proof.
  rw replay_eq. change (for_writer log_new w) with (set_log journal_new (set_writer w 0 (log_new : Log))).
  by rw apply_edits_frame.
Qed.

Lemma recovered_counter w es n :
  0 ≤ n → (∀ i, i ∈ connect_ids es → 0 ≤ ei_counter i < u64_max) →
  fold_left (next_after w) es n = Z.max n (foldr Z.max 0 (omap (minted_after w) es)).
Proof.
  revert n. induction es as [|e es IH]; intros n Hn Hb; [cbn; lia|].
  destruct e as [m|id|i f t x|i|node from|node facet value|node facet]; cbn [fold_left next_after omap list_omap minted_after];
    try (apply IH; done).
  assert (0 ≤ ei_counter i < u64_max) as Hi by (apply Hb; cbn; by left).
  assert (∀ i', i' ∈ connect_ids es → 0 ≤ ei_counter i' < u64_max) as Hb' by (intros ??; apply Hb; cbn; by right).
  case_bool_decide.
  - rw wrap64_small; [|unfold is_u64; lia]. rw IH //; [|lia]. cbn. unfold saturating_add. lia.
  - by apply IH.
Qed.

(** [for_writer] after a replay is the recovery the multi-writer path
    promises: taking any session's log over for a writer [v] gives exactly the
    log replayed for [v] from the start, counter included, so [v] cannot reuse
    an id it minted before; and a fork is the same graph under its new journal
    header, held by the local writer. *)
Theorem reopening_recovers w j0 l v new_id :
  session w j0 l →
  (∀ i, i ∈ connect_ids (edits_of (log l)) → 0 ≤ ei_counter i < u64_max) →
  for_writer l v = replay_for_writer node_id (log l) v ∧
  log_fork node_id l new_id = set_log (journal_fork (log l) new_id) (for_writer l WriterId_LOCAL).
Proof.
  intros Hs Hb. pose proof (session_replayed w j0 l Hs) as Hr.
  assert (∀ u, for_writer l u = replay_for_writer node_id (log l) u) as Hfor.
  { intros u. unfold for_writer. fold (edits_of (log l)). rw replay_frame recovered_counter //.
    rw Z.max_r; [|clear; induction (omap (minted_after u) (edits_of (log l))); cbn; lia].
    rw {2}Hr replay_frame. done. }
  split; [apply Hfor|]. rw Hfor. unfold log_fork, replay_local. by rw !replay_frame.
Qed.
End replay.
