(* ===== verification/GraphCheckpoint.v ===== *)
(** Checkpointed loading of the graph spine: a snapshot of a log, reloaded and
    brought up to date with the tail of the journal, is the log, read through
    stable ids.  The petgraph keys of the two differ in general. *)

From S2P Require Import Prelude Journal StableGraph GraphLog GraphSpec GraphReplay.

Local Open Scope Z_scope.

Section checkpoint.
Context {G : Type → Type → Type} `{StableGraph G}.
Context {N E Id F V : Type} `{Countable Id} `{Countable F}.
Context (node_id : N → Id).

Abbreviation Log := (GraphLog (G := G) (N := N) (E := E) (Id := Id) (F := F) (V := V)).
Abbreviation Edit := (GraphEdit (N := N) (E := E) (Id := Id) (F := F) (V := V)).
Abbreviation A := (AGraph (N := N) (E := E) (Id := Id) (F := F) (V := V)).
Abbreviation Snap := (Snapshot (N := N) (E := E) (Id := Id) (F := F) (V := V)).
Abbreviation nodes l := (sg_nodes (inner (graph l))).
Abbreviation edges l := (sg_edges (inner (graph l))).
Implicit Types l : Log.

(** ** Loading is applying edits *)

Definition edge_edit (e : EdgeId * Id * Id * E) : Edit := let '(i, f, t, w) := e in Connect i f t w.
Definition derive_edit (nd : Id * DerivationRecord Id) : Edit := Derive nd.1 nd.2.

Definition snap_edits (sn : Snap) : list Edit :=
  (InsertNode <$> sp_nodes sn) ++ (edge_edit <$> sp_edges sn) ++ (derive_edit <$> sp_derivations sn).

Lemma load_nodes_eq l ns :
  fold_left (λ l n, set_graph (graph_insert node_id (graph l) n).2 l) ns l = apply_edits node_id l (InsertNode <$> ns).
Proof. revert l. by induction ns as [|n ns IH]; intros l; [|apply IH]. Qed.

Lemma load_derivations_eq l ds :
  fold_left load_derivation ds l = apply_edits node_id l (derive_edit <$> ds).
Proof. revert l. by induction ds as [|n ns IH]; intros l; [|apply IH]. Qed.

Lemma load_edge_eq l e :
  load_edge l e = set_writer (writer l) (next_edge l) (apply_edit node_id l (edge_edit e)).
Proof.
  destruct e as [[[i f] t] w]. unfold load_edge, edge_edit. rw apply_connect_eq. unfold key_of, land_edge.
  destruct l as [gr lg bi bk dv fc wr nx]; cbn.
  destruct (by_id gr !! f) as [fk|]; cbn; [destruct (by_id gr !! t) as [tk|]; cbn|].
  1: destruct (graph_connect gr fk tk w); cbn.
  all: by case_bool_decide.
Qed.

Lemma apply_edits_set_writer l es w n :
  ∃ n', apply_edits node_id (set_writer w n l) es = set_writer w n' (apply_edits node_id l es).
Proof.
  exists (fold_left (next_after w) es n).
  change (set_writer w n l) with (set_log (log l) (set_writer w n l)). rw apply_edits_frame.
  destruct (apply_edits_counter node_id l es) as (<- & _). done.
Qed.

Lemma load_edges_eq l es :
  ∃ w n, fold_left load_edge es l = set_writer w n (apply_edits node_id l (edge_edit <$> es)).
Proof.
  revert l. induction es as [|e es IH]; intros l.
  { exists (writer l), (next_edge l). by destruct l. }
  cbn [fold_left]. rw load_edge_eq. destruct (IH (set_writer (writer l) (next_edge l) (apply_edit node_id l (edge_edit e)))) as (w & n & ->).
  destruct (apply_edits_set_writer (apply_edit node_id l (edge_edit e)) (edge_edit <$> es) (writer l) (next_edge l)) as [n' ->].
  by exists w, n.
Qed.

Lemma load_snapshot_eq (sn : Snap) :
  load_snapshot node_id sn =
  (set_writer (sp_writer sn) (sp_next_edge sn)
     (set_facets (sp_facets sn) (apply_edits node_id (log_new : Log) (snap_edits sn))), sp_at_seq sn).
Proof.
  unfold load_snapshot, snap_edits. rw load_nodes_eq load_derivations_eq !apply_edits_app.
  destruct (load_edges_eq (apply_edits node_id (log_new : Log) (InsertNode <$> sp_nodes sn)) (sp_edges sn)) as (w & n & ->).
  destruct (apply_edits_set_writer (apply_edits node_id (apply_edits node_id (log_new : Log) (InsertNode <$> sp_nodes sn))
    (edge_edit <$> sp_edges sn)) (derive_edit <$> sp_derivations sn) w n) as [n' ->]. done.
Qed.

(** ** What the snapshot lists *)

Lemma elem_of_graph_nodes l k n : (k, n) ∈ graph_nodes (graph l) ↔ nodes l !! k = Some n.
Proof.
  unfold graph_nodes, graph_node. rw list_elem_of_omap. split.
  - intros (k' & _ & Hk'). destruct (nodes l !! k') eqn:Ek; cbn in Hk'; by simplify_eq.
  - intros Hk. exists k. rw Hk. split; [|done]. rw node_indices_nodes list_elem_of_fmap.
    exists (k, n). split; [done|]. by apply elem_of_map_to_list.
Qed.

Lemma graph_nodes_keys_NoDup l : NoDup (graph_nodes (graph l)).*1.
Proof.
  unfold graph_nodes. pose proof (node_indices_nodes _ _ (inner (graph l))) as Hp.
  assert (NoDup (node_indices (inner (graph l)))) as Hn by (rw Hp; apply NoDup_fst_map_to_list).
  revert Hn. clear. induction (node_indices _) as [|k ks IH]; intros Hn; [constructor|].
  apply NoDup_cons in Hn as [Hk Hn]. cbn. destruct (graph_node (graph l) k); cbn; [|by apply IH].
  apply NoDup_cons. split; [|by apply IH]. intros ([k' n'] & -> & Hin)%list_elem_of_fmap.
  apply list_elem_of_omap in Hin as (k0 & Hk0 & Hy). destruct (graph_node (graph l) k0); cbn in Hy; by simplify_eq.
Qed.

Lemma graph_node_ids_NoDup l : log_wf node_id l → NoDup (node_id <$> (graph_nodes (graph l)).*2).
Proof.
  intros Hw. rw -list_fmap_compose. pose proof (graph_nodes_keys_NoDup l) as Hk.
  assert (∀ k n, (k, n) ∈ graph_nodes (graph l) → nodes l !! k = Some n) as Hin by (intros ??; apply elem_of_graph_nodes).
  revert Hk Hin. induction (graph_nodes (graph l)) as [|[k n] kns IH]; intros Hk Hin; [constructor|].
  cbn in Hk |- *. apply NoDup_cons in Hk as [Hk Hks]. apply NoDup_cons. split; [|apply IH; [done|set_solver]].
  intros ([k' n'] & Heq & Hin')%list_elem_of_fmap. cbn in Heq. apply Hk, list_elem_of_fmap. exists (k', n').
  split; [|done]. cbn. apply (node_key_unique node_id l k k' n n'); [done|apply Hin; by left|apply Hin; by right|done].
Qed.

Definition edge_entry l (kn : Z * N) (e : Z * Z * E) : option (EdgeId * Id * Id * E) :=
  i ← by_edge_key l !! e.1.1; t ← nodes l !! e.1.2; Some (i, node_id kn.2, node_id t, e.2).

Lemma node_edges_total l kn :
  log_wf node_id l → node_edges node_id l kn = Some (omap (edge_entry l kn) (edges_out (inner (graph l)) kn.1)).
Proof.
  intros Hw. unfold node_edges.
  assert (∀ e t w, (e, t, w) ∈ edges_out (inner (graph l)) kn.1 → is_Some (by_edge_key l !! e) ∧ is_Some (nodes l !! t)) as Hall.
  { intros e t w He%elem_of_edges_out. split; [apply (lw_edge_live node_id l Hw); by eexists|].
    by eapply (lw_ends node_id l Hw). }
  revert Hall. induction (edges_out _ _) as [|[[e t] w] es IH]; intros Hall; [done|].
  destruct (Hall e t w ltac:(by left)) as [[i Hi] [m Hm]]. specialize (IH ltac:(set_solver)).
  unfold edge_entry at 1. cbn in *. unfold graph_node in *. cbn in *. rw Hi Hm. cbn. by rw IH.
Qed.

Definition edge_list l : list (EdgeId * Id * Id * E) :=
  graph_nodes (graph l) ≫= λ kn, omap (edge_entry l kn) (edges_out (inner (graph l)) kn.1).

Lemma take_snapshot_eq l :
  log_wf node_id l →
  take_snapshot node_id l = Some (mkGraphSnapshot (snd <$> graph_nodes (graph l)) (edge_list l)
    (mbind (λ nd, (λ r, (nd.1, r)) <$> nd.2) (map_to_list (derivations l)))
    (facets l) (writer l) (next_edge l) (journal_len (log l))).
Proof.
  intros Hw. unfold take_snapshot.
  assert (∀ kns, mapM (node_edges node_id l) kns =
    Some ((λ kn, omap (edge_entry l kn) (edges_out (inner (graph l)) kn.1)) <$> kns)) as Hm.
  { induction kns as [|kn kns IH]; [done|]. cbn. rw node_edges_total //. cbn. by rw IH. }
  rw Hm. cbn. unfold edge_list. do 2 f_equal. generalize (graph_nodes (graph l)). intros kns.
  induction kns as [|kn kns IH]; [done|]. cbn. by rw IH.
Qed.

Lemma edge_entry_Some l k n e i f t w :
  log_wf node_id l → nodes l !! k = Some n → e ∈ edges_out (inner (graph l)) k →
  edge_entry l (k, n) e = Some (i, f, t, w) →
  by_edge_id l !! i = Some e.1.1 ∧ f = node_id n ∧ end_ids node_id l (k, e.1.2, e.2) = Some (f, t, w) ∧
  edges l !! e.1.1 = Some (k, e.1.2, e.2).
Proof.
  intros Hw Hn He Hen. destruct e as [[e t'] w']. apply elem_of_edges_out in He. unfold edge_entry in Hen. cbn in Hen.
  destruct (by_edge_key l !! e) as [i'|] eqn:Ek; [cbn in Hen|done].
  destruct (nodes l !! t') as [m|] eqn:Em; [cbn in Hen|done]. simplify_eq. cbn.
  split_and!; [by apply (lw_edge_ids node_id l Hw)|done| |done]. unfold end_ids; cbn. by rw Hn Em.
Qed.

Lemma elem_of_edge_list l i f t w :
  log_wf node_id l → (i, f, t, w) ∈ edge_list l ↔ a_edges (abs node_id l) !! i = Some (f, t, w).
Proof.
  intros Hw. unfold edge_list. rw abs_edge list_elem_of_bind. split.
  - intros ([k n] & Hin & Hk%elem_of_graph_nodes). apply list_elem_of_omap in Hin as (e & He & Hen).
    destruct (edge_entry_Some l k n e i f t w Hw Hk He Hen) as (Hi & _ & Hends & Hed). rw Hi. cbn. by rw Hed.
  - destruct (by_edge_id l !! i) as [e|] eqn:Ei; [cbn|done].
    destruct (edges l !! e) as [[[k b] w']|] eqn:Ee; [cbn|done]. unfold end_ids; cbn.
    destruct (nodes l !! k) as [n|] eqn:Ek; [cbn|done]. destruct (nodes l !! b) as [m|] eqn:Eb; [cbn|done].
    intros [= <- <- <-]. exists (k, n). split; [|by apply elem_of_graph_nodes]. apply list_elem_of_omap.
    exists (e, b, w'). split; [by apply elem_of_edges_out|]. unfold edge_entry; cbn.
    apply (lw_edge_ids node_id l Hw) in Ei. rw Ei. cbn. by rw Eb.
Qed.

Lemma NoDup_fmap_omap {X Y W} (f : X → option Y) (g : Y → W) xs :
  NoDup xs → (∀ x y a b, x ∈ xs → y ∈ xs → f x = Some a → f y = Some b → g a = g b → x = y) →
  NoDup (g <$> omap f xs).
Proof.
  induction 1 as [|x xs Hx Hn IH]; intros Hinj; [constructor|]. cbn.
  assert (NoDup (g <$> omap f xs)) as Hrest.
  { apply IH. intros y z a b Hy Hz. apply Hinj; by right. }
  destruct (f x) as [a|] eqn:Ex; [|done]. cbn. apply NoDup_cons. split; [|done].
  intros (b & Hb & (y & Hy & Ey)%list_elem_of_omap)%list_elem_of_fmap. apply Hx.
  by rw (Hinj x y a b ltac:(by left) ltac:(by right) Ex Ey Hb).
Qed.

Lemma list_bind_fmap {X Y W} (f : X → list Y) (g : Y → W) xs :
  g <$> (xs ≫= f) = xs ≫= λ x, g <$> f x.
Proof. induction xs as [|x xs IH]; [done|]. cbn. by rw fmap_app IH. Qed.

Lemma edge_list_ids_NoDup l : log_wf node_id l → NoDup ((λ e, e.1.1.1) <$> edge_list l).
Proof.
  intros Hw. unfold edge_list. rw list_bind_fmap. apply NoDup_bind.
  - intros [k n] [k' n'] i Hk%elem_of_graph_nodes Hk'%elem_of_graph_nodes Hi Hi'. cbn in Hi, Hi'.
    apply list_elem_of_fmap in Hi as ([[[i0 f] t] w] & -> & (e & He & Hen)%list_elem_of_omap).
    apply list_elem_of_fmap in Hi' as ([[[i1 f'] t'] w'] & Heq & (e' & He' & Hen')%list_elem_of_omap). cbn in Heq. subst i1.
    destruct (edge_entry_Some l k n e i0 f t w Hw Hk He Hen) as (Hi & _ & _ & Hed).
    destruct (edge_entry_Some l k' n' e' i0 f' t' w' Hw Hk' He' Hen') as (Hi' & _ & _ & Hed'). congruence.
  - intros [k n] Hk%elem_of_graph_nodes. cbn. apply NoDup_fmap_omap; [apply edges_out_NoDup|].
    intros e e' [[[i0 f] t] w] [[[i1 f'] t'] w'] He He' Hen Hen' Heq. cbn in Heq. subst i1.
    destruct (edge_entry_Some l k n e i0 f t w Hw Hk He Hen) as (Hi & _ & _ & Hed).
    destruct (edge_entry_Some l k n e' i0 f' t' w' Hw Hk He' Hen') as (Hi' & _ & _ & Hed').
    destruct e as [[??]?], e' as [[??]?]; cbn in *. congruence.
  - eapply NoDup_fmap_1, graph_nodes_keys_NoDup.
Qed.

(** ** What loading the lists builds *)

Lemma a_insert_all ns (a : A) :
  NoDup (node_id <$> ns) →
  let a' := a_apply_all node_id a (InsertNode <$> ns) in
  a_edges a' = a_edges a ∧ a_derivations a' = a_derivations a ∧
  ∀ i n, a_nodes a' !! i = Some n ↔
    (n ∈ ns ∧ node_id n = i) ∨ ((i ∉ (node_id <$> ns)) ∧ a_nodes a !! i = Some n).
Proof.
  unfold a_apply_all. revert a. induction ns as [|m ns IH]; intros a Hnd; cbn.
  { split_and!; [done..|]. intros i n. set_solver. }
  apply NoDup_cons in Hnd as [Hm Hnd].
  destruct (IH (a_apply node_id a (InsertNode m)) Hnd) as (He & Hd & Hn). split_and!; [done..|].
  intros i n. rw Hn. cbn. rw lookup_insert_Some not_elem_of_cons elem_of_cons. split.
  - intros [[Hin <-]|[Hi [[<- <-]|[Hne Ha]]]]; [tauto|by auto|]. right. split_and!; first [done|congruence].
  - intros [[[->|Hin] <-]|[[Hne Hi] Ha]]; [right; split; [done|]; by left|by left|]. right. split; [done|]. right.
    split; [congruence|done].
Qed.

Lemma a_connect_all es (a : A) :
  NoDup ((λ e, e.1.1.1) <$> es) →
  (∀ i f t w, (i, f, t, w) ∈ es → is_Some (a_nodes a !! f) ∧ is_Some (a_nodes a !! t)) →
  let a' := a_apply_all node_id a (edge_edit <$> es) in
  a_nodes a' = a_nodes a ∧ a_derivations a' = a_derivations a ∧
  ∀ i f t w, a_edges a' !! i = Some (f, t, w) ↔
    (i, f, t, w) ∈ es ∨ ((i ∉ ((λ e, e.1.1.1) <$> es)) ∧ a_edges a !! i = Some (f, t, w)).
Proof.
  unfold a_apply_all. revert a. induction es as [|[[[i0 f0] t0] w0] es IH]; intros a Hnd Hends; cbn [fmap list_fmap fold_left].
  { split_and!; [done..|]. intros i f t w. set_solver. }
  cbn in Hnd. apply NoDup_cons in Hnd as [Hm Hnd].
  destruct (Hends i0 f0 t0 w0 ltac:(by left)) as [[nf Hf] [nt Ht]].
  assert (a_apply node_id a (edge_edit (i0, f0, t0, w0)) =
    mkAGraph (a_nodes a) (<[i0 := (f0, t0, w0)]> (a_edges a)) (a_derivations a) (a_facets a)) as ->.
  { cbn. by rw Hf Ht. }
  destruct (IH (mkAGraph (a_nodes a) (<[i0 := (f0, t0, w0)]> (a_edges a)) (a_derivations a) (a_facets a)) Hnd) as (Hn & Hd & He).
  { cbn. intros i f t w Hin. apply (Hends i f t w). by right. }
  split_and!; [done..|]. intros i f t w. rw He. cbn. rw lookup_insert_Some not_elem_of_cons elem_of_cons.
  assert ((i, f, t, w) ∈ es → i ∈ (λ e, e.1.1.1) <$> es) as Hin.
  { intros Hin. apply list_elem_of_fmap. by exists (i, f, t, w). }
  split.
  - intros [?|[Hi [[<- [= <- <- <-]]|[Hne Ha]]]]; [tauto|by auto|]. right. split_and!; first [done|congruence].
  - intros [[[= -> -> -> ->]|?]|[[Hne Hi] Ha]]; [right; split; [done|]; by left|by left|]. right. split; [done|]. right.
    split; [congruence|done].
Qed.

(** The records of one node in a flat list. *)
Definition records_of (i : Id) (ds : list (Id * DerivationRecord Id)) : list (DerivationRecord Id) :=
  omap (λ nd, if decide (nd.1 = i) then Some nd.2 else None) ds.

Lemma a_derive_all ds (a : A) :
  let a' := a_apply_all node_id a (derive_edit <$> ds) in
  a_nodes a' = a_nodes a ∧ a_edges a' = a_edges a ∧
  ∀ i, a_derivations a' !! i =
    match records_of i ds with [] => a_derivations a !! i | rs => Some (default [] (a_derivations a !! i) ++ rs) end.
Proof.
  unfold a_apply_all. revert a. induction ds as [|[x r] ds IH]; intros a; [done|]. cbn [fmap list_fmap fold_left].
  destruct (IH (a_apply node_id a (derive_edit (x, r)))) as (Hn & He & Hd). split_and!; [done..|].
  intros i. rw Hd. cbn. unfold records_of. cbn. case_decide as Hx; cbn; [subst|].
  - rw lookup_insert_eq. cbn. fold (records_of i ds). destruct (records_of i ds); [done|]. by rw -app_assoc.
  - by rw lookup_insert_ne.
Qed.

Lemma records_of_flat i (m : gmap Id (list (DerivationRecord Id))) :
  records_of i (mbind (λ nd, (λ r, (nd.1, r)) <$> nd.2) (map_to_list m)) = default [] (m !! i).
Proof.
  assert (∀ x rs, records_of i ((λ r, (x, r)) <$> rs) = if decide (x = i) then rs else []) as Hone.
  { intros x rs. unfold records_of. induction rs as [|r rs IH]; cbn; [by case_decide|]. rw IH. by case_decide. }
  assert (∀ kvs : list (Id * list (DerivationRecord Id)), NoDup kvs.*1 →
    records_of i (mbind (λ nd, (λ r, (nd.1, r)) <$> nd.2) kvs) = default [] ((list_to_map kvs : gmap _ _) !! i)) as Hgo.
  { induction kvs as [|[x rs] kvs IH]; intros Hnd; [done|]. cbn in Hnd |- *. apply NoDup_cons in Hnd as [Hx Hnd].
    unfold records_of. rw omap_app. fold (records_of i ((λ r, (x, r)) <$> rs)). rw Hone.
    fold (records_of i (mbind (λ nd, (λ r, (nd.1, r)) <$> nd.2) kvs)). rw IH //. case_decide as Hxi; [subst|].
    - rw lookup_insert_eq. rw (not_elem_of_list_to_map_1 kvs i Hx). cbn. apply app_nil_r.
    - by rw lookup_insert_ne. }
  rw Hgo; [|apply NoDup_fst_map_to_list]. by rw list_to_map_to_list.
Qed.

(** No node carries an empty derivation list. *)
Definition derivations_full (ds : gmap Id (list (DerivationRecord Id))) : Prop := ∀ i, ds !! i ≠ Some [].

Lemma a_apply_derivations (a : A) e :
  derivations_full (a_derivations a) → derivations_full (a_derivations (a_apply node_id a e)).
Proof.
  intros Ha. destruct e as [m|id|i f t x|i|node from|node facet value|node facet]; cbn; try done.
  - intros i. rw lookup_delete_Some. intros [_ Hi]. by apply (Ha i).
  - by destruct (a_nodes a !! f), (a_nodes a !! t).
  - intros i [[_ Hi]|[_ Hi]]%lookup_insert_Some; [by destruct (default [] _)|by apply (Ha i)].
  - by destruct (a_nodes a !! node).
  - by destruct (a_nodes a !! node).
Qed.

Lemma a_apply_all_derivations es (a : A) :
  derivations_full (a_derivations a) → derivations_full (a_derivations (a_apply_all node_id a es)).
Proof.
  unfold a_apply_all. revert a. induction es as [|e es IH]; intros a Ha; [done|]. cbn. by apply IH, a_apply_derivations.
Qed.

Lemma connect_ids_snap (sn : Snap) : connect_ids (snap_edits sn) = (λ e, e.1.1.1) <$> sp_edges sn.
Proof.
  unfold snap_edits. rw !connect_ids_app.
  assert (∀ ns : list N, connect_ids ((InsertNode <$> ns) : list Edit) = []) as -> by (induction ns; done).
  assert (∀ ds, connect_ids (derive_edit <$> ds) = []) as -> by (induction ds; done).
  rw app_nil_r. cbn. induction (sp_edges sn) as [|[[[i f] t] w] es IH]; [done|]. cbn. by rw -IH.
Qed.

(** Inserting the listed nodes, then connecting the listed edges. *)
Lemma reload_nodes l :
  log_wf node_id l →
  let a1 := a_apply_all node_id (a_empty : A) (InsertNode <$> (graph_nodes (graph l)).*2) in
  a_nodes a1 = a_nodes (abs node_id l) ∧ a_edges a1 = ∅ ∧ a_derivations a1 = ∅.
Proof.
  intros Hw. destruct (a_insert_all (graph_nodes (graph l)).*2 (a_empty : A)) as (He & Hd & Hn); [by apply graph_node_ids_NoDup|].
  split_and!; [|done..]. apply map_eq. intros i. apply option_eq. intros n. rw Hn abs_node. cbn. rw lookup_empty. split.
  - intros [[([k m] & -> & Hk%elem_of_graph_nodes)%list_elem_of_fmap Hid]|[_ ?]]; [|done]. cbn in Hid.
    assert (by_id (graph l) !! i = Some k) as -> by (apply (lw_ids node_id l Hw); eauto). done.
  - intros Hi. left. destruct (by_id (graph l) !! i) as [k|] eqn:Ei; [cbn in Hi|done].
    apply (lw_ids node_id l Hw) in Ei as (m & Hm & Hid). split; [|congruence].
    apply list_elem_of_fmap. exists (k, n). split; [done|]. by apply elem_of_graph_nodes.
Qed.

Lemma reload_edges l (a1 : A) :
  log_wf node_id l → a_nodes a1 = a_nodes (abs node_id l) → a_edges a1 = ∅ →
  let a2 := a_apply_all node_id a1 (edge_edit <$> edge_list l) in
  a_nodes a2 = a_nodes a1 ∧ a_edges a2 = a_edges (abs node_id l) ∧ a_derivations a2 = a_derivations a1.
Proof.
  intros Hw Hn1 He1. destruct (a_connect_all (edge_list l) a1) as (Hn & Hd & He); [by apply edge_list_ids_NoDup| |].
  { intros i f t w Hin%(elem_of_edge_list l i f t w Hw). rw Hn1 -!(key_of_abs node_id l _ Hw).
    by apply (abs_edge_ends node_id l i f t w). }
  split_and!; [done| |done]. apply map_eq. intros i. apply option_eq. intros [[f t] w].
  rw He He1 lookup_empty (elem_of_edge_list l i f t w Hw). naive_solver.
Qed.

(** A reloaded snapshot is well formed and reads as the log it was taken of. *)
Lemma snapshot_reload l sn :
  log_wf node_id l → derivations_full (derivations l) → take_snapshot node_id l = Some sn →
  let l' := (load_snapshot node_id sn).1 : Log in
  log_wf node_id l' ∧ abs node_id l' = abs node_id l ∧ writer l' = writer l ∧ next_edge l' = next_edge l.
Proof.
  intros Hw Hd Hsn. rw take_snapshot_eq // in Hsn. injection Hsn as <-. set (sn := mkGraphSnapshot _ _ _ _ _ _ _).
  rw load_snapshot_eq. cbn [fst]. destruct (log_new_wf (G := G) (E := E) (F := F) (V := V) node_id 0 0) as [Hw0 Ha0].
  change (set_writer 0 0 log_new) with (log_new : Log) in Hw0, Ha0.
  destruct (apply_edits_refines node_id log_new (snap_edits sn) Hw0) as [Hw1 Ha1].
  { rw connect_ids_snap. by apply edge_list_ids_NoDup. }
  { intros i _. apply lookup_empty. }
  set (l1 := apply_edits node_id log_new (snap_edits sn)) in *.
  split_and!; [by apply (log_wf_same node_id l1)| |done|done].
  destruct (reload_nodes l Hw) as (Hn1 & He1 & Hd1).
  set (a1 := a_apply_all node_id (a_empty : A) (InsertNode <$> sp_nodes sn)) in *.
  destruct (reload_edges l a1 Hw Hn1 He1) as (Hn2 & He2 & Hd2).
  set (a2 := a_apply_all node_id a1 (edge_edit <$> sp_edges sn)) in *.
  destruct (a_derive_all (sp_derivations sn) a2) as (Hn3 & He3 & Hd3).
  assert (abs node_id l1 = a_apply_all node_id a2 (derive_edit <$> sp_derivations sn)) as Habs.
  { rw Ha1 Ha0. unfold snap_edits, a2, a1, a_apply_all. by rw !fold_left_app. }
  apply agraph_eq.
  - trans (a_nodes (abs node_id l1)); [done|]. by rw Habs Hn3 Hn2.
  - trans (a_edges (abs node_id l1)); [done|]. by rw Habs He3.
  - trans (a_derivations (abs node_id l1)); [done|]. rw Habs. apply map_eq. intros i. rw Hd3. cbn [sp_derivations sn].
    rw records_of_flat Hd2 Hd1 lookup_empty. cbn. specialize (Hd i). by destruct (derivations l !! i) as [[|]|].
  - done.
Qed.

Lemma load_tail (sn : Snap) (j : Journal (Batch (N := N) (E := E) (Id := Id) (F := F) (V := V))) :
  load_checkpointed node_id (Some sn) j =
  set_log j (apply_edits node_id (load_snapshot node_id sn : Log * nat).1
    (mbind ba_edits (journal_from j (sp_at_seq sn)))).
Proof. unfold load_checkpointed. rw -apply_batches_edits. by destruct (load_snapshot node_id sn) as [l n] eqn:El; injection El as _ <-. Qed.

Lemma checkpoint_load w j0 (l1 l2 : Log) :
  ids_ok w j0 → session node_id w j0 l1 → session node_id w (log l1) l2 →
  ∃ sn, take_snapshot node_id l1 = Some sn ∧
    let l := load_checkpointed node_id (Some sn) (log l2) in
    log_wf node_id l ∧ abs node_id l = abs node_id l2 ∧
    log l = log l2 ∧ writer l = writer l2 ∧ next_edge l = next_edge l2.
Proof.
  intros H0' Hs1 Hs2. pose proof (session_ids node_id w j0 l1 H0' Hs1) as Hok1.
  pose proof (session_ids node_id w (log l1) l2 Hok1 Hs2) as [Hok2 _].
  pose proof (session_replayed node_id w j0 l1 Hs1) as Hr1. pose proof (session_replayed node_id w (log l1) l2 Hs2) as Hr2.
  destruct (session_extends node_id w (log l1) l2 Hs2) as [tail Ht].
  destruct (replay_abs node_id (log l1) w (proj1 Hok1)) as [Hw1 Ha1]. rw -Hr1 in Hw1. rw -Hr1 in Ha1.
  assert (derivations_full (derivations l1)) as Hd1.
  { change (derivations l1) with (a_derivations (abs node_id l1)). rw Ha1. by apply a_apply_all_derivations. }
  pose proof (take_snapshot_eq l1 Hw1) as Hsn. eexists. split; [exact Hsn|].
  destruct (snapshot_reload l1 _ Hw1 Hd1 Hsn) as (Hw' & Ha' & Hwr' & Hn'). rw load_tail. cbn [sp_at_seq] in *.
  set (l' := (load_snapshot node_id _).1) in *. set (es := mbind ba_edits (journal_from _ _)).
  assert (es = mbind ba_edits tail) as Hes.
  { unfold es, journal_from, journal_len. rw Ht length_app Nat.min_l; [|lia]. by rw drop_app_length. }
  assert (edits_of (log l2) = edits_of (log l1) ++ es) as Hed by (unfold edits_of; rw Ht bind_app Hes; done).
  rw Hed connect_ids_app in Hok2. apply NoDup_app in Hok2 as (_ & Hdisj & Hnd).
  assert (∀ i, i ∈ connect_ids es → by_edge_id l1 !! i = None) as Hf1.
  { intros i Hi. rw Hr1. apply replay_fresh; [apply Hok1|]. intros Hi'. by apply (Hdisj i). }
  assert (∀ i, i ∈ connect_ids es → by_edge_id l' !! i = None) as Hf'.
  { intros i Hi. apply eq_None_not_Some. intros Hl%(edge_ids_abs node_id l' i Hw'). rw Ha' in Hl.
    apply (edge_ids_abs node_id l1 i Hw1) in Hl. rw (Hf1 i Hi) in Hl. by destruct Hl. }
  destruct (apply_edits_refines node_id l' es Hw' Hnd Hf') as [Hw2 Ha2].
  destruct (apply_edits_refines node_id l1 es Hw1 Hnd Hf1) as [_ Ha3].
  assert (l2 = set_log (log l2) (apply_edits node_id l1 es)) as Hl2.
  { rw {1}Hr2. rw !replay_eq in Hr1 |- *. by rw Hed apply_edits_app {2}Hr1 apply_edits_log. }
  destruct (apply_edits_counter node_id l' es) as (_ & Hwl & Hnl).
  destruct (apply_edits_counter node_id l1 es) as (_ & Hw1l & Hn1l).
  split_and!; [by apply (log_wf_same node_id (apply_edits node_id l' es))| |done|..]; rw Hl2.
  - trans (abs node_id (apply_edits node_id l' es)); [by apply abs_same|]. rw Ha2 Ha' -Ha3. by apply abs_same.
  - cbn. by rw Hwl Hw1l.
  - cbn. by rw Hnl Hn1l Hn' Hwr'.
Qed.

(** C7. The two load paths agree.  A snapshot of a session's log can
    always be taken (no [expect] fails), and loading it later together with the
    journal the session has since reached gives a well-formed log with that
    journal, the same writer and counter, and the same nodes, edges,
    derivations and facets by stable id as the live log. *)
Theorem checkpoint_load_agrees w j0 (l1 l2 : Log) :
  ids_ok w j0 → session node_id w j0 l1 → session node_id w (log l1) l2 →
  ∃ sn, take_snapshot node_id l1 = Some sn ∧
    let l := load_checkpointed node_id (Some sn) (log l2) in
    log_wf node_id l ∧ abs node_id l = abs node_id l2 ∧
    log l = log l2 ∧ writer l = writer l2 ∧ next_edge l = next_edge l2.
Proof. apply checkpoint_load. Qed.
End checkpoint.

(** ** A concrete session *)

Module Sample.
Abbreviation SLog := (GraphLog (G := fresh_graph) (N := Z) (E := string) (Id := Z) (F := string) (V := Z)).
Abbreviation SJournal := (Journal (Batch (N := Z) (E := string) (Id := Z) (F := string) (V := Z))).
Abbreviation SSpec := (EditSpec (N := Z) (E := string) (Id := Z) (F := string) (V := Z)).

Definition ui : string := "ui".
Definition empty_journal : SJournal := journal_new.
Definition opened : SLog := replay_for_writer id empty_journal 7.

(** Two nodes, an edge, a facet and a derivation in one batch. *)
Definition build : list SSpec :=
  [SpInsertNode 1; SpInsertNode 2; SpConnect 1 2 "cites"; SpSetFacet 2 "title" 5;
   SpDerive 1 (mkDerivation "src" 9 CopiedFrom)].

(** Then the node under the edge goes, and comes back with a new edge. *)
Definition rebuild : list SSpec := [SpRemoveNode 2; SpInsertNode 2; SpConnect 2 1 "cites"].

Definition built : SLog := (commit_batch id opened ui 0 build).1.
Definition rebuilt : SLog := (commit_batch id built ui 1 rebuild).1.

Lemma opened_ok : ids_ok 7 empty_journal.
Proof. split; [constructor|]. intros i Hi. by apply elem_of_nil in Hi. Qed.

Lemma built_session : session id 7 empty_journal built.
Proof.
  eapply (session_commit id 7 empty_journal opened ui 0 build); [apply session_open|by vm_compute|apply surjective_pairing].
Qed.

Lemma rebuilt_session : session id 7 empty_journal rebuilt.
Proof.
  eapply (session_commit id 7 empty_journal built ui 1 rebuild); [apply built_session|by vm_compute|apply surjective_pairing].
Qed.

Lemma rebuilt_after_built : session id 7 (log built) rebuilt.
Proof.
  eapply (session_commit id 7 (log built) built ui 1 rebuild); [|by vm_compute|apply surjective_pairing].
  rw {2}(session_replayed id 7 empty_journal built built_session). apply session_open.
Qed.

Lemma session_is_its_replay_witness :
  next_edge rebuilt = 2 ∧ rebuilt = replay_for_writer id (log rebuilt) 7.
Proof. split; [by vm_compute|]. exact (session_is_its_replay id 7 empty_journal rebuilt rebuilt_session). Defined.

Lemma minted_ids_are_new_witness :
  NoDup (connect_ids (edits_of (log built)) ++ [mkEdgeId 7 1]) ∧
  connect_ids (edits_of (log built)) = [mkEdgeId 7 0].
Proof.
  split; [|by vm_compute].
  exact (proj1 (minted_ids_are_new id 7 empty_journal built ui 1 rebuild rebuilt (mkCommitted 1 [mkEdgeId 7 1])
    opened_ok built_session ltac:(by vm_compute) ltac:(by vm_compute))).
Defined.

Lemma session_refines_witness :
  log_wf id rebuilt ∧ a_edges (abs id rebuilt) = {[mkEdgeId 7 1 := (2, 1, "cites")]}.
Proof.
  destruct (session_refines id 7 empty_journal rebuilt opened_ok rebuilt_session) as [Hw Ha].
  split; [exact Hw|]. rw Ha. by vm_compute.
Defined.

(** Committing a connect to a node the batch itself removed. *)
Lemma commit_outcome_exact_witness :
  (commit_batch id built ui 1 [SpRemoveNode 2; SpConnect 1 2 "cites"]).2 = Err (UnknownNode 2) ∧
  (commit_batch id built ui 1 [SpRemoveNode 2; SpConnect 1 2 "cites"]).1 = built.
Proof.
  pose proof (commit_outcome_exact id 7 empty_journal built ui 1 [SpRemoveNode 2; SpConnect 1 2 "cites"]
    opened_ok built_session ltac:(by vm_compute)) as Hc. cbn zeta in Hc.
  destruct (commit_batch id built ui 1 _) as [l' r] eqn:Ec.
  assert (r = Err (UnknownNode 2)) as -> by (apply (f_equal snd) in Ec; cbn in Ec; rw -Ec; by vm_compute).
  split; [done|]. exact (proj1 Hc).
Defined.

Lemma reopening_recovers_witness :
  for_writer rebuilt 9 = replay_for_writer id (log rebuilt) 9 ∧ next_edge (for_writer rebuilt 7) = 2.
Proof.
  split; [|by vm_compute].
  refine (proj1 (reopening_recovers id 7 empty_journal rebuilt 9 "copy" rebuilt_session _)).
  intros i Hi. assert (connect_ids (edits_of (log rebuilt)) = [mkEdgeId 7 0; mkEdgeId 7 1]) as He by by vm_compute.
  rw He in Hi. unfold u64_max. set_solver by lia.
Defined.

Lemma checkpoint_load_agrees_witness :
  ∃ sn, take_snapshot id built = Some sn ∧
    abs id (load_checkpointed id (Some sn) (log rebuilt) : SLog) = abs id rebuilt.
Proof.
  destruct (checkpoint_load_agrees id 7 empty_journal built rebuilt opened_ok built_session rebuilt_after_built)
    as (sn & Hsn & _ & Ha & _). by exists sn.
Defined.

(** The precheck tracks the nodes a batch removes, not the edges they take with
    them: a disconnect of an edge an earlier removal reaped is accepted. *)
Lemma stale_disconnect_accepted :
  (commit_batch id built ui 1 [SpRemoveNode 2; SpDisconnect (mkEdgeId 7 0)]).2 = Ok (mkCommitted 1 []) ∧
  edge_key (commit_batch id built ui 1 [SpRemoveNode 2]).1 (mkEdgeId 7 0) = None.
Proof. by vm_compute. Qed.
End Sample.
