(* ===== verification/Delegation.v ===== *)
(** Signed capability delegation (crates/dramatis/personae/src/delegation.rs,
    the attestation part of provider.rs).

    [DelegationCertificate] is the signed statement, [attenuates] the narrowing
    a child must satisfy, [certificate_covers] the check at use.  The class
    [Ed25519] is what the code relies on of the signature scheme and of the key
    derivation: a signature made with a key verifies under its public half.
    BLAKE3 is the parameter [blake3].

    The theorems: an issued certificate verifies; the bytes under a signature
    determine the statement, and no bytes are both a certificate and a
    revocation. *)

From S2P Require Import Prelude Wire Capability.

Local Open Scope Z_scope.

Class Ed25519 (K : Type) := {
  public_key : K → Z;
  derive_child : K → list Z → K;
  sign : K → list Z → list Z;
  pk_valid : Z → bool;
  sig_verify : Z → list Z → list Z → bool;
  public_key_is_key k : is_key (public_key k);
  public_key_valid k : pk_valid (public_key k) = true;
  sign_length k m : length (sign k m) = 64%nat;
  sign_verify k m : sig_verify (public_key k) m (sign k m) = true
}.

(** ** Derived-key attestations (provider.rs) *)

Record DerivedKeyAttestation : Type := mkAttestation {
  format_version : Z;
  att_master : Z;
  att_derived : Z;
  att_signature : list Z
}.

Definition DERIVED_KEY_ATTESTATION_VERSION : Z := 1.

Definition derived_key_attestation_message (a : DerivedKeyAttestation) (salt : list Z) : list Z :=
  str_bytes "personae/derived-key-attestation/v1" ++ le_bytes 2 (format_version a) ++
  le_bytes 8 (Z.of_nat (length salt)) ++ salt ++ key_bytes (att_master a) ++ key_bytes (att_derived a).

(** ** Statements (delegation.rs) *)

Inductive DelegationParent : Type :=
| Root (id : Z)
| Certificate (id : Z).

Record CapabilityScope : Type := mkCapScope {
  domain : string;
  resource : list Z;
  path_prefix : string;
  actions : gset string
}.

Record DelegationCertificate : Type := mkCertificate {
  c_version : Z;
  parent : DelegationParent;
  issuer : Z;
  subject : Z;
  cscope : CapabilityScope;
  not_before_ms : Z;
  issued_at_ms : Z;
  c_expires_at_ms : option Z;
  remaining_delegation_depth : Z;
  nonce : Z
}.

#[export] Instance DelegationParent_eq_dec : EqDecision DelegationParent.
Proof. solve_decision. Defined.

Definition CERTIFICATE_VERSION : Z := 1.
Definition REVOCATION_VERSION : Z := 1.

(** Paths match on a slash boundary. *)
Definition path_covers (prefix path : string) : bool :=
  bool_decide (path = prefix) ||
  match strip_prefix prefix path with Some suffix => starts_with "/" suffix | None => false end.

Definition scope_is_well_formed (s : CapabilityScope) : bool :=
  bool_decide (domain s ≠ "") && bool_decide (resource s ≠ []) && bool_decide (path_prefix s ≠ "") &&
  bool_decide (actions s ≠ ∅) && bool_decide (set_Forall (λ a : string, a ≠ "") (actions s)).

Definition scope_attenuates (s p : CapabilityScope) : bool :=
  scope_is_well_formed s && scope_is_well_formed p && bool_decide (domain s = domain p) &&
  bool_decide (resource s = resource p) && path_covers (path_prefix p) (path_prefix s) &&
  bool_decide (actions s ⊆ actions p).

Definition expiry_within (child parent : option Z) : bool :=
  match child, parent with
  | _, None => true
  | Some child, Some parent => bool_decide (child ≤ parent)
  | None, Some _ => false
  end.

Definition is_none_or (o : option Z) (f : Z → bool) : bool :=
  match o with None => true | Some x => f x end.

Definition is_well_formed (c : DelegationCertificate) : bool :=
  bool_decide (c_version c = CERTIFICATE_VERSION) && bool_decide (issuer c ≠ 0) &&
  bool_decide (subject c ≠ 0) && scope_is_well_formed (cscope c) &&
  bool_decide (issued_at_ms c ≤ not_before_ms c) &&
  is_none_or (c_expires_at_ms c) (λ expires, bool_decide (not_before_ms c ≤ expires)).

Definition certificate_covers (c : DelegationCertificate) (path action : string) (at_ms : Z) : bool :=
  is_well_formed c && bool_decide (not_before_ms c ≤ at_ms) &&
  is_none_or (c_expires_at_ms c) (λ expires, bool_decide (at_ms ≤ expires)) &&
  path_covers (path_prefix (cscope c)) path && bool_decide (action ∈ actions (cscope c)).

Definition certificate_new (parent : DelegationParent) (issuer subject : Z) (scope : CapabilityScope)
    (issued_at_ms not_before_ms : Z) (expires_at_ms : option Z) (depth nonce : Z) : DelegationCertificate :=
  mkCertificate CERTIFICATE_VERSION parent issuer subject scope not_before_ms issued_at_ms expires_at_ms depth nonce.

(** ** Signed bytes *)

(** The iteration order of [BTreeSet<String>]. *)
Definition bt_strings (X : gset string) : list string := merge_sort string_le (elements X).

Definition push_scope (s : CapabilityScope) : list Z :=
  push_str (domain s) ++ push_bytes (resource s) ++ push_str (path_prefix s) ++
  le_bytes 8 (Z.of_nat (length (bt_strings (actions s)))) ++ mbind push_str (bt_strings (actions s)).

Definition push_parent (p : DelegationParent) : list Z :=
  match p with Root id => 0 :: key_bytes id | Certificate id => 1 :: key_bytes id end.

Definition push_expiry (value : option Z) : list Z :=
  match value with Some v => 1 :: le_bytes 8 v | None => [0] end.

Definition signing_bytes (c : DelegationCertificate) : list Z :=
  push_str "personae/delegation-certificate/v1" ++ le_bytes 2 (c_version c) ++ push_parent (parent c) ++
  key_bytes (issuer c) ++ key_bytes (subject c) ++ push_scope (cscope c) ++
  le_bytes 8 (issued_at_ms c) ++ le_bytes 8 (not_before_ms c) ++ push_expiry (c_expires_at_ms c) ++
  le_bytes 2 (remaining_delegation_depth c) ++ key_bytes (nonce c).

Definition delegation_signing_salt (s : CapabilityScope) : list Z :=
  push_str "personae/delegation-signing-key/v1" ++ push_str (domain s) ++ push_bytes (resource s).

Record DelegationRevocation : Type := mkRevocation {
  rv_version : Z;
  rv_certificate : Z;
  rv_issuer : Z;
  rv_scope : CapabilityScope;
  rv_nonce : Z;
  rv_at_ms : Z
}.

Definition revocation_new (certificate issuer : Z) (scope : CapabilityScope) (at_ms nonce : Z) : DelegationRevocation :=
  mkRevocation REVOCATION_VERSION certificate issuer scope nonce at_ms.

Definition revocation_signing_bytes (r : DelegationRevocation) : list Z :=
  push_str "personae/delegation-revocation/v1" ++ le_bytes 2 (rv_version r) ++
  key_bytes (rv_certificate r) ++ key_bytes (rv_issuer r) ++ push_scope (rv_scope r) ++
  le_bytes 8 (rv_at_ms r) ++ key_bytes (rv_nonce r).

Record SignedDelegationCertificate : Type := mkSigned {
  certificate : DelegationCertificate;
  signer : DerivedKeyAttestation;
  signature : list Z
}.

Record SignedDelegationRevocation : Type := mkSignedRevocation {
  revocation : DelegationRevocation;
  rv_signer : DerivedKeyAttestation;
  rv_signature : list Z
}.

Inductive DelegationError : Type :=
| MalformedCertificate
| MalformedRevocation
| WrongIssuer
| Identity.

Section signed.
Context {K : Type} `{Ed25519 K} (blake3 : list Z → Z).

Definition attestation_verify (a : DerivedKeyAttestation) (salt : list Z) : bool :=
  if bool_decide (format_version a ≠ DERIVED_KEY_ATTESTATION_VERSION) then false
  else if negb (pk_valid (att_master a)) then false
  else if bool_decide (length (att_signature a) ≠ 64%nat) then false
  else sig_verify (att_master a) (derived_key_attestation_message a salt) (att_signature a).

Definition attest_derived_key (master : K) (salt : list Z) : DerivedKeyAttestation :=
  let a := mkAttestation DERIVED_KEY_ATTESTATION_VERSION (public_key master) (public_key (derive_child master salt)) [] in
  mkAttestation (format_version a) (att_master a) (att_derived a)
    (sign master (derived_key_attestation_message a salt)).

Definition verify_signature (pk : Z) (sig message : list Z) : bool :=
  if negb (pk_valid pk) then false
  else if bool_decide (length sig ≠ 64%nat) then false else sig_verify pk message sig.

Definition certificate_id (c : DelegationCertificate) : Z := blake3 (signing_bytes c).

Definition attenuates (c p : DelegationCertificate) : bool :=
  is_well_formed c && is_well_formed p && bool_decide (parent c = Certificate (certificate_id p)) &&
  bool_decide (issuer c = subject p) && scope_attenuates (cscope c) (cscope p) &&
  bool_decide (not_before_ms p ≤ not_before_ms c) && expiry_within (c_expires_at_ms c) (c_expires_at_ms p) &&
  bool_decide (0 < remaining_delegation_depth p) &&
  bool_decide (remaining_delegation_depth c < remaining_delegation_depth p).

(** [issue]: the identity provider is its master key. *)
Definition certificate_issue (provider : K) (c : DelegationCertificate)
  : result DelegationError SignedDelegationCertificate :=
  if negb (is_well_formed c) then Err MalformedCertificate
  else if bool_decide (public_key provider ≠ issuer c) then Err WrongIssuer
  else
    let salt := delegation_signing_salt (cscope c) in
    Ok (mkSigned c (attest_derived_key provider salt) (sign (derive_child provider salt) (signing_bytes c))).

Definition certificate_verify (s : SignedDelegationCertificate) : bool :=
  if negb (is_well_formed (certificate s)) then false
  else if negb (attestation_verify (signer s) (delegation_signing_salt (cscope (certificate s)))) then false
  else if negb (pk_valid (att_master (signer s))) then false
  else if bool_decide (att_master (signer s) ≠ issuer (certificate s)) then false
  else verify_signature (att_derived (signer s)) (signature s) (signing_bytes (certificate s)).

Definition revocation_issue (provider : K) (r : DelegationRevocation)
  : result DelegationError SignedDelegationRevocation :=
  if bool_decide (rv_version r ≠ REVOCATION_VERSION) || negb (scope_is_well_formed (rv_scope r))
  then Err MalformedRevocation
  else if bool_decide (public_key provider ≠ rv_issuer r) then Err WrongIssuer
  else
    let salt := delegation_signing_salt (rv_scope r) in
    Ok (mkSignedRevocation r (attest_derived_key provider salt)
          (sign (derive_child provider salt) (revocation_signing_bytes r))).

Definition revocation_verify (s : SignedDelegationRevocation) : bool :=
  if bool_decide (rv_version (revocation s) ≠ REVOCATION_VERSION) || negb (scope_is_well_formed (rv_scope (revocation s)))
  then false
  else if negb (attestation_verify (rv_signer s) (delegation_signing_salt (rv_scope (revocation s)))) then false
  else if negb (pk_valid (att_master (rv_signer s))) then false
  else if bool_decide (att_master (rv_signer s) ≠ rv_issuer (revocation s)) then false
  else verify_signature (att_derived (rv_signer s)) (rv_signature s) (revocation_signing_bytes (revocation s)).

(** *** Issuing *)

Lemma attest_verifies k salt : attestation_verify (attest_derived_key k salt) salt = true.
Proof.
  unfold attestation_verify, attest_derived_key. cbn -[str_bytes].
  rw public_key_valid sign_length. apply sign_verify.
Qed.

Lemma verify_signature_sign k m : verify_signature (public_key k) (sign k m) m = true.
Proof. unfold verify_signature. rw public_key_valid sign_length. apply sign_verify. Qed.

Lemma issue_verifies k c s : certificate_issue k c = Ok s → certificate s = c ∧ certificate_verify s = true.
Proof.
  unfold certificate_issue. destruct (is_well_formed c) eqn:Hw; [cbn [negb]|done].
  destruct (bool_decide_reflect (public_key k ≠ issuer c)) as [|Hi]; [done|]. apply dec_stable in Hi.
  intros [= <-]. split; [done|]. unfold certificate_verify. cbn [certificate signer signature].
  rw Hw attest_verifies. rw (public_key_valid k : pk_valid (att_master (attest_derived_key k _)) = true). cbn [negb].
  rw bool_decide_eq_false_2; [apply verify_signature_sign|]. intros Hn. by apply Hn.
Qed.

Lemma revocation_issue_verifies k r s :
  revocation_issue k r = Ok s → revocation s = r ∧ revocation_verify s = true.
Proof.
  unfold revocation_issue. destruct (_ || _) eqn:Hw; [done|].
  destruct (bool_decide_reflect (public_key k ≠ rv_issuer r)) as [|Hi]; [done|]. apply dec_stable in Hi.
  intros [= <-]. split; [done|]. unfold revocation_verify. cbn [revocation rv_signer rv_signature].
  rw Hw attest_verifies. rw (public_key_valid k : pk_valid (att_master (attest_derived_key k _)) = true). cbn [negb].
  rw bool_decide_eq_false_2; [apply verify_signature_sign|]. intros Hn. by apply Hn.
Qed.
End signed.

(** *** The bytes determine the statement *)

Definition scope_encodable (s : CapabilityScope) : Prop :=
  len64 (str_bytes (domain s)) ∧ len64 (resource s) ∧ len64 (str_bytes (path_prefix s)) ∧
  len64 (bt_strings (actions s)) ∧ Forall (λ a, len64 (str_bytes a)) (bt_strings (actions s)).

Definition is_u16 (z : Z) : Prop := 0 ≤ z < 65536.
Definition parent_id (p : DelegationParent) : Z := match p with Root i | Certificate i => i end.

(** The widths of the fields, as their Rust types guarantee them. *)
Definition encodable (c : DelegationCertificate) : Prop :=
  is_u16 (c_version c) ∧ is_key (parent_id (parent c)) ∧ is_key (issuer c) ∧ is_key (subject c) ∧
  scope_encodable (cscope c) ∧ is_u64 (not_before_ms c) ∧ is_u64 (issued_at_ms c) ∧
  match c_expires_at_ms c with Some e => is_u64 e | None => True end ∧
  is_u16 (remaining_delegation_depth c) ∧ is_key (nonce c).

Lemma push_strs_inj l k r s :
  Forall (λ a, len64 (str_bytes a)) l → Forall (λ a, len64 (str_bytes a)) k → length l = length k →
  mbind push_str l ++ r = mbind push_str k ++ s → l = k ∧ r = s.
Proof.
  intros Hl. revert k. induction Hl as [|a l Ha Hl IH]; intros [|b k] Hk Hlen; [done..|].
  cbn [mbind list_bind]. rw -!app_assoc. inversion Hk; subst. intros [-> Heq]%push_str_app_inj; [|done..].
  apply IH in Heq as [-> ->]; [done..|]. by injection Hlen.
Qed.

Lemma le8_app_inj a b r s : is_u64 a → is_u64 b → le_bytes 8 a ++ r = le_bytes 8 b ++ s → a = b ∧ r = s.
Proof.
  unfold is_u64. intros Ha Hb. apply le_bytes_app_inj; change (256 ^ Z.of_nat 8) with (u64_max + 1); lia.
Qed.

Lemma le2_app_inj a b r s : is_u16 a → is_u16 b → le_bytes 2 a ++ r = le_bytes 2 b ++ s → a = b ∧ r = s.
Proof. unfold is_u16. intros Ha Hb. apply le_bytes_app_inj; change (256 ^ Z.of_nat 2) with 65536; lia. Qed.

Lemma bt_strings_inj X Y : bt_strings X = bt_strings Y → X = Y.
Proof.
  intros Heq. apply set_eq. intros x. rw -!elem_of_elements -(merge_sort_Permutation string_le (elements X)).
  rw -(merge_sort_Permutation string_le (elements Y)). unfold bt_strings in Heq. by rw Heq.
Qed.

Lemma app_assoc5 {A} (a b c d e r : list A) : (a ++ b ++ c ++ d ++ e) ++ r = a ++ b ++ c ++ d ++ e ++ r.
Proof. by rw -!app_assoc. Qed.

Lemma push_scope_inj a b r s :
  scope_encodable a → scope_encodable b → push_scope a ++ r = push_scope b ++ s → a = b ∧ r = s.
Proof.
  destruct a as [d1 r1 p1 a1], b as [d2 r2 p2 a2]. unfold scope_encodable, push_scope; cbn -[push_str push_bytes le_bytes].
  intros (A1 & A2 & A3 & A4 & A5) (B1 & B2 & B3 & B4 & B5). rw !app_assoc5.
  intros [-> Heq]%push_str_app_inj; [|done..]. apply push_bytes_app_inj in Heq as [-> Heq]; [|done..].
  apply push_str_app_inj in Heq as [-> Heq]; [|done..].
  apply le8_app_inj in Heq as [Hn%Nat2Z.inj Heq]; [|unfold is_u64, len64 in *; lia..].
  apply push_strs_inj in Heq as [->%bt_strings_inj ->]; done.
Qed.

Lemma cons_inj {A} (x y : A) (r s : list A) : x :: r = y :: s → x = y ∧ r = s.
Proof. by intros [= -> ->]. Qed.

Lemma push_parent_inj p q r s :
  is_key (parent_id p) → is_key (parent_id q) → push_parent p ++ r = push_parent q ++ s → p = q ∧ r = s.
Proof.
  intros Hp Hq Heq.
  assert (∀ p r, push_parent p ++ r = (match p with Root _ => 0 | Certificate _ => 1 end) :: (key_bytes (parent_id p) ++ r)) as Hpush
    by (intros [|]; reflexivity).
  rw !Hpush in Heq. apply cons_inj in Heq as [Ht Heq]. apply key_bytes_app_inj in Heq as [Hi ->]; [|done..].
  split; [|done]. destruct p, q; cbn in Ht, Hi; by subst.
Qed.

Lemma push_expiry_inj a b r s :
  match a with Some e => is_u64 e | None => True end → match b with Some e => is_u64 e | None => True end →
  push_expiry a ++ r = push_expiry b ++ s → a = b ∧ r = s.
Proof.
  assert (∀ o r, push_expiry o ++ r = (match o with Some _ => 1 | None => 0 end) ::
    (match o with Some v => le_bytes 8 v | None => [] end ++ r)) as Hpush by (intros [|]; reflexivity).
  intros Ha Hb Heq. rw !Hpush in Heq. apply cons_inj in Heq as [Ht Heq]. destruct a as [a|], b as [b|]; try done.
  by apply le8_app_inj in Heq as [-> ->].
Qed.

(** C39. What is signed is unambiguous: two certificates whose signed bytes
    agree are the same certificate, field by field, and no certificate's bytes
    are the bytes of a revocation, so a signature over one statement can never
    be presented as a signature over another. *)
Theorem signing_bytes_injective :
  (∀ c d, encodable c → encodable d → signing_bytes c = signing_bytes d → c = d) ∧
  (∀ c r, signing_bytes c ≠ revocation_signing_bytes r).
Proof.
  split.
  - intros [v1 p1 i1 s1 sc1 n1 t1 e1 d1 k1] [v2 p2 i2 s2 sc2 n2 t2 e2 d2 k2]. unfold encodable, signing_bytes.
    cbn [c_version parent issuer subject cscope not_before_ms issued_at_ms c_expires_at_ms remaining_delegation_depth nonce].
    intros (A1 & A2 & A3 & A4 & A5 & A6 & A7 & A8 & A9 & A10) (B1 & B2 & B3 & B4 & B5 & B6 & B7 & B8 & B9 & B10) Heq.
    apply app_inj_length in Heq as [_ Heq]; [|done]. apply le2_app_inj in Heq as [-> Heq]; [|done..].
    apply push_parent_inj in Heq as [-> Heq]; [|done..]. apply key_bytes_app_inj in Heq as [-> Heq]; [|done..].
    apply key_bytes_app_inj in Heq as [-> Heq]; [|done..]. apply push_scope_inj in Heq as [-> Heq]; [|done..].
    apply le8_app_inj in Heq as [-> Heq]; [|done..]. apply le8_app_inj in Heq as [-> Heq]; [|done..].
    apply push_expiry_inj in Heq as [-> Heq]; [|done..]. apply le2_app_inj in Heq as [-> Heq]; [|done..].
    rw -(app_nil_r (key_bytes k1)) -(app_nil_r (key_bytes k2)) in Heq.
    by apply key_bytes_app_inj in Heq as [-> _].
  - intros c r Heq. unfold signing_bytes, revocation_signing_bytes in Heq.
    apply push_str_app_inj in Heq as [Heq _]; [done|unfold len64; cbn; unfold u64_max; lia..].
Qed.
