(* ===== verification/DelegationTable.v ===== *)
(** Denizen authority by delegation (crates/servitor/src/delegation.rs).

    A [Cap] is viewed as a path of personae's delegation grammar ([cap_path]), a
    [Mode] as an action set; [DelegationTable] holds signed certificates under
    one root and answers coverage by verifying chains on read.  [verify_inner]
    takes fuel for its recursion; [verify_chain_total] shows that one step more
    than the number of certificates is enough.

    The theorems: the path encoding reproduces the capability order exactly; a
    chain verifies exactly when it leads to the root through live, verified,
    attenuating links, and the [Cycle] refusal never fires on an adopted
    certificate; authority granted by the table is contained in every ancestor;
    a revocation cuts exactly the chains through the revoked certificate. *)

From S2P Require Import Prelude Wire Capability Delegation.

Local Open Scope Z_scope.

Definition DENIZEN_DOMAIN : string := "mere.denizen".

(** ** Capabilities as paths *)

(** [str::replace] of one character. *)
Fixpoint replace_char (c : ascii) (by_ : string) (s : string) : string :=
  match s with
  | EmptyString => ""
  | String a s => if bool_decide (a = c) then by_ +:+ replace_char c by_ s else String a (replace_char c by_ s)
  end.

Definition percent : ascii := "%"%char.

Definition encode_segment (segment : string) : string :=
  replace_char slash "%2F" (replace_char percent "%25" segment).

Definition cap_path (cap : Cap) : string :=
  match cap with
  | Power name => "power/" +:+ encode_segment name
  | Scope path =>
      let path := ScopePath_display path in
      if bool_decide (path = "") then "scope" else "scope/" +:+ path
  | Facet namespace =>
      if bool_decide (facet_segments namespace = []) then "facet"
      else "facet/" +:+ join slash (encode_segment <$> facet_segments namespace)
  end.

Definition mode_action (mode : Mode) : string :=
  match mode with Read => "read" | Write => "write" | Delegate => "delegate" end.

(** [mode >= Mode::Write] is the derived order of the variants. *)
Definition mode_actions (mode : Mode) : gset string :=
  {["read"]} ∪ (if Mode_covers mode Write then {["write"]} else ∅) ∪
  (if Mode_covers mode Delegate then {["delegate"]} else ∅).

Definition scope_for (cap : Cap) (mode : Mode) (resource : list Z) : CapabilityScope :=
  mkCapScope DENIZEN_DOMAIN resource (cap_path cap) (mode_actions mode).

Definition root_certificate (issuer subject : Z) (cap : Cap) (mode : Mode) (resource : list Z)
    (issued_at_ms : Z) (expires_at_ms : option Z) (depth nonce : Z) : DelegationCertificate :=
  certificate_new (Root issuer) issuer subject (scope_for cap mode resource) issued_at_ms issued_at_ms
    expires_at_ms depth nonce.

(** ** The table *)

Inductive ChainError : Type :=
| BadSignature (id : Z)
| MissingParent (id : Z)
| NotAttenuating (id : Z)
| WrongRoot (id : Z)
| Revoked (id : Z)
| Cycle (id : Z).

Record DelegationTable : Type := mkTable {
  t_root : Z;
  t_now : Z;
  certificates : gmap Z SignedDelegationCertificate;
  revoked : gset Z
}.

Definition table_new (root : Z) : DelegationTable := mkTable root 0 ∅ ∅.

Definition table_set_now (now : Z) (t : DelegationTable) : DelegationTable :=
  mkTable (t_root t) now (certificates t) (revoked t).

Definition revoke (t : DelegationTable) (id : Z) : bool * DelegationTable :=
  (negb (bool_decide (id ∈ revoked t)), mkTable (t_root t) (t_now t) (certificates t) ({[id]} ∪ revoked t)).

Definition is_revoked (t : DelegationTable) (id : Z) : bool := bool_decide (id ∈ revoked t).

Section table.
Context {K : Type} `{Ed25519 K} (blake3 : list Z → Z).

Abbreviation cid s := (certificate_id blake3 (certificate s)).

Definition adopt (t : DelegationTable) (signed : SignedDelegationCertificate) : DelegationTable :=
  mkTable (t_root t) (t_now t) (<[cid signed := signed]> (certificates t)) (revoked t).

Definition is_root_grant (sub : Z) (signed : SignedDelegationCertificate) : bool :=
  bool_decide (subject (certificate signed) = sub) &&
  match parent (certificate signed) with Root _ => true | Certificate _ => false end.

Definition revoke_root_grants (t : DelegationTable) (sub : Z) : Z * DelegationTable :=
  let ids := (λ s, cid s) <$> filter (is_root_grant sub) (map_to_list (certificates t)).*2 in
  fold_left (λ acc id, let '(fresh, t) := revoke acc.2 id in (if fresh then acc.1 + 1 else acc.1, t)) ids (0, t).

Fixpoint verify_inner (fuel : nat) (t : DelegationTable) (signed : SignedDelegationCertificate) (seen : gset Z)
  : option (result ChainError unit) :=
  match fuel with
  | 0%nat => None
  | S fuel =>
      let id := cid signed in
      if bool_decide (id ∈ seen) then Some (Err (Cycle id))
      else if bool_decide (id ∈ revoked t) then Some (Err (Revoked id))
      else if negb (certificate_verify signed) then Some (Err (BadSignature id))
      else match parent (certificate signed) with
           | Root root => Some (if bool_decide (root = t_root t) then Ok tt else Err (WrongRoot id))
           | Certificate parent_id =>
               match certificates t !! parent_id with
               | None => Some (Err (MissingParent parent_id))
               | Some p =>
                   if negb (attenuates blake3 (certificate signed) (certificate p))
                   then Some (Err (NotAttenuating id))
                   else verify_inner fuel t p ({[id]} ∪ seen)
               end
           end
  end.

Definition verify_chain (t : DelegationTable) (signed : SignedDelegationCertificate)
  : option (result ChainError unit) :=
  verify_inner (S (S (size (certificates t)))) t signed ∅.

(** [covers_inner], as [AuthorityProvider::covers] calls it. *)
Definition table_covers (t : DelegationTable) (sub : Z) (needed : Cap) (mode : Mode) : bool :=
  existsb (λ signed,
    bool_decide (subject (certificate signed) = sub) &&
    certificate_covers (certificate signed) (cap_path needed) (mode_action mode) (t_now t) &&
    match verify_chain t signed with Some (Ok _) => true | _ => false end)
    (map_to_list (certificates t)).*2.
End table.

(** ** The encoding reproduces the order *)

Lemma encode_cons a s :
  encode_segment (String a s) =
    (if bool_decide (a = percent) then "%25" else if bool_decide (a = slash) then "%2F" else String a "") +:+ encode_segment s.
Proof.
  unfold encode_segment. cbn [replace_char]. case_bool_decide as Hp; cbn [String.append replace_char]; [done|].
  case_bool_decide; done.
Qed.

Lemma encode_segment_no_slash s : contains_char slash (encode_segment s) = false.
Proof.
  induction s as [|a s IH]; [done|]. rw encode_cons contains_char_app IH orb_false_r.
  case_bool_decide; [done|]. case_bool_decide; [done|]. cbn. by rw bool_decide_eq_false_2.
Qed.

Lemma encode_segment_nonempty s : s ≠ "" → encode_segment s ≠ "".
Proof. destruct s as [|a s]; [done|]. rw encode_cons. by repeat case_bool_decide. Qed.

Lemma encode_segment_inj s t : encode_segment s = encode_segment t → s = t.
Proof.
  revert t. induction s as [|a s IH]; intros [|b t]; [done|..].
  - intros Heq. symmetry in Heq. by apply encode_segment_nonempty in Heq.
  - intros Heq. by apply encode_segment_nonempty in Heq.
  - rw !encode_cons. repeat case_bool_decide; cbn; subst; intros [= Hrest]; simplify_eq; f_equal; auto.
Qed.

Definition cap_segments (c : Cap) : list string :=
  match c with
  | Power name => ["power"; encode_segment name]
  | Scope path => "scope" :: scope_segments path
  | Facet namespace => "facet" :: (encode_segment <$> facet_segments namespace)
  end.

Definition plain_segment (s : string) : Prop := s ≠ "" ∧ contains_char slash s = false.

Lemma cap_segments_plain c : Cap_wf c → Forall plain_segment (cap_segments c).
Proof.
  unfold plain_segment. destruct c as [n|p|f]; cbn; intros Hw.
  - repeat constructor; [done|by apply encode_segment_nonempty|apply encode_segment_no_slash].
  - constructor; [done|]. by apply scope_wf_plain.
  - constructor; [done|]. apply Forall_fmap. eapply Forall_impl; [exact Hw|]. intros s [Hs _]. cbn.
    split; [by apply encode_segment_nonempty|apply encode_segment_no_slash].
Qed.

Lemma cap_path_join c : Cap_wf c → cap_path c = join slash (cap_segments c).
Proof.
  destruct c as [n|[p]|[f]]; cbn [cap_path cap_segments scope_segments facet_segments Cap_wf]; intros Hw.
  - done.
  - unfold ScopePath_display. cbn [scope_segments]. destruct p as [|x p]; [done|].
    destruct (join_segments slash (x :: p)) as [Hne _]; [done|by apply (scope_wf_plain (mkScope (x :: p)))|].
    rw bool_decide_eq_false_2 //.
  - destruct f as [|x f]; [done|]. by rw bool_decide_eq_false_2.
Qed.

Lemma path_covers_true p q : path_covers p q = true ↔ q = p ∨ ∃ r, q = p +:+ String slash r.
Proof.
  unfold path_covers. rw orb_true_iff bool_decide_eq_true. apply or_iff_compat_l.
  destruct (strip_prefix p q) as [u|] eqn:Es.
  - apply strip_prefix_Some in Es as ->. rw starts_with_true. split.
    + intros [r ->]. by exists r.
    + intros [r Heq]. exists r. assert (strip_prefix p (p +:+ u) = Some (String slash r)) as Hx by by apply strip_prefix_Some.
      assert (strip_prefix p (p +:+ u) = Some u) as Hy by by apply strip_prefix_Some. change ("/" +:+ r) with (String slash r). congruence.
  - split; [done|]. intros [r Hr]. assert (strip_prefix p q = Some (String slash r)) by by apply strip_prefix_Some. congruence.
Qed.

(** Joined segments cover exactly by segment prefix. *)
Lemma path_covers_join a b :
  a ≠ [] → b ≠ [] → Forall plain_segment a → Forall plain_segment b →
  path_covers (join slash a) (join slash b) = true ↔ a `prefix_of` b.
Proof.
  intros Ha Hb HFa HFb. rw path_covers_true.
  assert (∀ l, Forall plain_segment l → l ≠ [] → split slash (join slash l) = l) as Hsj.
  { intros l Hl ?. apply split_join; [done|]. eapply Forall_impl; [exact Hl|]. by intros ? []. }
  split.
  - intros [Heq|[r Heq]]; apply (f_equal (split slash)) in Heq.
    + rw !Hsj // in Heq. by subst.
    + rw split_app !Hsj // in Heq. subst. by eexists.
  - intros [k ->]. destruct k as [|y k]; [left; by rw app_nil_r|]. right. exists (join slash (y :: k)). by rw join_app.
Qed.

Lemma fmap_prefix_inj {A B} (f : A → B) `{!Inj (=) (=) f} l k : (f <$> l) `prefix_of` (f <$> k) ↔ l `prefix_of` k.
Proof.
  split; [|by intros [x ->]; rw fmap_app; eexists]. revert k.
  induction l as [|x l IH]; intros k Hp; [apply prefix_nil|]. destruct k as [|y k].
  - by apply prefix_nil_inv in Hp.
  - cbn in Hp. pose proof (prefix_cons_inv_1 _ _ _ _ Hp) as Hxy. apply (inj f) in Hxy as ->.
    apply prefix_cons_inv_2 in Hp. by apply prefix_cons, IH.
Qed.

#[export] Instance encode_segment_Inj : Inj (=) (=) encode_segment := encode_segment_inj.

Lemma prefix_cons_iff {A} (x y : A) l k : (x :: l) `prefix_of` (y :: k) ↔ x = y ∧ l `prefix_of` k.
Proof.
  split.
  - intros Hp. pose proof (prefix_cons_inv_1 _ _ _ _ Hp) as ->. by apply prefix_cons_inv_2 in Hp.
  - intros [-> Hp]. by apply prefix_cons.
Qed.

Lemma cap_segments_prefix a b : cap_segments a `prefix_of` cap_segments b ↔ Cap_covers a b = true.
Proof.
  destruct a as [n|p|f], b as [n'|p'|f']; cbn [cap_segments Cap_covers]; rw prefix_cons_iff;
    try (split; [by intros []|done]).
  - rw prefix_cons_iff bool_decide_eq_true. split; [by intros (_ & ->%encode_segment_inj & _)|by intros ->].
  - unfold covers_scope. rw segments_cover_prefix. tauto.
  - unfold covers_namespace. rw segments_cover_prefix (fmap_prefix_inj encode_segment). tauto.
Qed.

(** Delegation paths carry the capability order without loss or gain:
    for capabilities the parsers admit, personae's slash-boundary match between
    the encoded paths is exactly capability coverage (powers stay closed, scopes
    and facets stay hierarchical, the three kinds never meet, and no character
    in a name can fake a boundary), and a mode's action set holds the action of
    another mode exactly when the mode covers it. *)
Theorem cap_path_embeds a b m n (Ha : Cap_wf a) (Hb : Cap_wf b) :
  path_covers (cap_path a) (cap_path b) = Cap_covers a b ∧
  bool_decide (mode_action n ∈ mode_actions m) = Mode_covers m n ∧
  bool_decide (mode_actions n ⊆ mode_actions m) = Mode_covers m n.
Proof.
  split; [|destruct m, n; split; vm_compute; reflexivity].
  apply eq_true_iff_eq. rw !cap_path_join // path_covers_join.
  - apply cap_segments_prefix.
  - by destruct a.
  - by destruct b.
  - by apply cap_segments_plain.
  - by apply cap_segments_plain.
Qed.

Lemma cap_path_embeds_witness :
  path_covers (cap_path (Power "nav")) (cap_path (Power "nav/x")) = Cap_covers (Power "nav") (Power "nav/x").
Proof. exact (proj1 (cap_path_embeds (Power "nav") (Power "nav/x") Read Read ltac:(done) ltac:(done))). Defined.

(** ** Chains *)

Section chains.
Context {K : Type} `{Ed25519 K} (blake3 : list Z → Z).
Implicit Types (t : DelegationTable) (s p : SignedDelegationCertificate).

Abbreviation cid s := (certificate_id blake3 (certificate s)).
Abbreviation depth s := (remaining_delegation_depth (certificate s)).

Definition link_ok t s : Prop := (cid s ∉ revoked t) ∧ certificate_verify s = true.

(** [chain t s l]: [l] leads from [s] to a certificate naming the root. *)
Inductive chain t : SignedDelegationCertificate → list SignedDelegationCertificate → Prop :=
| chain_root s : link_ok t s → parent (certificate s) = Root (t_root t) → chain t s [s]
| chain_link s p l i :
    link_ok t s → parent (certificate s) = Certificate i → certificates t !! i = Some p →
    attenuates blake3 (certificate s) (certificate p) = true → chain t p l → chain t s (s :: l).

(** Tables the interface builds. *)
Inductive held : DelegationTable → Prop :=
| held_new root : held (table_new root)
| held_set_now now t : held t → held (table_set_now now t)
| held_adopt t s : held t → held (adopt blake3 t s)
| held_revoke t i : held t → held (revoke t i).2.

Definition adopted t s : Prop := certificates t !! cid s = Some s.

Lemma held_keys t i s : held t → certificates t !! i = Some s → cid s = i ∧ adopted t s.
Proof.
  intros Hh Hi. assert (cid s = i) as <-; [|done]. revert i s Hi. induction Hh as [root|now t _ IH|t s' _ IH|t j _ IH]; intros i s.
  - done.
  - apply IH.
  - cbn. intros [[<- <-]|[_ Hi]]%lookup_insert_Some; [done|by apply IH].
  - apply IH.
Qed.

Lemma attenuates_true c (p : DelegationCertificate) :
  attenuates blake3 c p = true →
  is_well_formed c = true ∧ is_well_formed p = true ∧ parent c = Certificate (certificate_id blake3 p) ∧
  issuer c = subject p ∧ scope_attenuates (cscope c) (cscope p) = true ∧
  not_before_ms p ≤ not_before_ms c ∧ expiry_within (c_expires_at_ms c) (c_expires_at_ms p) = true ∧
  remaining_delegation_depth c < remaining_delegation_depth p.
Proof.
  unfold attenuates. generalize (is_well_formed c) (is_well_formed p) (scope_attenuates (cscope c) (cscope p)).
  intros b1 b2 b3. rw !andb_true_iff !bool_decide_eq_true. tauto.
Qed.

Lemma certificate_covers_true c path action at_ms :
  certificate_covers c path action at_ms = true ↔
  is_well_formed c = true ∧ not_before_ms c ≤ at_ms ∧
  is_none_or (c_expires_at_ms c) (λ expires, bool_decide (at_ms ≤ expires)) = true ∧
  path_covers (path_prefix (cscope c)) path = true ∧ action ∈ actions (cscope c).
Proof.
  unfold certificate_covers. generalize (is_well_formed c) (path_covers (path_prefix (cscope c)) path).
  intros b1 b2. rw !andb_true_iff !bool_decide_eq_true. tauto.
Qed.

Lemma scope_attenuates_true (s' p : CapabilityScope) :
  scope_attenuates s' p = true →
  domain s' = domain p ∧ resource s' = resource p ∧
  path_covers (path_prefix p) (path_prefix s') = true ∧ actions s' ⊆ actions p.
Proof.
  unfold scope_attenuates. generalize (scope_is_well_formed s') (scope_is_well_formed p) (path_covers (path_prefix p) (path_prefix s')).
  intros b1 b2 b3. rw !andb_true_iff !bool_decide_eq_true. tauto.
Qed.

Lemma attenuates_depth c (p : DelegationCertificate) : attenuates blake3 c p = true → remaining_delegation_depth c < remaining_delegation_depth p.
Proof. by intros (_ & _ & _ & _ & _ & _ & _ & ?)%attenuates_true. Qed.

(** What one step of the walk decides. *)
Lemma verify_inner_step fuel t s seen :
  cid s ∉ seen → link_ok t s →
  verify_inner blake3 (S fuel) t s seen =
  match parent (certificate s) with
  | Root root => Some (if bool_decide (root = t_root t) then Ok tt else Err (WrongRoot (cid s)))
  | Certificate i =>
      match certificates t !! i with
      | None => Some (Err (MissingParent i))
      | Some p => if negb (attenuates blake3 (certificate s) (certificate p)) then Some (Err (NotAttenuating (cid s)))
                  else verify_inner blake3 fuel t p ({[cid s]} ∪ seen)
      end
  end.
Proof.
  intros Hs [Hr Hv]. cbn [verify_inner]. rw bool_decide_eq_false_2 // bool_decide_eq_false_2 // Hv. done.
Qed.

Lemma verify_inner_sound fuel t s seen :
  verify_inner blake3 fuel t s seen = Some (Ok tt) → ∃ l, chain t s l.
Proof.
  revert s seen. induction fuel as [|fuel IH]; intros s seen; [done|]. intros Hv.
  destruct (decide (cid s ∈ seen)) as [Hs|Hs]; [cbn in Hv; by rw bool_decide_eq_true_2 in Hv|].
  assert (link_ok t s) as Hl.
  { cbn in Hv. rw bool_decide_eq_false_2 // in Hv. destruct (bool_decide_reflect (cid s ∈ revoked t)); [done|].
    split; [done|]. by destruct (certificate_verify s). }
  rw verify_inner_step // in Hv. destruct (parent (certificate s)) as [root|i] eqn:Ep.
  - case_bool_decide as Hroot; [|done]. exists [s]. constructor; [done|]. by rw Ep Hroot.
  - destruct (certificates t !! i) as [p|] eqn:Ei; [|done].
    destruct (attenuates blake3 (certificate s) (certificate p)) eqn:Ea; [|done]. cbn in Hv.
    destruct (IH p _ Hv) as [l Hl']. exists (s :: l). by eapply chain_link.
Qed.

Lemma verify_inner_complete t s l : chain t s l → ∀ fuel seen,
  NoDup ((λ c, cid c) <$> l) → (∀ c, c ∈ l → cid c ∉ seen) → (length l ≤ fuel)%nat →
  verify_inner blake3 fuel t s seen = Some (Ok tt).
Proof.
  induction 1 as [s Hl Hp|s p l i Hl Hp Hi Ha Hc IH]; intros fuel seen Hnd Hseen Hf.
  - destruct fuel as [|fuel]; [cbn in Hf; lia|]. rw verify_inner_step //; [|apply Hseen; by left].
    rw Hp. by rw bool_decide_eq_true_2.
  - destruct fuel as [|fuel]; [cbn in Hf; lia|]. rw verify_inner_step //; [|apply Hseen; by left].
    rw Hp Hi Ha. cbn. cbn in Hnd. apply NoDup_cons in Hnd as [Hn Hnd]. apply IH; [done| |cbn in Hf; lia].
    intros c Hcl. apply not_elem_of_union. split; [|apply Hseen; by right]. apply not_elem_of_singleton. intros Heq.
    apply Hn. apply list_elem_of_fmap. exists c. done.
Qed.

Lemma chain_depth t s l : chain t s l → ∀ c, c ∈ l → c = s ∨ depth s < depth c.
Proof.
  induction 1 as [s Hl Hp|s p l i Hl Hp Hi Ha Hc IH]; intros c; [set_solver|].
  intros [->|Hcl]%elem_of_cons; [by left|right]. apply attenuates_depth in Ha. destruct (IH c Hcl) as [->|?]; lia.
Qed.

Lemma chain_adopted t s l : held t → adopted t s → chain t s l → ∀ c, c ∈ l → adopted t c.
Proof.
  intros Hh Hs Hc. revert Hs. induction Hc as [s Hl Hp|s p l i Hl Hp Hi Ha Hc IH]; intros Hs c.
  - by intros ->%list_elem_of_singleton.
  - intros [->|Hcl]%elem_of_cons; [done|]. apply IH; [|done]. by apply (held_keys t i p).
Qed.

Lemma chain_ids_NoDup t s l : held t → adopted t s → chain t s l → NoDup ((λ c, cid c) <$> l).
Proof.
  intros Hh Hs Hc. revert Hs. induction Hc as [s Hl Hp|s p l i Hl Hp Hi Ha Hc IH]; intros Hs; cbn.
  { apply NoDup_singleton. }
  assert (adopted t p) as Hpa by by apply (held_keys t i p). apply NoDup_cons. split; [|by apply IH].
  intros (c & Heq & Hcl)%list_elem_of_fmap. pose proof (chain_adopted t p l Hh Hpa Hc c Hcl) as Hca.
  unfold adopted in Hs, Hca. rw Heq Hca in Hs. injection Hs as ->.
  apply attenuates_depth in Ha. destruct (chain_depth t p l Hc s Hcl) as [->|?]; lia.
Qed.

Lemma verify_chain_complete t s l :
  held t → adopted t s → chain t s l → verify_chain blake3 t s = Some (Ok tt).
Proof.
  intros Hh Hs Hc. pose proof (chain_ids_NoDup t s l Hh Hs Hc) as Hnd. unfold verify_chain.
  apply (verify_inner_complete t s l Hc); [done|set_solver|].
  rw -(length_fmap (λ c, cid c) l). trans (size (certificates t)); [|lia].
  apply keys_length_le; [done|]. intros i (c & -> & Hcl)%list_elem_of_fmap. exists c. by apply (chain_adopted t s l).
Qed.

(** Every id on the way is adopted and strictly shallower, so none repeats. *)
Lemma verify_inner_total t s : held t → adopted t s → ∀ fuel seen,
  (∀ i, i ∈ seen → ∃ c, certificates t !! i = Some c ∧ depth c < depth s) →
  (size (certificates t) < fuel + size seen)%nat →
  ∃ r, verify_inner blake3 fuel t s seen = Some r ∧ ∀ i, r ≠ Err (Cycle i).
Proof.
  intros Hh Hs fuel. revert s Hs. induction fuel as [|fuel IH]; intros s Hs seen Hseen Hf.
  { assert (size seen ≤ size (certificates t))%nat; [|lia]. rw -size_dom. apply subseteq_size.
    intros i Hi. destruct (Hseen i Hi) as (c & Hc & _). apply elem_of_dom. by exists c. }
  assert (cid s ∉ seen) as Hn.
  { intros Hi. destruct (Hseen _ Hi) as (c & Hc & Hd). unfold adopted in Hs. rw Hs in Hc. injection Hc as ->. lia. }
  destruct (decide (cid s ∈ revoked t)) as [Hr|Hr].
  { cbn. rw bool_decide_eq_false_2 // bool_decide_eq_true_2 //. by eexists. }
  destruct (certificate_verify s) eqn:Hv.
  2: { cbn. rw bool_decide_eq_false_2 // bool_decide_eq_false_2 // Hv. by eexists. }
  rw verify_inner_step //. destruct (parent (certificate s)) as [root|i]; [case_bool_decide; by eexists|].
  destruct (certificates t !! i) as [p|] eqn:Ei; [|by eexists].
  destruct (attenuates blake3 (certificate s) (certificate p)) eqn:Ea; [cbn [negb]|by eexists].
  apply attenuates_depth in Ea. apply IH.
  - by apply (held_keys t i p).
  - intros i' [->%elem_of_singleton|Hi']%elem_of_union; [by exists s|].
    destruct (Hseen i' Hi') as (c & Hc & Hd). exists c. split; [done|lia].
  - rw size_union; [|set_solver]. rw size_singleton. lia.
Qed.

(** C27. Chain verification decides exactly the chains it means to: on a
    table the interface built, verifying an adopted certificate always returns
    (within one step per certificate held), returns [Ok] exactly when there is a
    finite path of unrevoked, correctly signed, strictly attenuating links to a
    certificate naming the table's root, and never answers [Cycle], since each
    link spends delegation depth. *)
Theorem verify_chain_exact t s (Hh : held t) (Hs : adopted t s) :
  (∃ r, verify_chain blake3 t s = Some r ∧ ∀ i, r ≠ Err (Cycle i)) ∧
  (verify_chain blake3 t s = Some (Ok tt) ↔ ∃ l, chain t s l).
Proof.
  split; [|split].
  - apply verify_inner_total; [done..| |].
    + intros i Hi. by apply elem_of_empty in Hi.
    + rw size_empty. lia.
  - apply verify_inner_sound.
  - intros [l Hc]. by apply (verify_chain_complete t s l).
Qed.

(** ** What the table grants *)

Lemma path_covers_trans (p q r : string) : path_covers p q = true → path_covers q r = true → path_covers p r = true.
Proof.
  rw !path_covers_true. intros [->|[u ->]] [->|[v ->]]; [by left|by right; exists v|by right; exists u|].
  right. exists (u +:+ String slash v). by rw -string_app_assoc.
Qed.

Lemma attenuates_covers c (p : DelegationCertificate) path action at_ms :
  attenuates blake3 c p = true → certificate_covers c path action at_ms = true →
  certificate_covers p path action at_ms = true ∧ domain (cscope p) = domain (cscope c) ∧
  resource (cscope p) = resource (cscope c).
Proof.
  intros (_ & Hw & _ & _ & (Hd & Hr & Hp & Ha)%scope_attenuates_true & Hnb & Hex & _)%attenuates_true.
  rw !certificate_covers_true. intros (_ & Hn & He & Hpc & Hac). split_and!; [done|lia| | |set_solver|done|done].
  - unfold expiry_within, is_none_or in *. destruct (c_expires_at_ms c), (c_expires_at_ms p); try done.
    apply bool_decide_eq_true in Hex, He. apply bool_decide_eq_true. lia.
  - by apply (path_covers_trans _ _ _ Hp).
Qed.

Lemma chain_covers t s l path action :
  chain t s l → certificate_covers (certificate s) path action (t_now t) = true →
  Forall (λ c, certificate_covers (certificate c) path action (t_now t) = true ∧
    domain (cscope (certificate c)) = domain (cscope (certificate s)) ∧
    resource (cscope (certificate c)) = resource (cscope (certificate s))) l.
Proof.
  induction 1 as [s Hl Hp|s p l i Hl Hp Hi Ha Hc IH]; intros Hcov; [by repeat constructor|].
  destruct (attenuates_covers _ _ _ _ _ Ha Hcov) as (Hcp & Hd & Hr). constructor; [done|].
  eapply Forall_impl; [by apply IH|]. cbn. intros c (? & -> & ->). done.
Qed.

Lemma chain_shape t s l :
  chain t s l → l !! 0%nat = Some s ∧
  (∃ r, last l = Some r ∧ parent (certificate r) = Root (t_root t)) ∧
  (∀ i c p, l !! i = Some c → l !! S i = Some p →
     parent (certificate c) = Certificate (cid p) ∧ issuer (certificate c) = subject (certificate p)).
Proof.
  induction 1 as [s Hl Hp|s p l i Hl Hp Hi Ha Hc (IH0 & (r & Hr & Hrp) & IH)].
  - split_and!; [done|by exists s|]. by intros [|] c p Hc Hp'.
  - split_and!; [done| |].
    + exists r. split; [|done]. destruct l; [done|]. done.
    + intros [|j] c q; cbn; [|apply IH]. intros [= <-]. rw IH0. intros [= <-].
      by apply attenuates_true in Ha as (_ & _ & ? & ? & _).
Qed.

Lemma table_covers_true t sub needed mode :
  table_covers blake3 t sub needed mode = true ↔
  ∃ i s, certificates t !! i = Some s ∧ subject (certificate s) = sub ∧
    certificate_covers (certificate s) (cap_path needed) (mode_action mode) (t_now t) = true ∧
    verify_chain blake3 t s = Some (Ok tt).
Proof.
  unfold table_covers. rw existsb_exists. split.
  - intros (s & Hin & Hc). apply list_elem_of_In, list_elem_of_fmap in Hin as ([i s'] & -> & Hi%elem_of_map_to_list).
    cbn [snd] in Hc. apply andb_prop in Hc as [Hc Hv]. apply andb_prop in Hc as [Hsub Hcov].
    apply bool_decide_eq_true in Hsub.
    exists i, s'. split_and!; try done. by destruct (verify_chain blake3 t s') as [[[]|]|].
  - intros (i & s & Hi & Hsub & Hcov & Hv). exists s. split.
    + apply list_elem_of_In, list_elem_of_fmap. exists (i, s). split; [done|]. by apply elem_of_map_to_list.
    + rw Hcov Hv bool_decide_eq_true_2 //.
Qed.

(** C26. Authority cannot grow along a delegation: when the table answers
    that a subject holds a capability, there is a chain of adopted certificates
    from one made out to that subject up to one naming the root, each link
    issued by the subject of the next, every certificate of which itself covers
    the capability at the same instant, in the same domain and resource. *)
Theorem delegated_authority_contained t sub needed mode (Hh : held t)
    (Hc : table_covers blake3 t sub needed mode = true) :
  ∃ s l, adopted t s ∧ subject (certificate s) = sub ∧ chain t s l ∧ Forall (adopted t) l ∧
    Forall (λ c, certificate_covers (certificate c) (cap_path needed) (mode_action mode) (t_now t) = true ∧
      domain (cscope (certificate c)) = domain (cscope (certificate s)) ∧
      resource (cscope (certificate c)) = resource (cscope (certificate s))) l ∧
    (∃ r, last l = Some r ∧ parent (certificate r) = Root (t_root t)) ∧
    (∀ i c p, l !! i = Some c → l !! S i = Some p →
       parent (certificate c) = Certificate (cid p) ∧ issuer (certificate c) = subject (certificate p)).
Proof.
  apply table_covers_true in Hc as (i & s & Hi & Hsub & Hcov & Hv).
  destruct (held_keys t i s Hh Hi) as [_ Hs]. apply verify_inner_sound in Hv as [l Hl].
  destruct (chain_shape t s l Hl) as (_ & Hlast & Hlinks). exists s, l. split_and!; try done.
  - apply Forall_forall. by apply chain_adopted with s.
  - by apply chain_covers.
Qed.

(** ** Revocation *)

(** The same certificates, with more of them revoked. *)
Lemma chain_revoked t t' s l :
  certificates t' = certificates t → t_root t' = t_root t →
  (∀ i, i ∈ revoked t → i ∈ revoked t') →
  chain t' s l ↔ chain t s l ∧ Forall (λ c, cid c ∉ revoked t') l.
Proof.
  intros Hc Hr Hsub. split.
  - induction 1 as [s [Hn Hv] Hp|s p l i [Hn Hv] Hp Hi Ha _ [IH HF]].
    + split; [|by repeat constructor]. constructor; [split; [by intros ?%Hsub|done]|]. by rw -Hr.
    + split; [|by constructor]. eapply chain_link; [split; [by intros ?%Hsub|done]|done| |done|done]. by rw -Hc.
  - intros [Hl HF]. induction Hl as [s [Hn Hv] Hp|s p l i [Hn Hv] Hp Hi Ha _ IH]; inversion HF; subst.
    + constructor; [done|]. by rw Hr.
    + eapply chain_link; [done|done| |done|by apply IH]. by rw Hc.
Qed.

Lemma revoke_root_grants_spec t sub :
  let t' := (revoke_root_grants blake3 t sub).2 in
  certificates t' = certificates t ∧ t_root t' = t_root t ∧
  ∀ i, i ∈ revoked t' ↔ i ∈ revoked t ∨ ∃ j s, certificates t !! j = Some s ∧ is_root_grant sub s = true ∧ cid s = i.
Proof.
  unfold revoke_root_grants. set (ids := (λ s, cid s) <$> filter (is_root_grant sub) (map_to_list (certificates t)).*2).
  assert (∀ ids acc, let t' := (fold_left (λ acc id, let '(fresh, t) := revoke acc.2 id in
      (if fresh then acc.1 + 1 else acc.1, t)) ids acc).2 in
    certificates t' = certificates acc.2 ∧ t_root t' = t_root acc.2 ∧
    ∀ i, i ∈ revoked t' ↔ i ∈ revoked acc.2 ∨ i ∈ ids) as Hfold.
  { clear. induction ids as [|x ids IH]; intros acc; cbn [fold_left].
    { split_and!; [done..|]. intros i. rw elem_of_nil. tauto. }
    destruct (IH (let '(fresh, t) := revoke acc.2 x in (if fresh then acc.1 + 1 else acc.1, t))) as (IH1 & IH2 & IH3).
    split_and!; [done|done|]. intros i. rw IH3. cbn. set_solver. }
  destruct (Hfold ids (0, t)) as (F1 & F2 & F3). split_and!; [done..|]. intros i. rw F3. cbn [snd].
  apply or_iff_compat_l. unfold ids. rw list_elem_of_fmap. split.
  - intros (s & -> & [Hg Hs]%list_elem_of_filter). apply list_elem_of_fmap in Hs as ([j s'] & -> & Hj%elem_of_map_to_list).
    exists j, s'. split_and!; try done. by apply Is_true_true.
  - intros (j & s & Hj & Hg & <-). exists s. split; [done|]. apply list_elem_of_filter. split; [by apply Is_true_true|].
    apply list_elem_of_fmap. exists (j, s). split; [done|]. by apply elem_of_map_to_list.
Qed.

(** Revocation cascades, and to nothing else: after revoking one id
    the chains that verify are exactly the old ones that do not pass through it;
    after [revoke_root_grants] of a subject, exactly the old ones that pass
    through none of the certificates the root gave that subject. *)
Theorem revocation_cascades t i sub s l (Hh : held t) :
  (chain (revoke t i).2 s l ↔ chain t s l ∧ Forall (λ c, cid c ≠ i) l) ∧
  (adopted t s →
   chain (revoke_root_grants blake3 t sub).2 s l ↔ chain t s l ∧ Forall (λ c, is_root_grant sub c = false) l).
Proof.
  assert (∀ l, chain t s l → Forall (λ c, cid c ∉ revoked t) l) as Hlive.
  { intros l'. induction 1 as [? [Hn _]|? ? ? ? [Hn _]]; by constructor. }
  split.
  - rw (chain_revoked t) //; [|cbn; set_solver]. split; intros [Hc HF]; (split; [done|]).
    + eapply Forall_impl; [exact HF|]. cbn. set_solver.
    + apply Forall_forall. intros c Hin. cbn. rw Forall_forall in HF. specialize (HF c Hin).
      specialize (Hlive l Hc). rw Forall_forall in Hlive. specialize (Hlive c Hin). set_solver.
  - intros Hs. destruct (revoke_root_grants_spec t sub) as (F1 & F2 & F3).
    rw (chain_revoked t) //; [|intros ? ?; apply F3; by left]. split; intros [Hc HF]; (split; [done|]).
    + apply Forall_forall. intros c Hin. rw Forall_forall in HF. specialize (HF c Hin).
      destruct (is_root_grant sub c) eqn:Eg; [|done]. exfalso. apply HF, F3. right.
      exists (cid c), c. split_and!; [|done|done]. by apply (chain_adopted t s l).
    + apply Forall_forall. intros c Hin [Hr|(j & c' & Hj & Hg & Heq)]%F3.
      * specialize (Hlive l Hc). rw Forall_forall in Hlive. by apply (Hlive c Hin).
      * destruct (held_keys t j c' Hh Hj) as [Hk Ha']. pose proof (chain_adopted t s l Hh Hs Hc c Hin) as Ha.
        unfold adopted in Ha, Ha'. rw Heq Ha in Ha'. injection Ha' as ->. rw Forall_forall in HF.
        by rw (HF c' Hin) in Hg.
Qed.

(** C40. The root is named, not checked: a well-formed certificate that
    names the table's root as its parent but is issued and signed by any other
    identity is accepted, and confers what it says on whom it says. *)
Theorem forged_root_accepted t (intruder : K) sub cap mode resource at_ms expires depth nonce :
  let c := certificate_new (Root (t_root t)) (public_key intruder) sub (scope_for cap mode resource)
             at_ms at_ms expires depth nonce in
  is_well_formed c = true → certificate_id blake3 c ∉ revoked t →
  certificate_covers c (cap_path cap) (mode_action mode) (t_now t) = true →
  ∃ s, certificate_issue intruder c = Ok s ∧ table_covers blake3 (adopt blake3 t s) sub cap mode = true.
Proof.
  intros c Hw Hr Hcov.
  assert (∃ s, certificate_issue intruder c = Ok s) as [s Hs].
  { unfold certificate_issue. rw Hw. cbn [negb]. rw bool_decide_eq_false_2; [by eexists|]. by intros Hn. }
  exists s. split; [done|]. destruct (issue_verifies intruder c s Hs) as [Hc Hv].
  assert (chain (adopt blake3 t s) s [s]) as Hch.
  { constructor; [split; [by rw Hc|done]|]. by rw Hc. }
  apply table_covers_true. exists (cid s), s. split_and!.
  - cbn. by rw lookup_insert_eq.
  - by rw Hc.
  - by rw Hc.
  - unfold verify_chain. apply (verify_inner_complete _ s [s] Hch); [apply NoDup_singleton|set_solver|cbn; lia].
Qed.
End chains.

(** ** A table with a two-link chain *)

Module Sample.
(** A signature scheme with the laws of the interface; signatures name the key. *)
#[local] Program Instance toy_keys : Ed25519 Z := {|
  public_key k := k mod 2 ^ 256;
  derive_child k salt := k + Z.of_nat (length salt);
  sign k _ := replicate 64 (k mod 2 ^ 256);
  pk_valid _ := true;
  sig_verify pk _ sig := bool_decide (sig = replicate 64 pk)
|}.
Next Obligation. intros k. unfold is_key, key_max. pose proof (Z.mod_pos_bound k (2 ^ 256)). lia. Qed.
Next Obligation. done. Qed.
Next Obligation. done. Qed.
Next Obligation. intros k m. by apply bool_decide_eq_true_2. Qed.

Definition toy_hash (bs : list Z) : Z := fold_left (λ h b, (h * 257 + b + 1) mod 1000003) bs 0.

Definition issue_or (k : Z) (c : DelegationCertificate) (d : SignedDelegationCertificate) : SignedDelegationCertificate :=
  match certificate_issue k c with Ok s => s | Err _ => d end.
Definition dummy : SignedDelegationCertificate :=
  mkSigned (root_certificate 0 0 (Power "x") Read [] 0 None 0 0) (mkAttestation 0 0 0 []) [].

Definition trail : Cap := Scope (mkScope ["trail"]).
Definition step1 : Cap := Scope (mkScope ["trail"; "step1"]).

(** The user (key 7) gives the helper (8) the trail with one step to delegate;
    the helper gives the agent (9) one step of it. *)
Definition to_helper : SignedDelegationCertificate :=
  issue_or 7 (root_certificate 7 8 trail Write [1] 1000 None 1 5) dummy.
Definition to_agent : SignedDelegationCertificate :=
  issue_or 8 (certificate_new (Certificate (certificate_id toy_hash (certificate to_helper))) 8 9
    (scope_for step1 Write [1]) 1500 1500 (Some 9000) 0 6) dummy.

Definition table : DelegationTable := table_set_now 2000 (adopt toy_hash (adopt toy_hash (table_new 7) to_helper) to_agent).

Lemma table_held : held toy_hash table.
Proof. repeat constructor. Qed.

Lemma agent_adopted : adopted toy_hash table to_agent.
Proof. vm_compute. reflexivity. Qed.

Lemma agent_covered : table_covers toy_hash table 9 step1 Write = true.
Proof. vm_compute. reflexivity. Qed.

Lemma verify_chain_exact_witness :
  verify_chain toy_hash table to_agent = Some (Ok tt) ∧ ∃ l, chain toy_hash table to_agent l.
Proof.
  assert (verify_chain toy_hash table to_agent = Some (Ok tt)) as Hv by (vm_compute; reflexivity).
  split; [exact Hv|]. exact (proj1 (proj2 (verify_chain_exact toy_hash table to_agent table_held agent_adopted)) Hv).
Defined.

Lemma delegated_authority_contained_witness :
  ∃ s l, adopted toy_hash table s ∧ subject (certificate s) = 9 ∧ chain toy_hash table s l.
Proof.
  destruct (delegated_authority_contained toy_hash table 9 step1 Write table_held agent_covered)
    as (s & l & H1 & H2 & H3 & _). exists s, l. by split_and!.
Defined.

Lemma revocation_cascades_witness :
  ¬ chain toy_hash (revoke table (certificate_id toy_hash (certificate to_helper))).2 to_helper [to_helper].
Proof.
  intros Hc. apply (proj1 (revocation_cascades toy_hash table _ 0 to_helper [to_helper] table_held)) in Hc as [_ HF].
  exact (proj1 (Forall_singleton _ _) HF eq_refl).
Defined.

(** An intruder with key 66 gives itself the whole tree under the user's root. *)
Lemma forged_root_accepted_witness :
  ∃ s, certificate_issue (66 : Z) (certificate_new (Root (t_root table)) (public_key (66 : Z)) 66
      (scope_for root_scope Write [1]) 1000 1000 None 0 0) = Ok s ∧
    table_covers toy_hash (adopt toy_hash table s) 66 root_scope Write = true.
Proof.
  apply (forged_root_accepted toy_hash table (66 : Z) 66 root_scope Write [1] 1000 None 0 0).
  - by vm_compute.
  - apply not_elem_of_empty.
  - by vm_compute.
Defined.

(** A certificate of another application family, for another resource, counts. *)
Lemma foreign_domain_counts :
  let c := certificate_new (Root 7) 7 8 (mkCapScope "mesh" [2] "scope" {["write"]}) 1000 1000 None 0 5 in
  table_covers toy_hash (table_set_now 2000 (adopt toy_hash (table_new 7) (issue_or 7 c dummy))) 8 trail Write = true.
Proof. vm_compute. reflexivity. Qed.
End Sample.
