(* ===== verification/Grant.v ===== *)
(** Scoped grants and the authority seam (crates/servitor/src/grant.rs).

    [AuthorityProvider] is the trait the gate and the watches ask; a
    [GrantTable] and a [DelegationTable] implement it.  A [Subject] is its
    32-byte key. *)

From S2P Require Import Prelude Wire Capability Delegation DelegationTable.

Local Open Scope Z_scope.

Class AuthorityProvider (P : Type) := provider_covers : P → Z → Cap → Mode → bool.

Record Grant : Type := mkGrant {
  g_subject : Z;
  g_cap : Cap;
  g_mode : Mode;
  g_expires_at_ms : option Z
}.

Definition grant_new (subject : Z) (cap : Cap) (mode : Mode) : Grant := mkGrant subject cap mode None.
Definition expiring_at (g : Grant) (at_ms : Z) : Grant := mkGrant (g_subject g) (g_cap g) (g_mode g) (Some at_ms).

Definition expired_at (g : Grant) (now_ms : Z) : bool :=
  match g_expires_at_ms g with Some at_ms => bool_decide (at_ms ≤ now_ms) | None => false end.

Definition grant_covers (g : Grant) (subject : Z) (needed : Cap) (mode : Mode) : bool :=
  bool_decide (g_subject g = subject) && Mode_covers (g_mode g) mode && Cap_covers (g_cap g) needed.

Definition grant_covers_at (g : Grant) (now_ms : Z) (subject : Z) (needed : Cap) (mode : Mode) : bool :=
  negb (expired_at g now_ms) && grant_covers g subject needed mode.

Record GrantTable : Type := mkGrantTable { grants : list Grant; gt_now : Z }.

Definition grant_table_new : GrantTable := mkGrantTable [] 0.
Definition with_grant (t : GrantTable) (g : Grant) : GrantTable := mkGrantTable (grants t ++ [g]) (gt_now t).
Definition grant_set_now (t : GrantTable) (now : Z) : GrantTable := mkGrantTable (grants t) now.

Definition grant_table_covers (t : GrantTable) (subject : Z) (needed : Cap) (mode : Mode) : bool :=
  existsb (λ g, grant_covers_at g (gt_now t) subject needed mode) (grants t).

#[export] Instance GrantTable_provider : AuthorityProvider GrantTable := grant_table_covers.

(** A delegation table under a fixed signature scheme and hash. *)
Definition delegation_provider {K} `{Ed25519 K} (blake3 : list Z → Z) : AuthorityProvider DelegationTable.DelegationTable :=
  table_covers blake3.

(** A table that grants a capability grants everything it covers. *)
Lemma grant_table_downward t subject a b m n :
  grant_table_covers t subject a m = true → Cap_covers a b = true → Mode_covers m n = true →
  grant_table_covers t subject b n = true.
Proof.
  unfold grant_table_covers. rw !existsb_exists. intros (g & Hin & Hg) Hab Hmn. exists g. split; [done|].
  revert Hg. unfold grant_covers_at, grant_covers. destruct (negb _), (bool_decide _); try done. cbn.
  intros [Hm Hc]%andb_prop. apply andb_true_intro. split.
  - exact (covers_trans (C := Mode) _ _ _ Hm Hmn).
  - exact (covers_trans (C := Cap) _ _ _ Hc Hab).
Qed.
