(* ===== verification/Watch.v ===== *)
(** Watches, cascades and schedules (crates/servitor/src/{watch,cascade,tick}.rs).

    A [Watch] wakes its subject on committed entries past its cursor that touch
    its scope and are not its own; [run_cascade] feeds what woken bodies commit
    back to the watches for a bounded number of rounds; a [TimeWatch] wakes on
    the clock.  The runner closure of a cascade is a state-passing function of
    the caller. *)

From S2P Require Import Prelude Wire Capability Deadband Grant.

Local Open Scope Z_scope.

(** ** Watches (watch.rs) *)

Inductive WatchError : Type :=
| WatchUnauthorized (scope : string)
| Malformed (line : string)
| BadScope (err : CapError).

Record WatchEvent : Type := mkEvent { ev_seq : Z; ev_author : string; ev_scopes : list ScopePath }.

Record Watch : Type := mkWatch {
  w_subject : Z;
  w_scope : ScopePath;
  self_author : string;
  cursor : Z
}.

Definition matches (w : Watch) (e : WatchEvent) : bool :=
  bool_decide (cursor w < ev_seq e) && bool_decide (ev_author e ≠ self_author w) &&
  existsb (λ touched, covers_scope (w_scope w) touched) (ev_scopes e).

Definition watch_line (w : Watch) : string :=
  to_hex (w_subject w) +:+ String space (print_u64 (cursor w) +:+ String space
    (self_author w +:+ String space (ScopePath_display (w_scope w)))).

(** [splitn(4, ' ')], then the fields in order. *)
Definition watch_parse (line : string) : result WatchError Watch :=
  match split_once space line with
  | None => Err (Malformed line)
  | Some (hex, r1) =>
      match split_once space r1 with
      | None => Err (Malformed line)
      | Some (cur, r2) =>
          match split_once space r2 with
          | None => Err (Malformed line)
          | Some (author, scope) =>
              match from_hex hex with
              | None => Err (Malformed line)
              | Some subject =>
                  match parse_u64 cur with
                  | None => Err (Malformed line)
                  | Some c => match ScopePath_parse scope with
                              | Err e => Err (BadScope e)
                              | Ok p => Ok (mkWatch subject p author c)
                              end
                  end
              end
          end
      end
  end.

Record Wake : Type := mkWake { wk_subject : Z; wk_matched : list Z }.

Abbreviation WatchTable := (list Watch) (only parsing).
Implicit Types t : WatchTable.

Definition watch_register `{AuthorityProvider P} (p : P) t (subject : Z) (scope : ScopePath) (self_author : string)
  : WatchTable * result WatchError Watch :=
  if negb (provider_covers p subject (Scope scope) Read)
  then (t, Err (WatchUnauthorized (ScopePath_display scope)))
  else let w := mkWatch subject scope self_author 0 in (t ++ [w], Ok w).

Definition watch_adopt t (w : Watch) : WatchTable := t ++ [w].
Definition watch_remove_subject t (subject : Z) : WatchTable := filter (λ w, w_subject w ≠ subject) t.

Definition highest_seq (events : list WatchEvent) : option Z :=
  match ev_seq <$> events with [] => None | s :: ss => Some (foldr Z.max s ss) end.

(** The loop body of [wake]: the watch with its cursor advanced, and its wake. *)
Definition wake_step (events : list WatchEvent) (w : Watch) : Watch * option Wake :=
  let matched := ev_seq <$> filter (λ e, matches w e) events in
  (match highest_seq events with
   | Some h => mkWatch (w_subject w) (w_scope w) (self_author w) (Z.max (cursor w) h)
   | None => w
   end,
   match matched with [] => None | _ => Some (mkWake (w_subject w) matched) end).

Definition wake t (events : list WatchEvent) : WatchTable * list Wake :=
  ((λ w, (wake_step events w).1) <$> t,
   (λ k, mkWake (wk_subject k) (sort_by_key id (wk_matched k))) <$>
     sort_by_key wk_subject (omap (λ w, (wake_step events w).2) t)).

Definition would_wake t (events : list WatchEvent) : list Z :=
  dedup (sort_by_key id (w_subject <$> filter (λ w, existsb (matches w) events) t)).

Definition watch_lines t : list string := watch_line <$> t.

Fixpoint load_watches t (lines : list string) : result WatchError WatchTable :=
  match lines with
  | [] => Ok t
  | line :: lines =>
      if is_blank line then load_watches t lines
      else match watch_parse line with Err e => Err e | Ok w => load_watches (t ++ [w]) lines end
  end.
Definition watches_from_lines (lines : list string) : result WatchError WatchTable := load_watches [] lines.

(** ** Cascades (cascade.rs) *)

Record CommittedEntry : Type := mkEntryC { ce_seq : Z; ce_author : string; ce_scopes : list ScopePath }.
Definition as_event (e : CommittedEntry) : WatchEvent := mkEvent (ce_seq e) (ce_author e) (ce_scopes e).

Definition budget_new (rounds : Z) : Z := Z.max rounds 1.

Inductive CascadeOutcome : Type := Settled | BudgetExhausted (still_waking : list Z).
Record Cascade : Type := mkCascade { c_rounds : list (list Wake); c_outcome : CascadeOutcome }.

Section cascade.
Context {S : Type} (run : S → list Wake → S * list CommittedEntry).

(** The rounds loop: the state it leaves, or an early [Settled]. *)
Fixpoint cascade_loop (budget : nat) t (s : S) (rounds : list (list Wake)) (pending : list CommittedEntry)
  : WatchTable * S * Cascade :=
  match budget with
  | 0%nat =>
      let still_waking := would_wake t (as_event <$> pending) in
      (t, s, mkCascade rounds (match still_waking with [] => Settled | _ => BudgetExhausted still_waking end))
  | Datatypes.S budget =>
      let '(t, wakes) := wake t (as_event <$> pending) in
      match wakes with
      | [] => (t, s, mkCascade rounds Settled)
      | _ => let '(s, produced) := run s wakes in cascade_loop budget t s (rounds ++ [wakes]) produced
      end
  end.

Definition run_cascade t (s : S) (budget : Z) (entries : list CommittedEntry) : WatchTable * S * Cascade :=
  cascade_loop (Z.to_nat budget) t s [] entries.
End cascade.

Definition participants (c : Cascade) : list Z :=
  fold_left (λ seen k, if bool_decide (wk_subject k ∈ seen) then seen else seen ++ [wk_subject k])
    (mjoin (c_rounds c)) [].

(** ** Schedules (tick.rs) *)

Inductive Period : Type := Minute | Hour | Day.
Definition period_str (p : Period) : string := match p with Minute => "minute" | Hour => "hour" | Day => "day" end.
Definition period_parse (raw : string) : option Period :=
  List.find (λ p, bool_decide (period_str p = raw)) [Minute; Hour; Day].
Definition period_millis (p : Period) : Z := match p with Minute => 60000 | Hour => 3600000 | Day => 86400000 end.

Record TimeWatch : Type := mkTimeWatch { tw_subject : Z; tw_period : Period; last_fired_ms : Z }.

Definition time_register (ws : list TimeWatch) (subject : Z) (p : Period) (now_ms : Z) : list TimeWatch :=
  ws ++ [mkTimeWatch subject p now_ms].
Definition time_adopt (ws : list TimeWatch) (w : TimeWatch) : list TimeWatch := ws ++ [w].
Definition time_remove_subject (ws : list TimeWatch) (subject : Z) : list TimeWatch :=
  filter (λ w, tw_subject w ≠ subject) ws.

Definition due_step (now_ms : Z) (w : TimeWatch) : TimeWatch * option Z :=
  if bool_decide (period_millis (tw_period w) ≤ saturating_sub now_ms (last_fired_ms w))
  then (mkTimeWatch (tw_subject w) (tw_period w) now_ms, Some (tw_subject w)) else (w, None).

Definition due (ws : list TimeWatch) (now_ms : Z) : list TimeWatch * list Z :=
  ((λ w, (due_step now_ms w).1) <$> ws, dedup (sort_by_key id (omap (λ w, (due_step now_ms w).2) ws))).

Definition time_line (w : TimeWatch) : string :=
  join space [to_hex (tw_subject w); print_u64 (last_fired_ms w); period_str (tw_period w)].

Definition time_parse (line : string) : option TimeWatch :=
  match split space line with
  | p1 :: p2 :: p3 :: _ =>
      subject ← from_hex p1; last ← parse_u64 p2; period ← period_parse p3; Some (mkTimeWatch subject period last)
  | _ => None
  end.

Fixpoint load_times (ws : list TimeWatch) (lines : list string) : option (list TimeWatch) :=
  match lines with
  | [] => Some ws
  | line :: lines =>
      if is_blank line then load_times ws lines
      else match time_parse line with None => None | Some w => load_times (ws ++ [w]) lines end
  end.

(** ** Waking *)

Lemma highest_seq_ge events e : e ∈ events → ∃ h, highest_seq events = Some h ∧ ev_seq e ≤ h.
Proof.
  unfold highest_seq. intros He. apply (list_elem_of_fmap_2 ev_seq) in He. destruct (ev_seq <$> events) as [|s ss].
  { by apply elem_of_nil in He. }
  exists (foldr Z.max s ss). split; [done|]. apply elem_of_cons in He as [->|He].
  - induction ss as [|x ss IH]; cbn; lia.
  - induction ss as [|x ss IH]; [by apply elem_of_nil in He|]. cbn. apply elem_of_cons in He as [->|He]; [lia|].
    specialize (IH He). lia.
Qed.

(** A drain leaves every cursor at or past everything it considered. *)
Lemma wake_step_cursor events w :
  let w' := (wake_step events w).1 in
  w_subject w' = w_subject w ∧ w_scope w' = w_scope w ∧ self_author w' = self_author w ∧ cursor w ≤ cursor w' ∧
  ∀ e, e ∈ events → ev_seq e ≤ cursor w'.
Proof.
  unfold wake_step. cbn. split_and!; try (by destruct (highest_seq events)).
  - destruct (highest_seq events); cbn; lia.
  - intros e He. destruct (highest_seq_ge events e He) as (h & -> & Hh). cbn. lia.
Qed.

Lemma wake_step_wake events w k :
  (wake_step events w).2 = Some k ↔
  k = mkWake (w_subject w) (ev_seq <$> filter (λ e, matches w e) events) ∧ ∃ e, e ∈ events ∧ matches w e = true.
Proof.
  unfold wake_step. cbn. destruct (filter (λ e, matches w e) events) as [|e es] eqn:Ef; cbn.
  - split; [done|]. intros [_ (e & He & Hm)]. assert (e ∈ filter (λ e, matches w e) events) as Hin.
    { apply list_elem_of_filter. split; [by apply Is_true_true|done]. }
    rw Ef in Hin. by apply elem_of_nil in Hin.
  - split; [|by intros [-> _]]. intros [= <-]. split; [done|]. exists e.
    assert (e ∈ filter (λ e, matches w e) events) as [Hm He]%list_elem_of_filter by (rw Ef; by left).
    split; [done|]. by apply Is_true_true.
Qed.

Lemma elem_of_wakes t events s ms :
  mkWake s ms ∈ (wake t events).2 ↔
  ∃ w, w ∈ t ∧ s = w_subject w ∧ ms = sort_by_key id (ev_seq <$> filter (λ e, matches w e) events) ∧
    ∃ e, e ∈ events ∧ matches w e = true.
Proof.
  unfold wake. cbn [snd]. rw list_elem_of_fmap. split.
  - intros (k & [= -> ->] & Hk). rw sort_by_key_perm in Hk. apply list_elem_of_omap in Hk as (w & Hw & Hs).
    apply wake_step_wake in Hs as [-> He]. by exists w.
  - intros (w & Hw & -> & -> & He). exists (mkWake (w_subject w) (ev_seq <$> filter (λ e, matches w e) events)).
    split; [done|]. rw sort_by_key_perm. apply list_elem_of_omap. exists w. split; [done|]. by apply wake_step_wake.
Qed.

Lemma wakes_empty t events : (wake t events).2 = [] ↔ ∀ w e, w ∈ t → e ∈ events → matches w e = false.
Proof.
  split.
  - intros Hn w e Hw He. destruct (matches w e) eqn:Em; [|done]. exfalso.
    assert (mkWake (w_subject w) (sort_by_key id (ev_seq <$> filter (λ e, matches w e) events)) ∈ (wake t events).2) as Hin.
    { apply elem_of_wakes. exists w. split_and!; try done. by exists e. }
    rw Hn in Hin. by apply elem_of_nil in Hin.
  - intros Hn. destruct (wake t events).2 as [|[s ms] ks] eqn:Ek; [done|]. exfalso.
    assert (mkWake s ms ∈ (wake t events).2) as (w & Hw & _ & _ & e & He & Hm)%elem_of_wakes by (rw Ek; by left).
    by rw Hn in Hm.
Qed.

Lemma elem_of_would_wake t events s :
  s ∈ would_wake t events ↔ ∃ w e, w ∈ t ∧ s = w_subject w ∧ e ∈ events ∧ matches w e = true.
Proof.
  unfold would_wake. rw elem_of_dedup sort_by_key_perm list_elem_of_fmap. split.
  - intros (w & -> & [Hm Hw]%list_elem_of_filter). apply Is_true_true, existsb_exists in Hm as (e & He & Hm).
    exists w, e. split_and!; try done. by apply list_elem_of_In.
  - intros (w & e & Hw & -> & He & Hm). exists w. split; [done|]. apply list_elem_of_filter. split; [|done].
    apply Is_true_true, existsb_exists. exists e. split; [by apply list_elem_of_In|done].
Qed.

Lemma would_wake_sorted t events : NoDup (would_wake t events) ∧ StronglySorted (λ x y, x ≤ y) (would_wake t events).
Proof. apply dedup_NoDup. apply (sort_by_key_sorted id). Qed.

(** A drain wakes exactly whom it should: a subject is woken, with the
    positions in ascending order, by the entries past its cursor that touch its
    scope and that it did not author itself, and by no other; the peek
    [would_wake] names the same subjects; wakes come in subject order; and
    whatever a drain considered, matched or not, wakes nobody in any later one. *)
Theorem wake_exact t events later (Hlater : ∀ e, e ∈ later → ∃ e', e' ∈ events ∧ ev_seq e ≤ ev_seq e') :
  (∀ s ms, mkWake s ms ∈ (wake t events).2 ↔
     ∃ w, w ∈ t ∧ s = w_subject w ∧ ms ≠ [] ∧ ms = sort_by_key id (ev_seq <$> filter (λ e, matches w e) events)) ∧
  (∀ s, s ∈ would_wake t events ↔ s ∈ wk_subject <$> (wake t events).2) ∧
  StronglySorted (λ a b, wk_subject a ≤ wk_subject b) (wake t events).2 ∧
  (wake (wake t events).1 later).2 = [].
Proof.
  assert (∀ w, (∃ e, e ∈ events ∧ matches w e = true) ↔ sort_by_key id (ev_seq <$> filter (λ e, matches w e) events) ≠ []) as Hne.
  { intros w. split.
    - intros (e & He & Hm) Hnil. assert (ev_seq e ∈ sort_by_key id (ev_seq <$> filter (λ e, matches w e) events)) as Hin.
      { rw sort_by_key_perm. apply list_elem_of_fmap_2, list_elem_of_filter. split; [by apply Is_true_true|done]. }
      rw Hnil in Hin. by apply elem_of_nil in Hin.
    - destruct (filter (λ e, matches w e) events) as [|e es] eqn:Ef; [done|]. intros _. exists e.
      assert (e ∈ filter (λ e, matches w e) events) as [Hm He]%list_elem_of_filter by (rw Ef; by left).
      split; [done|by apply Is_true_true]. }
  split_and!.
  - intros s ms. rw elem_of_wakes. split.
    + intros (w & Hw & -> & -> & He%Hne). by exists w.
    + intros (w & Hw & -> & Hms & ->). exists w. split_and!; try done. by apply Hne.
  - intros s. rw elem_of_would_wake list_elem_of_fmap. split.
    + intros (w & e & Hw & -> & He & Hm). eexists (mkWake _ _). split; [reflexivity|].
      apply elem_of_wakes. exists w. split_and!; try done. by exists e.
    + intros ([s' ms] & -> & (w & Hw & -> & _ & e & He & Hm)%elem_of_wakes). by exists w, e.
  - unfold wake. cbn [snd]. pose proof (sort_by_key_sorted wk_subject (omap (λ w, (wake_step events w).2) t)) as Hs.
    induction Hs as [|k ks _ IH HF]; cbn; constructor; [done|]. apply Forall_fmap. by eapply Forall_impl.
  - apply wakes_empty. intros w' e Hw' He. unfold wake in Hw'. cbn [fst] in Hw'.
    apply list_elem_of_fmap in Hw' as (w & -> & Hw). destruct (Hlater e He) as (e' & He' & Hle).
    destruct (wake_step_cursor events w) as (_ & _ & _ & _ & Hc). specialize (Hc e' He').
    unfold matches. rw bool_decide_eq_false_2; [done|lia].
Qed.

(** The containment law: a watch registered against a grant table
    is only ever woken by an entry that touches something its subject was
    granted to read; without such a grant registration is refused and the table
    stays as it was. *)
Theorem watch_within_grants (g : GrantTable) t subject scope author t' r
    (Hreg : watch_register g t subject scope author = (t', r)) :
  match r with
  | Err err => t' = t ∧ err = WatchUnauthorized (ScopePath_display scope) ∧
      grant_table_covers g subject (Scope scope) Read = false
  | Ok w => t' = t ++ [w] ∧
      ∀ c e, matches (mkWatch (w_subject w) (w_scope w) (self_author w) c) e = true →
        ev_author e ≠ author ∧
        ∃ touched, touched ∈ ev_scopes e ∧ grant_table_covers g subject (Scope touched) Read = true
  end.
Proof.
  unfold watch_register in Hreg. change (provider_covers g) with (grant_table_covers g) in Hreg.
  destruct (grant_table_covers g subject (Scope scope) Read) eqn:Eg; cbn in Hreg; injection Hreg as <- <-; [|done].
  split; [done|]. intros c e [[_ Ha]%andb_prop Hs]%andb_prop. cbn in Ha, Hs. apply bool_decide_eq_true in Ha.
  split; [done|]. apply existsb_exists in Hs as (p & Hp & Hc). exists p. split; [by apply list_elem_of_In|].
  by apply (grant_table_downward g subject (Scope scope) (Scope p) Read Read).
Qed.

(** ** Cascades *)

Section cascades.
Context {S : Type} (run : S → list Wake → S * list CommittedEntry).

(** The rounds of a cascade: each wakes somebody and is run once. *)
Inductive rounds_run : list Watch → S → list CommittedEntry → list (list Wake) →
    list Watch → S → list CommittedEntry → Prop :=
| rr_nil t s p : rounds_run t s p [] t s p
| rr_cons t s p t1 wakes s1 p1 rounds t2 s2 p2 :
    wake t (as_event <$> p) = (t1, wakes) → wakes ≠ [] → run s wakes = (s1, p1) →
    rounds_run t1 s1 p1 rounds t2 s2 p2 → rounds_run t s p (wakes :: rounds) t2 s2 p2.

Lemma would_wake_nil t events : would_wake t events = [] ↔ (wake t events).2 = [].
Proof.
  rw wakes_empty. split.
  - intros Hn w e Hw He. destruct (matches w e) eqn:Em; [|done]. exfalso.
    assert (w_subject w ∈ would_wake t events) as Hin by (apply elem_of_would_wake; by exists w, e).
    rw Hn in Hin. by apply elem_of_nil in Hin.
  - intros Hn. destruct (would_wake t events) as [|s ss] eqn:Es; [done|]. exfalso.
    assert (s ∈ would_wake t events) as (w & e & Hw & _ & He & Hm)%elem_of_would_wake by (rw Es; by left).
    by rw Hn in Hm.
Qed.

Lemma cascade_loop_spec budget t s rounds p t' s' c :
  cascade_loop run budget t s rounds p = (t', s', c) →
  ∃ more tn pn, c_rounds c = rounds ++ more ∧ (length more ≤ budget)%nat ∧ rounds_run t s p more tn s' pn ∧
    match c_outcome c with
    | Settled => would_wake tn (as_event <$> pn) = []
    | BudgetExhausted l => length more = budget ∧ l = would_wake tn (as_event <$> pn) ∧ l ≠ [] ∧ t' = tn
    end.
Proof.
  revert t s rounds p. induction budget as [|budget IH]; intros t s rounds p; cbn [cascade_loop].
  - intros [= <- <- <-]. exists [], t, p. cbn. split_and!; [by rw app_nil_r|done|constructor|].
    by destruct (would_wake t (as_event <$> p)) as [|x xs] eqn:Ew.
  - destruct (wake t (as_event <$> p)) as [t1 wakes] eqn:Ew. destruct wakes as [|k ks].
    + intros [= <- <- <-]. exists [], t, p. cbn. split_and!; [by rw app_nil_r|lia|constructor|].
      apply would_wake_nil. by rw Ew.
    + destruct (run s (k :: ks)) as [s1 p1] eqn:Er. intros (more & tn & pn & Hc & Hlen & Hrun & Ho)%IH.
      exists ((k :: ks) :: more), tn, pn. split_and!.
      * by rw Hc -app_assoc.
      * cbn. lia.
      * by eapply rr_cons.
      * destruct (c_outcome c); [done|]. destruct Ho as (Hl & -> & Hne & ->). cbn. by rw Hl.
Qed.

(** Cursors never go back, and a first round has considered the entries. *)
Lemma cascade_loop_cursors budget t s rounds p t' s' c :
  cascade_loop run budget t s rounds p = (t', s', c) →
  Forall2 (λ w w', w_subject w' = w_subject w ∧ w_scope w' = w_scope w ∧ self_author w' = self_author w ∧
    cursor w ≤ cursor w' ∧ (budget ≠ 0%nat → ∀ e, e ∈ p → ce_seq e ≤ cursor w')) t t'.
Proof.
  revert t s rounds p. induction budget as [|budget IH]; intros t s rounds p; cbn [cascade_loop].
  { intros [= <- _ _]. clear. induction t; constructor; [|done]. split_and!; done. }
  assert (∀ w e, e ∈ p → ce_seq e ≤ cursor (wake_step (as_event <$> p) w).1) as Hcons.
  { intros w e He. destruct (wake_step_cursor (as_event <$> p) w) as (_ & _ & _ & _ & Hc).
    apply (Hc (as_event e)). by apply list_elem_of_fmap_2. }
  destruct (wake t (as_event <$> p)) as [t1 wakes] eqn:Ew.
  assert (t1 = (λ w, (wake_step (as_event <$> p) w).1) <$> t) as -> by (unfold wake in Ew; by injection Ew).
  clear Ew. destruct wakes as [|k ks].
  - intros [= <- _ _]. clear IH. induction t as [|w t IHt]; constructor; [|done].
    destruct (wake_step_cursor (as_event <$> p) w) as (? & ? & ? & ? & _). split_and!; try done. intros _ e He. by apply Hcons.
  - destruct (run s (k :: ks)) as [s1 p1]. intros HF%IH. rw Forall2_fmap_l in HF. eapply Forall2_impl; [exact HF|].
    cbn beta. intros w w2 (H1 & H2 & H3 & H4 & _). unfold compose in *.
    destruct (wake_step_cursor (as_event <$> p) w) as (E1 & E2 & E3 & E4 & _).
    split_and!; [congruence..|lia|]. intros _ e He. specialize (Hcons w e He). lia.
Qed.

(** C38. A cascade always ends, within its budget, and says how: it runs
    at most [budget] rounds, each waking somebody and handed to the runner once
    on what the round before committed; it reports [Settled] only when what was
    committed last wakes nobody, and otherwise names exactly the subjects the
    next round would have woken, leaving their cursors for a later drain; and a
    second cascade over the same entries wakes nobody at all. *)
Theorem cascade_exact t s (budget : Z) entries t' s' c
    (Hb : 1 ≤ budget) (Hrun : run_cascade run t s budget entries = (t', s', c)) :
  (∃ tn pn, rounds_run t s entries (c_rounds c) tn s' pn ∧ Z.of_nat (length (c_rounds c)) ≤ budget ∧
    match c_outcome c with
    | Settled => would_wake tn (as_event <$> pn) = []
    | BudgetExhausted l => Z.of_nat (length (c_rounds c)) = budget ∧ l = would_wake tn (as_event <$> pn) ∧ l ≠ [] ∧ t' = tn
    end) ∧
  ∀ b s2, 1 ≤ b → ∃ t2, run_cascade run t' s2 b entries = (t2, s2, mkCascade [] Settled).
Proof.
  unfold run_cascade in *. split.
  - apply cascade_loop_spec in Hrun as (more & tn & pn & Hc & Hl & Hr & Ho). cbn in Hc. rw Hc. exists tn, pn.
    split_and!; [done|lia|]. destruct (c_outcome c); [done|]. destruct Ho as (? & ? & ? & ?). split_and!; try done. lia.
  - intros b s2 Hb2. apply cascade_loop_cursors in Hrun.
    assert ((wake t' (as_event <$> entries)).2 = []) as Hw.
    { apply wakes_empty. intros w' e' Hw' (e & -> & He)%list_elem_of_fmap.
      apply list_elem_of_lookup in Hw' as [i Hi]. destruct (Forall2_lookup_r _ _ _ _ _ Hrun Hi) as (w & _ & _ & _ & _ & _ & Hc).
      unfold matches. rw bool_decide_eq_false_2; [done|]. cbn. specialize (Hc ltac:(lia) e He). lia. }
    destruct (Z.to_nat b) as [|n] eqn:En; [lia|]. cbn [cascade_loop].
    destruct (wake t' (as_event <$> entries)) as [t2 wakes]. cbn in Hw. subst wakes. by exists t2.
Qed.
End cascades.

(** ** Schedules *)

(** The instants at which a schedule fires along a sequence of clock readings. *)
Fixpoint fires (w : TimeWatch) (clock : list Z) : list Z :=
  match clock with
  | [] => []
  | now :: clock =>
      match due_step now w with
      | (w', Some _) => now :: fires w' clock
      | (w', None) => fires w' clock
      end
  end.

Lemma due_step_spec now w :
  0 < period_millis (tw_period w) ∧
  ((due_step now w = (mkTimeWatch (tw_subject w) (tw_period w) now, Some (tw_subject w)) ∧
    last_fired_ms w + period_millis (tw_period w) ≤ now) ∨
   (due_step now w = (w, None) ∧ now < last_fired_ms w + period_millis (tw_period w))).
Proof.
  assert (0 < period_millis (tw_period w)) as Hp by (destruct (tw_period w); cbn; lia). split; [done|].
  unfold due_step, saturating_sub.
  destruct (bool_decide_reflect (period_millis (tw_period w) ≤ Z.max 0 (now - last_fired_ms w))); [left|right]; split; [done|lia|done|lia].
Qed.

Lemma fires_spaced clock w : spaced (period_millis (tw_period w)) (last_fired_ms w :: fires w clock).
Proof.
  revert w. induction clock as [|now clock IH]; intros w; cbn [fires]; [repeat constructor|].
  destruct (due_step_spec now w) as [Hp [[-> Hle]|[-> Hlt]]]; [|apply IH].
  specialize (IH (mkTimeWatch (tw_subject w) (tw_period w) now)). cbn [last_fired_ms tw_period] in IH.
  inversion IH as [|? ? Hs HF]; subst. constructor; [done|]. constructor; [done|].
  eapply Forall_impl; [exact HF|]. cbn. intros; lia.
Qed.

(** A schedule never fires early or twice for one period, whatever the
    clock does: over any sequence of readings, backward jumps included, the
    instants it fires at are at least a period apart and the first is at least a
    period after registration, so [n] of them inside a window need a window of
    [n - 1] periods; and one reading wakes exactly the due subjects, each once
    and in order. *)
Theorem schedule_rate_bounded ws w clock now lo hi :
  spaced (period_millis (tw_period w)) (last_fired_ms w :: fires w clock) ∧
  (filter (λ x, lo ≤ x ≤ hi) (fires w clock) ≠ [] →
   (Z.of_nat (length (filter (λ x, lo ≤ x ≤ hi) (fires w clock))) - 1) * period_millis (tw_period w) ≤ hi - lo) ∧
  NoDup (due ws now).2 ∧ StronglySorted (λ x y, x ≤ y) (due ws now).2 ∧
  (∀ s, s ∈ (due ws now).2 ↔ ∃ w', w' ∈ ws ∧ s = tw_subject w' ∧ last_fired_ms w' + period_millis (tw_period w') ≤ now).
Proof.
  destruct (due_step_spec now w) as [Hp _].
  destruct (dedup_NoDup (sort_by_key id (omap (λ w, (due_step now w).2) ws))) as [Hnd Hso]; [apply (sort_by_key_sorted id)|].
  pose proof (fires_spaced clock w) as Hsp. split_and!; [done| |done|done|].
  - intros Hne. inversion Hsp as [|? ? Hs _]; subst. apply spaced_count; [lia|by apply spaced_filter| |done].
    apply Forall_forall. by intros x [Hx _]%list_elem_of_filter.
  - intros s. unfold due. cbn [snd]. rw elem_of_dedup sort_by_key_perm list_elem_of_omap. split.
    + intros (w' & Hw' & Hd). exists w'. destruct (due_step_spec now w') as [_ [[E Hle]|[E Hlt]]]; rw E in Hd; [|done].
      by injection Hd as <-.
    + intros (w' & Hw' & -> & Hle). exists w'. split; [done|].
      destruct (due_step_spec now w') as [_ [[E _]|[_ Hlt]]]; [by rw E|lia].
Qed.

(** ** Persistence *)

Definition watch_ok (w : Watch) : Prop :=
  is_key (w_subject w) ∧ is_u64 (cursor w) ∧ contains_char space (self_author w) = false ∧ scope_wf (w_scope w).

Lemma watch_parse_line w : watch_ok w → watch_parse (watch_line w) = Ok w.
Proof.
  intros (Hs & Hc & Ha & Hp). unfold watch_parse, watch_line. rw split_once_app; [|by apply to_hex_no_char].
  rw split_once_app; [|by apply print_u64_no_char]. rw split_once_app //. rw from_to_hex // parse_print_u64 //.
  rw ScopePath_parse_display //. by destruct w.
Qed.

Lemma time_parse_line w : is_key (tw_subject w) → is_u64 (last_fired_ms w) → time_parse (time_line w) = Some w.
Proof.
  intros Hs Hl. unfold time_parse, time_line. rw split_join //; cycle 1.
  { repeat constructor; [by apply to_hex_no_char|by apply print_u64_no_char|by destruct (tw_period w)]. }
  rw from_to_hex // parse_print_u64 //. cbn. destruct w as [s p l]. by destruct p.
Qed.

(** Watches and schedules survive a restart: the lines a table
    writes reload to the same table, scopes with spaces or colons included, for
    every 32-byte subject, 64-bit position and author label without a space. *)
Theorem watch_lines_roundtrip t ws (Hok : Forall watch_ok t)
    (Hws : Forall (λ w, is_key (tw_subject w) ∧ is_u64 (last_fired_ms w)) ws) :
  watches_from_lines (watch_lines t) = Ok t ∧ load_times [] (time_line <$> ws) = Some ws.
Proof.
  assert (∀ l k, Forall watch_ok l → load_watches k (watch_line <$> l) = Ok (k ++ l)) as Hw.
  { induction l as [|w l IH]; intros k HF; [by rw app_nil_r|]. inversion HF; subst. cbn [fmap list_fmap load_watches].
    unfold watch_line at 1. rw to_hex_not_blank. fold (watch_line w). rw watch_parse_line // IH //. by rw -app_assoc. }
  assert (∀ l k, Forall (λ w, is_key (tw_subject w) ∧ is_u64 (last_fired_ms w)) l →
    load_times k (time_line <$> l) = Some (k ++ l)) as Ht.
  { induction l as [|w l IH]; intros k HF; [by rw app_nil_r|]. inversion HF as [|? ? [? ?]]; subst. cbn [fmap list_fmap load_times].
    unfold time_line at 1. rw join_cons to_hex_not_blank. rw time_parse_line // IH //. by rw -app_assoc. }
  split; [by apply (Hw t [])|by apply (Ht ws [])].
Qed.

(** ** A pair of helpers answering each other *)

Module Sample.
Definition trail : ScopePath := mkScope ["trail"].
Definition alpha : Watch := mkWatch 1 trail "denizen:aa" 0.
Definition beta : Watch := mkWatch 2 trail "denizen:bb" 0.

(** Each woken body commits one entry; the state is the next position. *)
Definition answer (next : Z) (wakes : list Wake) : Z * list CommittedEntry :=
  (next + Z.of_nat (length wakes),
   imap (λ i k, mkEntryC (next + Z.of_nat i) (if bool_decide (wk_subject k = 1) then "denizen:aa" else "denizen:bb") [trail]) wakes).

Definition trigger : list CommittedEntry := [mkEntryC 1 "ui" [mkScope ["trail"; "x"]]].

Lemma wake_exact_witness :
  (wake (wake [alpha; beta] (as_event <$> trigger)).1 (as_event <$> trigger)).2 = [].
Proof.
  refine (proj2 (proj2 (proj2 (wake_exact [alpha; beta] (as_event <$> trigger) (as_event <$> trigger) _)))).
  intros e He. exists e. split; [exact He|lia].
Defined.

Definition reader : GrantTable := with_grant grant_table_new (grant_new 1 (Scope trail) Read).

Lemma watch_within_grants_witness :
  matches alpha (mkEvent 4 "ui" [trail]) = true ∧
  ∃ touched, touched ∈ [trail] ∧ grant_table_covers reader 1 (Scope touched) Read = true.
Proof.
  split; [by vm_compute|].
  exact (proj2 (proj2 (watch_within_grants reader [] 1 trail "denizen:aa" [alpha] (Ok alpha) eq_refl) 0
    (mkEvent 4 "ui" [trail]) eq_refl)).
Defined.

Lemma cascade_exact_witness :
  ∃ t' s', run_cascade answer [alpha; beta] 2 4 trigger =
      (t', s', mkCascade [[mkWake 1 [1]; mkWake 2 [1]]; [mkWake 1 [3]; mkWake 2 [2]];
                          [mkWake 1 [5]; mkWake 2 [4]]; [mkWake 1 [7]; mkWake 2 [6]]] (BudgetExhausted [1; 2])) ∧
    ∃ t2, run_cascade answer t' 0 1 trigger = (t2, 0, mkCascade [] Settled).
Proof.
  eexists _, _. split; [vm_compute; reflexivity|].
  refine (proj2 (cascade_exact answer [alpha; beta] 2 4 trigger _ _ _ _ _) 1 0 _); [lia|vm_compute; reflexivity|lia].
Defined.

Lemma watch_lines_roundtrip_witness :
  watches_from_lines (watch_lines [alpha; beta]) = Ok [alpha; beta] ∧
  load_times [] (time_line <$> [mkTimeWatch 3 Hour 500]) = Some [mkTimeWatch 3 Hour 500].
Proof.
  apply (watch_lines_roundtrip [alpha; beta] [mkTimeWatch 3 Hour 500]); repeat constructor; by vm_compute.
Defined.

(** The first entry of a journal has position 0, where a new cursor stands. *)
Lemma first_entry_wakes_nobody :
  (wake [alpha; beta] [mkEvent 0 "ui" [trail]]).2 = [].
Proof. by vm_compute. Qed.
End Sample.
