(* ===== verification/Gate.v ===== *)
(** The authority gate (crates/servitor/src/gate.rs) over the containers of
    crates/eidetic/chartulary/src/container.rs.

    A petition is validated (projection guard, authority, scope, facet
    authority) and then committed through [GraphLog.commit_batch]; a behavior
    petition also passes its deadband.  A denizen's grants are projected into
    its graph as reserved nodes and read back from their tags.  The tags of a
    container are a [HashSet]: [iter] is its iteration order, of which only the
    contents are known.

    The theorems: a committed petition changes nothing outside the claimed scope
    and no grant projection, projections read back the grant whatever petitions
    follow, a refusal changes nothing, and behaviors cannot actuate faster than
    they declared. *)

From S2P Require Import Prelude Wire Capability Journal StableGraph GraphLog GraphSpec GraphReplay.
From S2P Require Import Deadband Delegation DelegationTable Grant.

Local Open Scope Z_scope.

(** ** Containers *)

Record Container : Type := mkContainer {
  ct_id : string;
  ct_addresses : list string;
  ct_content : option Z;
  ct_body : option string;
  ct_media_type : option string;
  ct_title : string;
  ct_tags : gset string;
  ct_nested : option string
}.

Definition container_new (id : string) : Container := mkContainer id [] None None None "" ∅ None.
Definition with_tag (tag : string) (c : Container) : Container :=
  mkContainer (ct_id c) (ct_addresses c) (ct_content c) (ct_body c) (ct_media_type c) (ct_title c)
    ({[tag]} ∪ ct_tags c) (ct_nested c).
Definition with_title (title : string) (c : Container) : Container :=
  mkContainer (ct_id c) (ct_addresses c) (ct_content c) (ct_body c) (ct_media_type c) title (ct_tags c) (ct_nested c).
Definition with_media_type (m : string) (c : Container) : Container :=
  mkContainer (ct_id c) (ct_addresses c) (ct_content c) (ct_body c) (Some m) (ct_title c) (ct_tags c) (ct_nested c).

(** ** Records *)

Definition GRANT_PREFIX : string := "grant:".
Definition PROJECTION_TAG : string := "grant-projection".
Definition PROJECTION_MEDIA_TYPE : string := "application/vnd.mere.grant+json".

Definition mode_wire (m : Mode) : string := match m with Read => "read" | Write => "write" | Delegate => "delegate" end.
Definition mode_from_wire (raw : string) : option Mode :=
  if bool_decide (raw = "read") then Some Read
  else if bool_decide (raw = "write") then Some Write
  else if bool_decide (raw = "delegate") then Some Delegate else None.
Definition mode_debug (m : Mode) : string := match m with Read => "Read" | Write => "Write" | Delegate => "Delegate" end.

Definition grant_tags (g : Grant) : list string :=
  ["cap:" +:+ to_wire (g_cap g); "mode:" +:+ mode_wire (g_mode g); "subject:" +:+ to_hex (g_subject g);
   "expires:" +:+ match g_expires_at_ms g with Some at_ms => print_u64 at_ms | None => "never" end].

Section records.
Context (iter : gset string → list string).

(** [node.tags.iter().find_map(|t| t.strip_prefix(prefix))]. *)
Definition tag_value (node : Container) (prefix : string) : option string :=
  head (omap (strip_prefix prefix) (iter (ct_tags node))).

Definition read_grant (node : Container) : option Grant :=
  cap_raw ← tag_value node "cap:";
  cap ← match Cap_parse cap_raw with Ok c => Some c | Err _ => None end;
  mode_raw ← tag_value node "mode:";
  mode ← mode_from_wire mode_raw;
  subject_raw ← tag_value node "subject:";
  subject ← from_hex subject_raw;
  let grant := grant_new subject cap mode in
  match tag_value node "expires:" with
  | None => Some grant
  | Some raw => if bool_decide (raw = "never") then Some grant else expiring_at grant <$> parse_u64 raw
  end.

Definition read_projection (node : Container) : option Grant :=
  if existsb (λ t, bool_decide (t = PROJECTION_TAG)) (iter (ct_tags node)) then read_grant node else None.
End records.

Definition projection_id (cap : Cap) : string := GRANT_PREFIX +:+ to_wire cap.

Definition projection_node (g : Grant) : Container :=
  with_media_type PROJECTION_MEDIA_TYPE
    (with_title (mode_debug (g_mode g) +:+ String space (to_wire (g_cap g) +:+ String space (to_hex (g_subject g))))
      (fold_left (λ c t, with_tag t c) (grant_tags g) (with_tag PROJECTION_TAG (container_new (projection_id (g_cap g)))))).

(** ** Reading a projection back *)

(** The five tags, whatever the four values, are distinct. *)
Lemma tags_NoDup c m s e :
  NoDup [PROJECTION_TAG; "cap:" +:+ c; "mode:" +:+ m; "subject:" +:+ s; "expires:" +:+ e].
Proof. repeat (apply NoDup_cons; split; [rw ?not_elem_of_cons; cbn; split_and?; try done; apply not_elem_of_nil|]). constructor. Qed.

Lemma projection_tags g : ct_tags (projection_node g) = list_to_set (PROJECTION_TAG :: grant_tags g).
Proof.
  unfold projection_node, grant_tags. generalize (to_wire (g_cap g)), (to_hex (g_subject g)). intros c s.
  cbn [fold_left with_media_type with_title with_tag ct_tags container_new list_to_set]. set_solver.
Qed.

Section reading.
Context (iter : gset string → list string) (iter_elements : ∀ X, iter X ≡ₚ elements X).

Lemma iter_tags g : iter (ct_tags (projection_node g)) ≡ₚ PROJECTION_TAG :: grant_tags g.
Proof. rw iter_elements projection_tags. apply elements_list_to_set. apply tags_NoDup. Qed.

(** Exactly one tag carries each prefix, so the order of iteration is immaterial. *)
Lemma tag_value_projection g prefix v :
  omap (strip_prefix prefix) (PROJECTION_TAG :: grant_tags g) = [v] → tag_value iter (projection_node g) prefix = Some v.
Proof.
  intros Hv. unfold tag_value. assert (omap (strip_prefix prefix) (iter (ct_tags (projection_node g))) ≡ₚ [v]) as Hp.
  { by rw iter_tags Hv. }
  symmetry in Hp. apply Permutation_singleton_l in Hp. by rw -Hp.
Qed.

Lemma read_projection_node g :
  Cap_wf (g_cap g) → is_key (g_subject g) → (∀ t, g_expires_at_ms g = Some t → is_u64 t) →
  read_projection iter (projection_node g) = Some g.
Proof.
  intros Hc Hk He. unfold read_projection.
  assert (existsb (λ t, bool_decide (t = PROJECTION_TAG)) (iter (ct_tags (projection_node g))) = true) as ->.
  { apply existsb_exists. exists PROJECTION_TAG. split; [|by apply bool_decide_eq_true].
    apply list_elem_of_In. rw iter_tags. by left. }
  assert (∀ c m s e prefix v, grant_tags g = ["cap:" +:+ c; "mode:" +:+ m; "subject:" +:+ s; "expires:" +:+ e] →
    omap (strip_prefix prefix) [PROJECTION_TAG; "cap:" +:+ c; "mode:" +:+ m; "subject:" +:+ s; "expires:" +:+ e] = [v] →
    tag_value iter (projection_node g) prefix = Some v) as Htag.
  { intros c m s e prefix v Hg Hv. apply tag_value_projection. by rw Hg. }
  unfold read_grant.
  rw (Htag _ _ _ _ "cap:" _ eq_refl eq_refl) (Htag _ _ _ _ "mode:" _ eq_refl eq_refl)
     (Htag _ _ _ _ "subject:" _ eq_refl eq_refl) (Htag _ _ _ _ "expires:" _ eq_refl eq_refl).
  cbn [mbind option_bind]. rw Cap_parse_to_wire // from_to_hex //.
  assert (mode_from_wire (mode_wire (g_mode g)) = Some (g_mode g)) as -> by by destruct (g_mode g).
  cbn [mbind option_bind]. destruct g as [s c m [t|]]; cbn [g_expires_at_ms] in *; [|by rw bool_decide_eq_true_2].
  pose proof (parse_print_u64 t (He t eq_refl)) as Hp. rw bool_decide_eq_false_2; [|intros Hn; by rw Hn in Hp]. by rw Hp.
Qed.
End reading.

(** [Subject::to_author]. *)
Definition to_author (subject : Z) : string := "denizen:" +:+ String.substring 0 8 (to_hex subject).

(** ** Petitions *)

Section gate.
Context {G : Type → Type → Type} `{StableGraph G} {E V P : Type} `{AuthorityProvider P}.

Abbreviation Log := (GraphLog (G := G) (N := Container) (E := E) (Id := string) (F := string) (V := V)).
Abbreviation Spec := (EditSpec (N := Container) (E := E) (Id := string) (F := string) (V := V)).
Implicit Types (l : Log) (specs : list Spec) (p : P).

Inductive GateError : Type :=
| GateDeadband (r : DeadbandRefusal)
| Unauthorized (path : string)
| OutOfScope (node path : string)
| UnauthorizedFacet (facet : string)
| TouchesProjection (node : string)
| GateCommit (e : CommitError (Id := string)).

Definition touched_nodes (sp : Spec) : list string :=
  match sp with
  | SpInsertNode n => [ct_id n]
  | SpRemoveNode id => [id]
  | SpConnect from to _ => [from; to]
  | SpDisconnect _ => []
  | SpDerive node _ | SpSetFacet node _ _ | SpRemoveFacet node _ => [node]
  end.

Definition touched_facet (sp : Spec) : option string :=
  match sp with SpSetFacet _ facet _ | SpRemoveFacet _ facet => Some facet | _ => None end.

Definition inside (claimed : ScopePath) (node : string) : bool :=
  match ScopePath_parse node with Ok node_scope => covers_scope claimed node_scope | Err _ => false end.

Definition facet_covered p (subject : Z) (facet : string) : bool :=
  match Cap_facet facet with Ok needed => provider_covers p subject needed Write | Err _ => false end.

Definition validate_petition p (subject : Z) (claimed : ScopePath) specs : result GateError unit :=
  match List.find (starts_with GRANT_PREFIX) (specs ≫= touched_nodes) with
  | Some node => Err (TouchesProjection node)
  | None =>
      if negb (provider_covers p subject (Scope claimed) Write) then Err (Unauthorized (ScopePath_display claimed))
      else match List.find (λ node, negb (inside claimed node)) (specs ≫= touched_nodes) with
           | Some node => Err (OutOfScope node (ScopePath_display claimed))
           | None => match List.find (λ facet, negb (facet_covered p subject facet)) (omap touched_facet specs) with
                     | Some facet => Err (UnauthorizedFacet facet)
                     | None => Ok tt
                     end
           end
  end.

Definition petition p l (subject : Z) (claimed : ScopePath) (expected : Z) specs : Log * result GateError Committed :=
  match validate_petition p subject claimed specs with
  | Err e => (l, Err e)
  | Ok _ => let '(l', r) := commit_batch ct_id l (to_author subject) expected specs in (l', map_err GateCommit r)
  end.

Definition petition_behavior p (deadbands : list Entry) l (subject : Z) (claimed : ScopePath) (expected : Z)
    (actuation : Actuation) specs : list Entry * Log * result GateError Committed :=
  match validate_petition p subject claimed specs with
  | Err e => (deadbands, l, Err e)
  | Ok _ =>
      match check deadbands subject actuation with
      | Err r => (deadbands, l, Err (GateDeadband r))
      | Ok admission =>
          match commit_batch ct_id l (to_author subject) expected specs with
          | (l', Err e) => (deadbands, l', Err (GateCommit e))
          | (l', Ok c) => (record deadbands admission, l', Ok c)
          end
      end
  end.

(** [project_grant], committed by the gate's own author. *)
Definition project_grant (author : string) l (g : Grant) : Log * result GateError Committed :=
  let '(l', r) := commit_batch ct_id l author (revision l) [SpInsertNode (projection_node g)] in (l', map_err GateCommit r).

(** ** What a valid petition may touch *)

Lemma find_None {A} (q : A → bool) (xs : list A) x : List.find q xs = None → x ∈ xs → q x = false.
Proof. intros Hf Hx. apply (find_none q xs Hf). by apply list_elem_of_In. Qed.

Lemma validate_ok p subject claimed specs :
  validate_petition p subject claimed specs = Ok tt →
  provider_covers p subject (Scope claimed) Write = true ∧
  (∀ n, n ∈ specs ≫= touched_nodes → starts_with GRANT_PREFIX n = false ∧ inside claimed n = true) ∧
  (∀ f, f ∈ omap touched_facet specs → facet_covered p subject f = true).
Proof.
  unfold validate_petition. destruct (List.find (starts_with GRANT_PREFIX) _) eqn:E1; [done|].
  destruct (provider_covers p subject (Scope claimed) Write); [cbn [negb]|done].
  destruct (List.find (λ node, negb (inside claimed node)) _) eqn:E2; [done|].
  destruct (List.find (λ facet, negb (facet_covered p subject facet)) _) eqn:E3; [done|]. intros _.
  split_and!; [done| |].
  - intros n Hn. split; [exact (find_None _ _ n E1 Hn)|]. apply negb_false_iff. exact (find_None _ _ n E2 Hn).
  - intros f Hf. apply negb_false_iff. exact (find_None _ _ f E3 Hf).
Qed.

Abbreviation Edit := (GraphEdit (N := Container) (E := E) (Id := string) (F := string) (V := V)).
Abbreviation A := (AGraph (N := Container) (E := E) (Id := string) (F := string) (V := V)).

Definition edit_touched (e : Edit) : list string :=
  match e with
  | InsertNode n => [ct_id n]
  | RemoveNode id => [id]
  | Connect _ from to _ => [from; to]
  | Disconnect _ => []
  | Derive node _ | SetFacet node _ _ | RemoveFacet node _ => [node]
  end.

Definition edit_facet (e : Edit) : option string :=
  match e with SetFacet _ facet _ | RemoveFacet _ facet => Some facet | _ => None end.

Lemma lower_touched w n specs :
  let edits := (lower w n specs).1.1 in
  edits ≫= edit_touched = specs ≫= touched_nodes ∧ omap edit_facet edits = omap touched_facet specs ∧
  (∀ id, RemoveNode id ∈ edits ↔ SpRemoveNode id ∈ specs) ∧ (∀ i, Disconnect i ∈ edits ↔ SpDisconnect i ∈ specs).
Proof.
  revert n. induction specs as [|sp specs IH]; intros n; [split_and!; [done..| |]; intros id; by rw !elem_of_nil|].
  cbn zeta. destruct (lower_cons w n sp specs) as [n' ->]. destruct (IH n') as (IH1 & IH2 & IH3 & IH4).
  cbn [mbind list_bind omap list_omap]. rw IH1 IH2. split_and!; [by destruct sp|by destruct sp| |].
  - intros id. rw !elem_of_cons IH3. destruct sp; cbn; naive_solver.
  - intros i. rw !elem_of_cons IH4. destruct sp; cbn; naive_solver.
Qed.

Lemma a_apply_untouched (a : A) (e : Edit) id :
  id ∉ edit_touched e →
  a_nodes (a_apply ct_id a e) !! id = a_nodes a !! id ∧
  a_derivations (a_apply ct_id a e) !! id = a_derivations a !! id ∧
  a_facets (a_apply ct_id a e) !! id = a_facets a !! id.
Proof.
  destruct e as [m|i|i f t x|i|node from|node facet value|node facet]; cbn; rw ?not_elem_of_cons; intros Hid; try done.
  - rw lookup_insert_ne //. by intros <-; destruct Hid.
  - rw !lookup_delete_ne //; by intros <-; destruct Hid.
  - by destruct (a_nodes a !! f), (a_nodes a !! t).
  - rw lookup_insert_ne //. by intros <-; destruct Hid.
  - destruct (a_nodes a !! node); [cbn|done]. rw lookup_insert_ne //. by intros <-; destruct Hid.
  - destruct (a_nodes a !! node); [cbn|done]. unfold facet_remove. destruct (a_facets a !! node); [|done].
    assert (node ≠ id) by (by intros <-; destruct Hid). cbn. case_bool_decide; cbn; [by rw lookup_delete_ne|by rw lookup_insert_ne].
Qed.

Lemma a_apply_all_untouched es (a : A) id :
  id ∉ es ≫= edit_touched →
  a_nodes (a_apply_all ct_id a es) !! id = a_nodes a !! id ∧
  a_derivations (a_apply_all ct_id a es) !! id = a_derivations a !! id ∧
  a_facets (a_apply_all ct_id a es) !! id = a_facets a !! id.
Proof.
  unfold a_apply_all. revert a. induction es as [|e es IH]; intros a; [done|]. cbn [mbind list_bind fold_left].
  rw not_elem_of_app. intros [He Hes]. destruct (IH (a_apply ct_id a e) Hes) as (-> & -> & ->). by apply a_apply_untouched.
Qed.

Lemma a_apply_edge (a : A) (e : Edit) i f t x :
  a_edges (a_apply ct_id a e) !! i = Some (f, t, x) →
  a_edges a !! i = Some (f, t, x) ∨ (f ∈ edit_touched e ∧ t ∈ edit_touched e).
Proof.
  destruct e as [m|id|i' f' t' x'|i'|node from|node facet value|node facet]; cbn; auto.
  - intros [? _]%map_lookup_filter_Some. by left.
  - destruct (a_nodes a !! f'), (a_nodes a !! t'); cbn; auto.
    intros [[-> [= -> -> ->]]|[_ ?]]%lookup_insert_Some; [right|by left]. set_solver.
  - intros [_ ?]%lookup_delete_Some. by left.
  - destruct (a_nodes a !! node); auto.
  - destruct (a_nodes a !! node); auto.
Qed.

Lemma a_apply_all_edge es (a : A) i f t x :
  a_edges (a_apply_all ct_id a es) !! i = Some (f, t, x) →
  a_edges a !! i = Some (f, t, x) ∨ (f ∈ es ≫= edit_touched ∧ t ∈ es ≫= edit_touched).
Proof.
  unfold a_apply_all. revert a. induction es as [|e es IH]; intros a; [by left|]. cbn [mbind list_bind fold_left].
  intros [He|[? ?]]%IH; [apply a_apply_edge in He as [?|[? ?]]; [by left|]|]; right; set_solver.
Qed.

Lemma a_apply_facet (a : A) (e : Edit) id f :
  e ≠ RemoveNode id → edit_facet e ≠ Some f →
  facet_get (a_facets (a_apply ct_id a e)) id f = facet_get (a_facets a) id f.
Proof.
  unfold facet_get. destruct e as [m|i|i f' t x|i|node from|node facet value|node facet]; cbn; intros Hr Hf; try done.
  - rw lookup_delete_ne //. congruence.
  - by destruct (a_nodes a !! f'), (a_nodes a !! t).
  - destruct (a_nodes a !! node); [cbn|done]. destruct (decide (node = id)) as [->|Hne]; [|by rw lookup_insert_ne].
    rw lookup_insert_eq. cbn. rw lookup_insert_ne; [|congruence]. destruct (a_facets a !! id); cbn; [done|apply lookup_empty].
  - destruct (a_nodes a !! node); [cbn|done]. unfold facet_remove. destruct (a_facets a !! node) as [fs|] eqn:En; [cbn|done].
    assert (delete facet fs !! f = fs !! f) as Hd by (apply lookup_delete_ne; congruence).
    destruct (decide (node = id)) as [->|Hne]; [|case_bool_decide; [by rw lookup_delete_ne|by rw lookup_insert_ne]].
    rw En. cbn. case_bool_decide as He; [|by rw lookup_insert_eq]. rw lookup_delete_eq -Hd He. cbn. by rw lookup_empty.
Qed.

Lemma a_apply_all_facet es (a : A) id f :
  RemoveNode id ∉ es → f ∉ omap edit_facet es →
  facet_get (a_facets (a_apply_all ct_id a es)) id f = facet_get (a_facets a) id f.
Proof.
  unfold a_apply_all. revert a. induction es as [|e es IH]; intros a; [done|]. cbn [omap list_omap fold_left].
  rw not_elem_of_cons. intros [Hr Hrs] Hf.
  assert (edit_facet e ≠ Some f ∧ f ∉ omap edit_facet es) as [Hfe Hfs] by (destruct (edit_facet e); set_solver).
  rw IH //. apply a_apply_facet; [congruence|done].
Qed.

Lemma a_apply_edge_kept (a : A) (e : Edit) i f t x :
  a_edges a !! i = Some (f, t, x) →
  e ≠ Disconnect i → e ≠ RemoveNode f → e ≠ RemoveNode t → i ∉ connect_ids [e] →
  a_edges (a_apply ct_id a e) !! i = Some (f, t, x).
Proof.
  intros Hi Hd Hf Ht Hc. destruct e as [m|id|i' f' t' x'|i'|node from|node facet value|node facet]; cbn in *; try done.
  - rw map_lookup_filter Hi. cbn. rw option_guard_True //. cbn. split; congruence.
  - destruct (a_nodes a !! f'), (a_nodes a !! t'); cbn; try done. rw lookup_insert_ne //. intros ->. apply Hc. by left.
  - rw lookup_delete_ne //. congruence.
  - by destruct (a_nodes a !! node).
  - by destruct (a_nodes a !! node).
Qed.

Lemma a_apply_all_edge_kept es (a : A) i f t x :
  a_edges a !! i = Some (f, t, x) →
  Disconnect i ∉ es → RemoveNode f ∉ es → RemoveNode t ∉ es → i ∉ connect_ids es →
  a_edges (a_apply_all ct_id a es) !! i = Some (f, t, x).
Proof.
  unfold a_apply_all. revert a. induction es as [|e es IH]; intros a Hi; [done|]. cbn [fold_left].
  rw !not_elem_of_cons. intros [Hd Hds] [Hf Hfs] [Ht Hts] Hc.
  assert ((i ∉ connect_ids [e]) ∧ i ∉ connect_ids es) as [He Hes] by (destruct e; cbn in *; set_solver).
  apply IH; [apply a_apply_edge_kept; [done|congruence..|done]|done..].
Qed.

(** What a batch within the gate's checks leaves alone.  Every node it inserts,
    removes, connects, derives or decorates lies inside the scope; the one edit the
    checks do not see is a disconnect, which names an edge and no node. *)
Record confined p (subject : Z) (claimed : ScopePath) specs (a a' : A) : Prop := {
  cf_nodes id : inside claimed id = false ∨ starts_with GRANT_PREFIX id = true →
    a_nodes a' !! id = a_nodes a !! id ∧ a_derivations a' !! id = a_derivations a !! id ∧
    a_facets a' !! id = a_facets a !! id;
  cf_facets id f : facet_covered p subject f = false → SpRemoveNode id ∉ specs →
    facet_get (a_facets a') id f = facet_get (a_facets a) id f;
  cf_removed id : SpRemoveNode id ∈ specs → inside claimed id = true ∧ starts_with GRANT_PREFIX id = false;
  cf_edges_added i f t x : a_edges a' !! i = Some (f, t, x) →
    a_edges a !! i = Some (f, t, x) ∨ (inside claimed f = true ∧ inside claimed t = true);
  cf_edges_kept i f t x : a_edges a !! i = Some (f, t, x) →
    SpDisconnect i ∉ specs → SpRemoveNode f ∉ specs → SpRemoveNode t ∉ specs →
    a_edges a' !! i = Some (f, t, x)
}.

Lemma valid_confined p subject claimed specs w n (a : A) :
  validate_petition p subject claimed specs = Ok tt →
  (∀ i, i ∈ connect_ids (lower w n specs).1.1 → a_edges a !! i = None) →
  confined p subject claimed specs a (a_apply_all ct_id a (lower w n specs).1.1).
Proof.
  intros (_ & Hnodes & Hfacets)%validate_ok Hnew. destruct (lower_touched w n specs) as (Ht & Hfc & Hrm & Hdc).
  split.
  - intros id Hid. apply a_apply_all_untouched. rw Ht. intros Hin. destruct (Hnodes id Hin). naive_solver congruence.
  - intros id f Hf Hid. apply a_apply_all_facet; [by rw Hrm|]. rw Hfc. intros Hin%Hfacets. congruence.
  - intros id Hid. destruct (Hnodes id); [|done]. apply list_elem_of_bind. exists (SpRemoveNode id). split; [by left|done].
  - intros i f t x [?|[Hf Ht']]%a_apply_all_edge; [by left|right]. rw Ht in Hf. rw Ht in Ht'.
    by destruct (Hnodes f Hf), (Hnodes t Ht').
  - intros i f t x Hi Hd Hf Ht'. apply a_apply_all_edge_kept; rw ?Hrm ?Hdc //. intros Hc%Hnew. congruence.
Qed.

(** A committed petition, seen through [abs]. *)
Lemma committed_confined p w j0 l subject claimed expected specs l' c :
  ids_ok w j0 → session ct_id w j0 l → next_edge l + Z.of_nat (spec_connects specs) ≤ u64_max →
  validate_petition p subject claimed specs = Ok tt → commit_batch ct_id l (to_author subject) expected specs = (l', Ok c) →
  confined p subject claimed specs (abs ct_id l) (abs ct_id l').
Proof.
  intros Hok Hs Hb Hv Hc. destruct (commit_abs ct_id w j0 l _ expected specs l' c Hok Hs Hb Hc) as [-> _].
  destruct (session_fresh ct_id w j0 l specs Hok Hs Hb) as (Hw & _ & Hf). apply valid_confined; [done|].
  intros i Hi%Hf. apply eq_None_not_Some. intros Hl%(edge_ids_abs ct_id l i Hw). rw Hi in Hl. by destruct Hl.
Qed.

Lemma petition_cases p l subject claimed expected specs l' r :
  petition p l subject claimed expected specs = (l', r) →
  (∃ e, r = Err e ∧ l' = l) ∨
  ∃ c, r = Ok c ∧ validate_petition p subject claimed specs = Ok tt ∧
    commit_batch ct_id l (to_author subject) expected specs = (l', Ok c).
Proof.
  unfold petition. destruct (validate_petition p subject claimed specs) as [[]|e] eqn:Ev; cycle 1.
  { intros [= <- <-]. left. by eexists. }
  destruct (commit_batch ct_id l (to_author subject) expected specs) as [l1 [c|e]] eqn:Ec; intros [= <- <-].
  - right. by exists c.
  - left. exists (GateCommit e). split; [done|]. by apply commit_batch_eq in Ec as [(? & _ & ->)|(? & ? & ? & _ & _ & _ & [=] & _)].
Qed.

(** C5. No petition reaches past its claim.  A refused petition
    leaves the whole log as it was.  A committed one was covered by a write
    authority on the claimed scope, appends exactly one batch, attributed to the
    subject, and, in the graph read by identity, leaves every node outside the
    claimed scope and every grant projection untouched, with its derivations and
    facets; leaves every facet outside the subject's facet capabilities as it
    was on every node it does not remove, and removes nodes inside the scope only;
    any edge it adds joins two nodes inside the scope, and an edge goes only when the
    petition disconnects it by its id, wherever it lies, or removes a node, inside the
    scope, at one of its ends. *)
Theorem petition_confined w j0 l p subject claimed expected specs :
  ids_ok w j0 → session ct_id w j0 l → next_edge l + Z.of_nat (spec_connects specs) ≤ u64_max →
  let '(l', r) := petition p l subject claimed expected specs in
  match r with
  | Err _ => l' = l
  | Ok _ => provider_covers p subject (Scope claimed) Write = true ∧
      (∃ edits, j_entries (log l') = j_entries (log l) ++ [mkBatch (to_author subject) edits]) ∧
      confined p subject claimed specs (abs ct_id l) (abs ct_id l')
  end.
Proof.
  intros Hok Hs Hb. destruct (petition p l subject claimed expected specs) as [l' r] eqn:Ep.
  apply petition_cases in Ep as [(e & -> & ->)|(c & -> & Hv & Hc)]; [done|].
  destruct (commit_abs ct_id w j0 l _ expected specs l' c Hok Hs Hb Hc) as [Ha Hj]. split_and!.
  - exact (proj1 (validate_ok _ _ _ _ Hv)).
  - by eexists.
  - by eapply committed_confined.
Qed.

(** ** Projections under petitions *)

Lemma project_grant_commits author l g :
  ∃ l' c, project_grant author l g = (l', Ok c) ∧
    commit_batch ct_id l author (revision l) [SpInsertNode (projection_node g)] = (l', Ok c).
Proof.
  unfold project_grant, commit_batch. rw bool_decide_eq_false_2; [|by intros []]. cbn [check_specs check_spec].
  destruct (lower _ _ _) as [[edits minted] n]. destruct (append _ _) as [k j]. by eexists _, _.
Qed.

Lemma projection_ct_id g : ct_id (projection_node g) = projection_id (g_cap g).
Proof. done. Qed.

(** A behavior petition does to the log what the petition does, or nothing. *)
Lemma behavior_log p t l subject claimed expected actuation specs :
  (petition_behavior p t l subject claimed expected actuation specs).1.2 = l ∨
  (petition_behavior p t l subject claimed expected actuation specs).1.2 =
    (petition p l subject claimed expected specs).1.
Proof.
  unfold petition_behavior, petition. destruct (validate_petition p subject claimed specs) as [[]|]; [|by left].
  destruct (check t subject actuation); [|by left]. right. by destruct (commit_batch _ _ _ _ _) as [? []].
Qed.

(** The logs a gate can reach from [l0] while capability [cap] is not projected
    again: petitions of any subject under any provider, behavior petitions
    under any deadbands, projections of other capabilities. *)
Inductive governed (cap : Cap) (l0 : Log) : Log → Prop :=
| governed_start : governed cap l0 l0
| governed_petition l p subject claimed expected specs :
    governed cap l0 l → next_edge l + Z.of_nat (spec_connects specs) ≤ u64_max →
    governed cap l0 (petition p l subject claimed expected specs).1
| governed_behavior l p t subject claimed expected actuation specs :
    governed cap l0 l → next_edge l + Z.of_nat (spec_connects specs) ≤ u64_max →
    governed cap l0 (petition_behavior p t l subject claimed expected actuation specs).1.2
| governed_project l author g :
    governed cap l0 l → next_edge l ≤ u64_max → Cap_wf (g_cap g) → g_cap g ≠ cap →
    governed cap l0 (project_grant author l g).1.

Lemma petition_keeps w j0 l p subject claimed expected specs id :
  ids_ok w j0 → session ct_id w j0 l → next_edge l + Z.of_nat (spec_connects specs) ≤ u64_max →
  starts_with GRANT_PREFIX id = true →
  let l' := (petition p l subject claimed expected specs).1 in
  session ct_id w j0 l' ∧ a_nodes (abs ct_id l') !! id = a_nodes (abs ct_id l) !! id.
Proof.
  intros Hok Hs Hb Hid. destruct (petition p l subject claimed expected specs) as [l' r] eqn:Ep. cbn [fst].
  apply petition_cases in Ep as [(e & -> & ->)|(c & -> & Hv & Hc)]; [done|]. split.
  - by eapply session_commit.
  - pose proof (committed_confined p w j0 l subject claimed expected specs l' c Hok Hs Hb Hv Hc) as Hcf. apply (cf_nodes _ _ _ _ _ _ Hcf). by right.
Qed.

Lemma project_writes w j0 author l g :
  ids_ok w j0 → session ct_id w j0 l → next_edge l ≤ u64_max →
  let l' := (project_grant author l g).1 in
  session ct_id w j0 l' ∧
  a_nodes (abs ct_id l') = <[projection_id (g_cap g) := projection_node g]> (a_nodes (abs ct_id l)).
Proof.
  intros Hok Hs Hb. destruct (project_grant_commits author l g) as (l' & c & -> & Hc). cbn [fst].
  assert (next_edge l + Z.of_nat (spec_connects [SpInsertNode (projection_node g) : Spec]) ≤ u64_max) as Hb' by (cbn [spec_connects]; lia).
  split; [by eapply session_commit|]. by destruct (commit_abs ct_id w j0 l _ _ _ l' c Hok Hs Hb' Hc) as [-> _].
Qed.

Lemma to_wire_inj a b : Cap_wf a → Cap_wf b → to_wire a = to_wire b → a = b.
Proof. intros Ha%Cap_parse_to_wire Hb%Cap_parse_to_wire Heq. rw Heq Hb in Ha. by injection Ha. Qed.

Lemma governed_keeps w j0 cap l0 l :
  ids_ok w j0 → session ct_id w j0 l0 → Cap_wf cap → governed cap l0 l →
  session ct_id w j0 l ∧
  a_nodes (abs ct_id l) !! projection_id cap = a_nodes (abs ct_id l0) !! projection_id cap.
Proof.
  intros Hok Hs0 Hcap. assert (starts_with GRANT_PREFIX (projection_id cap) = true) as Hpre.
  { apply starts_with_true. by eexists. }
  induction 1 as [|l p subject claimed expected specs _ [Hs IH] Hb|l p t subject claimed expected actuation specs _ [Hs IH] Hb|l author g _ [Hs IH] Hb Hg Hne];
    [done|rw -IH..].
  - exact (petition_keeps w j0 l p subject claimed expected specs _ Hok Hs Hb Hpre).
  - destruct (behavior_log p t l subject claimed expected actuation specs) as [-> | ->]; [done|].
    exact (petition_keeps w j0 l p subject claimed expected specs _ Hok Hs Hb Hpre).
  - destruct (project_writes w j0 author l g Hok Hs Hb) as [Hs' ->]. split; [done|]. rw lookup_insert_ne //.
    unfold projection_id. intros Heq%(inj (String.app GRANT_PREFIX)). by apply Hne, to_wire_inj.
Qed.

(** C33. A grant is readable from the graph it governs.  Projecting
    a well-formed grant always commits, and from then on, after any sequence of
    petitions and behavior petitions by any subjects and of projections of other
    capabilities, the node at the capability's projection id reads back exactly
    that grant (capability, mode, subject, expiry), in whatever order the tag
    set iterates. *)
Theorem projection_survives_petitions w j0 l author g (iter : gset string → list string) :
  (∀ X, iter X ≡ₚ elements X) →
  ids_ok w j0 → session ct_id w j0 l → next_edge l ≤ u64_max →
  Cap_wf (g_cap g) → is_key (g_subject g) → (∀ t, g_expires_at_ms g = Some t → is_u64 t) →
  (∃ c, (project_grant author l g).2 = Ok c) ∧
  ∀ l', governed (g_cap g) (project_grant author l g).1 l' →
    graph_get (graph l') (projection_id (g_cap g)) ≫= read_projection iter = Some g.
Proof.
  intros Hiter Hok Hs Hb Hc Hk He. split.
  { destruct (project_grant_commits author l g) as (l' & c & -> & _). by exists c. }
  intros l' Hg. destruct (project_writes w j0 author l g Hok Hs Hb) as [Hs1 Hn1].
  destruct (governed_keeps w j0 _ _ l' Hok Hs1 Hc Hg) as [_ Hl]. rw Hn1 lookup_insert_eq abs_node in Hl.
  unfold graph_get, key_of, graph_node. rw Hl. by apply (read_projection_node iter Hiter).
Qed.

(** ** Behaviors over time *)

Record BehaviorCall : Type := mkCall {
  bc_provider : P;
  bc_subject : Z;
  bc_claimed : ScopePath;
  bc_expected : Z;
  bc_actuation : Actuation;
  bc_specs : list Spec
}.

(** The actuations a run of behavior petitions commits, with their subjects. *)
Fixpoint actuations (t : list Entry) l (calls : list BehaviorCall) : list (Z * Actuation) :=
  match calls with
  | [] => []
  | c :: calls =>
      let '(t', l', r) := petition_behavior (bc_provider c) t l (bc_subject c) (bc_claimed c) (bc_expected c)
                            (bc_actuation c) (bc_specs c) in
      match r with
      | Ok _ => (bc_subject c, bc_actuation c) :: actuations t' l' calls
      | Err _ => actuations t' l' calls
      end
  end.

Definition actuations_of (s : Z) (l : list (Z * Actuation)) : list Actuation := snd <$> filter (λ sa, sa.1 = s) l.

(** Two accepted actuations in a row are apart in both dimensions. *)
Definition apart (d : Deadband) (x y : Actuation) : Prop :=
  at_ms x + minimum_interval_ms d ≤ at_ms y ∧ minimum_change d ≤ Z.abs (output y - output x).

(** What one behavior petition does to the deadbands. *)
Lemma behavior_cases p t l subject claimed expected actuation specs t' l' r :
  petition_behavior p t l subject claimed expected actuation specs = (t', l', r) →
  (∃ e, r = Err e ∧ t' = t ∧ l' = l) ∨
  ∃ c, r = Ok c ∧ check t subject actuation = Ok (mkAdmission subject (get_deadband t subject) actuation) ∧
    t' = record t (mkAdmission subject (get_deadband t subject) actuation).
Proof.
  unfold petition_behavior. destruct (validate_petition p subject claimed specs) as [[]|e]; cycle 1.
  { intros [= <- <- <-]. left. by eexists. }
  pose proof (check_spec t subject actuation) as Hck. destruct (check t subject actuation) as [adm|e] eqn:Ec; cycle 1.
  { intros [= <- <- <-]. left. by eexists. }
  destruct Hck as [-> _].
  destruct (commit_batch ct_id l (to_author subject) expected specs) as [l1 [c|e]] eqn:Ecb; intros [= <- <- <-].
  - right. by exists c.
  - left. exists (GateCommit e). split_and!; [done..|].
    by apply commit_batch_eq in Ecb as [(? & _ & ->)|(? & ? & ? & _ & _ & _ & [=] & _)].
Qed.

Lemma actuations_apart t l calls s e :
  find_entry t s = Some e → 0 < minimum_interval_ms (e_deadband e) →
  Sorted (apart (e_deadband e)) (option_list (e_accepted e) ++ actuations_of s (actuations t l calls)).
Proof.
  revert t l e. induction calls as [|c calls IH]; intros t l e He Hd; cbn [actuations].
  { cbn. destruct (e_accepted e); repeat constructor. }
  destruct (petition_behavior (bc_provider c) t l _ _ _ _ _) as [[t' l'] r] eqn:Ep.
  apply behavior_cases in Ep as [(err & -> & -> & _)|(cm & -> & Hck & ->)]; [by apply IH|].
  unfold actuations_of. rw filter_cons. cbn [fst]. destruct (decide (bc_subject c = s)) as [<-|Hne]; cycle 1.
  { apply IH; [|done]. by rw record_find_other. }
  pose proof (record_find t _ (bc_actuation c) e He) as He'. specialize (IH _ l' _ He' Hd).
  cbn [e_deadband e_accepted option_list app] in IH. cbn [fmap list_fmap snd].
  destruct (e_accepted e) as [b|] eqn:Eb; cbn [option_list app]; [|exact IH]. constructor; [exact IH|]. constructor.
  pose proof (check_spec t (bc_subject c) (bc_actuation c)) as Hs. rw Hck in Hs. destruct Hs as [_ Hs].
  destruct (Hs e b He Eb) as [H1 H2]. unfold apart, absolute_change, saturating_sub in *. lia.
Qed.

Lemma apart_spaced d acts : 0 < minimum_interval_ms d → Sorted (apart d) acts → spaced (minimum_interval_ms d) (at_ms <$> acts).
Proof.
  intros Hd. induction 1 as [|x acts Hs IH Hx]; [constructor|]. cbn [fmap list_fmap]. constructor; [done|].
  destruct Hx as [|y acts [Hxy _]]; [constructor|]. cbn [fmap list_fmap] in *. inversion IH as [|? ? _ HF]; subst.
  constructor; [done|]. eapply Forall_impl; [exact HF|]. cbn. intros z Hz. lia.
Qed.

(** A declared behavior cannot flap.  Whatever petitions anyone
    makes and however authority, scopes and revisions change, the actuations
    committed for a declared subject are each at least its minimum interval and
    its minimum change away from the one before (the restored baseline
    included), so between two instants at most one more than the window over the
    interval are committed; and a petition refused at any stage moves neither
    the baseline nor the graph. *)
Theorem behavior_rate_bounded t l calls s e :
  find_entry t s = Some e → 0 < minimum_interval_ms (e_deadband e) →
  let acts := actuations_of s (actuations t l calls) in
  Sorted (apart (e_deadband e)) (option_list (e_accepted e) ++ acts) ∧
  (∀ a b, a ≤ b →
    (Z.of_nat (length (filter (λ z, a ≤ z ≤ b) (at_ms <$> acts))) - 1) * minimum_interval_ms (e_deadband e) ≤ b - a) ∧
  (∀ p subject claimed expected actuation specs err,
    (petition_behavior p t l subject claimed expected actuation specs).2 = Err err →
    (petition_behavior p t l subject claimed expected actuation specs).1 = (t, l)).
Proof.
  intros He Hd acts. pose proof (actuations_apart t l calls s e He Hd) as Hs. split_and!; [done| |].
  - intros a b Hab. assert (Sorted (apart (e_deadband e)) acts) as Ha.
    { destruct (e_accepted e); [by inversion Hs|done]. }
    apply (apart_spaced _ _ Hd) in Ha. apply (spaced_filter _ (λ z, a ≤ z ≤ b)) in Ha.
    destruct (filter (λ z, a ≤ z ≤ b) (at_ms <$> acts)) as [|z zs] eqn:Ez; [cbn; lia|]. rw -Ez in Ha |- *.
    apply spaced_count; [lia|done| |by rw Ez]. apply Forall_forall. intros x [Hx _]%list_elem_of_filter. exact Hx.
  - intros p subject claimed expected actuation specs err.
    destruct (petition_behavior p t l subject claimed expected actuation specs) as [[t' l'] r] eqn:Ep. cbn.
    intros ->. by apply behavior_cases in Ep as [(? & _ & -> & ->)|(? & [=] & _)].
Qed.
End gate.

(** ** A small run *)

Module Sample.
Abbreviation SLog := (GraphLog (G := fresh_graph) (N := Container) (E := string) (Id := string) (F := string) (V := Z)).
Abbreviation SJournal := (Journal (Batch (N := Container) (E := string) (Id := string) (F := string) (V := Z))).
Abbreviation SSpec := (EditSpec (N := Container) (E := string) (Id := string) (F := string) (V := Z)).

Definition host : string := "host".
Definition empty_journal : SJournal := journal_new.
Definition opened : SLog := replay_for_writer ct_id empty_journal 7.

(** The host's own page, and two trail nodes joined to it. *)
Definition pages : list SSpec :=
  [SpInsertNode (container_new "home"); SpInsertNode (container_new "secret");
   SpConnect "home" "secret" "cites"; SpInsertNode (container_new "trail/a")].
Definition seeded : SLog := (commit_batch ct_id opened host 0 pages).1.

Definition trail : ScopePath := mkScope ["trail"].
Definition helper : Z := 5.
Definition authority : GrantTable := with_grant grant_table_new (grant_new helper (Scope trail) Write).
Definition add_b : list SSpec := [SpInsertNode (container_new "trail/b"); SpConnect "trail/a" "trail/b" "next"].

Lemma gate_opened_ok : ids_ok 7 empty_journal.
Proof. split; [constructor|]. intros i Hi. by apply elem_of_nil in Hi. Qed.

Lemma seeded_session : session ct_id 7 empty_journal seeded.
Proof.
  eapply (session_commit ct_id 7 empty_journal opened host 0 pages); [apply session_open|by vm_compute|apply surjective_pairing].
Qed.

Lemma petition_confined_witness :
  (petition authority seeded helper trail 1 add_b).2 = Ok (mkCommitted 1 [mkEdgeId 7 1]) ∧
  confined authority helper trail add_b (abs ct_id seeded) (abs ct_id (petition authority seeded helper trail 1 add_b).1).
Proof.
  pose proof (petition_confined 7 empty_journal seeded authority helper trail 1 add_b gate_opened_ok seeded_session
    ltac:(by vm_compute)) as Hp.
  destruct (petition authority seeded helper trail 1 add_b) as [l' r] eqn:Ep.
  assert (r = Ok (mkCommitted 1 [mkEdgeId 7 1])) as -> by (apply (f_equal snd) in Ep; cbn in Ep; rw -Ep; by vm_compute).
  split; [done|]. exact (proj2 (proj2 Hp)).
Defined.

(** The scope check sees no node in a [Disconnect]: a helper confined to the
    trail removes the edge between two of the host's pages. *)
Lemma disconnect_escapes_scope :
  a_edges (abs ct_id seeded) !! mkEdgeId 7 0 = Some ("home", "secret", "cites") ∧
  inside trail "home" = false ∧ inside trail "secret" = false ∧
  (petition authority seeded helper trail 1 [SpDisconnect (mkEdgeId 7 0)]).2 = Ok (mkCommitted 1 []) ∧
  a_edges (abs ct_id (petition authority seeded helper trail 1 [SpDisconnect (mkEdgeId 7 0)]).1) !! mkEdgeId 7 0 = None.
Proof. by vm_compute. Qed.

Definition trail_grant : Grant := expiring_at (grant_new helper (Scope trail) Read) 90.

Lemma projection_survives_petitions_witness :
  let l1 := (project_grant host seeded trail_grant).1 in
  graph_get (graph (petition authority l1 helper trail 2 add_b).1) (projection_id (Scope trail))
    ≫= read_projection elements = Some trail_grant ∧
  (petition authority l1 helper trail 2 [SpRemoveNode (projection_id (Scope trail))]).2 =
    Err (TouchesProjection (projection_id (Scope trail))).
Proof.
  split; [|by vm_compute].
  refine (proj2 (projection_survives_petitions 7 empty_journal seeded host trail_grant elements _ gate_opened_ok seeded_session _ _ _ _) _ _).
  - done.
  - by vm_compute.
  - by apply Cap_parse_wf with "scope:trail".
  - by vm_compute.
  - intros t [= <-]. by vm_compute.
  - apply governed_petition; [apply governed_start|by vm_compute].
Defined.

Definition call (at_ms out rev : Z) (specs : list SSpec) : BehaviorCall (E := string) (V := Z) (P := GrantTable) :=
  mkCall authority helper trail rev (mkActuation out at_ms) specs.
Definition calls : list (BehaviorCall (E := string) (V := Z) (P := GrantTable)) :=
  [call 100 10 1 [SpInsertNode (container_new "trail/b")]; call 110 90 2 []; call 300 12 2 []; call 400 50 2 []].
Definition bands : list Entry := [mkEntry helper (mkDeadband 5 100) None].

Lemma behavior_rate_bounded_witness :
  actuations bands seeded calls = [(helper, mkActuation 10 100); (helper, mkActuation 50 400)] ∧
  Sorted (apart (mkDeadband 5 100)) (actuations_of helper (actuations bands seeded calls)).
Proof.
  split; [by vm_compute|].
  exact (proj1 (behavior_rate_bounded bands seeded calls helper (mkEntry helper (mkDeadband 5 100) None) eq_refl eq_refl)).
Defined.
End Sample.
