(* ===== verification/Standing.v ===== *)
(** Standing in a moot
    (crates/moot/gemot/src/moot/standing/{event,ledger,gate,persona_chain}.rs).

    Signed standing events fold into a [Ledger] of commitments and accruals;
    lapses are read off the clock when a score is asked for.  [authorize] is the
    policy gate over standing facts, [PersonaChains] the forest of forked personas
    and the depreciation of what they present.  Chain roots, personas and
    commitment ids are their 32-byte keys; scores are [i64] and wrap.

    The theorems: the two score routines agree in any iteration order, a censure
    changes exactly the target and its vouchers, the rate limit holds over every
    window whatever the clock does, and a fork never presents more than its
    parent nor sheds debt.  A persona that vouches for itself doubles its
    standing at will. *)

From S2P Require Import Prelude Wire.

Local Open Scope Z_scope.

(** ** Events (event.rs) *)

Definition BASIS_POINTS : Z := 10000.

Inductive StandingEvent : Type :=
| CommitmentMade (by_ commitment : Z) (scope : string) (cadence : Z) (duration_ms : option Z) (at_ms : Z)
| Heartbeat (by_ commitment at_ms : Z)
| CommitmentFulfilled (by_ commitment at_ms : Z)
| CleanHandoff (from to commitment at_ms : Z)
| Vouch (voucher newcomer fraction_bp at_ms : Z)
| GovernanceParticipation (by_ at_ms : Z)
| Pardon (by_ target weight at_ms : Z)
| Censure (by_ target weight at_ms : Z).

Definition event_at_ms (e : StandingEvent) : Z :=
  match e with
  | CommitmentMade _ _ _ _ _ t | Heartbeat _ _ t | CommitmentFulfilled _ _ t | CleanHandoff _ _ _ t
  | Vouch _ _ _ t | GovernanceParticipation _ t | Pardon _ _ _ t | Censure _ _ _ t => t
  end.

(** ** The ledger (ledger.rs) *)

(** [i64] arithmetic and the [as i64] cast. *)
Definition wrap_i64 (z : Z) : Z := (z + 2 ^ 63) mod 2 ^ 64 - 2 ^ 63.

Record StandingConfig : Type := mkStandingConfig {
  fulfil_reward : Z;
  lapse_penalty : Z;
  governance_reward : Z;
  depreciation_bp : Z;
  vouch_loopback_bp : Z
}.
Definition StandingConfig_default : StandingConfig := mkStandingConfig 10 20 1 5000 5000.

Record Commitment : Type := mkCommitment {
  owner : Z;
  cadence_ms : Z;
  last_alive_ms : Z;
  closed : bool
}.

Definition is_lapsed (c : Commitment) (now_ms : Z) : bool :=
  negb (closed c) && bool_decide (cadence_ms c < saturating_sub now_ms (last_alive_ms c)).

Record Ledger : Type := mkLedger {
  config : StandingConfig;
  commitments : gmap Z Commitment;
  accruals : gmap Z Z;
  vouchers_of : gmap Z (list Z)
}.

Definition ledger_new (config : StandingConfig) : Ledger := mkLedger config ∅ ∅ ∅.

Definition set_commitments m l := mkLedger (config l) m (accruals l) (vouchers_of l).

(** [*self.accruals.entry(root).or_default() += delta]. *)
Definition accrue (root delta : Z) (l : Ledger) : Ledger :=
  mkLedger (config l) (commitments l) (<[root := wrap_i64 (default 0 (accruals l !! root) + delta)]> (accruals l))
    (vouchers_of l).

(** [open_owned_by] followed by an update of the commitment it finds. *)
Definition open_owned_by (l : Ledger) (commitment who : Z) : option Commitment :=
  c ← commitments l !! commitment;
  if negb (closed c) && bool_decide (owner c = who) then Some c else None.

Definition add_voucher (newcomer voucher : Z) (l : Ledger) : Ledger :=
  let vs := default [] (vouchers_of l !! newcomer) in
  mkLedger (config l) (commitments l) (accruals l)
    (<[newcomer := if bool_decide (voucher ∈ vs) then vs else vs ++ [voucher]]> (vouchers_of l)).

Definition lent (l : Ledger) (voucher fraction_bp : Z) : Z :=
  wrap_i64 (Z.max (default 0 (accruals l !! voucher)) 0 * fraction_bp) `quot` BASIS_POINTS.

Definition loopback (l : Ledger) (weight : Z) : Z :=
  wrap_i64 (wrap_i64 weight * vouch_loopback_bp (config l)) `quot` BASIS_POINTS.

Definition apply (l : Ledger) (event : StandingEvent) : Ledger :=
  match event with
  | CommitmentMade by_ commitment _ cadence _ at_ms =>
      match commitments l !! commitment with
      | Some _ => l
      | None => set_commitments (<[commitment := mkCommitment by_ cadence at_ms false]> (commitments l)) l
      end
  | Heartbeat by_ commitment at_ms =>
      match open_owned_by l commitment by_ with
      | Some c =>
          if bool_decide (last_alive_ms c < at_ms)
          then set_commitments (<[commitment := mkCommitment (owner c) (cadence_ms c) at_ms (closed c)]> (commitments l)) l
          else l
      | None => l
      end
  | CommitmentFulfilled by_ commitment _ =>
      match open_owned_by l commitment by_ with
      | Some c =>
          accrue by_ (fulfil_reward (config l))
            (set_commitments (<[commitment := mkCommitment (owner c) (cadence_ms c) (last_alive_ms c) true]> (commitments l)) l)
      | None => l
      end
  | CleanHandoff from to commitment at_ms =>
      match open_owned_by l commitment from with
      | Some c => set_commitments (<[commitment := mkCommitment to (cadence_ms c) at_ms (closed c)]> (commitments l)) l
      | None => l
      end
  | Vouch voucher newcomer fraction_bp _ =>
      let l1 := add_voucher newcomer voucher l in
      let lent := lent l1 voucher fraction_bp in
      if bool_decide (lent ≠ 0) then accrue newcomer lent l1 else l1
  | GovernanceParticipation by_ _ => accrue by_ (governance_reward (config l)) l
  | Pardon by_ target weight _ => if bool_decide (by_ ≠ target) then accrue target (wrap_i64 weight) l else l
  | Censure by_ target weight _ =>
      if bool_decide (by_ ≠ target)
      then let l1 := accrue target (- wrap_i64 weight) l in
           let back := loopback l1 weight in
           if bool_decide (back ≠ 0)
           then fold_left (λ l v, accrue v (- back) l) (default [] (vouchers_of l1 !! target)) l1
           else l1
      else l
  end.

Definition from_events (config : StandingConfig) (events : list StandingEvent) : Ledger :=
  fold_left apply events (ledger_new config).

Section reading.
Context (iter : gmap Z Commitment → list (Z * Commitment)).

Definition lapsed (l : Ledger) (now_ms : Z) : list (Z * Z) :=
  (λ ic, (ic.1, owner ic.2)) <$> filter (λ ic, is_lapsed ic.2 now_ms) (iter (commitments l)).

Definition scores (l : Ledger) (now_ms : Z) : gmap Z Z :=
  fold_left (λ m io, <[io.2 := wrap_i64 (default 0 (m !! io.2) - lapse_penalty (config l))]> m)
    (lapsed l now_ms) (accruals l).

Definition score (l : Ledger) (chain_root now_ms : Z) : Z :=
  let accrued := default 0 (accruals l !! chain_root) in
  let lapses := Z.of_nat (length (filter (λ ic, owner ic.2 = chain_root ∧ is_lapsed ic.2 now_ms) (iter (commitments l)))) in
  wrap_i64 (accrued - wrap_i64 (lapses * lapse_penalty (config l))).
End reading.

(** ** The policy gate (gate.rs) *)

Record GateConfig : Type := mkGateConfig { posting_threshold : Z; gc_rate_limit : Z; gc_rate_window_ms : Z }.
Definition GateConfig_default : GateConfig := mkGateConfig 1 20 60000.

Record StandingFacts : Type := mkFacts {
  fact_score : Z;
  recent_action_ms : list Z;
  vouched : bool;
  is_member : bool
}.
Definition StandingFacts_default : StandingFacts := mkFacts 0 [] false false.

Inductive DenyReason : Type := NoCapability | BelowThreshold | NotAMember | RateLimited.
Inductive GateDecision : Type := Allow | Deny (r : DenyReason).

Inductive Policy : Type :=
| OpenWithFloor (c : GateConfig)
| VouchedOrScore (c : GateConfig)
| MembersOnly (rate_limit rate_window_ms : Z).

(** The admission rule, then the limit and window it shares. *)
Definition admission_rule (policy : Policy) (facts : StandingFacts) : result DenyReason (Z * Z) :=
  match policy with
  | OpenWithFloor c =>
      if bool_decide (fact_score facts < posting_threshold c) then Err BelowThreshold
      else Ok (gc_rate_limit c, gc_rate_window_ms c)
  | VouchedOrScore c =>
      if bool_decide (fact_score facts < posting_threshold c) && negb (vouched facts) then Err BelowThreshold
      else Ok (gc_rate_limit c, gc_rate_window_ms c)
  | MembersOnly rate_limit rate_window_ms =>
      if negb (is_member facts) then Err NotAMember else Ok (rate_limit, rate_window_ms)
  end.

(** [count() as u32]. *)
Definition in_window (recent : list Z) (now_ms window : Z) : Z :=
  Z.of_nat (length (filter (λ t, saturating_sub now_ms t < window) recent)) mod 2 ^ 32.

Definition authorize (policy : Policy) (cap_covers : bool) (facts : StandingFacts) (now_ms : Z) : GateDecision :=
  if negb cap_covers then Deny NoCapability
  else match admission_rule policy facts with
       | Err r => Deny r
       | Ok (rate_limit, rate_window_ms) =>
           if bool_decide (rate_limit ≤ in_window (recent_action_ms facts) now_ms rate_window_ms)
           then Deny RateLimited else Allow
       end.

Definition may_act (cap_covers : bool) (facts : StandingFacts) (now_ms : Z) (config : GateConfig) : GateDecision :=
  authorize (OpenWithFloor config) cap_covers facts now_ms.

(** ** Persona chains (persona_chain.rs) *)

Abbreviation PersonaChains := (gmap Z Z) (only parsing).

Definition fork (chains : PersonaChains) (child parent : Z) : PersonaChains := <[child := parent]> chains.

Fixpoint root_loop (fuel : nat) (chains : PersonaChains) (current depth : Z) (visited : gset Z) : option (Z * Z) :=
  match chains !! current with
  | None => Some (current, depth)
  | Some parent =>
      if bool_decide (parent ∈ visited) then Some (current, depth)
      else match fuel with
           | 0%nat => None
           | S fuel => root_loop fuel chains parent (depth + 1) ({[parent]} ∪ visited)
           end
  end.

Definition root_and_depth (chains : PersonaChains) (persona : Z) : option (Z * Z) :=
  root_loop (size chains) chains persona 0 {[persona]}.

(** One generation of depreciation. *)
Definition depreciate (factor score : Z) : Z := wrap_i64 (score * factor) `quot` BASIS_POINTS.

Definition effective_score (iter : gmap Z Commitment → list (Z * Commitment)) (chains : PersonaChains) (persona : Z)
    (l : Ledger) (now_ms : Z) : option Z :=
  '(root, depth) ← root_and_depth chains persona;
  let base := score iter l root now_ms in
  Some (if bool_decide (base ≤ 0) then base
        else Nat.iter (Z.to_nat depth) (depreciate (depreciation_bp (config l))) base).

(** ** Wrapping arithmetic *)

Lemma wrap_i64_small z : is_i64 z → wrap_i64 z = z.
Proof. unfold is_i64, i64_min, i64_max, wrap_i64. intros Hz. rw Z.mod_small; lia. Qed.

Lemma wrap_i64_range z : is_i64 (wrap_i64 z).
Proof. unfold is_i64, i64_min, i64_max, wrap_i64. pose proof (Z.mod_pos_bound (z + 2 ^ 63) (2 ^ 64) ltac:(lia)). lia. Qed.

Lemma wrap_i64_add_l a b : wrap_i64 (wrap_i64 a + b) = wrap_i64 (a + b).
Proof.
  unfold wrap_i64. f_equal. replace ((a + 2 ^ 63) mod 2 ^ 64 - 2 ^ 63 + b + 2 ^ 63) with ((a + 2 ^ 63) mod 2 ^ 64 + b) by lia.
  rw Zplus_mod_idemp_l. f_equal. lia.
Qed.

Lemma wrap_i64_sub_r a b : wrap_i64 (a - wrap_i64 b) = wrap_i64 (a - b).
Proof.
  unfold wrap_i64. f_equal. replace (a - ((b + 2 ^ 63) mod 2 ^ 64 - 2 ^ 63) + 2 ^ 63) with (a + 2 * 2 ^ 63 - (b + 2 ^ 63) mod 2 ^ 64) by lia.
  rw Zminus_mod_idemp_r. f_equal. lia.
Qed.

(** What a root has accrued. *)
Definition accrued (l : Ledger) (r : Z) : Z := default 0 (accruals l !! r).

Lemma accrued_accrue root delta l r :
  accrued (accrue root delta l) r = if bool_decide (r = root) then wrap_i64 (accrued l r + delta) else accrued l r.
Proof.
  unfold accrued. cbn. case_bool_decide as Hr; [subst; by rw lookup_insert_eq|by rw lookup_insert_ne].
Qed.

(** ** Ledgers that events build *)

Record ledger_ok (l : Ledger) : Prop := {
  ok_accrued r : is_i64 (accrued l r);
  ok_vouchers n : NoDup (default [] (vouchers_of l !! n))
}.

Lemma accrue_ok root delta l : ledger_ok l → ledger_ok (accrue root delta l).
Proof.
  intros [Ha Hv]. split; [|done]. intros r. rw accrued_accrue. case_bool_decide; [apply wrap_i64_range|done].
Qed.

Lemma set_commitments_ok m l : ledger_ok l → ledger_ok (set_commitments m l).
Proof. by intros [Ha Hv]. Qed.

Lemma add_voucher_ok n v l : ledger_ok l → ledger_ok (add_voucher n v l).
Proof.
  intros [Ha Hv]. split; [done|]. intros n'. cbn. destruct (decide (n = n')) as [<-|Hne]; [|by rw lookup_insert_ne].
  rw lookup_insert_eq. cbn. case_bool_decide as Hin; [done|]. apply NoDup_app. split_and!; [done| |apply NoDup_singleton].
  intros x Hx ->%list_elem_of_singleton. done.
Qed.

#[local] Hint Resolve accrue_ok set_commitments_ok add_voucher_ok : mere.

Lemma ledger_apply_ok l e : ledger_ok l → ledger_ok (apply l e).
Proof.
  intros Hok. destruct e; cbn [apply]; repeat case_match; auto 6 with mere.
  set (vs := default [] _). set (b := loopback _ _). assert (ledger_ok (accrue target (- wrap_i64 weight) l)) as Hl by auto with mere.
  revert Hl. generalize (accrue target (- wrap_i64 weight) l). induction vs; intros l0 Hl; cbn; auto with mere.
Qed.

Lemma from_events_ok cfg events : ledger_ok (from_events cfg events).
Proof.
  unfold from_events. assert (ledger_ok (ledger_new cfg)) as Hn.
  { split; [|intros; cbn [vouchers_of ledger_new]; rw lookup_empty; apply NoDup_nil_2]. intros r. unfold is_i64, i64_min, i64_max, accrued. cbn [accruals ledger_new]. rw lookup_empty. cbn. lia. }
  revert Hn. generalize (ledger_new cfg). induction events as [|e es IH]; intros l Hl; [done|]. cbn. by apply IH, ledger_apply_ok.
Qed.

(** ** Scores *)

Definition penalize (pen : Z) (m : gmap Z Z) (io : Z * Z) : gmap Z Z :=
  <[io.2 := wrap_i64 (default 0 (m !! io.2) - pen)]> m.

Lemma penalize_all pen (l : list (Z * Z)) (m : gmap Z Z) r :
  is_i64 (default 0 (m !! r)) →
  default 0 (fold_left (penalize pen) l m !! r) =
  wrap_i64 (default 0 (m !! r) - Z.of_nat (length (filter (λ io, io.2 = r) l)) * pen).
Proof.
  revert m. induction l as [|io l IH]; intros m Hm; cbn [fold_left].
  { cbn. replace (default 0 (m !! r) - 0) with (default 0 (m !! r)) by lia. by rw wrap_i64_small. }
  rw filter_cons. assert (default 0 (penalize pen m io !! r) = if bool_decide (io.2 = r) then wrap_i64 (default 0 (m !! r) - pen) else default 0 (m !! r)) as Hp.
  { unfold penalize. case_bool_decide as Hr; [subst; by rw lookup_insert_eq|by rw lookup_insert_ne]. }
  rw IH.
  - rw Hp. case_bool_decide; case_decide; try done. cbn [length]. unfold Z.sub at 1. rw (wrap_i64_add_l (default 0 (m !! r) - pen)). f_equal. lia.
  - rw Hp. case_bool_decide; [apply wrap_i64_range|done].
Qed.

Lemma lapsed_count iter l now r :
  length (filter (λ io, io.2 = r) (lapsed iter l now)) =
  length (filter (λ ic, owner ic.2 = r ∧ is_lapsed ic.2 now) (iter (commitments l))).
Proof.
  unfold lapsed. induction (iter (commitments l)) as [|[i c] ics IH]; [done|]. rw !filter_cons. cbn [snd].
  destruct (decide (is_lapsed c now)) as [Hl|Hl].
  - cbn [fmap list_fmap]. rw filter_cons. cbn [snd]. destruct (decide (owner c = r)) as [Ho|Ho].
    + rw decide_True //. cbn. by rw IH.
    + rw decide_False; [done|tauto].
  - rw (decide_False (P := _ ∧ _)); [done|tauto].
Qed.

(** The two score routines agree.  On every ledger events
    build, the score map charges each root exactly what the direct computation
    does, whatever order each of them iterates the commitments in. *)
Theorem scores_agree cfg events now r (iter1 iter2 : gmap Z Commitment → list (Z * Commitment)) :
  (∀ m, iter1 m ≡ₚ map_to_list m) → (∀ m, iter2 m ≡ₚ map_to_list m) →
  let l := from_events cfg events in
  default 0 (scores iter1 l now !! r) = score iter2 l r now.
Proof.
  intros H1 H2 l. destruct (from_events_ok cfg events) as [Ha _]. fold l in Ha.
  unfold scores. change (λ m io, <[io.2:=_]> m) with (penalize (lapse_penalty (config l))). rw penalize_all; [|apply Ha].
  unfold score. rw wrap_i64_sub_r lapsed_count. by rw H1 H2.
Qed.

(** ** Censure *)

Lemma accrue_all back (vs : list Z) l r :
  NoDup vs → is_i64 (accrued l r) →
  accrued (fold_left (λ l v, accrue v (- back) l) vs l) r =
  wrap_i64 (accrued l r - if bool_decide (r ∈ vs) then back else 0).
Proof.
  revert l. induction vs as [|v vs IH]; intros l Hnd Hr; cbn [fold_left].
  { rw bool_decide_eq_false_2; [|apply not_elem_of_nil]. rw Z.sub_0_r wrap_i64_small //. }
  apply NoDup_cons in Hnd as [Hv Hnd]. rw IH //; cycle 1.
  { rw accrued_accrue. destruct (bool_decide (r = v)); [apply wrap_i64_range|done]. }
  rw accrued_accrue. destruct (bool_decide_reflect (r = v)) as [->|Hne].
  - rw (bool_decide_eq_false_2 (v ∈ vs)) // (bool_decide_eq_true_2 (v ∈ v :: vs)); [|by left].
    rw Z.sub_0_r wrap_i64_small; [done|apply wrap_i64_range].
  - f_equal. f_equal. erewrite (bool_decide_ext (r ∈ v :: vs) (r ∈ vs)); [done|]. rw elem_of_cons. tauto.
Qed.

(** A censure lands on the censured and on those who vouched
    for them, on each once, and on nobody else.  On every ledger events build, a
    censure by someone else moves the target's accrual by its weight (as the
    signed cast reads it), each direct voucher's by the configured fraction of
    it, and leaves every other root, every commitment and every vouch edge; a
    self-censure does nothing. *)
Theorem censure_exact cfg events by_ target weight t r :
  let l := from_events cfg events in
  let l' := apply l (Censure by_ target weight t) in
  commitments l' = commitments l ∧ vouchers_of l' = vouchers_of l ∧
  accrued l' r =
    if bool_decide (by_ = target) then accrued l r
    else wrap_i64 (accrued l r - (if bool_decide (r = target) then wrap_i64 weight else 0)
           - (if bool_decide (r ∈ default [] (vouchers_of l !! target)) then loopback l weight else 0)).
Proof.
  intros l l'. destruct (from_events_ok cfg events) as [Ha Hv]. fold l in Ha, Hv. subst l'. cbn [apply].
  destruct (bool_decide_reflect (by_ = target)) as [He|He].
  { rw bool_decide_eq_false_2; [done|]. by intros []. }
  rw bool_decide_eq_true_2 //. set (l1 := accrue target (- wrap_i64 weight) l). set (vs := default [] (vouchers_of l1 !! target)).
  assert (∀ back vs' l0, commitments (fold_left (λ l v, accrue v (- back) l) vs' l0) = commitments l0 ∧
    vouchers_of (fold_left (λ l v, accrue v (- back) l) vs' l0) = vouchers_of l0) as Hframe.
  { intros back vs'. induction vs' as [|v vs' IH]; intros l0; [done|]. cbn. destruct (IH (accrue v (- back) l0)) as [-> ->]. done. }
  assert (is_i64 (accrued l1 r)) as H1 by apply (ok_accrued _ (accrue_ok _ _ _ (from_events_ok cfg events))).
  assert (accrued l1 r = wrap_i64 (accrued l r - if bool_decide (r = target) then wrap_i64 weight else 0)) as Hl1.
  { unfold l1. rw accrued_accrue. case_bool_decide; [done|]. by rw Z.sub_0_r wrap_i64_small. }
  change (loopback l1 weight) with (loopback l weight). destruct (bool_decide_reflect (loopback l weight ≠ 0)) as [Hb|Hb].
  - destruct (Hframe (loopback l weight) vs l1) as [-> ->]. split_and!; [done..|]. rw accrue_all //; [|apply Hv]. rw Hl1. apply (wrap_i64_add_l _ (- _)).
  - split_and!; [done..|]. apply dec_stable in Hb. rw Hb Hl1. destruct (bool_decide (r ∈ _)); by rw Z.sub_0_r.
Qed.

(** ** Vouching for oneself *)

Definition self_vouches (r t : Z) (n : nat) : list StandingEvent := replicate n (Vouch r r BASIS_POINTS t).

(** Standing can be minted.  A persona that vouches for
    itself with the whole of its standing doubles it, and [n] such events leave
    it [2 ^ n] times what it had, up to the range of the arithmetic. *)
Theorem self_vouch_mints cfg events r t n :
  let l := from_events cfg events in
  0 < accrued l r → accrued l r * 2 ^ Z.of_nat n * BASIS_POINTS ≤ i64_max →
  accrued (from_events cfg (events ++ self_vouches r t n)) r = accrued l r * 2 ^ Z.of_nat n.
Proof.
  intros l Hpos Hb. unfold from_events. rw fold_left_app. fold (from_events cfg events). fold l.
  clearbody l. revert l Hpos Hb. induction n as [|n IH]; intros l Hpos Hb; cbn [self_vouches replicate fold_left].
  { cbn. lia. }
  rw Nat2Z.inj_succ Z.pow_succ_r in Hb |- *; [|lia..]. pose proof (Z.pow_pos_nonneg 2 (Z.of_nat n) ltac:(lia) ltac:(lia)) as Hp.
  unfold BASIS_POINTS, i64_max in Hb. assert (accrued (apply l (Vouch r r BASIS_POINTS t)) r = 2 * accrued l r) as Hd.
  { cbn [apply]. unfold lent. fold (accrued (add_voucher r r l) r). change (accrued (add_voucher r r l) r) with (accrued l r).
    rw Z.max_l; [|lia]. rw (wrap_i64_small (accrued l r * BASIS_POINTS)); [|unfold is_i64, i64_min, i64_max, BASIS_POINTS; nia].
    rw Z.quot_mul; [|done]. rw bool_decide_eq_true_2; [|lia]. rw accrued_accrue bool_decide_eq_true_2 //.
    change (accrued (add_voucher r r l) r) with (accrued l r). rw wrap_i64_small; [lia|]. unfold is_i64, i64_min, i64_max. nia. }
  fold (self_vouches r t n). rw IH; [|rw Hd; lia|rw Hd; unfold BASIS_POINTS, i64_max; nia]. rw Hd. lia.
Qed.

(** ** The rate limit over time *)

Record ActRequest : Type := mkAct {
  act_cap : bool;
  act_score : Z;
  act_vouched : bool;
  act_member : bool;
  act_now : Z
}.

(** A run of requests by one persona: each allowed action is logged. *)
Fixpoint act_run (policy : Policy) (recent : list Z) (requests : list ActRequest) : list Z :=
  match requests with
  | [] => recent
  | q :: requests =>
      match authorize policy (act_cap q) (mkFacts (act_score q) recent (act_vouched q) (act_member q)) (act_now q) with
      | Allow => act_run policy (recent ++ [act_now q]) requests
      | Deny _ => act_run policy recent requests
      end
  end.

Definition rate_limit (policy : Policy) : Z :=
  match policy with OpenWithFloor c | VouchedOrScore c => gc_rate_limit c | MembersOnly n _ => n end.
Definition rate_window_ms (policy : Policy) : Z :=
  match policy with OpenWithFloor c | VouchedOrScore c => gc_rate_window_ms c | MembersOnly _ w => w end.

Lemma authorize_allow policy cap facts now :
  authorize policy cap facts now = Allow ↔
  cap = true ∧ is_ok (admission_rule policy facts) = true ∧
  in_window (recent_action_ms facts) now (rate_window_ms policy) < rate_limit policy.
Proof.
  unfold authorize. destruct cap; cbn [negb]; [|split; [done|by intros []]].
  assert (∀ lw, admission_rule policy facts = Ok lw → lw = (rate_limit policy, rate_window_ms policy)) as Hlw.
  { intros lw. destruct policy; cbn; repeat case_match; by intros [= <-]. }
  destruct (admission_rule policy facts) as [lw|e] eqn:Ea; [|split; [done|by intros (_ & ? & _)]].
  rw (Hlw lw eq_refl). case_bool_decide as Hl; cbn [is_ok]; split; try done; [intros (_ & _ & ?); lia|intros _; split_and!; [done..|lia]].
Qed.

Definition count_between (a b : Z) (l : list Z) : Z := Z.of_nat (length (filter (λ t, a ≤ t < b) l)).

Lemma filter_length_le {B} (p q : B → Prop) `{∀ x, Decision (p x), ∀ x, Decision (q x)} l :
  (∀ x, x ∈ l → p x → q x) → (length (filter p l) ≤ length (filter q l))%nat.
Proof.
  induction l as [|x l IH]; intros Hpq; [done|]. rw !filter_cons.
  assert (length (filter p l) ≤ length (filter q l))%nat by (apply IH; intros; apply Hpq; [by right|done]).
  repeat case_decide; cbn; try lia. exfalso. eauto using list_elem_of_here.
Qed.

(** C37. The rate limit is a bound over every window.  Along any run
    of requests by one persona, whatever scores, capabilities and membership they
    carry and however the host clock moves, no half-open window of the policy's
    length contains more allowed actions than the policy's limit. *)
Theorem rate_limit_holds policy requests a :
  0 ≤ rate_limit policy → Z.of_nat (length requests) < 2 ^ 32 →
  count_between a (a + rate_window_ms policy) (act_run policy [] requests) ≤ rate_limit policy.
Proof.
  intros Hl Hlen. assert (∀ recent, Z.of_nat (length recent + length requests) < 2 ^ 32 →
    (∀ a, count_between a (a + rate_window_ms policy) recent ≤ rate_limit policy) →
    ∀ a, count_between a (a + rate_window_ms policy) (act_run policy recent requests) ≤ rate_limit policy) as Hgen; cycle 1.
  { apply Hgen; [cbn; lia|]. intros b. unfold count_between. cbn. lia. }
  clear Hlen a. induction requests as [|q requests IH]; intros recent Hlen Hinv a; [apply Hinv|]. cbn [act_run].
  destruct (authorize policy _ _ _) eqn:Eq; [|apply IH; [cbn in Hlen; lia|done]].
  apply authorize_allow in Eq as (_ & _ & Hw). cbn [recent_action_ms] in Hw. apply IH; [rw length_app; cbn in *; lia|].
  intros b. unfold count_between. rw filter_app length_app. unfold in_window in Hw. cbn [length] in Hlen.
  set (w := rate_window_ms policy) in *. pose proof (length_filter (λ t, saturating_sub (act_now q) t < w) recent) as Hle.
  rw Z.mod_small in Hw; [|lia]. rw filter_cons filter_nil. destruct (decide (b ≤ act_now q < b + w)) as [Hin|Hout]; cbn [length].
  - assert (Z.of_nat (length (filter (λ t, b ≤ t < b + w) recent)) ≤
      Z.of_nat (length (filter (λ t, saturating_sub (act_now q) t < w) recent))) as Hc.
    { apply inj_le. apply filter_length_le. intros x _ Hx. unfold saturating_sub. lia. }
    lia.
  - specialize (Hinv b). unfold count_between in Hinv. lia.
Qed.

(** ** Forked personas *)

Definition unvisited (chains : PersonaChains) (visited : gset Z) : gset Z := dom chains ∖ visited.

(** The walk needs one unit of fuel per persona it has not seen. *)
Lemma root_loop_total fuel (chains : PersonaChains) current depth visited :
  current ∈ visited → (current ∈ dom chains → (size (unvisited chains visited) < fuel)%nat) →
  ∃ root d, root_loop fuel chains current depth visited = Some (root, d) ∧ depth ≤ d.
Proof.
  revert current depth visited. induction fuel as [|fuel IH]; intros current depth visited Hv Hf;
    cbn [root_loop]; (destruct (chains !! current) as [parent|] eqn:Ec; [|exists current, depth; split; [done|lia]]).
  all: apply elem_of_dom_2 in Ec; specialize (Hf Ec).
  - lia.
  - case_bool_decide as Hp; [exists current, depth; split; [done|lia]|].
    destruct (IH parent (depth + 1) ({[parent]} ∪ visited)) as (root & d & -> & Hd); [set_solver| |exists root, d; split; [done|lia]].
    intros Hin. assert (unvisited chains visited = {[parent]} ∪ unvisited chains ({[parent]} ∪ visited)) as Hu.
    { apply set_eq. unfold unvisited. intros x. rw elem_of_union !elem_of_difference elem_of_union elem_of_singleton.
      destruct (decide (x = parent)); naive_solver. }
    rw Hu size_union in Hf; [|unfold unvisited; set_solver]. rw size_singleton in Hf. lia.
Qed.

Lemma root_and_depth_total (chains : PersonaChains) persona :
  ∃ root d, root_and_depth chains persona = Some (root, d) ∧ 0 ≤ d.
Proof.
  apply root_loop_total; [set_solver|]. intros Hin. unfold unvisited. rw size_difference; [|set_solver].
  rw size_dom size_singleton. assert (size chains ≠ 0%nat); [|lia]. rw map_size_ne_0_lookup. apply elem_of_dom in Hin as [p Hp]. by eexists _, _.
Qed.

(** A persona nobody descends from does not change the walks of others. *)
Lemma root_loop_fork fuel fuel' (chains : PersonaChains) c p current depth visited root d :
  (∀ k, chains !! k ≠ Some c) → current ≠ c → (fuel ≤ fuel')%nat →
  root_loop fuel chains current depth visited = Some (root, d) →
  root_loop fuel' (fork chains c p) current (depth + 1) ({[c]} ∪ visited) = Some (root, d + 1).
Proof.
  intros Hc. revert fuel' current depth visited. induction fuel as [|fuel IH]; intros fuel' current depth visited Hne Hf;
    destruct fuel' as [|fuel']; cbn [root_loop]; unfold fork; rw lookup_insert_ne //;
    (destruct (chains !! current) as [parent|] eqn:Ec; [|by intros [= -> ->]]).
  all: assert (parent ≠ c) as Hpc by (intros ->; by apply (Hc current)).
  all: rw (bool_decide_ext (parent ∈ {[c]} ∪ visited) (parent ∈ visited)); [|set_solver].
  all: case_bool_decide; try by intros [= -> ->].
  - lia.
  - intros Hr. rw (assoc_L (∪)) (comm_L (∪) {[parent]} {[c]}) -(assoc_L (∪)). apply (IH fuel'); [done|lia|done].
Qed.

Lemma root_and_depth_fork (chains : PersonaChains) c p root d :
  chains !! c = None → (∀ k, chains !! k ≠ Some c) → p ≠ c →
  root_and_depth chains p = Some (root, d) → root_and_depth (fork chains c p) c = Some (root, d + 1).
Proof.
  intros Hn Hc Hp Hr. unfold root_and_depth, fork. rw map_size_insert_None //. cbn [root_loop]. rw lookup_insert_eq.
  rw bool_decide_eq_false_2; [|set_solver]. rw (comm_L (∪)). by apply (root_loop_fork (size chains) _ chains c p p 0 {[p]}).
Qed.

Lemma depreciate_bounds base factor s :
  0 ≤ factor ≤ BASIS_POINTS → base * BASIS_POINTS ≤ i64_max → 0 ≤ s ≤ base → 0 ≤ depreciate factor s ≤ s.
Proof.
  intros Hf Hb Hs. unfold depreciate, BASIS_POINTS in *. rw wrap_i64_small; [|unfold is_i64, i64_min, i64_max in *; nia].
  rw Z.quot_div_nonneg; [|nia..]. split; [apply Z.div_pos; nia|]. apply Z.div_le_upper_bound; nia.
Qed.

Lemma depreciate_iter base factor n :
  0 ≤ factor ≤ BASIS_POINTS → base * BASIS_POINTS ≤ i64_max → 0 ≤ base → 0 ≤ Nat.iter n (depreciate factor) base ≤ base.
Proof.
  intros Hf Hb Hs. induction n as [|n IH]; [cbn; lia|]. change (Nat.iter (S n) (depreciate factor) base) with (depreciate factor (Nat.iter n (depreciate factor) base)). destruct (depreciate_bounds base factor _ Hf Hb IH). lia.
Qed.

(** C36. Forking is never a way out.  The walk to a persona's chain
    root always ends, in a cyclic forest too.  What a persona presents is its
    root's debt in full, or between zero and its root's positive standing; and a
    new fork presents exactly its parent's debt, or no more than its parent's
    standing (with depreciation at most the whole and scores whose product with
    ten thousand is representable). *)
Theorem fork_never_launders iter (chains : PersonaChains) persona l now :
  0 ≤ depreciation_bp (config l) ≤ BASIS_POINTS →
  ∃ root depth e, root_and_depth chains persona = Some (root, depth) ∧
    effective_score iter chains persona l now = Some e ∧
    let base := score iter l root now in
    (base * BASIS_POINTS ≤ i64_max →
      (base ≤ 0 → e = base) ∧ (0 < base → 0 ≤ e ≤ base) ∧
      ∀ child, chains !! child = None → (∀ k, chains !! k ≠ Some child) → persona ≠ child →
        ∃ e', effective_score iter (fork chains child persona) child l now = Some e' ∧ e' ≤ e ∧ (base ≤ 0 → e' = e)).
Proof.
  intros Hf. destruct (root_and_depth_total chains persona) as (root & d & Hr & Hd).
  set (base := score iter l root now). set (present n := if bool_decide (base ≤ 0) then base else Nat.iter n (depreciate (depreciation_bp (config l))) base).
  exists root, d, (present (Z.to_nat d)). split; [done|]. split; [unfold effective_score; by rw Hr|]. intros base' Hb. change base' with base in *.
  split_and!.
  - intros Hle. unfold present. by rw bool_decide_eq_true_2.
  - intros Hlt. unfold present. rw bool_decide_eq_false_2; [|lia]. apply depreciate_iter; [done..|lia].
  - intros child Hn Hc Hp. exists (present (Z.to_nat (d + 1))). split.
    { unfold effective_score. by rw (root_and_depth_fork chains child persona root d). }
    unfold present. case_bool_decide as Hle; [split; [lia|done]|]. split; [|lia].
    replace (Z.to_nat (d + 1)) with (S (Z.to_nat d)) by lia. cbn [Nat.iter nat_rect].
    apply (depreciate_bounds base); [done..|]. apply depreciate_iter; [done..|lia].
Qed.

Module Sample.
(** Ann keeps one pledge, hands a second to Bob who goes silent, and vouches for
    Cat, whom governance then censures. *)
Definition ann : Z := 1.
Definition bob : Z := 2.
Definition cat : Z := 3.
Definition council : Z := 50.
Definition history : list StandingEvent :=
  [CommitmentMade ann 10 "pin" 100 None 0; CommitmentFulfilled ann 10 50;
   CommitmentMade ann 11 "pin" 100 None 60; CleanHandoff ann bob 11 90; Vouch ann cat 5000 95].
Definition ledger : Ledger := from_events StandingConfig_default history.

Lemma scores_agree_witness :
  default 0 (scores map_to_list ledger 500 !! bob) = score map_to_list ledger bob 500 ∧ score map_to_list ledger bob 500 = -20.
Proof.
  split; [|by vm_compute].
  exact (scores_agree StandingConfig_default history 500 bob map_to_list map_to_list (λ m, reflexivity _) (λ m, reflexivity _)).
Defined.

Lemma censured : let l := apply ledger (Censure council cat 8 99) in (accrued l cat, accrued l ann, accrued l bob) = (-3, 6, 0).
Proof. by vm_compute. Qed.

(** A weight of [2 ^ 63] or more is negative after the cast: the censure adds
    standing. *)
Lemma heavy_censure_rewards :
  let l := apply ledger (Censure council cat (2 ^ 64 - 1000) 99) in accrued ledger cat = 5 ∧ accrued l cat = 1005.
Proof. by vm_compute. Qed.

Lemma self_vouch_mints_witness :
  accrued (from_events StandingConfig_default (history ++ self_vouches ann 99 20)) ann = 10 * 2 ^ 20.
Proof. apply (self_vouch_mints StandingConfig_default history ann 99 20); by vm_compute. Defined.

Definition posts : list ActRequest :=
  [mkAct true 5 false false 100; mkAct true 5 false false 110; mkAct true 5 false false 105; mkAct true 5 false false 1200].
Definition strict : Policy := OpenWithFloor (mkGateConfig 1 2 1000).

Lemma rate_limit_holds_witness :
  act_run strict [] posts = [100; 110; 1200] ∧ count_between 100 1100 (act_run strict [] posts) ≤ 2.
Proof.
  split; [by vm_compute|]. apply (rate_limit_holds strict posts 100); by vm_compute.
Defined.

Lemma fork_never_launders_witness :
  ∃ root depth e, root_and_depth (fork ∅ 7 ann) 7 = Some (root, depth) ∧
    effective_score map_to_list (fork ∅ 7 ann) 7 ledger 500 = Some e ∧ e = 5.
Proof.
  destruct (fork_never_launders map_to_list (fork ∅ 7 ann) 7 ledger 500) as (root & depth & e & Hr & He & _); [by vm_compute|].
  exists root, depth, e. split; [exact Hr|]. split; [exact He|]. vm_compute in He. congruence.
Defined.
End Sample.
