(* ===== verification/Constitution.v ===== *)
(** The constitution of a moot
    (crates/moot/gemot/src/moot/constitution/{event,fold}.rs, with the digests of
    crates/system/proofs/src/lib.rs).

    Signed operations carry a founding event and amendments; [constitution_fold]
    folds whatever operations a peer retains, in whatever order, into the accepted
    rules, [apply_op] advances a live state by one operation.  The p2panda
    operation, its verification and the CBOR encodings are parameters.

    The fold's loop runs while an amendment of the accepted revision qualifies.
    It ends because revisions are hash-linked: [acyclic] says that no chain of
    amendments leads back to a revision it started from.

    The theorems: the fold is independent of the order and repetition of the
    operations, terminates, and follows the law (every revision was signed by
    enough distinct members the revision before it entitled); outsiders cannot
    influence it; a majority quorum accepts one proposal; and live application
    agrees with the fold. *)

From S2P Require Import Prelude Wire Digests Delegation Standing.

Local Open Scope Z_scope.

(** ** Rules (event.rs) *)

Inductive AmendmentRule : Type :=
| FounderSigned
| MemberQuorum (electorate : gset Z) (threshold : Z).

Definition permits (r : AmendmentRule) (founder actor : Z) : bool :=
  match r with
  | FounderSigned => bool_decide (actor = founder)
  | MemberQuorum electorate threshold =>
      bool_decide (0 < threshold) && bool_decide (threshold ≤ Z.of_nat (size electorate)) && bool_decide (actor ∈ electorate)
  end.

Definition rule_threshold (r : AmendmentRule) : Z :=
  match r with FounderSigned => 1 | MemberQuorum _ threshold => threshold end.

Definition is_quorum (r : AmendmentRule) : bool := match r with MemberQuorum _ _ => true | FounderSigned => false end.

Record CapabilityGrant : Type := mkCapGrant {
  cg_id : Z;
  cg_subject : Z;
  cg_path_prefix : string;
  cg_not_before_ms : Z;
  cg_expires_at_ms : option Z;
  cg_delegation_depth : Z
}.

Definition cap_grant_covers (g : CapabilityGrant) (subject : Z) (path : string) (at_ms : Z) : bool :=
  bool_decide (cg_subject g = subject) && negb (bool_decide (cg_path_prefix g = "")) &&
  bool_decide (cg_not_before_ms g ≤ at_ms) &&
  match cg_expires_at_ms g with
  | None => true
  | Some expires => bool_decide (cg_not_before_ms g ≤ expires) && bool_decide (at_ms ≤ expires)
  end && path_covers (cg_path_prefix g) path.

Record TulpaRules : Type := mkTulpaRules { standing_endorsement_floor : option Z }.
Definition TulpaRules_default : TulpaRules := mkTulpaRules None.

Definition standing_allows_endorsement (r : TulpaRules) (facts : StandingFacts) : bool :=
  match standing_endorsement_floor r with None => true | Some floor => bool_decide (floor ≤ fact_score facts) end.

Definition filter_endorsers (r : TulpaRules) (endorsements : gset Z) (facts_for : Z → StandingFacts) : gset Z :=
  filter (λ e, standing_allows_endorsement r (facts_for e)) endorsements.

Record ConstitutionRules : Type := mkRules {
  amendment : AmendmentRule;
  checkpoint_signers : gset Z;
  admission : Policy;
  capability_grants : gmap Z CapabilityGrant;
  tulpa : TulpaRules
}.

Definition founder_only (founder : Z) : ConstitutionRules :=
  mkRules FounderSigned {[founder]} (OpenWithFloor GateConfig_default) ∅ TulpaRules_default.

Definition rules_grant (r : ConstitutionRules) (g : CapabilityGrant) : ConstitutionRules :=
  mkRules (amendment r) (checkpoint_signers r) (admission r) (<[cg_id g := g]> (capability_grants r)) (tulpa r).

Definition revoke_grant (r : ConstitutionRules) (grant_id : Z) : option CapabilityGrant * ConstitutionRules :=
  (capability_grants r !! grant_id,
   mkRules (amendment r) (checkpoint_signers r) (admission r) (delete grant_id (capability_grants r)) (tulpa r)).

Definition rules_grant_covers (r : ConstitutionRules) (subject : Z) (path : string) (at_ms : Z) : bool :=
  existsb (λ g, cap_grant_covers g subject path at_ms) (bt_values (capability_grants r)).

Inductive ConstitutionEvent : Type :=
| Genesis (moot_id founder : Z) (parent_constitution divergence_point : option Digest) (rules : ConstitutionRules)
    (rules_hash : Digest) (at_ms : Z)
| Amended (previous : Digest) (rules : ConstitutionRules) (rules_hash : Digest) (at_ms : Z).

(** ** The fold (fold.rs) *)

Record Constitution : Type := mkConstitution {
  co_moot_id : Z;
  co_founder : Z;
  co_parent_constitution : option Digest;
  co_divergence_point : option Digest;
  co_rules : ConstitutionRules;
  co_revision : Digest
}.

Inductive ConstitutionError : Type :=
| InvalidSignature | WrongMoot | Malformed | RulesDigest | AlreadyFounded | StaleRevision | NotAuthorized | PendingQuorum.

Inductive GovernedAction : Type := AmendConstitution.

Definition authorize_governed (action : GovernedAction) (actor : Z) (c : Constitution) : bool :=
  match action with AmendConstitution => permits (amendment (co_rules c)) (co_founder c) actor end.

(** An operation's hash, author and event, after the guards. *)
Record Candidate : Type := mkCandidate { ca_hash : Z; ca_author : Z; ca_event : ConstitutionEvent }.

(** [(canonical hash, rules, rules hash, supporters)]. *)
Record Proposal : Type := mkProposal {
  pr_canonical : Z;
  pr_rules : ConstitutionRules;
  pr_rules_hash : Digest;
  pr_supporters : gset Z
}.

(** [proposals.iter_mut().find(same rules hash)], or a push. *)
Fixpoint support (hash author : Z) (rules : ConstitutionRules) (rules_hash : Digest) (ps : list Proposal) : list Proposal :=
  match ps with
  | [] => [mkProposal hash rules rules_hash {[author]}]
  | p :: ps =>
      if bool_decide (pr_rules_hash p = rules_hash)
      then mkProposal (Z.min (pr_canonical p) hash) (pr_rules p) (pr_rules_hash p) ({[author]} ∪ pr_supporters p) :: ps
      else p :: support hash author rules rules_hash ps
  end.

(** An amendment of the accepted revision by someone it entitles. *)
Definition eligible (st : Constitution) (c : Candidate) : option (ConstitutionRules * Digest) :=
  match ca_event c with
  | Genesis _ _ _ _ _ _ _ => None
  | Amended previous rules rules_hash _ =>
      if bool_decide (previous ≠ co_revision st) || negb (authorize_governed AmendConstitution (ca_author c) st)
      then None else Some (rules, rules_hash)
  end.

Definition proposals (st : Constitution) (candidates : list Candidate) : list Proposal :=
  fold_left (λ ps c, match eligible st c with
                     | None => ps
                     | Some (rules, rules_hash) => support (ca_hash c) (ca_author c) rules rules_hash ps
                     end) candidates [].

Definition accepted_amendment (st : Constitution) (candidates : list Candidate)
  : option (Z * ConstitutionRules * Digest) :=
  (λ p, (pr_canonical p, pr_rules p, pr_rules_hash p)) <$>
    List.find (λ p, bool_decide (rule_threshold (amendment (co_rules st)) ≤ Z.of_nat (size (pr_supporters p))))
      (sort_by_key pr_canonical (proposals st candidates)).

Definition founds (moot_id expected_founder : Z) (c : Candidate) : bool :=
  match ca_event c with
  | Genesis event_moot founder _ _ _ _ _ =>
      bool_decide (event_moot = moot_id) && bool_decide (founder = expected_founder) && bool_decide (ca_author c = expected_founder)
  | Amended _ _ _ _ => false
  end.

Definition found (moot_id : Z) (c : Candidate) : option Constitution :=
  match ca_event c with
  | Genesis _ founder parent divergence rules _ _ =>
      Some (mkConstitution moot_id founder parent divergence rules (p2panda_operation (ca_hash c)))
  | Amended _ _ _ _ => None
  end.

(** The revisions the amendments name: more than the loop can take steps. *)
Definition named (candidates : list Candidate) : gset Digest :=
  list_to_set (omap (λ c, match ca_event c with Amended previous _ _ _ => Some previous | Genesis _ _ _ _ _ _ _ => None end) candidates).

Section fold.
Context {Op : Type} (verify : Op → bool) (from_operation : Op → option ConstitutionEvent)
  (op_hash op_author op_moot : Op → Z).
Context (blake3 : list Z → Z) (encode_rules : ConstitutionRules → list Z) (encode_pair : Digest → Digest → list Z).

Definition rules_digest (r : ConstitutionRules) : Digest := digest_blake3 blake3 (encode_rules r).

Definition genesis_event (moot_id founder : Z) (parent divergence : option Digest) (rules : ConstitutionRules) (at_ms : Z)
  : ConstitutionEvent := Genesis moot_id founder parent divergence rules (rules_digest rules) at_ms.
Definition amended_event (previous : Digest) (rules : ConstitutionRules) (at_ms : Z) : ConstitutionEvent :=
  Amended previous rules (rules_digest rules) at_ms.

Definition rules_are_bound (e : ConstitutionEvent) : bool :=
  match e with Genesis _ _ _ _ rules rules_hash _ | Amended _ rules rules_hash _ => bool_decide (rules_digest rules = rules_hash) end.

Definition quorum_revision (previous rules_hash : Digest) : Digest :=
  digest_blake3 blake3 (str_bytes "gemot/constitution/quorum-revision/v1" ++ [0] ++ encode_pair previous rules_hash).

Definition candidate (moot_id : Z) (o : Op) : option Candidate :=
  if bool_decide (op_moot o ≠ moot_id) || negb (verify o) then None
  else event ← from_operation o;
       if rules_are_bound event then Some (mkCandidate (op_hash o) (op_author o) event) else None.

Definition amend (st : Constitution) (a : Z * ConstitutionRules * Digest) : Constitution :=
  let '(hash, rules, rules_hash) := a in
  mkConstitution (co_moot_id st) (co_founder st) (co_parent_constitution st) (co_divergence_point st) rules
    (if is_quorum (amendment (co_rules st)) then quorum_revision (co_revision st) rules_hash else p2panda_operation hash).

Fixpoint advance (fuel : nat) (candidates : list Candidate) (st : Constitution) : option Constitution :=
  match accepted_amendment st candidates with
  | None => Some st
  | Some a => match fuel with 0%nat => None | S fuel => advance fuel candidates (amend st a) end
  end.

(** [None]: the loop did not end; [Some None]: no founding operation. *)
Definition fold_candidates (moot_id expected_founder : Z) (candidates : list Candidate) : option (option Constitution) :=
  match List.find (founds moot_id expected_founder) candidates ≫= found moot_id with
  | None => Some None
  | Some st => Some <$> advance (size (named candidates)) candidates st
  end.

Definition constitution_fold (moot_id expected_founder : Z) (ops : list Op) : option (option Constitution) :=
  fold_candidates moot_id expected_founder (sort_by_key ca_hash (omap (candidate moot_id) ops)).

Definition apply_op (st : Constitution) (o : Op) : result ConstitutionError Constitution :=
  if bool_decide (op_moot o ≠ co_moot_id st) then Err WrongMoot
  else if negb (verify o) then Err InvalidSignature
  else match from_operation o with
       | None => Err Malformed
       | Some event =>
           if negb (rules_are_bound event) then Err RulesDigest
           else match event with
                | Genesis _ _ _ _ _ _ _ => Err AlreadyFounded
                | Amended previous rules _ _ =>
                    if bool_decide (previous ≠ co_revision st) then Err StaleRevision
                    else if negb (authorize_governed AmendConstitution (op_author o) st) then Err NotAuthorized
                    else if is_quorum (amendment (co_rules st)) then Err PendingQuorum
                    else Ok (mkConstitution (co_moot_id st) (co_founder st) (co_parent_constitution st)
                               (co_divergence_point st) rules (p2panda_operation (op_hash o)))
                end
       end.
End fold.

(** ** What an accepted amendment is *)

Abbreviation by_hash := (StronglySorted (λ x y, ca_hash x ≤ ca_hash y)).

(** The distinct authors behind one set of replacement rules. *)
Definition supporters (st : Constitution) (cs : list Candidate) (rh : Digest) : gset Z :=
  list_to_set (ca_author <$> filter (λ c, snd <$> eligible st c = Some rh) cs).

Lemma elem_of_supporters st cs rh a :
  a ∈ supporters st cs rh ↔ ∃ c r, c ∈ cs ∧ ca_author c = a ∧ eligible st c = Some (r, rh).
Proof.
  unfold supporters. rw elem_of_list_to_set list_elem_of_fmap. split.
  - intros (c & -> & [He Hc]%list_elem_of_filter). apply fmap_Some in He as ([r h] & He & ->). by exists c, r.
  - intros (c & r & Hc & <- & He). exists c. split; [done|]. apply list_elem_of_filter. by rw He.
Qed.

Definition enough (st : Constitution) (cs : list Candidate) (rh : Digest) : Prop :=
  rule_threshold (amendment (co_rules st)) ≤ Z.of_nat (size (supporters st cs rh)).

Definition qualified (st : Constitution) (cs : list Candidate) (c : Candidate) (r : ConstitutionRules) (rh : Digest) : Prop :=
  c ∈ cs ∧ eligible st c = Some (r, rh) ∧ enough st cs rh.

Definition supported (hash author : Z) (p : Proposal) : Proposal :=
  mkProposal (Z.min (pr_canonical p) hash) (pr_rules p) (pr_rules_hash p) ({[author]} ∪ pr_supporters p).

Lemma elem_of_support h a r rh ps q :
  NoDup (pr_rules_hash <$> ps) →
  q ∈ support h a r rh ps ↔
    (q ∈ ps ∧ pr_rules_hash q ≠ rh) ∨ (∃ p, p ∈ ps ∧ pr_rules_hash p = rh ∧ q = supported h a p) ∨
    ((rh ∉ pr_rules_hash <$> ps) ∧ q = mkProposal h r rh {[a]}).
Proof.
  induction ps as [|p ps IH]; cbn [support fmap list_fmap]; intros Hnd.
  { rw list_elem_of_singleton. split.
    - intros ->. right. right. split; [apply not_elem_of_nil|done].
    - intros [[Hq _]|[(x & Hx & _)|[_ ->]]]; [by apply elem_of_nil in Hq|by apply elem_of_nil in Hx|done]. }
  apply NoDup_cons in Hnd as [Hp Hnd]. destruct (bool_decide_reflect (pr_rules_hash p = rh)) as [He|He].
  - assert (∀ x, x ∈ ps → pr_rules_hash x ≠ rh) as Hx by (intros x Hx Hr; apply Hp; rw He -Hr; by apply list_elem_of_fmap_2).
    rw elem_of_cons. split.
    + intros [->|Hq]; [right; left; exists p; by rw elem_of_cons; auto|left]. split; [by right|by apply Hx].
    + intros [[[->|Hq]%elem_of_cons Hne]|[(x & [->|Hin]%elem_of_cons & Hxr & ->)|[Hn _]]]; [done|by right|by left|by apply Hx in Hin|].
      destruct Hn. rw He. by left.
  - rw elem_of_cons IH //. rw !elem_of_cons. split.
    + intros [->|[[? ?]|[(x & ? & ? & ->)|[Hn ->]]]]; [by auto|by auto|right; left; exists x; by rw elem_of_cons; auto|].
      right. right. split; [|done]. intros [?|?]; [congruence|done].
    + intros [[[->|?] ?]|[(x & [->|?]%elem_of_cons & ? & ->)|[Hn ->]]]; [by auto|by auto|done|right; right; left; by exists x|].
      right. right. right. split; [|done]. tauto.
Qed.

Lemma support_hashes h a r rh ps :
  pr_rules_hash <$> support h a r rh ps =
  if bool_decide (rh ∈ pr_rules_hash <$> ps) then pr_rules_hash <$> ps else (pr_rules_hash <$> ps) ++ [rh].
Proof.
  induction ps as [|p ps IH]; [done|]. cbn [support fmap list_fmap].
  destruct (bool_decide_reflect (pr_rules_hash p = rh)) as [He|He].
  - rw bool_decide_eq_true_2; [done|]. rw He. by left.
  - cbn [fmap list_fmap]. rw IH (bool_decide_ext (rh ∈ pr_rules_hash p :: (pr_rules_hash <$> ps)) (rh ∈ pr_rules_hash <$> ps)).
    + by case_bool_decide.
    + rw elem_of_cons. naive_solver.
Qed.

Record proposals_ok (st : Constitution) (cs : list Candidate) (ps : list Proposal) : Prop := {
  po_NoDup : NoDup (pr_rules_hash <$> ps);
  po_first p : p ∈ ps → ∃ c, c ∈ cs ∧ ca_hash c = pr_canonical p ∧ eligible st c = Some (pr_rules p, pr_rules_hash p);
  po_least p c r : p ∈ ps → c ∈ cs → eligible st c = Some (r, pr_rules_hash p) → pr_canonical p ≤ ca_hash c;
  po_supporters p : p ∈ ps → pr_supporters p = supporters st cs (pr_rules_hash p);
  po_all c r rh : c ∈ cs → eligible st c = Some (r, rh) → rh ∈ pr_rules_hash <$> ps
}.

Lemma supporters_snoc st cs c rh :
  supporters st (cs ++ [c]) rh =
  if bool_decide (snd <$> eligible st c = Some rh) then {[ca_author c]} ∪ supporters st cs rh else supporters st cs rh.
Proof.
  unfold supporters. rw filter_app fmap_app list_to_set_app_L filter_cons filter_nil.
  case_bool_decide; case_decide; try done; cbn; set_solver.
Qed.

Lemma proposals_spec st cs : by_hash cs → proposals_ok st cs (proposals st cs).
Proof.
  induction cs as [|c cs IH] using rev_ind; intros Hs.
  { split; cbn; try (intros *; by rw elem_of_nil). constructor. }
  apply StronglySorted_app in Hs as (Hlt & Hs & _). specialize (IH Hs). unfold proposals. rw fold_left_app. cbn [fold_left].
  fold (proposals st cs). destruct (eligible st c) as [[r rh]|] eqn:Ee; cycle 1.
  { destruct IH as [T1 T2 T3 T4 T5]. split; [done|..].
    - intros p Hp. destruct (T2 p Hp) as (c' & Hc' & ?). exists c'. rw elem_of_app. by auto.
    - intros p c' r' Hp [Hc'| ->%list_elem_of_singleton]%elem_of_app He; [by eapply T3|congruence].
    - intros p Hp. rw supporters_snoc Ee. by apply T4.
    - intros c' r' rh' [Hc'| ->%list_elem_of_singleton]%elem_of_app He; [by eapply T5|congruence]. }
  destruct IH as [T1 T2 T3 T4 T5]. split.
  - rw support_hashes. case_bool_decide as Hin; [done|]. apply NoDup_app. split_and!; [done| |apply NoDup_singleton].
    intros x Hx ->%list_elem_of_singleton. done.
  - intros q [[Hq _]|[(p & Hp & He & ->)|[_ ->]]]%elem_of_support; [| | |done].
    + destruct (T2 q Hq) as (c' & Hc' & ?). exists c'. rw elem_of_app. by auto.
    + destruct (T2 p Hp) as (c' & Hc' & Hh & Hel). exists c'. cbn. rw elem_of_app. split_and!; [by auto| |done].
      rw Z.min_l; [done|]. rw -Hh. apply Hlt; [done|by left].
    + exists c. rw elem_of_app. cbn. split_and!; [right; by left|done..].
  - intros q c' r' [[Hq Hne]|[(p & Hp & He & ->)|[Hn ->]]]%elem_of_support; [| | |done];
      (intros [Hc'| ->%list_elem_of_singleton]%elem_of_app Hel; cbn in *).
    + by eapply T3.
    + congruence.
    + etrans; [apply Z.le_min_l|by eapply T3].
    + lia.
    + exfalso. apply Hn. by eapply T5.
    + lia.
  - intros q [[Hq Hne]|[(p & Hp & He & ->)|[Hn ->]]]%elem_of_support; [| | |done]; rw supporters_snoc Ee; cbn.
    + rw bool_decide_eq_false_2; [by apply T4|congruence].
    + rw bool_decide_eq_true_2; [|congruence]. by rw (T4 p Hp).
    + rw bool_decide_eq_true_2 //. assert (supporters st cs rh = ∅) as ->; [|by rw right_id_L].
      apply elem_of_equiv_empty_L. intros a (c' & r' & Hc' & _ & Hel)%elem_of_supporters. apply Hn. by eapply T5.
  - intros c' r' rh' Hc' Hel. rw support_hashes. apply elem_of_app in Hc' as [Hc'| ->%list_elem_of_singleton].
    + case_bool_decide; [by eapply T5|]. apply elem_of_app. left. by eapply T5.
    + rw Ee in Hel. injection Hel as -> ->. case_bool_decide; [done|]. apply elem_of_app. right. by left.
Qed.

Lemma find_sorted {A} (key : A → Z) (f : A → bool) (l : list A) p q :
  StronglySorted (λ x y, key x ≤ key y) l → List.find f l = Some p → q ∈ l → f q = true → key p ≤ key q.
Proof.
  induction 1 as [|x l Hl IH HF]; [done|]. cbn. destruct (f x) eqn:Ex.
  - intros [= ->]. intros [->|Hq]%elem_of_cons _; [lia|]. rw Forall_forall in HF. by apply HF.
  - intros Hp [->|Hq]%elem_of_cons Hf; [congruence|]. by apply IH.
Qed.

Lemma accepted_Some st cs h r rh :
  by_hash cs → accepted_amendment st cs = Some (h, r, rh) →
  ∃ c, ca_hash c = h ∧ qualified st cs c r rh ∧ ∀ c' r' rh', qualified st cs c' r' rh' → h ≤ ca_hash c'.
Proof.
  intros Hs. pose proof (proposals_spec st cs Hs) as [T1 T2 T3 T4 T5]. unfold accepted_amendment.
  intros (p & Hp & [= -> -> ->])%fmap_Some. pose proof Hp as [Hin Hen]%find_some. apply list_elem_of_In in Hin.
  rw sort_by_key_perm in Hin. apply bool_decide_eq_true in Hen. destruct (T2 p Hin) as (c & Hc & Hh & He).
  exists c. split; [done|]. split; [split_and!; [done..|]; unfold enough; by rw -(T4 p Hin)|].
  intros c' r' rh' (Hc' & He' & Hen'). pose proof (T5 c' r' rh' Hc' He') as (q & -> & Hq)%list_elem_of_fmap.
  trans (pr_canonical q); [|by eapply T3]. eapply (find_sorted pr_canonical); [apply sort_by_key_sorted|exact Hp| |].
  - by rw sort_by_key_perm.
  - apply bool_decide_eq_true. unfold enough in Hen'. by rw (T4 q Hq).
Qed.

Lemma accepted_None st cs c r rh : by_hash cs → accepted_amendment st cs = None → ¬ qualified st cs c r rh.
Proof.
  intros Hs. pose proof (proposals_spec st cs Hs) as [T1 T2 T3 T4 T5]. unfold accepted_amendment.
  rw fmap_None. intros Hf (Hc & He & Hen). pose proof (T5 c r rh Hc He) as (q & -> & Hq)%list_elem_of_fmap.
  assert (q ∈ sort_by_key pr_canonical (proposals st cs)) as Hq' by by rw sort_by_key_perm.
  apply list_elem_of_In in Hq'. pose proof (find_none _ _ Hf q Hq') as Hn. apply bool_decide_eq_false in Hn.
  apply Hn. unfold enough in Hen. by rw (T4 q Hq).
Qed.

(** Candidates are identified by their operation hash. *)
Definition hash_inj (cs : list Candidate) : Prop :=
  ∀ c c', c ∈ cs → c' ∈ cs → ca_hash c = ca_hash c' → c = c'.

Definition same_eligible (st : Constitution) (cs cs' : list Candidate) : Prop :=
  ∀ c, eligible st c ≠ None → c ∈ cs ↔ c ∈ cs'.

Lemma supporters_ext st cs cs' rh : same_eligible st cs cs' → supporters st cs rh = supporters st cs' rh.
Proof.
  intros Hse. apply set_eq. intros a. rw !elem_of_supporters.
  split; intros (c & r & Hc & Ha & He); exists c, r; (split; [apply Hse; [congruence|done]|done]).
Qed.

Lemma qualified_ext st cs cs' c r rh : same_eligible st cs cs' → qualified st cs c r rh → qualified st cs' c r rh.
Proof.
  intros Hse (Hc & He & Hen). split_and!; [apply Hse; [congruence|done]|done|]. unfold enough. by rw -(supporters_ext st cs).
Qed.

(** What is accepted depends only on the set of eligible amendments. *)
Lemma accepted_ext st cs cs' :
  by_hash cs → by_hash cs' → hash_inj cs → same_eligible st cs cs' →
  accepted_amendment st cs = accepted_amendment st cs'.
Proof.
  intros Hs Hs' Hi Hse. assert (same_eligible st cs' cs) as Hse' by (intros c Hc; symmetry; by apply Hse).
  destruct (accepted_amendment st cs) as [[[h r] rh]|] eqn:E1, (accepted_amendment st cs') as [[[h' r'] rh']|] eqn:E2; [| | |done].
  - apply accepted_Some in E1 as (c & <- & Hq & Hmin); [|done]. apply accepted_Some in E2 as (c' & <- & Hq' & Hmin'); [|done].
    apply (qualified_ext _ _ _ _ _ _ Hse) in Hq as Hq1. apply (qualified_ext _ _ _ _ _ _ Hse') in Hq' as Hq2.
    assert (ca_hash c = ca_hash c') as Hh by (pose proof (Hmin' c r rh Hq1); pose proof (Hmin c' r' rh' Hq2); lia).
    assert (c = c') as -> by (apply Hi; [apply Hq|apply Hq2|done]). destruct Hq as (_ & He & _), Hq' as (_ & He' & _). congruence.
  - apply accepted_Some in E1 as (c & <- & Hq & _); [|done]. exfalso.
    by apply (accepted_None st cs' c r rh Hs' E2), (qualified_ext st cs).
  - apply accepted_Some in E2 as (c & <- & Hq & _); [|done]. exfalso.
    by apply (accepted_None st cs c r' rh' Hs E1), (qualified_ext st cs').
Qed.

Lemma find_ext (f : Candidate → bool) cs cs' :
  by_hash cs → by_hash cs' → hash_inj cs → (∀ c, f c = true → c ∈ cs ↔ c ∈ cs') → List.find f cs = List.find f cs'.
Proof.
  intros Hs Hs' Hi Hsame. destruct (List.find f cs) as [c|] eqn:E1, (List.find f cs') as [c'|] eqn:E2; [| | |done].
  - pose proof E1 as [Hc Hf]%find_some. pose proof E2 as [Hc' Hf']%find_some. apply list_elem_of_In in Hc, Hc'.
    assert (c ∈ cs') as Hcs' by by apply Hsame. assert (c' ∈ cs) as Hcs by by apply Hsame.
    pose proof (find_sorted ca_hash f cs c c' Hs E1 Hcs Hf'). pose proof (find_sorted ca_hash f cs' c' c Hs' E2 Hcs' Hf).
    f_equal. apply Hi; [done..|lia].
  - pose proof E1 as [Hc Hf]%find_some. apply list_elem_of_In in Hc. apply Hsame in Hc; [|done].
    apply list_elem_of_In in Hc. pose proof (find_none _ _ E2 c Hc). congruence.
  - pose proof E2 as [Hc Hf]%find_some. apply list_elem_of_In in Hc. apply Hsame in Hc; [|done].
    apply list_elem_of_In in Hc. pose proof (find_none _ _ E1 c' Hc). congruence.
Qed.

Lemma elem_of_named cs d :
  d ∈ named cs ↔ ∃ c r rh t, c ∈ cs ∧ ca_event c = Amended d r rh t.
Proof.
  unfold named. rw elem_of_list_to_set list_elem_of_omap. split.
  - intros (c & Hc & Hd). destruct (ca_event c) as [|d' r rh t] eqn:Ec; [done|]. injection Hd as ->. by exists c, r, rh, t.
  - intros (c & r & rh & t & Hc & He). exists c. by rw He.
Qed.

Lemma eligible_Some st c r rh :
  eligible st c = Some (r, rh) ↔
  ∃ t, ca_event c = Amended (co_revision st) r rh t ∧ permits (amendment (co_rules st)) (co_founder st) (ca_author c) = true.
Proof.
  unfold eligible, authorize_governed. destruct (ca_event c) as [|d r' rh' t]; [split; [done|by intros (? & ? & _)]|].
  destruct (bool_decide_reflect (d ≠ co_revision st)) as [Hd|Hd]; cbn [orb].
  { split; [done|]. intros (t' & [= -> -> -> ->] & _). done. }
  apply dec_stable in Hd as ->. destruct (permits _ _ _); cbn [negb].
  - split; [intros [= -> ->]; by exists t|]. by intros (t' & [= -> -> ->] & _).
  - split; [done|]. by intros (? & _ & ?).
Qed.

Section law.
Context {Op : Type} (verify : Op → bool) (from_operation : Op → option ConstitutionEvent)
  (op_hash op_author op_moot : Op → Z).
Context (blake3 : list Z → Z) (encode_rules : ConstitutionRules → list Z) (encode_pair : Digest → Digest → list Z).

Abbreviation cand := (candidate verify from_operation op_hash op_author op_moot blake3 encode_rules).
Abbreviation fold_ops := (constitution_fold verify from_operation op_hash op_author op_moot blake3 encode_rules encode_pair).
Abbreviation amend' := (amend blake3 encode_pair).
Abbreviation advance' := (advance blake3 encode_pair).
Abbreviation candidates moot ops := (sort_by_key ca_hash (omap (cand moot) ops)).
Implicit Types (cs : list Candidate) (ops : list Op) (st : Constitution).

Lemma advance_ext fuel cs cs' st :
  (∀ st, accepted_amendment st cs = accepted_amendment st cs') → advance' fuel cs st = advance' fuel cs' st.
Proof.
  intros Hacc. revert st. induction fuel as [|fuel IH]; intros st; cbn [advance]; rw Hacc; [done|].
  destruct (accepted_amendment st cs'); [apply IH|done].
Qed.

Lemma elem_of_candidates moot ops c : c ∈ candidates moot ops ↔ ∃ o, o ∈ ops ∧ cand moot o = Some c.
Proof. rw sort_by_key_perm list_elem_of_omap. done. Qed.

Lemma cand_hash moot o c : cand moot o = Some c → ca_hash c = op_hash o ∧ ca_author c = op_author o.
Proof.
  unfold candidate. destruct (_ || _); [done|]. destruct (from_operation o); [|done]. cbn.
  destruct (rules_are_bound _ _ _); [|done]. by intros [= <-].
Qed.

(** Operations are content-addressed. *)
Definition op_hash_inj ops : Prop := ∀ o o', o ∈ ops → o' ∈ ops → op_hash o = op_hash o' → o = o'.

Lemma candidates_inj moot ops : op_hash_inj ops → hash_inj (candidates moot ops).
Proof.
  intros Hi c c' (o & Ho & Hc)%elem_of_candidates (o' & Ho' & Hc')%elem_of_candidates Hh.
  destruct (cand_hash _ _ _ Hc) as [Hco _], (cand_hash _ _ _ Hc') as [Hco' _].
  assert (o = o') as <- by (apply Hi; [done..|congruence]). congruence.
Qed.

(** C9. Peers that hold the same operations live under the same
    law.  Folding two lists with the same operations, in any order and with any
    repetitions, gives the same result (founded or not, rules and revision). *)
Theorem constitution_order_independent moot founder ops1 ops2 :
  op_hash_inj ops1 → (∀ o, o ∈ ops1 ↔ o ∈ ops2) → fold_ops moot founder ops1 = fold_ops moot founder ops2.
Proof.
  intros Hi Hsame. assert (∀ c, c ∈ candidates moot ops1 ↔ c ∈ candidates moot ops2) as Hc.
  { intros c. rw !elem_of_candidates. by setoid_rewrite Hsame. }
  pose proof (candidates_inj moot ops1 Hi) as Hci. unfold constitution_fold, fold_candidates.
  pose proof (sort_by_key_sorted ca_hash (omap (cand moot) ops1)) as Hs1.
  pose proof (sort_by_key_sorted ca_hash (omap (cand moot) ops2)) as Hs2.
  set (cs1 := candidates moot ops1) in *. set (cs2 := candidates moot ops2) in *.
  rw (find_ext (founds moot founder) cs1 cs2) //. destruct (_ ≫= found moot) as [st|]; [|done].
  assert (named cs1 = named cs2) as -> by (apply set_eq; intros d; rw !elem_of_named; by setoid_rewrite Hc).
  f_equal. apply advance_ext. intros st'. apply accepted_ext; [done..|]. intros c _. apply Hc.
Qed.

(** ** Termination and legality *)

(** Amendments lead away from the revision they name. *)
Definition acyclic cs : Prop :=
  ∃ rank : Digest → nat, ∀ c previous r rh t, c ∈ cs → ca_event c = Amended previous r rh t →
    (rank previous < rank (p2panda_operation (ca_hash c)) ∧
     rank previous < rank (quorum_revision blake3 encode_pair previous rh))%nat.

Inductive settles cs : Constitution → Constitution → Prop :=
| settles_done st : accepted_amendment st cs = None → settles cs st st
| settles_step st a st' : accepted_amendment st cs = Some a → settles cs (amend' st a) st' → settles cs st st'.

Lemma advance_settles fuel cs st st' : advance' fuel cs st = Some st' → settles cs st st'.
Proof.
  revert st. induction fuel as [|fuel IH]; intros st; cbn [advance]; destruct (accepted_amendment st cs) as [a|] eqn:Ea; try done.
  - intros [= <-]. by constructor.
  - intros Hadv. econstructor; [done|by apply IH].
  - intros [= <-]. by constructor.
Qed.

Lemma settles_det cs st st1 st2 : settles cs st st1 → settles cs st st2 → st1 = st2.
Proof.
  induction 1 as [st Hn|st a st1 Ha _ IH]; inversion 1; subst; try congruence.
  match goal with Hx : accepted_amendment st cs = Some ?b |- _ => assert (a = b) as <- by congruence end. by apply IH.
Qed.

(** An accepted amendment names the revision it replaces. *)
Lemma accepted_names st cs a :
  by_hash cs → accepted_amendment st cs = Some a →
  ∃ c r rh t, a = (ca_hash c, r, rh) ∧ c ∈ cs ∧ ca_event c = Amended (co_revision st) r rh t ∧ enough st cs rh ∧
    permits (amendment (co_rules st)) (co_founder st) (ca_author c) = true ∧
    ∀ c' r' rh', qualified st cs c' r' rh' → ca_hash c ≤ ca_hash c'.
Proof.
  intros Hs. destruct a as [[h r] rh]. intros (c & <- & (Hc & He & Hen) & Hmin)%accepted_Some; [|done].
  apply eligible_Some in He as (t & He & Hp). by exists c, r, rh, t.
Qed.

Lemma advance_total cs st : by_hash cs → acyclic cs → ∃ st', advance' (size (named cs)) cs st = Some st'.
Proof.
  intros Hs [rank Hrank]. pose (ahead (st : Constitution) := filter (λ d, (rank (co_revision st) ≤ rank d)%nat) (named cs)).
  assert (∀ fuel st, (size (ahead st) ≤ fuel)%nat → ∃ st', advance' fuel cs st = Some st') as Hgen; cycle 1.
  { apply Hgen. apply subseteq_size. unfold ahead. set_solver. }
  clear st. intros fuel. induction fuel as [|fuel IH]; intros st Hf; cbn [advance];
    (destruct (accepted_amendment st cs) as [a|] eqn:Ea; [|by eexists]).
  all: apply accepted_names in Ea as (c & r & rh & t & -> & Hc & He & _); [|done].
  all: assert (co_revision st ∈ ahead st) as Hin by (apply elem_of_filter; split; [lia|]; apply elem_of_named; by exists c, r, rh, t).
  - exfalso. assert (ahead st ≡ ∅) as Hz by (apply size_empty_inv; lia). set_solver.
  - apply IH. assert (rank (co_revision st) < rank (co_revision (amend' st (ca_hash c, r, rh))))%nat as Hlt.
    { cbn. destruct (is_quorum _); eapply Hrank; eauto. }
    assert (ahead (amend' st (ca_hash c, r, rh)) ⊂ ahead st) as Hsub%subset_size; [|lia]. split.
    + intros d [Hd Hn]%elem_of_filter. apply elem_of_filter. split; [lia|done].
    + intros Hback. apply Hback in Hin. apply elem_of_filter in Hin as [Hd _]. lia.
Qed.

(** What it takes to be the law. *)
Inductive lawful moot founder cs : Constitution → Prop :=
| lawful_genesis c st :
    c ∈ cs → founds moot founder c = true →
    (∀ c', c' ∈ cs → founds moot founder c' = true → ca_hash c ≤ ca_hash c') →
    found moot c = Some st → lawful moot founder cs st
| lawful_amend st c r rh t (signers : gset Z) :
    lawful moot founder cs st → c ∈ cs → ca_event c = Amended (co_revision st) r rh t →
    rule_threshold (amendment (co_rules st)) ≤ Z.of_nat (size signers) →
    (∀ a, a ∈ signers → permits (amendment (co_rules st)) (co_founder st) a = true ∧
      ∃ c' r' t', c' ∈ cs ∧ ca_author c' = a ∧ ca_event c' = Amended (co_revision st) r' rh t') →
    lawful moot founder cs (amend' st (ca_hash c, r, rh)).

Lemma settles_lawful moot founder cs st st' :
  by_hash cs → settles cs st st' → lawful moot founder cs st →
  lawful moot founder cs st' ∧ accepted_amendment st' cs = None.
Proof.
  intros Hs. induction 1 as [st Hn|st a st' Ha _ IH]; intros Hl; [done|]. apply IH. clear IH.
  apply accepted_names in Ha as (c & r & rh & t & -> & Hc & He & Hen & _); [|done].
  apply (lawful_amend moot founder cs st c r rh t (supporters st cs rh)); [done..|].
  intros a (c' & r' & Hc' & <- & (t' & He' & Hp)%eligible_Some)%elem_of_supporters. split; [done|]. by exists c', r', t'.
Qed.

(** C4. The fold always ends and follows the law.  With
    hash-linked amendments the result is: no constitution, exactly when the
    declared founder signed no valid founding operation; or a state reached from
    the founder's first such operation by amendments, each of the revision then
    accepted and signed identically by at least as many distinct members as that
    revision demands, every one of whom it entitles; and no amendment that meets
    this is left unapplied. *)
Theorem constitution_fold_lawful moot founder ops :
  let cs := candidates moot ops in
  acyclic cs →
  ∃ res, fold_ops moot founder ops = Some res ∧
    match res with
    | None => ∀ c, c ∈ cs → founds moot founder c = false
    | Some st => lawful moot founder cs st ∧ ∀ c r rh, ¬ qualified st cs c r rh
    end.
Proof.
  intros cs Hac. pose proof (sort_by_key_sorted ca_hash (omap (cand moot) ops)) as Hs. fold cs in Hs.
  unfold constitution_fold, fold_candidates. fold cs. destruct (List.find (founds moot founder) cs) as [c|] eqn:Ef; cycle 1.
  { exists None. split; [done|]. intros c Hc. apply (find_none _ _ Ef). by apply list_elem_of_In. }
  pose proof Ef as [Hc Hf]%find_some. apply list_elem_of_In in Hc. cbn [mbind option_bind].
  destruct (found moot c) as [st|] eqn:Efd; cycle 1.
  { exfalso. unfold founds in Hf. unfold found in Efd. by destruct (ca_event c). }
  destruct (advance_total cs st Hs Hac) as [st' Hadv]. exists (Some st'). rw Hadv. split; [done|].
  destruct (settles_lawful moot founder cs st st' Hs (advance_settles _ _ _ _ Hadv)) as [Hl Hn].
  - apply (lawful_genesis moot founder cs c st Hc Hf); [|done]. intros c' Hc' Hf'.
    by apply (find_sorted ca_hash (founds moot founder) cs).
  - split; [done|]. intros c' r rh. by apply accepted_None.
Qed.

(** ** Outsiders *)

Definition event_rules (e : ConstitutionEvent) : ConstitutionRules :=
  match e with Genesis _ _ _ _ rules _ _ | Amended _ rules _ _ => rules end.

(** No rules anyone proposes put [x] in an electorate. *)
Definition outsider (x : Z) cs : Prop :=
  ∀ c electorate k, c ∈ cs → amendment (event_rules (ca_event c)) = MemberQuorum electorate k → x ∉ electorate.

Lemma outsider_permits x cs c founder :
  outsider x cs → c ∈ cs → x ≠ founder → permits (amendment (event_rules (ca_event c))) founder x = false.
Proof.
  intros Hx Hc Hf. specialize (Hx c). destruct (amendment (event_rules (ca_event c))) as [|E k]; cbn.
  - by apply bool_decide_eq_false.
  - rw (bool_decide_eq_false_2 (x ∈ E)); [apply andb_false_r|]. by apply (Hx E k).
Qed.

Lemma acyclic_subset cs cs' : (∀ c, c ∈ cs' → c ∈ cs) → acyclic cs → acyclic cs'.
Proof. intros Hsub [rank Hr]. exists rank. intros c previous r rh t Hc He. eapply Hr; eauto. Qed.

Lemma settles_outsider x cs cs' founder st st' :
  by_hash cs → by_hash cs' → hash_inj cs' → outsider x cs → x ≠ founder →
  (∀ c, c ∈ cs' ↔ c ∈ cs ∧ ca_author c ≠ x) → co_founder st = founder →
  permits (amendment (co_rules st)) founder x = false → settles cs' st st' → settles cs st st'.
Proof.
  intros Hs Hs' Hi Hx Hne Hmem Hf Hp Hset. revert Hf Hp.
  assert (∀ st, co_founder st = founder → permits (amendment (co_rules st)) founder x = false →
    accepted_amendment st cs' = accepted_amendment st cs) as Hacc.
  { intros st0 Hf0 Hp0. apply accepted_ext; [done..|]. intros c Hc. rw Hmem. split; [by intros []|]. intros Hin. split; [done|].
    intros Ha. destruct (eligible st0 c) as [[r rh]|] eqn:Ee; [|done]. apply eligible_Some in Ee as (t & _ & Hper). congruence. }
  induction Hset as [st Hn|st a st' Ha _ IH]; intros Hf Hp.
  - constructor. by rw -Hacc.
  - rw Hacc in Ha; [|done..]. apply (settles_step cs st a); [done|].
    pose proof Ha as (c & r & rh & t & -> & Hc & He & _)%accepted_names; [|done]. apply IH; [done|].
    cbn [amend co_rules]. pose proof (outsider_permits x cs c founder Hx Hc Hne) as Ho. by rw He in Ho.
Qed.

(** Someone who is not the founder and whom no proposed
    rules put in an electorate has no influence: dropping all their operations
    from the corpus leaves the accepted constitution as it is. *)
Theorem outsiders_have_no_say moot founder ops x :
  let cs := candidates moot ops in
  op_hash_inj ops → acyclic cs → outsider x cs → x ≠ founder →
  fold_ops moot founder (filter (λ o, op_author o ≠ x) ops) = fold_ops moot founder ops.
Proof.
  intros cs Hi Hac Hx Hne. set (ops' := filter _ ops). set (cs' := candidates moot ops').
  assert (∀ c, c ∈ cs' ↔ c ∈ cs ∧ ca_author c ≠ x) as Hmem.
  { intros c. rw !elem_of_candidates. split.
    - intros (o & [Ho Hin]%list_elem_of_filter & Hc). destruct (cand_hash _ _ _ Hc) as [_ ->]. split; [by exists o|done].
    - intros [(o & Hin & Hc) Ha]. exists o. split; [|done]. apply list_elem_of_filter. destruct (cand_hash _ _ _ Hc) as [_ <-]. done. }
  pose proof (sort_by_key_sorted ca_hash (omap (cand moot) ops)) as Hs. fold cs in Hs.
  pose proof (sort_by_key_sorted ca_hash (omap (cand moot) ops')) as Hs'. fold cs' in Hs'.
  assert (hash_inj cs') as Hi'. { intros c c' [Hc _]%Hmem [Hc' _]%Hmem. by apply (candidates_inj moot ops Hi). }
  unfold constitution_fold, fold_candidates. fold cs cs'. rw (find_ext (founds moot founder) cs' cs) //; cycle 1.
  { intros c Hc. rw Hmem. split; [by intros []|]. intros Hin. split; [done|]. unfold founds in Hc.
    destruct (ca_event c); [|done]. apply andb_prop in Hc as [_ Hc%bool_decide_eq_true]. congruence. }
  destruct (List.find (founds moot founder) cs) as [c|] eqn:Ef; [|done]. cbn [mbind option_bind].
  pose proof Ef as [Hc Hf]%find_some. apply list_elem_of_In in Hc. destruct (found moot c) as [st|] eqn:Efd; [|done].
  destruct (advance_total cs st Hs Hac) as [st1 H1].
  destruct (advance_total cs' st Hs') as [st2 H2]; [apply (acyclic_subset cs); [by intros ? []%Hmem|done]|].
  rw H1 H2. do 2 f_equal. apply advance_settles in H1, H2. symmetry. apply (settles_det cs st); [done|].
  unfold founds in Hf. pose proof (outsider_permits x cs c founder Hx Hc Hne) as Ho. unfold found in Efd.
  destruct (ca_event c) as [m f pc dp r rh t|]; [|done]. injection Efd as <-.
  apply andb_prop in Hf as [[_ Hf%bool_decide_eq_true]%andb_prop _].
  by apply (settles_outsider x cs cs' founder).
Qed.

(** ** Quorums *)

(** A majority quorum decides once.  Under a quorum of more
    than half of its electorate in which nobody signs two proposals for the same
    revision, an accepted amendment stays accepted as further operations arrive,
    and leads to the very same rules and revision. *)
Theorem majority_quorum_stable st cs cs' electorate k a :
  by_hash cs → by_hash cs' → (∀ c, c ∈ cs → c ∈ cs') →
  amendment (co_rules st) = MemberQuorum electorate k → Z.of_nat (size electorate) < 2 * k →
  (∀ x rh rh', x ∈ supporters st cs' rh → x ∈ supporters st cs' rh' → rh = rh') →
  (∀ c c' r r' rh, c ∈ cs' → c' ∈ cs' → eligible st c = Some (r, rh) → eligible st c' = Some (r', rh) → r = r') →
  accepted_amendment st cs = Some a →
  ∃ a', accepted_amendment st cs' = Some a' ∧ amend' st a' = amend' st a.
Proof.
  intros Hs Hs' Hsub Hq Hmaj Hone Hbound Ha. destruct a as [[h r] rh].
  apply accepted_Some in Ha as (c & <- & (Hc & He & Hen) & _); [|done].
  assert (∀ rh0, supporters st cs rh0 ⊆ supporters st cs' rh0) as Hmono.
  { intros rh0 x (c0 & r0 & Hc0 & Hx & He0)%elem_of_supporters. apply elem_of_supporters. exists c0, r0. by auto. }
  assert (qualified st cs' c r rh) as Hqual.
  { split_and!; [by apply Hsub|done|]. unfold enough in *. pose proof (subseteq_size _ _ (Hmono rh)). lia. }
  destruct (accepted_amendment st cs') as [[[h' r'] rh']|] eqn:Ea; [|by exfalso; eapply accepted_None].
  apply accepted_Some in Ea as (c' & <- & (Hc' & He' & Hen') & _); [|done].
  assert (rh' = rh) as ->.
  { apply dec_stable. intros Hne. unfold enough in Hen, Hen'. rw Hq in Hen Hen'. cbn in Hen, Hen'.
    assert (supporters st cs rh ## supporters st cs' rh') as Hdisj.
    { intros x Hx%Hmono Hx'. apply Hne. by apply (Hone x). }
    assert (supporters st cs rh ∪ supporters st cs' rh' ⊆ electorate) as Hle%subseteq_size.
    { intros x [Hx%Hmono|Hx]%elem_of_union; apply elem_of_supporters in Hx as (c0 & r0 & _ & <- & (t & _ & Hp)%eligible_Some);
        rw Hq in Hp; cbn in Hp; by apply andb_prop in Hp as [_ ?%bool_decide_eq_true]. }
    rw size_union // in Hle. lia. }
  exists (ca_hash c', r', rh). split; [done|]. assert (r' = r) as -> by (by eapply (Hbound c' c); eauto).
  unfold amend. rw Hq. done.
Qed.

(** ** Live application *)

Abbreviation apply' := (apply_op verify from_operation op_hash op_author op_moot blake3 encode_rules).

(** What the answer of a live peer says about the operation as a candidate. *)
Lemma apply_cases moot st o :
  co_moot_id st = moot →
  match apply' st o with
  | Ok st' => ∃ c r rh t, cand moot o = Some c ∧ ca_event c = Amended (co_revision st) r rh t ∧ eligible st c = Some (r, rh) ∧
      amendment (co_rules st) = FounderSigned ∧ st' = amend' st (ca_hash c, r, rh) ∧ ca_hash c = op_hash o
  | Err PendingQuorum => ∃ c r rh t, cand moot o = Some c ∧ ca_event c = Amended (co_revision st) r rh t
  | Err NotAuthorized => ∃ c r rh t, cand moot o = Some c ∧ ca_event c = Amended (co_revision st) r rh t ∧ eligible st c = None
  | Err (StaleRevision | AlreadyFounded) => True
  | Err _ => cand moot o = None
  end.
Proof.
  intros Hm. unfold apply_op, candidate. rw Hm. destruct (bool_decide (op_moot o ≠ moot)); [done|]. cbn [orb].
  destruct (verify o); [cbn [negb]|done]. destruct (from_operation o) as [ev|]; [cbn [mbind option_bind]|done].
  destruct (rules_are_bound blake3 encode_rules ev) eqn:Eb; [cbn [negb]|done]. destruct ev as [|d r rh t]; [done|].
  destruct (bool_decide_reflect (d ≠ co_revision st)) as [|Hd]; [done|]. apply dec_stable in Hd as ->.
  set (c := mkCandidate (op_hash o) (op_author o) (Amended (co_revision st) r rh t)).
  destruct (authorize_governed AmendConstitution (op_author o) st) eqn:Ep; cbn [negb]; cycle 1.
  { exists c, r, rh, t. split_and!; [done..|]. unfold eligible. cbn [ca_event ca_author c]. by rw Ep orb_true_r. }
  assert (eligible st c = Some (r, rh)) as Hel by (apply eligible_Some; by exists t).
  destruct (amendment (co_rules st)) as [|E k] eqn:Eam; cbn [is_quorum]; exists c, r, rh, t; [|done].
  split_and!; [done..|unfold amend; by rw Eam Hm|done].
Qed.

Lemma settles_moot cs st st' : settles cs st st' → co_moot_id st' = co_moot_id st.
Proof. induction 1 as [|st [[h r] rh] st' _ _ IH]; [done|]. by rw IH. Qed.

(** Under the founder's rule an eligible amendment is an accepted one. *)
Lemma founder_enough st cs c r rh :
  amendment (co_rules st) = FounderSigned → c ∈ cs → eligible st c = Some (r, rh) → qualified st cs c r rh.
Proof.
  intros Hf Hc He. split_and!; [done..|]. unfold enough. rw Hf. cbn.
  assert (size (supporters st cs rh) ≠ 0%nat); [|lia]. rw size_non_empty_iff.
  assert (ca_author c ∈ supporters st cs rh) by (apply elem_of_supporters; by exists c, r). set_solver.
Qed.

Lemma settles_ranked cs rank st st' :
  by_hash cs →
  (∀ c previous r rh t, c ∈ cs → ca_event c = Amended previous r rh t →
    (rank previous < rank (p2panda_operation (ca_hash c)) ∧
     rank previous < rank (quorum_revision blake3 encode_pair previous rh))%nat) →
  settles cs st st' → (rank (co_revision st) ≤ rank (co_revision st'))%nat.
Proof.
  intros Hs Hr. induction 1 as [|st a st' Ha _ IH]; [lia|]. etrans; [|exact IH].
  apply accepted_names in Ha as (c & r & rh & t & -> & Hc & He & _); [|done]. cbn.
  destruct (Hr c _ r rh t Hc He). destruct (is_quorum _); lia.
Qed.

Lemma settles_end cs st st' : settles cs st st' → accepted_amendment st' cs = None.
Proof. by induction 1. Qed.

(** One more amendment of the final revision changes no step before it. *)
Lemma settles_through cs cs' co st0 st st' r rh t :
  by_hash cs → by_hash cs' → hash_inj cs' → (∀ c, c ∈ cs' ↔ c = co ∨ c ∈ cs) → acyclic cs' →
  ca_event co = Amended (co_revision st) r rh t →
  settles cs st0 st → settles cs' st st' → settles cs' st0 st'.
Proof.
  intros Hs Hs' Hi Hmem [rank Hrank] Hev Hset Hrest.
  assert (∀ c previous r rh t, c ∈ cs → ca_event c = Amended previous r rh t →
    (rank previous < rank (p2panda_operation (ca_hash c)) ∧
     rank previous < rank (quorum_revision blake3 encode_pair previous rh))%nat) as Hrank'.
  { intros c prev r0 rh0 t0 Hc. eapply Hrank. apply Hmem. by right. }
  induction Hset as [st Hn|st0 a st Ha Hset IH]; [done|].
  apply (settles_step cs' st0 a); [|by apply IH]. rw -Ha. apply accepted_ext; [done..|]. intros c Hc. rw Hmem.
  split; [|by right]. intros [->|?]; [|done]. exfalso. destruct (eligible st0 co) as [[r1 rh1]|] eqn:Ee; [|done].
  apply eligible_Some in Ee as (t1 & Hev1 & _). assert (co_revision st0 = co_revision st) as Heq by congruence.
  apply accepted_names in Ha as (c1 & r2 & rh2 & t2 & -> & Hc1 & He1 & _); [|done].
  pose proof (settles_ranked cs rank _ _ Hs Hrank' Hset) as Hle. cbn in Hle. destruct (Hrank' c1 _ r2 rh2 t2 Hc1 He1).
  rw -Heq in Hle. destruct (is_quorum _); lia.
Qed.

(** Under the founder's rule an amendment of a settled revision is the one accepted. *)
Lemma founder_accepts cs cs' co st r rh :
  by_hash cs → by_hash cs' → (∀ c, c ∈ cs' ↔ c = co ∨ c ∈ cs) → accepted_amendment st cs = None →
  eligible st co = Some (r, rh) → amendment (co_rules st) = FounderSigned →
  accepted_amendment st cs' = Some (ca_hash co, r, rh).
Proof.
  intros Hs Hs' Hmem Hn Hel Hf. destruct (accepted_amendment st cs') as [[[h' r'] rh']|] eqn:Ea; cycle 1.
  { exfalso. apply (accepted_None st cs' co r rh Hs' Ea). apply founder_enough; [done| |done]. apply Hmem. by left. }
  apply accepted_Some in Ea as (c & <- & (Hc & He & _) & _); [|done]. apply Hmem in Hc as [->|Hc]; [congruence|].
  exfalso. exact (accepted_None st cs c r' rh' Hs Hn (founder_enough st cs c r' rh' Hf Hc He)).
Qed.

Lemma fold_settled moot founder ops st :
  fold_ops moot founder ops = Some (Some st) → co_moot_id st = moot ∧ accepted_amendment st (candidates moot ops) = None.
Proof.
  unfold constitution_fold, fold_candidates. destruct (List.find (founds moot founder) (candidates moot ops)) as [c0|] eqn:Ef; [|done]. cbn [mbind option_bind].
  destruct (found moot c0) as [st0|] eqn:Efd; [|done]. intros (stx & Hadv & [= <-])%fmap_Some. apply advance_settles in Hadv. split; [|by eapply settles_end].
  rw (settles_moot _ _ _ Hadv). unfold found in Efd. destruct (ca_event c0); [by injection Efd as <-|done].
Qed.

Lemma candidates_cons moot ops o co : cand moot o = Some co → ∀ c, c ∈ candidates moot (o :: ops) ↔ c = co ∨ c ∈ candidates moot ops.
Proof.
  intros Hco c. rw !elem_of_candidates. setoid_rewrite elem_of_cons. split.
  - intros (o' & [->|Ho'] & Hc); [left; congruence|right; by exists o'].
  - intros [->|(o' & Ho' & Hc)]; [exists o; by auto|exists o'; by auto].
Qed.

(** Folding one more amendment of the settled revision goes on from that revision. *)
Lemma fold_goes_on moot founder ops o co st r rh t :
  op_hash_inj (o :: ops) → acyclic (candidates moot (o :: ops)) → fold_ops moot founder ops = Some (Some st) →
  cand moot o = Some co → ca_event co = Amended (co_revision st) r rh t →
  ∃ st', fold_ops moot founder (o :: ops) = Some (Some st') ∧ settles (candidates moot (o :: ops)) st st'.
Proof.
  intros Hi Hac Hfold Hco Hev. pose proof (candidates_cons moot ops o co Hco) as Hmem.
  pose proof (candidates_inj moot (o :: ops) Hi) as Hi'. unfold constitution_fold, fold_candidates in Hfold |- *.
  pose proof (sort_by_key_sorted ca_hash (omap (cand moot) ops)) as Hs. pose proof (sort_by_key_sorted ca_hash (omap (cand moot) (o :: ops))) as Hs'.
  set (cs := candidates moot ops) in *. set (cs' := candidates moot (o :: ops)) in *.
  destruct (List.find (founds moot founder) cs) as [c0|] eqn:Ef; [|done]. cbn [mbind option_bind] in Hfold.
  destruct (found moot c0) as [st0|] eqn:Efd; [|done]. apply fmap_Some in Hfold as (stx & Hadv%advance_settles & [= <-]).
  assert (hash_inj cs) as Hi0 by (intros c c' Hc Hc'; apply Hi'; apply Hmem; by right).
  rw -(find_ext (founds moot founder) cs cs') //; cycle 1.
  { intros c Hc. rw Hmem. split; [by right|]. intros [->|?]; [|done]. unfold founds in Hc. by rw Hev in Hc. }
  rw Ef. cbn [mbind option_bind]. rw Efd. destruct (advance_total cs' st0 Hs' Hac) as [st1 H1]. rw H1.
  destruct (advance_total cs' st Hs' Hac) as [st2 H2%advance_settles]. exists st2. split; [|done]. cbn [fmap option_fmap option_map]. do 2 f_equal.
  apply advance_settles in H1. apply (settles_det cs' st0); [done|]. by eapply (settles_through cs cs' co st0 st st2).
Qed.

(** C34. Live application against the fold, answer by answer.  A peer whose folded
    state is [st] is offered a further operation, and all operations are folded again
    with it.  When the peer accepts, the fold goes through the state it moved to and on
    from there, and ends in it when no retained operation amends that new revision.
    When the peer answers that a quorum is pending, the fold goes on from [st] by what
    the signatures of all operations accept, and stays at [st] when they accept
    nothing.  When it refuses an operation of another moot, unsigned, malformed, with
    unbound rules or unauthorized, the fold does not change.  A stale revision or a
    second founding may move the fold. *)
Theorem live_apply_is_the_fold moot founder ops o st :
  op_hash_inj (o :: ops) → acyclic (candidates moot (o :: ops)) → fold_ops moot founder ops = Some (Some st) →
  let cs' := candidates moot (o :: ops) in
  match apply' st o with
  | Ok st' => ∃ st'', fold_ops moot founder (o :: ops) = Some (Some st'') ∧ settles cs' st' st'' ∧
      ((∀ c r rh t, c ∈ candidates moot ops → ca_event c ≠ Amended (co_revision st') r rh t) → st'' = st')
  | Err PendingQuorum =>
      match accepted_amendment st cs' with
      | Some a => ∃ st'', fold_ops moot founder (o :: ops) = Some (Some st'') ∧ settles cs' (amend' st a) st''
      | None => fold_ops moot founder (o :: ops) = Some (Some st)
      end
  | Err (StaleRevision | AlreadyFounded) => True
  | Err _ => fold_ops moot founder (o :: ops) = Some (Some st)
  end.
Proof.
  intros Hi Hac Hfold cs'. destruct (fold_settled moot founder ops st Hfold) as [Hm Hn]. pose proof (apply_cases moot st o Hm) as Hap.
  pose proof (sort_by_key_sorted ca_hash (omap (cand moot) ops)) as Hs. pose proof (sort_by_key_sorted ca_hash (omap (cand moot) (o :: ops))) as Hs'.
  assert (cand moot o = None → fold_ops moot founder (o :: ops) = Some (Some st)) as Hnot.
  { intros Hc. rw -Hfold. unfold constitution_fold. cbn [omap list_omap]. by rw Hc. }
  destruct (apply' st o) as [st'|err]; [|destruct err; try done; try by apply Hnot].
  - destruct Hap as (co & r & rh & t & Hco & Hev & Hel & Hf & Hst' & Hh). pose proof (candidates_cons moot ops o co Hco) as Hmem.
    destruct (fold_goes_on moot founder ops o co st r rh t Hi Hac Hfold Hco Hev) as (st'' & Hf' & Hset). exists st''. split; [done|].
    pose proof (founder_accepts _ cs' co st r rh Hs Hs' Hmem Hn Hel Hf) as Ha. fold cs' in Hset. inversion Hset as [? Hx|? a ? Ha' Hset']; subst; [rw Ha in Hx; done|].
    rw Ha in Ha'. injection Ha' as <-. split; [done|]. intros Hnone. inversion Hset' as [|? a ? Ha' _]; subst; [done|]. exfalso.
    apply accepted_names in Ha' as (c & r' & rh' & t' & _ & Hc & He & _); [|done]. apply Hmem in Hc as [->|Hc]; [|by apply (Hnone c r' rh' t')].
    destruct Hac as [rank Hrank]. assert (co ∈ cs') as Hin by (apply Hmem; by left). cbn [amend co_revision] in He. rw Hf in He. cbn [is_quorum] in He.
    destruct (Hrank co _ r' rh' t' Hin He). lia.
  - destruct Hap as (co & r & rh & t & Hco & Hev & Hel). destruct (fold_goes_on moot founder ops o co st r rh t Hi Hac Hfold Hco Hev) as (st'' & -> & Hset).
    do 2 f_equal. assert (accepted_amendment st cs' = None) as Ha; [|fold cs' in Hset; inversion Hset as [|? a ? Ha']; subst; [done|rw Ha in Ha'; done]]. rw -Hn. symmetry.
    pose proof (candidates_cons moot ops o co Hco) as Hmem. pose proof (candidates_inj moot (o :: ops) Hi) as Hi'. apply accepted_ext; [done..| |].
    + intros c c' Hc Hc'. apply Hi'; apply Hmem; by right.
    + intros c Hc. unfold cs'. rw Hmem. split; [by right|]. intros [->|?]; [by rw Hel in Hc|done].
  - destruct Hap as (co & r & rh & t & Hco & Hev). destruct (fold_goes_on moot founder ops o co st r rh t Hi Hac Hfold Hco Hev) as (st'' & -> & Hset).
    fold cs' in Hset. inversion Hset as [? Ha|? a ? Ha Hset']; subst; rw Ha; [done|by exists st''].
Qed.
End law.

Module Sample.
Record ToyOp : Type := mkToyOp { to_hash : Z; to_author : Z; to_moot : Z; to_event : ConstitutionEvent }.
Definition toy_verify (_ : ToyOp) : bool := true.
Definition toy_decode (o : ToyOp) : option ConstitutionEvent := Some (to_event o).
Definition toy_hash (bs : list Z) : Z := 1000 + fold_left (λ h b, (h * 31 + b) mod 1009) bs 7.
Definition toy_rules (r : ConstitutionRules) : list Z :=
  [match amendment r with FounderSigned => 0 | MemberQuorum _ k => k end; Z.of_nat (size (checkpoint_signers r))].
Definition toy_pair (a b : Digest) : list Z := dg_bytes a ++ dg_bytes b.

Abbreviation toy_fold := (constitution_fold toy_verify toy_decode to_hash to_author to_moot toy_hash toy_rules toy_pair).
Abbreviation toy_apply := (apply_op toy_verify toy_decode to_hash to_author to_moot toy_hash toy_rules).
Abbreviation toy_candidates ops := (sort_by_key ca_hash (omap (candidate toy_verify toy_decode to_hash to_author to_moot toy_hash toy_rules 63) ops)).

Definition ann : Z := 1.
Definition bob : Z := 2.
Definition cat : Z := 3.
Definition dan : Z := 4.
Definition start : ConstitutionRules := founder_only ann.
Definition shared : ConstitutionRules :=
  mkRules (MemberQuorum {[bob; cat; dan]} 2) {[ann]} (OpenWithFloor GateConfig_default) ∅ TulpaRules_default.
Definition opened : ConstitutionRules :=
  mkRules (MemberQuorum {[bob; cat; dan]} 2) {[ann; bob]} (OpenWithFloor GateConfig_default) ∅ TulpaRules_default.

Definition genesis : ToyOp := mkToyOp 10 ann 63 (genesis_event toy_hash toy_rules 63 ann None None start 1).
Definition share : ToyOp := mkToyOp 20 ann 63 (amended_event toy_hash toy_rules (p2panda_operation 10) shared 2).
Definition signed (h a : Z) : ToyOp := mkToyOp h a 63 (amended_event toy_hash toy_rules (p2panda_operation 20) opened 3).
Definition intrusion : ToyOp := mkToyOp 15 9 63 (amended_event toy_hash toy_rules (p2panda_operation 10) (founder_only 9) 2).
Definition corpus : list ToyOp := [genesis; share; signed 31 bob; intrusion; signed 32 cat].

(** The revisions of the corpus in the order of their making. *)
Definition toy_rank (d : Digest) : nat := Z.to_nat (of_bytes (dg_bytes d)).

Lemma corpus_inj : op_hash_inj to_hash corpus.
Proof.
  intros o o' Ho Ho'. unfold corpus in *. repeat (apply elem_of_cons in Ho as [->|Ho]); try (by apply elem_of_nil in Ho);
    repeat (apply elem_of_cons in Ho' as [->|Ho']); try (by apply elem_of_nil in Ho'); done.
Qed.

Lemma corpus_acyclic : acyclic toy_hash toy_pair (toy_candidates corpus).
Proof.
  exists toy_rank. intros c previous r rh t Hc He. pose proof Hc as Hc'%list_elem_of_In.
  assert (forallb (λ c, match ca_event c with
     | Amended previous _ rh _ => Nat.ltb (toy_rank previous) (toy_rank (p2panda_operation (ca_hash c))) &&
         Nat.ltb (toy_rank previous) (toy_rank (quorum_revision toy_hash toy_pair previous rh))
     | _ => true end) (toy_candidates corpus) = true) as HF by (vm_compute; reflexivity).
  apply (proj1 (forallb_forall _ _) HF) in Hc' as Hx. rw He in Hx.
  apply andb_prop in Hx as [H1 H2]. exact (conj (proj1 (Nat.ltb_lt _ _) H1) (proj1 (Nat.ltb_lt _ _) H2)).
Qed.

Lemma constitution_order_independent_witness :
  toy_fold 63 ann corpus = toy_fold 63 ann (reverse corpus) ∧
  (λ st, size (checkpoint_signers (co_rules st))) <$> mjoin (toy_fold 63 ann corpus) = Some 2%nat.
Proof.
  split; [|by vm_compute].
  apply (constitution_order_independent toy_verify toy_decode to_hash to_author to_moot toy_hash toy_rules toy_pair 63 ann
    corpus (reverse corpus) corpus_inj). intros o. by rw elem_of_reverse.
Defined.

Lemma constitution_fold_lawful_witness :
  ∃ st, toy_fold 63 ann corpus = Some (Some st) ∧ lawful toy_hash toy_pair 63 ann (toy_candidates corpus) st.
Proof.
  destruct (constitution_fold_lawful toy_verify toy_decode to_hash to_author to_moot toy_hash toy_rules toy_pair 63 ann
    corpus corpus_acyclic) as (res & Hr & Hres).
  destruct res as [st|]; [exists st; split; [exact Hr|exact (proj1 Hres)]|].
  exfalso. vm_compute in Hr. discriminate.
Defined.

Lemma outsiders_have_no_say_witness :
  toy_fold 63 ann [genesis; share; signed 31 bob; signed 32 cat] = toy_fold 63 ann corpus.
Proof.
  refine (outsiders_have_no_say toy_verify toy_decode to_hash to_author to_moot toy_hash toy_rules toy_pair 63 ann
    corpus 9 corpus_inj corpus_acyclic _ ltac:(done)).
  intros c E k Hc He. assert (forallb (λ c, match amendment (event_rules (ca_event c)) with
    | MemberQuorum E _ => bool_decide (9 ∉ E) | _ => true end) (toy_candidates corpus) = true) as HF by (vm_compute; reflexivity).
  apply list_elem_of_In in Hc. apply (proj1 (forallb_forall _ _) HF) in Hc. rw He in Hc.
  exact (bool_decide_eq_true_1 _ Hc).
Defined.

Definition at_share : Constitution := mkConstitution 63 ann None None shared (p2panda_operation 20).

Lemma live_apply_is_the_fold_witness :
  toy_apply (mkConstitution 63 ann None None start (p2panda_operation 10)) share = Ok at_share ∧
  toy_fold 63 ann [share; genesis] = Some (Some at_share).
Proof.
  assert (toy_apply (mkConstitution 63 ann None None start (p2panda_operation 10)) share = Ok at_share) as Hap by (vm_compute; reflexivity).
  apply (conj Hap).
  assert (op_hash_inj to_hash [share; genesis]) as Hinj by (intros o o' Ho Ho'; apply corpus_inj; unfold corpus; set_solver).
  assert (acyclic toy_hash toy_pair (toy_candidates [share; genesis])) as Hac.
  { apply (acyclic_subset toy_hash toy_pair (toy_candidates corpus)); [|apply corpus_acyclic].
    intros c (o & Ho & Hc)%elem_of_candidates. apply elem_of_candidates. exists o. split; [|done]. unfold corpus. set_solver. }
  pose proof (live_apply_is_the_fold toy_verify toy_decode to_hash to_author to_moot toy_hash toy_rules toy_pair 63 ann
    [genesis] share (mkConstitution 63 ann None None start (p2panda_operation 10)) Hinj Hac ltac:(vm_compute; reflexivity)) as Hx.
  cbv zeta in Hx. rw Hap in Hx. destruct Hx as (st'' & Hf & _ & Hend). rw Hend in Hf; [exact Hf|].
  intros c r rh t (o & ->%list_elem_of_singleton & Hc)%elem_of_candidates He. vm_compute in Hc. injection Hc as <-. discriminate He.
Defined.

(** A live peer that moved to the founder's amendment 20 calls the founder's other
    amendment 12 stale; a fold of all three operations follows 12. *)
Definition rival : ToyOp := mkToyOp 12 ann 63 (amended_event toy_hash toy_rules (p2panda_operation 10) opened 2).
Example stale_sibling_moves_fold :
  toy_fold 63 ann [share; genesis] = Some (Some at_share) ∧ toy_apply at_share rival = Err StaleRevision ∧
  co_revision <$> mjoin (toy_fold 63 ann [rival; share; genesis]) = Some (p2panda_operation 12).
Proof. vm_compute. split; [reflexivity|]. split; reflexivity. Qed.

Lemma late_signed c r rh :
  c ∈ toy_candidates (signed 33 dan :: corpus) → eligible at_share c = Some (r, rh) →
  r = opened ∧ rh = rules_digest toy_hash toy_rules opened.
Proof.
  intros (o & Ho & Hc)%elem_of_candidates (t & He & _)%eligible_Some. unfold corpus in Ho.
  repeat (apply elem_of_cons in Ho as [->|Ho]); [..|by apply elem_of_nil in Ho]; vm_compute in Hc; injection Hc as <-;
    cbn [ca_event] in He; first [by injection He as <- <- _|exfalso; discriminate He|idtac].
Qed.

Lemma majority_quorum_stable_witness :
  ∃ a', accepted_amendment at_share (toy_candidates (signed 33 dan :: corpus)) = Some a' ∧
    co_rules (amend toy_hash toy_pair at_share a') = opened.
Proof.
  destruct (majority_quorum_stable toy_hash toy_pair at_share (toy_candidates corpus) (toy_candidates (signed 33 dan :: corpus))
    {[bob; cat; dan]} 2 (31, opened, rules_digest toy_hash toy_rules opened)) as (a' & Ha & Heq).
  - apply sort_by_key_sorted.
  - apply sort_by_key_sorted.
  - intros c (o & Ho & Hc)%elem_of_candidates. apply elem_of_candidates. exists o. split; [by right|done].
  - done.
  - by vm_compute.
  - intros x rh rh' (c & r & Hc & _ & He)%elem_of_supporters (c' & r' & Hc' & _ & He')%elem_of_supporters.
    rw (proj2 (late_signed c r rh Hc He)) (proj2 (late_signed c' r' rh' Hc' He')). reflexivity.
  - intros c c' r r' rh Hc Hc' He He'. rw (proj1 (late_signed c r rh Hc He)) (proj1 (late_signed c' r' rh Hc' He')). reflexivity.
  - by vm_compute.
  - exists a'. split; [exact Ha|]. by rw Heq.
Defined.
End Sample.
