(* ===== verification/MootDelegation.v ===== *)
(** Delegation beneath a moot's constitution
    (crates/moot/gemot/src/moot/{delegation,typed_authorization}.rs).

    Certificates of [Delegation] are accepted under the capability grants of the
    accepted [ConstitutionRules], parents first; a chain is live while nothing on
    it is revoked and its root is still granted.  [MootAuthority] presents this as
    an authority provider of the gate.

    The recursion of [chain_is_live] has no bound in the source; it runs here on
    the number of certificates, which is enough because parents arrive first.

    The theorems: the walk always ends and decides exactly the existence of a
    live chain; whatever is covered is covered by a constitutional grant; revoking
    a certificate or amending its root away ends everything beneath; and a peer
    petitioning through the gate stays inside a grant of the constitution. *)

From S2P Require Import Prelude Wire Capability Journal StableGraph GraphLog GraphSpec GraphReplay.
From S2P Require Import Digests Delegation DelegationTable Deadband Grant Gate Standing Constitution.

Local Open Scope Z_scope.

Definition MOOT_DELEGATION_DOMAIN : string := "moot".
Definition MOOT_ACT_ACTION : string := "act".

#[export] Instance CapabilityScope_eq_dec : EqDecision CapabilityScope.
Proof. solve_decision. Defined.
#[export] Instance DelegationCertificate_eq_dec : EqDecision DelegationCertificate.
Proof. solve_decision. Defined.
#[export] Instance DerivedKeyAttestation_eq_dec : EqDecision DerivedKeyAttestation.
Proof. solve_decision. Defined.
#[export] Instance SignedDelegationCertificate_eq_dec : EqDecision SignedDelegationCertificate.
Proof. solve_decision. Defined.

Inductive MootDelegationError : Type :=
| MdInvalidSignature | MdWrongMoot | MdUnknownRoot | MdUnknownParent | MdInactiveParent | MdEscalation
| MdIdentifierCollision | MdUnknownCertificate | MdWrongRevoker.

Record MootDelegations : Type := mkMootDelegations {
  md_certificates : gmap Z SignedDelegationCertificate;
  md_revoked : gset Z
}.
Definition delegations_new : MootDelegations := mkMootDelegations ∅ ∅.

Definition is_moot_scope (s : CapabilityScope) (moot_id : Z) : bool :=
  bool_decide (domain s = MOOT_DELEGATION_DOMAIN) && bool_decide (resource s = key_bytes moot_id).

Definition grant_root_scope (root : CapabilityGrant) (moot_id : Z) : CapabilityScope :=
  mkCapScope MOOT_DELEGATION_DOMAIN (key_bytes moot_id) (cg_path_prefix root) {[MOOT_ACT_ACTION]}.

Definition attenuates_root (c : DelegationCertificate) (root : CapabilityGrant) (moot_id : Z) : bool :=
  bool_decide (parent c = Root (cg_id root)) && bool_decide (issuer c = cg_subject root) &&
  scope_attenuates (cscope c) (grant_root_scope root moot_id) &&
  bool_decide (cg_not_before_ms root ≤ not_before_ms c) && expiry_within (c_expires_at_ms c) (cg_expires_at_ms root) &&
  bool_decide (0 < cg_delegation_depth root) && bool_decide (remaining_delegation_depth c < cg_delegation_depth root).

Section delegations.
Context {K : Type} `{Ed25519 K} (blake3 : list Z → Z).
Implicit Types (d : MootDelegations) (rules : ConstitutionRules) (s : SignedDelegationCertificate).

Fixpoint live_loop (fuel : nat) d (id : Z) rules (moot_id : Z) : option bool :=
  match fuel with
  | 0%nat => None
  | S fuel =>
      if bool_decide (id ∈ md_revoked d) then Some false
      else match md_certificates d !! id with
           | None => Some false
           | Some signed =>
               match parent (certificate signed) with
               | Root root_id =>
                   Some (match capability_grants rules !! root_id with
                         | Some root => attenuates_root (certificate signed) root moot_id
                         | None => false
                         end)
               | Certificate parent_id =>
                   match live_loop fuel d parent_id rules moot_id with
                   | Some true =>
                       Some (match md_certificates d !! parent_id with
                             | Some p => attenuates blake3 (certificate signed) (certificate p)
                             | None => false
                             end)
                   | r => r
                   end
               end
           end
  end.

Definition chain_is_live d (id : Z) rules (moot_id : Z) : option bool :=
  live_loop (S (size (md_certificates d))) d id rules moot_id.

(** [None]: the walk of a parent's chain did not end. *)
Definition accept_certificate d (moot_id : Z) rules s : option (MootDelegations * result MootDelegationError bool) :=
  if negb (certificate_verify s) then Some (d, Err MdInvalidSignature)
  else if negb (is_moot_scope (cscope (certificate s)) moot_id) then Some (d, Err MdWrongMoot)
  else
    let insert :=
      match md_certificates d !! certificate_id blake3 (certificate s) with
      | Some existing => (d, if bool_decide (existing = s) then Ok false else Err MdIdentifierCollision)
      | None => (mkMootDelegations (<[certificate_id blake3 (certificate s) := s]> (md_certificates d)) (md_revoked d), Ok true)
      end in
    match parent (certificate s) with
    | Root root_id =>
        match capability_grants rules !! root_id with
        | None => Some (d, Err MdUnknownRoot)
        | Some root => if negb (attenuates_root (certificate s) root moot_id) then Some (d, Err MdEscalation) else Some insert
        end
    | Certificate parent_id =>
        match md_certificates d !! parent_id with
        | None => Some (d, Err MdUnknownParent)
        | Some p =>
            match chain_is_live d parent_id rules moot_id with
            | None => None
            | Some false => Some (d, Err MdInactiveParent)
            | Some true =>
                if negb (attenuates blake3 (certificate s) (certificate p)) then Some (d, Err MdEscalation) else Some insert
            end
        end
    end.

Definition accept_revocation d (r : SignedDelegationRevocation) : MootDelegations * result MootDelegationError bool :=
  if negb (revocation_verify r) then (d, Err MdInvalidSignature)
  else match md_certificates d !! rv_certificate (revocation r) with
       | None => (d, Err MdUnknownCertificate)
       | Some target =>
           if bool_decide (issuer (certificate target) ≠ rv_issuer (revocation r)) ||
              bool_decide (cscope (certificate target) ≠ rv_scope (revocation r))
           then (d, Err MdWrongRevoker)
           else (mkMootDelegations (md_certificates d) ({[rv_certificate (revocation r)]} ∪ md_revoked d),
                 Ok (negb (bool_decide (rv_certificate (revocation r) ∈ md_revoked d))))
       end.

Definition moot_covers d (moot_id : Z) rules (subject_key : Z) (path : string) (at_ms : Z) : bool :=
  existsb (λ ic,
    bool_decide (subject (certificate ic.2) = subject_key) && is_moot_scope (cscope (certificate ic.2)) moot_id &&
    certificate_covers (certificate ic.2) path MOOT_ACT_ACTION at_ms &&
    match chain_is_live d ic.1 rules moot_id with Some b => b | None => false end) (bt_iter (md_certificates d)).

(** ** Projections and key epochs *)

Inductive MootDelegationEvent : Type :=
| Issued (s : SignedDelegationCertificate)
| Revoked (r : SignedDelegationRevocation).

Definition md_event_at_ms (e : MootDelegationEvent) : Z :=
  match e with Issued s => issued_at_ms (certificate s) | Revoked r => rv_at_ms (revocation r) end.
Definition md_event_verifies (e : MootDelegationEvent) : bool :=
  match e with Issued s => certificate_verify s | Revoked r => revocation_verify r end.
Definition md_event_scope (e : MootDelegationEvent) : CapabilityScope :=
  match e with Issued s => cscope (certificate s) | Revoked r => rv_scope (revocation r) end.

Record MootDelegationProjection : Type := mkProjection {
  pj_certificate : Z;
  pj_parent : DelegationParent;
  pj_issuer : Z;
  pj_subject : Z;
  pj_path_prefix : string;
  pj_actions : gset string;
  pj_not_before_ms : Z;
  pj_expires_at_ms : option Z;
  pj_remaining_delegation_depth : Z;
  directly_revoked : bool;
  active : bool
}.

Definition time_active (c : DelegationCertificate) (at_ms : Z) : bool :=
  bool_decide (not_before_ms c ≤ at_ms) && is_none_or (c_expires_at_ms c) (λ e, bool_decide (at_ms ≤ e)).

Definition projection d (moot_id : Z) rules (at_ms : Z) (ic : Z * SignedDelegationCertificate) : MootDelegationProjection :=
  let c := certificate ic.2 in
  mkProjection ic.1 (parent c) (issuer c) (subject c) (path_prefix (cscope c)) (actions (cscope c)) (not_before_ms c)
    (c_expires_at_ms c) (remaining_delegation_depth c) (bool_decide (ic.1 ∈ md_revoked d))
    (time_active c at_ms && match chain_is_live d ic.1 rules moot_id with Some b => b | None => false end).

Definition projections d (moot_id : Z) rules (at_ms : Z) : list MootDelegationProjection :=
  projection d moot_id rules at_ms <$> bt_iter (md_certificates d).

Record MootScopeKeyEpoch : Type := mkScopeEpoch {
  se_resource : list Z;
  se_path_prefix : string;
  se_epoch : Z;
  revoked_certificates : list Z
}.

Definition scope_key (s : SignedDelegationCertificate) : list Z * string :=
  (resource (cscope (certificate s)), path_prefix (cscope (certificate s))).

Definition by_scope_step d (m : gmap (list Z * string) (list Z)) (id : Z) : gmap (list Z * string) (list Z) :=
  match md_certificates d !! id with
  | None => m
  | Some signed => <[scope_key signed := default [] (m !! scope_key signed) ++ [id]]> m
  end.
Definition by_scope d : gmap (list Z * string) (list Z) :=
  fold_left (by_scope_step d) (merge_sort (≤) (elements (md_revoked d))) ∅.

(** The order of a [BTreeMap] keyed by bytes and a string. *)
Fixpoint bytes_ltb (a b : list Z) : bool :=
  match a, b with
  | _, [] => false
  | [], _ :: _ => true
  | x :: a, y :: b => (x <? y) || ((x =? y) && bytes_ltb a b)
  end.
Definition scope_le (a b : list Z * string * list Z) : Prop :=
  bytes_ltb a.1.1 b.1.1 = true ∨ (a.1.1 = b.1.1 ∧ string_le a.1.2 b.1.2).
#[export] Instance scope_le_dec : RelDecision scope_le.
Proof. intros a b. unfold scope_le. apply _. Defined.

Definition scope_key_epochs d : list MootScopeKeyEpoch :=
  (λ kl : list Z * string * list Z, mkScopeEpoch kl.1.1 kl.1.2 (Z.of_nat (length kl.2)) kl.2) <$>
  merge_sort scope_le (map_to_list (by_scope d)).

(** ** The typed seam (typed_authorization.rs) *)

Record MootAuthority : Type := mkMootAuthority {
  ma_delegations : MootDelegations;
  ma_rules : ConstitutionRules;
  ma_moot_id : Z;
  ma_now_ms : Z
}.

Definition moot_authority_covers (m : MootAuthority) (sub : Z) (needed : Cap) (mode : Mode) : bool :=
  match mode with
  | Delegate => false
  | _ => moot_covers (ma_delegations m) (ma_moot_id m) (ma_rules m) sub (cap_path needed) (ma_now_ms m)
  end.

#[local] Instance MootAuthority_provider : AuthorityProvider MootAuthority := moot_authority_covers.

(** [TypedMootAuthorization::inputs]'s capability answer; the membership facts
    pass through. *)
Definition typed_capability_covers (m : MootAuthority) (sub : Z) (capability_path : string) : bool :=
  match Cap_parse capability_path with
  | Ok cap => moot_covers (ma_delegations m) (ma_moot_id m) (ma_rules m) sub (cap_path cap) (ma_now_ms m)
  | Err _ => false
  end.

(** ** Delegations the interface builds *)

Inductive md_held : MootDelegations → Prop :=
| md_held_new : md_held delegations_new
| md_held_certificate d moot_id rules s d' r :
    md_held d → accept_certificate d moot_id rules s = Some (d', r) → md_held d'
| md_held_revocation d rv : md_held d → md_held (accept_revocation d rv).1.

(** [rooted m id n]: the certificate's parents are all in [m], [n] of them. *)
Inductive rooted (m : gmap Z SignedDelegationCertificate) : Z → nat → Prop :=
| rooted_root id s root : m !! id = Some s → parent (certificate s) = Root root → rooted m id 0
| rooted_child id s p n :
    m !! id = Some s → parent (certificate s) = Certificate p → rooted m p n → rooted m id (S n).

Lemma rooted_weaken m m' id n : m ⊆ m' → rooted m id n → rooted m' id n.
Proof.
  intros Hsub. induction 1 as [id s root Hm Hp|id s p n Hm Hp _ IH].
  - eapply rooted_root; [by eapply lookup_weaken|done].
  - eapply rooted_child; [by eapply lookup_weaken|done|done].
Qed.

Record md_ok d : Prop := {
  mo_key id s : md_certificates d !! id = Some s → certificate_id blake3 (certificate s) = id;
  mo_verified id s : md_certificates d !! id = Some s → certificate_verify s = true;
  mo_rooted id : is_Some (md_certificates d !! id) → ∃ n, rooted (md_certificates d) id n ∧ (n < size (md_certificates d))%nat;
  mo_revoked : md_revoked d ⊆ dom (md_certificates d)
}.

Lemma accept_certificate_cases d moot_id rules s d' r :
  accept_certificate d moot_id rules s = Some (d', r) →
  d' = d ∨
  certificate_verify s = true ∧ md_certificates d !! certificate_id blake3 (certificate s) = None ∧ r = Ok true ∧
  d' = mkMootDelegations (<[certificate_id blake3 (certificate s) := s]> (md_certificates d)) (md_revoked d) ∧
  match parent (certificate s) with
  | Root root_id => ∃ root, capability_grants rules !! root_id = Some root ∧ attenuates_root (certificate s) root moot_id = true
  | Certificate p => ∃ sp, md_certificates d !! p = Some sp ∧ chain_is_live d p rules moot_id = Some true ∧
      attenuates blake3 (certificate s) (certificate sp) = true
  end.
Proof.
  unfold accept_certificate. destruct (certificate_verify s); [cbn [negb]|intros [= <- <-]; by left].
  destruct (is_moot_scope (cscope (certificate s)) moot_id); [cbn [negb]|intros [= <- <-]; by left].
  set (id := certificate_id blake3 (certificate s)). destruct (parent (certificate s)) as [root_id|p].
  - destruct (capability_grants rules !! root_id) as [root|]; [|intros [= <- <-]; by left].
    destruct (attenuates_root (certificate s) root moot_id) eqn:Ea; [cbn [negb]|intros [= <- <-]; by left].
    destruct (md_certificates d !! id) as [existing|]; intros [= <- <-]; [by left|right]. split_and!; [done..|by exists root].
  - destruct (md_certificates d !! p) as [sp|]; [|intros [= <- <-]; by left].
    destruct (chain_is_live d p rules moot_id) as [[]|] eqn:El; [|intros [= <- <-]; by left|done].
    destruct (attenuates blake3 (certificate s) (certificate sp)) eqn:Ea; [cbn [negb]|intros [= <- <-]; by left].
    destruct (md_certificates d !! id) as [existing|]; intros [= <- <-]; [by left|right]. split_and!; [done..|by exists sp].
Qed.

Lemma accept_revocation_certificates d rv : md_certificates (accept_revocation d rv).1 = md_certificates d.
Proof. unfold accept_revocation. by repeat case_match. Qed.

Lemma accept_revocation_subset d rv :
  md_revoked d ⊆ dom (md_certificates d) → md_revoked (accept_revocation d rv).1 ⊆ dom (md_certificates d).
Proof.
  intros Hs. unfold accept_revocation. destruct (negb _); [done|]. destruct (md_certificates d !! _) eqn:E; [|done].
  destruct (_ || _); [done|]. cbn. apply elem_of_dom_2 in E. set_solver.
Qed.

Lemma md_held_ok d : md_held d → md_ok d.
Proof.
  induction 1 as [|d moot_id rules s d' r _ IH Ha|d rv _ [T1 T2 T3 T4]].
  - split; cbn; try (intros id s; by rw lookup_empty); [|set_solver]. intros id [s Hs]. by rw lookup_empty in Hs.
  - apply accept_certificate_cases in Ha as [->|(Hv & Hn & _ & -> & Hp)]; [done|]. destruct IH as [T1 T2 T3 T4].
    set (id := certificate_id blake3 (certificate s)) in *. split; cbn.
    + intros i s' [[<- <-]|[_ ?]]%lookup_insert_Some; [done|by apply T1].
    + intros i s' [[<- <-]|[_ ?]]%lookup_insert_Some; [done|by eapply T2].
    + intros i Hi. rw map_size_insert_None //. assert (md_certificates d ⊆ <[id := s]> (md_certificates d)) as Hsub by by apply insert_subseteq.
      destruct (decide (i = id)) as [->|Hne].
      * destruct (parent (certificate s)) as [root_id|p] eqn:Epar.
        -- exists 0%nat. split; [|lia]. eapply rooted_root; [apply lookup_insert_eq|done].
        -- destruct Hp as (sp & Hsp & _). destruct (T3 p) as (n & Hr & Hlt); [by eexists|]. exists (S n). split; [|lia].
           eapply rooted_child; [apply lookup_insert_eq|done|]. by eapply rooted_weaken.
      * rw lookup_insert_ne in Hi; [|done]. destruct (T3 i Hi) as (n & Hr & Hlt). exists n. split; [by eapply rooted_weaken|lia].
    + rw dom_insert_L. set_solver.
  - split; rw !accept_revocation_certificates; try done. apply (accept_revocation_subset d rv T4).
Qed.

(** ** Live chains *)

Inductive live_chain d rules (moot_id : Z) : Z → list SignedDelegationCertificate → Prop :=
| live_root id s root_id root :
    id ∉ md_revoked d → md_certificates d !! id = Some s → parent (certificate s) = Root root_id →
    capability_grants rules !! root_id = Some root → attenuates_root (certificate s) root moot_id = true →
    live_chain d rules moot_id id [s]
| live_link id s p sp l :
    id ∉ md_revoked d → md_certificates d !! id = Some s → parent (certificate s) = Certificate p →
    md_certificates d !! p = Some sp → attenuates blake3 (certificate s) (certificate sp) = true →
    live_chain d rules moot_id p l → live_chain d rules moot_id id (s :: l).

Lemma live_loop_spec fuel d id rules moot_id b :
  live_loop fuel d id rules moot_id = Some b → b = true ↔ ∃ l, live_chain d rules moot_id id l.
Proof.
  revert id b. induction fuel as [|fuel IH]; intros id b; [done|]. cbn [live_loop].
  destruct (bool_decide_reflect (id ∈ md_revoked d)) as [Hr|Hr].
  { intros [= <-]. split; [done|]. intros [l Hl]. by inversion Hl. }
  destruct (md_certificates d !! id) as [s|] eqn:Es; cycle 1.
  { intros [= <-]. split; [done|]. intros [l Hl]. inversion Hl; congruence. }
  destruct (parent (certificate s)) as [root_id|p] eqn:Ep.
  - intros [= <-]. destruct (capability_grants rules !! root_id) as [root|] eqn:Eg; (split; [try done|]).
    + intros Ha. exists [s]. by eapply live_root.
    + intros [l Hl]. inversion Hl as [? s' ri ro ? Hs' Hp' Hg'|? s' ? ? ? ? Hs' Hp']; subst.
      * assert (s' = s) as -> by congruence. assert (ri = root_id) as -> by congruence. by assert (ro = root) as -> by congruence.
      * assert (s' = s) as -> by congruence. congruence.
    + intros [l Hl]. inversion Hl as [? s' ri ro ? Hs' Hp' Hg'|? s' ? ? ? ? Hs' Hp']; subst;
        (assert (s' = s) as -> by congruence); congruence.
  - assert (∀ l, live_chain d rules moot_id id l → ∃ sp l', md_certificates d !! p = Some sp ∧
      attenuates blake3 (certificate s) (certificate sp) = true ∧ live_chain d rules moot_id p l') as Hinv.
    { intros l Hl. inversion Hl as [? s' ri ro ? Hs' Hp' Hg'|? s' p' sp l' ? Hs' Hp' Hsp Ha Hl']; subst;
        (assert (s' = s) as -> by congruence); [congruence|]. assert (p' = p) as -> by congruence. by exists sp, l'. }
    destruct (live_loop fuel d p rules moot_id) as [b'|] eqn:El; [|done]. specialize (IH p b' El). destruct b'.
    + intros [= <-]. destruct (proj1 IH eq_refl) as [l Hl]. destruct (md_certificates d !! p) as [sp|] eqn:Esp.
      * split; [intros Ha; exists (s :: l); by eapply live_link|]. intros [l' (sp' & ? & Hsp' & Ha & _)%Hinv]. congruence.
      * split; [done|]. intros [l' (sp' & ? & Hsp' & _)%Hinv]. congruence.
    + intros [= <-]. split; [done|]. intros [l (sp & l' & _ & _ & Hl')%Hinv]. apply IH. by exists l'.
Qed.

Lemma live_loop_total d id rules moot_id n fuel :
  rooted (md_certificates d) id n → (n < fuel)%nat → ∃ b, live_loop fuel d id rules moot_id = Some b.
Proof.
  intros Hr. revert fuel. induction Hr as [id s root Hm Hp|id s p n Hm Hp _ IH]; intros fuel Hf;
    (destruct fuel as [|fuel]; [lia|]); cbn [live_loop]; case_bool_decide; try by eexists.
  - rw Hm Hp. by eexists.
  - rw Hm Hp. destruct (IH fuel ltac:(lia)) as [b ->]. destruct b; by eexists.
Qed.

Lemma chain_is_live_spec d id rules moot_id :
  md_held d → ∃ b, chain_is_live d id rules moot_id = Some b ∧ (b = true ↔ ∃ l, live_chain d rules moot_id id l).
Proof.
  intros [_ _ Hr _]%md_held_ok. assert (∃ b, chain_is_live d id rules moot_id = Some b) as [b Hb].
  { unfold chain_is_live. destruct (md_certificates d !! id) as [s|] eqn:Es.
    - destruct (Hr id) as (n & Hn & Hlt); [by eexists|]. apply (live_loop_total d id rules moot_id n); [done|lia].
    - cbn [live_loop]. rw Es. case_bool_decide; by eexists. }
  exists b. split; [done|]. by apply (live_loop_spec _ d id rules moot_id b Hb).
Qed.

(** C28. The unbounded walk of a delegation chain always ends.  On every
    set of delegations the interface builds, under whatever sequence of
    constitutions, [chain_is_live] returns, and says yes exactly when there is an
    unrevoked chain, each certificate narrowing the one above it, whose top
    narrows a grant of the current constitution; so accepting a certificate
    returns too. *)
Theorem chain_liveness_decided d id rules moot_id (Hd : md_held d) :
  (∃ b, chain_is_live d id rules moot_id = Some b ∧ (b = true ↔ ∃ l, live_chain d rules moot_id id l)) ∧
  ∀ s, is_Some (accept_certificate d moot_id rules s).
Proof.
  split; [by apply chain_is_live_spec|]. intros s. unfold accept_certificate.
  destruct (negb _); [by eexists|]. destruct (negb _); [by eexists|]. destruct (parent (certificate s)) as [root_id|p].
  - destruct (capability_grants rules !! root_id); [|by eexists]. destruct (negb _); by eexists.
  - destruct (md_certificates d !! p); [|by eexists]. destruct (chain_is_live_spec d p rules moot_id Hd) as (b & -> & _).
    destruct b; [|by eexists]. destruct (negb _); by eexists.
Qed.

(** ** Containment *)

Lemma attenuates_root_true c root moot_id :
  attenuates_root c root moot_id = true →
  parent c = Root (cg_id root) ∧ issuer c = cg_subject root ∧
  path_covers (cg_path_prefix root) (path_prefix (cscope c)) = true ∧ cg_path_prefix root ≠ "" ∧
  cg_not_before_ms root ≤ not_before_ms c ∧ expiry_within (c_expires_at_ms c) (cg_expires_at_ms root) = true ∧
  remaining_delegation_depth c < cg_delegation_depth root.
Proof.
  unfold attenuates_root. generalize (scope_attenuates_true (cscope c) (grant_root_scope root moot_id)).
  assert (scope_attenuates (cscope c) (grant_root_scope root moot_id) = true → cg_path_prefix root ≠ "") as Hne.
  { unfold scope_attenuates. generalize (path_covers (path_prefix (grant_root_scope root moot_id)) (path_prefix (cscope c))).
    generalize (scope_is_well_formed (cscope c)). intros b1 b2. destruct (scope_is_well_formed (grant_root_scope root moot_id)) eqn:Ew; [|by rw andb_false_r].
    intros _. unfold scope_is_well_formed in Ew. by apply andb_prop in Ew as [[[_ Ew%bool_decide_eq_true]%andb_prop _]%andb_prop _]. }
  revert Hne. generalize (scope_attenuates (cscope c) (grant_root_scope root moot_id)) (expiry_within (c_expires_at_ms c) (cg_expires_at_ms root)).
  intros b1 b2 Hne Hs. rw !andb_true_iff !bool_decide_eq_true. intros ((((((? & ?) & Hb) & ?) & ?) & ?) & ?).
  destruct (Hs Hb) as (_ & _ & Hp & _). by auto 10.
Qed.

(** The grant at the top of a live chain covers what the bottom covers. *)
Lemma live_chain_grant d rules moot_id id l s path at_ms :
  live_chain d rules moot_id id l → md_certificates d !! id = Some s →
  certificate_covers (certificate s) path MOOT_ACT_ACTION at_ms = true →
  ∃ r g, last l = Some r ∧ parent (certificate r) = Root (cg_id g) ∧ issuer (certificate r) = cg_subject g ∧
    capability_grants rules !! cg_id g = Some g ∧ cap_grant_covers g (cg_subject g) path at_ms = true ∧
    remaining_delegation_depth (certificate s) + Z.of_nat (length l) ≤ cg_delegation_depth g.
Proof.
  intros Hl. revert s. induction Hl as [id s' root_id root Hr Hs' Hp Hg Ha|id s' p sp l Hr Hs' Hp Hsp Ha Hl IH]; intros s Hs Hc;
    (assert (s' = s) as -> by congruence).
  - apply attenuates_root_true in Ha as (Hp' & Hi & Hpc & Hne & Hnb & Hex & Hdep). exists s, root.
    assert (root_id = cg_id root) as -> by congruence. split_and!; [done..| |cbn; lia].
    apply certificate_covers_true in Hc as (_ & Hn & He & Hpath & _). unfold cap_grant_covers.
    rw bool_decide_eq_true_2 // bool_decide_eq_false_2 // bool_decide_eq_true_2; [|lia]. cbn [negb andb].
    apply andb_true_intro. split; [|by eapply path_covers_trans]. unfold expiry_within, is_none_or in *.
    destruct (cg_expires_at_ms root) as [e|]; [|done]. destruct (c_expires_at_ms (certificate s)) as [e'|]; [|done].
    apply bool_decide_eq_true in Hex, He. rw !bool_decide_eq_true_2 //; lia.
  - pose proof (attenuates_depth blake3 _ _ Ha) as Hdep. destruct (attenuates_covers blake3 _ _ _ _ _ Ha Hc) as (Hcp & _).
    destruct (IH sp Hsp Hcp) as (r & g & Hlast & Hrest). exists r, g. split; [|cbn [length]; intuition lia].
    destruct l; [done|exact Hlast].
Qed.

Lemma moot_covers_true d moot_id rules sub path at_ms :
  moot_covers d moot_id rules sub path at_ms = true ↔
  ∃ id s, md_certificates d !! id = Some s ∧ subject (certificate s) = sub ∧ is_moot_scope (cscope (certificate s)) moot_id = true ∧
    certificate_covers (certificate s) path MOOT_ACT_ACTION at_ms = true ∧ chain_is_live d id rules moot_id = Some true.
Proof.
  unfold moot_covers. rw existsb_exists. split.
  - intros ([id s] & Hin & Hb). apply list_elem_of_In, elem_of_bt_iter in Hin. exists id, s. cbn [fst snd] in Hb.
    destruct (bool_decide_reflect (subject (certificate s) = sub)); [|done].
    destruct (is_moot_scope (cscope (certificate s)) moot_id); [|done].
    destruct (certificate_covers (certificate s) path MOOT_ACT_ACTION at_ms); [|done].
    by destruct (chain_is_live d id rules moot_id) as [[]|].
  - intros (id & s & Hs & <- & Hm & Hc & Hl). exists (id, s). split; [by apply list_elem_of_In, elem_of_bt_iter|].
    cbn [fst snd]. by rw bool_decide_eq_true_2 // Hm Hc Hl.
Qed.

(** Delegated authority in a moot is constitutional authority.
    Whatever the delegations say an identity may do at a time, some grant of the
    current constitution covers that path at that time, and a chain of verified
    certificates leads from the grant's holder to that identity, no longer than
    the depth the grant allows less what the last holder may still delegate. *)
Theorem moot_authority_contained d moot_id rules sub path at_ms (Hd : md_held d)
    (Hc : moot_covers d moot_id rules sub path at_ms = true) :
  ∃ id s l r g, md_certificates d !! id = Some s ∧ subject (certificate s) = sub ∧ live_chain d rules moot_id id l ∧
    Forall (λ c, certificate_verify c = true) l ∧ last l = Some r ∧ issuer (certificate r) = cg_subject g ∧
    capability_grants rules !! cg_id g = Some g ∧ cap_grant_covers g (cg_subject g) path at_ms = true ∧
    remaining_delegation_depth (certificate s) + Z.of_nat (length l) ≤ cg_delegation_depth g.
Proof.
  apply moot_covers_true in Hc as (id & s & Hs & Hsub & _ & Hcov & Hlive).
  destruct (chain_is_live_spec d id rules moot_id Hd) as (b & Hb & Hl). assert (b = true) as -> by congruence.
  destruct (proj1 Hl eq_refl) as [l Hch]. destruct (live_chain_grant _ _ _ _ _ _ _ _ Hch Hs Hcov) as (r & g & Hlast & _ & Hi & Hg & Hgc & Hdep).
  exists id, s, l, r, g. split_and!; try done. apply md_held_ok in Hd as [_ Hv _ _]. clear -Hch Hv. induction Hch; constructor; eauto.
Qed.

(** ** Revocation *)

Lemma live_chain_revoke d d' rules moot_id r id l :
  (∀ i s, md_certificates d !! i = Some s → certificate_id blake3 (certificate s) = i) →
  md_certificates d' = md_certificates d → md_revoked d' = {[r]} ∪ md_revoked d →
  live_chain d' rules moot_id id l ↔
  live_chain d rules moot_id id l ∧ Forall (λ c, certificate_id blake3 (certificate c) ≠ r) l.
Proof.
  intros Hkey Hc Hr. split.
  - induction 1 as [id s root_id root Hn Hs Hp Hg Ha|id s p sp l Hn Hs Hp Hsp Ha _ [IH1 IH2]];
      rw Hr in Hn; rw Hc in Hs; apply not_elem_of_union in Hn as [Hne%not_elem_of_singleton Hn]; pose proof (Hkey _ _ Hs).
    + split; [by eapply live_root|]. constructor; [congruence|constructor].
    + rw Hc in Hsp. split; [by eapply live_link|]. constructor; [congruence|done].
  - intros [Hl HF]. induction Hl as [id s root_id root Hn Hs Hp Hg Ha|id s p sp l Hn Hs Hp Hsp Ha Hl IH];
      apply Forall_cons in HF as [Hne HF]; rw (Hkey _ _ Hs) in Hne.
    + eapply live_root; rw ?Hc ?Hr; try done. by apply not_elem_of_union, conj; [apply not_elem_of_singleton|].
    + eapply live_link; rw ?Hc ?Hr; try done; [by apply not_elem_of_union, conj; [apply not_elem_of_singleton|]|by apply IH].
Qed.

Lemma live_chain_ungrant d rules moot_id g id l :
  live_chain d (revoke_grant rules g).2 moot_id id l ↔
  live_chain d rules moot_id id l ∧ ∀ r, last l = Some r → parent (certificate r) ≠ Root g.
Proof.
  split.
  - induction 1 as [id s root_id root Hn Hs Hp Hg Ha|id s p sp l Hn Hs Hp Hsp Ha Hl [IH1 IH2]].
    + cbn in Hg. apply lookup_delete_Some in Hg as [Hne Hg]. split; [by eapply live_root|]. intros r [= <-]. congruence.
    + split; [by eapply live_link|]. intros r Hlast. apply IH2. by destruct Hl.
  - intros [Hl HF]. induction Hl as [id s root_id root Hn Hs Hp Hg Ha|id s p sp l Hn Hs Hp Hsp Ha Hl IH].
    + eapply live_root; try done. cbn. rw lookup_delete_ne //. intros ->. by apply (HF s).
    + eapply live_link; try done. apply IH. intros r Hlast. apply HF. by destruct Hl.
Qed.

(** Withdrawal reaches everything beneath and nothing else.  An
    accepted revocation ends exactly the chains that pass through the revoked
    certificate; an amendment that removes a grant ends exactly the chains that
    rest on that grant.  A revocation that is refused changes nothing, and one is
    accepted only from the issuer the target names. *)
Theorem moot_revocation_cascades d rules moot_id id l (Hd : md_held d) :
  (∀ rv d' b, accept_revocation d rv = (d', Ok b) →
    (∃ s, md_certificates d !! rv_certificate (revocation rv) = Some s ∧ issuer (certificate s) = rv_issuer (revocation rv)) ∧
    (live_chain d' rules moot_id id l ↔ live_chain d rules moot_id id l ∧
      Forall (λ c, certificate_id blake3 (certificate c) ≠ rv_certificate (revocation rv)) l)) ∧
  (∀ rv d' e, accept_revocation d rv = (d', Err e) → d' = d) ∧
  (∀ g, live_chain d (revoke_grant rules g).2 moot_id id l ↔ live_chain d rules moot_id id l ∧
    ∀ r, last l = Some r → parent (certificate r) ≠ Root g).
Proof.
  apply md_held_ok in Hd as [Hk _ _ _]. split_and!; [| |intros g; apply live_chain_ungrant]; intros rv d' b; unfold accept_revocation;
    (destruct (negb _); [by intros [= <- _]|]); (destruct (md_certificates d !! _) as [s|] eqn:Es; [|by intros [= <- _]]).
  - destruct (bool_decide_reflect (issuer (certificate s) ≠ rv_issuer (revocation rv))) as [|Hi]; [by intros [=]|].
    destruct (bool_decide _); [by intros [=]|]. intros [= <- _]. split; [|by apply live_chain_revoke].
    exists s. split; [done|]. by apply dec_stable.
  - destruct (_ || _); [by intros [= <- _]|by intros [=]].
Qed.

(** ** What an inspector sees *)

Lemma live_chain_scope d rules moot_id id l s :
  live_chain d rules moot_id id l → md_certificates d !! id = Some s → is_moot_scope (cscope (certificate s)) moot_id = true.
Proof.
  intros Hl. revert s. induction Hl as [id s' root_id root _ Hs' _ _ Ha|id s' p sp l _ Hs' _ Hsp Ha _ IH]; intros s Hs;
    (assert (s' = s) as -> by congruence); unfold is_moot_scope.
  - unfold attenuates_root in Ha. revert Ha. pose proof (scope_attenuates_true (cscope (certificate s)) (grant_root_scope root moot_id)) as Hat.
    generalize (expiry_within (c_expires_at_ms (certificate s)) (cg_expires_at_ms root)). intros b.
    destruct (scope_attenuates (cscope (certificate s)) (grant_root_scope root moot_id)); [|by rw andb_false_r !andb_false_l].
    destruct (Hat eq_refl) as (-> & -> & _). intros _. cbn [domain resource grant_root_scope]. by rw !bool_decide_eq_true_2.
  - apply attenuates_true in Ha as (_ & _ & _ & _ & (-> & -> & _)%scope_attenuates_true & _). by apply IH.
Qed.

Lemma certificate_verify_wf s : certificate_verify s = true → is_well_formed (certificate s) = true.
Proof. unfold certificate_verify. by destruct (is_well_formed (certificate s)). Qed.

(** The inspection view is the decision.  An identity may act
    on a path at a time exactly when the projections for that time list an active
    certificate for it whose prefix covers the path and whose actions include
    acting; the domain, moot and well-formedness tests of the decision add
    nothing on certificates that were accepted. *)
Theorem projections_explain_coverage d moot_id rules sub path at_ms (Hd : md_held d) :
  moot_covers d moot_id rules sub path at_ms = true ↔
  ∃ p, p ∈ projections d moot_id rules at_ms ∧ active p = true ∧ pj_subject p = sub ∧
    path_covers (pj_path_prefix p) path = true ∧ MOOT_ACT_ACTION ∈ pj_actions p.
Proof.
  rw moot_covers_true. unfold projections. split.
  - intros (id & s & Hs & <- & _ & Hc & Hl). exists (projection d moot_id rules at_ms (id, s)).
    apply certificate_covers_true in Hc as (_ & Hn & He & Hp & Ha). split_and!; try done.
    + apply list_elem_of_fmap. exists (id, s). split; [done|]. by apply elem_of_bt_iter.
    + cbn [active projection fst snd]. unfold time_active. by rw Hl He bool_decide_eq_true_2.
  - intros (p & ([id s] & -> & Hs%elem_of_bt_iter)%list_elem_of_fmap & Ha & Hsub & Hp & Hact). exists id, s.
    cbn [active projection fst snd pj_subject pj_path_prefix pj_actions] in *.
    destruct (chain_is_live_spec d id rules moot_id Hd) as (b & Hb & Hl). rw Hb in Ha |- *. apply andb_prop in Ha as [Ht ->].
    destruct (proj1 Hl eq_refl) as [l Hch]. unfold time_active in Ht. apply andb_prop in Ht as [Ht%bool_decide_eq_true He].
    apply md_held_ok in Hd as [_ Hv _ _]. split_and!; try done; [by eapply live_chain_scope|].
    apply certificate_covers_true. split_and!; try done. by eapply certificate_verify_wf, Hv.
Qed.

(** ** Key epochs *)

Definition scope_of d (id : Z) : option (list Z * string) := scope_key <$> md_certificates d !! id.

(** The revoked certificates of a scope. *)
Definition revoked_in d (k : list Z * string) : gset Z := filter (λ id, scope_of d id = Some k) (md_revoked d).

Lemma by_scope_fold d ids m k :
  fold_left (by_scope_step d) ids m !! k =
  match filter (λ id, scope_of d id = Some k) ids with [] => m !! k | f => Some (default [] (m !! k) ++ f) end.
Proof.
  revert m. induction ids as [|id ids IH]; intros m; [done|]. cbn [fold_left]. rw IH. unfold by_scope_step. rw filter_cons.
  destruct (decide (scope_of d id = Some k)) as [Hk|Hk]; unfold scope_of in Hk; destruct (md_certificates d !! id) as [s|]; try done; cbn in Hk.
  - injection Hk as ->. rw lookup_insert_eq. destruct (filter _ ids); [done|]. cbn. by rw -app_assoc.
  - rw lookup_insert_ne //. congruence.
Qed.

Lemma by_scope_spec d k ids :
  by_scope d !! k = Some ids ↔
  ids ≠ [] ∧ ids = filter (λ id, scope_of d id = Some k) (merge_sort (≤) (elements (md_revoked d))).
Proof.
  unfold by_scope. rw by_scope_fold lookup_empty. destruct (filter _ _) as [|x f]; cbn.
  - split; [done|]. by intros [? ->].
  - split; [by intros [= <-]|]. by intros [_ ->].
Qed.

Lemma Sorted_filter (P : Z → Prop) `{∀ x, Decision (P x)} (l : list Z) : Sorted (≤) l → Sorted (≤) (filter P l).
Proof.
  intros Hs%(Sorted_StronglySorted _). apply StronglySorted_Sorted. induction Hs as [|x l Hs IH HF]; [constructor|].
  rw filter_cons. destruct (decide (P x)); [|done]. constructor; [done|]. rw !Forall_forall in HF |- *.
  intros y [_ Hy]%list_elem_of_filter. by apply HF.
Qed.

Lemma sorted_revoked_in d k :
  filter (λ id, scope_of d id = Some k) (merge_sort (≤) (elements (md_revoked d))) ≡ₚ elements (revoked_in d k).
Proof.
  rw merge_sort_Permutation. apply NoDup_Permutation; [apply NoDup_filter, NoDup_elements|apply NoDup_elements|].
  intros x. unfold revoked_in. by rw list_elem_of_filter !elem_of_elements elem_of_filter.
Qed.

Lemma revoked_in_revocation d rv d' b :
  accept_revocation d rv = (d', Ok b) →
  ∃ s, md_certificates d !! rv_certificate (revocation rv) = Some s ∧
    b = negb (bool_decide (rv_certificate (revocation rv) ∈ md_revoked d)) ∧
    ∀ k, revoked_in d' k = if decide (k = scope_key s) then {[rv_certificate (revocation rv)]} ∪ revoked_in d k else revoked_in d k.
Proof.
  unfold accept_revocation. destruct (negb _); [by intros [=]|]. destruct (md_certificates d !! _) as [s|] eqn:Es; [|by intros [=]].
  destruct (_ || _); [by intros [=]|]. intros [= <- <-]. exists s. split_and!; [done|done|]. intros k. apply set_eq. intros x.
  unfold revoked_in, scope_of. rw elem_of_filter. cbn [md_certificates md_revoked]. destruct (decide (k = scope_key s)) as [->|Hne].
  - rw !elem_of_union elem_of_filter !elem_of_singleton. split; [naive_solver|]. intros [->|]; [|naive_solver]. rw Es. naive_solver.
  - rw elem_of_filter elem_of_union elem_of_singleton. split; [|naive_solver]. intros [Hk [->|]]; [|done]. rw Es in Hk. cbn in Hk. congruence.
Qed.

(** Key epochs count revocations and only grow.  The reported
    epochs are, for each scope with a revoked certificate, the number of distinct
    revoked certificates of that scope with their ids in order.  A first
    revocation advances its own scope's count by one and no other; a repeated one,
    a refused one and a new certificate advance nothing. *)
Theorem scope_key_epochs_exact d (Hd : md_held d) :
  (∀ e, e ∈ scope_key_epochs d ↔
    let k := (se_resource e, se_path_prefix e) in
    se_epoch e = Z.of_nat (size (revoked_in d k)) ∧ 0 < se_epoch e ∧
    revoked_certificates e ≡ₚ elements (revoked_in d k) ∧ Sorted (≤) (revoked_certificates e)) ∧
  (∀ rv d' b, accept_revocation d rv = (d', Ok b) → ∃ s,
    md_certificates d !! rv_certificate (revocation rv) = Some s ∧
    ∀ k, size (revoked_in d' k) = (size (revoked_in d k) + if b && bool_decide (k = scope_key s) then 1 else 0)%nat) ∧
  (∀ moot_id rules s d' r k, accept_certificate d moot_id rules s = Some (d', r) → revoked_in d' k = revoked_in d k).
Proof.
  apply md_held_ok in Hd as [_ _ _ Hr]. split_and!.
  - intros [res pre n ids]. unfold scope_key_epochs. cbn. rw list_elem_of_fmap.
    assert (∀ k l, (k, l) ∈ merge_sort scope_le (map_to_list (by_scope d)) ↔ by_scope d !! k = Some l) as Hin.
    { intros k l. by rw merge_sort_Permutation elem_of_map_to_list. }
    unfold size, set_size. cbn. rw -(sorted_revoked_in d (res, pre)). split.
    + intros ([[res' pre'] l] & [= -> -> -> ->] & (Hne & ->)%Hin%by_scope_spec). cbn in *. split_and!; [done| |done|].
      * destruct (filter _ _); [done|cbn; lia].
      * by apply Sorted_filter, Sorted_merge_sort, _.
    + intros (-> & Hlt & Hp & Hso). exists (res, pre, ids). assert (ids = filter (λ id, scope_of d id = Some (res, pre)) (merge_sort (≤) (elements (md_revoked d)))) as Heq.
      { apply (Sorted_unique (≤)); [done| |done]. by apply Sorted_filter, Sorted_merge_sort, _. }
      split; [by rw -Heq|]. apply Hin, by_scope_spec. split; [|done]. intros ->. rw -Heq in Hlt. cbn in Hlt. lia.
  - intros rv d' b (s & Hs & -> & Hk)%revoked_in_revocation. exists s. split; [done|]. intros k. rw Hk.
    assert (rv_certificate (revocation rv) ∈ revoked_in d (scope_key s) ↔ rv_certificate (revocation rv) ∈ md_revoked d) as Hi.
    { unfold revoked_in, scope_of. rw elem_of_filter Hs. naive_solver. }
    destruct (decide (k = scope_key s)) as [->|Hne]; [|rw (bool_decide_eq_false_2 (k = _)) // andb_false_r Nat.add_0_r //].
    rw (bool_decide_eq_true_2 (scope_key s = _)) // andb_true_r. case_bool_decide as Hm; cbn [negb].
    + rw subseteq_union_1_L; [by rw Nat.add_0_r|]. by apply singleton_subseteq_l, Hi.
    + rw size_union; [by rw size_singleton Nat.add_comm|]. by apply disjoint_singleton_l; rw Hi.
  - intros moot_id rules s d' r k [->|(_ & Hn & _ & -> & _)]%accept_certificate_cases; [done|]. apply set_eq. intros x.
    unfold revoked_in, scope_of. rw !elem_of_filter. cbn [md_certificates md_revoked]. split; intros [Hs Hx]; (split; [|done]).
    all: apply Hr, elem_of_dom in Hx as [c Hx]; (rw lookup_insert_ne in Hs || rw lookup_insert_ne); try done; intros <-; congruence.
Qed.

(** ** A moot behind the gate *)

Section gate.
Context {G : Type → Type → Type} `{StableGraph G} {E V : Type}.

(** C6. A peer that petitions on the strength of moot delegations
    writes inside a constitutional grant.  When the gate, asking a moot's
    authority, commits a peer's petition, the peer holds a certificate that covers the
    claimed scope now and is live: its chain ends at a certificate issued by the holder
    of a grant of the current constitution, under that grant, and the grant covers the
    claimed scope now.  The commit is confined as every petition is ([confined]): nodes
    outside the scope, grant projections and their facets stay, edges are added inside
    the scope only, and go only when disconnected by id or with a removed node.  A
    refused petition writes nothing. *)
Theorem moot_peer_confined (m : MootAuthority) w j0 (l : GraphLog (G := G) (N := Container) (E := E) (Id := string) (F := string) (V := V))
    subject claimed expected specs :
  md_held (ma_delegations m) → ids_ok w j0 → session ct_id w j0 l → next_edge l + Z.of_nat (spec_connects specs) ≤ u64_max →
  let '(l', r) := petition m l subject claimed expected specs in
  match r with
  | Err _ => l' = l
  | Ok _ =>
      (∃ id s chain r g, md_certificates (ma_delegations m) !! id = Some s ∧ Delegation.subject (certificate s) = subject ∧
        certificate_covers (certificate s) (cap_path (Scope claimed)) MOOT_ACT_ACTION (ma_now_ms m) = true ∧
        live_chain (ma_delegations m) (ma_rules m) (ma_moot_id m) id chain ∧
        last chain = Some r ∧ parent (certificate r) = Root (cg_id g) ∧ issuer (certificate r) = cg_subject g ∧
        capability_grants (ma_rules m) !! cg_id g = Some g ∧
        cap_grant_covers g (cg_subject g) (cap_path (Scope claimed)) (ma_now_ms m) = true) ∧
      confined m subject claimed specs (abs ct_id l) (abs ct_id l')
  end.
Proof.
  intros Hd Hok Hs Hb. destruct (petition m l subject claimed expected specs) as [l' r] eqn:Ep.
  apply petition_cases in Ep as [(e & -> & ->)|(c & -> & Hv & Hc)]; [done|].
  split; [|by eapply committed_confined].
  apply validate_ok in Hv as [Hp _]. apply moot_covers_true in Hp as (id & s & Hs' & Hsub & _ & Hcov & Hlive).
  destruct (chain_is_live_spec (ma_delegations m) id (ma_rules m) (ma_moot_id m) Hd) as (b & Hb' & Hl). assert (b = true) as -> by congruence.
  destruct (proj1 Hl eq_refl) as [ch Hch]. destruct (live_chain_grant _ _ _ _ _ _ _ _ Hch Hs' Hcov) as (r & g & Hlast & Hpar & Hiss & Hg & Hgc & _).
  by exists id, s, ch, r, g.
Qed.
End gate.
End delegations.

(** ** A moot with a granted trail *)

Module Sample.
Import DelegationTable.Sample.
#[local] Existing Instance toy_keys.

(** The constitution gives the user (7) the trail, two steps deep; the user gives
    the helper (8) the trail, and the helper gives the agent (9) part of it. *)
Definition trail_grant : CapabilityGrant := mkCapGrant 40 7 (cap_path trail) 0 None 2.
Definition rules : ConstitutionRules := rules_grant (founder_only 7) trail_grant.
Definition moot : Z := 11.
Definition moot_scope (c : Cap) : CapabilityScope :=
  mkCapScope MOOT_DELEGATION_DOMAIN (key_bytes moot) (cap_path c) {[MOOT_ACT_ACTION]}.
Definition helper_cert : SignedDelegationCertificate :=
  issue_or 7 (certificate_new (Root 40) 7 8 (moot_scope trail) 1000 1000 None 1 5) dummy.
Definition helper_id : Z := certificate_id toy_hash (certificate helper_cert).
Definition agent_cert : SignedDelegationCertificate :=
  issue_or 8 (certificate_new (Certificate helper_id) 8 9 (moot_scope step1) 1500 1500 (Some 9000) 0 6) dummy.
Definition agent_id : Z := certificate_id toy_hash (certificate agent_cert).

Definition accept (d : MootDelegations) (s : SignedDelegationCertificate) : MootDelegations :=
  match accept_certificate toy_hash d moot rules s with Some (d', _) => d' | None => d end.
Definition held : MootDelegations := accept (accept delegations_new helper_cert) agent_cert.

Lemma accept_held d s : md_held toy_hash d → md_held toy_hash (accept d s).
Proof.
  intros Hd. unfold accept. destruct (accept_certificate toy_hash d moot rules s) as [[d' r]|] eqn:Ea; [|exact Hd].
  exact (md_held_certificate toy_hash d moot rules s d' r Hd Ea).
Qed.

Lemma sample_held : md_held toy_hash held.
Proof. apply accept_held, accept_held, md_held_new. Qed.

Lemma agent_may : moot_covers toy_hash held moot rules 9 (cap_path step1) 2000 = true.
Proof. vm_compute. reflexivity. Qed.

Lemma chain_liveness_decided_witness :
  chain_is_live toy_hash held agent_id rules moot = Some true ∧ ∃ l, live_chain toy_hash held rules moot agent_id l.
Proof.
  assert (chain_is_live toy_hash held agent_id rules moot = Some true) as Hl by (vm_compute; reflexivity).
  split; [exact Hl|]. destruct (proj1 (chain_liveness_decided toy_hash held agent_id rules moot sample_held)) as (b & Hb & Hi).
  rw Hl in Hb. injection Hb as <-. exact (proj1 Hi eq_refl).
Defined.

Lemma moot_authority_contained_witness :
  ∃ g, capability_grants rules !! cg_id g = Some g ∧ cap_grant_covers g (cg_subject g) (cap_path step1) 2000 = true.
Proof.
  destruct (moot_authority_contained toy_hash held moot rules 9 (cap_path step1) 2000 sample_held agent_may)
    as (id & s & l & r & g & _ & _ & _ & _ & _ & _ & Hg & Hc & _). exists g. exact (conj Hg Hc).
Defined.

(** The user takes the helper's certificate back. *)
Definition take_back : SignedDelegationRevocation :=
  match revocation_issue (7 : Z) (revocation_new helper_id 7 (moot_scope trail) 3000 1) with
  | Ok r => r
  | Err _ => mkSignedRevocation (revocation_new 0 0 (moot_scope trail) 0 0) (mkAttestation 0 0 0 []) []
  end.

Lemma moot_revocation_cascades_witness :
  (accept_revocation held take_back).2 = Ok true ∧
  ¬ live_chain toy_hash (accept_revocation held take_back).1 rules moot helper_id [helper_cert].
Proof.
  assert ((accept_revocation held take_back).2 = Ok true) as Hok by (vm_compute; reflexivity).
  split; [exact Hok|]. destruct (accept_revocation held take_back) as [d' r] eqn:Er. cbn [fst snd] in Hok |- *. rw Hok in Er.
  intros Hl. destruct (proj1 (moot_revocation_cascades toy_hash held rules moot helper_id [helper_cert] sample_held) _ _ _ Er) as [_ Hi].
  apply Hi in Hl as [_ HF]. apply (proj1 (Forall_singleton _ _) HF). vm_compute. reflexivity.
Defined.

Lemma projections_explain_coverage_witness :
  ∃ p, p ∈ projections toy_hash held moot rules 2000 ∧ active p = true ∧ pj_subject p = 9.
Proof.
  destruct (proj1 (projections_explain_coverage toy_hash held moot rules 9 (cap_path step1) 2000 sample_held) agent_may)
    as (p & H1 & H2 & H3 & _). exists p. exact (conj H1 (conj H2 H3)).
Defined.

Lemma scope_key_epochs_exact_witness :
  size (revoked_in (accept_revocation held take_back).1 (scope_key helper_cert)) =
  (size (revoked_in held (scope_key helper_cert)) + 1)%nat.
Proof.
  assert ((accept_revocation held take_back).2 = Ok true) as Hok by (vm_compute; reflexivity).
  destruct (accept_revocation held take_back) as [d' r] eqn:Er. cbn [fst snd] in Hok |- *. rw Hok in Er.
  destruct (proj1 (proj2 (scope_key_epochs_exact toy_hash held sample_held)) _ _ _ Er) as (s & Hs & Hk). rw Hk.
  assert (md_certificates held !! rv_certificate (revocation take_back) = Some helper_cert) as Hh by (vm_compute; reflexivity).
  pose proof (Some_inj helper_cert s (eq_trans (eq_sym Hh) Hs)) as Heq. rw -Heq. rw bool_decide_eq_true_2; reflexivity.
Defined.

Definition authority : MootAuthority := mkMootAuthority held rules moot 2000.
#[local] Instance provider : AuthorityProvider MootAuthority := MootAuthority_provider toy_hash.

(** The helper adds a page to the log of the gate's sample. *)
Lemma moot_peer_confined_witness :
  (petition authority Gate.Sample.seeded 8 Gate.Sample.trail 1 Gate.Sample.add_b).2 = Ok (mkCommitted 1 [mkEdgeId 7 1]) ∧
  ∃ g, capability_grants rules !! cg_id g = Some g ∧ cap_grant_covers g (cg_subject g) "scope/trail" 2000 = true.
Proof.
  pose proof (moot_peer_confined toy_hash authority 7 Gate.Sample.empty_journal Gate.Sample.seeded 8 Gate.Sample.trail 1 Gate.Sample.add_b
    sample_held Gate.Sample.gate_opened_ok Gate.Sample.seeded_session ltac:(vm_compute; discriminate)) as Hp.
  assert ((petition authority Gate.Sample.seeded 8 Gate.Sample.trail 1 Gate.Sample.add_b).2 = Ok (mkCommitted 1 [mkEdgeId 7 1])) as Hok
    by (vm_compute; reflexivity).
  split; [exact Hok|]. unfold provider in Hok. destruct (petition authority _ _ _ _ _) as [l' r]. cbn [snd] in Hok. subst r.
  destruct Hp as [(id & s & ch & r & g & _ & _ & _ & _ & _ & _ & _ & Hg & Hc) _]. exists g. exact (conj Hg Hc).
Defined.
End Sample.
