(* ===== verification/Causal.v ===== *)
(** Causal bookkeeping of replicated logs (crates/stickleback/src/causal.rs).

    Operations name the operations they were made after: the previous one of the
    same author and log, and the observed frontier of others.  [causal_projection]
    orders those whose history is complete and reports the rest; [CausalOrder]
    proves it correct.  This file holds the model, the reachability queries and the
    author heads.

    Log ids are any countable type with a decidable total order, as the source's
    [L: Ord].  The vectors are lists; their indices come from enumerating the
    entries.  [ready] is the set of indices whose keys the source stores, and is
    emptied in key order.  The two loops and the reachability walk run on fuel;
    [None] is a loop that did not end or an underflow of [indegree]. *)

From S2P Require Import Prelude.
From stdpp Require Import relations.

Local Open Scope Z_scope.

Record CausalLimits : Type := mkCausalLimits { max_parents : Z; max_payload_bytes : Z }.
Definition CausalLimits_default : CausalLimits := mkCausalLimits 64 (1024 * 1024).

Record CausalEntry {L : Type} : Type := mkCausalEntry {
  ce_operation : Z;
  ce_author : Z;
  ce_log_id : L;
  ce_seq_num : Z;
  ce_backlink : option Z;
  ce_parents : list Z
}.
Arguments CausalEntry : clear implicits.
Arguments mkCausalEntry {_}.

#[export] Instance CausalEntry_eq_dec {L} `{EqDecision L} : EqDecision (CausalEntry L).
Proof. solve_decision. Defined.

Record PendingCausalOperation : Type := mkPending { po_operation : Z; po_missing : list Z }.
Record CausalProjection : Type := mkCausalProjection { cp_order : list nat; cp_pending : list PendingCausalOperation }.

Inductive CausalError : Type :=
| ParentLimit (actual maximum : Z)
| PayloadLimit (actual maximum : Z)
| DuplicateParent
| SelfParent
| DuplicateOperation
| ForkedSequence (seq_num : Z)
| Cycle
| SequenceExhausted.

(** ** Entries *)

Section operation.
(** p2panda's operations: their hash and the header fields read here. *)
Context {Op L : Type} (op_hash op_author op_seq_num op_payload_size : Op → Z) (op_backlink : Op → option Z).

Definition entry_from_operation (operation : Op) (log_id : L) (parents : list Z) : CausalEntry L :=
  mkCausalEntry (op_hash operation) (op_author operation) log_id (op_seq_num operation) (op_backlink operation) parents.

Definition validate_causal_metadata (operation : Op) (parents : list Z) (limits : CausalLimits) : result CausalError unit :=
  if bool_decide (max_parents limits < Z.of_nat (length parents))
  then Err (ParentLimit (Z.of_nat (length parents)) (max_parents limits))
  else if bool_decide (max_payload_bytes limits < op_payload_size operation)
  then Err (PayloadLimit (op_payload_size operation) (max_payload_bytes limits))
  else
    let unique : gset Z := list_to_set parents in
    if bool_decide (size unique ≠ length parents) then Err DuplicateParent
    else if bool_decide (op_hash operation ∈ unique) then Err SelfParent
    else Ok tt.
End operation.

Section causal.
Context {L : Type} `{Countable L} (Lle : relation L) `{!RelDecision Lle, !TotalOrder Lle}.
Abbreviation Entry := (CausalEntry L).
Implicit Types (e : Entry) (es : list Entry).

Definition dependencies e : gset Z := list_to_set (option_list (ce_backlink e) ++ ce_parents e).

(** [([u8; 32], L, u32, [u8; 32], usize)]. *)
Abbreviation Key := (Z * L * Z * Z * nat)%type.
Definition order_key e (index : nat) : Key := (ce_author e, ce_log_id e, ce_seq_num e, ce_operation e, index).
Definition order_le : relation Key := lex_le (lex_le (lex_le (lex_le Z.le Lle) Z.le) Z.le) Nat.le.

(** [positions]: the operation at each position of each author's log. *)
Fixpoint validate_positions (positions : gmap (Z * L * Z) Z) es : result CausalError unit :=
  match es with
  | [] => Ok tt
  | e :: es =>
      let key := (ce_author e, ce_log_id e, ce_seq_num e) in
      match positions !! key with
      | Some existing =>
          if bool_decide (existing ≠ ce_operation e) then Err (ForkedSequence (ce_seq_num e))
          else validate_positions (<[key := ce_operation e]> positions) es
      | None => validate_positions (<[key := ce_operation e]> positions) es
      end
  end.
Definition validate_sequences es : result CausalError unit := validate_positions ∅ es.

(** ** The projection *)

Fixpoint index_ops (index : nat) es (by_hash : gmap Z nat) : result CausalError (gmap Z nat) :=
  match es with
  | [] => Ok by_hash
  | e :: es =>
      match by_hash !! ce_operation e with
      | Some _ => Err DuplicateOperation
      | None => index_ops (S index) es (<[ce_operation e := index]> by_hash)
      end
  end.

Definition link_dependency (by_hash : gmap Z nat) (index : nat) (acc : list (list nat) * list (gset Z)) (dependency : Z)
  : list (list nat) * list (gset Z) :=
  match by_hash !! dependency with
  | Some parent => (alter (λ ds, ds ++ [index]) parent acc.1, acc.2)
  | None => (acc.1, alter (λ ms, {[dependency]} ∪ ms) index acc.2)
  end.

Fixpoint link_entries (by_hash : gmap Z nat) (index : nat) es (acc : list (list nat) * list (gset Z))
  : list (list nat) * list (gset Z) :=
  match es with
  | [] => acc
  | e :: es => link_entries by_hash (S index) es (fold_left (link_dependency by_hash index) (bt_set (dependencies e)) acc)
  end.

Definition block_dependent (roots : gset Z) (acc : list (gset Z) * list nat) (dependent : nat) : list (gset Z) * list nat :=
  match acc.1 !! dependent with
  | None => acc
  | Some before =>
      (<[dependent := before ∪ roots]> acc.1,
       if bool_decide (size (before ∪ roots) ≠ size before) then acc.2 ++ [dependent] else acc.2)
  end.

Fixpoint block_loop (fuel : nat) (dependents : list (list nat)) (missing : list (gset Z)) (blocked : list nat)
  : option (list (gset Z)) :=
  match blocked with
  | [] => Some missing
  | index :: blocked =>
      match fuel with
      | 0%nat => None
      | S fuel =>
          let roots := default ∅ (missing !! index) in
          let acc := fold_left (block_dependent roots) (default [] (dependents !! index)) (missing, blocked) in
          block_loop fuel dependents acc.1 acc.2
      end
  end.

(** Indices of the vector entries that satisfy a test, in order. *)
Definition indices {A} (p : A → bool) (v : list A) : list nat :=
  omap (λ ix : nat * A, if p ix.2 then Some ix.1 else None) (imap pair v).

Definition is_complete (complete : list bool) (i : nat) : bool := default false (complete !! i).

Definition indegree_of (by_hash : gmap Z nat) (complete : list bool) (i : nat) e : nat :=
  if is_complete complete i
  then length (List.filter (λ d, match by_hash !! d with Some parent => is_complete complete parent | None => false end)
                (bt_set (dependencies e)))
  else 0%nat.

(** [ready.pop_first()]. *)
Definition pop_first es (ready : gset nat) : option nat :=
  snd <$> head (merge_sort order_le (omap (λ i, (λ e, order_key e i) <$> es !! i) (elements ready))).

Definition release (complete : list bool) (acc : option (list nat * gset nat)) (dependent : nat) : option (list nat * gset nat) :=
  '(indegree, ready) ← acc;
  if negb (is_complete complete dependent) then Some (indegree, ready)
  else match indegree !! dependent with
       | Some (S k) => Some (<[dependent := k]> indegree, if bool_decide (k = 0%nat) then {[dependent]} ∪ ready else ready)
       | _ => None
       end.

Fixpoint order_loop (fuel : nat) es (dependents : list (list nat)) (complete : list bool) (indegree : list nat)
    (ready : gset nat) (order : list nat) : option (list nat) :=
  match pop_first es ready with
  | None => Some order
  | Some index =>
      match fuel with
      | 0%nat => None
      | S fuel =>
          '(indegree, ready) ← fold_left (release complete) (default [] (dependents !! index)) (Some (indegree, ready ∖ {[index]}));
          order_loop fuel es dependents complete indegree ready (order ++ [index])
      end
  end.

Definition pending_le (a b : Key * PendingCausalOperation) : Prop := order_le a.1 b.1.
#[export] Instance pending_le_dec : RelDecision pending_le.
Proof. intros a b. unfold pending_le, order_le. apply _. Defined.

Definition pending_of es (complete : list bool) (missing : list (gset Z)) : list PendingCausalOperation :=
  snd <$> merge_sort pending_le
    (omap (λ ie : nat * Entry, if is_complete complete ie.1 then None
                               else Some (order_key ie.2 ie.1, mkPending (ce_operation ie.2) (bt_set (default ∅ (missing !! ie.1)))))
       (imap pair es)).

(** Everything the loops can add to the [missing] sets. *)
Definition all_dependencies es : gset Z := ⋃ (dependencies <$> es).

Definition causal_projection es : option (result CausalError CausalProjection) :=
  match validate_sequences es with
  | Err err => Some (Err err)
  | Ok _ =>
      match index_ops 0 es ∅ with
      | Err err => Some (Err err)
      | Ok by_hash =>
          let '(dependents, missing) := link_entries by_hash 0 es (replicate (length es) [], replicate (length es) ∅) in
          missing ← block_loop (length es + length es * size (all_dependencies es)) dependents missing
                      (indices (λ roots : gset Z, bool_decide (roots ≠ ∅)) missing);
          let complete := (λ roots : gset Z, bool_decide (roots = ∅)) <$> missing in
          let indegree := imap (indegree_of by_hash complete) es in
          let ready := list_to_set (omap (λ id : nat * nat, if is_complete complete id.1 && bool_decide (id.2 = 0%nat) then Some id.1 else None)
                                      (imap pair indegree)) in
          order ← order_loop (length es) es dependents complete indegree ready [];
          if bool_decide (length order ≠ length (indices id complete)) then Some (Err Cycle)
          else Some (Ok (mkCausalProjection order (pending_of es complete missing)))
      end
  end.

(** ** Heads *)

(** [heads]: the latest operation of each observed author and log. *)
Definition head_step (heads : gmap (Z * L) (Z * Z)) e : gmap (Z * L) (Z * Z) :=
  let key := (ce_author e, ce_log_id e) in
  match heads !! key with
  | Some current => if bool_decide (current.1 < ce_seq_num e) then <[key := (ce_seq_num e, ce_operation e)]> heads else heads
  | None => <[key := (ce_seq_num e, ce_operation e)]> heads
  end.

Definition head_le {V} (a b : Z * L * V) : Prop := lex_le Z.le Lle a.1 b.1.
#[export] Instance head_le_dec {V} : RelDecision (@head_le V).
Proof. intros a b. unfold head_le. apply _. Defined.

Definition observed_frontier es : result CausalError (list Z) :=
  match validate_sequences es with
  | Err err => Err err
  | Ok _ => Ok ((λ kv : Z * L * (Z * Z), kv.2.2) <$> merge_sort head_le (map_to_list (fold_left head_step es ∅)))
  end.

(** [max_by_key]: the last of the greatest. *)
Fixpoint max_by_seq (best : option Entry) es : option Entry :=
  match es with
  | [] => best
  | e :: es => max_by_seq (match best with
                           | Some b => if bool_decide (ce_seq_num b ≤ ce_seq_num e) then Some e else Some b
                           | None => Some e
                           end) es
  end.

Definition author_head es (author : Z) (log_id : L) : result CausalError (Z * option Z) :=
  match validate_sequences es with
  | Err err => Err err
  | Ok _ =>
      match max_by_seq None (filter (λ e, ce_author e = author ∧ ce_log_id e = log_id) es) with
      | Some e => if bool_decide (ce_seq_num e = 2 ^ 32 - 1) then Err SequenceExhausted
                  else Ok (ce_seq_num e + 1, Some (ce_operation e))
      | None => Ok (0, None)
      end
  end.

(** ** Reachability *)

(** [CausalIndex::new]: a later entry of the same operation replaces an earlier one. *)
Definition causal_index es : gmap Z Entry := fold_left (λ m e, <[ce_operation e := e]> m) es ∅.

(** [pending] is a stack; its top is the head of the list. *)
Fixpoint reach_loop (fuel : nat) (by_hash : gmap Z Entry) (earlier : Z) (seen : gset Z) (pending : list Z) : option bool :=
  match pending with
  | [] => Some false
  | operation :: pending =>
      if bool_decide (operation = earlier) then Some true
      else match fuel with
           | 0%nat => None
           | S fuel =>
               if bool_decide (operation ∈ seen) then reach_loop fuel by_hash earlier seen pending
               else match by_hash !! operation with
                    | Some entry => reach_loop fuel by_hash earlier ({[operation]} ∪ seen) (reverse (bt_set (dependencies entry)) ++ pending)
                    | None => reach_loop fuel by_hash earlier ({[operation]} ∪ seen) pending
                    end
           end
  end.

(** Every push: the dependencies of each indexed entry, once. *)
Definition reach_fuel (by_hash : gmap Z Entry) : nat := map_fold (λ _ e n, size (dependencies e) + n)%nat 0%nat by_hash.

Definition index_happens_before (by_hash : gmap Z Entry) (earlier later : Z) : option bool :=
  match by_hash !! later with
  | None => Some false
  | Some e => reach_loop (size (dependencies e) + reach_fuel by_hash) by_hash earlier ∅ (reverse (bt_set (dependencies e)))
  end.

Definition happens_before es (earlier later : Z) : option bool := index_happens_before (causal_index es) earlier later.
End causal.

Section reachability.
Context {L : Type} `{Countable L}.
Abbreviation Entry := (CausalEntry L).
Implicit Types (e : Entry) (es : list Entry).

(** ** Forks *)

Definition no_fork es : Prop :=
  ∀ e e', e ∈ es → e' ∈ es → ce_author e = ce_author e' → ce_log_id e = ce_log_id e' → ce_seq_num e = ce_seq_num e' →
    ce_operation e = ce_operation e'.

Lemma validate_positions_ok positions es :
  validate_positions positions es = Ok tt ↔
  (∀ e o, e ∈ es → positions !! (ce_author e, ce_log_id e, ce_seq_num e) = Some o → o = ce_operation e) ∧ no_fork es.
Proof.
  revert positions. induction es as [|e es IH]; intros positions; cbn [validate_positions].
  { split; [|done]. intros _. split; intros ? ? ?%elem_of_nil; done. }
  set (key := (ce_author e, ce_log_id e, ce_seq_num e)).
  assert ((∀ o, positions !! key = Some o → o = ce_operation e) →
    validate_positions (<[key := ce_operation e]> positions) es = Ok tt ↔
    (∀ e' o, e' ∈ e :: es → positions !! (ce_author e', ce_log_id e', ce_seq_num e') = Some o → o = ce_operation e') ∧ no_fork (e :: es)) as Hstep.
  { intros Hpos. rw IH. split.
    - intros [Hp Hf]. assert (∀ e', e' ∈ es → (ce_author e', ce_log_id e', ce_seq_num e') = key → ce_operation e = ce_operation e') as Hnew.
      { intros e' He' Hk. apply (Hp e'); [done|]. by rw Hk lookup_insert_eq. }
      split.
      + intros e' o [->|He']%elem_of_cons Ho; [by apply Hpos|]. destruct (decide ((ce_author e', ce_log_id e', ce_seq_num e') = key)) as [Hk|Hk].
        * rw Hk in Ho. rw (Hpos o Ho). by apply Hnew.
        * apply (Hp e'); [done|]. by rw lookup_insert_ne.
      + intros e1 e2 [->|H1]%elem_of_cons [->|H2]%elem_of_cons Ha Hl Hs; [done| | |by apply Hf].
        * apply Hnew; [done|]. unfold key. congruence.
        * symmetry. apply Hnew; [done|]. unfold key. congruence.
    - intros [Hp Hf]. split; [|intros e1 e2 H1 H2; apply Hf; by right]. intros e' o He' Ho.
      apply lookup_insert_Some in Ho as [[Hk <-]|[_ Ho]]; [|by apply (Hp e'); [right|]].
      apply Hf; [by left|by right|..]; unfold key in Hk; congruence. }
  destruct (positions !! key) as [existing|] eqn:Ek; [|by apply Hstep].
  destruct (bool_decide_reflect (existing ≠ ce_operation e)) as [Hne|Heq].
  - split; [done|]. intros [Hp _]. destruct Hne. apply (Hp e); [by left|done].
  - apply Hstep. intros o [= <-]. by apply dec_stable.
Qed.

Lemma validate_sequences_ok es : validate_sequences es = Ok tt ↔ no_fork es.
Proof. unfold validate_sequences. rw validate_positions_ok. split; [by intros []|]. intros Hf. split; [|done]. intros e o _. by rw lookup_empty. Qed.

Lemma validate_positions_err positions es err : validate_positions positions es = Err err → ∃ s, err = ForkedSequence s.
Proof.
  revert positions. induction es as [|e es IH]; intros positions; cbn [validate_positions]; [done|].
  repeat case_match; try apply IH. intros [= <-]. by eexists.
Qed.

(** ** The index *)

Lemma causal_index_Some es h e : causal_index es !! h = Some e → e ∈ es ∧ ce_operation e = h.
Proof.
  unfold causal_index. assert (∀ m, (fold_left (λ m e, <[ce_operation e := e]> m) es m : gmap Z Entry) !! h = Some e →
    m !! h = Some e ∨ e ∈ es ∧ ce_operation e = h) as Hgen.
  { induction es as [|e' es IH]; intros m; cbn; [by left|]. intros [Hl|[]]%IH; [|right; split; [by right|done]].
    apply lookup_insert_Some in Hl as [[<- <-]|[_ ?]]; [right; split; [by left|done]|by left]. }
  intros [Hl|?]%Hgen; [|done]. by rw lookup_empty in Hl.
Qed.

Lemma causal_index_is_Some es e : e ∈ es → is_Some (causal_index es !! ce_operation e).
Proof.
  unfold causal_index. assert (∀ m, is_Some ((m : gmap Z Entry) !! ce_operation e) ∨ e ∈ es →
    is_Some ((fold_left (λ m e, <[ce_operation e := e]> m) es m : gmap Z Entry) !! ce_operation e)) as Hgen; [|by intros; apply Hgen; right].
  induction es as [|e' es IH]; intros m; cbn; [by intros [|?%elem_of_nil]|]. intros Hin. apply IH.
  destruct (decide (ce_operation e' = ce_operation e)) as [->|Hne]; [left; by rw lookup_insert_eq|].
  rw lookup_insert_ne //. destruct Hin as [|[->|]%elem_of_cons]; [by left|done|by right].
Qed.

Lemma causal_index_unique es e : NoDup (ce_operation <$> es) → e ∈ es → causal_index es !! ce_operation e = Some e.
Proof.
  intros Hnd He. destruct (causal_index_is_Some es e He) as [e' He']. destruct (causal_index_Some _ _ _ He') as [Hin Ho].
  rw He'. f_equal. apply list_elem_of_lookup in He as [i Hi], Hin as [j Hj].
  assert (i = j) as -> by (eapply (NoDup_lookup (ce_operation <$> es)); [done|by rw list_lookup_fmap Hi|by rw list_lookup_fmap Hj /= Ho]).
  congruence.
Qed.

(** [b] is a dependency of the entry indexed at [a]. *)
Definition index_dep (m : gmap Z Entry) (a b : Z) : Prop := ∃ e, m !! a = Some e ∧ b ∈ dependencies e.

Lemma seen_leaves m (x o : Z) (seen : gset Z) (pending : list Z) :
  (∀ o b, o ∈ seen → index_dep m o b → b ∈ seen ∨ b ∈ pending) → x ∉ seen →
  rtc (index_dep m) o x → o ∈ seen → ∃ o', o' ∈ pending ∧ rtc (index_dep m) o' x.
Proof.
  intros Hcl Hx Hr. induction Hr as [o|o o' x Hstep Hr IH]; intros Ho; [done|].
  destruct (Hcl o o' Ho Hstep) as [Hs|Hp]; [by apply IH|]. by exists o'.
Qed.

Lemma reach_loop_spec fuel m x seen pending b :
  (∀ o b, o ∈ seen → index_dep m o b → b ∈ seen ∨ b ∈ pending) → x ∉ seen →
  reach_loop fuel m x seen pending = Some b → b = true ↔ ∃ o, o ∈ pending ∧ rtc (index_dep m) o x.
Proof.
  revert seen pending. induction fuel as [|fuel IH]; intros seen pending Hcl Hx.
  all: destruct pending as [|o pending]; cbn [reach_loop]; [intros [= <-]; split; [done|]; by intros (? & ?%elem_of_nil & _)|].
  all: destruct (bool_decide_reflect (o = x)) as [->|Hne]; [intros [= <-]; split; [|done]; intros _; exists x; split; [by left|done]|].
  { done. }
  destruct (bool_decide_reflect (o ∈ seen)) as [Hs|Hs].
  - assert (∀ o' b, o' ∈ seen → index_dep m o' b → b ∈ seen ∨ b ∈ pending) as Hcl'.
    { intros o' b' Ho' Hd. destruct (Hcl o' b' Ho' Hd) as [|[->|]%elem_of_cons]; [by left|by left|by right]. }
    intros Hr. rw (IH _ _ Hcl' Hx Hr). split.
    + intros (o' & Ho' & ?). exists o'. split; [by right|done].
    + intros (o' & [->|Ho']%elem_of_cons & Hrt); [|by exists o']. by eapply seen_leaves.
  - assert (∀ new, (∀ b, index_dep m o b ↔ b ∈ new) → reach_loop fuel m x ({[o]} ∪ seen) (new ++ pending) = Some b →
      b = true ↔ ∃ o', o' ∈ o :: pending ∧ rtc (index_dep m) o' x) as Hnew.
    { intros new Hn Hr. rw (IH _ _ _ _ Hr); cycle 1.
      - intros o' b' [->%elem_of_singleton|Ho']%elem_of_union Hd; [right; apply elem_of_app; left; by apply Hn|].
        destruct (Hcl o' b' Ho' Hd) as [|[->|]%elem_of_cons]; [left; set_solver|left; set_solver|right; set_solver].
      - set_solver.
      - split.
        + intros (o' & [Ho'%Hn|Ho']%elem_of_app & Hrt); [exists o; split; [by left|by eapply rtc_l]|exists o'; split; [by right|done]].
        + intros (o' & [->|Ho']%elem_of_cons & Hrt).
          * inversion Hrt as [|? o'' ? Hst Hrt']; subst; [done|]. exists o''. split; [apply elem_of_app; left; by apply Hn|done].
          * exists o'. split; [apply elem_of_app; by right|done]. }
    destruct (m !! o) as [e|] eqn:Em.
    + apply Hnew. intros b'. rw elem_of_reverse elem_of_bt_set. unfold index_dep. rw Em. naive_solver.
    + intros Hr. apply (Hnew []); [|done]. intros b'. rw elem_of_nil. unfold index_dep. rw Em. naive_solver.
Qed.

(** Pushes still possible once [seen] is seen. *)
Definition unseen (m : gmap Z Entry) (seen : gset Z) : gmap Z Entry := filter (λ kv, kv.1 ∉ seen) m.

Lemma reach_fuel_delete m o e : m !! o = Some e → reach_fuel m = (size (dependencies e) + reach_fuel (delete o m))%nat.
Proof. intros Ho. unfold reach_fuel. rw (map_fold_delete_L _ _ o e m); [done|intros; lia|done]. Qed.

Lemma unseen_delete m o seen : unseen m ({[o]} ∪ seen) = delete o (unseen m seen).
Proof.
  unfold unseen. apply map_eq. intros i. destruct (decide (i = o)) as [->|Hne].
  - rw lookup_delete_eq. apply map_lookup_filter_None. right. intros e _. cbn. set_solver.
  - rw lookup_delete_ne // !map_lookup_filter. destruct (m !! i); cbn; [|done]. repeat case_guard; try done; set_solver.
Qed.

Lemma reach_loop_total fuel m x seen pending :
  (length pending + reach_fuel (unseen m seen) ≤ fuel)%nat → is_Some (reach_loop fuel m x seen pending).
Proof.
  revert seen pending. induction fuel as [|fuel IH]; intros seen pending Hf; (destruct pending as [|o pending]; cbn [reach_loop]; [by eexists|]);
    (destruct (bool_decide_reflect (o = x)); [by eexists|]); cbn [length] in Hf; [lia|].
  destruct (bool_decide_reflect (o ∈ seen)) as [Hs|Hs]; [apply IH; lia|]. destruct (m !! o) as [e|] eqn:Em.
  - apply IH. rw unseen_delete length_app length_reverse. unfold bt_set. rw (Permutation_length (merge_sort_Permutation _ _)).
    assert (unseen m seen !! o = Some e) as Hu by (apply map_lookup_filter_Some; done).
    rw (reach_fuel_delete _ _ _ Hu) in Hf. unfold size, set_size in Hf. cbn in Hf. lia.
  - apply IH. rw unseen_delete. rw delete_id; [lia|]. apply map_lookup_filter_None. by left.
Qed.

Lemma index_happens_before_spec m a b :
  ∃ r, index_happens_before m a b = Some r ∧ (r = true ↔ tc (index_dep m) b a).
Proof.
  unfold index_happens_before. destruct (m !! b) as [e|] eqn:Eb; cycle 1.
  { exists false. split; [done|]. split; [done|]. intros Ht. exfalso. inversion Ht as [? ? (? & ? & _)|? ? ? (? & ? & _)]; congruence. }
  destruct (reach_loop_total (size (dependencies e) + reach_fuel m) m a ∅ (reverse (bt_set (dependencies e)))) as [r Hr].
  { rw length_reverse. unfold bt_set. rw (Permutation_length (merge_sort_Permutation _ _)). unfold size, set_size. cbn.
    assert (unseen m ∅ = m) as ->; [|lia]. unfold unseen. apply map_filter_id. intros. cbn. set_solver. }
  exists r. split; [done|]. rw (reach_loop_spec _ _ _ _ _ _ _ _ Hr); [|set_solver..]. split.
  - intros (o & Ho & Hrt). apply tc_rtc_r with o; [|done]. apply tc_once. exists e. split; [done|]. by rw elem_of_reverse elem_of_bt_set in Ho.
  - assert (∀ b', index_dep m b b' → b' ∈ reverse (bt_set (dependencies e))) as Hd.
    { intros b' (e' & He' & Hb'). rw elem_of_reverse elem_of_bt_set. congruence. }
    inversion 1 as [? ? Hs|? o ? Hs Ht]; subst; [exists a; split; [by apply Hd|done]|]. exists o. split; [by apply Hd|by apply tc_rtc].
Qed.

(** The reachability query is exact.  Its stack walk always ends,
    on cyclic metadata too, and answers yes exactly when the earlier operation is
    reached from the later one through one or more dependencies of the indexed
    entries. *)
Theorem happens_before_exact es earlier later :
  ∃ r, happens_before es earlier later = Some r ∧ (r = true ↔ tc (index_dep (causal_index es)) later earlier).
Proof. apply index_happens_before_spec. Qed.

End reachability.

Section heads.
Context {L : Type} `{Countable L} (Lle : relation L) `{!RelDecision Lle, !TotalOrder Lle}.
Abbreviation Entry := (CausalEntry L).
Implicit Types (e : Entry) (es : list Entry).

(** ** Heads *)

(** [e] is at the head of its author's log. *)
Definition is_head es e : Prop :=
  e ∈ es ∧ ∀ e', e' ∈ es → ce_author e' = ce_author e → ce_log_id e' = ce_log_id e → ce_seq_num e' ≤ ce_seq_num e.

Lemma max_by_seq_spec best es :
  match max_by_seq best es with
  | Some e => (best = Some e ∨ e ∈ es) ∧ (∀ b, best = Some b → ce_seq_num b ≤ ce_seq_num e) ∧ ∀ e', e' ∈ es → ce_seq_num e' ≤ ce_seq_num e
  | None => best = None ∧ es = []
  end.
Proof.
  revert best. induction es as [|e es IH]; intros best; cbn [max_by_seq].
  { destruct best; [|done]. split_and!; [by left|by intros ? [= ->]|]. intros ? ?%elem_of_nil. done. }
  set (best' := match best with Some b => if bool_decide (ce_seq_num b ≤ ce_seq_num e) then Some e else Some b | None => Some e end).
  assert (∃ b', best' = Some b' ∧ (best = Some b' ∨ b' = e) ∧ ce_seq_num e ≤ ce_seq_num b' ∧ ∀ b, best = Some b → ce_seq_num b ≤ ce_seq_num b') as (b' & Hb' & Hor & Hle & Hb).
  { unfold best'. destruct best as [b|]; [|exists e; naive_solver lia]. case_bool_decide; [exists e|exists b]; naive_solver lia. }
  specialize (IH best'). rw Hb' in IH |- *. destruct (max_by_seq (Some b') es) as [m|]; [|by destruct IH].
  destruct IH as (Hm & Hbm & Hall). specialize (Hbm b' eq_refl). split_and!.
  - destruct Hm as [[= ->]|]; [|right; by right]. destruct Hor as [Hor| ->]; [by left|right; by left].
  - intros b ->. specialize (Hb b eq_refl). lia.
  - intros e' [->|He']%elem_of_cons; [lia|by apply Hall].
Qed.

Lemma heads_spec es k :
  match fold_left head_step es ∅ !! k with
  | Some so => ∃ e, is_head es e ∧ (ce_author e, ce_log_id e) = k ∧ so = (ce_seq_num e, ce_operation e)
  | None => ∀ e, e ∈ es → (ce_author e, ce_log_id e) ≠ k
  end.
Proof.
  induction es as [|e es IH] using rev_ind; [cbn; rw lookup_empty; by intros ? ?%elem_of_nil|].
  rw fold_left_app. cbn [fold_left]. set (heads := fold_left head_step es ∅) in *. unfold head_step.
  assert (∀ (P : Prop), (∀ e', e' ∈ es → (ce_author e', ce_log_id e') = (ce_author e, ce_log_id e) → ce_seq_num e' ≤ ce_seq_num e) →
    is_head (es ++ [e]) e) as Hnew.
  { intros _ Hmax. split; [set_solver|]. intros e' [He'| ->%list_elem_of_singleton]%elem_of_app Ha Hl; [|done]. apply Hmax; [done|congruence]. }
  assert (∀ e0, is_head es e0 → ((ce_author e, ce_log_id e) = (ce_author e0, ce_log_id e0) → ce_seq_num e ≤ ce_seq_num e0) → is_head (es ++ [e]) e0) as Hold.
  { intros e0 [H0 Hmax] Hle. split; [set_solver|]. intros e' [He'| ->%list_elem_of_singleton]%elem_of_app Ha Hl; [by apply Hmax|]. apply Hle. congruence. }
  destruct (decide (k = (ce_author e, ce_log_id e))) as [->|Hk].
  - destruct (heads !! (ce_author e, ce_log_id e)) as [cur|] eqn:Ec.
    + destruct IH as (e0 & H0 & Hke & ->). cbn [fst]. destruct (bool_decide_reflect (ce_seq_num e0 < ce_seq_num e)) as [Hlt|Hge].
      * rw lookup_insert_eq. exists e. split_and!; [|done|done]. apply (Hnew True). intros e' He' Hk'.
        destruct H0 as [_ Hm]. specialize (Hm e' He'). rw -Hke in Hk'. injection Hk' as H1 H2. specialize (Hm H1 H2). lia.
      * rw Ec. exists e0. split_and!; [|done|done]. apply Hold; [done|lia].
    + rw lookup_insert_eq. exists e. split_and!; [|done|done]. apply (Hnew True). intros e' He' Hk'. by destruct (IH e' He').
  - assert (match heads !! (ce_author e, ce_log_id e) with
      | Some current => if bool_decide (current.1 < ce_seq_num e) then <[(ce_author e, ce_log_id e) := (ce_seq_num e, ce_operation e)]> heads else heads
      | None => <[(ce_author e, ce_log_id e) := (ce_seq_num e, ce_operation e)]> heads end !! k = heads !! k) as ->.
    { repeat case_match; rw ?lookup_insert_ne //. }
    destruct (heads !! k) as [so|].
    + destruct IH as (e0 & H0 & <- & ->). exists e0. split_and!; [|done|done]. apply Hold; [done|]. intros Heq. by rw Heq in Hk.
    + intros e' [He'| ->%list_elem_of_singleton]%elem_of_app; [by apply IH|congruence].
Qed.

Lemma observed_frontier_ok es f :
  observed_frontier Lle es = Ok f → no_fork es ∧ ∀ h, h ∈ f ↔ ∃ e, is_head es e ∧ ce_operation e = h.
Proof.
  unfold observed_frontier. destruct (validate_sequences es) as [[]|] eqn:Ev; [|done]. intros [= <-]. apply validate_sequences_ok in Ev.
  split; [done|]. intros h. rw list_elem_of_fmap. split.
  - intros ([k so] & -> & Hin). rw merge_sort_Permutation elem_of_map_to_list in Hin. pose proof (heads_spec es k) as Hs. rw Hin in Hs.
    destruct Hs as (e & He & _ & ->). by exists e.
  - intros (e & He & <-). pose proof (heads_spec es (ce_author e, ce_log_id e)) as Hs.
    destruct (fold_left head_step es ∅ !! (ce_author e, ce_log_id e)) as [so|] eqn:Eh; [|by destruct (Hs e (proj1 He))].
    destruct Hs as (e' & He' & [= Ha Hl] & ->). exists (ce_author e, ce_log_id e, (ce_seq_num e', ce_operation e')).
    split; [|by rw merge_sort_Permutation elem_of_map_to_list]. cbn. destruct He as [H1 H2], He' as [H3 H4].
    apply Ev; [done|done|done|done|]. specialize (H2 e' H3 Ha Hl). specialize (H4 e H1 (eq_sym Ha) (eq_sym Hl)). lia.
Qed.

Lemma author_head_ok es a l s b :
  author_head es a l = Ok (s, b) →
  no_fork es ∧ (∀ e, e ∈ es → ce_author e = a → ce_log_id e = l → ce_seq_num e < s) ∧
  match b with
  | Some h => ∃ e, is_head es e ∧ ce_author e = a ∧ ce_log_id e = l ∧ ce_operation e = h ∧ s = ce_seq_num e + 1
  | None => s = 0 ∧ ∀ e, e ∈ es → ¬ (ce_author e = a ∧ ce_log_id e = l)
  end.
Proof.
  unfold author_head. destruct (validate_sequences es) as [[]|] eqn:Ev; [|done]. apply validate_sequences_ok in Ev.
  pose proof (max_by_seq_spec None (filter (λ e, ce_author e = a ∧ ce_log_id e = l) es)) as Hm.
  destruct (max_by_seq _ _) as [m|].
  - destruct Hm as ([[=]|[[Ha Hl] Hin]%list_elem_of_filter] & _ & Hmax).
    assert (∀ e, e ∈ es → ce_author e = a → ce_log_id e = l → ce_seq_num e ≤ ce_seq_num m) as Hmax'.
    { intros e He H1 H2. apply Hmax, list_elem_of_filter. done. }
    case_bool_decide; [done|]. intros [= <- <-]. split_and!; [done| |].
    + intros e He H1 H2. specialize (Hmax' e He H1 H2). lia.
    + exists m. split_and!; try done. split; [done|]. intros e He H1 H2. apply Hmax'; congruence.
  - destruct Hm as [_ Hnil]. intros [= <- <-]. assert (∀ e, e ∈ es → ¬ (ce_author e = a ∧ ce_log_id e = l)) as Hno.
    { intros e He Hp. apply (elem_of_nil (A := Entry) e). rw -Hnil. by apply list_elem_of_filter. }
    split_and!; [done| |done|done]. intros e He H1 H2. by destruct (Hno e He).
Qed.

(** An operation written from the observed frontier and the
    author's head extends the history properly.  With parents from
    [observed_frontier] and position and backlink from [author_head], it takes a
    position past every operation of its author's log, so no fork appears; every
    dependency it names is a known operation; and it depends, directly, on the
    head of every log it has seen. *)
Theorem next_operation_extends es a l s b parents h :
  observed_frontier Lle es = Ok parents → author_head es a l = Ok (s, b) →
  let e := mkCausalEntry h a l s b parents in
  validate_sequences (es ++ [e]) = Ok tt ∧
  (∀ d, d ∈ dependencies e → ∃ e', e' ∈ es ∧ ce_operation e' = d) ∧
  (∀ e', is_head es e' → ce_operation e' ∈ dependencies e) ∧
  (∀ e', e' ∈ es → ce_author e' = a → ce_log_id e' = l → ce_seq_num e' < s).
Proof.
  intros (Hf & Hpar)%observed_frontier_ok (_ & Hlt & Hb)%author_head_ok e. split_and!.
  - apply validate_sequences_ok. intros e1 e2 [H1| ->%list_elem_of_singleton]%elem_of_app [H2| ->%list_elem_of_singleton]%elem_of_app Ha Hl Hs; [by apply Hf| | |done]; cbn in *.
    + specialize (Hlt e1 H1 Ha Hl). lia.
    + specialize (Hlt e2 H2 (eq_sym Ha) (eq_sym Hl)). lia.
  - intros d. unfold dependencies, e. cbn. rw elem_of_list_to_set elem_of_app. intros [Hd|(e' & [He' _] & Hop)%Hpar]; [|by exists e'].
    destruct b as [bh|]; cbn in Hd; [|by apply elem_of_nil in Hd]. apply list_elem_of_singleton in Hd as ->. destruct Hb as (e' & [He' _] & _ & _ & Ho & _). by exists e'.
  - intros e' He'. unfold dependencies, e. cbn. rw elem_of_list_to_set elem_of_app. right. apply Hpar. by exists e'.
  - done.
Qed.
End heads.
