(* ===== verification/CausalOrder.v ===== *)
(** The causal projection is correct
    (crates/stickleback/src/causal.rs, [causal_projection]).

    [needs] is what an operation lacks, [complete] the operations that lack
    nothing, [run] the order the projection promises: at each step the least
    operation, by author, log, position and hash, whose dependencies are all
    placed.  The four phases of the source (index, link, propagate what is
    missing, order) are related to these in turn.

    The theorems: the projection always returns and every result is right,
    errors included; it depends on the set of entries only; and once the missing
    history arrives everything is ordered. *)

From S2P Require Import Prelude Causal.
From stdpp Require Import relations.

Local Open Scope nat_scope.

Section order.
Context {L : Type} `{Countable L} (Lle : relation L) `{!RelDecision Lle, !TotalOrder Lle}.
Abbreviation Entry := (CausalEntry L).
Implicit Types (e : Entry) (es : list Entry) (a b h d : Z) (i j p k : nat).

(** ** What a history lacks *)

Definition known es a : Prop := ∃ e, e ∈ es ∧ ce_operation e = a.
Definition dep es a b : Prop := ∃ e, e ∈ es ∧ ce_operation e = a ∧ b ∈ dependencies e.

Inductive needs es : Z → Z → Prop :=
| needs_direct a h : dep es a h → ¬ known es h → needs es a h
| needs_via a b h : dep es a b → needs es b h → needs es a h.

Definition complete es a : Prop := known es a ∧ ∀ h, ¬ needs es a h.
Definition acyclic es : Prop := ∀ a, complete es a → ¬ tc (dep es) a a.

Lemma needs_known es a h : needs es a h → known es a.
Proof. by destruct 1 as [? ? (e & ? & ? & _)|? ? ? (e & ? & ? & _)]; exists e. Qed.

Lemma known_dec es a : known es a ∨ ¬ known es a.
Proof.
  destruct (decide (a ∈ ce_operation <$> es)) as [(e & -> & He)%list_elem_of_fmap|Hn]; [left; by exists e|right].
  intros (e & He & <-). apply Hn, list_elem_of_fmap. by exists e.
Qed.

Lemma complete_dep es a b : complete es a → dep es a b → complete es b.
Proof.
  intros [_ Hn] Hd. split.
  - destruct (known_dec es b) as [|Hk]; [done|]. destruct (Hn b). by apply needs_direct.
  - intros h Hb. destruct (Hn h). by eapply needs_via.
Qed.

(** ** The promised order *)

Definition entry_key e : Z * L * Z * Z := (ce_author e, ce_log_id e, ce_seq_num e, ce_operation e).
Definition entry_le : relation (Z * L * Z * Z) := lex_le (lex_le (lex_le Z.le Lle) Z.le) Z.le.

#[local] Instance entry_le_order : TotalOrder entry_le.
Proof. unfold entry_le. apply _. Qed.
#[local] Instance order_le_order : TotalOrder (order_le Lle).
Proof. unfold order_le. apply _. Qed.
#[local] Instance order_le_total : Total (order_le Lle).
Proof. intros p q. destruct (trichotomy (strict (order_le Lle)) p q) as [[? _]|[->|[? _]]]; [by left|left; reflexivity|by right]. Qed.

(** [e] can be placed after [done]. *)
Definition available es (done : list Z) e : Prop :=
  e ∈ es ∧ complete es (ce_operation e) ∧ (ce_operation e ∉ done) ∧ ∀ d, d ∈ dependencies e → d ∈ done.

Inductive run es : list Z → list Z → Prop :=
| run_stop done : (∀ e, ¬ available es done e) → run es done []
| run_step done e rest :
    available es done e → (∀ e', available es done e' → entry_le (entry_key e) (entry_key e')) →
    run es (done ++ [ce_operation e]) rest → run es done (ce_operation e :: rest).

Lemma run_unique es es' done l l' :
  (∀ done e, available es done e ↔ available es' done e) → run es done l → run es' done l' → l = l'.
Proof.
  intros Hav Hl. revert l'. induction Hl as [done Hno|done e rest He Hmin _ IH]; intros l' Hl'; inversion Hl' as [? Hno'|? e' rest' He' Hmin' Hrest']; subst; [done| | |].
  - by apply Hav, Hno in He'.
  - by apply Hav, Hno' in He.
  - assert (entry_key e = entry_key e') as Hk.
    { apply (anti_symm entry_le); [by apply Hmin, Hav|by apply Hmin', Hav]. }
    injection Hk as _ _ _ Hop. rw -Hop. f_equal. apply IH. by rw Hop.
Qed.

Lemma run_end es done l : run es done l → ∀ e, ¬ available es (done ++ l) e.
Proof. induction 1 as [done Hno|done e rest _ _ _ IH]; [by rw app_nil_r|]. by rw -app_assoc in IH. Qed.

Lemma entries_unique es e e' : NoDup (ce_operation <$> es) → e ∈ es → e' ∈ es → ce_operation e = ce_operation e' → e = e'.
Proof.
  intros Hnd [i Hi]%list_elem_of_lookup [j Hj]%list_elem_of_lookup Heq.
  assert (i = j) as -> by (eapply (NoDup_lookup (ce_operation <$> es)); [done|by rw list_lookup_fmap Hi|by rw list_lookup_fmap Hj /= Heq]). congruence.
Qed.

Lemma run_before es done l : run es done l → ∀ k e d, l !! k = Some (ce_operation e) → e ∈ es → NoDup (ce_operation <$> es) →
  d ∈ dependencies e → d ∈ done ++ take k l.
Proof.
  induction 1 as [done Hno|done e0 rest (H0 & _ & _ & Hd0) _ _ IH]; intros k e d Hk He Hnd Hd; [done|]. destruct k as [|k]; cbn in Hk.
  - injection Hk as Hop. rw app_nil_r. apply Hd0. by assert (e0 = e) as -> by by apply (entries_unique es).
  - specialize (IH k e d Hk He Hnd Hd). by rw -app_assoc in IH.
Qed.

(** Each step of a run takes the least operation that can be placed. *)
Lemma run_least es done l : run es done l → ∀ k e e', l !! k = Some (ce_operation e) → e ∈ es → NoDup (ce_operation <$> es) →
  available es (done ++ take k l) e' → entry_le (entry_key e) (entry_key e').
Proof.
  induction 1 as [done Hno|done e0 rest (H0 & _) Hmin _ IH]; intros k e e' Hk He Hnd Hav; [done|]. destruct k as [|k]; cbn in Hk.
  - injection Hk as Hop. rw app_nil_r in Hav. assert (e0 = e) as <- by by apply (entries_unique es). by apply Hmin.
  - apply (IH k e e' Hk He Hnd). by rw -app_assoc.
Qed.

(** ** Indexing *)

Lemma index_ops_ok k es m m' :
  index_ops k es m = Ok m' →
  NoDup (ce_operation <$> es) ∧
  ∀ h i, m' !! h = Some i ↔ m !! h = Some i ∨ ∃ j e, i = k + j ∧ es !! j = Some e ∧ ce_operation e = h.
Proof.
  revert k m. induction es as [|e es IH]; intros k m; cbn [index_ops].
  { intros [= ->]. split; [constructor|]. intros h i. split; [by left|]. by intros [|(j & e & _ & ? & _)]. }
  destruct (m !! ce_operation e) eqn:Em; [done|]. intros (Hnd & Hm')%IH. split.
  - cbn. constructor; [|done]. intros (e' & Heq & [j Hj]%list_elem_of_lookup)%list_elem_of_fmap.
    assert (m' !! ce_operation e = Some k) as H1 by (apply Hm'; left; apply lookup_insert_eq).
    assert (m' !! ce_operation e = Some (S k + j)) as H2 by (apply Hm'; right; by exists j, e'). rw H1 in H2. injection H2. lia.
  - intros h i. rw Hm' lookup_insert_Some. split.
    + intros [[[<- <-]|[_ ?]]|(j & e' & -> & Hj & <-)]; [right; exists 0, e; split_and!; [lia|done..]|by left|].
      right. exists (S j), e'. split_and!; [lia|done..].
    + intros [Hh|([|j] & e' & -> & Hj & <-)]; [|cbn in Hj..].
      * left. right. split; [|done]. intros <-. congruence.
      * injection Hj as ->. left. left. split; [done|lia].
      * right. exists j, e'. split_and!; [lia|done..].
Qed.

Lemma index_ops_err k es m err :
  index_ops k es m = Err err → err = DuplicateOperation ∧
  ¬ (NoDup (ce_operation <$> es) ∧ ∀ e, e ∈ es → m !! ce_operation e = None).
Proof.
  revert k m. induction es as [|e es IH]; intros k m; cbn [index_ops]; [done|].
  destruct (m !! ce_operation e) eqn:Em.
  - intros [= <-]. split; [done|]. intros [_ Hall]. specialize (Hall e ltac:(by left)). congruence.
  - intros (-> & Hn)%IH. split; [done|]. intros [[Hni Hnd]%NoDup_cons Hall]. apply Hn. split; [done|].
    intros e' He'. rw lookup_insert_ne; [apply Hall; by right|]. intros Heq. apply Hni, list_elem_of_fmap. by exists e'.
Qed.

(** ** Completeness *)

Definition at_ {A} (x : A) (v : list A) i : A := default x (v !! i).
Abbreviation roots_at := (at_ (∅ : gset Z)).

Definition completes (missing : list (gset Z)) : list bool := (λ roots : gset Z, bool_decide (roots = ∅)) <$> missing.

Lemma completes_spec es missing :
  length missing = length es → (∀ i e h, es !! i = Some e → h ∈ roots_at missing i ↔ needs es (ce_operation e) h) →
  ∀ i, is_complete (completes missing) i = true ↔ ∃ e, es !! i = Some e ∧ complete es (ce_operation e).
Proof.
  intros Hmlen Hexact i. unfold is_complete, completes. rw list_lookup_fmap. destruct (missing !! i) as [ms|] eqn:Em; cbn.
  - destruct (lookup_lt_is_Some_2 es i) as [e He]; [apply lookup_lt_Some in Em; lia|]. assert (roots_at missing i = ms) as Hat by (unfold at_; by rw Em).
    rw bool_decide_eq_true. split.
    + intros ->. exists e. split; [done|]. split; [exists e; split; [by eapply list_elem_of_lookup_2|done]|].
      intros h Hn. apply (Hexact i e h He) in Hn. rw Hat in Hn. set_solver.
    + intros (e' & He' & _ & Hn). assert (e' = e) as -> by congruence. apply set_eq. intros h. rw -Hat (Hexact i e) //. set_solver.
  - split; [done|]. intros (e & He & _). apply lookup_ge_None in Em. apply lookup_lt_Some in He. lia.
Qed.

(** ** Linking *)

Section phases.
Context (es : list Entry) (by_hash : gmap Z nat).
Hypothesis Hidx : ∀ h i, by_hash !! h = Some i ↔ ∃ e, es !! i = Some e ∧ ce_operation e = h.
Hypothesis Huniq : NoDup (ce_operation <$> es).

(** Entry [i] depends on entry [p]. *)
Definition dep_on i p : Prop := ∃ e d, es !! i = Some e ∧ d ∈ dependencies e ∧ by_hash !! d = Some p.

Lemma by_hash_inj d d' p : by_hash !! d = Some p → by_hash !! d' = Some p → d = d'.
Proof. rw !Hidx. intros (e & He & <-) (e' & He' & <-). congruence. Qed.

Lemma by_hash_None h : by_hash !! h = None ↔ ¬ known es h.
Proof.
  split.
  - intros Hn (e & [i Hi]%list_elem_of_lookup & <-). assert (by_hash !! ce_operation e = Some i) by (apply Hidx; by exists e). congruence.
  - intros Hk. destruct (by_hash !! h) as [i|] eqn:E; [|done]. apply Hidx in E as (e & He & <-). destruct Hk. exists e. split; [by eapply list_elem_of_lookup_2|done].
Qed.

Lemma entry_unique e e' : e ∈ es → e' ∈ es → ce_operation e = ce_operation e' → e = e'.
Proof. by apply entries_unique. Qed.

Lemma link_fold_dependents index ds acc p l' :
  NoDup ds → (fold_left (link_dependency by_hash index) ds acc).1 !! p = Some l' →
  ∃ l, acc.1 !! p = Some l ∧ (l' = l ∧ (∀ d, d ∈ ds → by_hash !! d ≠ Some p) ∨ l' = l ++ [index] ∧ ∃ d, d ∈ ds ∧ by_hash !! d = Some p).
Proof.
  revert acc. induction ds as [|d ds IH]; intros acc Hnd; cbn [fold_left].
  { intros Hl. exists l'. split; [done|]. left. split; [done|]. by intros d ?%elem_of_nil. }
  apply NoDup_cons in Hnd as [Hd Hnd]. intros (l & Hl & Hor)%IH; [|done]. unfold link_dependency in Hl.
  destruct (by_hash !! d) as [q|] eqn:Eq; cbn in Hl; cycle 1.
  { exists l. split; [done|]. destruct Hor as [[-> Hno]|[-> (d' & Hd' & Hq)]]; [left|right]; (split; [done|]).
    - intros d' [->|Hd']%elem_of_cons; [congruence|by apply Hno].
    - exists d'. split; [by right|done]. }
  destruct (decide (q = p)) as [->|Hne].
  - rw list_lookup_alter_eq in Hl. destruct (acc.1 !! p) as [l0|]; [|done]. injection Hl as <-. exists l0. split; [done|]. right.
    destruct Hor as [[-> _]|[-> (d' & Hd' & Hq)]]; [|by assert (d' = d) as -> by by eapply by_hash_inj].
    split; [done|]. exists d. split; [by left|done].
  - rw list_lookup_alter_ne // in Hl. exists l. split; [done|]. destruct Hor as [[-> Hno]|[-> (d' & Hd' & Hq)]]; [left|right]; (split; [done|]).
    + intros d' [->|Hd']%elem_of_cons; [congruence|by apply Hno].
    + exists d'. split; [by right|done].
Qed.

Lemma link_fold_missing index ds acc i ms' :
  (fold_left (link_dependency by_hash index) ds acc).2 !! i = Some ms' →
  ∃ ms, acc.2 !! i = Some ms ∧ ∀ h, h ∈ ms' ↔ h ∈ ms ∨ (i = index ∧ h ∈ ds ∧ by_hash !! h = None).
Proof.
  revert acc. induction ds as [|d ds IH]; intros acc; cbn [fold_left].
  { intros Hl. exists ms'. split; [done|]. set_solver. }
  intros (ms & Hms & Hiff)%IH. unfold link_dependency in Hms. destruct (by_hash !! d) as [q|] eqn:Eq; cbn in Hms.
  { exists ms. split; [done|]. intros h. rw Hiff elem_of_cons. naive_solver congruence. }
  destruct (decide (i = index)) as [->|Hne].
  - rw list_lookup_alter_eq in Hms. destruct (acc.2 !! index) as [ms0|]; [|done]. injection Hms as <-. exists ms0. split; [done|].
    intros h. rw Hiff elem_of_union elem_of_singleton elem_of_cons. naive_solver.
  - rw list_lookup_alter_ne // in Hms. exists ms. split; [done|]. intros h. rw Hiff. naive_solver.
Qed.

Lemma link_fold_lengths index ds acc :
  length (fold_left (link_dependency by_hash index) ds acc).1 = length acc.1 ∧
  length (fold_left (link_dependency by_hash index) ds acc).2 = length acc.2.
Proof.
  revert acc. induction ds as [|d ds IH]; intros acc; cbn [fold_left]; [done|]. destruct (IH (link_dependency by_hash index acc d)) as [-> ->].
  unfold link_dependency. destruct (by_hash !! d); cbn; by rw length_alter.
Qed.

Lemma link_entries_spec k rest acc :
  (∀ l, l ∈ acc.1 → NoDup l ∧ ∀ i, i ∈ l → i < k) →
  let res := link_entries by_hash k rest acc in
  (length res.1 = length acc.1 ∧ length res.2 = length acc.2) ∧
  (∀ p l', res.1 !! p = Some l' → NoDup l' ∧ ∃ l, acc.1 !! p = Some l ∧ ∀ i, i ∈ l' ↔ i ∈ l ∨
    ∃ j e d, i = k + j ∧ rest !! j = Some e ∧ d ∈ dependencies e ∧ by_hash !! d = Some p) ∧
  (∀ i ms', res.2 !! i = Some ms' → ∃ ms, acc.2 !! i = Some ms ∧ ∀ h, h ∈ ms' ↔ h ∈ ms ∨
    ∃ j e, i = k + j ∧ rest !! j = Some e ∧ h ∈ dependencies e ∧ by_hash !! h = None).
Proof.
  revert k acc. induction rest as [|e rest IH]; intros k acc Hacc; cbn [link_entries].
  { split_and!; [done|done| |].
    - intros p l' Hl. split; [by apply (Hacc l'), (list_elem_of_lookup_2 _ p)|]. exists l'. split; [done|]. intros i. naive_solver.
    - intros i ms' Hm. exists ms'. split; [done|]. intros h. naive_solver. }
  set (acc1 := fold_left (link_dependency by_hash k) (bt_set (dependencies e)) acc).
  destruct (link_fold_lengths k (bt_set (dependencies e)) acc) as [Hl1 Hl2]. fold acc1 in Hl1, Hl2.
  assert (∀ p l', acc1.1 !! p = Some l' → ∃ l, acc.1 !! p = Some l ∧ (l' = l ∧ (∀ d, d ∈ dependencies e → by_hash !! d ≠ Some p) ∨
    l' = l ++ [k] ∧ ∃ d, d ∈ dependencies e ∧ by_hash !! d = Some p)) as Hd.
  { intros p l' Hp. apply link_fold_dependents in Hp as (l & Hl & Hor); [|apply bt_set_NoDup]. exists l. split; [done|].
    setoid_rewrite elem_of_bt_set in Hor. done. }
  destruct (IH (S k) acc1) as ([HL1 HL2] & HD & HM).
  { intros l' [p Hp]%list_elem_of_lookup. apply Hd in Hp as (l & Hl & Hor). destruct (Hacc l) as [Hnd Hlt]; [by eapply list_elem_of_lookup_2|].
    destruct Hor as [[-> _]|[-> _]]; [split; [done|]; intros i Hi; specialize (Hlt i Hi); lia|]. split.
    - apply NoDup_app. split_and!; [done| |apply NoDup_singleton]. intros x Hx ->%list_elem_of_singleton. specialize (Hlt k Hx). lia.
    - intros i [Hi| ->%list_elem_of_singleton]%elem_of_app; [specialize (Hlt i Hi); lia|lia]. }
  split_and!; [congruence|congruence| |].
  - intros p l' Hp. destruct (HD p l' Hp) as (Hnd & l1 & Hl & Hiff). split; [done|]. destruct (Hd p l1 Hl) as (l & Hl0 & Hor).
    exists l. split; [done|]. intros i. rw Hiff. split.
    + intros [Hi|(j & e' & d & -> & Hj & Hde & Hb)]; [|right; exists (S j), e', d; split_and!; [lia|done..]].
      destruct Hor as [[-> _]|[-> (d & Hde & Hb)]]; [by left|]. apply elem_of_app in Hi as [Hi| ->%list_elem_of_singleton]; [by left|right].
      exists 0, e, d. split_and!; [lia|done..].
    + intros [Hi|([|j] & e' & d & -> & Hj & Hde & Hb)]; [|cbn in Hj..].
      * left. destruct Hor as [[-> _]|[-> _]]; set_solver.
      * injection Hj as ->. left. rw Nat.add_0_r. destruct Hor as [[_ Hno]|[-> _]]; [by destruct (Hno d Hde)|set_solver].
      * right. exists j, e', d. split_and!; [lia|done..].
  - intros i ms' Hi. destruct (HM i ms' Hi) as (ms1 & Hms1 & Hiff). apply link_fold_missing in Hms1 as (ms & Hms & Hiff1).
    exists ms. split; [done|]. intros h. rw Hiff Hiff1 elem_of_bt_set. split.
    + intros [[?|(-> & ? & ?)]|(j & e' & -> & Hj & ? & ?)]; [by left|right; exists 0, e; split_and!; [lia|done..]|].
      right. exists (S j), e'. split_and!; [lia|done..].
    + intros [?|([|j] & e' & -> & Hj & ? & ?)]; [by do 2 left|cbn in Hj..]; [|right; exists j, e'; split_and!; [lia|done..]].
      injection Hj as ->. left. right. split_and!; [lia|done..].
Qed.

(** ** Propagating what is missing *)

(** How much the sets can still grow within [U]. *)
Definition slack (U : gset Z) (missing : list (gset Z)) : nat := sum_list_with (λ ms, size U - size ms) missing.

Lemma slack_insert U missing i ms ms' :
  missing !! i = Some ms → slack U (<[i := ms']> missing) + (size U - size ms) = slack U missing + (size U - size ms').
Proof.
  revert i. induction missing as [|x missing IH]; intros [|i] Hi; cbn [lookup list_lookup] in Hi; [done|done| |]; unfold slack in *.
  - injection Hi as ->. cbn [insert list_insert sum_list_with]. lia.
  - specialize (IH i Hi). cbn [insert list_insert sum_list_with]. rw -!Nat.add_assoc. f_equal. exact IH.
Qed.

Lemma block_fold_spec U roots ds acc :
  roots ⊆ U → (∀ ms, ms ∈ acc.1 → ms ⊆ U) →
  let res := fold_left (block_dependent roots) ds acc in
  length res.1 = length acc.1 ∧ (∀ ms, ms ∈ res.1 → ms ⊆ U) ∧
  (∀ i, i < length acc.1 → roots_at res.1 i = if bool_decide (i ∈ ds) then roots_at acc.1 i ∪ roots else roots_at acc.1 i) ∧
  ∃ new, res.2 = acc.2 ++ new ∧ (∀ i, i < length acc.1 → i ∈ ds → i ∉ new → roots ⊆ roots_at acc.1 i) ∧
    length new + slack U res.1 ≤ slack U acc.1.
Proof.
  revert acc. induction ds as [|d ds IH]; intros acc HrU HU; cbn [fold_left].
  { split_and!; [done|done|intros i _; by rw bool_decide_eq_false_2; [|apply not_elem_of_nil]|]. exists []. rw app_nil_r. split_and!; [done|by intros ? _ ?%elem_of_nil|cbn; lia]. }
  unfold block_dependent at 2 4 6 8 10. destruct (acc.1 !! d) as [before|] eqn:Ed; cycle 1.
  { destruct (IH acc HrU HU) as (H1 & H2 & H3 & new & H4 & H5 & H6). apply lookup_ge_None in Ed. split_and!; [done|done| |].
    - intros i Hi. rw H3 //. erewrite (bool_decide_ext (i ∈ d :: ds)); [done|]. rw elem_of_cons. split; [intros [->|]; [lia|done]|by right].
    - exists new. split_and!; [done| |done]. intros i Hi [->|Hin]%elem_of_cons; [lia|by apply H5]. }
  set (acc1 := (<[d := before ∪ roots]> acc.1, if bool_decide (size (before ∪ roots) ≠ size before) then acc.2 ++ [d] else acc.2)).
  assert (before ⊆ U) as HbU by by apply HU, (list_elem_of_lookup_2 _ d).
  assert (∀ i, i < length acc.1 → roots_at acc1.1 i = if bool_decide (i = d) then roots_at acc.1 i ∪ roots else roots_at acc.1 i) as Hat.
  { intros i Hi. unfold at_, acc1. cbn. case_bool_decide as Hid.
    - subst. rw list_lookup_insert_eq; [|by eapply lookup_lt_Some]. by rw Ed.
    - by rw list_lookup_insert_ne. }
  destruct (IH acc1 HrU) as (H1 & H2 & H3 & new & H4 & H5 & H6).
  { intros ms [i Hi]%list_elem_of_lookup. unfold acc1 in Hi. cbn in Hi. apply list_lookup_insert_Some in Hi as [(-> & <- & _)|[_ Hi]]; [set_solver|].
    by apply HU, (list_elem_of_lookup_2 _ i). }
  assert (length acc1.1 = length acc.1) as Hlen by (unfold acc1; cbn; by rw length_insert).
  split_and!; [congruence|done| |].
  - intros i Hi. rw H3; [|lia]. rw Hat //. destruct (bool_decide_reflect (i = d)) as [->|Hne].
    + rw (bool_decide_eq_true_2 (d ∈ d :: ds)); [|by left]. case_bool_decide; [set_solver|done].
    + erewrite (bool_decide_ext (i ∈ d :: ds)); [done|]. rw elem_of_cons. naive_solver.
  - pose proof (slack_insert U acc.1 d before (before ∪ roots) Ed) as Hsl. change acc1.1 with (<[d := before ∪ roots]> acc.1) in H6.
    assert (acc1.2 = if bool_decide (size (before ∪ roots) ≠ size before) then acc.2 ++ [d] else acc.2) as Hq by done. rw Hq in H4. clear Hq.
    assert (size before ≤ size (before ∪ roots) ≤ size U) as Hsz by (split; apply subseteq_size; set_solver).
    destruct (bool_decide_reflect (size (before ∪ roots) ≠ size before)) as [Hgrow|Hsame].
    + exists (d :: new). rw H4 -app_assoc. split_and!; [done| |cbn [length]; lia].
      intros i Hi [->|Hin]%elem_of_cons Hni; [by destruct Hni; left|]. apply not_elem_of_cons in Hni as [Hne Hni].
      specialize (H5 i ltac:(lia) Hin Hni). rw Hat // bool_decide_eq_false_2 // in H5.
    + exists new. split_and!; [done| |lia]. apply dec_stable in Hsame.
      assert (before ∪ roots = before) as Hroots.
      { symmetry. apply (set_subseteq_size_eq before); [set_solver|lia]. }
      intros i Hi Hin Hni. destruct (decide (i = d)) as [->|Hne]; [unfold at_; rw Ed; cbn; set_solver|].
      apply elem_of_cons in Hin as [->|Hin]; [done|]. specialize (H5 i ltac:(lia) Hin Hni). rw Hat // bool_decide_eq_false_2 // in H5.
Qed.

Context (dependents : list (list nat)).
Hypothesis Hdl : length dependents = length es.
Hypothesis Hdeps : ∀ p l, dependents !! p = Some l → NoDup l ∧ ∀ i, i ∈ l ↔ dep_on i p.

Lemma dependents_at p i : i ∈ at_ [] dependents p ↔ dep_on i p.
Proof.
  unfold at_. destruct (dependents !! p) as [l|] eqn:E; cbn; [by apply Hdeps|]. split; [by intros ?%elem_of_nil|].
  intros (e & d & _ & _ & (ep & Hp & _)%Hidx). apply lookup_ge_None in E. apply lookup_lt_Some in Hp. lia.
Qed.

Lemma dep_on_dep i p e ep : dep_on i p → es !! i = Some e → es !! p = Some ep → dep es (ce_operation e) (ce_operation ep).
Proof.
  intros (e' & d & He & Hd & (ep' & Hp & <-)%Hidx) Hi Hp'. assert (e' = e) as -> by congruence. assert (ep' = ep) as -> by congruence.
  exists e. split; [by eapply list_elem_of_lookup_2|done].
Qed.

Record block_inv (missing0 missing : list (gset Z)) (blocked : list nat) : Prop := {
  bi_length : length missing = length es;
  bi_bound ms : ms ∈ missing → ms ⊆ all_dependencies es;
  bi_sound i e h : es !! i = Some e → h ∈ roots_at missing i → needs es (ce_operation e) h;
  bi_base i h : h ∈ roots_at missing0 i → h ∈ roots_at missing i;
  bi_closed p i : p ∉ blocked → dep_on i p → roots_at missing p ⊆ roots_at missing i
}.

Lemma block_loop_inv missing0 missing blocked fuel :
  block_inv missing0 missing blocked → length blocked + slack (all_dependencies es) missing ≤ fuel →
  ∃ missing', block_loop fuel dependents missing blocked = Some missing' ∧ block_inv missing0 missing' [].
Proof.
  revert missing blocked. induction fuel as [|fuel IH]; intros missing blocked Hinv Hf; (destruct blocked as [|index blocked]; cbn [block_loop]; [by exists missing|]);
    cbn [length] in Hf; [lia|]. change (default ∅ (missing !! index)) with (roots_at missing index). change (default [] (dependents !! index)) with (at_ [] dependents index).
  destruct Hinv as [Hlen HU Hsound Hbase Hclosed]. set (roots := roots_at missing index).
  assert (roots ⊆ all_dependencies es) as HrU.
  { unfold roots, at_. destruct (missing !! index) eqn:E; cbn; [by eapply HU, list_elem_of_lookup_2|set_solver]. }
  destruct (block_fold_spec _ roots (at_ [] dependents index) (missing, blocked) HrU HU) as (H1 & H2 & H3 & new & H4 & H5 & H6).
  set (acc := fold_left _ _ _) in *. cbn [fst snd] in *.
  assert (∀ i, roots_at missing i ⊆ roots_at acc.1 i) as Hmono.
  { intros i. destruct (decide (i < length missing)) as [Hi|Hi]; [rw H3 //; case_bool_decide; set_solver|].
    unfold at_ at 1. rw (proj2 (lookup_ge_None missing i)); [set_solver|lia]. }
  assert (∀ i p, dep_on i p → i < length missing) as Hrange by (intros i p (e & d & Hi%lookup_lt_Some & _); lia).
  apply IH; [|rw H4 length_app; lia]. split; [congruence|done| | |].
  - intros i e h He Hh. rw H3 in Hh; [|apply lookup_lt_Some in He; lia]. case_bool_decide as Hin; [|by eapply Hsound].
    apply elem_of_union in Hh as [Hh|Hh]; [by eapply Hsound|]. apply dependents_at in Hin. pose proof Hin as (? & ? & _ & _ & (ep & Hp & _)%Hidx).
    eapply needs_via; [by eapply dep_on_dep|]. by eapply Hsound.
  - intros i h Hh. by apply Hmono, Hbase.
  - intros p i Hp Hdep. rw H4 in Hp. apply not_elem_of_app in Hp as [Hpb Hpn].
    assert (roots_at acc.1 p = roots_at missing p) as ->.
    { destruct (decide (p < length missing)) as [Hlt|Hge].
      - rw H3 //. case_bool_decide as Hin; [|done]. specialize (H5 p Hlt Hin Hpn). set_solver.
      - unfold at_. rw !(proj2 (lookup_ge_None _ p)) //; lia. }
    destruct (decide (p = index)) as [->|Hne].
    + fold roots. rw H3; [|by eapply Hrange]. rw bool_decide_eq_true_2; [set_solver|by apply dependents_at].
    + etrans; [|apply Hmono]. apply Hclosed; [|done]. by apply not_elem_of_cons.
Qed.

Context (missing0 : list (gset Z)).
Hypothesis Hml : length missing0 = length es.
Hypothesis Hmissing : ∀ i ms, missing0 !! i = Some ms → ∀ h, h ∈ ms ↔ ∃ e, es !! i = Some e ∧ h ∈ dependencies e ∧ by_hash !! h = None.

Lemma block_inv_exact missing i e h :
  block_inv missing0 missing [] → es !! i = Some e → h ∈ roots_at missing i ↔ needs es (ce_operation e) h.
Proof.
  intros [Hlen _ Hsound Hbase Hclosed] He. split; [by apply Hsound|]. intros Hn. remember (ce_operation e) as a eqn:Ha. revert i e He Ha.
  induction Hn as [a h (e0 & H0 & <- & Hd) Hk|a b h (e0 & H0 & <- & Hd) Hn IH]; intros i e He Ha.
  all: assert (e0 = e) as -> by (apply entry_unique; [done|by eapply list_elem_of_lookup_2|done]).
  - apply Hbase. assert (is_Some (missing0 !! i)) as [ms Hms] by (apply lookup_lt_is_Some; apply lookup_lt_Some in He; lia).
    unfold at_. rw Hms. apply (Hmissing i ms Hms). exists e. split_and!; [done..|by apply by_hash_None].
  - destruct (needs_known _ _ _ Hn) as (eb & [p Hp]%list_elem_of_lookup & Hb). apply (Hclosed p i); [apply not_elem_of_nil| |by eapply IH].
    exists e, b. split_and!; [done..|]. apply Hidx. by exists eb.
Qed.

(** ** Ordering *)

Context (missing : list (gset Z)).
Hypothesis Hmlen : length missing = length es.
Hypothesis Hexact : ∀ i e h, es !! i = Some e → h ∈ roots_at missing i ↔ needs es (ce_operation e) h.

Lemma is_complete_spec i : is_complete (completes missing) i = true ↔ ∃ e, es !! i = Some e ∧ complete es (ce_operation e).
Proof. exact (completes_spec es missing Hmlen Hexact i). Qed.

(** Dependencies of [e] not yet in [order]. *)
Definition waiting (order : list nat) e : nat :=
  length (List.filter (λ d, match by_hash !! d with Some p => bool_decide (p ∉ order) | None => false end) (bt_set (dependencies e))).

Lemma complete_deps_indexed i e d :
  es !! i = Some e → complete es (ce_operation e) → d ∈ dependencies e →
  ∃ p ep, by_hash !! d = Some p ∧ es !! p = Some ep ∧ ce_operation ep = d ∧ complete es d.
Proof.
  intros He Hc Hd. assert (dep es (ce_operation e) d) as Hde by (exists e; split; [by eapply list_elem_of_lookup_2|done]).
  pose proof (complete_dep _ _ _ Hc Hde) as Hcd. destruct (by_hash !! d) as [p|] eqn:Ep; cycle 1.
  { by apply by_hash_None in Ep as []; destruct Hcd. }
  pose proof Ep as (ep & Hp & Ho)%Hidx. by exists p, ep.
Qed.

Lemma waiting_nil i e : es !! i = Some e → complete es (ce_operation e) → indegree_of by_hash (completes missing) i e = waiting [] e.
Proof.
  intros He Hc. unfold indegree_of. rw (proj2 (is_complete_spec i)); [|by exists e]. unfold waiting. f_equal.
  apply List.filter_ext_in. intros d Hd%list_elem_of_In%elem_of_bt_set.
  destruct (complete_deps_indexed i e d He Hc Hd) as (p & ep & -> & Hp & Hop & Hcd). rw (proj2 (is_complete_spec p)); [|exists ep; by rw Hop].
  symmetry. apply bool_decide_eq_true_2, not_elem_of_nil.
Qed.

Lemma waiting_zero order i e :
  es !! i = Some e → complete es (ce_operation e) →
  waiting order e = 0 ↔ ∀ d p, d ∈ dependencies e → by_hash !! d = Some p → p ∈ order.
Proof.
  intros He Hc. unfold waiting. rw length_zero_iff_nil. split.
  - intros Hnil d p Hd Hp. destruct (decide (p ∈ order)) as [|Hni]; [done|exfalso]. apply (in_nil (A := Z) (a := d)). rw -Hnil.
    apply filter_In. split; [by apply list_elem_of_In, elem_of_bt_set|]. rw Hp. by apply bool_decide_eq_true_2.
  - intros Hall. destruct (List.filter _ _) as [|d l] eqn:Ef; [done|]. assert (In d (d :: l)) as Hin by by left. rw -Ef in Hin.
    apply filter_In in Hin as [Hd%list_elem_of_In%elem_of_bt_set Hb]. destruct (by_hash !! d) as [p|] eqn:Ep; [|done].
    apply bool_decide_eq_true in Hb. by destruct Hb; eapply Hall.
Qed.

Lemma waiting_snoc order k e :
  (k ∉ order) →
  waiting order e = waiting (order ++ [k]) e + if bool_decide (∃ d, d ∈ dependencies e ∧ by_hash !! d = Some k) then 1 else 0.
Proof.
  intros Hk. unfold waiting. erewrite (bool_decide_ext _ (Exists (λ d, by_hash !! d = Some k) (bt_set (dependencies e)))); cycle 1.
  { rw Exists_exists. by setoid_rewrite elem_of_bt_set. }
  pose proof (bt_set_NoDup (dependencies e)) as Hnd. induction (bt_set (dependencies e)) as [|d l IH].
  { rw bool_decide_eq_false_2; [done|]. by intros ?%Exists_nil. }
  apply NoDup_cons in Hnd as [Hd Hnd]. specialize (IH Hnd). cbn [List.filter]. destruct (by_hash !! d) as [p|] eqn:Ep.
  - destruct (decide (p = k)) as [->|Hne].
    + rw (bool_decide_eq_true_2 (k ∉ order)) // (bool_decide_eq_false_2 (k ∉ order ++ [k])); [|set_solver].
      rw (bool_decide_eq_true_2 (Exists _ (d :: l))); [|by left]. rw bool_decide_eq_false_2 in IH; [cbn [length]; lia|].
      rw Exists_exists. intros (d' & Hd' & Hp'). by assert (d' = d) as -> by by eapply by_hash_inj.
    + erewrite (bool_decide_ext (p ∉ order ++ [k]) (p ∉ order)); [|set_solver].
      erewrite (bool_decide_ext (Exists _ (d :: l)) (Exists (λ d, by_hash !! d = Some k) l)); [|rw Exists_cons; naive_solver congruence].
      destruct (bool_decide (p ∉ order)); cbn [length]; rw IH; lia.
  - erewrite (bool_decide_ext (Exists _ (d :: l)) (Exists (λ d, by_hash !! d = Some k) l)); [done|rw Exists_cons; naive_solver congruence].
Qed.

Lemma pop_first_None ready : (∀ i, i ∈ ready → i < length es) → pop_first Lle es ready = None → ready = ∅.
Proof.
  intros Hr. unfold pop_first. destruct (merge_sort _ _) as [|x l] eqn:Es; [|done]. intros _. apply set_eq. intros i. split; [|set_solver].
  intros Hi. destruct (lookup_lt_is_Some_2 es i (Hr i Hi)) as [e He]. exfalso. apply (elem_of_nil (A := Z * L * Z * Z * nat) (order_key e i)).
  rw -Es merge_sort_Permutation list_elem_of_omap. exists i. split; [by apply elem_of_elements|]. by rw He.
Qed.

Lemma pop_first_Some ready k :
  pop_first Lle es ready = Some k →
  ∃ e, k ∈ ready ∧ es !! k = Some e ∧ ∀ j e', j ∈ ready → es !! j = Some e' → entry_le (entry_key e) (entry_key e').
Proof.
  unfold pop_first. set (keys := omap _ _). destruct (merge_sort (order_le Lle) keys) as [|x l] eqn:Es; [done|]. cbn. intros [= <-].
  assert (∀ y, y ∈ keys ↔ ∃ i e, i ∈ ready ∧ es !! i = Some e ∧ y = order_key e i) as Hkeys.
  { intros y. unfold keys. rw list_elem_of_omap. split.
    - intros (i & Hi%elem_of_elements & Hy). destruct (es !! i) as [e|] eqn:E; [|done]. injection Hy as <-. by exists i, e.
    - intros (i & e & Hi & He & ->). exists i. split; [by apply elem_of_elements|]. by rw He. }
  assert (x ∈ keys) as (i & e & Hi & He & ->)%Hkeys by (rw -(merge_sort_Permutation (order_le Lle) keys) Es; by left).
  exists e. split_and!; [done..|]. intros j e' Hj He'.
  assert (order_le Lle (order_key e i) (order_key e' j)) as Hle.
  { assert (order_key e' j ∈ merge_sort (order_le Lle) keys) as Hin by (rw merge_sort_Permutation; apply Hkeys; by exists j, e').
    assert (StronglySorted (order_le Lle) (merge_sort (order_le Lle) keys)) as Hs.
    { apply StronglySorted_merge_sort; apply _. }
    rw Es in Hs. rw Es in Hin. inversion Hs as [|? ? _ HF]; subst. apply elem_of_cons in Hin as [->|Hin]; [reflexivity|].
    rw Forall_forall in HF. by apply HF. }
  destruct Hle as [[Hle _]|[Heq _]]; cbn in *; [done|]. unfold entry_key. rw Heq. reflexivity.
Qed.

Record order_inv (indegree : list nat) (ready : gset nat) (order : list nat) : Prop := {
  oi_nodup : NoDup order;
  oi_complete i : i ∈ order → is_complete (completes missing) i = true;
  oi_length : length indegree = length es;
  oi_degree i e : es !! i = Some e → complete es (ce_operation e) → indegree !! i = Some (waiting order e);
  oi_ready i : i ∈ ready ↔ (i ∉ order) ∧ ∃ e, es !! i = Some e ∧ complete es (ce_operation e) ∧ waiting order e = 0;
  oi_done i e : i ∈ order → es !! i = Some e → waiting order e = 0
}.

Lemma release_fold (ds : list nat) indegree ready :
  NoDup ds → (∀ d : nat, d ∈ ds → is_complete (completes missing) d = true → ∃ c, indegree !! d = Some (S c)) →
  ∃ indegree' ready', fold_left (release (completes missing)) ds (Some (indegree, ready)) = Some (indegree', ready') ∧
    length indegree' = length indegree ∧
    (∀ i, indegree' !! i = if bool_decide (i ∈ ds ∧ is_complete (completes missing) i = true) then pred <$> indegree !! i else indegree !! i) ∧
    ∀ i, i ∈ ready' ↔ i ∈ ready ∨ (i ∈ ds ∧ is_complete (completes missing) i = true ∧ indegree !! i = Some 1).
Proof.
  revert indegree ready. induction ds as [|d ds IH]; intros indegree ready Hnd Hpos; cbn [fold_left].
  { exists indegree, ready. split_and!; [done..| |]; intros i; [rw bool_decide_eq_false_2; [done|]; by intros [?%elem_of_nil _]|].
    split; [by left|]. by intros [|(?%elem_of_nil & _)]. }
  apply NoDup_cons in Hnd as [Hd Hnd]. cbn [release mbind option_bind]. destruct (is_complete (completes missing) d) eqn:Ec; cbn [negb].
  - destruct (Hpos d) as [c Hc]; [by left|done|]. rw Hc. destruct (IH (<[d := c]> indegree) (if bool_decide (c = 0) then {[d]} ∪ ready else ready) Hnd) as (in' & re' & -> & Hl & Hi & Hr).
    { intros d' Hd' Hc'. destruct (Hpos d') as [c' Hc'']; [by right|done|]. exists c'. rw list_lookup_insert_ne //. by intros ->. }
    exists in', re'. split_and!; [done|by rw Hl length_insert| |].
    + intros i. rw Hi. destruct (decide (i = d)) as [->|Hne].
      * rw bool_decide_eq_false_2; [|naive_solver]. rw bool_decide_eq_true_2; [|split; [by left|done]]. rw list_lookup_insert_eq; [|by eapply lookup_lt_Some]. by rw Hc.
      * rw list_lookup_insert_ne //. erewrite (bool_decide_ext (i ∈ d :: ds ∧ _)); [done|]. rw elem_of_cons. naive_solver.
    + intros i. rw Hr. destruct (decide (i = d)) as [->|Hne].
      * rw Hc. split.
        -- intros [Hin|(? & _)]; [|done]. case_bool_decide as H0; [subst c|by left]. right. split; [by left|done].
        -- intros [Hin|(_ & _ & [= ->])]; left; [case_bool_decide; set_solver|]. rw bool_decide_eq_true_2 //. set_solver.
      * rw list_lookup_insert_ne //. rw elem_of_cons. case_bool_decide; set_solver.
  - destruct (IH indegree ready Hnd) as (in' & re' & -> & Hl & Hi & Hr); [intros d' Hd'; apply Hpos; by right|].
    exists in', re'. split_and!; [done|done| |].
    + intros i. rw Hi. erewrite (bool_decide_ext (i ∈ d :: ds ∧ _)); [done|]. rw elem_of_cons. naive_solver congruence.
    + intros i. rw Hr elem_of_cons. naive_solver congruence.
Qed.

Lemma order_inv_step indegree ready order k e :
  order_inv indegree ready order → k ∈ ready → es !! k = Some e →
  ∃ indegree' ready', fold_left (release (completes missing)) (at_ [] dependents k) (Some (indegree, ready ∖ {[k]})) = Some (indegree', ready') ∧
    order_inv indegree' ready' (order ++ [k]).
Proof.
  intros [Hnd Hcomp Hlen Hdeg Hready Hdone] Hk Hek. pose proof Hk as (Hko & e' & He' & Hce & Hw)%Hready. assert (e' = e) as -> by congruence.
  assert (∀ i ei, es !! i = Some ei → complete es (ce_operation ei) →
    waiting order ei = waiting (order ++ [k]) ei + if bool_decide (i ∈ at_ [] dependents k) then 1 else 0) as Hsnoc.
  { intros i ei Hi Hci. rw (waiting_snoc order k ei Hko). f_equal. erewrite bool_decide_ext; [done|]. rw dependents_at. unfold dep_on. naive_solver. }
  assert (NoDup (at_ [] dependents k)) as Hnds by (unfold at_; destruct (dependents !! k) eqn:E; [by eapply Hdeps|constructor]).
  destruct (release_fold (at_ [] dependents k) indegree (ready ∖ {[k]}) Hnds) as (in' & re' & Hfold & Hl & Hi & Hr).
  { intros d Hd (ed & Hed & Hcd)%is_complete_spec. rw (Hdeg d ed Hed Hcd) (Hsnoc d ed Hed Hcd) bool_decide_eq_true_2 //. exists (waiting (order ++ [k]) ed). f_equal. lia. }
  exists in', re'. split; [done|].
  assert (∀ i ei, es !! i = Some ei → complete es (ce_operation ei) → in' !! i = Some (waiting (order ++ [k]) ei)) as Hdeg'.
  { intros i ei Hei Hci. rw Hi (Hdeg i ei Hei Hci) (Hsnoc i ei Hei Hci).
    assert (is_complete (completes missing) i = true) as Hc by (apply is_complete_spec; by exists ei).
    case_bool_decide as Hb; [rw bool_decide_eq_true_2; [cbn; f_equal; lia|by destruct Hb]|]. rw bool_decide_eq_false_2; [f_equal; lia|]. naive_solver. }
  split.
  - apply NoDup_app. split_and!; [done| |apply NoDup_singleton]. intros x Hx ->%list_elem_of_singleton. done.
  - intros i [Hi'| ->%list_elem_of_singleton]%elem_of_app; [by apply Hcomp|]. apply is_complete_spec. by exists e.
  - congruence.
  - done.
  - intros i. rw Hr elem_of_difference elem_of_singleton not_elem_of_app list_elem_of_singleton. split.
    + intros [[Hir Hne]|(Hid & (ei & Hei & Hci)%is_complete_spec & H1)].
      * apply Hready in Hir as (Hio & ei & Hei & Hci & Hwi). split; [done|]. exists ei. split_and!; [done..|]. pose proof (Hsnoc i ei Hei Hci). lia.
      * rw (Hdeg i ei Hei Hci) (Hsnoc i ei Hei Hci) bool_decide_eq_true_2 // in H1. injection H1 as H1.
        pose proof (Hsnoc i ei Hei Hci) as Hs. rw bool_decide_eq_true_2 // in Hs. split; [|exists ei; split_and!; [done..|lia]]. split.
        -- intros Hio. pose proof (Hdone i ei Hio Hei). lia.
        -- intros ->. assert (ei = e) as -> by congruence. lia.
    + intros [[Hio Hne] (ei & Hei & Hci & Hwi)]. pose proof (Hsnoc i ei Hei Hci) as Hs. case_bool_decide as Hid.
      * right. split_and!; [done|apply is_complete_spec; by exists ei|]. rw (Hdeg i ei Hei Hci). f_equal. lia.
      * left. split; [|done]. apply Hready. split; [done|]. exists ei. split_and!; [done..|lia].
  - intros i ei [Hio| ->%list_elem_of_singleton]%elem_of_app Hei.
    + assert (complete es (ce_operation ei)) as Hci.
      { pose proof (Hcomp i Hio) as (ei' & Hei' & Hc)%is_complete_spec. congruence. }
      pose proof (Hdone i ei Hio Hei). pose proof (Hsnoc i ei Hei Hci). lia.
    + assert (ei = e) as -> by congruence. pose proof (Hsnoc k e Hek Hce). lia.
Qed.

(** The operations at indices. *)
Definition ops_of (l : list nat) : list Z := (λ i, default 0%Z (ce_operation <$> es !! i)) <$> l.

Lemma elem_of_ops_of order i e :
  (∀ j, j ∈ order → j < length es) → es !! i = Some e → ce_operation e ∈ ops_of order ↔ i ∈ order.
Proof.
  intros Hr He. unfold ops_of. rw list_elem_of_fmap. split.
  - intros (j & Heq & Hj). destruct (lookup_lt_is_Some_2 es j (Hr j Hj)) as [ej Hej]. rw Hej in Heq. cbn in Heq.
    assert (i = j) as ->; [|done]. eapply (NoDup_lookup (ce_operation <$> es)); [done|by rw list_lookup_fmap He|by rw list_lookup_fmap Hej /= Heq].
  - intros Hi. exists i. by rw He.
Qed.

Lemma order_inv_range indegree ready order : order_inv indegree ready order → ∀ j, j ∈ order → j < length es.
Proof. intros Hinv j Hj. pose proof (oi_complete _ _ _ Hinv j Hj) as (e & He & _)%is_complete_spec. by eapply lookup_lt_Some. Qed.

Lemma ready_available indegree ready order i e :
  order_inv indegree ready order → es !! i = Some e → i ∈ ready ↔ available es (ops_of order) e.
Proof.
  intros Hinv He. pose proof (order_inv_range _ _ _ Hinv) as Hr. rw (oi_ready _ _ _ Hinv). unfold available. rw (elem_of_ops_of order i e) //.
  split.
  - intros (Hio & e' & He' & Hc & Hw). assert (e' = e) as -> by congruence. split_and!; [by eapply list_elem_of_lookup_2|done|done|].
    intros d Hd. destruct (complete_deps_indexed i e d He Hc Hd) as (p & ep & Hp & Hep & <- & _). apply (elem_of_ops_of order p ep); [done..|].
    by eapply (waiting_zero order i e).
  - intros (_ & Hc & Hio & Hd). split; [done|]. exists e. split_and!; [done..|]. apply (waiting_zero order i e He Hc). intros d p Hde (ep & Hep & <-)%Hidx.
    by apply (elem_of_ops_of order p ep), Hd.
Qed.

Lemma order_loop_run fuel indegree ready order :
  order_inv indegree ready order → length es ≤ fuel + length order →
  ∃ rest, order_loop Lle fuel es dependents (completes missing) indegree ready order = Some (order ++ rest) ∧
    (∃ indegree' ready', order_inv indegree' ready' (order ++ rest)) ∧ run es (ops_of order) (ops_of rest).
Proof.
  revert indegree ready order. induction fuel as [|fuel IH]; intros indegree ready order Hinv Hf; cbn [order_loop];
    (destruct (pop_first Lle es ready) as [k|] eqn:Ep; cycle 1;
     [apply pop_first_None in Ep as ->; [|intros i (_ & e & He%lookup_lt_Some & _)%(oi_ready _ _ _ Hinv); done]; exists []; rw app_nil_r; split_and!; [done|by exists indegree, ∅|];
      apply run_stop; intros e Hav; pose proof Hav as ([i Hi]%list_elem_of_lookup & _); apply (ready_available _ _ _ i e Hinv Hi) in Hav; set_solver|]).
  all: apply pop_first_Some in Ep as (e & Hk & Hek & Hmin).
  - exfalso. pose proof Hk as (Hko & _)%(oi_ready _ _ _ Hinv). pose proof (oi_nodup _ _ _ Hinv) as Hnd.
    assert (length (k :: order) ≤ length (seq 0 (length es))) as Hlen.
    { apply submseteq_length, NoDup_submseteq; [by constructor|]. intros j [->|Hj]%elem_of_cons; apply elem_of_seq; [apply lookup_lt_Some in Hek; lia|].
      pose proof (order_inv_range _ _ _ Hinv j Hj). lia. }
    rw length_seq in Hlen. cbn [length] in Hlen. lia.
  - change (default [] (dependents !! k)) with (at_ [] dependents k).
    destruct (order_inv_step indegree ready order k e Hinv Hk Hek) as (in' & re' & -> & Hinv'). cbn [mbind option_bind].
    destruct (IH in' re' (order ++ [k]) Hinv') as (rest & Hloop & Hfin & Hrun); [rw length_app; cbn [length]; lia|].
    exists (k :: rest). rw Hloop -app_assoc. split_and!; [done|by rw -app_assoc in Hfin|]. unfold ops_of at 2. cbn [fmap list_fmap]. fold (ops_of rest).
    rw Hek. cbn [default fmap option_fmap option_map]. apply run_step.
    + by apply (ready_available _ _ _ k e Hinv Hek).
    + intros e' Hav. pose proof Hav as ([j Hj]%list_elem_of_lookup & _). apply (Hmin j); [|done]. by apply (ready_available _ _ _ j e' Hinv Hj).
    + unfold ops_of in Hrun. rw fmap_app in Hrun. cbn in Hrun. by rw Hek in Hrun.
Qed.

Lemma order_inv_start :
  order_inv (imap (indegree_of by_hash (completes missing)) es)
    (list_to_set (omap (λ id : nat * nat, if is_complete (completes missing) id.1 && bool_decide (id.2 = 0) then Some id.1 else None)
                    (imap pair (imap (indegree_of by_hash (completes missing)) es)))) [].
Proof.
  split.
  - constructor.
  - by intros i ?%elem_of_nil.
  - by rw length_imap.
  - intros i e He Hc. rw list_lookup_imap He /=. f_equal. by apply waiting_nil.
  - intros i. rw elem_of_list_to_set list_elem_of_omap. split.
    + intros ([j n] & Hin & Hj). apply elem_of_lookup_imap in Hin as (j' & n' & [= <- <-] & Hn). rw list_lookup_imap in Hn.
      destruct (es !! j) as [e|] eqn:He; [|done]. injection Hn as <-. cbn in Hj.
      destruct (is_complete (completes missing) j) eqn:Hc; [|done]. pose proof Hc as (e' & He' & Hce)%is_complete_spec. assert (e' = e) as -> by congruence.
      rw (waiting_nil j e He Hce) in Hj. case_bool_decide as Hw; [|done]. injection Hj as <-. split; [apply not_elem_of_nil|]. by exists e.
    + intros (_ & e & He & Hc & Hw). exists (i, indegree_of by_hash (completes missing) i e). split.
      * apply elem_of_lookup_imap. exists i, (indegree_of by_hash (completes missing) i e). split; [done|]. by rw list_lookup_imap He.
      * cbn. rw (proj2 (is_complete_spec i)); [|by exists e]. rw (waiting_nil i e He Hc) Hw. done.
  - by intros i e ?%elem_of_nil.
Qed.
End phases.

(** ** The whole function *)

Lemma elem_of_indices {A} (q : A → bool) (v : list A) i : i ∈ indices q v ↔ ∃ x, v !! i = Some x ∧ q x = true.
Proof.
  unfold indices. rw list_elem_of_omap. split.
  - intros ([j x] & (j' & x' & [= <- <-] & Hx)%elem_of_lookup_imap & Hq). cbn in Hq. destruct (q x) eqn:E; [|done]. injection Hq as <-. by exists x.
  - intros (x & Hx & Hq). exists (i, x). split; [apply elem_of_lookup_imap; by exists i, x|]. cbn. by rw Hq.
Qed.

Lemma indices_NoDup {A} (q : A → bool) (v : list A) : NoDup (indices q v).
Proof.
  assert (indices q v `sublist_of` (imap pair v).*1) as Hs.
  { unfold indices. induction (imap pair v) as [|[j x] l IH]; [constructor|]. cbn. destruct (q x); by constructor. }
  eapply sublist_NoDup; [|exact Hs]. rw fmap_imap. change (NoDup (imap (λ i _, i) v)). rw imap_seq_0 list_fmap_id. apply NoDup_seq.
Qed.

Lemma projection_phases es :
  no_fork es → NoDup (ce_operation <$> es) → ∃ missing order,
  (let complete := completes missing in
   causal_projection Lle es = Some (if bool_decide (length order ≠ length (indices id complete)) then Err Cycle
     else Ok (mkCausalProjection order (pending_of Lle es complete missing)))) ∧
  length missing = length es ∧
  (∀ i e h, es !! i = Some e → h ∈ at_ ∅ missing i ↔ needs es (ce_operation e) h) ∧
  NoDup order ∧ (∀ i, i ∈ order → is_complete (completes missing) i = true) ∧ run es [] (ops_of es order).
Proof.
  intros Hf%validate_sequences_ok Hnd. unfold causal_projection. rw Hf. destruct (index_ops 0 es ∅) as [by_hash|err] eqn:Ei; cycle 1.
  { apply index_ops_err in Ei as [_ Hn]. destruct Hn. split; [done|]. intros. apply lookup_empty. }
  apply index_ops_ok in Ei as [_ Hidx'].
  assert (∀ h i, by_hash !! h = Some i ↔ ∃ e, es !! i = Some e ∧ ce_operation e = h) as Hidx.
  { intros h i. rw Hidx' lookup_empty. split; [|intros (e & ?); right; by exists i, e]. intros [?|(j & e & -> & ?)]; [done|by exists e]. }
  destruct (link_entries_spec es by_hash Hidx Hnd 0 es (replicate (length es) [], replicate (length es) ∅)) as ([Hl1 Hl2] & Hd & Hm).
  { cbn [fst]. intros l [-> _]%elem_of_replicate. split; [constructor|]. by intros i ?%elem_of_nil. }
  destruct (link_entries by_hash 0 es _) as [dependents missing0]. cbn [fst snd] in *. rw length_replicate in Hl1. rw length_replicate in Hl2.
  assert (∀ p l, dependents !! p = Some l → NoDup l ∧ ∀ i, i ∈ l ↔ dep_on es by_hash i p) as Hdeps.
  { intros p l Hp. destruct (Hd p l Hp) as (Hndl & l0 & Hl0 & Hiff). split; [done|]. intros i. rw Hiff.
    apply lookup_replicate in Hl0 as [-> _]. unfold dep_on. split.
    - intros [?%elem_of_nil|(j & e & d & -> & ?)]; [done|by exists e, d].
    - intros (e & d & ?). right. by exists i, e, d. }
  assert (∀ i ms, missing0 !! i = Some ms → ∀ h, h ∈ ms ↔ ∃ e, es !! i = Some e ∧ h ∈ dependencies e ∧ by_hash !! h = None) as Hmiss.
  { intros i ms Hi h. destruct (Hm i ms Hi) as (ms0 & H0 & Hiff). rw Hiff. apply lookup_replicate in H0 as [-> _]. split.
    - intros [?%not_elem_of_empty|(j & e & -> & ?)]; [done|by exists e].
    - intros (e & ?). right. by exists i, e. }
  assert (∀ i ms, missing0 !! i = Some ms → at_ ∅ missing0 i = ms) as Hat by (intros i ms Hi; unfold at_; by rw Hi).
  assert (block_inv es by_hash missing0 missing0 (indices (λ roots : gset Z, bool_decide (roots ≠ ∅)) missing0)) as Hinv0.
  { split; [done| | |done|].
    - intros ms [i Hi]%list_elem_of_lookup h (e & He & Hh & _)%(Hmiss i ms Hi). unfold all_dependencies.
      apply elem_of_union_list. exists (dependencies e). split; [apply list_elem_of_fmap; exists e; split; [done|by eapply list_elem_of_lookup_2]|done].
    - intros i e h He Hh. unfold at_ in Hh. destruct (missing0 !! i) as [ms|] eqn:Em; cbn in Hh; [|set_solver]. apply (Hmiss i ms Em) in Hh as (e' & He' & Hd' & Hn).
      assert (e' = e) as -> by congruence. apply needs_direct; [exists e; split; [by eapply list_elem_of_lookup_2|done]|by eapply by_hash_None].
    - intros p i Hp _ h Hh. exfalso. apply Hp, elem_of_indices. unfold at_ in Hh. destruct (missing0 !! p) as [ms|]; cbn in Hh; [|set_solver].
      exists ms. split; [done|]. apply bool_decide_eq_true_2. set_solver. }
  destruct (block_loop_inv es by_hash Hidx Hnd dependents Hl1 Hdeps missing0 missing0 _ (length es + length es * size (all_dependencies es)) Hinv0) as (missing & -> & Hfin).
  { apply Nat.add_le_mono.
    - rw -Hl2. assert (indices (λ roots : gset Z, bool_decide (roots ≠ ∅)) missing0 ⊆+ seq 0 (length missing0)) as ->%submseteq_length; [|by rw length_seq].
      apply NoDup_submseteq; [apply indices_NoDup|]. intros i (x & Hx%lookup_lt_Some & _)%elem_of_indices. apply elem_of_seq. lia.
    - rw -Hl2. unfold slack. clear. induction missing0 as [|ms l IH]; cbn [sum_list_with length]; [lia|]. lia. }
  cbn [mbind option_bind]. pose proof (bi_length _ _ _ _ _ Hfin) as Hml.
  assert (∀ i e h, es !! i = Some e → h ∈ at_ ∅ missing i ↔ needs es (ce_operation e) h) as Hex.
  { intros i e h He. by eapply (block_inv_exact es by_hash Hidx Hnd dependents Hl1 missing0 Hl2 Hmiss). }
  pose proof (order_inv_start es by_hash Hidx missing Hml Hex) as Hstart.
  destruct (order_loop_run es by_hash Hidx Hnd dependents Hl1 Hdeps missing0 Hl2 Hmiss missing Hml Hex (length es) _ _ _ Hstart) as (order & Hloop & (in' & re' & Hoi) & Hrun); [lia|].
  exists missing, order. change ((λ roots : gset Z, bool_decide (roots = ∅)) <$> missing) with (completes missing). rw Hloop. cbn [mbind option_bind app] in *.
  split_and!; [by case_bool_decide|done|done|by eapply oi_nodup|by apply (oi_complete _ _ _ _ _ _ Hoi)|done].
Qed.

(** ** Cycles *)

Lemma run_covers es l a : acyclic es → run es [] l → complete es a → a ∈ l.
Proof.
  intros Hac Hrun. set (R a b := complete es a ∧ dep es a b).
  assert (∀ a b, tc R a b → complete es a ∧ tc (dep es) a b) as Htc.
  { induction 1 as [a' b' [Hc Hd]|a' b' c' [Hc Hd] _ [_ IH]]; (split; [done|]); [by apply tc_once|by eapply tc_l]. }
  assert (sn R a) as Hsn.
  { apply tc_finite_sn; [by intros b [Hc Hb]%Htc; apply (Hac b)|]. exists (elements (all_dependencies es)).
    intros b [_ Hb]%Htc. apply elem_of_elements. assert (∀ b, dep es a b ∨ (∃ c, dep es c b) → b ∈ all_dependencies es) as Hin.
    { intros b' Hb'. assert (∃ c, dep es c b') as (c & e & He & _ & Hd) by (destruct Hb'; eauto). unfold all_dependencies.
      apply elem_of_union_list. exists (dependencies e). split; [|done]. apply list_elem_of_fmap. by exists e. }
    apply Hin. right. clear -Hb. induction Hb as [a b|]; [by exists a|done]. }
  clear Htc. induction Hsn as [a _ IH]. intros Hc. destruct (decide (a ∈ l)) as [|Hni]; [done|exfalso].
  destruct Hc as [(e & He & <-) Hc]. apply (run_end es [] l Hrun e). cbn. split_and!; [done|split; [by exists e|done]|done|].
  intros d Hd. assert (dep es (ce_operation e) d) as Hde by by exists e. assert (complete es (ce_operation e)) as Hce by (split; [by exists e|done]).
  apply IH; [by split|]. by eapply complete_dep.
Qed.

(** Dependencies come first in a run. *)
Lemma run_positions es l a b k :
  NoDup (ce_operation <$> es) → run es [] l → tc (dep es) a b → l !! k = Some a → ∃ k', k' < k ∧ l !! k' = Some b.
Proof.
  intros Hnd Hrun Ht. assert (∀ a b k, dep es a b → l !! k = Some a → ∃ k', k' < k ∧ l !! k' = Some b) as Hone.
  { clear -Hnd Hrun. intros a b k (e & He & <- & Hd) Hk. pose proof (run_before es [] l Hrun k e b Hk He Hnd Hd) as Hb. cbn in Hb.
    apply list_elem_of_lookup in Hb as [k' Hk']. exists k'. apply lookup_take_Some in Hk' as [? ?]. split; [lia|done]. }
  revert k. induction Ht as [a b Hd|a b c Hd _ IH]; intros k Hk; [by eapply Hone|]. destruct (Hone a b k Hd Hk) as (k1 & Hlt & Hk1).
  destruct (IH k1 Hk1) as (k2 & Hlt2 & Hk2). exists k2. split; [lia|done].
Qed.

Lemma covers_acyclic es l :
  NoDup (ce_operation <$> es) → run es [] l → NoDup l → (∀ a, complete es a → a ∈ l) → acyclic es.
Proof.
  intros Hnd Hrun Hndl Hall a Hc Ht. pose proof (Hall a Hc) as [k Hk]%list_elem_of_lookup.
  destruct (run_positions es l a a k Hnd Hrun Ht Hk) as (k' & Hlt & Hk'). pose proof (NoDup_lookup _ _ _ _ Hndl Hk Hk'). lia.
Qed.

(** ** Pending *)

Section pending.
Context (es : list Entry) (missing : list (gset Z)).
Hypothesis Hmlen : length missing = length es.
Hypothesis Hexact : ∀ i e h, es !! i = Some e → h ∈ at_ ∅ missing i ↔ needs es (ce_operation e) h.

(** The record a blocked entry is reported with. *)
Definition blocked_as e (q : PendingCausalOperation) : Prop :=
  ∃ X : gset Z, X ≠ ∅ ∧ (∀ h, h ∈ X ↔ needs es (ce_operation e) h) ∧ q = mkPending (ce_operation e) (bt_set X).

Definition keyed_pending : list (Z * L * Z * Z * nat * PendingCausalOperation) :=
  omap (λ ie : nat * Entry, if is_complete (completes missing) ie.1 then None
                            else Some (order_key ie.2 ie.1, mkPending (ce_operation ie.2) (bt_set (default ∅ (missing !! ie.1))))) (imap pair es).

Lemma elem_of_keyed_pending key i q :
  (key, i, q) ∈ keyed_pending ↔ ∃ e, es !! i = Some e ∧ key = entry_key e ∧ blocked_as e q.
Proof.
  unfold keyed_pending. rw list_elem_of_omap. split.
  - intros ([j e] & (j' & e' & [= <- <-] & He)%elem_of_lookup_imap & Hq). cbn in Hq. destruct (is_complete (completes missing) j) eqn:Ec; [done|].
    injection Hq as <- <- <-. exists e. split_and!; [done..|]. exists (at_ ∅ missing j). split_and!; [|by intros h; apply Hexact|done].
    intros Hemp. destruct (lookup_lt_is_Some_2 missing j) as [ms Hms]; [apply lookup_lt_Some in He; lia|].
    unfold is_complete, completes in Ec. rw list_lookup_fmap Hms /= in Ec. apply bool_decide_eq_false in Ec. unfold at_ in Hemp. by rw Hms in Hemp.
  - intros (e & He & -> & X & HX & Hiff & ->). exists (i, e). split; [apply elem_of_lookup_imap; by exists i, e|]. cbn.
    assert (at_ ∅ missing i = X) as Hat by (apply set_eq; intros h; rw Hiff; by apply Hexact).
    destruct (is_complete (completes missing) i) eqn:Ec.
    + exfalso. apply HX. rw -Hat. unfold is_complete, completes in Ec. rw list_lookup_fmap in Ec. unfold at_. destruct (missing !! i); [|done]. cbn in *. by apply bool_decide_eq_true in Ec.
    + unfold at_ in Hat. by rw Hat.
Qed.

Lemma elem_of_pending q : q ∈ pending_of Lle es (completes missing) missing ↔ ∃ e, e ∈ es ∧ blocked_as e q.
Proof.
  unfold pending_of. fold keyed_pending. rw list_elem_of_fmap. split.
  - intros ([[key i] q'] & -> & Hin). rw merge_sort_Permutation in Hin. apply elem_of_keyed_pending in Hin as (e & He & _ & Hb).
    exists e. split; [by eapply list_elem_of_lookup_2|done].
  - intros (e & [i Hi]%list_elem_of_lookup & Hb). exists (entry_key e, i, q). split; [done|]. rw merge_sort_Permutation.
    apply elem_of_keyed_pending. by exists e.
Qed.

Definition sorted_pending : list (Z * L * Z * Z * PendingCausalOperation) :=
  (λ kq : Z * L * Z * Z * nat * PendingCausalOperation, (kq.1.1, kq.2)) <$> merge_sort (pending_le Lle) keyed_pending.

Lemma pending_sorted : pending_of Lle es (completes missing) missing = snd <$> sorted_pending.
Proof. unfold pending_of, sorted_pending. rw -list_fmap_compose. done. Qed.

Lemma elem_of_sorted_pending key q : (key, q) ∈ sorted_pending ↔ ∃ e, e ∈ es ∧ key = entry_key e ∧ blocked_as e q.
Proof.
  unfold sorted_pending. rw list_elem_of_fmap. split.
  - intros ([[k i] q'] & [= -> ->] & Hin). rw merge_sort_Permutation in Hin. apply elem_of_keyed_pending in Hin as (e & He & -> & Hb).
    exists e. split; [by eapply list_elem_of_lookup_2|done].
  - intros (e & [i Hi]%list_elem_of_lookup & -> & Hb). exists (entry_key e, i, q). split; [done|]. rw merge_sort_Permutation.
    apply elem_of_keyed_pending. by exists e.
Qed.

Lemma sorted_pending_NoDup : NoDup (ce_operation <$> es) → NoDup sorted_pending.
Proof.
  intros Hnd. apply (NoDup_fmap_1 (λ kq, po_operation kq.2)). unfold sorted_pending. rw -list_fmap_compose merge_sort_Permutation.
  assert ((λ kq : Z * L * Z * Z * nat * PendingCausalOperation, po_operation kq.2) <$> keyed_pending `sublist_of` (λ ie : nat * Entry, ce_operation ie.2) <$> imap pair es) as Hs.
  { unfold keyed_pending. induction (imap pair es) as [|[j e] l IH]; [constructor|]. cbn. destruct (is_complete _ j); by constructor. }
  eapply sublist_NoDup; [|exact Hs]. rw fmap_imap. change (NoDup (imap (const ce_operation) es)). by rw imap_const.
Qed.

#[local] Instance pending_le_total : Total (pending_le Lle).
Proof. intros x y. unfold pending_le. destruct (order_le_total x.1 y.1); [by left|by right]. Qed.
#[local] Instance pending_le_trans : Transitive (pending_le Lle).
Proof. intros x y z. unfold pending_le. intros. by transitivity y.1. Qed.

Lemma sorted_pending_Sorted : StronglySorted (λ x y : Z * L * Z * Z * PendingCausalOperation, entry_le x.1 y.1) sorted_pending.
Proof.
  unfold sorted_pending. assert (StronglySorted (pending_le Lle) (merge_sort (pending_le Lle) keyed_pending)) as Hs.
  { apply StronglySorted_merge_sort; apply _. }
  induction Hs as [|x l _ IH HF]; [constructor|]. cbn. constructor; [done|]. apply Forall_fmap. eapply Forall_impl; [exact HF|].
  intros y [[Hle _]|[Heq _]]; cbn in *; [done|]. rw Heq. reflexivity.
Qed.
End pending.

(** ** The theorems *)

Lemma ops_of_NoDup es order :
  NoDup (ce_operation <$> es) → (∀ i, i ∈ order → i < length es) → NoDup order → NoDup (ops_of es order).
Proof.
  intros Hnd Hr Ho. unfold ops_of. induction Ho as [|i order Hi Ho IH]; [constructor|]. cbn. constructor.
  - destruct (lookup_lt_is_Some_2 es i (Hr i ltac:(by left))) as [e He]. rw He. cbn. rw (elem_of_ops_of es Hnd order i e) //. intros j Hj. apply Hr. by right.
  - apply IH. intros j Hj. apply Hr. by right.
Qed.

(** What the successful projection is, apart from its indices. *)
Lemma projection_cases es :
  no_fork es → NoDup (ce_operation <$> es) → ∃ missing order,
  length missing = length es ∧
  (∀ i e h, es !! i = Some e → h ∈ at_ ∅ missing i ↔ needs es (ce_operation e) h) ∧
  run es [] (ops_of es order) ∧ NoDup order ∧ (∀ i, i ∈ order → is_complete (completes missing) i = true) ∧
  ((acyclic es ∧ causal_projection Lle es = Some (Ok (mkCausalProjection order (pending_of Lle es (completes missing) missing))) ∧
    ∀ i, is_complete (completes missing) i = true → i ∈ order) ∨
   (¬ acyclic es ∧ causal_projection Lle es = Some (Err Cycle))).
Proof.
  intros Hf Hnd. destruct (projection_phases es Hf Hnd) as (missing & order & Hproj & Hml & Hex & Hndo & Hcomp & Hrun).
  exists missing, order. split_and!; [done..|]. cbn zeta in Hproj.
  assert (∀ i, is_complete (completes missing) i = true ↔ i ∈ indices id (completes missing)) as Hidx.
  { intros i. rw elem_of_indices. unfold is_complete. destruct (completes missing !! i) as [[]|]; cbn; naive_solver. }
  assert (order ⊆+ indices id (completes missing)) as Hsub by (apply NoDup_submseteq; [done|]; intros i Hi; by apply Hidx, Hcomp).
  assert (∀ i, i ∈ order → i < length es) as Hr.
  { intros i Hi. pose proof (Hcomp i Hi) as (e & He & _)%(completes_spec es missing Hml Hex). by eapply lookup_lt_Some. }
  destruct (bool_decide_reflect (length order ≠ length (indices id (completes missing)))) as [Hne|Heq]; rw Hproj.
  - right. split; [|done]. intros Hac. apply Hne. apply Nat.le_antisymm; [by apply submseteq_length|].
    apply submseteq_length, NoDup_submseteq; [apply indices_NoDup|]. intros i Hi%Hidx.
    pose proof Hi as (e & He & Hc)%(completes_spec es missing Hml Hex). apply (elem_of_ops_of es Hnd order i e); [done..|]. by eapply run_covers.
  - apply dec_stable in Heq. left. assert (∀ i, is_complete (completes missing) i = true → i ∈ order) as Hall.
    { intros i Hi%Hidx. by rw (submseteq_length_Permutation _ _ Hsub ltac:(lia)). }
    split_and!; [|done|done]. apply (covers_acyclic es (ops_of es order)); [done|done|by apply ops_of_NoDup|].
    intros a Hc. pose proof Hc as [(e & [i Hi]%list_elem_of_lookup & <-) _]. apply (elem_of_ops_of es Hnd order i e); [done..|].
    apply Hall, (completes_spec es missing Hml Hex). by exists e.
Qed.

(** C10. The projection is right on every input.  It always returns.
    A fork, a repeated operation and a cycle are reported exactly when the
    entries have one (a fork first, a cycle only among operations that lack
    nothing).  Otherwise the order lists exactly the entries whose whole history
    is present, each once and after everything it depends on; at each place it takes,
    of the entries that can be placed there, the least by author, log, position and
    hash; and the pending list names exactly the others, each with all the operations
    its history lacks. *)
Theorem causal_projection_correct es :
  ∃ r, causal_projection Lle es = Some r ∧
  match r with
  | Err (ForkedSequence _) => ¬ no_fork es
  | Err DuplicateOperation => no_fork es ∧ ¬ NoDup (ce_operation <$> es)
  | Err Cycle => no_fork es ∧ NoDup (ce_operation <$> es) ∧ ¬ acyclic es
  | Err _ => False
  | Ok pr =>
      (no_fork es ∧ NoDup (ce_operation <$> es) ∧ acyclic es) ∧
      NoDup (cp_order pr) ∧
      (∀ i, i ∈ cp_order pr ↔ ∃ e, es !! i = Some e ∧ complete es (ce_operation e)) ∧
      (∀ k i e d, cp_order pr !! k = Some i → es !! i = Some e → d ∈ dependencies e →
        ∃ k' i' e', k' < k ∧ cp_order pr !! k' = Some i' ∧ es !! i' = Some e' ∧ ce_operation e' = d) ∧
      (∀ k i e e', cp_order pr !! k = Some i → es !! i = Some e → available es (ops_of es (take k (cp_order pr))) e' →
        entry_le (entry_key e) (entry_key e')) ∧
      (∀ q, q ∈ cp_pending pr ↔ ∃ e X, e ∈ es ∧ X ≠ ∅ ∧ (∀ h, h ∈ X ↔ needs es (ce_operation e) h) ∧
        q = mkPending (ce_operation e) (bt_set X))
  end.
Proof.
  destruct (validate_sequences es) as [[]|err] eqn:Ev; cycle 1.
  { exists (Err err). unfold causal_projection. rw Ev. split; [done|]. pose proof Ev as [s ->]%validate_positions_err. intros Hf%validate_sequences_ok. congruence. }
  pose proof Ev as Hf%validate_sequences_ok. destruct (decide (NoDup (ce_operation <$> es))) as [Hnd|Hnd]; cycle 1.
  { exists (Err DuplicateOperation). unfold causal_projection. rw Ev. destruct (index_ops 0 es ∅) as [m|err] eqn:Ei; [by apply index_ops_ok in Ei as [? _]|].
    by apply index_ops_err in Ei as [-> _]. }
  destruct (projection_cases es Hf Hnd) as (missing & order & Hml & Hex & Hrun & Hndo & Hcomp & [(Hac & Hproj & Hall)|(Hac & Hproj)]);
    (eexists; split; [exact Hproj|]); [|done]. cbn [cp_order cp_pending].
  assert (∀ i, i ∈ order ↔ ∃ e, es !! i = Some e ∧ complete es (ce_operation e)) as Hord.
  { intros i. rw -(completes_spec es missing Hml Hex). split; [apply Hcomp|apply Hall]. }
  assert (∀ i, i ∈ order → i < length es) as Hr by (intros i (e & He & _)%Hord; by eapply lookup_lt_Some).
  assert (∀ k i e, order !! k = Some i → es !! i = Some e → ops_of es order !! k = Some (ce_operation e)) as Hops.
  { intros k i e Hk He. unfold ops_of. rw list_lookup_fmap Hk /= He. done. }
  split_and!; [done..| | |].
  - intros k i e d Hk He Hd. pose proof (Hops k i e Hk He) as Hok.
    pose proof (run_before es [] _ Hrun k e d Hok (list_elem_of_lookup_2 _ _ _ He) Hnd Hd) as Hb. cbn [app] in Hb.
    apply list_elem_of_lookup in Hb as [k' Hk']. apply lookup_take_Some in Hk' as [Hk' Hlt]. unfold ops_of in Hk'. rw list_lookup_fmap in Hk'.
    destruct (order !! k') as [i'|] eqn:Ei; [|done]. cbn in Hk'. destruct (lookup_lt_is_Some_2 es i') as [e' He']; [apply Hr; by eapply list_elem_of_lookup_2|].
    rw He' in Hk'. injection Hk' as <-. by exists k', i', e'.
  - intros k i e e' Hk He Hav. apply (run_least es [] _ Hrun k e e' (Hops k i e Hk He) (list_elem_of_lookup_2 _ _ _ He) Hnd).
    cbn [app]. unfold ops_of. by rw -fmap_take.
  - intros q. rw (elem_of_pending es missing Hml Hex). unfold blocked_as. naive_solver.
Qed.

Definition same_error (x y : CausalError) : Prop :=
  match x, y with ForkedSequence _, ForkedSequence _ => True | _, _ => x = y end.

Lemma needs_mono es es' a h : (∀ e, e ∈ es ↔ e ∈ es') → needs es a h → needs es' a h.
Proof.
  intros Heq. assert (∀ a b, dep es a b → dep es' a b) as Hd by (intros ? ? (e & ?%Heq & ?); by exists e).
  induction 1 as [a h Hdep Hk|a b h Hdep _ IH].
  - apply needs_direct; [by apply Hd|]. intros (e & He%Heq & ?). apply Hk. by exists e.
  - eapply needs_via; [by apply Hd|done].
Qed.

Lemma available_mono es es' done e : (∀ e, e ∈ es ↔ e ∈ es') → available es done e → available es' done e.
Proof.
  intros Heq (He & [_ Hn] & Hni & Hd). split_and!; [by apply Heq|split|done|done].
  - exists e. split; [by apply Heq|done].
  - intros h Hh. apply (Hn h). eapply needs_mono; [|done]. intros. by symmetry.
Qed.

(** C11. The projection is a function of the set of operations.  Two
    replicas holding the same entries in different order get the same sequence
    of operations, the same pending list in the same order, or the same error. *)
Theorem causal_projection_deterministic es es' :
  es ≡ₚ es' →
  match causal_projection Lle es, causal_projection Lle es' with
  | Some (Ok pr), Some (Ok pr') => ops_of es (cp_order pr) = ops_of es' (cp_order pr') ∧ cp_pending pr = cp_pending pr'
  | Some (Err x), Some (Err y) => same_error x y
  | _, _ => False
  end.
Proof.
  intros Hp. assert (∀ e, e ∈ es ↔ e ∈ es') as Heq by (intros e; by rw Hp).
  assert (no_fork es ↔ no_fork es') as Hfork by (unfold no_fork; split; intros Hn e e' He He'; apply Hn; by apply Heq).
  assert (NoDup (ce_operation <$> es) ↔ NoDup (ce_operation <$> es')) as Hdup by by rw Hp.
  destruct (validate_sequences es) as [[]|err] eqn:Ev; cycle 1.
  { unfold causal_projection. rw Ev. destruct (validate_sequences es') as [[]|err'] eqn:Ev'.
    - apply validate_sequences_ok, Hfork, validate_sequences_ok in Ev'. congruence.
    - apply validate_positions_err in Ev as [? ->], Ev' as [? ->]. done. }
  pose proof Ev as Hf%validate_sequences_ok. pose proof Hf as Hf'%Hfork. pose proof Hf' as Ev'%validate_sequences_ok.
  destruct (decide (NoDup (ce_operation <$> es))) as [Hnd|Hnd]; cycle 1.
  { unfold causal_projection. rw Ev Ev'.
    destruct (index_ops 0 es ∅) eqn:Ei; [by apply index_ops_ok in Ei as [? _]|]. destruct (index_ops 0 es' ∅) eqn:Ei'; [by apply index_ops_ok in Ei' as [?%Hdup _]|].
    by apply index_ops_err in Ei as [-> _], Ei' as [-> _]. }
  pose proof Hnd as Hnd'%Hdup.
  assert (acyclic es ↔ acyclic es') as Hacy.
  { assert (∀ es1 es2, (∀ e, e ∈ es1 ↔ e ∈ es2) → acyclic es1 → acyclic es2) as Hone; [|by split; apply Hone; intros; [|symmetry]].
    intros es1 es2 He12 Hac a [(e & He & Ho) Hn] Ht. apply (Hac a).
    - split; [exists e; split; [by apply He12|done]|]. intros h Hh. apply (Hn h). by eapply needs_mono.
    - assert (∀ x y, dep es2 x y → dep es1 x y) as Hd by (intros x y (e' & ?%He12 & ?); by exists e').
      assert (∀ x y, tc (dep es2) x y → tc (dep es1) x y) as Htc; [|by apply Htc].
      induction 1; [by apply tc_once, Hd|eapply tc_l; [by apply Hd|done]]. }
  destruct (projection_cases es Hf Hnd) as (missing & order & Hml & Hex & Hrun & _ & _ & [(Hac & -> & _)|(Hac & ->)]);
    destruct (projection_cases es' Hf' Hnd') as (missing' & order' & Hml' & Hex' & Hrun' & _ & _ & [(Hac' & -> & _)|(Hac' & ->)]); try (by exfalso; tauto); [|done].
  cbn [cp_order cp_pending]. split.
  - eapply run_unique; [|done|done]. intros done e. split; apply available_mono; intros; [|symmetry]; apply Heq.
  - rw !pending_sorted. f_equal. eapply (StronglySorted_unique_strong (λ x y, entry_le x.1 y.1)); [|apply sorted_pending_Sorted..|].
    + intros [k1 q1] [k2 q2] (e1 & He1 & -> & X1 & _ & HX1 & ->)%(elem_of_sorted_pending es missing Hml Hex) (e2 & He2%Heq & -> & X2 & _ & HX2 & ->)%(elem_of_sorted_pending es' missing' Hml' Hex') H1 H2.
      cbn in H1, H2. assert (entry_key e1 = entry_key e2) as Hk by by apply (anti_symm entry_le). pose proof Hk as [= _ _ _ Hop].
      assert (X1 = X2) as -> by (apply set_eq; intros h; rw HX1 HX2 Hop; split; apply needs_mono; intros; [|symmetry]; apply Heq). by rw Hk Hop.
    + apply NoDup_Permutation; [by apply sorted_pending_NoDup..|]. intros [key q].
      rw (elem_of_sorted_pending es missing Hml Hex) (elem_of_sorted_pending es' missing' Hml' Hex').
      assert (∀ es1 es2 e, (∀ e, e ∈ es1 ↔ e ∈ es2) → blocked_as es1 e q → blocked_as es2 e q) as Hb.
      { intros es1 es2 e He12 (X & HX & Hiff & ->). exists X. split_and!; [done| |done]. intros h. rw Hiff. split; apply needs_mono; intros; [|symmetry]; apply He12. }
      split; intros (e & ?%Heq & -> & ?); exists e; split_and!; try done; eapply Hb; [|done| |done]; intros; [|symmetry]; apply Heq.
Qed.

(** ** Delivery *)

Lemma needs_tc es a h : needs es a h ↔ tc (dep es) a h ∧ ¬ known es h.
Proof.
  split.
  - induction 1 as [a h Hd Hk|a b h Hd _ [IH ?]]; [split; [by apply tc_once|done]|split; [by eapply tc_l|done]].
  - intros [Ht Hk]. induction Ht as [a b Hd|a b c Hd _ IH]; [by apply needs_direct|eapply needs_via; [done|by apply IH]].
Qed.

(** A history that lacks nothing lacks nothing when more operations arrive. *)
Lemma complete_more es more a : NoDup (ce_operation <$> es ++ more) → complete es a → complete (es ++ more) a.
Proof.
  intros Hnd [(e & He & <-) Hn]. split; [exists e; split; [apply elem_of_app; by left|done]|]. intros h Hh.
  assert (complete es (ce_operation e)) as Hc by (split; [by exists e|done]). clear He Hn. revert Hc.
  assert (∀ a b, complete es a → dep (es ++ more) a b → complete es b) as Hdep.
  { intros x y Hx (e1 & He1 & <- & Hy). apply (complete_dep es (ce_operation e1)); [done|]. destruct Hx as [(e2 & He2 & Heq) _].
    assert (e1 = e2) as -> by (apply (entries_unique (es ++ more)); [done|done|apply elem_of_app; by left|done]). by exists e2. }
  induction Hh as [a h Hd Hk|a b h Hd _ IH]; intros Hc.
  - apply Hk. destruct (Hdep a h Hc Hd) as [(e' & He' & ?) _]. exists e'. split; [apply elem_of_app; by left|done].
  - by apply IH, (Hdep a b).
Qed.

Lemma projection_lists es pr :
  no_fork es → NoDup (ce_operation <$> es) → causal_projection Lle es = Some (Ok pr) →
  (∀ a, a ∈ ops_of es (cp_order pr) ↔ complete es a) ∧
  ∀ q, q ∈ cp_pending pr → ∃ h, needs es (po_operation q) h.
Proof.
  intros Hf Hnd Hpr. destruct (projection_cases es Hf Hnd) as (missing & order & Hml & Hex & _ & _ & Hcomp & [(_ & Hproj & Hall)|(_ & Hproj)]); [|congruence].
  rw Hproj in Hpr. injection Hpr as <-. cbn [cp_order cp_pending].
  assert (∀ i, i ∈ order ↔ ∃ e, es !! i = Some e ∧ complete es (ce_operation e)) as Hord by (intros i; rw -(completes_spec es missing Hml Hex); split; [apply Hcomp|apply Hall]).
  assert (∀ i, i ∈ order → i < length es) as Hr by (intros i (e & He & _)%Hord; by eapply lookup_lt_Some). split.
  - intros a. split.
    + intros (i & -> & (e & He & Hc)%Hord)%list_elem_of_fmap. by rw He.
    + intros Hc. pose proof Hc as [(e & [i Hi]%list_elem_of_lookup & <-) _]. apply (elem_of_ops_of es Hnd order i e Hr Hi), Hord. by exists e.
  - intros q (e & _ & X & [h Hh]%set_choose_L & Hiff & ->)%(elem_of_pending es missing Hml Hex). exists h. by apply Hiff.
Qed.

(** C12. Every operation is delivered once its own history is there.  Among entries
    with no fork and no repeated operation, whose dependencies are well founded (as
    hash links are), the projection succeeds, and each operation whose transitive
    dependencies have all arrived is ordered and not pending, whatever else is
    missing.  What was ordered stays ordered when more entries arrive. *)
Theorem causal_delivery es more (rank : Z → nat) :
  no_fork (es ++ more) → NoDup (ce_operation <$> es ++ more) →
  (∀ a b, dep (es ++ more) a b → rank b < rank a) →
  ∃ pr, causal_projection Lle (es ++ more) = Some (Ok pr) ∧
    (∀ e, e ∈ es ++ more → (∀ b, tc (dep (es ++ more)) (ce_operation e) b → known (es ++ more) b) →
       ce_operation e ∈ ops_of (es ++ more) (cp_order pr) ∧ ce_operation e ∉ po_operation <$> cp_pending pr) ∧
    ∀ pr0 a, causal_projection Lle es = Some (Ok pr0) → a ∈ ops_of es (cp_order pr0) → a ∈ ops_of (es ++ more) (cp_order pr).
Proof.
  intros Hf Hnd Hdep. set (all := es ++ more) in *. assert (acyclic all) as Hac.
  { intros a _ Ht. assert (∀ x y, tc (dep all) x y → rank y < rank x) as Hlt.
    { induction 1 as [x y Hd|x y z Hd _ IH]; pose proof (Hdep _ _ Hd); lia. }
    specialize (Hlt a a Ht). lia. }
  destruct (projection_cases all Hf Hnd) as (missing & order & _ & _ & _ & _ & _ & [(_ & Hproj & _)|(Hnac & _)]); [|done].
  eexists. split; [exact Hproj|]. destruct (projection_lists all _ Hf Hnd Hproj) as [Hlist Hpend]. split.
  - intros e He Hk. assert (∀ h, ¬ needs all (ce_operation e) h) as Hno by (intros h [Ht Hh]%needs_tc; by apply Hh, Hk). split.
    + apply Hlist. split; [by exists e|done].
    + intros (q & Heq & [h Hq]%Hpend)%list_elem_of_fmap. rw -Heq in Hq. by apply (Hno h).
  - intros pr0 a Hpr0 Ha. assert (no_fork es) as Hf0 by (intros e e' He He'; apply Hf; apply elem_of_app; by left).
    assert (NoDup (ce_operation <$> es)) as Hnd0 by (rw fmap_app in Hnd; by apply NoDup_app in Hnd as (? & _)).
    apply Hlist, complete_more; [done|]. by apply (projection_lists es pr0 Hf0 Hnd0 Hpr0).
Qed.

(** The order and the reachability query agree.  When the query says
    one operation happened before another and the projection lists the later
    one, it lists the earlier one before it. *)
Theorem order_respects_happens_before es pr earlier later k :
  causal_projection Lle es = Some (Ok pr) → happens_before es earlier later = Some true →
  ops_of es (cp_order pr) !! k = Some later → ∃ k', k' < k ∧ ops_of es (cp_order pr) !! k' = Some earlier.
Proof.
  intros Hproj Hhb Hk. assert (no_fork es ∧ NoDup (ce_operation <$> es)) as [Hf Hnd].
  { unfold causal_projection in Hproj. destruct (validate_sequences es) as [[]|] eqn:Ev; [|done]. destruct (index_ops 0 es ∅) eqn:Ei; [|done].
    by apply index_ops_ok in Ei as [? _]; apply validate_sequences_ok in Ev. }
  destruct (projection_cases es Hf Hnd) as (missing & order & _ & _ & Hrun & _ & _ & [(_ & Hproj' & _)|(_ & Hproj')]); [|congruence].
  rw Hproj' in Hproj. injection Hproj as <-. cbn [cp_order] in *. destruct (index_happens_before_spec (causal_index es) earlier later) as (r & Hr & Hiff).
  unfold happens_before in Hhb. assert (r = true) as -> by congruence. eapply run_positions; [done|done| |done].
  assert (∀ x y, index_dep (causal_index es) x y → dep es x y) as Hd.
  { intros x y (e & (He & Ho)%causal_index_Some & Hy). by exists e. }
  pose proof (proj1 Hiff eq_refl) as Ht. clear -Ht Hd. induction Ht; [by apply tc_once, Hd|eapply tc_l; [by apply Hd|done]].
Qed.
End order.

(** ** A small history *)

Module Sample.
Abbreviation E := (CausalEntry Z).
Definition entry (operation author seq : Z) (backlink : option Z) (parents : list Z) : E :=
  mkCausalEntry operation author 0%Z seq backlink parents.

(** Author 9 writes 1 and 4; author 1 answers 1 with 2; 3 waits for 99. *)
Definition history : list E :=
  [entry 1 9 0 None []; entry 2 1 0 None [1]; entry 3 5 0 None [99; 2]; entry 4 9 1 (Some 1) [2]; entry 5 5 1 (Some 3) []]%Z.

Definition sample_projection : CausalProjection := mkCausalProjection [0; 1; 3] [mkPending 3 [99%Z]; mkPending 5 [99%Z]].

Lemma history_projects : causal_projection Z.le history = Some (Ok sample_projection).
Proof. vm_compute. reflexivity. Qed.

Lemma causal_projection_correct_witness :
  (∀ i, i ∈ cp_order sample_projection ↔ ∃ e, history !! i = Some e ∧ complete history (ce_operation e)) ∧
  acyclic history.
Proof.
  destruct (causal_projection_correct Z.le history) as (r & Hr & Hc). rw history_projects in Hr.
  injection Hr as <-. destruct Hc as ((_ & _ & Ha) & _ & Ho & _). exact (conj Ho Ha).
Defined.

Lemma causal_projection_deterministic_witness :
  match causal_projection Z.le (reverse history) with
  | Some (Ok pr) => ops_of (reverse history) (cp_order pr) = [1; 2; 4]%Z ∧ cp_pending pr = cp_pending sample_projection
  | _ => False
  end.
Proof.
  pose proof (causal_projection_deterministic Z.le history (reverse history) (symmetry (reverse_Permutation history))) as Hd.
  rw history_projects in Hd. destruct (causal_projection Z.le (reverse history)) as [[pr|]|]; [|exact Hd..].
  destruct Hd as [Ho Hp]. split; [|by rw Hp]. rw -Ho. vm_compute. reflexivity.
Defined.

Definition late : list E := [entry 99 7 0 None []; entry 6 2 0 None [77; 4]]%Z.
Definition sample_rank (h : Z) : nat :=
  if bool_decide (h = 99%Z) then 0 else if bool_decide (h = 77%Z) then 0 else Z.to_nat h.

(** Operation 3 and its history. *)
Definition past : list Z := [3; 1; 2; 99]%Z.

(** When 99 arrives, 3 and 5 are delivered, though 6 now waits for 77. *)
Lemma causal_delivery_witness :
  ∃ pr, causal_projection Z.le (history ++ late) = Some (Ok pr) ∧ cp_pending pr = [mkPending 6 [77%Z]] ∧
    3%Z ∈ ops_of (history ++ late) (cp_order pr) ∧ 4%Z ∈ ops_of (history ++ late) (cp_order pr).
Proof.
  assert (∃ pr, causal_projection Z.le (history ++ late) = Some (Ok pr) ∧ cp_pending pr = [mkPending 6 [77%Z]]) as (pr & Hpr & Hpend)
    by (eexists; split; vm_compute; reflexivity).
  destruct (causal_delivery Z.le history late sample_rank) as (pr' & Hpr' & Hdel & Hstay).
  - apply validate_sequences_ok. vm_compute. reflexivity.
  - by apply (bool_decide_unpack _); vm_compute.
  - intros a b (e & He & <- & Hb).
    assert (Forall (λ e : E, Forall (λ b, sample_rank b < sample_rank (ce_operation e)) (bt_set (dependencies e))) (history ++ late)) as HF
      by (apply (bool_decide_unpack _); by vm_compute).
    rw Forall_forall in HF. specialize (HF e He). rw Forall_forall in HF. apply elem_of_bt_set in Hb. by apply HF.
  - rw Hpr in Hpr'. injection Hpr' as <-. exists pr. split_and!; [done|done| |].
    + apply (Hdel (entry 3 5 0 None [99; 2]%Z)); [right; right; left|]. intros b Hb.
      assert (b ∈ past) as Hin.
      { assert (∀ a b, dep (history ++ late) a b → a ∈ past → b ∈ past) as Hstep.
        { intros x y (e & He & <- & Hy) Hx.
          assert (Forall (λ e : E, ce_operation e ∈ past → Forall (λ b, b ∈ past) (bt_set (dependencies e))) (history ++ late)) as HF
            by (apply (bool_decide_unpack _); by vm_compute).
          rw Forall_forall in HF. specialize (HF e He Hx). rw Forall_forall in HF. by apply HF, elem_of_bt_set. }
        assert (∀ x y, tc (dep (history ++ late)) x y → x ∈ past → y ∈ past) as Htc.
        { induction 1 as [x y Hd|x y z Hd _ IH]; intros Hx; [by apply (Hstep x)|]. by apply IH, (Hstep x). }
        apply (Htc 3%Z); [done|left]. }
      assert (Forall (λ b, b ∈ ce_operation <$> history ++ late) past) as HF by (apply (bool_decide_unpack _); by vm_compute).
      rw Forall_forall in HF. destruct (proj1 (list_elem_of_fmap _ _ _) (HF b Hin)) as (e & -> & He). by exists e.
    + apply (Hstay sample_projection 4%Z history_projects). vm_compute. right. right. left.
Defined.

Lemma order_respects_happens_before_witness :
  ∃ k', k' < 2 ∧ ops_of history (cp_order sample_projection) !! k' = Some 1%Z.
Proof.
  apply (order_respects_happens_before Z.le history sample_projection 1 4 2 history_projects); vm_compute; reflexivity.
Defined.

(** The next operation of author 1, written from the frontier. *)
Lemma next_operation_extends_witness :
  validate_sequences (history ++ [mkCausalEntry 6%Z 1%Z 0%Z 1%Z (Some 2%Z) [2; 5; 4]%Z]) = Ok tt.
Proof.
  assert (observed_frontier Z.le history = Ok [2; 5; 4]%Z) as Hf by (vm_compute; reflexivity).
  assert (author_head history 1 0%Z = Ok (1, Some 2)%Z) as Hh by (vm_compute; reflexivity).
  exact (proj1 (next_operation_extends Z.le history 1 0%Z 1 (Some 2%Z) [2; 5; 4]%Z 6 Hf Hh)).
Defined.
End Sample.
