(* ===== verification/Muniment.v ===== *)
(** Storage (crates/eidetic/muniment/src/{backend,codec,slot,blob,error}.rs and
    journal/persist.rs).

    [Backend] is the source's trait as a class: the operations, the contents they
    are about, and the documented contract, in particular that a batch of writes
    lands whole or not at all.  [memory_backend] is the source's in-memory instance;
    [faulty_backend] fails reads or batches on demand.  [Codec] is the seam to serde,
    known by its round trip.  The methods take the shared handle, so a state of the
    store is threaded through them; futures are run to completion, as the callers
    here await each in turn. *)

From S2P Require Import Prelude Wire Journal.

Local Open Scope Z_scope.

Abbreviation Bytes := (list Z) (only parsing).

Inductive StoreError : Type := BackendError (message : string) | CodecError (message : string).

Inductive WriteOp : Type := WPut (key : string) (value : Bytes) | WDelete (key : string).

Definition apply_op_to (m : gmap string Bytes) (op : WriteOp) : gmap string Bytes :=
  match op with WPut key value => <[key := value]> m | WDelete key => delete key m end.
Definition apply_ops (m : gmap string Bytes) (ops : list WriteOp) : gmap string Bytes := fold_left apply_op_to ops m.

Class Backend (B : Type) : Type := {
  contents : B → gmap string Bytes;
  b_get : B → string → result StoreError (option Bytes);
  b_put : B → string → Bytes → B * result StoreError unit;
  b_delete : B → string → B * result StoreError unit;
  b_list : B → string → result StoreError (list string);
  b_scan : B → string → string → result StoreError (list string);
  b_apply : B → list WriteOp → B * result StoreError unit;

  get_ok b key v : b_get b key = Ok v → v = contents b !! key;
  put_ok b key v b' : b_put b key v = (b', Ok tt) → contents b' = <[key := v]> (contents b);
  delete_ok b key b' : b_delete b key = (b', Ok tt) → contents b' = delete key (contents b);
  list_ok b prefix ks : b_list b prefix = Ok ks → ∀ k, k ∈ ks ↔ is_Some (contents b !! k) ∧ starts_with prefix k = true;
  scan_ok b start stop ks : b_scan b start stop = Ok ks →
    StronglySorted string_le ks ∧ NoDup ks ∧
    ∀ k, k ∈ ks ↔ is_Some (contents b !! k) ∧ string_le start k ∧ String.ltb k stop = true;
  apply_ok b ops b' : b_apply b ops = (b', Ok tt) → contents b' = apply_ops (contents b) ops;
  apply_atomic b ops b' err : b_apply b ops = (b', Err err) → contents b' = contents b
}.

(** ** The memory backend *)

Abbreviation MemoryBackend := (gmap string Bytes) (only parsing).

Definition mem_get (m : MemoryBackend) (key : string) : result StoreError (option Bytes) := Ok (m !! key).
Definition mem_put (m : MemoryBackend) (key : string) (bytes : Bytes) : MemoryBackend * result StoreError unit :=
  (<[key := bytes]> m, Ok tt).
Definition mem_delete (m : MemoryBackend) (key : string) : MemoryBackend * result StoreError unit := (delete key m, Ok tt).
Definition mem_list (m : MemoryBackend) (prefix : string) : result StoreError (list string) :=
  Ok (filter (λ k, starts_with prefix k = true) (map_to_list m).*1).
(** In the byte order of strings. *)
Definition mem_scan (m : MemoryBackend) (start stop : string) : result StoreError (list string) :=
  Ok (merge_sort string_le
        (filter (λ k, string_le start k ∧ String.ltb k stop = true) (map_to_list m).*1)).
Definition mem_apply (m : MemoryBackend) (ops : list WriteOp) : MemoryBackend * result StoreError unit := (apply_ops m ops, Ok tt).

Lemma elem_of_keys (m : gmap string Bytes) k : k ∈ (map_to_list m).*1 ↔ is_Some (m !! k).
Proof.
  rw list_elem_of_fmap. split.
  - intros ([k' v] & -> & Hv%elem_of_map_to_list). by exists v.
  - intros [v Hv]. exists (k, v). split; [done|]. by apply elem_of_map_to_list.
Qed.

#[export] Program Instance memory_backend : Backend MemoryBackend := {|
  contents m := m; b_get := mem_get; b_put := mem_put; b_delete := mem_delete; b_list := mem_list; b_scan := mem_scan; b_apply := mem_apply
|}.
Next Obligation. by intros b key v [= <-]. Qed.
Next Obligation. by intros b key v b' [= <-]. Qed.
Next Obligation. by intros b key b' [= <-]. Qed.
Next Obligation. intros b prefix ks [= <-] k. rw list_elem_of_filter elem_of_keys. naive_solver. Qed.
Next Obligation.
  intros b start stop ks [= <-]. split; [apply StronglySorted_merge_sort; apply _|]. split.
  - rw merge_sort_Permutation. apply NoDup_filter, NoDup_fst_map_to_list.
  - intros k. rw merge_sort_Permutation list_elem_of_filter elem_of_keys. naive_solver.
Qed.
Next Obligation. by intros b ops b' [= <-]. Qed.
Next Obligation. done. Qed.

(** A backend whose reads or batches can be made to fail. *)
Record FaultyBackend : Type := mkFaulty { fb_map : gmap string Bytes; fb_reads_fail : bool; fb_batches_fail : bool }.
Definition fault : StoreError := BackendError "fault".

Definition fb_with (b : FaultyBackend) (m : gmap string Bytes) : FaultyBackend := mkFaulty m (fb_reads_fail b) (fb_batches_fail b).
Definition fb_get (b : FaultyBackend) (key : string) : result StoreError (option Bytes) :=
  if fb_reads_fail b then Err fault else Ok (fb_map b !! key).
Definition fb_apply (b : FaultyBackend) (ops : list WriteOp) : FaultyBackend * result StoreError unit :=
  if fb_batches_fail b then (b, Err fault) else (fb_with b (apply_ops (fb_map b) ops), Ok tt).

#[export] Program Instance faulty_backend : Backend FaultyBackend := {|
  contents := fb_map; b_get := fb_get; b_apply := fb_apply;
  b_put b key v := (fb_with b (<[key := v]> (fb_map b)), Ok tt);
  b_delete b key := (fb_with b (delete key (fb_map b)), Ok tt);
  b_list b prefix := mem_list (fb_map b) prefix;
  b_scan b start stop := mem_scan (fb_map b) start stop
|}.
Next Obligation. intros b key v. unfold fb_get. destruct (fb_reads_fail b); [done|]. by intros [= <-]. Qed.
Next Obligation. by intros b key v b' [= <-]. Qed.
Next Obligation. by intros b key b' [= <-]. Qed.
Next Obligation. intros b prefix ks Hl. exact (list_ok (B := MemoryBackend) (fb_map b) prefix ks Hl). Qed.
Next Obligation. intros b start stop ks Hl. exact (scan_ok (B := MemoryBackend) (fb_map b) start stop ks Hl). Qed.
Next Obligation. intros b ops b'. unfold fb_apply. destruct (fb_batches_fail b); [done|]. by intros [= <-]. Qed.
Next Obligation. intros b ops b' err. unfold fb_apply. destruct (fb_batches_fail b); [|done]. by intros [= <- _]. Qed.

(** ** Slots and blobs *)

(** serde through a codec at one type: what is encoded decodes back, and every
    failure is reported as a codec error (codec.rs maps them all to one). *)
Class Codec (T : Type) : Type := {
  codec_encode : T → result StoreError Bytes;
  codec_decode : Bytes → result StoreError T;
  decode_encode x bs : codec_encode x = Ok bs → codec_decode bs = Ok x;
  decode_error bs err : codec_decode bs = Err err → ∃ message, err = CodecError message
}.

Section slots.
Context {B : Type} `{Backend B}.

Definition slot_save {T} `{Codec T} (b : B) (key : string) (value : T) : B * result StoreError unit :=
  match codec_encode value with Err e => (b, Err e) | Ok bytes => b_put b key bytes end.

Definition slot_load {T} `{Codec T} (b : B) (key : string) : result StoreError (option T) :=
  match b_get b key with
  | Err e => Err e
  | Ok None => Ok None
  | Ok (Some bytes) => match codec_decode bytes with Err e => Err e | Ok v => Ok (Some v) end
  end.

Definition slot_delete (b : B) (key : string) : B * result StoreError unit := b_delete b key.
Definition slot_keys (b : B) (prefix : string) : result StoreError (list string) := b_list b prefix.

Context (blake3 : Bytes → Z).
Definition BLOB_PREFIX : string := "blob/".
Definition blob_key (hash : Z) : string := BLOB_PREFIX +:+ to_hex hash.
Definition blob_put (b : B) (bytes : Bytes) : B * result StoreError Z :=
  let hash := blake3 bytes in
  match b_put b (blob_key hash) bytes with (b', Err e) => (b', Err e) | (b', Ok _) => (b', Ok hash) end.
Definition blob_get (b : B) (hash : Z) : result StoreError (option Bytes) := b_get b (blob_key hash).
Definition blob_has (b : B) (hash : Z) : result StoreError bool :=
  match b_get b (blob_key hash) with Err e => Err e | Ok v => Ok (bool_decide (is_Some v)) end.

(** ** The journal in a slot (journal/persist.rs) *)

Definition journal_save {T} `{Codec (Journal T)} (b : B) (key : string) (j : Journal T) : B * result StoreError unit :=
  slot_save b key j.

Definition journal_load {T} `{Codec (Journal T)} (b : B) (key : string) : result StoreError (Journal T) :=
  match slot_load b key with Err e => Err e | Ok v => Ok (default journal_new v) end.

(** What a read gives, in terms of the bytes under the key. *)
Lemma slot_load_at {T} `{Codec T} (b : B) key (v : T) bytes :
  codec_encode v = Ok bytes → contents b !! key = Some bytes →
  slot_load b key = match b_get b key with Err e => Err e | Ok _ => Ok (Some v) end.
Proof.
  intros He Hk. unfold slot_load. destruct (b_get b key) as [r|] eqn:Eg; [|done].
  apply get_ok in Eg as ->. rw Hk. by rw (decode_encode _ _ He).
Qed.

Lemma slot_save_at {T} `{Codec T} (b b' : B) key (v : T) :
  slot_save b key v = (b', Ok tt) → ∃ bytes, codec_encode v = Ok bytes ∧ contents b' = <[key := bytes]> (contents b).
Proof.
  unfold slot_save. destruct (codec_encode v) as [bytes|]; [|done]. intros Hp%put_ok. by exists bytes.
Qed.

(** Reading back a blob that was put, and only its bytes, whatever else is put
    after, as long as BLAKE3 does not collide on what is put. *)
Lemma blob_roundtrip (b b1 b2 : B) bytes other hash hash2 r :
  blob_put b bytes = (b1, Ok hash) → blob_put b1 other = (b2, Ok hash2) →
  is_key (blake3 bytes) → is_key (blake3 other) → (blake3 other = blake3 bytes → other = bytes) →
  blob_get b2 hash = Ok r → r = Some bytes.
Proof.
  unfold blob_put, blob_get. destruct (b_put b _ bytes) as [b1' [[]|]] eqn:E1; [|done]. intros [= <- <-].
  destruct (b_put b1' _ other) as [b2' [[]|]] eqn:E2; [|done]. intros [= <- <-] Hk1 Hk2 Hinj Hg. apply get_ok in Hg as ->.
  apply put_ok in E1, E2. rw E2 E1. destruct (decide (blake3 other = blake3 bytes)) as [Heq|Hne].
  - rw Heq lookup_insert_eq. by rw (Hinj Heq).
  - rw lookup_insert_ne; [by rw lookup_insert_eq|]. intros Heq. apply Hne. unfold blob_key in Heq. apply (inj (String.append BLOB_PREFIX)) in Heq.
    apply (f_equal from_hex) in Heq. rw !from_to_hex // in Heq. by injection Heq.
Qed.
End slots.
