(* ===== verification/Persist.v ===== *)
(** Persistence of the graph spine (crates/eidetic/chartulary/src/spine.rs, the
    muniment half): the log and its snapshot as slots.

    The operations are those of the source over any [Backend] and any [Codec];
    backend and codec errors are returned as the source returns them, and a log
    from before attributed commits is migrated on the way in.

    The theorems: reopening a saved session gives the session's own state back,
    whatever was written to other keys since; loading a checkpoint and the log
    saved later agrees with the later session; a log of bare edits opens as the
    graph those edits build. *)

From S2P Require Import Prelude Wire Journal StableGraph GraphLog GraphSpec GraphReplay GraphCheckpoint Muniment.

Local Open Scope Z_scope.

Section persist.
Context {B : Type} `{Backend B}.
Context {G : Type → Type → Type} `{StableGraph G}.
Context {N E Id F V : Type} `{Countable Id} `{Countable F}.
Context (node_id : N → Id).

Abbreviation Log := (GraphLog (G := G) (N := N) (E := E) (Id := Id) (F := F) (V := V)).
Abbreviation Edit := (GraphEdit (N := N) (E := E) (Id := Id) (F := F) (V := V)).
Abbreviation BatchT := (Batch (N := N) (E := E) (Id := Id) (F := F) (V := V)).
Abbreviation Snap := (Snapshot (N := N) (E := E) (Id := Id) (F := F) (V := V)).
Context `{!Codec (Journal BatchT)} `{!Codec (Journal Edit)} `{!Codec Snap}.
Implicit Types (b : B) (l : Log) (key : string).

Definition load_log b key : result StoreError (Journal BatchT) :=
  match journal_load b key with
  | Ok log => Ok log
  | Err (CodecError _) =>
      match journal_load (T := Edit) b key with Err e => Err e | Ok legacy => Ok (migrate_pre_gate legacy) end
  | Err other => Err other
  end.

Definition save_log b key l : B * result StoreError unit := journal_save b key (log l).

(** [None] would be one of the [expect]s on a missing node failing. *)
Definition save_snapshot b key l : option (B * result StoreError unit) :=
  sn ← take_snapshot node_id l; Some (slot_save b key sn).

Definition load_full b key : result StoreError Log :=
  match load_log b key with Err e => Err e | Ok j => Ok (replay_local node_id j) end.

Definition load_full_for_writer b key (w : Z) : result StoreError Log :=
  match load_log b key with Err e => Err e | Ok j => Ok (replay_for_writer node_id j w) end.

Definition load_from_slots b log_key snap_key : result StoreError Log :=
  match slot_load (T := Snap) b snap_key with
  | Err e => Err e
  | Ok snapshot => match load_log b log_key with Err e => Err e | Ok j => Ok (load_checkpointed node_id snapshot j) end
  end.

(** ** What the loads return *)

Lemma load_log_at b key (j : Journal BatchT) bytes :
  codec_encode j = Ok bytes → contents b !! key = Some bytes →
  load_log b key = match b_get b key with Ok _ => Ok j | Err e => Err e end.
Proof.
  intros He Hk. unfold load_log, journal_load. rw (slot_load_at b key j bytes He Hk). unfold slot_load.
  destruct (b_get b key) as [v|[m|m]]; done.
Qed.

Lemma save_log_at b b' key l :
  save_log b key l = (b', Ok tt) → ∃ bytes, codec_encode (log l) = Ok bytes ∧ contents b' = <[key := bytes]> (contents b).
Proof. apply slot_save_at. Qed.

(** An empty slot opens as a new graph, for whichever writer. *)
Lemma load_full_absent b key w :
  contents b !! key = None → ∀ v, b_get b key = Ok v → load_full_for_writer b key w = Ok (replay_for_writer node_id journal_new w).
Proof.
  intros Hk v Hg. unfold load_full_for_writer, load_log, journal_load, slot_load. rw Hg. apply get_ok in Hg as ->. by rw Hk.
Qed.

(** C14. What is saved is what is reopened: after any session, saving the log
    and any writes to other keys, reopening for the same writer gives the whole
    state of the session back, the graph with its keys, every index, the
    derivations, the facets and the writer's edge counter; the only way not to
    get it is the backend failing the read, and then its error is returned. *)
Theorem reopened_session_is_saved_session w j0 l b b1 b2 key :
  session node_id w j0 l → save_log b key l = (b1, Ok tt) → contents b2 !! key = contents b1 !! key →
  load_full_for_writer b2 key w = match b_get b2 key with Ok _ => Ok l | Err e => Err e end.
Proof.
  intros Hs (bytes & He & Hb)%save_log_at Hk. rw Hb lookup_insert_eq in Hk. unfold load_full_for_writer.
  rw (load_log_at b2 key (log l) bytes He Hk). destruct (b_get b2 key) as [v|[m|m]]; [|done..].
  by rw -(session_replayed node_id w j0 l Hs).
Qed.

(** A checkpoint and a later log load to the later session: with a
    snapshot of [l1] in one slot and the log of a session that went on from it in
    another, whatever else is written, loading the pair gives a well-formed log
    with the later session's abstract graph, journal, writer and counter. *)
Theorem checkpoint_slots_agree w j0 l1 l2 b b1 b2 b3 b4 log_key snap_key v v' :
  ids_ok w j0 → session node_id w j0 l1 → session node_id w (log l1) l2 →
  save_snapshot b snap_key l1 = Some (b1, Ok tt) → save_log b2 log_key l2 = (b3, Ok tt) →
  contents b4 !! snap_key = contents b1 !! snap_key → contents b4 !! log_key = contents b3 !! log_key →
  b_get b4 snap_key = Ok v → b_get b4 log_key = Ok v' →
  ∃ l, load_from_slots b4 log_key snap_key = Ok l ∧ log_wf node_id l ∧ abs node_id l = abs node_id l2 ∧
    log l = log l2 ∧ writer l = writer l2 ∧ next_edge l = next_edge l2.
Proof.
  intros Hok Hs1 Hs2 Hsnap (bytes & He & Hb)%save_log_at Hks Hkl Hgs Hgl.
  destruct (checkpoint_load node_id w j0 l1 l2 Hok Hs1 Hs2) as (sn & Hsn & Hl). cbn zeta in Hl.
  unfold save_snapshot in Hsnap. rw Hsn in Hsnap. cbn in Hsnap. apply Some_inj in Hsnap.
  apply slot_save_at in Hsnap as (sbytes & Hse & Hsb). rw Hsb lookup_insert_eq in Hks. rw Hb lookup_insert_eq in Hkl.
  exists (load_checkpointed node_id (Some sn) (log l2)). split; [|exact Hl]. unfold load_from_slots.
  rw (slot_load_at b4 snap_key sn sbytes Hse Hks) Hgs (load_log_at b4 log_key (log l2) bytes He Hkl). by rw Hgl.
Qed.

(** ** Logs from before attributed commits *)

Lemma migrate_edits (legacy : Journal Edit) : edits_of (migrate_pre_gate legacy) = j_entries legacy.
Proof.
  unfold migrate_pre_gate. assert (∀ (es : list Edit) (j : Journal BatchT), edits_of (fold_left (λ j e, (append j (mkBatch pre_gate [e])).2) es j) = edits_of j ++ es) as Hf.
  { induction es as [|e es IH]; intros j; cbn [fold_left]; [by rw app_nil_r|]. by rw IH edits_of_append -app_assoc. }
  rw Hf. by destruct (j_id legacy).
Qed.

Lemma migrate_authors (legacy : Journal Edit) : Forall (λ ba, ba_author ba = pre_gate) (j_entries (migrate_pre_gate legacy)).
Proof.
  unfold migrate_pre_gate. assert (∀ (es : list Edit) j, Forall (λ ba : BatchT, ba_author ba = pre_gate) (j_entries j) →
    Forall (λ ba, ba_author ba = pre_gate) (j_entries (fold_left (λ j e, (append j (mkBatch pre_gate [e])).2) es j))) as Hf.
  { induction es as [|e es IH]; intros j Hj; [done|]. apply IH. cbn. apply Forall_app. split; [done|]. by constructor. }
  apply Hf. by destruct (j_id legacy).
Qed.

(** A log written before commits were attributed still opens: when the
    slot holds a journal of bare edits, which does not read as batches, the
    graph that opens is the one those edits build, in their order, every one of
    them attributed to the pre-gate author. *)
Theorem legacy_log_opens (legacy : Journal Edit) b key bytes err v :
  codec_encode legacy = Ok bytes → codec_decode (T := Journal BatchT) bytes = Err err →
  contents b !! key = Some bytes → b_get b key = Ok v → NoDup (connect_ids (j_entries legacy)) →
  ∃ l, load_full b key = Ok l ∧ edits_of (log l) = j_entries legacy ∧
    Forall (λ ba, ba_author ba = pre_gate) (j_entries (log l)) ∧
    log_wf node_id l ∧ abs node_id l = a_apply_all node_id a_empty (j_entries legacy).
Proof.
  intros He Hd Hk Hg Hnd. exists (replay_local node_id (migrate_pre_gate legacy)). unfold load_full.
  assert (load_log b key = Ok (migrate_pre_gate legacy)) as ->.
  { destruct (decode_error bytes err Hd) as [m ->]. unfold load_log, journal_load.
    rw (slot_load_at b key legacy bytes He Hk) Hg. unfold slot_load. rw Hg. apply get_ok in Hg as ->. rw Hk. by rw Hd. }
  unfold replay_local. destruct (replay_fields node_id (migrate_pre_gate legacy) WriterId_LOCAL) as (Hl & _).
  split; [done|]. rw Hl migrate_edits. split; [done|]. split; [apply migrate_authors|].
  rw -(migrate_edits legacy). apply replay_abs. by rw migrate_edits.
Qed.
End persist.

(** ** A codec to run the definitions with

    A tag for the type and the number stdpp's [Countable] gives the value: it has
    the two laws, and reads a journal of edits as batches no more than serde does. *)
Module Toy.
Section codec.
Context {T : Type} `{Countable T} (tag : Z).

Definition toy_encode (x : T) : result StoreError (list Z) := Ok [tag; Zpos (encode x)].
Definition toy_decode (bs : list Z) : result StoreError T :=
  match bs with
  | [t; Zpos p] => if bool_decide (t = tag)
                   then match decode p with Some x => Ok x | None => Err (CodecError "value") end
                   else Err (CodecError "type")
  | _ => Err (CodecError "shape")
  end.

Program Definition toy_codec : Codec T := {| codec_encode := toy_encode; codec_decode := toy_decode |}.
Next Obligation. intros x bs [= <-]. cbn. by rw bool_decide_eq_true_2 // countable.decode_encode. Qed.
Next Obligation. intros bs err. unfold toy_decode. repeat case_match; intros [= <-]; by eexists. Qed.
End codec.

#[export] Instance DerivationKind_eq_dec : EqDecision DerivationKind.
Proof. solve_decision. Defined.
#[export] Instance DerivationKind_countable : Countable DerivationKind.
Proof.
  apply (inj_countable' (λ k, match k with CopiedFrom => 0%nat | ClippedFrom => 1%nat | GeneratedFrom => 2%nat | TranslatedFrom => 3%nat end)
    (λ n, match n with O => CopiedFrom | S O => ClippedFrom | S (S O) => GeneratedFrom | _ => TranslatedFrom end)).
  by intros [].
Defined.

Section types.
Context {N E Id F V : Type} `{Countable N} `{Countable E} `{Countable Id} `{Countable F} `{Countable V}.

#[export] Instance Derivation_eq_dec : EqDecision (DerivationRecord Id).
Proof. solve_decision. Defined.
#[export] Instance Derivation_countable : Countable (DerivationRecord Id).
Proof.
  apply (inj_countable' (λ d, (source_log d, source_node d, der_kind d)) (λ t, mkDerivation t.1.1 t.1.2 t.2)).
  by intros [].
Defined.

Abbreviation Edit := (GraphEdit (N := N) (E := E) (Id := Id) (F := F) (V := V)).
Abbreviation code := (N + (Id + ((EdgeId * Id * Id * E) + (EdgeId + ((Id * DerivationRecord Id) + ((Id * F * V) + (Id * F)))))))%type.
Definition edit_code (e : Edit) : code :=
  match e with
  | InsertNode n => inl n
  | RemoveNode i => inr (inl i)
  | Connect i f t w => inr (inr (inl (i, f, t, w)))
  | Disconnect i => inr (inr (inr (inl i)))
  | Derive n d => inr (inr (inr (inr (inl (n, d)))))
  | SetFacet n f v => inr (inr (inr (inr (inr (inl (n, f, v))))))
  | RemoveFacet n f => inr (inr (inr (inr (inr (inr (n, f))))))
  end.
Definition code_edit (c : code) : Edit :=
  match c with
  | inl n => InsertNode n
  | inr (inl i) => RemoveNode i
  | inr (inr (inl (i, f, t, w))) => Connect i f t w
  | inr (inr (inr (inl i))) => Disconnect i
  | inr (inr (inr (inr (inl (n, d))))) => Derive n d
  | inr (inr (inr (inr (inr (inl (n, f, v)))))) => SetFacet n f v
  | inr (inr (inr (inr (inr (inr (n, f)))))) => RemoveFacet n f
  end.

#[export] Instance Edit_eq_dec : EqDecision Edit.
Proof. solve_decision. Defined.
#[export] Instance Edit_countable : Countable Edit.
Proof. apply (inj_countable' edit_code code_edit). by intros []. Defined.
#[export] Instance Batch_eq_dec : EqDecision (Batch (N := N) (E := E) (Id := Id) (F := F) (V := V)).
Proof. solve_decision. Defined.
#[export] Instance Batch_countable : Countable (Batch (N := N) (E := E) (Id := Id) (F := F) (V := V)).
Proof. apply (inj_countable' (λ b, (ba_author b, ba_edits b)) (λ t, mkBatch t.1 t.2)). by intros []. Defined.

Abbreviation SnapT := (Snapshot (N := N) (E := E) (Id := Id) (F := F) (V := V)).
#[export] Instance Snapshot_eq_dec : EqDecision SnapT.
Proof. solve_decision. Defined.
#[export] Instance Snapshot_countable : Countable SnapT.
Proof.
  apply (inj_countable' (λ s, (sp_nodes s, sp_edges s, sp_derivations s, sp_facets s, sp_writer s, sp_next_edge s, sp_at_seq s))
    (λ '(n, e, d, f, w, x, a), mkGraphSnapshot n e d f w x a)).
  by intros [].
Defined.
End types.

#[export] Instance Provenance_eq_dec : EqDecision Provenance.
Proof. solve_decision. Defined.
#[export] Instance Provenance_countable : Countable Provenance.
Proof. apply (inj_countable' (λ p, (prov_source p, prov_at p)) (λ t, mkProvenance t.1 t.2)). by intros []. Defined.
#[export] Instance Journal_eq_dec {T} `{EqDecision T} : EqDecision (Journal T).
Proof. solve_decision. Defined.
#[export] Instance Journal_countable {T} `{Countable T} : Countable (Journal T).
Proof.
  apply (inj_countable' (λ j, (j_id j, j_provenance j, j_entries j, j_parents j)) (λ '(i, p, e, q), mkJournal i p e q)).
  by intros [].
Defined.

Abbreviation TEdit := (GraphEdit (N := Z) (E := string) (Id := Z) (F := string) (V := Z)).
Abbreviation TBatch := (Batch (N := Z) (E := string) (Id := Z) (F := string) (V := Z)).
Abbreviation TSnapshot := (Snapshot (N := Z) (E := string) (Id := Z) (F := string) (V := Z)).
#[export] Instance journal_codec : Codec (Journal TBatch) := toy_codec 0.
#[export] Instance legacy_codec : Codec (Journal TEdit) := toy_codec 1.
#[export] Instance snapshot_codec : Codec TSnapshot := toy_codec 2.
End Toy.

Module Sample.
Import Toy.
Import GraphCheckpoint.Sample.

(** A store on which every operation succeeds, and the same store refusing reads. *)
Definition start : FaultyBackend := mkFaulty ∅ false false.
Definition saved : FaultyBackend := (save_log start "g/log" rebuilt).1.
Definition noted : FaultyBackend := (b_put saved "note" [1]).1.

Lemma reopened_session_is_saved_session_witness :
  load_full_for_writer id noted "g/log" 7 = Ok rebuilt ∧
  load_full_for_writer (V := Z) (G := fresh_graph) id (mkFaulty (fb_map noted) true false) "g/log" 7 = Err fault.
Proof.
  assert (save_log start "g/log" rebuilt = (saved, Ok tt)) as Hs by (by vm_compute).
  split.
  - assert (contents noted !! "g/log" = contents saved !! "g/log") as Hk by (by vm_compute).
    exact (reopened_session_is_saved_session id 7 empty_journal rebuilt start saved noted "g/log" rebuilt_session Hs Hk).
  - assert (contents (mkFaulty (fb_map noted) true false) !! "g/log" = contents saved !! "g/log") as Hk by (by vm_compute).
    exact (reopened_session_is_saved_session id 7 empty_journal rebuilt start saved (mkFaulty (fb_map noted) true false) "g/log"
      rebuilt_session Hs Hk).
Defined.

Definition checkpointed : FaultyBackend := (default (start, Ok tt) (save_snapshot id start "g/snap" built)).1.
Definition checkpoint_saved : FaultyBackend := (save_log checkpointed "g/log" rebuilt).1.

Lemma checkpoint_slots_agree_witness :
  ∃ l, load_from_slots (G := fresh_graph) id checkpoint_saved "g/log" "g/snap" = Ok l ∧ abs id l = abs id rebuilt.
Proof.
  assert (save_snapshot id start "g/snap" built = Some (checkpointed, Ok tt)) as H1 by (by vm_compute).
  assert (save_log checkpointed "g/log" rebuilt = (checkpoint_saved, Ok tt)) as H2 by (by vm_compute).
  assert (contents checkpoint_saved !! "g/snap" = contents checkpointed !! "g/snap") as H3 by (by vm_compute).
  destruct (checkpoint_slots_agree id 7 empty_journal built rebuilt start checkpointed checkpointed checkpoint_saved checkpoint_saved
    "g/log" "g/snap" (contents checkpoint_saved !! "g/snap") (contents checkpoint_saved !! "g/log")
    opened_ok built_session rebuilt_after_built H1 H2 H3 eq_refl eq_refl eq_refl) as (l & Hl & _ & Ha & _).
  exists l. exact (conj Hl Ha).
Defined.

Definition legacy : Journal TEdit :=
  mkJournal (Some "old") None [InsertNode 1; InsertNode 2; Connect (mkEdgeId 0 0) 1 2 "cites"; RemoveNode 1] [].
Definition legacy_bytes : list Z := match toy_encode 1 legacy with Ok bs => bs | Err _ => [] end.
Definition legacy_store : FaultyBackend := mkFaulty {["g/log" := legacy_bytes]} false false.

Lemma legacy_log_opens_witness :
  ∃ l, load_full (G := fresh_graph) id legacy_store "g/log" = Ok l ∧ a_nodes (abs id l) = {[2 := 2]}.
Proof.
  assert (codec_encode legacy = Ok legacy_bytes) as H1 by (by vm_compute).
  assert (codec_decode (T := Journal TBatch) legacy_bytes = Err (CodecError "type")) as H2 by (by vm_compute).
  assert (NoDup (connect_ids (j_entries legacy))) as H3 by (apply NoDup_singleton).
  assert (contents legacy_store !! "g/log" = Some legacy_bytes) as H4 by (by vm_compute).
  assert (b_get legacy_store "g/log" = Ok (Some legacy_bytes)) as H5 by (by vm_compute).
  destruct (legacy_log_opens (G := fresh_graph) id legacy legacy_store "g/log" legacy_bytes (CodecError "type") (Some legacy_bytes)
    H1 H2 H4 H5 H3) as (l & Hl & _ & _ & _ & Ha).
  exists l. split; [exact Hl|]. rw Ha. by vm_compute.
Defined.
End Sample.
