(* ===== verification/Nested.v ===== *)
(** Nested graphs (crates/eidetic/chartulary/src/nested.rs): a node that bears the
    log of another graph, the archive its removal goes through, and the recovery
    of a removal a crash interrupted.

    Operations over a [Backend] return the store, the parent log and the result:
    an error half way leaves what was done before it, as the source does.

    The theorems: a removal archives the nested graph whole before the node
    leaves, and a failed archive changes nothing; recovery removes exactly the
    bearings that are pending and then has nothing left to do; a crash between
    the archive and the save of the parent, followed by reopening the parent and
    recovering, ends where the uninterrupted removal does; a graph edited through
    the guarded commit never bears itself. *)

From Stdlib Require Import String.
From S2P Require Import Prelude Wire Journal StableGraph GraphLog GraphSpec GraphReplay GraphCheckpoint Muniment Persist.

Local Open Scope Z_scope.

(** ** The slots *)

Definition log_slot (id : LogId) : string := "nested/" +:+ (id +:+ "/log").
Definition snap_slot (id : LogId) : string := "nested/" +:+ (id +:+ "/snap").
Definition archived_log_slot (id : LogId) : string := "archive/nested/" +:+ (id +:+ "/log").
Definition archived_snap_slot (id : LogId) : string := "archive/nested/" +:+ (id +:+ "/snap").

Lemma to_list_app (s t : string) : list_ascii_of_string (s +:+ t) = list_ascii_of_string s ++ list_ascii_of_string t.
Proof. induction s as [|c s IH]; [done|]. cbn. by rw IH. Qed.

Lemma app_tail_inj (s s' t : string) : s +:+ t = s' +:+ t → s = s'.
Proof.
  intros Heq%(f_equal list_ascii_of_string). rw !to_list_app in Heq. apply app_inv_tail in Heq.
  apply (f_equal string_of_list_ascii) in Heq. by rw !string_of_list_ascii_of_string in Heq.
Qed.

Lemma log_not_snap (s s' : string) : s +:+ "/log" ≠ s' +:+ "/snap".
Proof.
  intros Heq%(f_equal (λ x, last (list_ascii_of_string x))). rw !to_list_app !last_app in Heq. done.
Qed.

#[export] Instance log_slot_inj : Inj (=) (=) log_slot.
Proof. intros i j Heq%(inj (String.append "nested/")). by apply app_tail_inj in Heq. Qed.
#[export] Instance snap_slot_inj : Inj (=) (=) snap_slot.
Proof. intros i j Heq%(inj (String.append "nested/")). by apply app_tail_inj in Heq. Qed.
#[export] Instance archived_log_slot_inj : Inj (=) (=) archived_log_slot.
Proof. intros i j Heq%(inj (String.append "archive/nested/")). by apply app_tail_inj in Heq. Qed.
#[export] Instance archived_snap_slot_inj : Inj (=) (=) archived_snap_slot.
Proof. intros i j Heq%(inj (String.append "archive/nested/")). by apply app_tail_inj in Heq. Qed.

Lemma slots_apart i j :
  log_slot i ≠ snap_slot j ∧ log_slot i ≠ archived_log_slot j ∧ log_slot i ≠ archived_snap_slot j ∧
  snap_slot i ≠ archived_log_slot j ∧ snap_slot i ≠ archived_snap_slot j ∧ archived_log_slot i ≠ archived_snap_slot j.
Proof.
  split_and!; try done.
  - intros Heq%(inj (String.append "nested/")). by apply log_not_snap in Heq.
  - intros Heq%(inj (String.append "archive/nested/")). by apply log_not_snap in Heq.
Qed.

Section archive.
Context {B : Type} `{Backend B}.
Implicit Types (b : B) (id nid : LogId).

Definition archive_nested b id : B * result StoreError bool :=
  match b_get b (log_slot id) with
  | Err e => (b, Err e)
  | Ok None => (b, Ok false)
  | Ok (Some log_bytes) =>
      let ops := [WPut (archived_log_slot id) log_bytes; WDelete (log_slot id)] in
      match b_get b (snap_slot id) with
      | Err e => (b, Err e)
      | Ok snap =>
          let ops := match snap with
                     | Some snap_bytes => ops ++ [WPut (archived_snap_slot id) snap_bytes; WDelete (snap_slot id)]
                     | None => ops
                     end in
          match b_apply b ops with (b', Err e) => (b', Err e) | (b', Ok _) => (b', Ok true) end
      end
  end.

(** What an archive means for the contents: the log, and the snapshot if there is
    one, under the archive prefix instead of the live one. *)
Definition archived (m : gmap string (list Z)) nid : gmap string (list Z) :=
  match m !! log_slot nid with
  | None => m
  | Some log_bytes =>
      let m1 := delete (log_slot nid) (<[archived_log_slot nid := log_bytes]> m) in
      match m !! snap_slot nid with
      | None => m1
      | Some snap_bytes => delete (snap_slot nid) (<[archived_snap_slot nid := snap_bytes]> m1)
      end
  end.

Lemma archive_nested_spec b nid b' r :
  archive_nested b nid = (b', r) →
  match r with
  | Ok moved => contents b' = archived (contents b) nid ∧ moved = bool_decide (is_Some (contents b !! log_slot nid))
  | Err _ => contents b' = contents b
  end.
Proof.
  unfold archive_nested, archived. destruct (b_get b (log_slot nid)) as [v|e] eqn:El; [|by intros [= <- <-]].
  apply get_ok in El as <-. destruct v as [lb|]; [|by intros [= <- <-]].
  destruct (b_get b (snap_slot nid)) as [v|e] eqn:Es; [|by intros [= <- <-]]. apply get_ok in Es as <-.
  match goal with |- context [b_apply b ?o] => destruct (b_apply b o) as [b1 [[]|e]] eqn:Ea end; intros [= <- <-].
  - apply apply_ok in Ea as ->. split; [by destruct v|done].
  - by apply apply_atomic in Ea.
Qed.

(** The slots after an archive; every other key is as it was. *)
Lemma archived_slots m nid bytes :
  m !! log_slot nid = Some bytes →
  archived m nid !! log_slot nid = None ∧ archived m nid !! snap_slot nid = None ∧
  archived m nid !! archived_log_slot nid = Some bytes ∧
  (∀ snap, m !! snap_slot nid = Some snap → archived m nid !! archived_snap_slot nid = Some snap) ∧
  ∀ k, k ∉ [log_slot nid; snap_slot nid; archived_log_slot nid; archived_snap_slot nid] → archived m nid !! k = m !! k.
Proof.
  intros Hl. unfold archived. rw Hl. destruct (slots_apart nid nid) as (H1 & H2 & H3 & H4 & H5 & H6).
  destruct (m !! snap_slot nid) as [sb|] eqn:Es.
  - split_and!.
    + by rw lookup_delete_ne // lookup_insert_ne // lookup_delete_eq.
    + by rw lookup_delete_eq.
    + by rw lookup_delete_ne // lookup_insert_ne // lookup_delete_ne // lookup_insert_eq.
    + intros snap [= <-]. by rw lookup_delete_ne // lookup_insert_eq.
    + intros k Hk. repeat setoid_rewrite not_elem_of_cons in Hk. destruct Hk as (? & ? & ? & ? & _).
      by rw lookup_delete_ne // lookup_insert_ne // lookup_delete_ne // lookup_insert_ne.
  - split_and!.
    + by rw lookup_delete_eq.
    + by rw lookup_delete_ne // lookup_insert_ne.
    + by rw lookup_delete_ne // lookup_insert_eq.
    + done.
    + intros k Hk. repeat setoid_rewrite not_elem_of_cons in Hk. destruct Hk as (? & ? & ? & ? & _).
      by rw lookup_delete_ne // lookup_insert_ne.
Qed.
End archive.

Section bearing.
Context {B : Type} `{Backend B}.
Context {G : Type → Type → Type} `{StableGraph G}.
Context {N E Id F V : Type} `{Countable Id} `{Countable F}.
Context (node_id : N → Id) (nested : N → option LogId).

Abbreviation Log := (GraphLog (G := G) (N := N) (E := E) (Id := Id) (F := F) (V := V)).
Abbreviation Edit := (GraphEdit (N := N) (E := E) (Id := Id) (F := F) (V := V)).
Abbreviation Spec := (EditSpec (N := N) (E := E) (Id := Id) (F := F) (V := V)).
Abbreviation BatchT := (Batch (N := N) (E := E) (Id := Id) (F := F) (V := V)).
Implicit Types (b : B) (l : Log) (author : Author) (nid : LogId).

(** ** Operations *)

Definition nested_of l (id : Id) : option LogId :=
  key ← key_of (graph l) id; n ← graph_node (graph l) key; nested n.

Definition live_nested l : list LogId := omap (λ kn, nested kn.2) (graph_nodes (graph l)).

Definition bears_own (own : LogId) (sp : Spec) : bool :=
  match sp with SpInsertNode n => bool_decide (nested n = Some own) | _ => false end.

Definition commit_bearing_batch l author (expected : Z) (specs : list Spec)
  : Log * result (CommitError (Id := Id)) Committed :=
  match j_id (log l) with
  | Some own => if existsb (bears_own own) specs then (l, Err (SelfBearing own))
                else commit_batch node_id l author expected specs
  | None => commit_batch node_id l author expected specs
  end.

Definition remove_bearing_node b l author (id : Id) : B * Log * result StoreError (option LogId) :=
  match nested_of l id with
  | Some nested_id =>
      match archive_nested b nested_id with
      | (b', Err e) => (b', l, Err e)
      | (b', Ok _) => (b', remove_node_by_id node_id l author id, Ok (Some nested_id))
      end
  | None => (b, remove_node_by_id node_id l author id, Ok None)
  end.

Definition bearings l : list (Id * LogId) :=
  omap (λ kn, (λ nid, (node_id kn.2, nid)) <$> nested kn.2) (graph_nodes (graph l)).

Fixpoint recover_loop b l author (bs : list (Id * LogId)) (recovered : list LogId) : Log * result StoreError (list LogId) :=
  match bs with
  | [] => (l, Ok recovered)
  | (node, nested_id) :: rest =>
      match b_get b (log_slot nested_id) with
      | Err e => (l, Err e)
      | Ok live =>
          match b_get b (archived_log_slot nested_id) with
          | Err e => (l, Err e)
          | Ok arch =>
              if negb (bool_decide (is_Some live)) && bool_decide (is_Some arch)
              then recover_loop b (remove_node_by_id node_id l author node) author rest (recovered ++ [nested_id])
              else recover_loop b l author rest recovered
          end
      end
  end.

Definition recover_archived_bearings b l author : Log * result StoreError (list LogId) :=
  recover_loop b l author (bearings l) [].

(** ** Removing a node *)

Lemma next_edge_bound w j0 l : session node_id w j0 l → next_edge l ≤ u64_max.
Proof.
  intros Hs. rw (session_replayed node_id w j0 l Hs). destruct (replay_fields node_id (log l) w) as (_ & _ & ->).
  assert (∀ (es : list Edit) n, n ≤ u64_max → fold_left (next_after w) es n ≤ u64_max) as Hf; [|apply Hf; done].
  induction es as [|e es IH]; intros n Hn; [done|]. apply IH. destruct e; cbn; try done. case_bool_decide; [|done].
  pose proof (wrap64_range (ei_counter id + 1)) as Hr. unfold is_u64 in Hr. lia.
Qed.

Lemma remove_node_session w j0 l author id :
  session node_id w j0 l → session node_id w j0 (remove_node_by_id node_id l author id).
Proof.
  intros Hs. unfold remove_node_by_id, commit_one. destruct (commit_batch node_id l author (revision l) [SpRemoveNode id]) as [l' r] eqn:Ec.
  apply (session_commit node_id w j0 l author (revision l) [SpRemoveNode id] l' r) in Ec; [|done|].
  - by destruct r.
  - cbn. pose proof (next_edge_bound w j0 l Hs). lia.
Qed.

Lemma remove_node_abs w j0 l author id :
  ids_ok w j0 → session node_id w j0 l →
  a_nodes (abs node_id (remove_node_by_id node_id l author id)) = delete id (a_nodes (abs node_id l)).
Proof.
  intros Hok Hs. pose proof (next_edge_bound w j0 l Hs) as Hb.
  assert (next_edge l + Z.of_nat (spec_connects [SpRemoveNode id : Spec]) ≤ u64_max) as Hb' by (cbn; lia).
  unfold remove_node_by_id, commit_one. destruct (commit_batch node_id l author (revision l) [SpRemoveNode id]) as [l' [c|err]] eqn:Ec; cbn [fst].
  - destruct (commit_abs node_id w j0 l author (revision l) [SpRemoveNode id] l' c Hok Hs Hb' Ec) as [-> _]. done.
  - destruct (session_fresh node_id w j0 l [SpRemoveNode id] Hok Hs Hb') as (Hw & _).
    unfold commit_batch in Ec. rw bool_decide_eq_false_2 in Ec; [|naive_solver]. cbn in Ec. unfold require, present in Ec.
    rw bool_decide_eq_false_2 in Ec; [|set_solver]. cbn in Ec. destruct (key_of (graph l) id) as [k|] eqn:Ek; [|injection Ec as <- _; symmetry; apply delete_id].
    + done.
    + apply eq_None_not_Some. rw -(key_of_abs node_id l id Hw). unfold key_of in Ek. by rw Ek.
Qed.

Lemma session_log_wf w j0 l : ids_ok w j0 → session node_id w j0 l → log_wf node_id l.
Proof.
  intros Hok Hs. pose proof (next_edge_bound w j0 l Hs). apply (session_fresh node_id w j0 l [] Hok Hs). cbn. lia.
Qed.

Lemma nested_of_abs l id : nested_of l id = a_nodes (abs node_id l) !! id ≫= nested.
Proof. rw abs_node. unfold nested_of, key_of, graph_node. by destruct (by_id (graph l) !! id). Qed.

Lemma elem_of_bearings l i nid :
  log_wf node_id l → (i, nid) ∈ bearings l ↔ ∃ n, a_nodes (abs node_id l) !! i = Some n ∧ nested n = Some nid.
Proof.
  intros Hw. unfold bearings. rw list_elem_of_omap. split.
  - intros ([k n] & Hk%elem_of_graph_nodes & Hn). cbn in Hn. destruct (nested n) as [m|] eqn:En; [|done].
    cbn in Hn. injection Hn as <- <-. exists n. split; [|done]. rw abs_node.
    assert (by_id (graph l) !! node_id n = Some k) as -> by (apply (lw_ids node_id l Hw); eauto). done.
  - intros (n & Hi & Hn). rw abs_node in Hi. apply bind_Some in Hi as (k & Hk & Hnk).
    exists (k, n). split; [by apply elem_of_graph_nodes|]. cbn. rw Hn. cbn. do 2 f_equal.
    apply (lw_ids node_id l Hw) in Hk as (n' & Hn' & <-). congruence.
Qed.

Lemma bearings_NoDup l : log_wf node_id l → NoDup (bearings l).*1.
Proof.
  intros Hw. pose proof (graph_node_ids_NoDup node_id l Hw) as Hnd. unfold bearings.
  induction (graph_nodes (graph l)) as [|[k n] kns IH]; [constructor|]. cbn in *. apply NoDup_cons in Hnd as [Hn Hnd].
  destruct (nested n) as [m|]; cbn; [|by apply IH]. apply NoDup_cons. split; [|by apply IH].
  intros ([i m'] & Hi & ([k' n'] & Hin & Hx)%list_elem_of_omap)%list_elem_of_fmap. cbn in Hi, Hx. subst i.
  destruct (nested n'); [|done]. cbn in Hx. injection Hx as Hid _. apply Hn. apply list_elem_of_fmap.
  exists n'. split; [by rw Hid|]. apply list_elem_of_fmap. by exists (k', n').
Qed.

(** A removal archives before the node leaves, and loses nothing.  If the
    store refuses, nothing is written and the parent is as it was.  If it
    succeeds, the node is gone and no other is; a nested graph that was live is
    wholly under the archive prefix, log and snapshot byte for byte, with no live
    slot left; and no key but those four changed. *)
Theorem removal_archives_first w j0 l b author id :
  ids_ok w j0 → session node_id w j0 l →
  let '(b', l', r) := remove_bearing_node b l author id in
  match r with
  | Err _ => contents b' = contents b ∧ l' = l
  | Ok borne => borne = nested_of l id ∧ a_nodes (abs node_id l') = delete id (a_nodes (abs node_id l)) ∧
      match borne with
      | None => b' = b
      | Some nid => match contents b !! log_slot nid with
          | None => contents b' = contents b
          | Some bytes =>
              contents b' !! log_slot nid = None ∧ contents b' !! snap_slot nid = None ∧
              contents b' !! archived_log_slot nid = Some bytes ∧
              (∀ snap, contents b !! snap_slot nid = Some snap → contents b' !! archived_snap_slot nid = Some snap) ∧
              ∀ k, k ∉ [log_slot nid; snap_slot nid; archived_log_slot nid; archived_snap_slot nid] →
                contents b' !! k = contents b !! k
          end
      end
  end.
Proof.
  intros Hok Hs. unfold remove_bearing_node. destruct (nested_of l id) as [nid|] eqn:En.
  - destruct (archive_nested b nid) as [b' [moved|e]] eqn:Ea; apply archive_nested_spec in Ea; [|done].
    destruct Ea as [Hc _]. split; [done|]. split; [by apply (remove_node_abs w j0)|]. rw Hc.
    destruct (contents b !! log_slot nid) as [bytes|] eqn:El; [by apply archived_slots|]. unfold archived. by rw El.
  - split; [done|]. split; [by apply (remove_node_abs w j0)|done].
Qed.

(** ** Recovery *)

Definition pending b (p : Id * LogId) : Prop :=
  contents b !! log_slot p.2 = None ∧ is_Some (contents b !! archived_log_slot p.2).
#[export] Instance pending_dec b p : Decision (pending b p).
Proof. unfold pending. apply _. Defined.

Definition reads_ok b : Prop := ∀ k, b_get b k = Ok (contents b !! k).

Definition remove_all l author (gone : list Id) : Log := fold_left (λ l i, remove_node_by_id node_id l author i) gone l.

Lemma recover_loop_eq b l author bs acc :
  reads_ok b →
  recover_loop b l author bs acc =
  (remove_all l author (filter (pending b) bs).*1, Ok (acc ++ (filter (pending b) bs).*2)).
Proof.
  intros Hr. revert l acc. induction bs as [|[i nid] bs IH]; intros l acc; cbn [recover_loop]; [by rw app_nil_r|].
  rw !Hr filter_cons. assert (negb (bool_decide (is_Some (contents b !! log_slot nid))) &&
    bool_decide (is_Some (contents b !! archived_log_slot nid)) = bool_decide (pending b (i, nid))) as ->.
  { apply eq_bool_prop_intro. rw andb_True negb_True !bool_decide_spec. unfold pending. cbn.
    by rw -eq_None_not_Some. }
  case_bool_decide as Hp; [rw decide_True //|rw decide_False //; apply IH]. rw IH. cbn. by rw -app_assoc.
Qed.

Lemma remove_all_spec w j0 l author gone :
  ids_ok w j0 → session node_id w j0 l →
  session node_id w j0 (remove_all l author gone) ∧
  ∀ i, a_nodes (abs node_id (remove_all l author gone)) !! i =
    if bool_decide (i ∈ gone) then None else a_nodes (abs node_id l) !! i.
Proof.
  intros Hok. revert l. induction gone as [|x gone IH]; intros l Hs; cbn [remove_all fold_left]; [done|].
  destruct (IH _ (remove_node_session w j0 l author x Hs)) as [Hs' Hn]. split; [exact Hs'|]. intros i.
  fold (remove_all (remove_node_by_id node_id l author x) author gone). rw Hn (remove_node_abs w j0 l author x Hok Hs).
  destruct (decide (i = x)) as [->|Hne].
  - rw lookup_delete_eq (bool_decide_eq_true_2 (x ∈ x :: gone)); [by case_bool_decide|]. apply elem_of_cons. by left.
  - rw lookup_delete_ne //. repeat case_bool_decide; set_solver.
Qed.

Lemma pending_bearings w j0 l b i :
  ids_ok w j0 → session node_id w j0 l →
  i ∈ (filter (pending b) (bearings l)).*1 ↔ ∃ n nid, a_nodes (abs node_id l) !! i = Some n ∧ nested n = Some nid ∧ pending b (i, nid).
Proof.
  intros Hok Hs. pose proof (session_log_wf w j0 l Hok Hs) as Hw. rw list_elem_of_fmap. split.
  - intros ([? nid] & -> & (Hp & Hin)%list_elem_of_filter). apply elem_of_bearings in Hin as (n & Hn & Hb); [|done]. eauto.
  - intros (n & nid & Hn & Hb & Hp). exists (i, nid). split; [done|]. apply list_elem_of_filter. split; [done|].
    apply elem_of_bearings; eauto.
Qed.

(** Recovery removes exactly what is pending and then has nothing to do:
    with a store that reads, the nodes left are those that do not bear a nested
    graph found only in the archive, unchanged; the graphs it reports are those
    the removed nodes bore; and a second run reports none and changes nothing. *)
Theorem recovery_exact w j0 l b author :
  ids_ok w j0 → session node_id w j0 l → reads_ok b →
  let '(l', r) := recover_archived_bearings b l author in
  r = Ok (filter (pending b) (bearings l)).*2 ∧
  (∀ i n, a_nodes (abs node_id l') !! i = Some n ↔
    a_nodes (abs node_id l) !! i = Some n ∧ ∀ nid, nested n = Some nid → ¬ pending b (i, nid)) ∧
  recover_archived_bearings b l' author = (l', Ok []).
Proof.
  intros Hok Hs Hr. unfold recover_archived_bearings at 1. rw recover_loop_eq //. split; [done|].
  set (gone := (filter (pending b) (bearings l)).*1). destruct (remove_all_spec w j0 l author gone Hok Hs) as [Hs' Hn].
  assert (∀ i n, a_nodes (abs node_id (remove_all l author gone)) !! i = Some n ↔
    a_nodes (abs node_id l) !! i = Some n ∧ ∀ nid, nested n = Some nid → ¬ pending b (i, nid)) as Hleft.
  { intros i n. rw Hn. unfold gone. case_bool_decide as Hi; rw (pending_bearings w j0) // in Hi; split; try naive_solver. }
  split; [exact Hleft|]. unfold recover_archived_bearings. rw recover_loop_eq //.
  assert (filter (pending b) (bearings (remove_all l author gone)) = []) as ->; [|done].
  apply elem_of_nil_inv. intros [i nid] (Hp & Hin)%list_elem_of_filter.
  apply elem_of_bearings in Hin as (n & Hi & Hb); [|by apply (session_log_wf w j0)].
  apply Hleft in Hi as [_ Hnp]. by apply (Hnp nid).
Qed.

(** ** A crash between the archive and the save of the parent *)

Lemma filter_bearings_singleton w j0 l b p :
  ids_ok w j0 → session node_id w j0 l →
  (∀ q, q ∈ bearings l ∧ pending b q ↔ q = p) → filter (pending b) (bearings l) = [p].
Proof.
  intros Hok Hs Hq. pose proof (bearings_NoDup l (session_log_wf w j0 l Hok Hs)) as Hnd.
  assert (NoDup (filter (pending b) (bearings l))) as Hf.
  { apply NoDup_filter. by apply NoDup_fmap_1 in Hnd. }
  apply NoDup_only; [done|]. intros q. rw list_elem_of_filter -Hq. naive_solver.
Qed.

Lemma archived_pending m nid m' :
  m' ≠ nid → archived m nid !! log_slot m' = m !! log_slot m' ∧ archived m nid !! archived_log_slot m' = m !! archived_log_slot m'.
Proof.
  intros Hne. destruct (m !! log_slot nid) as [bytes|] eqn:El; [|unfold archived; by rw El].
  destruct (archived_slots m nid bytes El) as (_ & _ & _ & _ & Hk). destruct (slots_apart m' nid) as (? & ? & ? & ? & ? & ?).
  destruct (slots_apart nid m') as (? & ? & ? & ? & ? & ?). split; apply Hk; intros Hin; set_solver.
Qed.

Context `{!Codec (Journal BatchT)} `{!Codec (Journal Edit)}.

(** C13. A crash in the removal's window is repaired: the parent was saved, the
    nested graph archived, and the process stopped before the parent was saved
    again.  Reopening the parent and recovering ends with exactly the log the
    removal would have left, reporting the one graph it archived, provided no
    other node bears that graph and no other bearing was pending. *)
Theorem crash_recovery_completes w j0 l b0 b b1 l1 key author id nid bytes :
  ids_ok w j0 → session node_id w j0 l → save_log b0 key l = (b, Ok tt) →
  contents b !! log_slot nid = Some bytes → remove_bearing_node b l author id = (b1, l1, Ok (Some nid)) → reads_ok b1 →
  key ∉ [log_slot nid; snap_slot nid; archived_log_slot nid; archived_snap_slot nid] →
  (∀ i n, a_nodes (abs node_id l) !! i = Some n → nested n = Some nid → i = id) →
  (∀ i n m, a_nodes (abs node_id l) !! i = Some n → nested n = Some m → ¬ pending b (i, m)) →
  ∃ l2, load_full_for_writer node_id b1 key w = Ok l2 ∧ recover_archived_bearings b1 l2 author = (l1, Ok [nid]).
Proof.
  intros Hok Hs (enc & He & Hsv)%save_log_at Hlive Hrm Hr Hkey Honce Hnone.
  unfold remove_bearing_node in Hrm. destruct (nested_of l id) as [nid'|] eqn:En; [|done].
  destruct (archive_nested b nid') as [b' [moved|e]] eqn:Ea; [|done]. injection Hrm as <- <- ->.
  apply archive_nested_spec in Ea as [Hc _]. rw nested_of_abs in En. apply bind_Some in En as (n & Hn & Hb).
  destruct (archived_slots _ nid bytes Hlive) as (Hl & _ & Ha & _ & Hk). rw -Hc in Hl. rw -Hc in Ha.
  exists l. split.
  - assert (contents b' !! key = Some enc) as Hk' by (rw Hc Hk //; by rw Hsv lookup_insert_eq).
    unfold load_full_for_writer. rw (load_log_at b' key (log l) enc He Hk') Hr. by rw -(session_replayed node_id w j0 l Hs).
  - unfold recover_archived_bearings. rw recover_loop_eq // (filter_bearings_singleton w j0 l b' (id, nid) Hok Hs); [done|].
    intros [i m]. rw elem_of_bearings; [|by apply (session_log_wf w j0)]. split.
    + intros [(n' & Hi & Hn') [Hp1 Hp2]]. destruct (decide (m = nid)) as [->|Hne].
      * by rw (Honce i n' Hi Hn').
      * exfalso. cbn in Hp1, Hp2. rw Hc in Hp1. rw Hc in Hp2. destruct (archived_pending (contents b) nid m Hne) as [E1 E2].
        apply (Hnone i n' m Hi Hn'). unfold pending. cbn. by rw -E1 -E2.
    + intros [= -> ->]. split; [by exists n|]. split; [exact Hl|]. cbn. by rw Ha.
Qed.

(** ** The self-bearing guard *)

Inductive bearing_session (w : Z) (own : LogId) : Log → Prop :=
| bearing_open : bearing_session w own (replay_for_writer node_id (journal_with_id own) w)
| bearing_commit l author expected specs l' r :
    bearing_session w own l → next_edge l + Z.of_nat (spec_connects specs) ≤ u64_max →
    commit_bearing_batch l author expected specs = (l', r) → bearing_session w own l'.

Lemma commit_bearing_cases l author expected specs l' r own :
  j_id (log l) = Some own → commit_bearing_batch l author expected specs = (l', r) →
  (l' = l ∧ r = Err (SelfBearing own) ∧ existsb (bears_own own) specs = true) ∨
  (existsb (bears_own own) specs = false ∧ commit_batch node_id l author expected specs = (l', r)).
Proof.
  unfold commit_bearing_batch. intros ->. destruct (existsb _ specs); [intros [= <- <-]; by left|by right].
Qed.

Lemma lowered_inserts w n (specs : list Spec) m :
  InsertNode m ∈ (lower w n specs).1.1 → SpInsertNode m ∈ specs.
Proof.
  revert n. induction specs as [|sp specs IH]; intros n Hin; [by apply elem_of_nil in Hin|].
  destruct (lower_cons w n sp specs) as [n' Hl]. rw Hl in Hin. apply elem_of_cons in Hin as [Heq|Hin]; [|right; by eapply IH].
  destruct sp; cbn in Heq; simplify_eq. by left.
Qed.

Lemma applied_nodes (a : AGraph) (es : list Edit) i n :
  a_nodes (a_apply_all node_id a es) !! i = Some n → a_nodes a !! i = Some n ∨ InsertNode n ∈ es.
Proof.
  revert a. induction es as [|e es IH]; intros a; [by left|]. cbn [a_apply_all fold_left].
  intros [Hn|Hn]%IH; [|right; by right].
  destruct e as [m|x|x f t z|x|x d|x f v|x f]; cbn in Hn; try (by left); try (repeat case_match; by left).
  - apply lookup_insert_Some in Hn as [[_ ->]|[_ ?]]; [right; by left|by left].
  - apply lookup_delete_Some in Hn as [_ ?]. by left.
Qed.

Lemma bearing_inv w own l :
  bearing_session w own l →
  session node_id w (journal_with_id own) l ∧ j_id (log l) = Some own ∧
  ∀ n, InsertNode n ∈ edits_of (log l) → nested n ≠ Some own.
Proof.
  induction 1 as [|l author expected specs l' r _ (Hs & Hid & Hins) Hb Hc].
  { split; [apply session_open|]. destruct (replay_fields (G := G) node_id (journal_with_id own : Journal BatchT) w) as (-> & _).
    split; [done|]. intros n Hn. by apply elem_of_nil in Hn. }
  pose proof Hc as [(-> & _)|[Hg Hcb]]%(commit_bearing_cases _ _ _ _ _ _ own Hid); [done|].
  split; [by eapply session_commit|]. apply commit_batch_eq in Hcb as [(? & _ & ->)|(edits & minted & n & El & _ & _ & _ & ->)]; [done|].
  cbn [log set_log]. split; [done|]. intros m. rw edits_of_append elem_of_app. intros [Hm|Hm]; [by apply Hins|].
  assert (InsertNode m ∈ (lower (writer l) (next_edge l) specs).1.1) as Hm' by (by rw El).
  apply lowered_inserts in Hm'. intros Hn. apply not_true_iff_false in Hg. apply Hg. apply existsb_exists.
  exists (SpInsertNode m). split; [by apply list_elem_of_In|]. cbn. by apply bool_decide_eq_true.
Qed.

(** No graph bears itself: in a log edited through the guarded commit, no
    live node ever bears the log's own identity; the guard refuses a batch that
    inserts one, changing nothing, and refuses no other batch. *)
Theorem no_self_bearing w own l author expected specs :
  bearing_session w own l →
  (∀ i n, a_nodes (abs node_id l) !! i = Some n → nested n ≠ Some own) ∧
  let '(l', r) := commit_bearing_batch l author expected specs in
  ((∃ n, SpInsertNode n ∈ specs ∧ nested n = Some own) → l' = l ∧ r = Err (SelfBearing own)) ∧
  ((∀ n, SpInsertNode n ∈ specs → nested n ≠ Some own) → (l', r) = commit_batch node_id l author expected specs).
Proof.
  intros Hb. destruct (bearing_inv w own l Hb) as (Hs & Hid & Hins). split.
  - intros i n Hi. rw (session_replayed node_id w _ l Hs) in Hi.
    assert (ids_ok w (journal_with_id own : Journal BatchT)) as Hok by (split; [constructor|intros ? []%elem_of_nil]).
    destruct (replay_abs node_id (log l) w) as [_ Ha]; [apply (session_ids node_id w _ l Hok Hs)|]. rw Ha in Hi.
    apply applied_nodes in Hi as [Hi|Hi]; [by rw lookup_empty in Hi|]. by apply Hins.
  - assert (existsb (bears_own own) specs = true ↔ ∃ n, SpInsertNode n ∈ specs ∧ nested n = Some own) as Hg.
    { rw existsb_exists. split.
      - intros (sp & Hin%list_elem_of_In & Hsp). destruct sp; cbn in Hsp; try done. apply bool_decide_eq_true in Hsp. eauto.
      - intros (n & Hin%list_elem_of_In & Hn). exists (SpInsertNode n). split; [done|]. cbn. by apply bool_decide_eq_true. }
    unfold commit_bearing_batch. rw Hid. destruct (existsb _ specs).
    + split; [done|]. intros Hno. destruct (proj1 Hg eq_refl) as (n & Hn & Hn'). by destruct (Hno n Hn).
    + destruct (commit_batch node_id l author expected specs). split; [|done]. intros Hex. by apply Hg in Hex.
Qed.
End bearing.

Module Sample.
Import Toy.

(** Nodes are numbers with the log they bear. *)
Abbreviation SN := (Z * option string)%type.
Abbreviation SLog := (GraphLog (G := fresh_graph) (N := SN) (E := string) (Id := Z) (F := string) (V := Z)).
Abbreviation SBatch := (Batch (N := SN) (E := string) (Id := Z) (F := string) (V := Z)).
Abbreviation SEdit := (GraphEdit (N := SN) (E := string) (Id := Z) (F := string) (V := Z)).
Abbreviation SSpec := (EditSpec (N := SN) (E := string) (Id := Z) (F := string) (V := Z)).
#[local] Instance batch_codec : Codec (Journal SBatch) := toy_codec 0.
#[local] Instance edit_codec : Codec (Journal SEdit) := toy_codec 1.

Definition parent_journal : Journal SBatch := journal_with_id "parent".
Definition parent0 : SLog := replay_for_writer fst parent_journal 7.
Definition parent : SLog :=
  (commit_batch fst parent0 "keeper" 0 [SpInsertNode (1, Some "trail"); SpInsertNode (2, None); SpInsertNode (3, Some "other")]).1.

Lemma parent_ok : ids_ok 7 parent_journal.
Proof. split; [constructor|]. intros i Hi. by apply elem_of_nil in Hi. Qed.

Lemma parent_session : session fst 7 parent_journal parent.
Proof.
  eapply (session_commit fst 7 parent_journal parent0 "keeper" 0
    [SpInsertNode (1, Some "trail"); SpInsertNode (2, None); SpInsertNode (3, Some "other")]);
    [apply session_open|by vm_compute|apply surjective_pairing].
Qed.

(** A store with the two nested graphs, then the parent saved. *)
Definition store0 : FaultyBackend :=
  mkFaulty (<[log_slot "trail" := [5]]> (<[snap_slot "trail" := [6]]> {[log_slot "other" := [7]]})) false false.
Definition store : FaultyBackend := (save_log store0 "parent/log" parent).1.
Definition removed : FaultyBackend * SLog := (remove_bearing_node fst snd store parent "keeper" 1).1.

Lemma removed_eq : remove_bearing_node fst snd store parent "keeper" 1 = (removed.1, removed.2, Ok (Some "trail")).
Proof. by vm_compute. Qed.

Lemma removal_archives_first_witness :
  contents removed.1 !! archived_snap_slot "trail" = Some [6] ∧ a_nodes (abs fst removed.2) !! 1 = None ∧
  (remove_bearing_node fst snd (mkFaulty (contents store) false true) parent "keeper" 1).2 = Err fault ∧
  (remove_bearing_node fst snd (mkFaulty (contents store) false true) parent "keeper" 1).1.2 = parent.
Proof.
  pose proof (removal_archives_first fst snd 7 parent_journal parent store "keeper" 1 parent_ok parent_session) as H1.
  pose proof (removal_archives_first fst snd 7 parent_journal parent (mkFaulty (contents store) false true) "keeper" 1
    parent_ok parent_session) as H2.
  rw removed_eq in H1. destruct H1 as (_ & Hn & Hs).
  assert (contents store !! log_slot "trail" = Some [5]) as El by (by vm_compute). rw El in Hs.
  destruct Hs as (_ & _ & _ & Hsnap & _). split; [apply Hsnap; by vm_compute|]. split; [rw Hn; apply lookup_delete_eq|].
  assert ((remove_bearing_node fst snd (mkFaulty (contents store) false true) parent "keeper" 1).2 = Err fault) as Er by (by vm_compute).
  split; [exact Er|]. destruct (remove_bearing_node fst snd (mkFaulty (contents store) false true) parent "keeper" 1) as [[b' l'] r].
  cbn in Er. subst r. exact (proj2 H2).
Defined.

Lemma reads (b : FaultyBackend) : fb_reads_fail b = false → reads_ok b.
Proof. intros Hb k. cbn. unfold fb_get. by rw Hb. Qed.

Lemma recovery_exact_witness :
  (recover_archived_bearings fst snd removed.1 parent "keeper").2 = Ok ["trail"] ∧
  a_nodes (abs fst (recover_archived_bearings fst snd removed.1 parent "keeper").1) !! 3 = Some (3, Some "other").
Proof.
  assert (fb_reads_fail removed.1 = false) as Hf by (by vm_compute).
  pose proof (recovery_exact fst snd 7 parent_journal parent removed.1 "keeper" parent_ok parent_session (reads _ Hf)) as Hr.
  destruct (recover_archived_bearings fst snd removed.1 parent "keeper") as [l' r]. destruct Hr as (-> & Hn & _).
  split; [by vm_compute|]. apply Hn. split; [by vm_compute|]. intros nid [= <-] [Hp _]. revert Hp. by vm_compute.
Defined.

Lemma nodes_of_parent i n : a_nodes (abs fst parent) !! i = Some n → (i, n) ∈ [(1, (1, Some "trail")); (2, (2, None)); (3, (3, Some "other"))].
Proof.
  assert (a_nodes (abs fst parent) = list_to_map [(1, (1, Some "trail")); (2, (2, None)); (3, (3, Some "other"))]) as -> by (by vm_compute).
  apply elem_of_list_to_map_2.
Qed.

Lemma crash_recovery_completes_witness :
  ∃ l2, load_full_for_writer fst removed.1 "parent/log" 7 = Ok l2 ∧
    recover_archived_bearings fst snd removed.1 l2 "keeper" = (removed.2, Ok ["trail"]).
Proof.
  assert (save_log store0 "parent/log" parent = (store, Ok tt)) as H1 by (by vm_compute).
  assert (contents store !! log_slot "trail" = Some [5]) as H2 by (by vm_compute).
  assert (fb_reads_fail removed.1 = false) as Hf by (by vm_compute).
  refine (crash_recovery_completes fst snd 7 parent_journal parent store0 store removed.1 removed.2 "parent/log" "keeper" 1 "trail" [5]
    parent_ok parent_session H1 H2 removed_eq (reads _ Hf) _ _ _).
  - apply (bool_decide_unpack _). by vm_compute.
  - intros i n Hin%nodes_of_parent Hn. rw !elem_of_cons elem_of_nil in Hin.
    by destruct Hin as [[= -> ->]|[[= -> ->]|[[= -> ->]|[]]]].
  - intros i n m Hin%nodes_of_parent Hn [_ [x Hx]]. cbn in Hx.
    rw !elem_of_cons elem_of_nil in Hin. destruct Hin as [[= -> ->]|[[= -> ->]|[[= -> ->]|[]]]]; cbn in Hn; try done;
      injection Hn as <-; revert Hx; by vm_compute.
Defined.

Lemma no_self_bearing_witness :
  ∀ i n, a_nodes (abs fst parent) !! i = Some n → n.2 ≠ Some "parent".
Proof.
  assert (bearing_session fst snd 7 "parent" parent) as Hb.
  { eapply (bearing_commit fst snd 7 "parent" parent0 "keeper" 0
      [SpInsertNode (1, Some "trail"); SpInsertNode (2, None); SpInsertNode (3, Some "other")]);
      [apply bearing_open|by vm_compute|by vm_compute]. }
  exact (proj1 (no_self_bearing fst snd 7 "parent" parent "keeper" 0 [] Hb)).
Defined.

(** Two nodes bearing one log: removing the first leaves the second looking like an
    interrupted removal, and recovery removes it, though nobody asked for that. *)
Lemma shared_bearing_lost :
  let l := (commit_batch fst parent0 "keeper" 0 [SpInsertNode (1, Some "trail"); SpInsertNode (2, Some "trail")]).1 in
  let '(b1, l1, r) := remove_bearing_node fst snd store0 l "keeper" 1 in
  r = Ok (Some "trail") ∧ is_Some (key_of (graph l1) 2) ∧
  (recover_archived_bearings fst snd b1 l1 "keeper").2 = Ok ["trail"] ∧
  key_of (graph (recover_archived_bearings fst snd b1 l1 "keeper").1) 2 = None.
Proof. vm_compute. split_and!; eauto. Qed.

(** A node that bears the name of an archived graph, before its own log is first
    saved, is removed the same way. *)
Lemma reused_name_lost :
  let '(l1, _) := commit_batch fst removed.2 "keeper" 2 [SpInsertNode (9, Some "trail")] in
  is_Some (key_of (graph l1) 9) ∧
  key_of (graph (recover_archived_bearings fst snd removed.1 l1 "keeper").1) 9 = None.
Proof. vm_compute. split; eauto. Qed.
End Sample.
