(* ===== verification/KernelEdges.v ===== *)
(** Relations of the graph kernel
    (crates/graph/graph-kernel/src/graph/{edge_taxonomy,edge_data,edge_payload}.rs).

    Between two nodes the kernel keeps one payload: a sidecar per family of
    relations.  The semantic sidecar is a bucket of statements with three
    aggregates recomputed after each change; the traversal sidecar is a list of
    events with saturating counters; the other four are sets of sub-kinds.

    A minted statement id (time, process salt, counter) is an argument of the
    operation that mints it; the clock is an argument too, and the [f32] of a
    decay, which nothing reads, is its bits.

    The theorems: relation tags and predicate IRIs decode to what was encoded and
    to nothing else; a payload refines a set of relation kinds, every operation
    acting on the set as it says; the aggregates are exact and no sidecar is left
    empty after any sequence of operations. *)

From S2P Require Import Prelude Wire.

Local Open Scope Z_scope.

(** ** Taxonomy (edge_taxonomy.rs) *)

Inductive EdgeFamily : Type := FSemantic | FTraversal | FContainment | FArrangement | FImported | FProvenance.

Inductive SemanticSubKind : Type :=
| Hyperlink | UserGrouped | AgentDerived | Cites | Quotes | Summarizes | Elaborates | ExampleOf | Supports
| Contradicts | Questions | SameEntityAs | DuplicateOf | CanonicalMirrorOf | DependsOn | Blocks | NextStep.
Inductive ArrangementSubKind : Type := FrameMember | TileGroup | SplitPair.
Inductive ContainmentSubKind : Type :=
| UrlPath | Domain | FileSystem | UserFolder | ClipSource | NotebookSection | CollectionMember.
Inductive ImportedSubKind : Type :=
| BookmarkFolder | HistoryImport | SessionImport | RssMembership | FileSystemImport | ArchiveMembership | SharedCollection.
Inductive ProvenanceSubKind : Type :=
| ClippedFrom | ExcerptedFrom | SummarizedFrom | TranslatedFrom | RewrittenFrom | GeneratedFrom | ExtractedFrom
| ImportedFromSource | CopiedFrom.

#[export] Instance EdgeFamily_eq_dec : EqDecision EdgeFamily.
Proof. solve_decision. Defined.
#[export] Instance SemanticSubKind_eq_dec : EqDecision SemanticSubKind.
Proof. solve_decision. Defined.
#[export] Instance ArrangementSubKind_eq_dec : EqDecision ArrangementSubKind.
Proof. solve_decision. Defined.
#[export] Instance ContainmentSubKind_eq_dec : EqDecision ContainmentSubKind.
Proof. solve_decision. Defined.
#[export] Instance ImportedSubKind_eq_dec : EqDecision ImportedSubKind.
Proof. solve_decision. Defined.
#[export] Instance ProvenanceSubKind_eq_dec : EqDecision ProvenanceSubKind.
Proof. solve_decision. Defined.

(** What the derives give an enum: its variants in declaration order, which is
    also the order a [BTreeSet] iterates in, the discriminant and [from_repr]. *)
Class Variants (A : Type) `{EqDecision A} : Type := {
  variants : list A;
  variants_NoDup : NoDup variants;
  variants_all a : a ∈ variants
}.

Section variants.
Context {A : Type} `{Variants A}.
Definition discriminant (a : A) : Z := Z.of_nat (default 0%nat (fst <$> list_find (λ b, b = a) variants)).
Definition from_repr (n : Z) : option A := if bool_decide (n < 0) then None else variants !! Z.to_nat n.

Lemma discriminant_lookup a : variants !! Z.to_nat (discriminant a) = Some a ∧ 0 ≤ discriminant a < Z.of_nat (length (variants (A := A))).
Proof.
  unfold discriminant. destruct (list_find_elem_of (λ b, b = a) variants a (variants_all a) eq_refl) as [[i b] Hf].
  rw Hf. cbn. rw Nat2Z.id. apply list_find_Some in Hf as (Hi & -> & _). split; [done|]. apply lookup_lt_Some in Hi. lia.
Qed.

Lemma from_repr_discriminant a : from_repr (discriminant a) = Some a.
Proof. unfold from_repr. destruct (discriminant_lookup a). rw bool_decide_eq_false_2; [done|lia]. Qed.

Lemma from_repr_Some n a : from_repr n = Some a → n = discriminant a.
Proof.
  unfold from_repr. case_bool_decide as Hn; [done|]. intros Ha. destruct (discriminant_lookup a) as [Hd Hb].
  pose proof (NoDup_lookup _ _ _ _ variants_NoDup Ha Hd). lia.
Qed.

Definition variants_countable : Countable A :=
  inj_countable (λ a : A, Z.to_nat (discriminant a)) (variants !!.) (λ a, proj1 (discriminant_lookup a)).

(** Iteration over a [BTreeSet] of variants. *)
Definition in_order `{!Countable A} (X : gset A) : list A := filter (.∈ X) variants.
Lemma elem_of_in_order `{!Countable A} (X : gset A) a : a ∈ in_order X ↔ a ∈ X.
Proof. unfold in_order. rw list_elem_of_filter. pose proof (variants_all a). naive_solver. Qed.
End variants.
Arguments in_order : simpl never.
Arguments discriminant : simpl never.

#[export] Instance EdgeFamily_variants : Variants EdgeFamily.
Proof.
  refine {| variants := [FSemantic; FTraversal; FContainment; FArrangement; FImported; FProvenance] |};
    [by apply (bool_decide_unpack _) | intros []; by apply (bool_decide_unpack _)].
Defined.
#[export] Instance EdgeFamily_countable : Countable EdgeFamily := variants_countable.
#[export] Instance SemanticSubKind_variants : Variants SemanticSubKind.
Proof.
  refine {| variants := [Hyperlink; UserGrouped; AgentDerived; Cites; Quotes; Summarizes; Elaborates; ExampleOf; Supports; Contradicts; Questions; SameEntityAs; DuplicateOf; CanonicalMirrorOf; DependsOn; Blocks; NextStep] |};
    [by apply (bool_decide_unpack _) | intros []; by apply (bool_decide_unpack _)].
Defined.
#[export] Instance SemanticSubKind_countable : Countable SemanticSubKind := variants_countable.
#[export] Instance ArrangementSubKind_variants : Variants ArrangementSubKind.
Proof.
  refine {| variants := [FrameMember; TileGroup; SplitPair] |};
    [by apply (bool_decide_unpack _) | intros []; by apply (bool_decide_unpack _)].
Defined.
#[export] Instance ArrangementSubKind_countable : Countable ArrangementSubKind := variants_countable.
#[export] Instance ContainmentSubKind_variants : Variants ContainmentSubKind.
Proof.
  refine {| variants := [UrlPath; Domain; FileSystem; UserFolder; ClipSource; NotebookSection; CollectionMember] |};
    [by apply (bool_decide_unpack _) | intros []; by apply (bool_decide_unpack _)].
Defined.
#[export] Instance ContainmentSubKind_countable : Countable ContainmentSubKind := variants_countable.
#[export] Instance ImportedSubKind_variants : Variants ImportedSubKind.
Proof.
  refine {| variants := [BookmarkFolder; HistoryImport; SessionImport; RssMembership; FileSystemImport; ArchiveMembership; SharedCollection] |};
    [by apply (bool_decide_unpack _) | intros []; by apply (bool_decide_unpack _)].
Defined.
#[export] Instance ImportedSubKind_countable : Countable ImportedSubKind := variants_countable.
#[export] Instance ProvenanceSubKind_variants : Variants ProvenanceSubKind.
Proof.
  refine {| variants := [ClippedFrom; ExcerptedFrom; SummarizedFrom; TranslatedFrom; RewrittenFrom; GeneratedFrom; ExtractedFrom; ImportedFromSource; CopiedFrom] |};
    [by apply (bool_decide_unpack _) | intros []; by apply (bool_decide_unpack _)].
Defined.
#[export] Instance ProvenanceSubKind_countable : Countable ProvenanceSubKind := variants_countable.

Inductive RelationDurability : Type := Durable | Session.
Definition durability (k : ArrangementSubKind) : RelationDurability :=
  match k with FrameMember => Durable | TileGroup | SplitPair => Session end.

Inductive EdgeAssertion : Type :=
| ASemantic (sub_kind : SemanticSubKind) (label : option string) (decay_progress : option Z)
| AContainment (sub_kind : ContainmentSubKind)
| AArrangement (sub_kind : ArrangementSubKind)
| AImported (sub_kind : ImportedSubKind)
| AProvenance (sub_kind : ProvenanceSubKind).

Inductive RelationSelector : Type :=
| SFamily (family : EdgeFamily)
| SSemantic (sub_kind : SemanticSubKind)
| SContainment (sub_kind : ContainmentSubKind)
| SArrangement (sub_kind : ArrangementSubKind)
| SImported (sub_kind : ImportedSubKind)
| SProvenance (sub_kind : ProvenanceSubKind).

Inductive NavigationTrigger : Type :=
| TUnknown | LinkClick | TBack | TForward | AddressBarEntry | PanePromotion | Programmatic | Redirect | ReopenSession
| JumpAnchor | InPageSearchJump | ImportedHistory.
Definition contributes_to_forward_count (t : NavigationTrigger) : bool := match t with TBack => false | _ => true end.

Inductive RelationKind : Type :=
| KSemantic (sub_kind : SemanticSubKind)
| KTraversal
| KContainment (sub_kind : ContainmentSubKind)
| KArrangement (sub_kind : ArrangementSubKind)
| KImported (sub_kind : ImportedSubKind)
| KProvenance (sub_kind : ProvenanceSubKind).

#[export] Instance RelationKind_eq_dec : EqDecision RelationKind.
Proof. solve_decision. Defined.

Definition relation_family (k : RelationKind) : EdgeFamily :=
  match k with
  | KSemantic _ => FSemantic | KTraversal => FTraversal | KContainment _ => FContainment
  | KArrangement _ => FArrangement | KImported _ => FImported | KProvenance _ => FProvenance
  end.

Definition tag (k : RelationKind) : Z :=
  let '(family, sub) := match k with
                        | KSemantic sk => (0, discriminant sk)
                        | KTraversal => (1, 0)
                        | KContainment sk => (2, discriminant sk)
                        | KArrangement sk => (3, discriminant sk)
                        | KImported sk => (4, discriminant sk)
                        | KProvenance sk => (5, discriminant sk)
                        end in
  Z.lor (Z.shiftl family 24) (Z.land sub 0x00ffffff).

Definition from_tag (tag : Z) : option RelationKind :=
  let family := Z.shiftr tag 24 in
  let sub := Z.land tag 0x00ffffff in
  match family with
  | 0 => KSemantic <$> from_repr sub
  | 1 => if bool_decide (sub = 0) then Some KTraversal else None
  | 2 => KContainment <$> from_repr sub
  | 3 => KArrangement <$> from_repr sub
  | 4 => KImported <$> from_repr sub
  | 5 => KProvenance <$> from_repr sub
  | _ => None
  end.

(** A tag is the family in the top byte and the sub-kind below it. *)
Lemma tag_parts family sub : 0 ≤ sub < 2 ^ 24 →
  Z.lor (Z.shiftl family 24) (Z.land sub 0x00ffffff) = family * 2 ^ 24 + sub.
Proof.
  intros Hs. change 0x00ffffff with (Z.ones 24). rw Z.land_ones; [|lia]. rw Z.shiftl_mul_pow2; [|lia].
  rw -Z.add_nocarry_lor; [by rw Z.mod_small|]. apply Z.bits_inj'. intros n Hn. rw Z.land_spec Z.bits_0.
  destruct (decide (n < 24)); [rw Z.mul_pow2_bits_low; [done|lia]|]. rw Z.mod_pow2_bits_high; [|lia]. apply andb_false_r.
Qed.

Lemma tag_split t : t = Z.shiftr t 24 * 2 ^ 24 + Z.land t 0x00ffffff ∧ 0 ≤ Z.land t 0x00ffffff < 2 ^ 24.
Proof.
  change 0x00ffffff with (Z.ones 24). rw Z.land_ones; [|lia]. rw Z.shiftr_div_pow2; [|lia].
  pose proof (Z.div_mod t (2 ^ 24)). pose proof (Z.mod_pos_bound t (2 ^ 24)). lia.
Qed.

Lemma tag_join family sub : 0 ≤ sub < 2 ^ 24 →
  Z.shiftr (family * 2 ^ 24 + sub) 24 = family ∧ Z.land (family * 2 ^ 24 + sub) 0x00ffffff = sub.
Proof.
  intros Hs. change 0x00ffffff with (Z.ones 24). rw Z.land_ones; [|lia]. rw Z.shiftr_div_pow2; [|lia]. split.
  - rw Z.div_add_l; [|lia]. rw Z.div_small; lia.
  - rw Z.add_comm Z.mod_add; [|lia]. by apply Z.mod_small.
Qed.

Lemma discriminant_range `{Variants A} (a : A) : (length (variants (A := A)) ≤ 256)%nat → 0 ≤ discriminant a < 2 ^ 24.
Proof. intros Hl. destruct (discriminant_lookup a). lia. Qed.

(** The family and sub-kind a tag packs. *)
Definition tag_of (k : RelationKind) : Z * Z :=
  match k with
  | KSemantic sk => (0, discriminant sk) | KTraversal => (1, 0) | KContainment sk => (2, discriminant sk)
  | KArrangement sk => (3, discriminant sk) | KImported sk => (4, discriminant sk) | KProvenance sk => (5, discriminant sk)
  end.

Lemma tag_of_range k : 0 ≤ (tag_of k).2 < 2 ^ 24 ∧ 0 ≤ (tag_of k).1 ≤ 5.
Proof. destruct k; cbn [tag_of fst snd]; (split; [|lia]); try lia; apply discriminant_range; cbn; lia. Qed.

Lemma tag_eq k : tag k = (tag_of k).1 * 2 ^ 24 + (tag_of k).2.
Proof. rw -tag_parts; [by destruct k|apply tag_of_range]. Qed.

(** Tags are an exact encoding of relation kinds: every kind comes back
    from its tag, a tag that decodes to a kind is that kind's tag and no other
    number is, and every tag fits in 32 bits. *)
Theorem relation_tags_exact t k :
  from_tag (tag k) = Some k ∧ (from_tag t = Some k → t = tag k) ∧ 0 ≤ tag k ≤ u32_max.
Proof.
  pose proof (tag_of_range k) as [Hr Hf]. rw tag_eq. split_and!.
  - unfold from_tag. destruct (tag_join (tag_of k).1 (tag_of k).2 Hr) as [-> ->].
    destruct k; cbn [tag_of fst snd]; rw ?from_repr_discriminant; done.
  - destruct (tag_split t) as [Ht _]. unfold from_tag. destruct (Z.shiftr t 24) as [|p|p] eqn:Ef; [| |done].
    + intros (sk & Hsk%from_repr_Some & ->)%fmap_Some. cbn [tag_of fst snd]. lia.
    + destruct p as [[[]| [] |]|[[]| [] |]|]; try done; intros Hk;
        try (apply fmap_Some in Hk as (sk & Hsk%from_repr_Some & ->); cbn [tag_of fst snd]; lia).
      revert Hk. case_bool_decide; [|done]. intros [= <-]. cbn [tag_of fst snd]. lia.
  - lia.
  - unfold u32_max. lia.
Qed.

(** ** Per-family data (edge_data.rs) *)

Inductive GraphScope : Type := ScopeDefault | ScopeSource | ScopeUser | ScopeAgent | ScopeMoot | ScopeCustom (name : string).
#[export] Instance GraphScope_eq_dec : EqDecision GraphScope.
Proof. solve_decision. Defined.

Record Traversal : Type := mkTraversal { timestamp_ms : Z; trigger : NavigationTrigger }.

Record EdgeMetrics : Type := mkMetrics {
  total_navigations : Z;
  forward_navigations : Z;
  backward_navigations : Z;
  last_navigated_at : option Z
}.
Definition metrics_new : EdgeMetrics := mkMetrics 0 0 0 None.
Definition metrics_record (m : EdgeMetrics) (t : Traversal) : EdgeMetrics :=
  let forward := contributes_to_forward_count (trigger t) in
  mkMetrics (saturating_add (total_navigations m) 1)
    (if forward then saturating_add (forward_navigations m) 1 else forward_navigations m)
    (if forward then backward_navigations m else saturating_add (backward_navigations m) 1)
    (Some (timestamp_ms t)).

Record SemanticStatement : Type := mkStatement {
  statement_id : string;
  predicate : string;
  recognized_sub_kind : option SemanticSubKind;
  st_label : option string;
  graph_scope : GraphScope;
  provenance_iri : option string;
  asserted_at_ms : option Z
}.

Record SemanticData : Type := mkSemanticData {
  sub_kinds : gset SemanticSubKind;
  sd_label : option string;
  sd_predicate : option string;
  statements : list SemanticStatement
}.
Definition semantic_default : SemanticData := mkSemanticData ∅ None None [].

Record SemanticStatementSpec : Type := mkSpec {
  ss_predicate : string;
  ss_recognized_sub_kind : option SemanticSubKind;
  ss_label : option string;
  ss_graph_scope : GraphScope;
  ss_provenance_iri : option string;
  ss_asserted_at_ms : option Z
}.

Record StatementAssert : Type := mkStatementAssert { sa_statement_id : string; sa_changed : bool }.

(** The labels and the predicates are sorted and deduplicated before they are
    counted: the elements of their set. *)
Definition rebuild_compat (d : SemanticData) : SemanticData :=
  let labels := omap st_label (statements d) in
  let predicates := predicate <$> statements d in
  mkSemanticData (list_to_set (omap recognized_sub_kind (statements d)))
    (match elements (list_to_set (C := gset string) labels) with
     | [] => None
     | [label] => Some label
     | _ => head (omap st_label (reverse (statements d)))
     end)
    (match elements (list_to_set (C := gset string) predicates) with [p] => Some p | _ => None end)
    (statements d).
Definition with_statements (d : SemanticData) (sts : list SemanticStatement) : SemanticData :=
  mkSemanticData (sub_kinds d) (sd_label d) (sd_predicate d) sts.

(** The content a statement is deduplicated on. *)
Definition fact (s : SemanticStatement) : option SemanticSubKind * string * GraphScope :=
  (recognized_sub_kind s, predicate s, graph_scope s).

Definition statement_new (id : string) (predicate : string) (sub_kind : option SemanticSubKind) (label : option string)
    (scope : GraphScope) (provenance : option string) (at_ms : option Z) : SemanticStatement :=
  mkStatement id predicate sub_kind label scope provenance at_ms.

Definition with_metadata (s : SemanticStatement) (label provenance : option string) (at_ms : option Z) : SemanticStatement :=
  mkStatement (statement_id s) (predicate s) (recognized_sub_kind s) label (graph_scope s) provenance at_ms.

Definition metadata_differs (s : SemanticStatement) (label provenance : option string) (at_ms : option Z) : bool :=
  bool_decide (st_label s ≠ label) || bool_decide (provenance_iri s ≠ provenance) || bool_decide (asserted_at_ms s ≠ at_ms).

Definition assert_statement (mint : string) (d : SemanticData) (spec : SemanticStatementSpec) : SemanticData * StatementAssert :=
  match list_find (λ s, fact s = (ss_recognized_sub_kind spec, ss_predicate spec, ss_graph_scope spec)) (statements d) with
  | Some (i, existing) =>
      let changed := metadata_differs existing (ss_label spec) (ss_provenance_iri spec) (ss_asserted_at_ms spec) in
      (if changed
       then rebuild_compat (with_statements d
              (<[i := with_metadata existing (ss_label spec) (ss_provenance_iri spec) (ss_asserted_at_ms spec)]> (statements d)))
       else d,
       mkStatementAssert (statement_id existing) changed)
  | None =>
      let statement := statement_new mint (ss_predicate spec) (ss_recognized_sub_kind spec) (ss_label spec)
                         (ss_graph_scope spec) (ss_provenance_iri spec) (ss_asserted_at_ms spec) in
      (rebuild_compat (with_statements d (statements d ++ [statement])), mkStatementAssert (statement_id statement) true)
  end.

(** [retain], and the aggregates rebuilt when it dropped something. *)
Definition retain_statements (keep : SemanticStatement → bool) (d : SemanticData) : SemanticData * bool :=
  let kept := filter (λ s, keep s = true) (statements d) in
  if bool_decide (length kept = length (statements d)) then (with_statements d kept, false)
  else (rebuild_compat (with_statements d kept), true).

Definition retract_statement (d : SemanticData) (id : string) : SemanticData * bool :=
  retain_statements (λ s, bool_decide (statement_id s ≠ id)) d.

Definition insert_statement (mint : string) (d : SemanticData) (sub_kind : option SemanticSubKind) (predicate : string)
    (label : option string) (scope : GraphScope) (provenance : option string) (at_ms : option Z) : SemanticData * bool :=
  match list_find (λ s, fact s = (sub_kind, predicate, scope)) (statements d) with
  | Some (i, existing) =>
      if metadata_differs existing label provenance at_ms
      then (rebuild_compat (with_statements d (<[i := with_metadata existing label provenance at_ms]> (statements d))), true)
      else (d, false)
  | None =>
      (rebuild_compat (with_statements d (statements d ++ [statement_new mint predicate sub_kind label scope provenance at_ms])), true)
  end.

Definition push_persisted_statement (d : SemanticData) (s : SemanticStatement) : SemanticData * bool :=
  if existsb (λ e, bool_decide (statement_id e = statement_id s)) (statements d) then (d, false)
  else (rebuild_compat (with_statements d (statements d ++ [s])), true).

Definition remove_statements_with_sub_kind (d : SemanticData) (k : SemanticSubKind) : SemanticData * bool :=
  retain_statements (λ s, bool_decide (recognized_sub_kind s ≠ Some k)) d.

Definition REL_VOCAB : string := "https://mere.computer/ns/rel#".

Definition predicate_iri (k : SemanticSubKind) : string :=
  match k with
  | Hyperlink => "https://mere.computer/ns/rel#hyperlink"
  | UserGrouped => "https://mere.computer/ns/rel#user-grouped"
  | AgentDerived => "https://mere.computer/ns/rel#agent-derived"
  | Cites => "https://mere.computer/ns/rel#cites"
  | Quotes => "https://mere.computer/ns/rel#quotes"
  | Summarizes => "https://mere.computer/ns/rel#summarizes"
  | Elaborates => "https://mere.computer/ns/rel#elaborates"
  | ExampleOf => "https://mere.computer/ns/rel#example-of"
  | Supports => "https://mere.computer/ns/rel#supports"
  | Contradicts => "https://mere.computer/ns/rel#contradicts"
  | Questions => "https://mere.computer/ns/rel#questions"
  | SameEntityAs => "https://mere.computer/ns/rel#same-entity-as"
  | DuplicateOf => "https://mere.computer/ns/rel#duplicate-of"
  | CanonicalMirrorOf => "https://mere.computer/ns/rel#canonical-mirror-of"
  | DependsOn => "https://mere.computer/ns/rel#depends-on"
  | Blocks => "https://mere.computer/ns/rel#blocks"
  | NextStep => "https://mere.computer/ns/rel#next-step"
  end.

Definition sub_kind_from_iri (iri : string) : option SemanticSubKind :=
  snd <$> list_find (λ k, predicate_iri k = iri) variants.

Definition with_predicate (p : string) (s : SemanticStatement) : SemanticStatement :=
  mkStatement (statement_id s) p (recognized_sub_kind s) (st_label s) (graph_scope s) (provenance_iri s) (asserted_at_ms s).

Definition set_statement_predicate (mint : string) (d : SemanticData) (new : option string) : SemanticData :=
  rebuild_compat (with_statements d
    match new with
    | Some p =>
        match statements d with
        | [] => [statement_new mint p None (sd_label d) ScopeDefault None None]
        | sts => with_predicate p <$> sts
        end
    | None =>
        (λ s, match recognized_sub_kind s with Some k => with_predicate (predicate_iri k) s | None => s end)
          <$> filter (λ s, is_Some (recognized_sub_kind s)) (statements d)
    end).

Record TraversalData : Type := mkTraversalData { traversals : list Traversal; td_metrics : EdgeMetrics }.
Definition traversal_default : TraversalData := mkTraversalData [] metrics_new.
Definition traversal_push (d : TraversalData) (t : Traversal) : TraversalData :=
  mkTraversalData (traversals d ++ [t]) (metrics_record (td_metrics d) t).

(** Insertion into and removal from a [BTreeSet], with their results. *)
Definition set_insert {A} `{Countable A} (x : A) (X : gset A) : gset A * bool := ({[x]} ∪ X, bool_decide (x ∉ X)).
Definition set_remove {A} `{Countable A} (x : A) (X : gset A) : gset A * bool := (X ∖ {[x]}, bool_decide (x ∈ X)).

(** [ArrangementData::{has_durable_relation, has_session_relation}]. *)
Definition has_durable_relation (X : gset ArrangementSubKind) : bool :=
  existsb (λ k, match durability k with Durable => true | Session => false end) (in_order X).
Definition has_session_relation (X : gset ArrangementSubKind) : bool :=
  existsb (λ k, match durability k with Session => true | Durable => false end) (in_order X).

(** ** The payload of a pair (edge_payload.rs) *)

Record EdgePayload : Type := mkPayload {
  semantic : option SemanticData;
  traversal : option TraversalData;
  arrangement : option (gset ArrangementSubKind);
  containment : option (gset ContainmentSubKind);
  imported : option (gset ImportedSubKind);
  provenance : option (gset ProvenanceSubKind)
}.
Definition payload_new : EdgePayload := mkPayload None None None None None None.

Definition set_semantic (s : option SemanticData) (p : EdgePayload) : EdgePayload :=
  mkPayload s (traversal p) (arrangement p) (containment p) (imported p) (provenance p).
Definition set_traversal (t : option TraversalData) (p : EdgePayload) : EdgePayload :=
  mkPayload (semantic p) t (arrangement p) (containment p) (imported p) (provenance p).
Definition set_arrangement (x : option (gset ArrangementSubKind)) (p : EdgePayload) : EdgePayload :=
  mkPayload (semantic p) (traversal p) x (containment p) (imported p) (provenance p).
Definition set_containment (x : option (gset ContainmentSubKind)) (p : EdgePayload) : EdgePayload :=
  mkPayload (semantic p) (traversal p) (arrangement p) x (imported p) (provenance p).
Definition set_imported (x : option (gset ImportedSubKind)) (p : EdgePayload) : EdgePayload :=
  mkPayload (semantic p) (traversal p) (arrangement p) (containment p) x (provenance p).
Definition set_provenance (x : option (gset ProvenanceSubKind)) (p : EdgePayload) : EdgePayload :=
  mkPayload (semantic p) (traversal p) (arrangement p) (containment p) (imported p) x.

Definition insert_semantic_relation_in_scope (mint : string) (p : EdgePayload) (k : SemanticSubKind) (label : option string)
    (scope : GraphScope) : EdgePayload * bool :=
  let '(d, changed) := insert_statement mint (default semantic_default (semantic p)) (Some k) (predicate_iri k) label scope None None in
  (set_semantic (Some d) p, changed).

(** A sidecar whose last statement went is dropped. *)
Definition drop_if_empty (d : SemanticData) : option SemanticData := match statements d with [] => None | _ => Some d end.

Definition remove_semantic_relation (p : EdgePayload) (k : SemanticSubKind) : EdgePayload * bool :=
  match semantic p with
  | None => (p, false)
  | Some d => match remove_statements_with_sub_kind d k with
              | (d', false) => (set_semantic (Some d') p, false)
              | (d', true) => (set_semantic (drop_if_empty d') p, true)
              end
  end.

Definition payload_assert_relation (mint : string) (p : EdgePayload) (a : EdgeAssertion) : EdgePayload * bool :=
  match a with
  | ASemantic k label _ => insert_semantic_relation_in_scope mint p k label ScopeDefault
  | AContainment k => let '(X, new) := set_insert k (default ∅ (containment p)) in (set_containment (Some X) p, new)
  | AArrangement k => let '(X, new) := set_insert k (default ∅ (arrangement p)) in (set_arrangement (Some X) p, new)
  | AImported k => let '(X, new) := set_insert k (default ∅ (imported p)) in (set_imported (Some X) p, new)
  | AProvenance k => let '(X, new) := set_insert k (default ∅ (provenance p)) in (set_provenance (Some X) p, new)
  end.

Definition nonempty_set {A} `{Countable A} (x : option (gset A)) : bool :=
  match x with Some X => bool_decide (X ≠ ∅) | None => false end.

Definition has_family (p : EdgePayload) (f : EdgeFamily) : bool :=
  match f with
  | FSemantic => match semantic p with
                 | Some d => bool_decide (statements d ≠ []) || bool_decide (sub_kinds d ≠ ∅) || bool_decide (is_Some (sd_predicate d))
                 | None => false
                 end
  | FTraversal => bool_decide (is_Some (traversal p))
  | FContainment => nonempty_set (containment p)
  | FArrangement => nonempty_set (arrangement p)
  | FImported => nonempty_set (imported p)
  | FProvenance => nonempty_set (provenance p)
  end.

Definition in_sidecar {A} `{Countable A} (k : A) (x : option (gset A)) : bool :=
  match x with Some X => bool_decide (k ∈ X) | None => false end.

Definition has_relation (p : EdgePayload) (sel : RelationSelector) : bool :=
  match sel with
  | SFamily f => has_family p f
  | SSemantic k => match semantic p with Some d => bool_decide (k ∈ sub_kinds d) | None => false end
  | SContainment k => in_sidecar k (containment p)
  | SArrangement k => in_sidecar k (arrangement p)
  | SImported k => in_sidecar k (imported p)
  | SProvenance k => in_sidecar k (provenance p)
  end.

(** One of the four set-valued sidecars of [retract_relation]. *)
Definition retract_sub_kind {A} `{Countable A} (k : A) (x : option (gset A)) : option (gset A) * bool :=
  match x with
  | None => (None, false)
  | Some X => match set_remove k X with
              | (X', false) => (Some X', false)
              | (X', true) => (if bool_decide (X' = ∅) then None else Some X', true)
              end
  end.

Definition payload_retract_relation (p : EdgePayload) (sel : RelationSelector) : EdgePayload * bool :=
  match sel with
  | SFamily FTraversal => (set_traversal None p, bool_decide (is_Some (traversal p)))
  | SFamily _ => (p, false)
  | SSemantic k => remove_semantic_relation p k
  | SContainment k => let '(x, r) := retract_sub_kind k (containment p) in (set_containment x p, r)
  | SArrangement k => let '(x, r) := retract_sub_kind k (arrangement p) in (set_arrangement x p, r)
  | SImported k => let '(x, r) := retract_sub_kind k (imported p) in (set_imported x p, r)
  | SProvenance k => let '(x, r) := retract_sub_kind k (provenance p) in (set_provenance x p, r)
  end.

Definition payload_is_empty (p : EdgePayload) : bool :=
  negb (has_family p FSemantic) && bool_decide (traversal p = None) && negb (has_family p FContainment) &&
  negb (has_family p FArrangement) && negb (has_family p FImported) && negb (has_family p FProvenance).

Definition semantic_statements (p : EdgePayload) : list SemanticStatement :=
  match semantic p with Some d => statements d | None => [] end.

Definition payload_assert_predicate (mint : string) (p : EdgePayload) (pred : string) (scope : GraphScope) : EdgePayload * bool :=
  let '(d, changed) := insert_statement mint (default semantic_default (semantic p)) None pred None scope None None in
  (set_semantic (Some d) p, changed).

Definition payload_assert_statement (mint : string) (p : EdgePayload) (spec : SemanticStatementSpec) : EdgePayload * StatementAssert :=
  let '(d, out) := assert_statement mint (default semantic_default (semantic p)) spec in (set_semantic (Some d) p, out).

Definition payload_retract_statement (p : EdgePayload) (id : string) : EdgePayload * bool :=
  match semantic p with
  | None => (p, false)
  | Some d => match retract_statement d id with
              | (d', false) => (set_semantic (Some d') p, false)
              | (d', true) => (set_semantic (drop_if_empty d') p, true)
              end
  end.

Definition payload_push_persisted (p : EdgePayload) (s : SemanticStatement) : EdgePayload * bool :=
  let '(d, new) := push_persisted_statement (default semantic_default (semantic p)) s in (set_semantic (Some d) p, new).

Definition set_semantic_predicate (mint : string) (p : EdgePayload) (new : option string) : EdgePayload :=
  match new, semantic p with
  | None, None => p
  | _, Some d => set_semantic (drop_if_empty (set_statement_predicate mint d new)) p
  | _, None => match drop_if_empty (set_statement_predicate mint semantic_default new) with
               | Some d => set_semantic (Some d) p
               | None => p
               end
  end.

Definition payload_push_traversal (p : EdgePayload) (t : Traversal) : EdgePayload :=
  set_traversal (Some (traversal_push (default traversal_default (traversal p)) t)) p.

Definition families (p : EdgePayload) : gset EdgeFamily := list_to_set (filter (λ f, has_family p f = true) variants).

(** The rows [Graph::relations] yields for one edge (query.rs). *)
Definition relation_rows (p : EdgePayload) : list RelationKind :=
  omap (λ s, KSemantic <$> recognized_sub_kind s) (semantic_statements p) ++
  (match traversal p with
   | Some t => if bool_decide (traversals t ≠ []) || bool_decide (0 < total_navigations (td_metrics t)) then [KTraversal] else []
   | None => []
   end) ++
  (KContainment <$> in_order (default ∅ (containment p))) ++
  (KArrangement <$> in_order (default ∅ (arrangement p))) ++
  (KImported <$> in_order (default ∅ (imported p))) ++
  (KProvenance <$> in_order (default ∅ (provenance p))).

(** ** Facts and kinds *)

Abbreviation facts d := (fact <$> statements d).

Lemma statements_rebuild d : statements (rebuild_compat d) = statements d.
Proof. done. Qed.
Lemma rebuild_rebuild d : rebuild_compat (rebuild_compat d) = rebuild_compat d.
Proof. done. Qed.

(** A statement that keeps its fact leaves the list of facts alone. *)
Lemma facts_update (sts : list SemanticStatement) i s s' :
  sts !! i = Some s → fact s' = fact s → fact <$> <[i := s']> sts = fact <$> sts.
Proof.
  intros Hi Hf. rw list_fmap_insert Hf. apply list_insert_id. by rw list_lookup_fmap Hi.
Qed.

Lemma insert_statement_spec mint d k pr label sc prov at_ms d' changed :
  insert_statement mint d k pr label sc prov at_ms = (d', changed) →
  statements d' ≠ [] ∧ (changed = false → d' = d) ∧ (changed = true → rebuild_compat d' = d') ∧
  ((k, pr, sc) ∉ facts d → changed = true) ∧
  ∀ x, x ∈ facts d' ↔ x = (k, pr, sc) ∨ x ∈ facts d.
Proof.
  unfold insert_statement. destruct (list_find _ (statements d)) as [[i s]|] eqn:Ef.
  - apply list_find_Some in Ef as (Hi & Hs & _).
    assert ((k, pr, sc) ∈ facts d) as Hin by (rw -Hs; apply list_elem_of_fmap_2; by apply list_elem_of_lookup_2 in Hi).
    destruct (metadata_differs s label prov at_ms) eqn:Em; intros [= <- <-].
    + cbn. split_and!; [|done|done|done|].
      * destruct (statements d); [done|]. by destruct i.
      * intros x. rw (facts_update _ i s) //. naive_solver.
    + split_and!; try done; [by destruct (statements d)|]. naive_solver.
  - intros [= <- <-]. cbn. split_and!; [by destruct (statements d)|done..|].
    intros x. rw fmap_app elem_of_app. cbn. rw list_elem_of_singleton. naive_solver.
Qed.

Lemma assert_statement_spec mint d spec d' out :
  let key := (ss_recognized_sub_kind spec, ss_predicate spec, ss_graph_scope spec) in
  assert_statement mint d spec = (d', out) →
  statements d' ≠ [] ∧ (sa_changed out = false → d' = d) ∧ (sa_changed out = true → rebuild_compat d' = d') ∧
  (key ∉ facts d → sa_changed out = true) ∧
  (∀ x, x ∈ facts d' ↔ x = key ∨ x ∈ facts d) ∧
  ∃ s, s ∈ statements d' ∧ statement_id s = sa_statement_id out ∧ fact s = key ∧
    st_label s = ss_label spec ∧ provenance_iri s = ss_provenance_iri spec ∧ asserted_at_ms s = ss_asserted_at_ms spec.
Proof.
  intros key. unfold assert_statement. fold key. destruct (list_find _ (statements d)) as [[i s]|] eqn:Ef.
  - apply list_find_Some in Ef as (Hi & Hs & _). pose proof (list_elem_of_lookup_2 _ _ _ Hi) as Hin'.
    assert (key ∈ facts d) as Hin by (rw -Hs; by apply list_elem_of_fmap_2).
    destruct (metadata_differs s _ _ _) eqn:Em; intros [= <- <-]; cbn.
    + split_and!; [|done|done|done| |].
      * destruct (statements d); [done|]. by destruct i.
      * intros x. rw (facts_update _ i s) //. naive_solver.
      * eexists. split; [apply list_elem_of_lookup_2 with i; apply list_lookup_insert_eq; by apply lookup_lt_Some in Hi|]. done.
    + split_and!; try done; [by destruct (statements d)|naive_solver|]. exists s. unfold metadata_differs in Em.
      apply orb_false_iff in Em as [[E1 E2]%orb_false_iff E3]. apply bool_decide_eq_false, dec_stable in E1, E2, E3. done.
  - intros [= <- <-]. cbn. split_and!; [by destruct (statements d)|done..| |].
    + intros x. rw fmap_app elem_of_app. cbn. rw list_elem_of_singleton. naive_solver.
    + eexists. split; [apply elem_of_app; right; by apply list_elem_of_singleton|]. done.
Qed.

Lemma retain_all {A} (P : A → Prop) `{∀ x, Decision (P x)} (l : list A) : length (filter P l) = length l → filter P l = l ∧ Forall P l.
Proof.
  induction l as [|x l IH]; [done|]. rw filter_cons. pose proof (length_filter P l). case_decide; cbn; intros Hl; [|lia].
  destruct IH as [-> HF]; [lia|]. split; [done|]. by constructor.
Qed.

(** [retain] reports a change exactly when it dropped something. *)
Lemma retain_statements_spec keep d d' r :
  retain_statements keep d = (d', r) →
  statements d' = filter (λ s, keep s = true) (statements d) ∧ (r = false → d' = d ∧ Forall (λ s, keep s = true) (statements d)) ∧
  (r = true → rebuild_compat d' = d' ∧ ∃ s, s ∈ statements d ∧ keep s = false).
Proof.
  unfold retain_statements. case_bool_decide as Hl; intros [= <- <-]; cbn.
  - apply retain_all in Hl as [-> HF]. split_and!; try done. by destruct d.
  - split_and!; try done. intros _. split; [done|].
    destruct (decide (Forall (λ s, keep s = true) (statements d))) as [HF|HF].
    + exfalso. apply Hl. f_equal. clear -HF. induction HF as [|s l Hs _ IH]; [done|]. by rw filter_cons_True // IH.
    + apply not_Forall_Exists in HF; [|apply _]. apply Exists_exists in HF as (s & Hs & Hk). exists s. split; [done|].
      by apply not_true_iff_false in Hk.
Qed.

(** ** The invariant *)

Record payload_wf (p : EdgePayload) : Prop := {
  pw_semantic d : semantic p = Some d → statements d ≠ [] ∧ rebuild_compat d = d;
  pw_traversal t : traversal p = Some t → traversals t ≠ [];
  pw_arrangement X : arrangement p = Some X → X ≠ ∅;
  pw_containment X : containment p = Some X → X ≠ ∅;
  pw_imported X : imported p = Some X → X ≠ ∅;
  pw_provenance X : provenance p = Some X → X ≠ ∅
}.

Lemma payload_new_wf : payload_wf payload_new.
Proof. by split. Qed.

Lemma set_semantic_wf p s :
  payload_wf p → (∀ d, s = Some d → statements d ≠ [] ∧ rebuild_compat d = d) → payload_wf (set_semantic s p).
Proof. intros [] Hs. by split. Qed.

Lemma drop_if_empty_Some d d' : drop_if_empty d = Some d' → d' = d ∧ statements d ≠ [].
Proof. unfold drop_if_empty. destruct (statements d); [done|]. by intros [= <-]. Qed.

(** What a payload holds of one kind. *)
Definition has_kind (p : EdgePayload) (k : RelationKind) : Prop :=
  match k with
  | KSemantic sk => ∃ pr sc, (Some sk, pr, sc) ∈ fact <$> semantic_statements p
  | KTraversal => is_Some (traversal p)
  | KContainment c => c ∈ default ∅ (containment p)
  | KArrangement a => a ∈ default ∅ (arrangement p)
  | KImported i => i ∈ default ∅ (imported p)
  | KProvenance v => v ∈ default ∅ (provenance p)
  end.

Lemma elem_of_rows p k : payload_wf p → k ∈ relation_rows p ↔ has_kind p k.
Proof.
  intros Hw. unfold relation_rows. rw !elem_of_app.
  assert (k ∈ (match traversal p with
    | Some t => if bool_decide (traversals t ≠ []) || bool_decide (0 < total_navigations (td_metrics t)) then [KTraversal] else []
    | None => [] end) ↔ k = KTraversal ∧ is_Some (traversal p)) as ->.
  { destruct (traversal p) as [t|] eqn:Et.
    - rw bool_decide_eq_true_2; [cbn; rw list_elem_of_singleton; naive_solver|]. by apply (pw_traversal p Hw).
    - rw elem_of_nil. by split; [|intros [_ []]]. }
  rw list_elem_of_omap !list_elem_of_fmap. split.
  - intros [(s & Hs & Hk)|[[-> Ht]|[(x & -> & Hx)|[(x & -> & Hx)|[(x & -> & Hx)|(x & -> & Hx)]]]]]; cbn; try done;
      try by apply elem_of_in_order in Hx.
    apply fmap_Some in Hk as (sk & Hsk & ->). exists (predicate s), (graph_scope s). apply list_elem_of_fmap. exists s.
    split; [|done]. unfold fact. by rw Hsk.
  - destruct k as [sk| |x|x|x|x]; cbn.
    + intros (pr & sc & (s & Hf & Hs)%list_elem_of_fmap). left. exists s. split; [done|]. unfold fact in Hf. injection Hf as <- _ _. done.
    + by right; left.
    + intros Hx. do 2 right. left. exists x. by rw elem_of_in_order.
    + intros Hx. do 3 right. left. exists x. by rw elem_of_in_order.
    + intros Hx. do 4 right. left. exists x. by rw elem_of_in_order.
    + intros Hx. do 5 right. exists x. by rw elem_of_in_order.
Qed.

(** ** Operations keep the invariant and act on the kinds *)

Abbreviation bucket p := (default semantic_default (semantic p)).

Lemma semantic_statements_bucket p : semantic_statements p = statements (bucket p).
Proof. unfold semantic_statements. by destruct (semantic p). Qed.

Lemma has_kind_set_semantic s p k :
  has_kind (set_semantic s p) k ↔
  match k with KSemantic sk => ∃ pr sc, (Some sk, pr, sc) ∈ facts (default semantic_default s) | _ => has_kind p k end.
Proof. destruct k; cbn; try done. by destruct s. Qed.

(** Replacing the bucket by a changed one, or by itself. *)
Lemma semantic_update p d' (c : bool) :
  payload_wf p → statements d' ≠ [] → (c = false → d' = bucket p) → (c = true → rebuild_compat d' = d') →
  (statements (bucket p) = [] → c = true) →
  payload_wf (set_semantic (Some d') p) ∧ (c = false → set_semantic (Some d') p = p).
Proof.
  intros Hw Hne Hf Ht He. destruct c.
  - split; [|done]. apply set_semantic_wf; [done|]. intros d [= <-]. auto.
  - specialize (Hf eq_refl). subst d'. destruct (semantic p) as [d|] eqn:Es; cbn in *; [|by specialize (He eq_refl)].
    assert (set_semantic (Some d) p = p) as Hp by (unfold set_semantic; rw -Es; by destruct p). by rw Hp.
Qed.

Lemma not_in_empty_facts x d : statements d = [] → x ∉ facts d.
Proof. intros ->. apply not_elem_of_nil. Qed.

Lemma insert_bucket_spec mint p k pr label sc prov at_ms d' c :
  payload_wf p → insert_statement mint (bucket p) k pr label sc prov at_ms = (d', c) →
  payload_wf (set_semantic (Some d') p) ∧ (c = false → set_semantic (Some d') p = p) ∧
  ((k, pr, sc) ∉ facts (bucket p) → c = true) ∧ ∀ x, x ∈ facts d' ↔ x = (k, pr, sc) ∨ x ∈ facts (bucket p).
Proof.
  intros Hw (Hne & Hf & Ht & Hn & Hx)%insert_statement_spec.
  destruct (semantic_update p d' c Hw Hne Hf Ht) as [Hw' Hs]; [|done]. intros He. by apply Hn, not_in_empty_facts.
Qed.

Lemma set_insert_sidecar {A} `{Countable A} (k : A) (x : option (gset A)) X new :
  set_insert k (default ∅ x) = (X, new) → X ≠ ∅ ∧ (∀ y, y ∈ X ↔ y = k ∨ y ∈ default ∅ x) ∧ new = bool_decide (k ∉ default ∅ x).
Proof. intros [= <- <-]. split_and!; [set_solver|set_solver|done]. Qed.

Lemma retract_sidecar {A} `{Countable A} (k : A) (x x' : option (gset A)) r :
  (∀ X, x = Some X → X ≠ ∅) → retract_sub_kind k x = (x', r) →
  (∀ X, x' = Some X → X ≠ ∅) ∧ (∀ y, y ∈ default ∅ x' ↔ y ≠ k ∧ y ∈ default ∅ x) ∧
  r = bool_decide (k ∈ default ∅ x) ∧ (r = false → x' = x).
Proof.
  intros Hx. unfold retract_sub_kind, set_remove. destruct x as [X|]; cycle 1.
  { intros [= <- <-]. cbn. split_and!; [done| | |done].
    - intros y. pose proof (not_elem_of_empty (C := gset A) y). naive_solver.
    - symmetry. apply bool_decide_eq_false, not_elem_of_empty. }
  cbn. case_bool_decide as Hk.
  - destruct (bool_decide (X ∖ {[k]} = ∅)) eqn:Ee; intros [= <- <-]; (split_and!; [| |done|done]).
    + done.
    + apply bool_decide_eq_true in Ee. intros y. cbn. set_solver.
    + apply bool_decide_eq_false in Ee. by intros ? [= <-].
    + intros y. cbn. set_solver.
  - intros [= <- <-]. assert (X ∖ {[k]} = X) as -> by set_solver. split_and!; [done| |done|done]. intros y. cbn. set_solver.
Qed.

Definition kind_of (a : EdgeAssertion) : RelationKind :=
  match a with
  | ASemantic k _ _ => KSemantic k | AContainment k => KContainment k | AArrangement k => KArrangement k
  | AImported k => KImported k | AProvenance k => KProvenance k
  end.

(** The selector that names exactly one kind. *)
Definition selector_of (k : RelationKind) : RelationSelector :=
  match k with
  | KSemantic k => SSemantic k | KTraversal => SFamily FTraversal | KContainment k => SContainment k
  | KArrangement k => SArrangement k | KImported k => SImported k | KProvenance k => SProvenance k
  end.

Lemma payload_eq p q :
  semantic p = semantic q → traversal p = traversal q → arrangement p = arrangement q → containment p = containment q →
  imported p = imported q → provenance p = provenance q → p = q.
Proof. destruct p, q; cbn. by intros -> -> -> -> -> ->. Qed.

Lemma inserted_sidecar_same {A} `{Countable A} (k : A) (x : option (gset A)) :
  k ∈ default ∅ x → Some ({[k]} ∪ default ∅ x) = x.
Proof. destruct x as [X|]; cbn; [|set_solver]. intros Hk. f_equal. set_solver. Qed.

Lemma kind_union {A} `{Countable A} (f : A → RelationKind) x k (X : gset A) :
  (∀ y z, f y = f z → y = z) → x ∈ {[k]} ∪ X ↔ f x = f k ∨ x ∈ X.
Proof. intros Hf. rw elem_of_union elem_of_singleton. split; intros [Hx|Hx]; auto. by rw Hx; left. Qed.

Lemma assert_relation_spec mint p a p' c :
  payload_wf p → payload_assert_relation mint p a = (p', c) →
  payload_wf p' ∧ (∀ k, has_kind p' k ↔ k = kind_of a ∨ has_kind p k) ∧ (c = false → p' = p) ∧ (¬ has_kind p (kind_of a) → c = true).
Proof.
  intros Hw Ha. destruct a as [k label decay|k|k|k|k]; cbn in Ha; try injection Ha as <- <-.
  { unfold insert_semantic_relation_in_scope in Ha. destruct (insert_statement _ _ _ _ _ _ _ _) as [d' c'] eqn:Ei. injection Ha as <- <-.
    apply insert_bucket_spec in Ei as (Hw' & Hs & Hn & Hx); [|done]. split_and!; [done| |done|].
    + intros j. rw has_kind_set_semantic. destruct j as [sk| | | | |]; try by split; [right|intros [?|?]].
      cbn [has_kind kind_of]. rw semantic_statements_bucket. setoid_rewrite Hx. split.
      * intros (pr & sc & [[= -> _ _]|Hin]); [by left|right; eauto].
      * intros [[= ->]|(pr & sc & Hin)]; [|eauto]. exists (predicate_iri k), ScopeDefault. by left.
    + intros Hno. apply Hn. intros Hin. apply Hno. cbn. rw semantic_statements_bucket. eauto. }
  all: split_and!.
  all: try (destruct Hw; split; try done; cbn; intros X [= <-]; set_solver).
  all: try (intros j; destruct j; try (by split; [right|intros [?|?]]);
            cbn [has_kind set_containment set_arrangement set_imported set_provenance containment arrangement imported provenance
                 default from_option id kind_of];
            apply kind_union; by intros ?? [= ->]).
  all: try (intros Hc%bool_decide_eq_false%dec_stable; apply payload_eq; cbn; try done; by apply inserted_sidecar_same).
  all: intros Hno; by apply bool_decide_eq_true.
Qed.

(** Dropping statements from the bucket. *)
Lemma retain_bucket_spec keep p d d' r :
  payload_wf p → semantic p = Some d → retain_statements keep d = (d', r) →
  let p' := set_semantic (if r then drop_if_empty d' else Some d') p in
  payload_wf p' ∧ (r = false → p' = p ∧ Forall (λ s, keep s = true) (statements d)) ∧
  (r = true → ∃ s, s ∈ statements d ∧ keep s = false) ∧
  ∀ s, s ∈ semantic_statements p' ↔ s ∈ semantic_statements p ∧ keep s = true.
Proof.
  intros Hw Es (Hst & Hf & Ht)%retain_statements_spec. cbn zeta.
  assert (∀ s, s ∈ statements d' ↔ s ∈ semantic_statements p ∧ keep s = true) as Hin.
  { intros s. rw Hst list_elem_of_filter. unfold semantic_statements. rw Es. naive_solver. }
  destruct r.
  - destruct (Ht eq_refl) as [Hr Hdrop]. split_and!; [|done|done|].
    + apply set_semantic_wf; [done|]. intros e [-> Hne]%drop_if_empty_Some. done.
    + intros s. rw -Hin. unfold semantic_statements, drop_if_empty. cbn. by destruct (statements d') eqn:E; rw ?E.
  - destruct (Hf eq_refl) as [-> HF]. assert (set_semantic (Some d) p = p) as -> by (unfold set_semantic; rw -Es; by destruct p).
    split_and!; [done|done|done|]. intros s. rw -Hin. unfold semantic_statements. by rw Es.
Qed.

Lemma kind_of_statements p k : has_kind p (KSemantic k) ↔ ∃ s, s ∈ semantic_statements p ∧ recognized_sub_kind s = Some k.
Proof.
  cbn. split.
  - intros (pr & sc & (s & Hf & Hs)%list_elem_of_fmap). exists s. split; [done|]. unfold fact in Hf. by injection Hf as <- _ _.
  - intros (s & Hs & Hk). exists (predicate s), (graph_scope s). apply list_elem_of_fmap. exists s. unfold fact. by rw Hk.
Qed.

Lemma retract_relation_spec p k p' r :
  payload_wf p → payload_retract_relation p (selector_of k) = (p', r) →
  payload_wf p' ∧ (∀ j, has_kind p' j ↔ j ≠ k ∧ has_kind p j) ∧ (r = true ↔ has_kind p k) ∧ (r = false → p' = p).
Proof.
  intros Hw Hr. destruct k as [k| |k|k|k|k]; cbn in Hr.
  { unfold remove_semantic_relation in Hr. destruct (semantic p) as [d|] eqn:Es; cycle 1.
    { injection Hr as <- <-. assert (¬ has_kind p (KSemantic k)) as Hno.
      { rw kind_of_statements. unfold semantic_statements. rw Es. by intros (s & ?%elem_of_nil & _). }
      split_and!; [done| |naive_solver|done]. intros j. destruct (decide (j = KSemantic k)) as [->|]; naive_solver. }
    unfold remove_statements_with_sub_kind in Hr. destruct (retain_statements _ d) as [d' c] eqn:Ed.
    apply (retain_bucket_spec _ p d d' c Hw Es) in Ed as (Hw' & Hf & Ht & Hin). cbn zeta in *.
    assert (p' = set_semantic (if c then drop_if_empty d' else Some d') p ∧ r = c) as [-> ->] by (destruct c; by injection Hr as <- <-).
    split_and!; [done| | |naive_solver].
    - intros j. destruct (decide (j = KSemantic k)) as [->|Hj].
      + rw kind_of_statements. split; [|naive_solver]. intros (s & [_ Hs]%Hin & Hk). by apply bool_decide_eq_true in Hs.
      + destruct j as [sk| | | | |]; try (split; [by split|by intros [_ ?]]). rw !kind_of_statements. setoid_rewrite Hin. split.
        * intros (s & [Hs _] & Hk). split; [done|]. eauto.
        * intros (_ & s & Hs & Hk). exists s. split_and!; [done| |done]. apply bool_decide_eq_true. congruence.
    - rw kind_of_statements. unfold semantic_statements. rw Es. split.
      + intros Hc. destruct (Ht Hc) as (s & Hs & Hk%bool_decide_eq_false%dec_stable). eauto.
      + intros (s & Hs & Hk). destruct c; [done|]. destruct (Hf eq_refl) as [_ HF]. rw Forall_forall in HF.
        by specialize (HF s Hs); apply bool_decide_eq_true in HF. }
  { injection Hr as <- <-. split_and!.
    - destruct Hw. by split.
    - intros j. destruct j; try (split; [by split|by intros [_ ?]]). cbn. split; [by intros []|by intros []].
    - apply bool_decide_eq_true.
    - intros Hn%bool_decide_eq_false%eq_None_not_Some. apply payload_eq; done. }
  all: destruct (retract_sub_kind k _) as [x' r'] eqn:Ex; injection Hr as <- <-;
    apply retract_sidecar in Ex as (Hne & Hin & -> & Hsame); [|by destruct Hw].
  all: split_and!.
  all: try (by destruct Hw; split).
  all: try (by apply bool_decide_eq_true).
  all: try (intros Hf; apply payload_eq; try done; by apply Hsame).
  all: intros j; destruct j; try (split; [by split|by intros [_ ?]]);
    cbn [has_kind set_containment set_arrangement set_imported set_provenance containment arrangement imported provenance];
    rw Hin; split; intros [Hj ?]; split; congruence.
Qed.

Lemma push_traversal_spec p t :
  payload_wf p → payload_wf (payload_push_traversal p t) ∧
  ∀ k, has_kind (payload_push_traversal p t) k ↔ k = KTraversal ∨ has_kind p k.
Proof.
  intros Hw. split.
  - destruct Hw. split; try done. cbn. intros d [= <-]. cbn. by destruct (traversals _).
  - intros k. destruct k; try by split; [right|intros [?|?]]. cbn. split; [by left|by eexists].
Qed.

Lemma assert_predicate_spec mint p pr sc p' c :
  payload_wf p → payload_assert_predicate mint p pr sc = (p', c) →
  payload_wf p' ∧ (∀ k, has_kind p' k ↔ has_kind p k) ∧ (c = false → p' = p) ∧
  (∀ x, x ∈ fact <$> semantic_statements p' ↔ x = (None, pr, sc) ∨ x ∈ fact <$> semantic_statements p) ∧
  ((None, pr, sc) ∉ fact <$> semantic_statements p → c = true).
Proof.
  intros Hw Ha. unfold payload_assert_predicate in Ha. destruct (insert_statement _ _ _ _ _ _ _ _) as [d' c'] eqn:Ei.
  injection Ha as <- <-. apply insert_bucket_spec in Ei as (Hw' & Hs & Hn & Hx); [|done]. split_and!; [done| |done| |].
  - intros j. rw has_kind_set_semantic. destruct j as [sk| | | | |]; try done. cbn. rw semantic_statements_bucket.
    setoid_rewrite Hx. split; [intros (a & b & [[=]|?])|intros (a & b & ?)]; eauto.
  - intros x. cbn. by rw Hx semantic_statements_bucket.
  - by rw semantic_statements_bucket.
Qed.

Lemma payload_assert_statement_spec mint p spec p' out :
  let key := (ss_recognized_sub_kind spec, ss_predicate spec, ss_graph_scope spec) in
  payload_wf p → payload_assert_statement mint p spec = (p', out) →
  payload_wf p' ∧ (sa_changed out = false → p' = p) ∧ (key ∉ fact <$> semantic_statements p → sa_changed out = true) ∧
  (∀ x, x ∈ fact <$> semantic_statements p' ↔ x = key ∨ x ∈ fact <$> semantic_statements p) ∧
  (∃ s, s ∈ semantic_statements p' ∧ statement_id s = sa_statement_id out ∧ fact s = key ∧
    st_label s = ss_label spec ∧ provenance_iri s = ss_provenance_iri spec ∧ asserted_at_ms s = ss_asserted_at_ms spec) ∧
  ∀ k, has_kind p' k ↔ has_kind p k ∨ ∃ sk, ss_recognized_sub_kind spec = Some sk ∧ k = KSemantic sk.
Proof.
  intros key Hw Ha. unfold payload_assert_statement in Ha. destruct (assert_statement _ _ _) as [d' o] eqn:Ei.
  injection Ha as <- <-. apply assert_statement_spec in Ei as (Hne & Hf & Ht & Hn & Hx & Hs). fold key in Hn, Hx, Hs.
  destruct (semantic_update p d' (sa_changed o) Hw Hne Hf Ht) as [Hw' Hsame].
  { intros He. by apply Hn, not_in_empty_facts. }
  split_and!; [done|done|by rw semantic_statements_bucket|intros x; cbn; by rw Hx semantic_statements_bucket|done|].
  intros k. rw has_kind_set_semantic. destruct k as [sk| | | | |]; try (split; [by left|by intros [?|(? & _ & [=])]]).
  cbn [has_kind]. rw semantic_statements_bucket. setoid_rewrite Hx. unfold key. split.
  - intros (pr & sc & [[= Hk _ _]|?]); [right|left]; eauto.
  - intros [(pr & sc & ?)|(sk' & Hk & [= ->])]; [eauto|]. rw Hk. exists (ss_predicate spec), (ss_graph_scope spec). by left.
Qed.

Lemma payload_retract_statement_spec p id p' r :
  payload_wf p → payload_retract_statement p id = (p', r) →
  payload_wf p' ∧ (r = false → p' = p) ∧ (r = true ↔ ∃ s, s ∈ semantic_statements p ∧ statement_id s = id) ∧
  (∀ s, s ∈ semantic_statements p' ↔ s ∈ semantic_statements p ∧ statement_id s ≠ id) ∧
  ∀ k, has_kind p' k → has_kind p k.
Proof.
  intros Hw Hr. unfold payload_retract_statement, retract_statement in Hr. destruct (semantic p) as [d|] eqn:Es; cycle 1.
  { injection Hr as <- <-. unfold semantic_statements. rw Es. split_and!; try done.
    - split; [done|]. by intros (s & ?%elem_of_nil & _).
    - intros s. rw elem_of_nil. split; [done|by intros [? _]]. }
  destruct (retain_statements _ d) as [d' c] eqn:Ed. apply (retain_bucket_spec _ p d d' c Hw Es) in Ed as (Hw' & Hf & Ht & Hin). cbn zeta in *.
  assert (p' = set_semantic (if c then drop_if_empty d' else Some d') p ∧ r = c) as [-> ->] by (destruct c; by injection Hr as <- <-).
  split_and!; [done|naive_solver| | |].
  - unfold semantic_statements. rw Es. split.
    + intros Hc. destruct (Ht Hc) as (s & Hs & Hk%bool_decide_eq_false%dec_stable). eauto.
    + intros (s & Hs & Hk). destruct c; [done|]. destruct (Hf eq_refl) as [_ HF]. rw Forall_forall in HF.
      specialize (HF s Hs). by apply bool_decide_eq_true in HF.
  - intros s. rw Hin. by rw bool_decide_eq_true.
  - intros k. destruct k as [sk| | | | |]; try done. rw !kind_of_statements. intros (s & [Hs _]%Hin & Hk). eauto.
Qed.

Lemma payload_push_persisted_spec p s p' new :
  payload_wf p → payload_push_persisted p s = (p', new) →
  payload_wf p' ∧ (new = false → p' = p ∧ semantic_statements p ≠ []) ∧ (new = true → ∀ x, x ∈ fact <$> semantic_statements p' ↔ x = fact s ∨ x ∈ fact <$> semantic_statements p).
Proof.
  intros Hw Hp. unfold payload_push_persisted, push_persisted_statement in Hp. destruct (existsb _ (statements (bucket p))) eqn:Ee.
  - injection Hp as <- <-. apply existsb_exists in Ee as (e & He%list_elem_of_In & _).
    assert (statements (bucket p) ≠ []) as Hne by (intros Hn; rw Hn in He; by apply elem_of_nil in He).
    destruct (semantic_update p (bucket p) false Hw Hne) as [Hw' Hs]; try done. split_and!; [done| |done]. intros _.
    rw semantic_statements_bucket. auto.
  - injection Hp as <- <-. split_and!; [|done|].
    + apply set_semantic_wf; [done|]. intros d [= <-]. split; [by cbn; destruct (statements (bucket p))|done].
    + intros _ x. cbn. rw fmap_app elem_of_app semantic_statements_bucket. cbn. rw list_elem_of_singleton. split; intros [?|?]; auto.
Qed.

Lemma set_semantic_predicate_wf mint p new : payload_wf p → payload_wf (set_semantic_predicate mint p new).
Proof.
  intros Hw. unfold set_semantic_predicate. destruct (semantic p) as [d|].
  - assert (payload_wf (set_semantic (drop_if_empty (set_statement_predicate mint d new)) p)) as Hd; [|by destruct new].
    apply set_semantic_wf; [done|]. by intros e [-> Hne]%drop_if_empty_Some.
  - destruct new as [pr|]; [|done]. apply set_semantic_wf; [done|]. by intros e [= <-].
Qed.

(** ** Any sequence of operations *)

Inductive payload_op : Type :=
| OpAssert (mint : string) (a : EdgeAssertion)
| OpRetract (sel : RelationSelector)
| OpPredicate (mint pred : string) (scope : GraphScope)
| OpStatement (mint : string) (spec : SemanticStatementSpec)
| OpRetractStatement (id : string)
| OpPersisted (s : SemanticStatement)
| OpSetPredicate (mint : string) (new : option string)
| OpTraversal (t : Traversal).

Definition run_payload_op (p : EdgePayload) (o : payload_op) : EdgePayload :=
  match o with
  | OpAssert mint a => (payload_assert_relation mint p a).1
  | OpRetract sel => (payload_retract_relation p sel).1
  | OpPredicate mint pred scope => (payload_assert_predicate mint p pred scope).1
  | OpStatement mint spec => (payload_assert_statement mint p spec).1
  | OpRetractStatement id => (payload_retract_statement p id).1
  | OpPersisted s => (payload_push_persisted p s).1
  | OpSetPredicate mint new => set_semantic_predicate mint p new
  | OpTraversal t => payload_push_traversal p t
  end.

Lemma selector_cases sel : (∃ f, sel = SFamily f ∧ f ≠ FTraversal) ∨ ∃ k, sel = selector_of k.
Proof.
  destruct sel as [f|k|k|k|k|k]; [|right..]; [|by exists (KSemantic k)|by exists (KContainment k)|by exists (KArrangement k)|
    by exists (KImported k)|by exists (KProvenance k)].
  destruct (decide (f = FTraversal)) as [->|]; [right; by exists KTraversal|left; eauto].
Qed.

Lemma run_payload_op_wf p o : payload_wf p → payload_wf (run_payload_op p o).
Proof.
  intros Hw. destruct o as [mint a|sel|mint pred sc|mint spec|id|s|mint new|t]; cbn.
  - destruct (payload_assert_relation mint p a) eqn:E. by apply assert_relation_spec in E as (? & _).
  - destruct (selector_cases sel) as [(f & -> & Hf)|(k & ->)]; [by destruct f|].
    destruct (payload_retract_relation p (selector_of k)) eqn:E. by apply retract_relation_spec in E as (? & _).
  - destruct (payload_assert_predicate mint p pred sc) eqn:E. by apply assert_predicate_spec in E as (? & _).
  - destruct (payload_assert_statement mint p spec) eqn:E. by apply payload_assert_statement_spec in E as (? & _).
  - destruct (payload_retract_statement p id) eqn:E. by apply payload_retract_statement_spec in E as (? & _).
  - destruct (payload_push_persisted p s) eqn:E. by apply payload_push_persisted_spec in E as (? & _).
  - by apply set_semantic_predicate_wf.
  - by apply push_traversal_spec.
Qed.

Lemma payload_reachable_wf ops : payload_wf (fold_left run_payload_op ops payload_new).
Proof.
  assert (∀ p, payload_wf p → payload_wf (fold_left run_payload_op ops p)) as Hf; [|apply Hf, payload_new_wf].
  induction ops as [|o ops IH]; intros p Hw; [done|]. by apply IH, run_payload_op_wf.
Qed.

Lemma nonempty_set_wf {A} `{Countable A} (x : option (gset A)) :
  (∀ X, x = Some X → X ≠ ∅) → (nonempty_set x = true ↔ is_Some x) ∧ (nonempty_set x = true ↔ ∃ y, y ∈ default ∅ x).
Proof.
  intros Hx. destruct x as [X|]; cbn.
  - rw bool_decide_eq_true. specialize (Hx X eq_refl).
    split; (split; [intros _|done]); [by eexists|by apply set_choose_L].
  - split; (split; [done|]); [by intros []|]. intros [y Hy]. by apply not_elem_of_empty in Hy.
Qed.

Lemma has_family_wf p f :
  payload_wf p → has_family p f = true ↔ (∃ k, has_kind p k ∧ relation_family k = f) ∨
    f = FSemantic ∧ ∃ s, s ∈ semantic_statements p ∧ recognized_sub_kind s = None.
Proof.
  intros Hw. destruct f; cbn [has_family].
  2: { rw bool_decide_eq_true. split; [intros Ht; left; by exists KTraversal|]. intros [([] & Hk & [=])|[[=] _]]. done. }
  1: { destruct (semantic p) as [d|] eqn:Es.
    - destruct (pw_semantic p Hw d Es) as [Hne _]. rw bool_decide_eq_true_2 //. split; [|done]. intros _.
      destruct (statements d) as [|s l] eqn:Ed; [done|].
      assert (s ∈ semantic_statements p) as Hs by (unfold semantic_statements; rw Es Ed; by left).
      destruct (recognized_sub_kind s) as [k|] eqn:Ek; [|right; eauto]. left. exists (KSemantic k). split; [|done].
      apply kind_of_statements. eauto.
    - split; [done|]. unfold semantic_statements. rw Es. intros [([] & Hk & [=])|[_ (s & Hs%elem_of_nil & _)]]; [|done].
      apply kind_of_statements in Hk as (s & Hs & _). unfold semantic_statements in Hs. rw Es in Hs. by apply elem_of_nil in Hs. }
  all: (destruct (nonempty_set_wf (containment p)) as [_ Hc]; [apply Hw|]);
    (destruct (nonempty_set_wf (arrangement p)) as [_ Ha]; [apply Hw|]);
    (destruct (nonempty_set_wf (imported p)) as [_ Hi]; [apply Hw|]);
    (destruct (nonempty_set_wf (provenance p)) as [_ Hv]; [apply Hw|]);
    rw ?Hc ?Ha ?Hi ?Hv; (split; [intros [y Hy]; left; by (exists (KContainment y)) || by (exists (KArrangement y)) ||
      by (exists (KImported y)) || by (exists (KProvenance y))|
      intros [([] & Hk & [=])|[[=] _]]; eauto]).
Qed.

Lemma is_empty_wf p : payload_wf p → payload_is_empty p = true ↔ p = payload_new.
Proof.
  intros Hw. split; [|by intros ->]. unfold payload_is_empty. rw !andb_true_iff !negb_true_iff bool_decide_eq_true.
  intros [[[[[Hs Ht] Hc] Ha] Hi] Hv]. cbn in Hc, Ha, Hi, Hv.
  assert (∀ {A} `{Countable A} (x : option (gset A)), (∀ X, x = Some X → X ≠ ∅) → nonempty_set x = false → x = None) as Hx.
  { intros A ?? x Hne. destruct x as [X|]; [|done]. cbn. rw bool_decide_eq_false. intros []. by apply Hne. }
  apply payload_eq; [|done|..].
  - destruct (semantic p) as [d|] eqn:Es; [|done]. cbn in Hs. rw Es in Hs. destruct (pw_semantic p Hw d Es) as [Hne _].
    by rw bool_decide_eq_true_2 in Hs.
  - apply Hx; [apply Hw|done].
  - apply Hx; [apply Hw|done].
  - apply Hx; [apply Hw|done].
  - apply Hx; [apply Hw|done].
Qed.

Lemma has_relation_wf p k : payload_wf p → has_relation p (selector_of k) = true ↔ has_kind p k.
Proof.
  intros Hw. assert (∀ {A} `{Countable A} (y : A) x, in_sidecar y x = true ↔ y ∈ default ∅ x) as Hin.
  { intros A ?? y x. destruct x; cbn; [apply bool_decide_eq_true|]. split; [done|]. by intros ?%not_elem_of_empty. }
  destruct k as [k| |k|k|k|k]; cbn [has_relation selector_of has_kind]; try apply Hin; [|apply bool_decide_eq_true].
  destruct (semantic p) as [d|] eqn:Es; cycle 1.
  { split; [done|]. unfold semantic_statements. rw Es. by intros (? & ? & ?%elem_of_nil). }
  destruct (pw_semantic p Hw d Es) as [_ Hr]. rw bool_decide_eq_true -Hr. cbn. rw elem_of_list_to_set list_elem_of_omap.
  pose proof (kind_of_statements p k) as Hk. cbn in Hk. rw Hk. unfold semantic_statements. by rw Es.
Qed.

(** C21. Whatever is done to a payload, it stays well formed: no sidecar is
    left behind empty, so a payload that reports itself empty is the new one; the
    aggregates of the semantic bucket are those of its statements, so a query by
    kind answers exactly whether the relation rows list it; and the families are
    exactly those of the rows, with semantic also for a bucket of open
    predicates. *)
Theorem payload_always_typed ops :
  let p := fold_left run_payload_op ops payload_new in
  payload_wf p ∧ (payload_is_empty p = true ↔ p = payload_new) ∧
  (∀ k, has_relation p (selector_of k) = true ↔ k ∈ relation_rows p) ∧
  (∀ f, f ∈ families p ↔ (∃ k, k ∈ relation_rows p ∧ relation_family k = f) ∨
    f = FSemantic ∧ ∃ s, s ∈ semantic_statements p ∧ recognized_sub_kind s = None).
Proof.
  intros p. pose proof (payload_reachable_wf ops) as Hw. fold p in Hw. split_and!; [done|by apply is_empty_wf| |].
  - intros k. by rw elem_of_rows // has_relation_wf.
  - intros f. unfold families. rw elem_of_list_to_set list_elem_of_filter has_family_wf //. setoid_rewrite elem_of_rows; [|done].
    pose proof (variants_all f). naive_solver.
Qed.

(** A payload is a set of relation kinds.  Asserting adds its kind and
    nothing else, and reports no change only when nothing changed; retracting a
    kind removes it and nothing else, and reports whether it was there; a visit
    adds the traversal kind; an open predicate adds a fact and no kind; a
    selector of a whole family other than traversal retracts nothing. *)
Theorem payload_refines_kinds ops mint a k t pr sc :
  let p := fold_left run_payload_op ops payload_new in
  (let '(p', changed) := payload_assert_relation mint p a in
   (∀ j, j ∈ relation_rows p' ↔ j = kind_of a ∨ j ∈ relation_rows p) ∧
   (changed = false → p' = p) ∧ (kind_of a ∉ relation_rows p → changed = true)) ∧
  (let '(p', removed) := payload_retract_relation p (selector_of k) in
   (∀ j, j ∈ relation_rows p' ↔ j ≠ k ∧ j ∈ relation_rows p) ∧
   (removed = true ↔ k ∈ relation_rows p) ∧ (removed = false → p' = p)) ∧
  (∀ j, j ∈ relation_rows (payload_push_traversal p t) ↔ j = KTraversal ∨ j ∈ relation_rows p) ∧
  (let '(p', changed) := payload_assert_predicate mint p pr sc in
   (∀ j, j ∈ relation_rows p' ↔ j ∈ relation_rows p) ∧ (changed = false → p' = p) ∧
   ∀ x, x ∈ fact <$> semantic_statements p' ↔ x = (None, pr, sc) ∨ x ∈ fact <$> semantic_statements p) ∧
  ∀ f, f ≠ FTraversal → payload_retract_relation p (SFamily f) = (p, false).
Proof.
  intros p. pose proof (payload_reachable_wf ops) as Hw. fold p in Hw. split_and!.
  - destruct (payload_assert_relation mint p a) as [p' c] eqn:E. apply assert_relation_spec in E as (Hw' & Hk & Hf & Hn); [|done].
    split_and!; [intros j; by rw !elem_of_rows|done|by rw elem_of_rows].
  - destruct (payload_retract_relation p (selector_of k)) as [p' r] eqn:E. apply retract_relation_spec in E as (Hw' & Hk & Hr & Hf); [|done].
    split_and!; [intros j; by rw !elem_of_rows|by rw elem_of_rows|done].
  - intros j. destruct (push_traversal_spec p t Hw) as [Hw' Hk]. by rw !elem_of_rows.
  - destruct (payload_assert_predicate mint p pr sc) as [p' c] eqn:E. apply assert_predicate_spec in E as (Hw' & Hk & Hf & Hx & _); [|done].
    split_and!; [intros j; by rw !elem_of_rows|done|done].
  - intros f Hf. by destruct f.
Qed.

(** The vocabulary: an IRI names a sub-kind exactly when it is its canonical IRI. *)
Lemma sub_kind_from_iri_exact iri k : sub_kind_from_iri iri = Some k ↔ iri = predicate_iri k.
Proof.
  unfold sub_kind_from_iri. split.
  - intros ([i k'] & Hf & ->)%fmap_Some. by apply list_find_Some in Hf as (_ & <- & _).
  - intros ->. by destruct k; vm_compute.
Qed.

(** Facts and ids determine a statement of a bucket that repeats neither. *)
Lemma statement_at (sts : list SemanticStatement) i j s e {B} (f : SemanticStatement → B) :
  NoDup (f <$> sts) → sts !! i = Some s → sts !! j = Some e → f s = f e → i = j.
Proof.
  intros Hnd Hi Hj He. eapply (NoDup_lookup (f <$> sts)); [done|by rw list_lookup_fmap Hi|]. rw list_lookup_fmap Hj. cbn. by rw He.
Qed.

Lemma assert_statement_handle mint d spec d' out :
  let key := (ss_recognized_sub_kind spec, ss_predicate spec, ss_graph_scope spec) in
  NoDup (statement_id <$> statements d) → NoDup (facts d) → mint ∉ statement_id <$> statements d →
  assert_statement mint d spec = (d', out) →
  (∀ s, s ∈ statements d' ∧ statement_id s ≠ sa_statement_id out ↔ s ∈ statements d ∧ fact s ≠ key) ∧
  ∀ s, s ∈ statements d' → statement_id s = sa_statement_id out → fact s = key.
Proof.
  intros key Hids Hfacts Hmint. unfold assert_statement. fold key. destruct (list_find _ (statements d)) as [[i e]|] eqn:Ef.
  - apply list_find_Some in Ef as (Hi & He & _). intros Ha.
    assert (∃ u, fact u = key ∧ statement_id u = statement_id e ∧ statements d' = <[i := u]> (statements d) ∧
      sa_statement_id out = statement_id e) as (u & Hfu & Hiu & -> & ->).
    { destruct (metadata_differs e _ _ _); injection Ha as <- <-;
        [by exists (with_metadata e (ss_label spec) (ss_provenance_iri spec) (ss_asserted_at_ms spec))|]. exists e.
      split_and!; try done. cbn. by rw list_insert_id. }
    assert (∀ s, s ∈ <[i := u]> (statements d) ↔ s = u ∨ ∃ j, j ≠ i ∧ statements d !! j = Some s) as Hin.
    { intros s. rw list_elem_of_lookup. split.
      - intros [j [(-> & -> & _)|[Hj Hs]]%list_lookup_insert_Some]; [by left|right; eauto].
      - intros [->|(j & Hj & Hs)]; [exists i; apply list_lookup_insert_eq; by apply lookup_lt_Some in Hi|].
        exists j. by rw list_lookup_insert_ne. }
    split; intros s; rw Hin.
    + split.
      * intros [[->|(j & Hj & Hs)] Hne]; [by rw Hiu in Hne|]. split; [by apply list_elem_of_lookup_2 in Hs|].
        rw -He. intros Hf. by destruct Hj; eapply (statement_at _ _ _ _ _ fact).
      * intros [[j Hs]%list_elem_of_lookup Hne]. assert (j ≠ i) as Hj by (intros ->; congruence). split; [right; eauto|].
        intros Hid. by destruct Hj; eapply (statement_at _ _ _ _ _ statement_id).
    + intros [->|(j & Hj & Hs)] Hid; [done|]. by destruct Hj; eapply (statement_at _ _ _ _ _ statement_id).
  - intros [= <- <-]. cbn. apply list_find_None in Ef. rw Forall_forall in Ef. split; intros s; rw elem_of_app list_elem_of_singleton.
    + split.
      * intros [[Hs| ->] Hne]; [|done]. split; [done|]. by apply Ef.
      * intros [Hs Hne]. split; [by left|]. intros Hid. apply Hmint. rw -Hid. by apply list_elem_of_fmap_2.
    + intros [Hs| ->] Hid; [|done]. destruct Hmint. rw -Hid. by apply list_elem_of_fmap_2.
Qed.

(** A fact has a handle: in a bucket with no repeated id or fact,
    asserting a statement with a new id returns the id of the one statement that
    carries exactly the fact and the metadata asserted, no other fact is touched,
    and retracting that handle removes exactly that fact. *)
Theorem statement_handle_roundtrip ops mint spec :
  let p := fold_left run_payload_op ops payload_new in
  let key := (ss_recognized_sub_kind spec, ss_predicate spec, ss_graph_scope spec) in
  NoDup (statement_id <$> semantic_statements p) → NoDup (fact <$> semantic_statements p) →
  mint ∉ statement_id <$> semantic_statements p →
  let '(p', out) := payload_assert_statement mint p spec in
  (∃ s, s ∈ semantic_statements p' ∧ statement_id s = sa_statement_id out ∧ fact s = key ∧
    st_label s = ss_label spec ∧ provenance_iri s = ss_provenance_iri spec ∧ asserted_at_ms s = ss_asserted_at_ms spec) ∧
  (∀ s, fact s ≠ key → s ∈ semantic_statements p' ↔ s ∈ semantic_statements p) ∧
  let '(p'', removed) := payload_retract_statement p' (sa_statement_id out) in
  removed = true ∧ ∀ s, s ∈ semantic_statements p'' ↔ s ∈ semantic_statements p ∧ fact s ≠ key.
Proof.
  intros p key Hids Hfacts Hmint. pose proof (payload_reachable_wf ops) as Hw. fold p in Hw.
  destruct (payload_assert_statement mint p spec) as [p' out] eqn:Ea. pose proof Ea as Ea'.
  apply payload_assert_statement_spec in Ea as (Hw' & _ & _ & _ & Hs & _); [|done]. fold key in Hs.
  assert ((∀ s, s ∈ semantic_statements p' ∧ statement_id s ≠ sa_statement_id out ↔ s ∈ semantic_statements p ∧ fact s ≠ key) ∧
    ∀ s, s ∈ semantic_statements p' → statement_id s = sa_statement_id out → fact s = key) as [Hother Hhandle].
  { rw semantic_statements_bucket in Hids. rw semantic_statements_bucket in Hfacts. rw semantic_statements_bucket in Hmint.
    unfold payload_assert_statement in Ea'. destruct (assert_statement mint (bucket p) spec) as [d' o] eqn:Ed. injection Ea' as <- <-.
    rw (semantic_statements_bucket p). exact (assert_statement_handle mint (bucket p) spec d' o Hids Hfacts Hmint Ed). }
  split_and!; [exact Hs| |].
  - intros s Hne. split; intros Hin.
    + apply (Hother s). split; [done|]. intros He. destruct Hne. by apply Hhandle.
    + by apply (Hother s).
  - destruct (payload_retract_statement p' (sa_statement_id out)) as [p'' r] eqn:Er.
    apply payload_retract_statement_spec in Er as (_ & _ & Hr & Hin & _); [|done]. split.
    + apply Hr. destruct Hs as (s & ? & ? & _). eauto.
    + intros s. rw Hin. apply Hother.
Qed.

Module Sample.
Definition cites (label : option string) : EdgeAssertion := ASemantic Cites label None.
Definition two_facts : list payload_op := [OpAssert "a" (cites None); OpPredicate "b" "urn:x" ScopeDefault; OpTraversal (mkTraversal 5 LinkClick)].
Definition spec : SemanticStatementSpec := mkSpec "urn:y" None (Some "why") ScopeUser None (Some 7).

Lemma statement_handle_roundtrip_witness :
  let p := fold_left run_payload_op two_facts payload_new in
  let '(p', out) := payload_assert_statement "c" p spec in
  sa_statement_id out = "c" ∧ (payload_retract_statement p' "c").2 = true ∧
  ∀ s, s ∈ semantic_statements (payload_retract_statement p' "c").1 ↔ s ∈ semantic_statements p ∧ fact s ≠ (None, "urn:y", ScopeUser).
Proof.
  assert (NoDup (statement_id <$> semantic_statements (fold_left run_payload_op two_facts payload_new))) as H1
    by (apply (bool_decide_unpack _); by vm_compute).
  assert (NoDup (fact <$> semantic_statements (fold_left run_payload_op two_facts payload_new))) as H2
    by (apply (bool_decide_unpack _); by vm_compute).
  assert ("c" ∉ statement_id <$> semantic_statements (fold_left run_payload_op two_facts payload_new)) as H3
    by (apply (bool_decide_unpack _); by vm_compute).
  pose proof (statement_handle_roundtrip two_facts "c" spec H1 H2 H3) as Hh. cbn zeta in Hh |- *.
  assert (sa_statement_id (payload_assert_statement "c" (fold_left run_payload_op two_facts payload_new) spec).2 = "c") as Hid by (by vm_compute).
  destruct (payload_assert_statement "c" _ spec) as [p' out]. cbn in Hid. rw Hid in Hh. destruct Hh as (_ & _ & Hr). split; [exact Hid|].
  destruct (payload_retract_statement p' "c") as [p'' r]. exact Hr.
Defined.

(** Stamping a predicate on a bucket makes its open facts one fact with two
    handles, which asserting would never have allowed. *)
Lemma stamping_repeats_facts :
  let p := fold_left run_payload_op [OpPredicate "a" "urn:x" ScopeDefault; OpPredicate "b" "urn:y" ScopeDefault; OpSetPredicate "c" (Some "urn:z")] payload_new in
  (fact <$> semantic_statements p) = [(None, "urn:z", ScopeDefault); (None, "urn:z", ScopeDefault)].
Proof. by vm_compute. Qed.

(** And a stamped relation is no longer recognized as asserted: asserting it again
    adds a second statement of the same kind. *)
Lemma stamped_relation_reasserted :
  relation_rows (fold_left run_payload_op [OpAssert "a" (cites None); OpSetPredicate "b" (Some "urn:z"); OpAssert "c" (cites None)] payload_new)
  = [KSemantic Cites; KSemantic Cites].
Proof. by vm_compute. Qed.
End Sample.
