(* ===== verification/KernelGraph.v ===== *)
(** Edges of the graph kernel (crates/graph/graph-kernel/src/graph/edge_ops.rs, and
    the structural revision of mod.rs).

    The kernel's graph is chartulary's identity-indexed graph over petgraph with an
    [EdgePayload] on each edge, beside fields the edge operations neither read nor
    write ([k_rest]).  There is meant to be one edge per ordered pair of nodes, its
    payload the bucket of all their relations.

    The theorems: every operation refines a map from pairs of stable ids to
    payloads, so replicas that agree on it keep agreeing whatever petgraph keys they
    use; the revision is a sound cache key for the operations that promise it; an
    edge means a fact, as long as no predicate is cleared. *)

From S2P Require Import Prelude Wire Journal StableGraph GraphLog KernelEdges.

Local Open Scope Z_scope.

Section kernel.
Context {G : Type → Type → Type} `{StableGraph G}.
Context {N Id R : Type} `{Countable Id} (node_id : N → Id).

Abbreviation Inner := (Graph (G := G) (N := N) (E := EdgePayload) (Id := Id)).

Record KGraph : Type := mkKGraph { k_inner : Inner; k_revision : Z; k_rest : R }.
Implicit Types (g h : KGraph) (from to key : Z) (mint : string).

Abbreviation nodes g := (sg_nodes (inner (k_inner g))).
Abbreviation edges g := (sg_edges (inner (k_inner g))).

(** ** Operations *)

Definition bump_revision g : KGraph := mkKGraph (k_inner g) (wrap64 (k_revision g + 1)) (k_rest g).
Definition with_inner (i : Inner) g : KGraph := mkKGraph i (k_revision g) (k_rest g).

Definition contains_node g key : bool := bool_decide (is_Some (nodes g !! key)).
Definition get_edge g key : option EdgePayload := graph_edge (k_inner g) key.
Definition get_node_key_by_id g (id : Id) : option Z := key_of (k_inner g) id.

(** petgraph's [find_edge]: the first outgoing edge with that target. *)
Definition find_edge_key g from to : option Z :=
  (λ x, x.2.1.1) <$> list_find (λ e : Z * Z * EdgePayload, e.1.2 = to) (edges_out (inner (k_inner g)) from).

(** Writing through [edge_mut]. *)
Definition put_edge key (p : EdgePayload) g : KGraph :=
  with_inner (mkGraph (set_edge key p (inner (k_inner g))) (by_id (k_inner g))) g.
Definition connect_edge from to (p : EdgePayload) g : Z * KGraph :=
  let '(key, i) := graph_connect (k_inner g) from to p in (key, with_inner i g).
Definition disconnect_edge key g : KGraph := with_inner (graph_disconnect (k_inner g) key).2 g.

(** [find_edge_key(..).unwrap_or_else(|| connect(.., EdgePayload::new()))]. *)
Definition bucket_edge g from to : Z * KGraph :=
  match find_edge_key g from to with Some key => (key, g) | None => connect_edge from to payload_new g end.

Definition assert_semantic_relation_in_scope mint g from to (k : SemanticSubKind) (label : option string) (scope : GraphScope)
  : KGraph * option Z :=
  if negb (contains_node g from) || negb (contains_node g to) then (g, None)
  else let '(key, g) := bucket_edge g from to in
       match get_edge g key with
       | None => (g, None)
       | Some p => let '(p, changed) := insert_semantic_relation_in_scope mint p k label scope in
                   let g := put_edge key p g in
                   if changed then (bump_revision g, Some key) else (g, None)
       end.

(** The other families. *)
Definition assert_plain_relation mint g from to (a : EdgeAssertion) : KGraph * option Z :=
  if negb (contains_node g from) || negb (contains_node g to) then (g, None)
  else match find_edge_key g from to with
       | Some key =>
           match get_edge g key with
           | None => (g, None)
           | Some p => let '(p, changed) := payload_assert_relation mint p a in
                       let g := put_edge key p g in
                       if changed then (bump_revision g, Some key) else (g, None)
           end
       | None =>
           let '(p, changed) := payload_assert_relation mint payload_new a in
           if changed then let '(key, g) := connect_edge from to p g in (bump_revision g, Some key) else (g, None)
       end.

Definition assert_relation mint g from to (a : EdgeAssertion) : KGraph * option Z :=
  match a with
  | ASemantic k label _ => assert_semantic_relation_in_scope mint g from to k label ScopeDefault
  | _ => assert_plain_relation mint g from to a
  end.

Definition assert_semantic_predicate_in_scope mint g from to (pred : string) (scope : GraphScope) : KGraph * option Z :=
  if negb (contains_node g from) || negb (contains_node g to) then (g, None)
  else let '(key, g) := bucket_edge g from to in
       match get_edge g key with
       | None => (g, None)
       | Some p => let '(p, changed) := payload_assert_predicate mint p pred scope in
                   let g := put_edge key p g in
                   if changed then (bump_revision g, Some key) else (g, None)
       end.
Definition assert_semantic_predicate mint g from to (pred : string) : KGraph * option Z :=
  assert_semantic_predicate_in_scope mint g from to pred ScopeDefault.

Definition assert_semantic_statement mint g from to (spec : SemanticStatementSpec) : KGraph * option (Z * StatementAssert) :=
  if negb (contains_node g from) || negb (contains_node g to) then (g, None)
  else let '(key, g) := bucket_edge g from to in
       match get_edge g key with
       | None => (g, None)
       | Some p => let '(p, out) := payload_assert_statement mint p spec in
                   let g := put_edge key p g in
                   (if sa_changed out then bump_revision g else g, Some (key, out))
       end.

Definition assert_persisted_semantic_statement g from to (s : SemanticStatement) : KGraph * option Z :=
  if negb (contains_node g from) || negb (contains_node g to) then (g, None)
  else let '(key, g) := bucket_edge g from to in
       match get_edge g key with
       | None => (g, None)
       | Some p => let '(p, changed) := payload_push_persisted p s in
                   let g := put_edge key p g in
                   (if changed then bump_revision g else g, Some key)
       end.

Definition retract_semantic_statement g from to (id : string) : KGraph * bool :=
  match find_edge_key g from to with
  | None => (g, false)
  | Some key =>
      match get_edge g key with
      | None => (g, false)
      | Some p =>
          let '(p, removed) := payload_retract_statement p id in
          let g := put_edge key p g in
          let g := if removed && payload_is_empty p then disconnect_edge key g else g in
          (if removed then bump_revision g else g, removed)
      end
  end.

(** One edge of [retract_relations]: the graph, the count and the edges to delete. *)
Definition retract_edge (sel : RelationSelector) (acc : KGraph * nat * list Z) key : KGraph * nat * list Z :=
  let '(g, removed, doomed) := acc in
  match get_edge g key with
  | None => acc
  | Some p => match payload_retract_relation p sel with
              | (p, true) => (put_edge key p g, S removed, if payload_is_empty p then doomed ++ [key] else doomed)
              | (p, false) => (put_edge key p g, removed, doomed)
              end
  end.

(** The edges [retract_relations] visits. *)
Definition retract_ids g from to (sel : RelationSelector) : list Z :=
  omap (λ ke : Z * (Z * Z * EdgePayload),
          if bool_decide (ke.2.1.1 = from) && bool_decide (ke.2.1.2 = to) && has_relation ke.2.2 sel
          then Some ke.1 else None) (bt_iter (edges g)).

Definition retract_relations g from to (sel : RelationSelector) : KGraph * nat :=
  let '(g, removed, doomed) := fold_left (retract_edge sel) (retract_ids g from to sel) (g, 0%nat, []) in
  let g := fold_left (λ g key, disconnect_edge key g) doomed g in
  (if bool_decide (0 < removed)%nat then bump_revision g else g, removed).

Definition set_edge_semantic_predicate mint g key (pred : option string) : KGraph * bool :=
  match get_edge g key with
  | None => (g, false)
  | Some p => (put_edge key (set_semantic_predicate mint p pred) g, true)
  end.

Definition push_traversal g from to (t : Traversal) : KGraph * bool :=
  if bool_decide (from = to) || negb (contains_node g from) || negb (contains_node g to) then (g, false)
  else match find_edge_key g from to ≫= λ key, pair key <$> get_edge g key with
       | Some (key, p) => (put_edge key (payload_push_traversal p t) g, true)
       | None => (bump_revision (connect_edge from to (payload_push_traversal payload_new t) g).2, true)
       end.

Definition append_traversal (now : Z) g from to (trig : NavigationTrigger) (at_ms : option Z) : KGraph * bool :=
  push_traversal g from to (mkTraversal (default now at_ms) trig).

(** ** Replay by stable ids *)

Definition replay_retract_relations_by_ids g (i j : Id) (sel : RelationSelector) : KGraph * nat :=
  match get_node_key_by_id g i with
  | None => (g, 0%nat)
  | Some from => match get_node_key_by_id g j with None => (g, 0%nat) | Some to => retract_relations g from to sel end
  end.
Definition replay_assert_relation_by_ids mint g (i j : Id) (a : EdgeAssertion) : KGraph * option Z :=
  match get_node_key_by_id g i with
  | None => (g, None)
  | Some from => match get_node_key_by_id g j with None => (g, None) | Some to => assert_relation mint g from to a end
  end.
Definition replay_set_edge_semantic_predicate_by_ids mint g (i j : Id) (pred : option string) : KGraph * bool :=
  match get_node_key_by_id g i with
  | None => (g, false)
  | Some from =>
      match get_node_key_by_id g j with
      | None => (g, false)
      | Some to => match find_edge_key g from to with
                   | None => (g, false)
                   | Some key => set_edge_semantic_predicate mint g key pred
                   end
      end
  end.
Definition replay_assert_semantic_predicate_by_ids mint g (i j : Id) (pred : string) : KGraph * option Z :=
  match get_node_key_by_id g i with
  | None => (g, None)
  | Some from => match get_node_key_by_id g j with None => (g, None) | Some to => assert_semantic_predicate mint g from to pred end
  end.
Definition replay_append_traversal_by_ids g (i j : Id) (trig : NavigationTrigger) (at_ms : Z) : KGraph * bool :=
  match get_node_key_by_id g i with
  | None => (g, false)
  | Some from => match get_node_key_by_id g j with None => (g, false) | Some to => append_traversal 0 g from to trig (Some at_ms) end
  end.

(** [collect_node_traversals]: the events of the incident edges, outgoing first. *)
Record DissolvedTraversalRecord : Type := mkDissolved { from_node_id : Id; to_node_id : Id; dt_traversals : list Traversal }.

Definition payload_traversals (p : EdgePayload) : list Traversal := match traversal p with Some t => traversals t | None => [] end.

Definition dissolved_record g (from to : Z) (p : EdgePayload) : option (option DissolvedTraversalRecord) :=
  match payload_traversals p with
  | [] => Some None
  | ts => n ← nodes g !! from; m ← nodes g !! to; Some (Some (mkDissolved (node_id n) (node_id m) ts))
  end.

Definition collect_node_traversals g key : option (list DissolvedTraversalRecord) :=
  match nodes g !! key with
  | None => None
  | Some _ =>
      rs ← mapM id (((λ e : Z * Z * EdgePayload, dissolved_record g key e.1.2 e.2) <$> edges_out (inner (k_inner g)) key) ++
                    ((λ e : Z * Z * EdgePayload, dissolved_record g e.1.2 key e.2) <$> edges_in (inner (k_inner g)) key));
      Some (omap id rs)
  end.

(** ** The invariant, and one pair at a time *)

Record kg_wf g : Prop := {
  kw_ids i k : by_id (k_inner g) !! i = Some k ↔ ∃ n, nodes g !! k = Some n ∧ node_id n = i;
  kw_ends key a b p : edges g !! key = Some (a, b, p) → is_Some (nodes g !! a) ∧ is_Some (nodes g !! b);
  kw_pair k1 k2 a b p q : edges g !! k1 = Some (a, b, p) → edges g !! k2 = Some (a, b, q) → k1 = k2;
  kw_payload key a b p : edges g !! key = Some (a, b, p) → payload_wf p
}.

Definition pair_bucket g from to : option EdgePayload := find_edge_key g from to ≫= get_edge g.

Lemma find_edge_Some g a b k : find_edge_key g a b = Some k → ∃ p, edges g !! k = Some (a, b, p).
Proof.
  unfold find_edge_key. intros ([i [[k' t] p]] & Hf & ->)%fmap_Some. apply list_find_Some in Hf as (Hi & Ht & _). cbn in Ht. subst t.
  exists p. apply (elem_of_edges_out _ _ (inner (k_inner g))). by apply list_elem_of_lookup_2 in Hi.
Qed.

Lemma find_edge_None g a b k p : find_edge_key g a b = None → edges g !! k ≠ Some (a, b, p).
Proof.
  unfold find_edge_key. rw fmap_None list_find_None Forall_forall. intros Hf He.
  apply (Hf (k, b, p)); [|done]. by apply elem_of_edges_out.
Qed.

Lemma pair_bucket_spec g a b p : kg_wf g → pair_bucket g a b = Some p ↔ ∃ k, edges g !! k = Some (a, b, p).
Proof.
  intros Hw. unfold pair_bucket, get_edge, graph_edge. split.
  - intros (k & Hf & Hk)%bind_Some. destruct (find_edge_Some g a b k Hf) as [q Hq]. rw Hq in Hk. cbn in Hk. injection Hk as ->. eauto.
  - intros [k Hk]. destruct (find_edge_key g a b) as [k'|] eqn:Ef; cbn.
    + destruct (find_edge_Some g a b k' Ef) as [q Hq]. assert (k' = k) as -> by by eapply (kw_pair g Hw). by rw Hk.
    + by apply (find_edge_None g a b k p) in Ef.
Qed.

Lemma pair_bucket_None g a b : kg_wf g → pair_bucket g a b = None ↔ ∀ k p, edges g !! k ≠ Some (a, b, p).
Proof.
  intros Hw. split.
  - intros Hn k p Hk. assert (pair_bucket g a b = Some p) as Hs by (apply pair_bucket_spec; eauto). congruence.
  - intros Hno. destruct (pair_bucket g a b) as [p|] eqn:Ep; [|done]. apply pair_bucket_spec in Ep as [k Hk]; [|done]. by apply Hno in Hk.
Qed.

(** A graph that differs from another at one pair. *)
Record updates g h (a b : Z) (r : option EdgePayload) : Prop := {
  up_wf : kg_wf h;
  up_nodes : nodes h = nodes g;
  up_ids : by_id (k_inner h) = by_id (k_inner g);
  up_pair x y : pair_bucket h x y = if decide (x = a ∧ y = b) then r else pair_bucket g x y
}.

Lemma updates_refl g a b : kg_wf g → updates g g a b (pair_bucket g a b).
Proof. intros Hw. split; try done. intros x y. by case_decide as Hxy; [destruct Hxy as [-> ->]|]. Qed.

Lemma updates_trans g h h' a b r r' : updates g h a b r → updates h h' a b r' → updates g h' a b r'.
Proof.
  intros [_ Hn Hi Hp] [Hw' Hn' Hi' Hp']. split; [done|by rw Hn'|by rw Hi'|]. intros x y. rw Hp' Hp. by case_decide.
Qed.

(** Neither the revision nor the other fields matter to any of this. *)
Lemma updates_same_inner g h h' a b r : k_inner h' = k_inner h → updates g h a b r → updates g h' a b r.
Proof.
  intros He [[W1 W2 W3 W4] Hn Hi Hp]. split; [split|..]; rw ?He //. intros x y. rw -Hp. unfold pair_bucket, find_edge_key, get_edge. by rw He.
Qed.

Lemma bump_updates g h a b r : updates g h a b r → updates g (bump_revision h) a b r.
Proof. by apply (updates_same_inner g h (bump_revision h)). Qed.

(** From the edges to the pairs. *)
Lemma updates_intro g h a b r :
  kg_wf g → nodes h = nodes g → by_id (k_inner h) = by_id (k_inner g) →
  (∀ k x y p, edges h !! k = Some (x, y, p) → edges g !! k = Some (x, y, p) ∧ ¬ (x = a ∧ y = b) ∨ x = a ∧ y = b ∧ r = Some p) →
  (∀ k x y p, edges g !! k = Some (x, y, p) → ¬ (x = a ∧ y = b) → edges h !! k = Some (x, y, p)) →
  (∀ p, r = Some p → payload_wf p ∧ is_Some (nodes g !! a) ∧ is_Some (nodes g !! b) ∧ ∃ k, edges h !! k = Some (a, b, p)) →
  (∀ k1 k2 p q, edges h !! k1 = Some (a, b, p) → edges h !! k2 = Some (a, b, q) → k1 = k2) →
  updates g h a b r.
Proof.
  intros Hw Hn Hi Hh Hg Hr Hu. assert (kg_wf h) as Hw'.
  { split.
    - intros i k. rw Hi Hn. apply (kw_ids g Hw).
    - intros k x y p Hk. rw Hn. apply Hh in Hk as [[Hk _]|(-> & -> & Hp)]; [by eapply (kw_ends g Hw)|]. destruct (Hr p Hp) as (_ & ? & ? & _). done.
    - intros k1 k2 x y p q H1 H2. pose proof (Hh _ _ _ _ H1) as [[H1' Hne]|(-> & -> & _)]; [|by eapply Hu].
      pose proof (Hh _ _ _ _ H2) as [[H2' _]|(-> & -> & _)]; [by eapply (kw_pair g Hw)|by destruct Hne].
    - intros k x y p Hk. apply Hh in Hk as [[Hk _]|(_ & _ & Hp)]; [by eapply (kw_payload g Hw)|]. by destruct (Hr p Hp). }
  split; try done. intros x y. apply option_eq. intros p. rw pair_bucket_spec //. case_decide as Hxy.
  - destruct Hxy as [-> ->]. split.
    + intros [k Hk]. apply Hh in Hk as [[_ Hk]|(_ & _ & Hk)]; [by destruct Hk|done].
    + intros Hp. destruct (Hr p Hp) as (_ & _ & _ & Hk). done.
  - rw pair_bucket_spec //. split; intros [k Hk]; exists k; [|by apply Hg].
    apply Hh in Hk as [[Hk _]|(? & ? & _)]; [done|by destruct Hxy].
Qed.

Lemma put_edge_updates g k a b p p' :
  kg_wf g → edges g !! k = Some (a, b, p) → payload_wf p' → updates g (put_edge k p' g) a b (Some p').
Proof.
  intros Hw Hk Hp. apply updates_intro; try done; cbn; rw ?sg_nodes_set_edge ?sg_edges_set_edge //.
  - intros k' x y q. rw lookup_alter_Some. intros [(-> & [[x' y'] z] & Hk' & Heq)|[Hne Hk']].
    + rw Hk in Hk'. injection Hk' as <- <- <-. cbn in Heq. injection Heq as -> -> ->. by right.
    + left. split; [done|]. intros [-> ->]. apply Hne. by eapply (kw_pair g Hw).
  - intros k' x y q Hk' Hne. rw lookup_alter_ne //. intros ->. rw Hk in Hk'. injection Hk' as -> -> _. by destruct Hne.
  - intros q [= <-]. destruct (kw_ends g Hw k a b p Hk) as [? ?]. split_and!; try done. exists k. rw lookup_alter_eq Hk. done.
  - intros k1 k2 q q' H1 H2. assert (∀ k' z, alter (λ e : Z * Z * EdgePayload, (e.1, p')) k (edges g) !! k' = Some (a, b, z) → k' = k) as Hkey.
    { intros k' z. rw lookup_alter_Some. intros [(? & _)|[Hne Hk']]; [done|]. by eapply (kw_pair g Hw). }
    by rw (Hkey k1 q H1) (Hkey k2 q' H2).
Qed.

Lemma connect_edge_updates g a b p :
  kg_wf g → is_Some (nodes g !! a) → is_Some (nodes g !! b) → pair_bucket g a b = None → payload_wf p →
  let '(k, g') := connect_edge a b p g in edges g' !! k = Some (a, b, p) ∧ k_revision g' = k_revision g ∧ updates g g' a b (Some p).
Proof.
  intros Hw Ha Hb Hn Hp. unfold connect_edge, graph_connect. pose proof (add_edge_fresh _ _ a b p (inner (k_inner g)) Ha Hb) as Hf.
  pose proof (sg_edges_add_edge _ _ a b p (inner (k_inner g)) Ha Hb) as He. pose proof (sg_nodes_add_edge _ _ a b p (inner (k_inner g)) Ha Hb) as Hno.
  destruct (add_edge a b p (inner (k_inner g))) as [k i]. cbn in *. rw pair_bucket_None // in Hn.
  split; [rw He; apply lookup_insert_eq|]. split; [done|]. apply updates_intro; try done; cbn; rw ?He ?Hno //.
  - intros k' x y q. rw lookup_insert_Some. intros [[-> [= -> -> ->]]|[Hne Hk']]; [by right|]. left. split; [done|].
    intros [-> ->]. by apply Hn in Hk'.
  - intros k' x y q Hk' _. rw lookup_insert_ne //. intros ->. congruence.
  - intros q [= <-]. split_and!; try done. exists k. apply lookup_insert_eq.
  - intros k1 k2 q q'. rw !lookup_insert_Some. intros [[? _]|[_ H1]] [[? _]|[_ H2]]; try by apply Hn in H1 || apply Hn in H2. congruence.
Qed.

Lemma disconnect_edge_updates g k a b p :
  kg_wf g → edges g !! k = Some (a, b, p) → updates g (disconnect_edge k g) a b None.
Proof.
  intros Hw Hk. apply updates_intro; try done; cbn; rw ?sg_nodes_remove_edge ?sg_edges_remove_edge //.
  - intros k' x y q [Hne Hk']%lookup_delete_Some. left. split; [done|]. intros [-> ->]. apply Hne. by eapply (kw_pair g Hw).
  - intros k' x y q Hk' Hne. rw lookup_delete_ne //. intros ->. rw Hk in Hk'. injection Hk' as -> -> _. by destruct Hne.
  - intros k1 k2 q q' [Hne H1]%lookup_delete_Some _. destruct Hne. by eapply (kw_pair g Hw).
Qed.

(** ** What each operation does to its pair *)

Lemma get_edge_at g k a b p : edges g !! k = Some (a, b, p) → get_edge g k = Some p.
Proof. intros Hk. unfold get_edge, graph_edge. by rw Hk. Qed.

Lemma pair_bucket_wf g a b p : kg_wf g → pair_bucket g a b = Some p → payload_wf p.
Proof. intros Hw [k Hk]%pair_bucket_spec; [|done]. by eapply (kw_payload g Hw). Qed.

Abbreviation bucket_or_new g a b := (default payload_new (pair_bucket g a b)).

Lemma bucket_or_new_wf g a b : kg_wf g → payload_wf (bucket_or_new g a b).
Proof. intros Hw. destruct (pair_bucket g a b) eqn:E; [by eapply pair_bucket_wf|apply payload_new_wf]. Qed.

Lemma find_edge_bucket g a b k : kg_wf g → find_edge_key g a b = Some k → ∃ p, edges g !! k = Some (a, b, p) ∧ pair_bucket g a b = Some p.
Proof. intros Hw [p Hp]%find_edge_Some. exists p. split; [done|]. apply pair_bucket_spec; eauto. Qed.

Lemma find_edge_no_bucket g a b : find_edge_key g a b = None → pair_bucket g a b = None.
Proof. unfold pair_bucket. by intros ->. Qed.

Lemma bucket_edge_spec g a b :
  kg_wf g → is_Some (nodes g !! a) → is_Some (nodes g !! b) →
  let '(k, h) := bucket_edge g a b in
  edges h !! k = Some (a, b, bucket_or_new g a b) ∧ k_revision h = k_revision g ∧ updates g h a b (Some (bucket_or_new g a b)).
Proof.
  intros Hw Ha Hb. unfold bucket_edge. destruct (find_edge_key g a b) as [k|] eqn:Ef.
  - destruct (find_edge_bucket g a b k Hw Ef) as (p & Hk & Hp). rw Hp. split_and!; [done..|]. rw -Hp. by apply updates_refl.
  - pose proof (find_edge_no_bucket g a b Ef) as Hn. rw Hn. apply (connect_edge_updates g a b payload_new Hw Ha Hb Hn payload_new_wf).
Qed.

(** Find or make the bucket, then write it. *)
Lemma write_bucket g a b k h p' :
  kg_wf g → is_Some (nodes g !! a) → is_Some (nodes g !! b) → bucket_edge g a b = (k, h) → payload_wf p' →
  get_edge h k = Some (bucket_or_new g a b) ∧ k_revision h = k_revision g ∧ updates g (put_edge k p' h) a b (Some p').
Proof.
  intros Hw Ha Hb Hk Hp. pose proof (bucket_edge_spec g a b Hw Ha Hb) as Hs. rw Hk in Hs. destruct Hs as (He & Hr & Hu).
  split_and!; [by eapply get_edge_at|done|]. eapply updates_trans; [done|]. by eapply put_edge_updates; [apply Hu| |].
Qed.

Lemma contains_node_live g k : is_Some (nodes g !! k) → contains_node g k = true.
Proof. intros ?. by apply bool_decide_eq_true. Qed.

Definition bumped g (c : bool) : Z := if c then wrap64 (k_revision g + 1) else k_revision g.

Lemma assert_semantic_pair mint g a b k label sc g' r :
  kg_wf g → is_Some (nodes g !! a) → is_Some (nodes g !! b) →
  assert_semantic_relation_in_scope mint g a b k label sc = (g', r) →
  let '(p', c) := insert_semantic_relation_in_scope mint (bucket_or_new g a b) k label sc in
  updates g g' a b (Some p') ∧ k_revision g' = bumped g c.
Proof.
  intros Hw Ha Hb. unfold assert_semantic_relation_in_scope. rw !contains_node_live //. cbn [negb orb].
  destruct (bucket_edge g a b) as [key h] eqn:Ek. pose proof (bucket_or_new_wf g a b Hw) as Hpw.
  destruct (insert_semantic_relation_in_scope mint (bucket_or_new g a b) k label sc) as [p' c] eqn:Ep.
  assert (payload_wf p') as Hp'.
  { unfold insert_semantic_relation_in_scope in Ep. destruct (insert_statement _ _ _ _ _ _ _ _) as [d' c'] eqn:Ei. injection Ep as <- <-.
    by apply insert_bucket_spec in Ei as (? & _). }
  destruct (write_bucket g a b key h p' Hw Ha Hb Ek Hp') as (Hg & Hr & Hu). rw Hg Ep. destruct c; intros [= <- <-]; (split; [|cbn; by rw Hr]); [|done].
  by apply bump_updates.
Qed.

Lemma no_kind_in_new k : ¬ has_kind payload_new k.
Proof. destruct k; cbn; try apply not_elem_of_empty; [by intros (? & ? & ?%elem_of_nil)|by intros []]. Qed.

Lemma assert_plain_pair mint g a b x g' r :
  kg_wf g → is_Some (nodes g !! a) → is_Some (nodes g !! b) → assert_plain_relation mint g a b x = (g', r) →
  let '(p', c) := payload_assert_relation mint (bucket_or_new g a b) x in
  updates g g' a b (Some p') ∧ k_revision g' = bumped g c.
Proof.
  intros Hw Ha Hb. unfold assert_plain_relation. rw !contains_node_live //. cbn [negb orb].
  destruct (payload_assert_relation mint (bucket_or_new g a b) x) as [p' c] eqn:Ep.
  pose proof (assert_relation_spec mint _ x p' c (bucket_or_new_wf g a b Hw) Ep) as (Hp' & _ & _ & Hn).
  destruct (find_edge_key g a b) as [key|] eqn:Ef.
  - destruct (find_edge_bucket g a b key Hw Ef) as (p & Hk & Hb'). rw (get_edge_at g key a b p Hk). rw Hb' in Ep. cbn in Ep. rw Ep.
    pose proof (put_edge_updates g key a b p p' Hw Hk Hp') as Hu.
    destruct c; intros [= <- <-]; (split; [|done]); [by apply bump_updates|done].
  - pose proof (find_edge_no_bucket g a b Ef) as Hno. rw Hno in Ep. rw Hno in Hn. cbn in Ep, Hn. rw Ep (Hn (no_kind_in_new _)).
    pose proof (connect_edge_updates g a b p' Hw Ha Hb Hno Hp') as Hu. destruct (connect_edge a b p' g) as [key h].
    destruct Hu as (_ & Hr & Hu). intros [= <- <-]. split; [by apply bump_updates|]. cbn. by rw Hr.
Qed.

Lemma assert_relation_pair mint g a b x g' r :
  kg_wf g → is_Some (nodes g !! a) → is_Some (nodes g !! b) → assert_relation mint g a b x = (g', r) →
  let '(p', c) := payload_assert_relation mint (bucket_or_new g a b) x in
  updates g g' a b (Some p') ∧ k_revision g' = bumped g c.
Proof.
  intros Hw Ha Hb. destruct x; [apply (assert_semantic_pair mint g a b)|apply assert_plain_pair..]; done.
Qed.

Lemma assert_predicate_pair mint g a b pred sc g' r :
  kg_wf g → is_Some (nodes g !! a) → is_Some (nodes g !! b) →
  assert_semantic_predicate_in_scope mint g a b pred sc = (g', r) →
  let '(p', c) := payload_assert_predicate mint (bucket_or_new g a b) pred sc in
  updates g g' a b (Some p') ∧ k_revision g' = bumped g c.
Proof.
  intros Hw Ha Hb. unfold assert_semantic_predicate_in_scope. rw !contains_node_live //. cbn [negb orb].
  destruct (bucket_edge g a b) as [key h] eqn:Ek. pose proof (bucket_or_new_wf g a b Hw) as Hpw.
  destruct (payload_assert_predicate mint (bucket_or_new g a b) pred sc) as [p' c] eqn:Ep.
  pose proof (assert_predicate_spec mint _ pred sc p' c Hpw Ep) as (Hp' & _).
  destruct (write_bucket g a b key h p' Hw Ha Hb Ek Hp') as (Hg & Hr & Hu). rw Hg Ep. destruct c; intros [= <- <-]; (split; [|cbn; by rw Hr]); [|done].
  by apply bump_updates.
Qed.

Lemma assert_statement_pair mint g a b spec g' r :
  kg_wf g → is_Some (nodes g !! a) → is_Some (nodes g !! b) →
  assert_semantic_statement mint g a b spec = (g', r) →
  let '(p', out) := payload_assert_statement mint (bucket_or_new g a b) spec in
  updates g g' a b (Some p') ∧ k_revision g' = bumped g (sa_changed out).
Proof.
  intros Hw Ha Hb. unfold assert_semantic_statement. rw !contains_node_live //. cbn [negb orb].
  destruct (bucket_edge g a b) as [key h] eqn:Ek. pose proof (bucket_or_new_wf g a b Hw) as Hpw.
  destruct (payload_assert_statement mint (bucket_or_new g a b) spec) as [p' out] eqn:Ep.
  pose proof (payload_assert_statement_spec mint _ spec p' out Hpw Ep) as (Hp' & _).
  destruct (write_bucket g a b key h p' Hw Ha Hb Ek Hp') as (Hg & Hr & Hu). rw Hg Ep. intros [= <- _].
  destruct (sa_changed out); (split; [|cbn; by rw Hr]); [|done]. by apply bump_updates.
Qed.

Lemma assert_persisted_pair g a b st g' r :
  kg_wf g → is_Some (nodes g !! a) → is_Some (nodes g !! b) →
  assert_persisted_semantic_statement g a b st = (g', r) →
  let '(p', c) := payload_push_persisted (bucket_or_new g a b) st in
  updates g g' a b (Some p') ∧ k_revision g' = bumped g c.
Proof.
  intros Hw Ha Hb. unfold assert_persisted_semantic_statement. rw !contains_node_live //. cbn [negb orb].
  destruct (bucket_edge g a b) as [key h] eqn:Ek. pose proof (bucket_or_new_wf g a b Hw) as Hpw.
  destruct (payload_push_persisted (bucket_or_new g a b) st) as [p' c] eqn:Ep.
  pose proof (payload_push_persisted_spec _ st p' c Hpw Ep) as (Hp' & _).
  destruct (write_bucket g a b key h p' Hw Ha Hb Ek Hp') as (Hg & Hr & Hu). rw Hg Ep. intros [= <- _].
  destruct c; (split; [|cbn; by rw Hr]); [|done]. by apply bump_updates.
Qed.

(** What is left of a bucket: nothing, when the payload is empty. *)
Definition kept (p : EdgePayload) : option EdgePayload := if payload_is_empty p then None else Some p.

Lemma retract_statement_pair g a b id g' r :
  kg_wf g → retract_semantic_statement g a b id = (g', r) →
  match pair_bucket g a b with
  | None => g' = g ∧ r = false
  | Some p => let '(p', removed) := payload_retract_statement p id in
      r = removed ∧ updates g g' a b (if removed then kept p' else Some p') ∧ k_revision g' = bumped g removed
  end.
Proof.
  intros Hw. unfold retract_semantic_statement. destruct (find_edge_key g a b) as [key|] eqn:Ef.
  - destruct (find_edge_bucket g a b key Hw Ef) as (p & Hk & Hb). rw (get_edge_at g key a b p Hk) Hb.
    destruct (payload_retract_statement p id) as [p' c] eqn:Ep. intros [= <- <-]. split; [done|].
    pose proof (payload_retract_statement_spec p id p' c (kw_payload g Hw _ _ _ _ Hk) Ep) as (Hp' & _).
    pose proof (put_edge_updates g key a b p p' Hw Hk Hp') as Hu. destruct c; cbn [andb]; [|done]. unfold kept.
    destruct (payload_is_empty p'); (split; [|done]); [|by apply bump_updates].
    assert (updates g (disconnect_edge key (put_edge key p' g)) a b None) as Hd; [|by apply bump_updates].
    eapply updates_trans; [done|]. eapply (disconnect_edge_updates _ key a b p'); [apply Hu|].
    cbn. by rw sg_edges_set_edge lookup_alter_eq Hk.
  - rw (find_edge_no_bucket g a b Ef). by intros [= <- <-].
Qed.
Lemma elem_of_retract_ids g a b sel k : k ∈ retract_ids g a b sel ↔ ∃ p, edges g !! k = Some (a, b, p) ∧ has_relation p sel = true.
Proof.
  unfold retract_ids. rw list_elem_of_omap. split.
  - intros ([k' [[x y] p]] & Hin%elem_of_bt_iter & Hk). cbn in Hk. destruct (_ && _) eqn:E; [|done]. injection Hk as ->.
    apply andb_true_iff in E as [[E1%bool_decide_eq_true E2%bool_decide_eq_true]%andb_true_iff E3]. subst. eauto.
  - intros (p & Hk & Hh). exists (k, (a, b, p)). split; [by apply elem_of_bt_iter|]. cbn. by rw !bool_decide_eq_true_2 // Hh.
Qed.

Lemma retract_ids_NoDup g a b sel : NoDup (retract_ids g a b sel).
Proof.
  unfold retract_ids. pose proof (bt_iter_keys_NoDup (edges g)) as Hnd. induction (bt_iter (edges g)) as [|[k [[x y] p]] l IH]; [constructor|].
  cbn in Hnd |- *. apply NoDup_cons in Hnd as [Hk Hnd]. destruct (_ && _); [|by apply IH]. apply NoDup_cons. split; [|by apply IH].
  intros ([k' [[x' y'] p']] & Hin & Hx)%list_elem_of_omap. apply Hk. cbn in Hx. destruct (_ && _); [|done]. injection Hx as <-.
  by apply (list_elem_of_fmap_2 fst) in Hin.
Qed.

Lemma retract_ids_eq g a b sel :
  kg_wf g → retract_ids g a b sel = match find_edge_key g a b, pair_bucket g a b with
                                    | Some k, Some p => if has_relation p sel then [k] else []
                                    | _, _ => []
                                    end.
Proof.
  intros Hw. destruct (find_edge_key g a b) as [k|] eqn:Ef; cycle 1.
  { apply elem_of_nil_inv. intros k (p & Hk & _)%elem_of_retract_ids. by apply (find_edge_None g a b k p) in Ef. }
  destruct (find_edge_bucket g a b k Hw Ef) as (p & Hk & ->). destruct (has_relation p sel) eqn:Eh.
  - apply NoDup_only; [apply retract_ids_NoDup|]. intros k'. rw elem_of_retract_ids. split; [|by intros ->; eauto].
    intros (q & Hq & _). by eapply (kw_pair g Hw).
  - apply elem_of_nil_inv. intros k' (q & Hq & Hh)%elem_of_retract_ids. assert (k' = k) as -> by by eapply (kw_pair g Hw). congruence.
Qed.

(** A selector of a kind that is not there, or of a whole family, retracts nothing. *)
Lemma retract_without p sel p' r :
  payload_wf p → payload_retract_relation p sel = (p', r) → payload_wf p' ∧ (r = false → p' = p) ∧ (r = true → has_relation p sel = true).
Proof.
  intros Hw Hr. destruct (selector_cases sel) as [(f & -> & Hf)|(k & ->)].
  - assert ((p', r) = (p, false)) as [= -> ->]; [|done]. rw -Hr. by destruct f.
  - apply retract_relation_spec in Hr as (Hw' & _ & Hr & Hs); [|done]. split_and!; [done|done|]. rw has_relation_wf //. apply Hr.
Qed.

Lemma retract_relations_pair g a b sel g' n :
  kg_wf g → retract_relations g a b sel = (g', n) →
  match pair_bucket g a b with
  | None => g' = g ∧ n = 0%nat
  | Some p => let '(p', removed) := payload_retract_relation p sel in
      n = (if removed then 1%nat else 0%nat) ∧ updates g g' a b (if removed then kept p' else Some p') ∧ k_revision g' = bumped g removed
  end.
Proof.
  intros Hw. unfold retract_relations. rw (retract_ids_eq g a b sel Hw).
  destruct (pair_bucket g a b) as [p|] eqn:Eb; cycle 1.
  { destruct (find_edge_key g a b); by intros [= <- <-]. }
  destruct (find_edge_key g a b) as [k|] eqn:Ef; [|by apply find_edge_no_bucket in Ef; rw Ef in Eb].
  destruct (find_edge_bucket g a b k Hw Ef) as (q & Hk & Hq). rw Hq in Eb. injection Eb as ->.
  pose proof (kw_payload g Hw _ _ _ _ Hk) as Hpw. destruct (payload_retract_relation p sel) as [p' c] eqn:Ep.
  pose proof (retract_without p sel p' c Hpw Ep) as (Hp' & Hsame & Hhas). destruct (has_relation p sel) eqn:Eh; cycle 1.
  { destruct c; [by specialize (Hhas eq_refl)|]. intros [= <- <-]. rw (Hsame eq_refl). split_and!; try done. rw -Hq. by apply updates_refl. }
  cbn [fold_left retract_edge]. rw (get_edge_at g k a b p Hk) Ep. pose proof (put_edge_updates g k a b p p' Hw Hk Hp') as Hu.
  destruct c; [|by intros [= <- <-]]. unfold kept. destruct (payload_is_empty p'); intros [= <- <-]; split_and!; try done; cbn [fold_left app];
    [|by apply bump_updates].
  assert (updates g (disconnect_edge k (put_edge k p' g)) a b None) as Hd; [|by apply bump_updates].
  eapply updates_trans; [done|]. eapply (disconnect_edge_updates _ k a b p'); [apply Hu|]. cbn. by rw sg_edges_set_edge lookup_alter_eq Hk.
Qed.

Lemma set_predicate_pair mint g a b k p pred g' r :
  kg_wf g → edges g !! k = Some (a, b, p) → set_edge_semantic_predicate mint g k pred = (g', r) →
  updates g g' a b (Some (set_semantic_predicate mint p pred)) ∧ k_revision g' = k_revision g.
Proof.
  intros Hw Hk. unfold set_edge_semantic_predicate. rw (get_edge_at g k a b p Hk). intros [= <- <-]. split; [|done].
  eapply put_edge_updates; [done|done|]. apply set_semantic_predicate_wf. by eapply (kw_payload g Hw).
Qed.

Lemma push_traversal_pair g a b t g' r :
  kg_wf g → is_Some (nodes g !! a) → is_Some (nodes g !! b) → a ≠ b → push_traversal g a b t = (g', r) →
  updates g g' a b (Some (payload_push_traversal (bucket_or_new g a b) t)) ∧
  k_revision g' = bumped g (bool_decide (pair_bucket g a b = None)).
Proof.
  intros Hw Ha Hb Hne. unfold push_traversal. rw bool_decide_eq_false_2 // !contains_node_live //. cbn [negb orb].
  pose proof (push_traversal_spec _ t (bucket_or_new_wf g a b Hw)) as [Hp' _]. destruct (find_edge_key g a b) as [k|] eqn:Ef; cbn.
  - destruct (find_edge_bucket g a b k Hw Ef) as (p & Hk & Hp). rw (get_edge_at g k a b p Hk) Hp. rw Hp in Hp'. cbn. intros [= <- <-].
    split; [|done]. by eapply put_edge_updates.
  - pose proof (find_edge_no_bucket g a b Ef) as Hno. rw Hno. rw Hno in Hp'. cbn in Hp' |- *. intros [= <- <-].
    pose proof (connect_edge_updates g a b _ Hw Ha Hb Hno Hp') as Hu. destruct (connect_edge a b _ g) as [k h]. destruct Hu as (_ & Hr & Hu).
    split; [by apply bump_updates|]. cbn. by rw Hr.
Qed.
(** ** Edits by stable id *)

Inductive EdgeEdit : Type :=
| EdAssert (mint : string) (i j : Id) (a : EdgeAssertion)
| EdPredicate (mint : string) (i j : Id) (pred : string)
| EdSetPredicate (mint : string) (i j : Id) (pred : option string)
| EdTraversal (i j : Id) (trig : NavigationTrigger) (at_ms : Z)
| EdRetract (i j : Id) (sel : RelationSelector).

Definition run_edit g (e : EdgeEdit) : KGraph :=
  match e with
  | EdAssert mint i j a => (replay_assert_relation_by_ids mint g i j a).1
  | EdPredicate mint i j pred => (replay_assert_semantic_predicate_by_ids mint g i j pred).1
  | EdSetPredicate mint i j pred => (replay_set_edge_semantic_predicate_by_ids mint g i j pred).1
  | EdTraversal i j trig at_ms => (replay_append_traversal_by_ids g i j trig at_ms).1
  | EdRetract i j sel => (replay_retract_relations_by_ids g i j sel).1
  end.

(** The pair an edit names, and what it makes of the pair's bucket. *)
Definition edit_pair (e : EdgeEdit) : Id * Id :=
  match e with EdAssert _ i j _ | EdPredicate _ i j _ | EdSetPredicate _ i j _ | EdTraversal i j _ _ | EdRetract i j _ => (i, j) end.

Definition edit_bucket (e : EdgeEdit) (r : option EdgePayload) : option EdgePayload :=
  match e with
  | EdAssert mint _ _ a => Some (payload_assert_relation mint (default payload_new r) a).1
  | EdPredicate mint _ _ pred => Some (payload_assert_predicate mint (default payload_new r) pred ScopeDefault).1
  | EdSetPredicate mint _ _ pred => (λ p, set_semantic_predicate mint p pred) <$> r
  | EdTraversal i j trig at_ms =>
      if decide (i = j) then r else Some (payload_push_traversal (default payload_new r) (mkTraversal at_ms trig))
  | EdRetract _ _ sel => p ← r; let '(p', removed) := payload_retract_relation p sel in if removed then kept p' else Some p'
  end.

Definition id_bucket g (i j : Id) : option EdgePayload :=
  a ← get_node_key_by_id g i; b ← get_node_key_by_id g j; pair_bucket g a b.
Definition live_id g (i : Id) : Prop := is_Some (get_node_key_by_id g i).

Lemma key_live g i a : kg_wf g → get_node_key_by_id g i = Some a → is_Some (nodes g !! a).
Proof. intros Hw (n & Hn & _)%(kw_ids g Hw). by eexists. Qed.

Lemma key_inj g i j a : kg_wf g → get_node_key_by_id g i = Some a → get_node_key_by_id g j = Some a → i = j.
Proof. intros Hw (n & Hn & Hi)%(kw_ids g Hw) (m & Hm & Hj)%(kw_ids g Hw). congruence. Qed.

(** An edit names two live nodes and rewrites their pair, or does nothing. *)
Lemma run_edit_pair g e :
  kg_wf g →
  match get_node_key_by_id g (edit_pair e).1, get_node_key_by_id g (edit_pair e).2 with
  | Some a, Some b => updates g (run_edit g e) a b (edit_bucket e (pair_bucket g a b))
  | _, _ => run_edit g e = g
  end.
Proof.
  intros Hw. destruct e as [mint i j x|mint i j pred|mint i j pred|i j trig at_ms|i j sel]; cbn [edit_pair fst snd run_edit].
  all: unfold replay_assert_relation_by_ids, replay_assert_semantic_predicate_by_ids, replay_set_edge_semantic_predicate_by_ids,
    replay_append_traversal_by_ids, replay_retract_relations_by_ids;
    destruct (get_node_key_by_id g i) as [a|] eqn:Ei; [|done]; destruct (get_node_key_by_id g j) as [b|] eqn:Ej; [|done].
  all: pose proof (key_live g i a Hw Ei) as Ha; pose proof (key_live g j b Hw Ej) as Hb.
  - destruct (assert_relation mint g a b x) as [g' r] eqn:E. apply assert_relation_pair in E; [|done..]. cbn [edit_bucket fst].
    destruct (payload_assert_relation mint _ x). by destruct E.
  - unfold assert_semantic_predicate. destruct (assert_semantic_predicate_in_scope mint g a b pred ScopeDefault) as [g' r] eqn:E.
    apply assert_predicate_pair in E; [|done..]. cbn [edit_bucket fst]. destruct (payload_assert_predicate mint _ pred _). by destruct E.
  - destruct (find_edge_key g a b) as [k|] eqn:Ef; cycle 1.
    { rw (find_edge_no_bucket g a b Ef). cbn. pose proof (updates_refl g a b Hw) as Hu. by rw (find_edge_no_bucket g a b Ef) in Hu. }
    destruct (find_edge_bucket g a b k Hw Ef) as (p & Hk & ->). destruct (set_edge_semantic_predicate mint g k pred) as [g' r] eqn:E.
    by apply (set_predicate_pair mint g a b k p pred g' r) in E as [? _].
  - cbn [edit_bucket]. unfold append_traversal. case_decide as Hij.
    { subst j. assert (a = b) as <- by congruence. unfold push_traversal. rw bool_decide_eq_true_2 //. cbn. by apply updates_refl. }
    assert (a ≠ b) as Hab by (intros ->; destruct Hij; by eapply key_inj).
    destruct (push_traversal g a b _) as [g' r] eqn:E. by apply push_traversal_pair in E as [? _].
  - destruct (retract_relations g a b sel) as [g' n] eqn:E. apply retract_relations_pair in E; [|done]. cbn [edit_bucket fst].
    destruct (pair_bucket g a b) as [p|] eqn:Ep; cbn.
    + destruct (payload_retract_relation p sel). by destruct E as (_ & ? & _).
    + destruct E as [-> _]. rw -Ep. by apply updates_refl.
Qed.

Lemma run_edit_spec g e :
  kg_wf g → kg_wf (run_edit g e) ∧ (∀ i, get_node_key_by_id (run_edit g e) i = get_node_key_by_id g i) ∧
  ∀ x y, id_bucket (run_edit g e) x y =
    if decide ((x, y) = edit_pair e ∧ live_id g x ∧ live_id g y) then edit_bucket e (id_bucket g x y) else id_bucket g x y.
Proof.
  intros Hw. pose proof (run_edit_pair g e Hw) as Hp. destruct (edit_pair e) as [i j] eqn:Ee. cbn [fst snd] in Hp.
  assert (∀ x y, (∃ a b, get_node_key_by_id g i = Some a ∧ get_node_key_by_id g j = Some b) ∨ ¬ ((x, y) = (i, j) ∧ live_id g x ∧ live_id g y)) as Hlive.
  { intros x y. destruct (get_node_key_by_id g i) as [a|] eqn:Ei; [destruct (get_node_key_by_id g j) as [b|] eqn:Ej|]; [left; eauto|..];
      right; intros ([= -> ->] & [] & []); congruence. }
  destruct (get_node_key_by_id g i) as [a|] eqn:Ei; [destruct (get_node_key_by_id g j) as [b|] eqn:Ej|].
  2, 3: rw Hp; split_and!; [done..|]; intros x y; rw decide_False //; destruct (Hlive x y) as [(? & ? & ? & ?)|?]; done.
  destruct Hp as [Hw' Hn Hi Hu]. assert (∀ z, get_node_key_by_id (run_edit g e) z = get_node_key_by_id g z) as Hkey.
  { intros z. unfold get_node_key_by_id, key_of. by rw Hi. }
  split_and!; [done|done|]. intros x y. unfold id_bucket. rw !Hkey. case_decide as Hxy.
  - destruct Hxy as ([= -> ->] & _ & _). rw Ei Ej. cbn. rw Hu decide_True //.
  - destruct (get_node_key_by_id g x) as [c|] eqn:Ex; [|done]. destruct (get_node_key_by_id g y) as [d|] eqn:Ey; [|done]. cbn.
    rw Hu. case_decide as Hcd; [|done]. destruct Hcd as [-> ->]. destruct Hxy. unfold live_id. rw Ex Ey. split; [|split; by eexists].
    by rw (key_inj g x i a Hw Ex Ei) (key_inj g y j b Hw Ey Ej).
Qed.

(** ** Reachable graphs

    Edits, the statement operations by key, and what adding and removing nodes
    does to the inner graph, whatever it does to the rest. *)

Inductive kreach (allowed : EdgeEdit → Prop) : KGraph → Prop :=
| kr_new rest : kreach allowed (mkKGraph graph_new 0 rest)
| kr_edit g e : kreach allowed g → allowed e → kreach allowed (run_edit g e)
| kr_statement g mint a b spec : kreach allowed g → kreach allowed (assert_semantic_statement mint g a b spec).1
| kr_persisted g a b st : kreach allowed g → kreach allowed (assert_persisted_semantic_statement g a b st).1
| kr_retract_statement g a b id : kreach allowed g → kreach allowed (retract_semantic_statement g a b id).1
| kr_node_added g n revision rest : kreach allowed g → kreach allowed (mkKGraph (graph_insert node_id (k_inner g) n).2 revision rest)
| kr_node_removed g key revision rest : kreach allowed g → kreach allowed (mkKGraph (graph_remove node_id (k_inner g) key).2 revision rest).

Lemma insert_node_wf g n revision rest :
  kg_wf g → let h := mkKGraph (graph_insert node_id (k_inner g) n).2 revision rest in kg_wf h ∧ edges h = edges g.
Proof.
  intros Hw. unfold graph_insert. destruct (by_id (k_inner g) !! node_id n) as [key|] eqn:Ei; cbn.
  - pose proof Ei as (n0 & Hn0 & Hid0)%(kw_ids g Hw).
    split; [split; cbn|by rw sg_edges_set_node]; rw ?sg_edges_set_node ?sg_nodes_set_node; try apply Hw.
    + intros i k. rw (kw_ids g Hw). destruct (decide (k = key)) as [->|Hk]; [rw lookup_alter_eq Hn0|by rw lookup_alter_ne]. cbn.
      split; [intros (n' & [= <-] & <-)|intros (n' & [= <-] & <-)]; eauto.
    + intros k a b p [[x Hx] [y Hy]]%(kw_ends g Hw). split; apply lookup_alter_is_Some; by eexists.
  - pose proof (add_node_fresh _ _ n (inner (k_inner g))) as Hf. pose proof (sg_nodes_add_node _ _ n (inner (k_inner g))) as Hn.
    pose proof (sg_edges_add_node _ _ n (inner (k_inner g))) as He. destruct (add_node n (inner (k_inner g))) as [key i]. cbn in *.
    split; [split; cbn|done]; rw ?He ?Hn; try apply Hw.
    + intros j k. destruct (decide (j = node_id n)) as [->|Hj].
      * rw lookup_insert_eq. split; [intros [= <-]; exists n; by rw lookup_insert_eq|]. intros (m & Hm & Hid).
        apply lookup_insert_Some in Hm as [[-> _]|[_ Hm]]; [done|]. assert (by_id (k_inner g) !! node_id n = Some k) as Hk by (apply (kw_ids g Hw); eauto). congruence.
      * rw lookup_insert_ne // (kw_ids g Hw). split; intros (m & Hm & Hid); exists m; (split; [|done]).
        -- rw lookup_insert_ne //. intros ->. congruence.
        -- apply lookup_insert_Some in Hm as [[_ <-]|[_ Hm]]; [by destruct Hj|done].
    + intros k a b p [[x Hx] [y Hy]]%(kw_ends g Hw). split; apply lookup_insert_is_Some; destruct (decide (key = a)), (decide (key = b)); eauto.
Qed.

Lemma remove_node_wf g key revision rest :
  kg_wf g → let h := mkKGraph (graph_remove node_id (k_inner g) key).2 revision rest in
  kg_wf h ∧ ∀ k e, edges h !! k = Some e → edges g !! k = Some e.
Proof.
  intros Hw. unfold graph_remove. cbn. assert (∀ k e, sg_edges (remove_node key (inner (k_inner g))) !! k = Some e →
    edges g !! k = Some e ∧ e.1.1 ≠ key ∧ e.1.2 ≠ key) as He.
  { intros k e. rw sg_edges_remove_node. destruct (edges g !! k) as [x|]; [cbn|done]. case_decide; [done|]. intros [= <-]. naive_solver. }
  split; [|intros k e Hk; by apply He in Hk as [? _]]. split; cbn.
  - intros i k. rw sg_nodes_remove_node. destruct (nodes g !! key) as [n0|] eqn:E0; cycle 1.
    { rw delete_id //. apply (kw_ids g Hw). }
    assert (by_id (k_inner g) !! node_id n0 = Some key) as Hk0 by (apply (kw_ids g Hw); eauto). rw lookup_delete_Some. split.
    + intros [Hne (n & Hn & Hid)%(kw_ids g Hw)]. exists n. split; [|done]. rw lookup_delete_ne //. intros <-. congruence.
    + intros (n & [Hne Hn]%lookup_delete_Some & <-). assert (by_id (k_inner g) !! node_id n = Some k) as Hk by (apply (kw_ids g Hw); eauto).
      split; [|done]. intros Heq. rw Heq in Hk0. congruence.
  - intros k a b p ([Hx Hy]%(kw_ends g Hw) & Ha & Hb)%He. cbn in *. rw sg_nodes_remove_node !lookup_delete_ne //.
  - intros k1 k2 a b p q [H1 _]%He [H2 _]%He. by eapply (kw_pair g Hw).
  - intros k a b p [Hk _]%He. by eapply (kw_payload g Hw).
Qed.
(** Edges that carry nothing. *)
Definition hollow g : Prop := ∃ a b, pair_bucket g a b = Some payload_new.

Lemma updates_hollow g h a b r : updates g h a b r → ¬ hollow g → r ≠ Some payload_new → ¬ hollow h.
Proof. intros Hu Hg Hr (x & y & Hxy). rw (up_pair g h a b r Hu) in Hxy. case_decide; [done|]. destruct Hg. by exists x, y. Qed.

Lemma kind_not_new p k : has_kind p k → p ≠ payload_new.
Proof. intros Hk ->. by apply no_kind_in_new in Hk. Qed.

Lemma fact_not_new p x : x ∈ fact <$> semantic_statements p → p ≠ payload_new.
Proof. intros Hx ->. by apply elem_of_nil in Hx. Qed.

Definition clears (e : EdgeEdit) : Prop := match e with EdSetPredicate _ _ _ None => True | _ => False end.

Lemma kept_not_new p : payload_wf p → kept p ≠ Some payload_new.
Proof. intros Hw. unfold kept. destruct (payload_is_empty p) eqn:E; [done|]. intros [= ->]. done. Qed.

Lemma edit_bucket_not_new e r :
  ¬ clears e → (∀ p, r = Some p → payload_wf p ∧ p ≠ payload_new) → edit_bucket e r ≠ Some payload_new.
Proof.
  intros Hc Hr. assert (payload_wf (default payload_new r)) as Hw by (destruct r; [by apply Hr|apply payload_new_wf]).
  destruct e as [mint i j x|mint i j pred|mint i j pred|i j trig at_ms|i j sel]; cbn [edit_bucket].
  - destruct (payload_assert_relation mint _ x) as [p c] eqn:E. apply assert_relation_spec in E as (_ & Hk & _); [|done].
    cbn. intros [= ->]. apply (no_kind_in_new (kind_of x)). apply Hk. by left.
  - destruct (payload_assert_predicate mint _ pred _) as [p c] eqn:E. apply assert_predicate_spec in E as (_ & _ & _ & Hx & _); [|done].
    cbn. intros [= ->]. apply (not_elem_of_nil (None (A := SemanticSubKind), pred, ScopeDefault)). apply Hx. by left.
  - destruct pred as [pr|]; [|by destruct Hc]. destruct r as [p|]; [|done]. cbn. destruct (Hr p eq_refl) as [Hwp _]. unfold set_semantic_predicate.
    destruct (semantic p) as [d|] eqn:Es; [|done]. destruct (pw_semantic p Hwp d Es) as [Hne _]. unfold drop_if_empty. cbn.
    by destruct (statements d).
  - case_decide; [intros ->; by destruct (Hr payload_new eq_refl)|]. done.
  - destruct r as [p|]; [|done]. destruct (Hr p eq_refl) as [Hwp Hnp]. cbn. destruct (payload_retract_relation p sel) as [p' c] eqn:E.
    apply retract_without in E as (Hw' & Hs & _); [|done]. destruct c; [by apply kept_not_new|]. rw (Hs eq_refl). congruence.
Qed.

Lemma contains_cases g a b :
  (is_Some (nodes g !! a) ∧ is_Some (nodes g !! b)) ∨ negb (contains_node g a) || negb (contains_node g b) = true.
Proof. unfold contains_node. repeat case_bool_decide; auto. Qed.

Lemma new_wf rest : kg_wf (mkKGraph graph_new 0 rest).
Proof.
  split; cbn; rw ?sg_edges_new ?sg_nodes_new.
  - intros i k. rw !lookup_empty. split; [done|by intros (? & [=] & _)].
  - intros key a b p. by rw lookup_empty.
  - intros k1 k2 a b p q. by rw lookup_empty.
  - intros key a b p. by rw lookup_empty.
Qed.

Lemma same_edges_hollow g h : kg_wf g → kg_wf h → (∀ k e, edges h !! k = Some e → edges g !! k = Some e) → hollow h → hollow g.
Proof.
  intros Hg Hh He (a & b & [k Hk]%pair_bucket_spec); [|done]. exists a, b. apply pair_bucket_spec; [done|]. exists k. by apply He.
Qed.

Lemma not_hollow_bucket g a b p : kg_wf g → ¬ hollow g → pair_bucket g a b = Some p → payload_wf p ∧ p ≠ payload_new.
Proof. intros Hw Hh Hp. split; [by eapply pair_bucket_wf|]. intros ->. destruct Hh. by exists a, b. Qed.

Lemma assert_statement_inv g mint a b spec :
  kg_wf g → kg_wf (assert_semantic_statement mint g a b spec).1 ∧ (¬ hollow g → ¬ hollow (assert_semantic_statement mint g a b spec).1).
Proof.
  intros Hw. destruct (contains_cases g a b) as [[Ha Hb]|Hc]; [|unfold assert_semantic_statement; by rw Hc].
  destruct (assert_semantic_statement mint g a b spec) as [g' r] eqn:E. apply assert_statement_pair in E; [|done..].
  destruct (payload_assert_statement mint _ spec) as [p' out] eqn:Ep. destruct E as [Hu _]. split; [apply Hu|].
  intros Hh. eapply updates_hollow; [done..|].
  apply payload_assert_statement_spec in Ep as (_ & _ & _ & Hx & _); [|by apply bucket_or_new_wf].
  intros [= ->]. eapply not_elem_of_nil. apply Hx. by left.
Qed.

Lemma assert_persisted_inv g a b st :
  kg_wf g → kg_wf (assert_persisted_semantic_statement g a b st).1 ∧ (¬ hollow g → ¬ hollow (assert_persisted_semantic_statement g a b st).1).
Proof.
  intros Hw. destruct (contains_cases g a b) as [[Ha Hb]|Hc]; [|unfold assert_persisted_semantic_statement; by rw Hc].
  destruct (assert_persisted_semantic_statement g a b st) as [g' r] eqn:E. apply assert_persisted_pair in E; [|done..].
  destruct (payload_push_persisted _ st) as [p' c] eqn:Ep. destruct E as [Hu _]. split; [apply Hu|].
  intros Hh. eapply updates_hollow; [done..|].
  apply payload_push_persisted_spec in Ep as (_ & Hf & Ht); [|by apply bucket_or_new_wf]. intros [= ->]. destruct c.
  - apply (not_elem_of_nil (fact st)). apply (Ht eq_refl). by left.
  - destruct (Hf eq_refl) as [Hn Hne]. by rw -Hn in Hne.
Qed.

Lemma retract_statement_inv g a b id :
  kg_wf g → kg_wf (retract_semantic_statement g a b id).1 ∧ (¬ hollow g → ¬ hollow (retract_semantic_statement g a b id).1).
Proof.
  intros Hw. destruct (retract_semantic_statement g a b id) as [g' r] eqn:E. apply retract_statement_pair in E; [|done].
  destruct (pair_bucket g a b) as [p|] eqn:Ep; [|by destruct E as [-> _]]. destruct (payload_retract_statement p id) as [p' c] eqn:Er.
  destruct E as (_ & Hu & _). split; [apply Hu|]. intros Hh. destruct (not_hollow_bucket g a b p Hw Hh Ep) as [Hwp Hnp].
  eapply updates_hollow; [done..|]. apply payload_retract_statement_spec in Er as (Hw' & Hs & _); [|done].
  destruct c; [by apply kept_not_new|]. rw (Hs eq_refl). congruence.
Qed.

Lemma kreach_inv allowed g : kreach allowed g → kg_wf g ∧ ((∀ e, allowed e → ¬ clears e) → ¬ hollow g).
Proof.
  induction 1 as [rest|g e _ [Hw Hh] Ha|g mint a b spec _ [Hw Hh]|g a b st _ [Hw Hh]|g a b id _ [Hw Hh]|g n rev rest _ [Hw Hh]|g key rev rest _ [Hw Hh]].
  - split; [apply new_wf|]. intros _ (a & b & [k Hk]%pair_bucket_spec); [|apply new_wf]. cbn in Hk. by rw sg_edges_new lookup_empty in Hk.
  - split; [by apply run_edit_spec|]. intros Hcl. specialize (Hh Hcl). pose proof (run_edit_pair g e Hw) as Hp.
    destruct (get_node_key_by_id g (edit_pair e).1) as [a|]; [|by rw Hp]. destruct (get_node_key_by_id g (edit_pair e).2) as [b|]; [|by rw Hp].
    eapply updates_hollow; [done..|]. apply edit_bucket_not_new; [by apply Hcl|]. intros p Hpb. by eapply not_hollow_bucket.
  - destruct (assert_statement_inv g mint a b spec Hw). auto.
  - destruct (assert_persisted_inv g a b st Hw). auto.
  - destruct (retract_statement_inv g a b id Hw). auto.
  - destruct (insert_node_wf g n rev rest Hw) as [Hw' He]. split; [done|]. intros Hcl Hx. apply (Hh Hcl).
    eapply same_edges_hollow; [done|done| |done]. intros k e. by rw He.
  - destruct (remove_node_wf g key rev rest Hw) as [Hw' He]. split; [done|]. intros Hcl Hx. apply (Hh Hcl). by eapply same_edges_hollow.
Qed.

(** C20. The kernel's edges refine a map from pairs of stable ids to payloads.
    In any reachable graph there is at most one edge per ordered pair, its ends
    are live and its payload well formed; and replaying an edit rewrites the
    bucket of the pair it names, when both nodes are live, by the payload
    operation it stands for, and no other bucket. *)
Theorem kernel_refines_pairs allowed g e :
  kreach allowed g →
  (∀ k1 k2 a b p q, edges g !! k1 = Some (a, b, p) → edges g !! k2 = Some (a, b, q) → k1 = k2) ∧
  (∀ k a b p, edges g !! k = Some (a, b, p) → is_Some (nodes g !! a) ∧ is_Some (nodes g !! b) ∧ payload_wf p) ∧
  ∀ x y, id_bucket (run_edit g e) x y =
    if decide ((x, y) = edit_pair e ∧ live_id g x ∧ live_id g y) then edit_bucket e (id_bucket g x y) else id_bucket g x y.
Proof.
  intros [Hw _]%kreach_inv. split_and!; [apply Hw| |by apply run_edit_spec].
  intros k a b p Hk. destruct (kw_ends g Hw k a b p Hk). split_and!; [done..|]. by eapply (kw_payload g Hw).
Qed.

(** ** Replicas *)

Definition agree g h : Prop := (∀ i, live_id g i ↔ live_id h i) ∧ ∀ i j, id_bucket g i j = id_bucket h i j.
#[export] Instance agree_equivalence : Equivalence agree.
Proof.
  split.
  - done.
  - intros g h [H1 H2]. split; [intros i; by rw H1|done].
  - intros g h h' [H1 H2] [H3 H4]. split; [intros i; by rw H1|intros i j; by rw H2].
Qed.

Lemma run_edit_agree g h e : kg_wf g → kg_wf h → agree g h → agree (run_edit g e) (run_edit h e).
Proof.
  intros Hg Hh [Hl Hb]. destruct (run_edit_spec g e Hg) as (_ & Hkg & Hbg). destruct (run_edit_spec h e Hh) as (_ & Hkh & Hbh). split.
  - intros i. unfold live_id. rw Hkg Hkh. apply Hl.
  - intros i j. rw Hbg Hbh Hb. repeat case_decide; try done; naive_solver.
Qed.

(** Replicas that agree by stable id keep agreeing: whatever keys their
    graphs gave nodes and edges, and in whatever order they were built, replaying
    the same edits leaves the same nodes live and the same payload, statement by
    statement and visit by visit, on every pair. *)
Theorem replicas_keep_agreeing allowed g h es :
  kreach allowed g → kreach allowed h → agree g h → agree (fold_left run_edit es g) (fold_left run_edit es h).
Proof.
  intros [Hg _]%kreach_inv [Hh _]%kreach_inv. revert g h Hg Hh. induction es as [|e es IH]; intros g h Hg Hh Ha; [done|].
  apply IH; [by apply run_edit_spec|by apply run_edit_spec|by apply run_edit_agree].
Qed.

(** An edge means a fact: as long as no edit clears a predicate, every
    edge of a reachable graph carries at least one relation, statement or visit;
    retracting the last one removed the edge. *)
Theorem edge_means_fact g k a b p :
  kreach (λ e, ¬ clears e) g → edges g !! k = Some (a, b, p) → payload_is_empty p = false.
Proof.
  intros [Hw Hh]%kreach_inv Hk. apply not_true_iff_false. intros He%is_empty_wf; [|by eapply (kw_payload g Hw)]. subst p.
  apply Hh; [done|]. exists a, b. apply pair_bucket_spec; eauto.
Qed.

(** ** The revision *)

Definition structural (e : EdgeEdit) : Prop := match e with EdAssert _ _ _ _ | EdPredicate _ _ _ _ | EdRetract _ _ _ => True | _ => False end.

Lemma wrap64_succ_ne z : wrap64 (z + 1) ≠ z.
Proof. unfold wrap64, u64_max. intros Hz. pose proof (Z.div_mod (z + 1) (18446744073709551615 + 1)). lia. Qed.

Lemma bumped_same g c : bumped g c = k_revision g → c = false.
Proof. destruct c; [|done]. intros Hz. by apply wrap64_succ_ne in Hz. Qed.

Lemma run_edit_unbumped g e a b :
  kg_wf g → structural e → get_node_key_by_id g (edit_pair e).1 = Some a → get_node_key_by_id g (edit_pair e).2 = Some b →
  k_revision (run_edit g e) = k_revision g → edit_bucket e (pair_bucket g a b) = pair_bucket g a b.
Proof.
  intros Hw Hs Ea Eb Hr. pose proof (key_live g _ a Hw Ea) as Ha. pose proof (key_live g _ b Hw Eb) as Hb.
  destruct e as [mint i j x|mint i j pred|mint i j pred|i j trig at_ms|i j sel]; try by destruct Hs.
  all: cbn [edit_pair fst snd run_edit edit_bucket] in *.
  - unfold replay_assert_relation_by_ids in Hr. rw Ea Eb in Hr. destruct (assert_relation mint g a b x) as [g' r] eqn:E.
    apply assert_relation_pair in E; [|done..]. destruct (payload_assert_relation mint _ x) as [p' c] eqn:Ep. destruct E as [_ E].
    cbn in Hr |- *. rw E in Hr. apply bumped_same in Hr as ->.
    apply assert_relation_spec in Ep as (_ & _ & Hf & Hn); [|by apply bucket_or_new_wf]. rw (Hf eq_refl).
    destruct (pair_bucket g a b); [done|]. by specialize (Hn (no_kind_in_new _)).
  - unfold replay_assert_semantic_predicate_by_ids, assert_semantic_predicate in Hr. rw Ea Eb in Hr.
    destruct (assert_semantic_predicate_in_scope mint g a b pred ScopeDefault) as [g' r] eqn:E.
    apply assert_predicate_pair in E; [|done..]. destruct (payload_assert_predicate mint _ pred _) as [p' c] eqn:Ep. destruct E as [_ E].
    cbn in Hr |- *. rw E in Hr. apply bumped_same in Hr as ->.
    apply assert_predicate_spec in Ep as (_ & _ & Hf & _ & Hn); [|by apply bucket_or_new_wf]. rw (Hf eq_refl).
    destruct (pair_bucket g a b); [done|]. by specialize (Hn (not_elem_of_nil _)).
  - unfold replay_retract_relations_by_ids in Hr. rw Ea Eb in Hr. destruct (retract_relations g a b sel) as [g' n] eqn:E.
    apply retract_relations_pair in E; [|done]. destruct (pair_bucket g a b) as [p|] eqn:Ep; [|done]. cbn.
    destruct (payload_retract_relation p sel) as [p' c] eqn:Er. destruct E as (_ & _ & E). cbn in Hr. rw E in Hr. apply bumped_same in Hr as ->.
    apply retract_without in Er as (_ & Hs' & _); [by rw Hs'|]. by eapply pair_bucket_wf.
Qed.

(** The revision is a sound cache key for asserting and retracting: an
    edit of that sort that leaves the revision where it was has changed the
    payload of no pair, so nothing derived from the relations can be stale. *)
Theorem revision_is_cache_key allowed g e x y :
  kreach allowed g → structural e → k_revision (run_edit g e) = k_revision g → id_bucket (run_edit g e) x y = id_bucket g x y.
Proof.
  intros [Hw _]%kreach_inv Hs Hr. destruct (run_edit_spec g e Hw) as (_ & _ & Hb). rw Hb. case_decide as Hd; [|done].
  destruct Hd as (Hxy & [a Ea] & [b Eb]). unfold id_bucket. rw Ea Eb. cbn. apply run_edit_unbumped; rw -?Hxy; done.
Qed.
End kernel.

Module Sample.
Abbreviation SGraph := (KGraph (G := fresh_graph) (N := Z) (Id := Z) (R := unit)).
Abbreviation SEdit := (EdgeEdit (Id := Z)).

Definition add (g : SGraph) (n : Z) : SGraph := mkKGraph (graph_insert id (k_inner g) n).2 (k_revision g + 1) tt.
Definition empty : SGraph := mkKGraph graph_new 0 tt.
(** The same three nodes, built in two orders: the keys differ. *)
Definition replica1 : SGraph := add (add (add empty 1) 2) 3.
Definition replica2 : SGraph := add (add (add empty 3) 1) 2.

Definition cite : SEdit := EdAssert "a" 1 2 (ASemantic Cites None None).
Definition linked : list SEdit :=
  [cite; EdPredicate "b" 1 2 "urn:x"; EdTraversal 2 3 LinkClick 50; EdAssert "" 2 3 (AContainment Domain); EdRetract 1 2 (SSemantic Cites)].

Lemma replica1_reached P : kreach id P replica1.
Proof. by do 3 apply kr_node_added; apply kr_new. Qed.
Lemma replica2_reached P : kreach id P replica2.
Proof. by do 3 apply kr_node_added; apply kr_new. Qed.

Lemma edits_reached (P : SEdit → Prop) (g : SGraph) es : Forall P es → kreach id P g → kreach id P (fold_left run_edit es g).
Proof. intros HF. revert g. induction HF as [|e es He _ IH]; intros g Hg; [done|]. apply IH. by apply kr_edit. Qed.

Lemma kernel_refines_pairs_witness :
  id_bucket (run_edit replica1 cite) 1 2 = edit_bucket cite None ∧ id_bucket (run_edit replica1 cite) 2 1 = None.
Proof.
  destruct (kernel_refines_pairs id (λ _, True) replica1 cite (replica1_reached _)) as (_ & _ & Hb).
  split; rw Hb; by vm_compute.
Defined.

Lemma replicas_keep_agreeing_witness :
  get_node_key_by_id replica1 1 = Some 0 ∧ get_node_key_by_id replica2 1 = Some 1 ∧
  agree (fold_left run_edit linked replica1) (fold_left run_edit linked replica2).
Proof.
  split; [by vm_compute|]. split; [by vm_compute|].
  refine (replicas_keep_agreeing id (λ _, True) replica1 replica2 linked (replica1_reached _) (replica2_reached _) _).
  assert (∀ i, live_id replica1 i ↔ live_id replica2 i) as Hl.
  { intros i. unfold live_id, get_node_key_by_id, key_of. cbn. rw !lookup_insert_is_Some'. naive_solver. }
  split; [exact Hl|]. intros i j. unfold id_bucket, pair_bucket, find_edge_key.
  destruct (get_node_key_by_id replica1 i), (get_node_key_by_id replica2 i); cbn; try done;
    destruct (get_node_key_by_id replica1 j), (get_node_key_by_id replica2 j); done.
Defined.

Lemma edge_means_fact_witness :
  payload_is_empty (default payload_new (id_bucket (fold_left run_edit linked replica1) 1 2)) = false ∧
  sg_edges (inner (k_inner (fold_left run_edit linked replica1))) !! 0 =
    Some (0, 1, default payload_new (id_bucket (fold_left run_edit linked replica1) 1 2)).
Proof.
  assert (sg_edges (inner (k_inner (fold_left run_edit linked replica1))) !! 0 =
    Some (0, 1, default payload_new (id_bucket (fold_left run_edit linked replica1) 1 2))) as Hk by (by vm_compute).
  split; [|exact Hk].
  assert (Forall (λ e : SEdit, ¬ clears e) linked) as HF by (by repeat constructor; intros []).
  exact (edge_means_fact id _ 0 0 1 _ (edits_reached _ replica1 linked HF (replica1_reached _)) Hk).
Defined.

(** Asserting what is already there. *)
Lemma revision_is_cache_key_witness :
  id_bucket (run_edit (run_edit replica1 cite) cite) 1 2 = id_bucket (run_edit replica1 cite) 1 2.
Proof.
  assert (k_revision (run_edit (run_edit replica1 cite) cite) = k_revision (run_edit replica1 cite)) as Hr by (by vm_compute).
  exact (revision_is_cache_key id (λ _, True) (run_edit replica1 cite) cite 1 2
    (kr_edit id (λ _, True) replica1 cite (replica1_reached _) I) I Hr).
Defined.

(** The first visit along an existing edge adds a relation to the pair, and the
    revision does not move. *)
Lemma first_visit_not_bumped :
  let g := run_edit replica1 cite in let h := run_edit g (EdTraversal 1 2 LinkClick 50) in
  k_revision h = k_revision g ∧
  relation_rows (default payload_new (id_bucket g 1 2)) = [KSemantic Cites] ∧
  relation_rows (default payload_new (id_bucket h 1 2)) = [KSemantic Cites; KTraversal].
Proof. by vm_compute. Qed.

(** Clearing the predicate of an edge that has nothing else leaves an edge that
    carries nothing, and the revision does not move. *)
Lemma cleared_predicate_leaves_hollow_edge :
  let g := run_edit replica1 (EdPredicate "b" 1 2 "urn:x") in let h := run_edit g (EdSetPredicate "c" 1 2 None) in
  id_bucket h 1 2 = Some payload_new ∧ k_revision h = k_revision g.
Proof. by vm_compute. Qed.
End Sample.
