(* ===== verification/KernelNav.v ===== *)
(** Navigation memory of the graph kernel
    (crates/graph/graph-kernel/src/graph/history.rs).

    One lineage for the whole graph, with one owner per node.  The state kept is
    the lineage's snapshot: every operation rehydrates it, works on the lineage of
    [Stemma] and takes the snapshot again.  [None] is a panic of either direction,
    or a linear history that does not end.

    Node identities print to strings and parse back ([UuidText], the uuid crate). *)

From S2P Require Import Prelude Wire SlotMap Stemma.

Local Open Scope Z_scope.

Class UuidText (U : Type) : Type := {
  uuid_to_string : U → string;
  uuid_parse : string → option U;
  uuid_parse_print u : uuid_parse (uuid_to_string u) = Some u
}.

Lemma uuid_to_string_inj {U} `{UuidText U} (u v : U) : uuid_to_string u = uuid_to_string v → u = v.
Proof. intros Heq. apply (inj Some). by rw -!uuid_parse_print Heq. Qed.

Inductive NodeHistoryOwner : Type := OwnerNode (node : string).
#[export] Instance NodeHistoryOwner_eq_dec : EqDecision NodeHistoryOwner.
Proof. solve_decision. Defined.
#[export] Instance NodeHistoryOwner_countable : Countable NodeHistoryOwner.
Proof. apply (inj_countable' (λ o, match o with OwnerNode s => s end) OwnerNode). by intros []. Defined.

Record NodeHistoryProjection : Type := mkProjection { np_entries : list string; np_current_index : nat }.
#[export] Instance NodeHistoryProjection_eq_dec : EqDecision NodeHistoryProjection.
Proof. solve_decision. Defined.

Record NodeHistoryBranchAlternative : Type := mkBranchAlternative {
  ba_url : string; ba_transition : option TransitionKind; ba_at_ms : Z }.
Record NodeHistoryBranchVisit : Type := mkHistoryVisit {
  hv_url : string;
  hv_transition : option TransitionKind;
  hv_at_ms : Z;
  hv_is_current : bool;
  hv_alternate_children : list NodeHistoryBranchAlternative
}.
Record NodeHistoryBranchProjection : Type := mkBranchProjection {
  bp_visits : list NodeHistoryBranchVisit; bp_current_index : option nat }.
Record NodeHistorySemanticSummary : Type := mkSummary {
  su_current_url : option string; su_last_visit_at_ms : option Z; su_visit_count : nat }.

(** [Iterator::max_by_key]: of equal maxima, the last. *)
Definition max_by_key {A} (key : A → Z) (l : list A) : option A :=
  fold_left (λ best x, match best with
                       | Some b => if bool_decide (key x < key b) then Some b else Some x
                       | None => Some x
                       end) l None.

Section nav.
Context {M : Type → Type} `{SlotMap M} `{HashOrder}.
Context {U : Type} `{UuidText U}.

Definition owner_of (node : U) : NodeHistoryOwner := OwnerNode (uuid_to_string node).

Abbreviation Memory := (Stemma (M := M) (K := string) (E := string) (O := NodeHistoryOwner) (X := unit)).
Abbreviation Snapshot := (StemmaSnapshot (K := string) (E := string) (O := NodeHistoryOwner) (X := unit)).

Record SharedNavigationMemory : Type := mkNav { nav_snapshot : Snapshot }.
Implicit Types (nav : SharedNavigationMemory) (node : U).

Definition nav_empty : SharedNavigationMemory := mkNav (mkSnap [] [] []).
Definition owner_count nav : nat := length (sn_owners (nav_snapshot nav)).
Definition entry_count nav : nat := length (sn_entries (nav_snapshot nav)).
Definition nav_visit_count nav : nat := length (sn_visits (nav_snapshot nav)).

Definition hydrate nav : option Memory := from_snapshot (nav_snapshot nav).
Definition dehydrate (m : Memory) : option SharedNavigationMemory := mkNav <$> to_snapshot m.

Definition nav_ensure nav node : option SharedNavigationMemory :=
  m ← hydrate nav; dehydrate (ensure_owner m (owner_of node) None).1.

Definition nav_spawn nav (child parent : U) : option SharedNavigationMemory :=
  m ← hydrate nav;
  let creator := owner_id_by_identity m (owner_of parent) in
  dehydrate (ensure_owner m (owner_of child) creator).1.

(** Resolving an entry for a URL and visiting it. *)
Definition visit_url (m : Memory) (owner : OwnerId) (url : string) (transition : TransitionKind) (at_ms : Z) : Memory :=
  let '(m, entry) := resolve_or_create_entry m url url at_ms LocalOnly in
  (visit_entry m owner entry tt transition at_ms).1.

Definition nav_record_visit nav node (url : string) (transition : TransitionKind) (at_ms : Z) : option SharedNavigationMemory :=
  m ← hydrate nav;
  let '(m, owner) := ensure_owner m (owner_of node) None in
  dehydrate (visit_url m owner url transition at_ms).

(** [step]: an early return leaves the memory as it was. *)
Definition nav_step nav node (backward : bool) (at_ms : Z) : option (SharedNavigationMemory * option string) :=
  m ← hydrate nav;
  match owner_id_by_identity m (owner_of node) with
  | None => Some (nav, None)
  | Some owner =>
      match (if backward then back m owner 1 at_ms else forward m owner 1 at_ms) with
      | (m, Ok (Some moved)) =>
          let url := sm_get (visits m) moved ≫= λ v, en_payload <$> sm_get (entries m) (vi_entry v) in
          nav ← dehydrate m; Some (nav, url)
      | _ => Some (nav, None)
      end
  end.
Definition nav_back nav node (at_ms : Z) : option (SharedNavigationMemory * option string) := nav_step nav node true at_ms.
Definition nav_forward nav node (at_ms : Z) : option (SharedNavigationMemory * option string) := nav_step nav node false at_ms.

Definition ok_or_default {E A} (d : A) (r : result E A) : A := match r with Ok a => a | Err _ => d end.

Definition nav_projection nav node : option NodeHistoryProjection :=
  m ← hydrate nav;
  match owner_id_by_identity m (owner_of node) with
  | None => Some (mkProjection [] 0)
  | Some owner =>
      ids ← linear_history_entries_of_owner m owner;
      index ← current_index_of_owner m owner;
      Some (mkProjection (omap (λ e, en_payload <$> sm_get (entries m) e) (ok_or_default [] ids))
              (default 0%nat (ok_or_default None index)))
  end.

Definition nav_branch_projection nav node : option NodeHistoryBranchProjection :=
  m ← hydrate nav;
  match owner_id_by_identity m (owner_of node) with
  | None => Some (mkBranchProjection [] None)
  | Some owner =>
      branch ← owner_branch_projection m owner;
      match branch with
      | Err _ => Some (mkBranchProjection [] None)
      | Ok (vs, index) =>
          Some (mkBranchProjection
                  ((λ v, mkHistoryVisit (bv_payload v) (bv_transition v) (bv_at_ms v) (bv_is_current v)
                           ((λ c, mkBranchAlternative (alt_payload c) (alt_transition c) (alt_at_ms c)) <$> bv_alternates v)) <$> vs)
                  index)
      end
  end.

Definition nav_semantic_summary nav node : option NodeHistorySemanticSummary :=
  m ← hydrate nav;
  match owner_id_by_identity m (owner_of node) with
  | None => Some (mkSummary None None 0)
  | Some owner =>
      let url := current_entry_of_owner m owner ≫= λ e, en_payload <$> sm_get (entries m) e in
      l ← linear_history_visits_of_owner m owner;
      let vs := ok_or_default [] l in
      let last := max_by_key id (omap (λ v, created_at_ms <$> sm_get (visits m) v) vs) in
      Some (mkSummary url (last ≫= λ t, if bool_decide (0 < t) then Some t else None) (length vs))
  end.

Record RecentVisit : Type := mkRecent { rv_node : U; rv_url : string; rv_last_visit_at_ms : Z }.

Definition recent_of (m : Memory) (w : OwnerRecord NodeHistoryOwner) : option RecentVisit :=
  let 'OwnerNode s := ow_identity w in
  node ← uuid_parse s;
  latest ← max_by_key snd (omap (λ v, (λ r, (vi_entry r, created_at_ms r)) <$> sm_get (visits m) v) (set_iter (owned_visits w)));
  url ← en_payload <$> sm_get (entries m) latest.1;
  Some (mkRecent node url latest.2).

Definition nav_recent_visited nav (limit : nat) : option (list RecentVisit) :=
  m ← hydrate nav;
  Some (take limit (sort_by_key (λ r, - rv_last_visit_at_ms r) (omap (recent_of m) (sm_iter (owners m)).*2))).

Definition nav_current_url nav node : option (option string) :=
  p ← nav_projection nav node; Some (np_entries p !! np_current_index p).
Definition nav_can_back nav node : option bool :=
  p ← nav_projection nav node; Some (bool_decide (0 < np_current_index p)%nat).
Definition nav_can_forward nav node : option bool :=
  p ← nav_projection nav node; Some (bool_decide (np_current_index p + 1 < length (np_entries p))%nat).

Definition nav_remove nav node : option SharedNavigationMemory :=
  m ← hydrate nav;
  match owner_id_by_identity m (owner_of node) with
  | None => Some nav
  | Some owner => d ← delete_owner m owner; dehydrate d.1
  end.

Fixpoint seed_visits (m : Memory) (owner : OwnerId) (idx : nat) (urls : list string) : Memory :=
  match urls with
  | [] => m
  | url :: rest =>
      let transition := if bool_decide (idx = 0)%nat then UrlTyped else Unknown in
      seed_visits (visit_url m owner url transition (Z.of_nat idx)) owner (S idx) rest
  end.

Definition nav_seed_linear nav node (urls : list string) (current_index : nat) : option SharedNavigationMemory :=
  match urls with
  | [] => Some nav
  | _ =>
      m ← hydrate nav;
      let '(m, owner) := ensure_owner m (owner_of node) None in
      let m := seed_visits m owner 0 urls in
      let clamped := Nat.min current_index (length urls - 1) in
      let steps_back := (length urls - 1 - clamped)%nat in
      let m := if bool_decide (0 < steps_back)%nat then (back m owner steps_back (Z.of_nat (length urls))).1 else m in
      dehydrate m
  end.

(** ** A step that reports nothing did nothing

    Every visit of a rehydrated lineage has its entry, so a step that moved has a
    URL to report: when there is none, the memory is the one there was. *)

Abbreviation vis m := (sm_view (visits m)).
Abbreviation ent m := (sm_view (entries m)).
Definition entries_live (m : Memory) : Prop := ∀ v r, vis m !! v = Some r → is_Some (ent m !! vi_entry r).

Lemma insert_all_spec {V} (l : list V) (m : M V) :
  (∀ k, k ∈ (insert_all l m).1 → is_Some (sm_view (insert_all l m).2 !! k)) ∧
  (∀ k v, sm_view (insert_all l m).2 !! k = Some v → sm_view m !! k = Some v ∨ v ∈ l).
Proof.
  unfold insert_all. assert (∀ ids m, (∀ k, k ∈ ids → is_Some (sm_view m !! k)) →
    let r := fold_left (λ '(ids, m) v, let '(k, m') := sm_insert v m in (ids ++ [k], m')) l (ids, m) in
    (∀ k, k ∈ r.1 → is_Some (sm_view r.2 !! k)) ∧ (∀ k v, sm_view r.2 !! k = Some v → sm_view m !! k = Some v ∨ v ∈ l)) as Hall.
  { induction l as [|v l IH]; intros ids m0 Hids; cbn [fold_left]; [by split; [|by left]|].
    pose proof (sm_view_insert V v m0) as Hv. destruct (sm_insert v m0) as [k m']. cbn in Hv. destruct (IH (ids ++ [k]) m') as [H1' H2'].
    - intros x [Hx|Hx%list_elem_of_singleton]%elem_of_app; rw Hv lookup_insert_is_Some'; [right; by apply Hids|by left].
    - split; [done|]. intros x w [Hx|Hx]%H2'; [|by right; right]. rw Hv in Hx. apply lookup_insert_Some in Hx as [[_ <-]|[_ Hx]]; [by right; left|by left]. }
  apply Hall. by intros k ?%elem_of_nil.
Qed.

Lemma hydrate_entries nav m : hydrate nav = Some m → entries_live m.
Proof.
  unfold hydrate, from_snapshot. destruct (insert_all ((λ o, mkOwner _ _ _ _ _ _) <$> _) sm_new) as [owner_ids os].
  pose proof (insert_all_spec (es_record <$> sn_entries (nav_snapshot nav)) sm_new) as [He _]. destruct (insert_all (es_record <$> _) sm_new) as [entry_ids es].
  intros (records & Hr & Hm)%bind_Some. pose proof (insert_all_spec records sm_new) as [_ Hv]. destruct (insert_all records sm_new) as [visit_ids vs].
  apply bind_Some in Hm as (vs' & Hvs & (os' & _ & [= <-])%bind_Some). cbn in *.
  assert (∀ k r, sm_view vs' !! k = Some r → vi_entry r ∈ entry_ids) as Hin; [|intros v r Hvr; by eapply He, Hin].
  revert Hvs. apply (foldM_inv (λ vs, ∀ k r, sm_view vs !! k = Some r → vi_entry r ∈ entry_ids)).
  - intros a [k v] a' Ha (p & _ & (c & _ & (b & _ & [= <-])%bind_Some)%bind_Some)%bind_Some k' r. rw sm_view_alter lookup_alter_Some.
    intros [(-> & r0 & Hr0 & ->)|[_ Hk]]; [|by eapply Ha]. cbn. by eapply Ha.
  - intros k r [Hk|Hk]%Hv; [by rw sm_view_new lookup_empty in Hk|]. apply mapM_Some in Hr. apply list_elem_of_lookup in Hk as [n Hn].
    destruct (Forall2_lookup_r _ _ _ _ _ Hr Hn) as (v & _ & (e & Hl & [= <-])%bind_Some). cbn. by apply list_elem_of_lookup_2 in Hl.
Qed.

(** Rebinding an owner keeps the visits' entries. *)
Definition same_entries (m m' : Memory) : Prop := entries m' = entries m ∧ vi_entry <$> vis m' = vi_entry <$> vis m.

Lemma ensure_same m v o t set : same_entries m (default m (ensure_binding m v o t set)).
Proof.
  unfold ensure_binding. destruct (sm_get (visits m) v); [|done]. split; [done|]. cbn. rw sm_view_alter. apply map_eq. intros x. rw !lookup_fmap.
  destruct (decide (x = v)) as [->|Hx]; [|by rw lookup_alter_ne]. rw lookup_alter_eq. by destruct (vis m !! v).
Qed.
Lemma bind_same m o v t m' u : bind_owner_to_visit m o v t = (m', Ok u) → same_entries m m' ∧ is_Some (vis m' !! v).
Proof.
  unfold bind_owner_to_visit. destruct (sm_contains (owners m) o); [|done]. destruct (sm_contains (visits m) v) eqn:Ev; [|done]. cbn [negb].
  pose proof (ensure_same m v o t id) as [H1' H2']. destruct (ensure_binding m v o t id) as [s|]; [|done]. cbn in H1', H2'. intros [= <- <-].
  split; [done|]. cbn. apply sm_contains_true in Ev as [r Hr]. assert ((vi_entry <$> vis s) !! v = Some (vi_entry r)) as Hs by by rw H2' lookup_fmap Hr.
  rw lookup_fmap in Hs. destruct (vis s !! v) as [r'|]; [by exists r'|done].
Qed.
Lemma same_entries_live m m' v : entries_live m → same_entries m m' → is_Some (vis m' !! v) → ∃ r e, vis m' !! v = Some r ∧ ent m' !! vi_entry r = Some e.
Proof.
  intros Hl [He Hv] [r Hr]. assert ((vi_entry <$> vis m) !! v = Some (vi_entry r)) as Hs by by rw -Hv lookup_fmap Hr.
  rw lookup_fmap in Hs. apply fmap_Some in Hs as (r0 & Hr0 & Heq). destruct (Hl v r0 Hr0) as [e Hee]. exists r, e. by rw He Heq.
Qed.

Lemma step_one_same m o t m' v (b : bool) :
  (if b then back m o 1 t else forward m o 1 t) = (m', Ok (Some v)) → ∃ m0, same_entries m m0 ∧ same_entries m0 m' ∧ is_Some (vis m' !! v).
Proof.
  destruct b; [unfold back|unfold forward]; (destruct (sm_contains (owners m) o); [|done]); cbn; (destruct (owner_current m o) as [c|]; [|done]).
  - destruct (_ ≫= vi_parent) as [p|]; [|done]. destruct (bind_owner_to_visit _ o p t) as [s2 []] eqn:Eb; [|done]. intros [= <- <-].
    eexists. split; [apply ensure_same|]. by eapply bind_same.
  - destruct (forward_of m c o) as [n|]; [|done]. destruct (bind_owner_to_visit m o n t) as [s2 []] eqn:Eb; [|done]. intros [= <- <-].
    exists m. split; [done|]. by eapply bind_same.
Qed.

Lemma nav_step_none nav node b t nav' : nav_step nav node b t = Some (nav', None) → nav' = nav.
Proof.
  unfold nav_step. destruct (hydrate nav) as [m|] eqn:Eh; [|done]. cbn [mbind option_bind]. destruct (owner_id_by_identity m (owner_of node)) as [o|]; [|by intros [= <-]].
  destruct (if b then _ else _) as [m' [[v|]|]] eqn:Es; try by intros [= <-]. intros (n & _ & [= <- Hu])%bind_Some. exfalso.
  apply step_one_same in Es as (m0 & [E1 E2] & [E3 E4] & Hv). destruct (same_entries_live m m' v) as (r & e & Hr & He); [by eapply hydrate_entries|split; congruence|done|].
  unfold sm_get in Hu. rw Hr in Hu. cbn in Hu. by rw He in Hu.
Qed.
End nav.

#[export] Instance string_uuid : UuidText string.
Proof. exists id Some. done. Defined.

Module Sample.
Abbreviation Nav := (SharedNavigationMemory).

Definition walk : option Nav :=
  nav ← nav_record_visit nav_empty "a" "https://one" UrlTyped 10;
  nav ← nav_record_visit nav "a" "https://two" UrlTyped 20;
  nav ← nav_record_visit nav "a" "https://three" UrlTyped 30;
  n ← nav_back nav "a" 40;
  Some n.1.

(** Three pages and one step back: the projection, where it stands, and what a
    step forward reveals. *)
Example walk_projection :
  (walk ≫= λ n, nav_projection n "a") = Some (mkProjection ["https://one"; "https://two"; "https://three"] 1) ∧
  (walk ≫= λ n, snd <$> nav_forward n "a" 50) = Some (Some "https://three") ∧
  (walk ≫= λ n, nav_projection n "b") = Some (mkProjection [] 0).
Proof. vm_compute. done. Qed.

(** Once [b] is branched from [a], removing the history of [a] panics when the
    snapshot is taken: [b] still names [a] as its creator. *)
Example resetting_a_branched_history_panics :
  is_Some (walk ≫= λ n, nav_spawn n "b" "a") ∧ (walk ≫= λ n, nav_spawn n "b" "a" ≫= λ n, nav_remove n "a") = None.
Proof. split; [eexists; vm_compute; reflexivity|vm_compute; reflexivity]. Qed.
End Sample.
