(* ===== verification/KernelNode.v ===== *)
(** Nodes of the graph kernel: data and operations
    (crates/graph/graph-kernel/src/{address,types}.rs and
    graph/{mod,node,node_props,node_facets,import_records,field_ops}.rs, with the
    field data of crates/conatus/numen/src/{field,coupling}.rs).

    The graph is [KernelGraph]'s, with [Node] payloads and the fields of the Rust
    struct beside it ([Rest]): facets, the URL index, import records, the field
    layer and the navigation memory.  Each method is a definition of the same
    name from a graph to the new graph and its result; [None] is a panic.

    Parameters: the parsers of the url, mime_guess and infer crates ([WebText]);
    JSON values and their (de)serialization at each facet's type ([Facet]); the
    definitions of fields, which the kernel only carries.  What the source reads
    from the machine is an argument ([Env]): the clock, a fresh uuid, a minted
    statement id, and whether the build targets wasm32, where no uuid can be minted.
    An [f32] is its bits. *)

From S2P Require Import Prelude Wire Journal SlotMap Stemma StableGraph GraphLog KernelEdges KernelGraph KernelNav.

Local Open Scope Z_scope.

(** ** Third-party functions and the machine *)

Class WebText : Type := {
  url_host : string → option string;
  url_path : string → option string;
  mime_guess : string → list string;
  infer_mime : list Z → option string
}.

Class Facet (J T : Type) : Type := { to_value : T → J; from_value : J → option T }.
(** What serde documents of a type that derives both directions. *)
Class FacetRoundtrip (J T : Type) `{Facet J T} : Prop := facet_roundtrip (v : T) : from_value (to_value v : J) = Some v.

Record Env (U : Type) : Type := mkEnv { now_ms : Z; now_secs : Z; mint : string; new_uuid : U; wasm32 : bool }.
Arguments mkEnv {U}.
Arguments now_ms {U}.
Arguments now_secs {U}.
Arguments mint {U}.
Arguments new_uuid {U}.
Arguments wasm32 {U}.

(** ** Addresses (address.rs) *)

Inductive AddressKind : Type := KHttp | KFile | KData | KGraphshellClip | KDirectory | KUnknown.

Inductive Address : Type :=
| AHttp (s : string) | AFile (s : string) | AData (s : string) | AClip (s : string) | ADirectory (s : string) | ACustom (s : string).

Definition as_url_str (a : Address) : string :=
  match a with AHttp s | AFile s | AData s | ADirectory s | ACustom s | AClip s => s end.

Definition address_kind (a : Address) : AddressKind :=
  match a with
  | AHttp _ => KHttp | AFile _ => KFile | AData _ => KData | AClip _ => KGraphshellClip | ADirectory _ => KDirectory | ACustom _ => KUnknown
  end.

Definition ascii_lower (c : ascii) : ascii :=
  if bool_decide (65 ≤ code c ≤ 90) then ascii_of_N (N_of_ascii c + 32) else c.
Fixpoint to_ascii_lowercase (s : string) : string :=
  match s with EmptyString => EmptyString | String c s => String (ascii_lower c) (to_ascii_lowercase s) end.

Fixpoint trim_start_matches (c : ascii) (s : string) : string :=
  match s with String d s' => if bool_decide (d = c) then trim_start_matches c s' else s | EmptyString => EmptyString end.

Section address.
Context `{WebText}.

Definition slash : ascii := "/"%char.
Definition file_url_uses_directory_syntax (url : string) : bool :=
  match url_path url with Some path => bool_decide (is_Some (strip_suffix slash path)) | None => false end.

Definition address_from_url (url : string) : Address :=
  let lower := to_ascii_lowercase url in
  if starts_with "http://" lower || starts_with "https://" lower then AHttp url
  else if starts_with "data:" lower then AData url
  else if starts_with "verso://clip/" lower || starts_with "graphshell://clip/" lower then AClip url
  else if starts_with "file://" lower then (if file_url_uses_directory_syntax url then ADirectory url else AFile url)
  else ACustom url.

Definition address_kind_from_url (url : string) : AddressKind :=
  let lower := to_ascii_lowercase url in
  if starts_with "http://" lower || starts_with "https://" lower then KHttp
  else if starts_with "data:" lower then KData
  else if starts_with "verso://clip/" lower || starts_with "graphshell://clip/" lower then KGraphshellClip
  else if starts_with "file://" lower then (if file_url_uses_directory_syntax url then KDirectory else KFile)
  else KUnknown.

Definition cached_host_from_url (url : string) : option string := url_host url.

Definition detect_mime (url : string) (content_bytes : option (list Z)) : option string :=
  let no_fragment := default url (head (split "#"%char url)) in
  let no_query := default no_fragment (head (split "?"%char no_fragment)) in
  let path := trim_start_matches slash (default no_query (strip_prefix "file://" no_query)) in
  let guessed := mime_guess (String slash path) in
  let is_ambiguous := bool_decide (1 < length guessed)%nat || bool_decide (head guessed = Some "application/octet-stream") in
  if bool_decide (guessed ≠ []) && negb is_ambiguous then head guessed
  else match content_bytes ≫= infer_mime with Some kind => Some kind | None => head guessed end.
End address.

(** ** Leaf types (types.rs) *)

Inductive SplitOrientation : Type := Vertical | Horizontal.
Inductive DominantEdge : Type := DLeft | DRight | DTop | DBottom.
Inductive FrameLayoutHint : Type :=
| SplitHalf (first second : string) (orientation : SplitOrientation)
| SplitPamphlet (a b c : string) (orientation : SplitOrientation)
| SplitTriptych (dominant : string) (edge : DominantEdge) (wing1 wing2 : string)
| SplitQuartered (top_left top_right bottom_left bottom_right : string).

Record NodeImportProvenance : Type := mkImportProvenance { ip_source_id : string; ip_source_label : string }.
#[export] Instance NodeImportProvenance_eq_dec : EqDecision NodeImportProvenance.
Proof. solve_decision. Defined.

Record NodeDerivation : Type := mkNodeDerivation {
  nd_sub_kind : ProvenanceSubKind; nd_source_node : string; nd_source_graph : option string }.
#[export] Instance NodeDerivation_eq_dec : EqDecision NodeDerivation.
Proof. solve_decision. Defined.

Record ImportRecordMembership : Type := mkMembership { im_node_id : string; im_suppressed : bool }.
#[export] Instance ImportRecordMembership_eq_dec : EqDecision ImportRecordMembership.
Proof. solve_decision. Defined.
Record ImportRecord : Type := mkImportRecord {
  ir_record_id : string;
  ir_source_id : string;
  ir_source_label : string;
  ir_imported_at_secs : Z;
  ir_memberships : list ImportRecordMembership
}.
#[export] Instance ImportRecord_eq_dec : EqDecision ImportRecord.
Proof. solve_decision. Defined.

Inductive ClassificationScheme : Type := Udc | ContentKind | CustomScheme (name : string).
#[export] Instance ClassificationScheme_eq_dec : EqDecision ClassificationScheme.
Proof. solve_decision. Defined.
Inductive ClassificationProvenance : Type :=
| UserAuthored | CImported | InheritedFromSource | RegistryDerived | AgentSuggested | CommunitySynced.
Inductive ClassificationStatus : Type := CAccepted | CSuggested | CRejected | CVerified | CStatusImported.

Record NodeClassification : Type := mkClassification {
  nc_scheme : ClassificationScheme;
  nc_value : string;
  nc_label : option string;
  nc_confidence : Z;
  nc_provenance : ClassificationProvenance;
  nc_status : ClassificationStatus;
  nc_primary : bool
}.

Record NodeProperty : Type := mkProperty {
  pr_statement_id : string;
  pr_predicate : string;
  pr_value : string;
  pr_datatype : option string;
  pr_lang : option string;
  pr_graph_scope : GraphScope;
  pr_provenance_iri : option string;
  pr_asserted_at_ms : option Z
}.
(** [content_eq], as the part two properties share. *)
Definition property_content (p : NodeProperty) : string * string * option string * option string * GraphScope :=
  (pr_predicate p, pr_value p, pr_datatype p, pr_lang p, pr_graph_scope p).

Inductive ImageRole : Type := Favicon | Preview | SnapshotRole.
#[export] Instance ImageRole_eq_dec : EqDecision ImageRole.
Proof. solve_decision. Defined.
#[export] Instance ImageRole_countable : Countable ImageRole.
Proof.
  apply (inj_countable' (λ r, match r with Favicon => 0 | Preview => 1 | SnapshotRole => 2 end)%nat
           (λ n, match n with 0 => Favicon | 1 => Preview | _ => SnapshotRole end%nat)).
  by intros [].
Defined.
Record ImageRef : Type := mkImageRef { img_digest : Z; img_width : Z; img_height : Z }.
#[export] Instance ImageRef_eq_dec : EqDecision ImageRef.
Proof. solve_decision. Defined.

Inductive BadgeIcon : Type := Emoji (s : string) | Lucide (s : string) | NoIcon.
#[export] Instance BadgeIcon_eq_dec : EqDecision BadgeIcon.
Proof. solve_decision. Defined.
Record NodeTagPresentationState : Type := mkPresentation { ordered_tags : list string; icon_overrides : gmap string BadgeIcon }.
Definition presentation_default : NodeTagPresentationState := mkPresentation [] ∅.

(** node_facets.rs *)
Record VisitHistoryFacet : Type := mkVisitHistory { last_visited_ms : option Z; last_session_visited : Z }.
Definition visit_history_default : VisitHistoryFacet := mkVisitHistory None 0.

Definition ARRANGEMENT_PIN : string := "arrangement.pin".
Definition ARRANGEMENT_FRAME_LAYOUT : string := "arrangement.frame-layout".
Definition ARRANGEMENT_SPLIT_OFFER_SUPPRESSED : string := "arrangement.split-offer-suppressed".
Definition PRESENTATION_TAGS : string := "presentation.tags".
Definition VISIT_HISTORY : string := "visit.history".
Definition PROVENANCE_IMPORT : string := "provenance.import".
Definition PROVENANCE_DERIVATIONS : string := "provenance.derivations".
Definition SEMANTIC_CLASSIFICATIONS : string := "semantic.classifications".
Definition SEMANTIC_PROPERTIES : string := "semantic.properties".

(** ** Import records (mod.rs) *)

Definition membership_le : relation ImportRecordMembership :=
  λ a b, lex_le string_le Nat.le (im_node_id a, Nat.b2n (im_suppressed a)) (im_node_id b, Nat.b2n (im_suppressed b)).
#[export] Instance membership_le_dec : RelDecision membership_le.
Proof. intros a b. unfold membership_le, lex_le, strict. apply _. Defined.

(** Adjacent memberships of one node merge; [existing] is the last one kept. *)
Fixpoint merge_members (existing : ImportRecordMembership) (l : list ImportRecordMembership) : list ImportRecordMembership :=
  match l with
  | [] => [existing]
  | m :: l => if bool_decide (im_node_id existing = im_node_id m)
              then merge_members (mkMembership (im_node_id existing) (im_suppressed existing && im_suppressed m)) l
              else existing :: merge_members m l
  end.
Definition normalize_import_record_memberships (l : list ImportRecordMembership) : list ImportRecordMembership :=
  match merge_sort membership_le l with [] => [] | m :: l => merge_members m l end.

Definition with_memberships (ms : list ImportRecordMembership) (r : ImportRecord) : ImportRecord :=
  mkImportRecord (ir_record_id r) (ir_source_id r) (ir_source_label r) (ir_imported_at_secs r) ms.

Definition empty_string (s : string) : bool := bool_decide (s = "").

(** What a record adds to the entry its id has in the merged table. *)
Definition merge_record (entry r : ImportRecord) : ImportRecord :=
  mkImportRecord (ir_record_id entry)
    (if empty_string (ir_source_id entry) then ir_source_id r else ir_source_id entry)
    (if empty_string (ir_source_label entry) then ir_source_label r else ir_source_label entry)
    (if bool_decide (ir_imported_at_secs entry = 0) then ir_imported_at_secs r
     else if bool_decide (ir_imported_at_secs r ≠ 0) then Z.min (ir_imported_at_secs entry) (ir_imported_at_secs r)
     else ir_imported_at_secs entry)
    (ir_memberships entry ++ ir_memberships r).

Definition file_record (merged : gmap string ImportRecord) (r : ImportRecord) : gmap string ImportRecord :=
  let r := with_memberships (normalize_import_record_memberships (ir_memberships r)) r in
  if is_blank (ir_record_id r) then merged
  else <[ir_record_id r := merge_record (default (with_memberships [] r) (merged !! ir_record_id r)) r]> merged.

Definition record_le : relation ImportRecord :=
  λ a b, lex_le (lex_le string_le Z.le) string_le
           (ir_source_label a, ir_imported_at_secs a, ir_record_id a) (ir_source_label b, ir_imported_at_secs b, ir_record_id b).
#[export] Instance record_le_dec : RelDecision record_le.
Proof. intros a b. unfold record_le, lex_le, strict. apply _. Defined.

Definition normalize_import_records (rs : list ImportRecord) : list ImportRecord :=
  merge_sort record_le
    ((λ r, with_memberships (normalize_import_record_memberships (ir_memberships r)) r) <$>
       (map_to_list (fold_left file_record rs ∅)).*2).

(** ** Fields and couplings (numen) *)

Inductive FieldLifecycle : Type := FieldActive | FieldRetired.
Inductive NodeSelector : Type := SelAll | SelTagged (tag : string) | SelKind (kind : string) | SelNotTagged (tag : string).
Inductive CouplingResponse : Type :=
| AttractToMin | RepelFromMax | AlignVelocity | FlowAdvect | DampenInside (factor : Z) | ContainmentWall | OpenResponse (predicate : string).

Inductive FieldExtent (U : Type) : Type :=
| Global | Region (min_x min_y max_x max_y : Z) | AttachedToNode (id : U) | Polygon (points : list (Z * Z)).
Arguments Global {U}.
Arguments Region {U}.
Arguments AttachedToNode {U}.
Arguments Polygon {U}.

Record Field (U D : Type) : Type := mkField {
  fi_id : U; fi_name : option string; fi_definition : D; fi_extent : FieldExtent U; fi_lifecycle : FieldLifecycle }.
Arguments mkField {U D}.
Arguments fi_id {U D}.
Arguments fi_name {U D}.
Arguments fi_definition {U D}.
Arguments fi_extent {U D}.
Arguments fi_lifecycle {U D}.

Record Coupling (U : Type) : Type := mkCoupling {
  co_id : U; co_field : U; co_selector : NodeSelector; co_response : CouplingResponse; co_strength : Z }.
Arguments mkCoupling {U}.
Arguments co_id {U}.
Arguments co_field {U}.
Arguments co_selector {U}.
Arguments co_response {U}.
Arguments co_strength {U}.

(** ** Nodes (node.rs, over chartulary's container.rs) *)

Record Node (U : Type) : Type := mkNode {
  n_id : U;
  n_addresses : list Address;
  n_content : option Z;
  n_body : option string;
  n_media_type : option string;
  n_title : string;
  n_tags : gset string;
  n_nested : option string;
  n_images : gmap ImageRole ImageRef
}.
Arguments mkNode {U}.
Arguments n_id {U}.
Arguments n_addresses {U}.
Arguments n_content {U}.
Arguments n_body {U}.
Arguments n_media_type {U}.
Arguments n_title {U}.
Arguments n_tags {U}.
Arguments n_nested {U}.
Arguments n_images {U}.

Section node.
Context {U : Type}.
Implicit Types n : Node U.

Definition node_with_addresses l n : Node U := mkNode (n_id n) l (n_content n) (n_body n) (n_media_type n) (n_title n) (n_tags n) (n_nested n) (n_images n).
Definition node_with_content c b n : Node U := mkNode (n_id n) (n_addresses n) c b (n_media_type n) (n_title n) (n_tags n) (n_nested n) (n_images n).
Definition node_with_media_type m n : Node U := mkNode (n_id n) (n_addresses n) (n_content n) (n_body n) m (n_title n) (n_tags n) (n_nested n) (n_images n).
Definition node_with_title t n : Node U := mkNode (n_id n) (n_addresses n) (n_content n) (n_body n) (n_media_type n) t (n_tags n) (n_nested n) (n_images n).
Definition node_with_tags t n : Node U := mkNode (n_id n) (n_addresses n) (n_content n) (n_body n) (n_media_type n) (n_title n) t (n_nested n) (n_images n).
Definition node_with_nested l n : Node U := mkNode (n_id n) (n_addresses n) (n_content n) (n_body n) (n_media_type n) (n_title n) (n_tags n) l (n_images n).
Definition node_with_images m n : Node U := mkNode (n_id n) (n_addresses n) (n_content n) (n_body n) (n_media_type n) (n_title n) (n_tags n) (n_nested n) m.

(** [None] is the violated invariant's panic. *)
Definition primary_address n : option Address := head (n_addresses n).
End node.

(** ** The graph and its node operations *)

Section ops.
Context {G : Type → Type → Type} `{StableGraph G} {M : Type → Type} `{SlotMap M} `{HashOrder} `{WebText}.
Context {U : Type} `{Countable U} `{UuidText U} {J D : Type} `{EqDecision J}.
Context `{Facet J bool} `{Facet J (list FrameLayoutHint)} `{Facet J NodeTagPresentationState} `{Facet J VisitHistoryFacet}.
Context `{Facet J (list NodeImportProvenance)} `{Facet J (list NodeDerivation)}.
Context `{Facet J (list NodeClassification)} `{Facet J (list NodeProperty)}.

Record Rest : Type := mkRest {
  r_facets : gmap U (gmap string J);
  url_to_nodes : gmap string (list Z);
  import_records : list ImportRecord;
  fields : gmap U (Field U D);
  couplings : gmap U (Coupling U);
  nav : SharedNavigationMemory;
  current_session : Z
}.

Abbreviation Graph := (KGraph (G := G) (N := Node U) (Id := U) (R := Rest)).
Implicit Types (g : Graph) (key : Z).

Definition with_rest (r : Rest) g : Graph := mkKGraph (k_inner g) (k_revision g) r.
Definition with_facets f g : Graph :=
  with_rest (mkRest f (url_to_nodes (k_rest g)) (import_records (k_rest g)) (fields (k_rest g)) (couplings (k_rest g)) (nav (k_rest g)) (current_session (k_rest g))) g.
Definition with_urls u g : Graph :=
  with_rest (mkRest (r_facets (k_rest g)) u (import_records (k_rest g)) (fields (k_rest g)) (couplings (k_rest g)) (nav (k_rest g)) (current_session (k_rest g))) g.
Definition with_import_records rs g : Graph :=
  with_rest (mkRest (r_facets (k_rest g)) (url_to_nodes (k_rest g)) rs (fields (k_rest g)) (couplings (k_rest g)) (nav (k_rest g)) (current_session (k_rest g))) g.
Definition with_fields f c g : Graph :=
  with_rest (mkRest (r_facets (k_rest g)) (url_to_nodes (k_rest g)) (import_records (k_rest g)) f c (nav (k_rest g)) (current_session (k_rest g))) g.
Definition with_nav m g : Graph :=
  with_rest (mkRest (r_facets (k_rest g)) (url_to_nodes (k_rest g)) (import_records (k_rest g)) (fields (k_rest g)) (couplings (k_rest g)) m (current_session (k_rest g))) g.
Definition set_current_session session g : Graph :=
  with_rest (mkRest (r_facets (k_rest g)) (url_to_nodes (k_rest g)) (import_records (k_rest g)) (fields (k_rest g)) (couplings (k_rest g)) (nav (k_rest g)) session) g.

Definition kernel_new : Graph := mkKGraph graph_new 0 (mkRest ∅ ∅ [] ∅ ∅ nav_empty 0).

Definition get_node g key : option (Node U) := graph_node (k_inner g) key.
Definition node_id_of g key : option U := n_id <$> get_node g key.
(** Writing through [node_mut]. *)
Definition put_node key (n : Node U) g : Graph := with_inner (mkGraph (set_node key n (inner (k_inner g))) (by_id (k_inner g))) g.

(** *** Typed facets (node_facets.rs) *)

Definition node_facet {T} `{Facet J T} g key (facet : string) : option T :=
  id ← node_id_of g key; v ← facet_get (r_facets (k_rest g)) id facet; from_value v.
Definition node_facet_or {T} `{Facet J T} (d : T) g key (facet : string) : T := default d (node_facet g key facet).

(** [apply.rs]'s setter of any facet, and [Graph::set_node_facet] of a kernel one. *)
Definition set_node_facet_value g key (facet : string) (value : J) : Graph * bool :=
  match node_id_of g key with
  | None => (g, false)
  | Some id =>
      if bool_decide (facet_get (r_facets (k_rest g)) id facet = Some value) then (g, false)
      else match facet_set (r_facets (k_rest g)) id facet value accept_all with
           | Ok st => (with_facets st g, true)
           | Err _ => (g, false)
           end
  end.
Definition set_node_facet {T} `{Facet J T} g key (facet : string) (value : T) : Graph * bool :=
  set_node_facet_value g key facet (to_value value).

Definition remove_node_facet g key (facet : string) : Graph * bool :=
  match node_id_of g key with
  | None => (g, false)
  | Some id => let '(old, st) := facet_remove (r_facets (k_rest g)) id facet in (with_facets st g, bool_decide (is_Some old))
  end.

(** *** Node properties (node_props.rs) *)

Definition set_node_title g key (title : string) : Graph * bool :=
  match get_node g key with
  | None => (g, false)
  | Some n => if bool_decide (n_title n = title) then (g, false) else (put_node key (node_with_title title n) g, true)
  end.

Definition set_node_image g key (role : ImageRole) (image : ImageRef) : Graph * bool :=
  match get_node g key with
  | None => (g, false)
  | Some n => if bool_decide (n_images n !! role = Some image) then (g, false)
              else (put_node key (node_with_images (<[role := image]> (n_images n)) n) g, true)
  end.

Definition set_node_nested g key (nested : option string) : Graph * bool :=
  match get_node g key with
  | None => (g, false)
  | Some n => if bool_decide (n_nested n = nested) then (g, false) else (put_node key (node_with_nested nested n) g, true)
  end.

Definition set_node_mime_hint g key (mime_hint : option string) : Graph * bool :=
  match get_node g key with
  | None => (g, false)
  | Some n => if bool_decide (n_media_type n = mime_hint) then (g, false) else (put_node key (node_with_media_type mime_hint n) g, true)
  end.

Definition set_node_content g key (content : option Z) : Graph * bool :=
  match get_node g key with
  | None => (g, false)
  | Some n => if bool_decide (n_content n = content) then (g, false)
              else (put_node key (node_with_content content (match content with Some _ => None | None => n_body n end) n) g, true)
  end.

Definition set_node_body g key (body : option string) : Graph * bool :=
  match get_node g key with
  | None => (g, false)
  | Some n =>
      let clears_content := bool_decide (is_Some body) && bool_decide (is_Some (n_content n)) in
      if bool_decide (n_body n = body) && negb clears_content then (g, false)
      else (put_node key (node_with_content (match body with Some _ => None | None => n_content n end) body n) g, true)
  end.

Definition node_is_pinned g key : option bool := _ ← get_node g key; Some (node_facet_or false g key ARRANGEMENT_PIN).
Definition set_node_pinned g key (is_pinned : bool) : Graph * bool :=
  match get_node g key with
  | None => (g, false)
  | Some _ => if bool_decide (node_is_pinned g key = Some is_pinned) then (g, false) else set_node_facet g key ARRANGEMENT_PIN is_pinned
  end.

Definition frame_layout_hints g key : option (list FrameLayoutHint) := _ ← get_node g key; Some (node_facet_or [] g key ARRANGEMENT_FRAME_LAYOUT).
Definition append_frame_layout_hint g key (hint : FrameLayoutHint) : Graph * bool :=
  match get_node g key with
  | None => (g, false)
  | Some _ => set_node_facet g key ARRANGEMENT_FRAME_LAYOUT (node_facet_or [] g key ARRANGEMENT_FRAME_LAYOUT ++ [hint])
  end.
Definition remove_frame_layout_hint_at g key (hint_index : nat) : Graph * bool :=
  match get_node g key with
  | None => (g, false)
  | Some _ =>
      let hints : list FrameLayoutHint := node_facet_or [] g key ARRANGEMENT_FRAME_LAYOUT in
      if bool_decide (length hints ≤ hint_index)%nat then (g, false)
      else set_node_facet g key ARRANGEMENT_FRAME_LAYOUT (delete hint_index hints)
  end.
Definition move_frame_layout_hint g key (from_index to_index : nat) : Graph * bool :=
  match get_node g key with
  | None => (g, false)
  | Some _ =>
      let hints : list FrameLayoutHint := node_facet_or [] g key ARRANGEMENT_FRAME_LAYOUT in
      if bool_decide (length hints ≤ from_index)%nat || bool_decide (length hints ≤ to_index)%nat || bool_decide (from_index = to_index)
      then (g, false)
      else match hints !! from_index with
           | None => (g, false)
           | Some hint => let rest := delete from_index hints in
                          set_node_facet g key ARRANGEMENT_FRAME_LAYOUT (take to_index rest ++ hint :: drop to_index rest)
           end
  end.

Definition frame_split_offer_suppressed g key : option bool :=
  _ ← get_node g key; Some (node_facet_or false g key ARRANGEMENT_SPLIT_OFFER_SUPPRESSED).
Definition set_frame_split_offer_suppressed g key (suppressed : bool) : Graph * bool :=
  match get_node g key with
  | None => (g, false)
  | Some _ => if bool_decide (frame_split_offer_suppressed g key = Some suppressed) then (g, false)
              else set_node_facet g key ARRANGEMENT_SPLIT_OFFER_SUPPRESSED suppressed
  end.

Definition insert_node_tag g key (tag : string) : Graph * bool :=
  match get_node g key with
  | None => (g, false)
  | Some n =>
      if bool_decide (tag ∈ n_tags n) then (g, false)
      else let g := put_node key (node_with_tags ({[tag]} ∪ n_tags n) n) g in
           let presentation := node_facet_or presentation_default g key PRESENTATION_TAGS in
           if bool_decide (tag ∈ ordered_tags presentation) then (g, true)
           else ((set_node_facet g key PRESENTATION_TAGS
                    (mkPresentation (ordered_tags presentation ++ [tag]) (icon_overrides presentation))).1, true)
  end.

Definition remove_node_tag g key (tag : string) : Graph * bool :=
  match get_node g key with
  | None => (g, false)
  | Some n =>
      if negb (bool_decide (tag ∈ n_tags n)) then (g, false)
      else let g := put_node key (node_with_tags (n_tags n ∖ {[tag]}) n) g in
           let presentation := node_facet_or presentation_default g key PRESENTATION_TAGS in
           ((set_node_facet g key PRESENTATION_TAGS
               (mkPresentation (filter (λ t, t ≠ tag) (ordered_tags presentation)) (delete tag (icon_overrides presentation)))).1, true)
  end.

Definition refresh_property (existing p : NodeProperty) : NodeProperty :=
  mkProperty (pr_statement_id existing) (pr_predicate existing) (pr_value existing) (pr_datatype existing) (pr_lang existing)
    (pr_graph_scope existing) (pr_provenance_iri p) (pr_asserted_at_ms p).
Definition append_node_property g key (property : NodeProperty) : Graph * bool :=
  match get_node g key with
  | None => (g, false)
  | Some _ =>
      let properties : list NodeProperty := node_facet_or [] g key SEMANTIC_PROPERTIES in
      match list_find (λ p, property_content p = property_content property) properties with
      | Some (i, existing) =>
          if bool_decide (pr_provenance_iri existing ≠ pr_provenance_iri property) ||
             bool_decide (pr_asserted_at_ms existing ≠ pr_asserted_at_ms property)
          then set_node_facet g key SEMANTIC_PROPERTIES (<[i := refresh_property existing property]> properties)
          else (g, false)
      | None => set_node_facet g key SEMANTIC_PROPERTIES (properties ++ [property])
      end
  end.

Definition names_classification (scheme : ClassificationScheme) (value : string) (c : NodeClassification) : bool :=
  bool_decide (nc_scheme c = scheme) && bool_decide (nc_value c = value).
Definition with_status status (c : NodeClassification) : NodeClassification :=
  mkClassification (nc_scheme c) (nc_value c) (nc_label c) (nc_confidence c) (nc_provenance c) status (nc_primary c).
Definition with_primary primary (c : NodeClassification) : NodeClassification :=
  mkClassification (nc_scheme c) (nc_value c) (nc_label c) (nc_confidence c) (nc_provenance c) (nc_status c) primary.
Abbreviation classifications g key := (node_facet_or (T := list NodeClassification) [] g key SEMANTIC_CLASSIFICATIONS).

Definition add_node_classification g key (c : NodeClassification) : Graph * bool :=
  match get_node g key with
  | None => (g, false)
  | Some _ => if existsb (names_classification (nc_scheme c) (nc_value c)) (classifications g key) then (g, false)
              else set_node_facet g key SEMANTIC_CLASSIFICATIONS (classifications g key ++ [c])
  end.
Definition remove_node_classification g key (scheme : ClassificationScheme) (value : string) : Graph * bool :=
  match get_node g key with
  | None => (g, false)
  | Some _ => let kept := filter (λ c, negb (names_classification scheme value c) = true) (classifications g key) in
              if bool_decide (length kept = length (classifications g key)) then (g, false)
              else set_node_facet g key SEMANTIC_CLASSIFICATIONS kept
  end.
Definition set_node_classification_status g key (scheme : ClassificationScheme) (value : string) (status : ClassificationStatus) : Graph * bool :=
  match get_node g key with
  | None => (g, false)
  | Some _ =>
      let cs := (λ c, if names_classification scheme value c then with_status status c else c) <$> classifications g key in
      if existsb (names_classification scheme value) (classifications g key) then set_node_facet g key SEMANTIC_CLASSIFICATIONS cs else (g, false)
  end.
Definition set_node_primary_classification g key (scheme : ClassificationScheme) (value : string) : Graph * bool :=
  match get_node g key with
  | None => (g, false)
  | Some _ =>
      let cs := (λ c, if bool_decide (nc_scheme c = scheme) then with_primary (bool_decide (nc_value c = value)) c else c) <$> classifications g key in
      if existsb (names_classification scheme value) (classifications g key) then set_node_facet g key SEMANTIC_CLASSIFICATIONS cs else (g, false)
  end.

Definition record_derivation g key (derivation : NodeDerivation) : Graph * bool :=
  match get_node g key with
  | None => (g, false)
  | Some _ => let ds := node_facet_or [] g key PROVENANCE_DERIVATIONS in
              if bool_decide (derivation ∈ ds) then (g, false) else set_node_facet g key PROVENANCE_DERIVATIONS (ds ++ [derivation])
  end.

Definition set_node_tag_icon_override g key (tag : string) (icon : option BadgeIcon) : Graph * bool :=
  match get_node g key with
  | None => (g, false)
  | Some n =>
      if negb (bool_decide (tag ∈ n_tags n)) || starts_with "#" tag || starts_with "udc:" tag then (g, false)
      else let p := node_facet_or presentation_default g key PRESENTATION_TAGS in
           match icon with
           | Some icon => if bool_decide (icon_overrides p !! tag = Some icon) then (g, false)
                          else set_node_facet g key PRESENTATION_TAGS (mkPresentation (ordered_tags p) (<[tag := icon]> (icon_overrides p)))
           | None => if bool_decide (icon_overrides p !! tag = None) then (g, false)
                     else set_node_facet g key PRESENTATION_TAGS (mkPresentation (ordered_tags p) (delete tag (icon_overrides p)))
           end
  end.

Abbreviation visit_history g key := (node_facet_or visit_history_default g key VISIT_HISTORY).
Definition set_node_last_visited_at_ms g key (at_ms : Z) : Graph * bool :=
  match get_node g key with
  | None => (g, false)
  | Some _ => set_node_facet g key VISIT_HISTORY (mkVisitHistory (Some at_ms) (last_session_visited (visit_history g key)))
  end.
Definition touch_node_last_visited_now (env : Env U) g key : Graph * bool := set_node_last_visited_at_ms g key (now_ms env).
Definition set_node_last_session_visited g key (session : Z) : Graph * bool :=
  match get_node g key with
  | None => (g, false)
  | Some _ => if bool_decide (last_session_visited (visit_history g key) = session) then (g, false)
              else set_node_facet g key VISIT_HISTORY (mkVisitHistory (last_visited_ms (visit_history g key)) session)
  end.
Definition node_last_visited g key : option Z := _ ← get_node g key; last_visited_ms (visit_history g key).
Definition node_last_session_visited g key : option Z := _ ← get_node g key; Some (last_session_visited (visit_history g key)).

(** The removal of the old history comes first; either half may panic. *)
Definition set_node_history_state g key (entries : list string) (index : nat) : option (Graph * bool) :=
  match node_id_of g key with
  | None => Some (g, false)
  | Some id =>
      let clamped := match entries with [] => 0%nat | _ => Nat.min index (length entries - 1) end in
      cur ← nav_projection (M := M) (nav (k_rest g)) id;
      if bool_decide (np_entries cur = entries) && bool_decide (np_current_index cur = clamped) then Some (g, false)
      else m ← nav_remove (M := M) (nav (k_rest g)) id; m ← nav_seed_linear (M := M) m id entries clamped; Some (with_nav m g, true)
  end.

(** *** Lifecycle and the URL index (mod.rs) *)

Definition push_url (url : string) key g : Graph :=
  with_urls (<[url := default [] (url_to_nodes (k_rest g) !! url) ++ [key]]> (url_to_nodes (k_rest g))) g.
Definition remove_url_mapping (url : string) key g : Graph :=
  match url_to_nodes (k_rest g) !! url with
  | None => g
  | Some keys => let keys := filter (λ k, k ≠ key) keys in
                 with_urls (match keys with [] => delete url (url_to_nodes (k_rest g)) | _ => <[url := keys]> (url_to_nodes (k_rest g)) end) g
  end.

Definition new_node (id : U) (url : string) : Node U :=
  mkNode id [address_from_url url] None None (detect_mime url None) url ∅ None ∅.

Definition add_node_with_id (env : Env U) g (id : U) (url : string) : Graph * Z :=
  let '(key, i) := graph_insert n_id (k_inner g) (new_node id url) in
  let g := with_inner i g in
  let g := (set_node_last_visited_at_ms g key (now_ms env)).1 in
  (bump_revision (push_url url key g), key).
Definition add_node (env : Env U) g (url : string) : Graph * Z := add_node_with_id env g (new_uuid env) url.
Definition replay_add_node_with_id_if_missing (env : Env U) g (id : U) (url : string) : Graph * option Z :=
  match get_node_key_by_id g id with
  | Some _ => (g, None)
  | None => let '(g, key) := add_node_with_id env g id url in (g, Some key)
  end.

(** Dropping a removed node from the import records. *)
Definition forget_member (removed_id : string) (rs : list ImportRecord) : list ImportRecord :=
  filter (λ r, ir_memberships r ≠ [])
    ((λ r, with_memberships (filter (λ m, im_node_id m ≠ removed_id) (ir_memberships r)) r) <$> rs).

Definition remove_node g key : Graph * bool :=
  match graph_remove n_id (k_inner g) key with
  | (Some n, i) =>
      let g := with_inner i g in
      let g := fold_left (λ g a, remove_url_mapping (as_url_str a) key g) (n_addresses n) g in
      let g := with_facets (facet_remove_node (r_facets (k_rest g)) (n_id n)) g in
      let g := with_import_records (forget_member (uuid_to_string (n_id n)) (import_records (k_rest g))) g in
      (bump_revision g, true)
  | (None, _) => (g, false)
  end.
Definition replay_remove_node_by_id g (id : U) : Graph * bool :=
  match get_node_key_by_id g id with None => (g, false) | Some key => remove_node g key end.

Definition update_node_url g key (new_url : string) : option (Graph * option string) :=
  match get_node g key with
  | None => Some (g, None)
  | Some n =>
      old ← as_url_str <$> primary_address n;
      let images := if bool_decide (cached_host_from_url old ≠ cached_host_from_url new_url) then delete Favicon (n_images n) else n_images n in
      let addresses := match n_addresses n with [] => [] | _ :: aliases => address_from_url new_url :: aliases end in
      let g := put_node key (node_with_addresses addresses (node_with_images images n)) g in
      Some (push_url new_url key (remove_url_mapping old key g), Some old)
  end.

Definition get_nodes_by_url g (url : string) : list Z := default [] (url_to_nodes (k_rest g) !! url).
Definition find_node_by_address g (a : Address) : option (Z * Node U) :=
  keys ← url_to_nodes (k_rest g) !! as_url_str a; key ← last keys; n ← get_node g key; Some (key, n).
Definition get_node_by_url g (url : string) : option (Z * Node U) := find_node_by_address g (address_from_url url).

(** *** Import records (import_records.rs) *)

Definition provenance_le : relation NodeImportProvenance :=
  λ a b, lex_le string_le string_le (ip_source_id a, ip_source_label a) (ip_source_id b, ip_source_label b).
#[export] Instance provenance_le_dec : RelDecision provenance_le.
Proof. intros a b. unfold provenance_le, lex_le, strict. apply _. Defined.

Fixpoint dedup_adjacent (l : list NodeImportProvenance) : list NodeImportProvenance :=
  match l with
  | [] => []
  | x :: l => match dedup_adjacent l with
              | y :: k => if bool_decide (x = y) then y :: k else x :: y :: k
              | [] => [x]
              end
  end.
Definition sort_dedup (l : list NodeImportProvenance) : list NodeImportProvenance := dedup_adjacent (merge_sort provenance_le l).

(** One membership's contribution to [provenance_by_node]. *)
Definition add_provenance g (r : ImportRecord) (acc : gmap Z (list NodeImportProvenance)) (m : ImportRecordMembership) : gmap Z (list NodeImportProvenance) :=
  if im_suppressed m then acc
  else match uuid_parse (im_node_id m) ≫= get_node_key_by_id g with
       | None => acc
       | Some key => <[key := default [] (acc !! key) ++ [mkImportProvenance (ir_source_id r) (ir_source_label r)]]> acc
       end.
Definition provenance_by_node g : gmap Z (list NodeImportProvenance) :=
  fold_left (λ acc r, fold_left (add_provenance g r) (ir_memberships r) acc) (import_records (k_rest g)) ∅.

Definition sync_node_import_provenance_from_records g : Graph :=
  let by_node := provenance_by_node g in
  fold_left (λ g key, (set_node_facet g key PROVENANCE_IMPORT (sort_dedup (default [] (by_node !! key)))).1)
    (node_indices (inner (k_inner g))) g.

Definition delete_import_record g (record_id : string) : Graph * bool :=
  let rs := filter (λ r, ir_record_id r ≠ record_id) (import_records (k_rest g)) in
  if bool_decide (length rs = length (import_records (k_rest g))) then (g, false)
  else (sync_node_import_provenance_from_records (with_import_records rs g), true).

(** The first membership of the node, and whether it changed. *)
Fixpoint suppress_first (node_id : string) (suppressed : bool) (l : list ImportRecordMembership) : list ImportRecordMembership * bool :=
  match l with
  | [] => ([], false)
  | m :: l =>
      if bool_decide (im_node_id m = node_id)
      then (mkMembership (im_node_id m) suppressed :: l, bool_decide (im_suppressed m ≠ suppressed))
      else let '(l, c) := suppress_first node_id suppressed l in (m :: l, c)
  end.
Definition suppress_in (record_id node_id : string) (suppressed : bool) (r : ImportRecord) : ImportRecord * bool :=
  if bool_decide (ir_record_id r = record_id)
  then let '(ms, c) := suppress_first node_id suppressed (ir_memberships r) in (with_memberships ms r, c)
  else (r, false).
Definition set_import_record_membership_suppressed g (record_id : string) key (suppressed : bool) : Graph * bool :=
  match node_id_of g key with
  | None => (g, false)
  | Some id =>
      let rs := suppress_in record_id (uuid_to_string id) suppressed <$> import_records (k_rest g) in
      let g := with_import_records rs.*1 g in
      if existsb snd rs then (sync_node_import_provenance_from_records g, true) else (g, false)
  end.

Definition set_import_records g (rs : list ImportRecord) : Graph * bool :=
  let rs := normalize_import_records rs in
  if bool_decide (import_records (k_rest g) = rs) then (g, false)
  else (sync_node_import_provenance_from_records (with_import_records rs g), true).

Definition node_import_provenance g key : option (list NodeImportProvenance) :=
  _ ← get_node g key; Some (node_facet_or [] g key PROVENANCE_IMPORT).

(** The ids and times of the records there are, by source. *)
Definition record_meta (rs : list ImportRecord) : gmap (string * string) (string * Z) :=
  fold_left (λ m r, <[(ir_source_id r, ir_source_label r) := (ir_record_id r, ir_imported_at_secs r)]> m) rs ∅.
Definition group_node (m : gmap (string * string) (list ImportRecordMembership)) (ip : U * list NodeImportProvenance)
  : gmap (string * string) (list ImportRecordMembership) :=
  fold_left (λ m p, let k := (ip_source_id p, ip_source_label p) in
                    <[k := default [] (m !! k) ++ [mkMembership (uuid_to_string ip.1) false]]> m) ip.2 m.
Definition rebuild_import_records_from_node_provenance g (imported_at_secs : Z) : Graph :=
  let meta := record_meta (import_records (k_rest g)) in
  let grouped := fold_left group_node
    ((λ kn, (n_id kn.2, default [] (node_import_provenance g kn.1))) <$> graph_nodes (k_inner g)) ∅ in
  let rs := (λ e : string * string * list ImportRecordMembership,
               let '(record_id, at_secs) := default ("import-record:" +:+ e.1.1, imported_at_secs) (meta !! e.1) in
               mkImportRecord record_id e.1.1 e.1.2 at_secs e.2)
            <$> merge_sort (λ a b, lex_le string_le string_le a.1 b.1) (map_to_list grouped) in
  sync_node_import_provenance_from_records (with_import_records (normalize_import_records rs) g).

Definition set_node_import_provenance (env : Env U) g key (ps : list NodeImportProvenance) : Graph * bool :=
  match get_node g key with
  | None => (g, false)
  | Some _ =>
      let normalized := sort_dedup ps in
      if bool_decide (default [] (node_import_provenance g key) = normalized) then (g, false)
      else (rebuild_import_records_from_node_provenance (set_node_facet g key PROVENANCE_IMPORT normalized).1 (now_secs env), true)
  end.

(** *** Fields and couplings (field_ops.rs) *)

Definition add_field g (f : Field U D) : Graph := with_fields (<[fi_id f := f]> (fields (k_rest g))) (couplings (k_rest g)) g.
Definition set_field_lifecycle g (id : U) (l : FieldLifecycle) : Graph * bool :=
  match fields (k_rest g) !! id with
  | Some f => (with_fields (<[id := mkField (fi_id f) (fi_name f) (fi_definition f) (fi_extent f) l]> (fields (k_rest g))) (couplings (k_rest g)) g, true)
  | None => (g, false)
  end.
Definition retire_field g (id : U) : Graph * bool := set_field_lifecycle g id FieldRetired.
Definition activate_field g (id : U) : Graph * bool := set_field_lifecycle g id FieldActive.
Definition add_coupling g (c : Coupling U) : Graph := with_fields (fields (k_rest g)) (<[co_id c := c]> (couplings (k_rest g))) g.
Definition retract_coupling g (id : U) : Graph * bool :=
  (with_fields (fields (k_rest g)) (delete id (couplings (k_rest g))) g, bool_decide (is_Some (couplings (k_rest g) !! id))).
Definition set_field_coupling_strength g (field : U) (strength : Z) : Graph * bool :=
  (with_fields (fields (k_rest g))
     ((λ c, if bool_decide (co_field c = field) then mkCoupling (co_id c) (co_field c) (co_selector c) (co_response c) strength else c) <$> couplings (k_rest g)) g,
   existsb (λ ic, bool_decide (co_field ic.2 = field)) (map_to_list (couplings (k_rest g)))).
Definition nodes_matching g (s : NodeSelector) : list Z :=
  filter (λ key, match get_node g key with
                 | None => false
                 | Some n => match s with
                             | SelAll => true
                             | SelTagged tag => bool_decide (tag ∈ n_tags n)
                             | SelNotTagged tag => negb (bool_decide (tag ∈ n_tags n))
                             | SelKind kind => existsb (λ c, bool_decide (nc_value c = kind)) (classifications g key)
                             end
                 end = true) (node_indices (inner (k_inner g))).
End ops.
