(* ===== verification/KernelImports.v ===== *)
(** Import records in normal form
    (crates/graph/graph-kernel/src/graph/{mod,import_records}.rs).

    The table of import records is kept normalized: memberships sorted with one
    per node, records sorted with one per id.  Normalization produces that form and
    leaves it alone, and the edits of the table keep it. *)

From S2P Require Import Prelude Wire KernelNode.

Local Open Scope Z_scope.

(** ** Orders by a key *)

#[export] Instance string_le_order : TotalOrder string_le.
Proof.
  split; [split; [split|]|].
  - intros a. unfold string_le. by destruct (String.leb_total a a).
  - apply _.
  - intros a b. apply String.leb_antisym.
  - intros a b. destruct (decide (a = b)) as [->|Hne]; [by right; left|].
    destruct (String.leb_total a b) as [Hab|Hab]; [left|right; right]; (split; [done|]); intros Hba; apply Hne; by apply String.leb_antisym.
Qed.

Section keyed.
Context {A B : Type} (key : A → B) (S : relation B) `{!TotalOrder S}.
Context (R : relation A) (R_key : ∀ x y, R x y ↔ S (key x) (key y)).

Lemma order_total x y : S x y ∨ S y x.
Proof. destruct (trichotomy (strict S) x y) as [[? _]|[->|[? _]]]; [by left|by left|by right]. Qed.

Lemma keyed_total : Total R.
Proof. intros x y. rw !R_key. apply order_total. Qed.
Lemma keyed_trans : Transitive R.
Proof. intros x y z. rw !R_key. apply transitivity. Qed.

(** A list sorted by keys that are all different is the only sorted permutation. *)
Lemma keyed_sort_id `{!RelDecision R} l k : StronglySorted R l → NoDup (key <$> l) → k ≡ₚ l → merge_sort R k = l.
Proof.
  intros Hs Hn Hk. apply (StronglySorted_unique_strong R).
  - intros x y Hx Hy H1%R_key H2%R_key. assert (key x = key y) as Heq by by apply (anti_symm S).
    rw merge_sort_Permutation Hk in Hx. apply list_elem_of_lookup in Hx as [i Hi], Hy as [j Hj].
    assert (i = j) as -> by (eapply NoDup_lookup; [exact Hn|by rw list_lookup_fmap Hi|by rw list_lookup_fmap Hj /= Heq]). congruence.
  - apply StronglySorted_merge_sort; [apply keyed_trans|apply keyed_total].
  - done.
  - by rw merge_sort_Permutation.
Qed.
End keyed.

(** ** Memberships *)

Abbreviation member_lt := (λ a b : ImportRecordMembership, strict string_le (im_node_id a) (im_node_id b)).
Abbreviation member_key m := (im_node_id m, Nat.b2n (im_suppressed m)).

Definition members_normal (ms : list ImportRecordMembership) : Prop := StronglySorted member_lt ms.

Lemma merge_members_spec m l :
  StronglySorted membership_le (m :: l) →
  members_normal (merge_members m l) ∧ (∀ x, x ∈ im_node_id <$> merge_members m l ↔ x ∈ im_node_id <$> m :: l) ∧
  (members_normal (m :: l) → merge_members m l = m :: l).
Proof.
  revert m. induction l as [|x l IH]; intros m Hs; cbn [merge_members].
  - split_and!; [repeat constructor|done|done].
  - apply StronglySorted_cons in Hs as [Hm Hs]. apply StronglySorted_cons in Hs as [Hx Hs].
    apply Forall_cons in Hm as [Hmx Hm]. case_bool_decide as Heq.
    + set (m' := mkMembership _ _). destruct (IH m') as (Hn & Hi & _).
      { apply StronglySorted_cons. split; [|done]. rw Forall_forall. intros y Hy. rw Forall_forall in Hm. rw Forall_forall in Hx.
        specialize (Hm y Hy). specialize (Hx y Hy). unfold membership_le, lex_le in *. cbn in *. subst m'. cbn. rw Heq in Hm |- *.
        destruct Hm as [?|[-> ?]]; [by left|]. right. split; [done|].
        destruct (im_suppressed m), (im_suppressed x), (im_suppressed y); cbn in *; lia. }
      split_and!; [done| |].
      * intros y. rw Hi. cbn. rw !elem_of_cons Heq. naive_solver.
      * intros [Hlt _]%StronglySorted_cons. apply Forall_cons in Hlt as [[_ []] _]. by rw Heq.
    + destruct (IH x) as (Hn & Hi & Hid); [by apply StronglySorted_cons|].
      assert (∀ y, y ∈ x :: l → strict string_le (im_node_id m) (im_node_id y)) as Hlt.
      { assert (strict string_le (im_node_id m) (im_node_id x)) as Hmx' by (destruct Hmx as [?|[? _]]; done).
        intros y [->|Hy]%elem_of_cons; [done|]. rw Forall_forall in Hx. destruct (Hx y Hy) as [?|[Hxy _]]; cbn in *; [by transitivity (im_node_id x)|].
        by rw -Hxy. }
      split_and!.
      * apply StronglySorted_cons. split; [|done]. rw Forall_forall. intros y Hy.
        assert (im_node_id y ∈ im_node_id <$> x :: l) as (z & -> & Hz)%list_elem_of_fmap by (apply Hi; by apply list_elem_of_fmap_2). by apply Hlt.
      * intros y. cbn. rw !elem_of_cons Hi. cbn. by rw elem_of_cons.
      * intros [_ Hr]%StronglySorted_cons. by rw Hid.
Qed.

Lemma membership_sort_sorted l : StronglySorted membership_le (merge_sort membership_le l).
Proof. apply StronglySorted_merge_sort; [by apply (keyed_trans (λ m, member_key m) (lex_le string_le Nat.le))|by apply (keyed_total (λ m, member_key m) (lex_le string_le Nat.le))]. Qed.

Lemma normalize_members_normal l : members_normal (normalize_import_record_memberships l).
Proof.
  unfold normalize_import_record_memberships. pose proof (membership_sort_sorted l) as Hs. destruct (merge_sort _ l); [constructor|].
  by apply merge_members_spec.
Qed.

Lemma normalize_members_ids l x : x ∈ im_node_id <$> normalize_import_record_memberships l ↔ x ∈ im_node_id <$> l.
Proof.
  unfold normalize_import_record_memberships. pose proof (membership_sort_sorted l) as Hs. pose proof (merge_sort_Permutation membership_le l) as Hp.
  destruct (merge_sort _ l) as [|m k]; rw -Hp; [done|]. by apply merge_members_spec.
Qed.

Lemma member_lt_le ms : members_normal ms → StronglySorted membership_le ms.
Proof. induction 1 as [|m ms _ IH HF]; constructor; [done|]. eapply Forall_impl; [exact HF|]. intros y Hy. by left. Qed.

Lemma member_lt_NoDup ms : members_normal ms → NoDup (im_node_id <$> ms).
Proof.
  induction 1 as [|m ms _ IH HF]; cbn; [constructor|]. apply NoDup_cons. split; [|done]. intros (y & Heq & Hy)%list_elem_of_fmap.
  rw Forall_forall in HF. destruct (HF y Hy) as [_ Hn]. apply Hn. by rw Heq.
Qed.

Lemma normalize_members_id ms : members_normal ms → normalize_import_record_memberships ms = ms.
Proof.
  intros Hn. unfold normalize_import_record_memberships.
  rw (keyed_sort_id (λ m, member_key m) (lex_le string_le Nat.le) membership_le _ ms ms) //.
  - destruct ms as [|m ms]; [done|]. apply merge_members_spec; [by apply member_lt_le|done].
  - by apply member_lt_le.
  - apply (NoDup_fmap_1 fst). rw -list_fmap_compose. by apply member_lt_NoDup.
Qed.

Lemma filter_sorted {A} (R : relation A) (P : A → Prop) `{∀ x, Decision (P x)} l : StronglySorted R l → StronglySorted R (filter P l).
Proof.
  induction 1 as [|x l _ IH HF]; [constructor|]. rw filter_cons. case_decide; [|done]. constructor; [done|].
  rw Forall_forall in HF. rw Forall_forall. intros y [_ Hy]%list_elem_of_filter. by apply HF.
Qed.

Lemma suppress_first_ids n b l : im_node_id <$> (suppress_first n b l).1 = im_node_id <$> l.
Proof.
  induction l as [|m l IH]; [done|]. cbn. case_bool_decide; [done|]. destruct (suppress_first n b l). cbn in *. by rw IH.
Qed.

Lemma members_normal_by_ids l : members_normal l ↔ StronglySorted (strict string_le) (im_node_id <$> l).
Proof.
  induction l as [|m l IH]; [split; constructor|]. cbn [fmap list_fmap]. rw StronglySorted_cons Forall_fmap -IH. unfold members_normal. by rw StronglySorted_cons.
Qed.

Lemma members_normal_ids l k : im_node_id <$> l = im_node_id <$> k → members_normal l → members_normal k.
Proof. rw !members_normal_by_ids. by intros ->. Qed.

(** ** Records *)

Definition records_normal (rs : list ImportRecord) : Prop :=
  StronglySorted record_le rs ∧ NoDup (ir_record_id <$> rs) ∧
  ∀ r, r ∈ rs → is_blank (ir_record_id r) = false ∧ members_normal (ir_memberships r).

Abbreviation record_key r := (ir_source_label r, ir_imported_at_secs r, ir_record_id r).
Abbreviation normalize_members r := (with_memberships (normalize_import_record_memberships (ir_memberships r)) r).

(** The node ids a table mentions. *)
Definition mentions (rs : list ImportRecord) (x : string) : Prop := ∃ r, r ∈ rs ∧ x ∈ im_node_id <$> ir_memberships r.

Lemma file_record_inv merged r :
  map_Forall (λ k e, ir_record_id e = k ∧ is_blank k = false) merged → map_Forall (λ k e, ir_record_id e = k ∧ is_blank k = false) (file_record merged r).
Proof.
  intros Hm. unfold file_record. destruct (is_blank _) eqn:Eb; [done|]. apply map_Forall_insert_2; [|done]. cbn. split; [|done].
  cbn in Eb. destruct (merged !! ir_record_id r) as [e|] eqn:Ee; [|done]. by apply Hm in Ee as [He _].
Qed.

Lemma file_record_mentions merged r x :
  (∃ k e, file_record merged r !! k = Some e ∧ x ∈ im_node_id <$> ir_memberships e) →
  (∃ k e, merged !! k = Some e ∧ x ∈ im_node_id <$> ir_memberships e) ∨ x ∈ im_node_id <$> ir_memberships r.
Proof.
  intros (k & e & He & Hx). unfold file_record in He. cbn in He. destruct (is_blank _); [by left; exists k, e|].
  apply lookup_insert_Some in He as [[<- <-]|[_ He]]; [|by left; exists k, e]. cbn in Hx. rw fmap_app elem_of_app normalize_members_ids in Hx.
  destruct Hx as [Hx|Hx]; [left|by right]. destruct (merged !! ir_record_id r) as [e0|] eqn:Ee; cbn in Hx; [eauto|by apply elem_of_nil in Hx].
Qed.

Lemma file_records_inv rs merged :
  map_Forall (λ k e, ir_record_id e = k ∧ is_blank k = false) merged →
  map_Forall (λ k e, ir_record_id e = k ∧ is_blank k = false) (fold_left file_record rs merged) ∧
  ∀ x, (∃ k e, fold_left file_record rs merged !! k = Some e ∧ x ∈ im_node_id <$> ir_memberships e) →
       (∃ k e, merged !! k = Some e ∧ x ∈ im_node_id <$> ir_memberships e) ∨ mentions rs x.
Proof.
  revert merged. induction rs as [|r rs IH]; intros merged Hm; cbn; [split; [done|by left]|].
  destruct (IH (file_record merged r)) as [H1 H2]; [by apply file_record_inv|]. split; [done|]. intros x [Hx%file_record_mentions|(r' & Hr & Hx)]%H2.
  - destruct Hx as [?|Hx]; [by left|]. right. exists r. split; [by left|done].
  - right. exists r'. split; [by right|done].
Qed.

Lemma record_sort_sorted l : StronglySorted record_le (merge_sort record_le l).
Proof.
  apply StronglySorted_merge_sort; [by apply (keyed_trans (λ r, record_key r) (lex_le (lex_le string_le Z.le) string_le))|
    by apply (keyed_total (λ r, record_key r) (lex_le (lex_le string_le Z.le) string_le))].
Qed.

Lemma map_values_ids (m : gmap string ImportRecord) :
  map_Forall (λ k e, ir_record_id e = k ∧ is_blank k = false) m → ir_record_id <$> (map_to_list m).*2 = (map_to_list m).*1.
Proof.
  intros Hm. rw -!list_fmap_compose. apply list_fmap_ext. intros i [k e] Hi. apply list_elem_of_lookup_2, elem_of_map_to_list in Hi.
  by apply Hm in Hi as [? _].
Qed.

Lemma normalize_records_normal rs : records_normal (normalize_import_records rs).
Proof.
  destruct (file_records_inv rs ∅) as [Hm _]; [apply map_Forall_empty|]. unfold normalize_import_records.
  set (m := fold_left file_record rs ∅) in *. split_and!; [apply record_sort_sorted| |].
  - rw merge_sort_Permutation -list_fmap_compose. rw (list_fmap_ext _ ir_record_id); [|done]. rw map_values_ids //. apply NoDup_fst_map_to_list.
  - intros r. rw merge_sort_Permutation. intros (e & -> & ([k e'] & -> & He%elem_of_map_to_list)%list_elem_of_fmap)%list_elem_of_fmap. cbn.
    apply Hm in He as [-> Hb]. split; [done|]. apply normalize_members_normal.
Qed.

Lemma normalize_records_mentions rs x : mentions (normalize_import_records rs) x → mentions rs x.
Proof.
  destruct (file_records_inv rs ∅) as [_ Hx]; [apply map_Forall_empty|]. intros (r & Hr & Hin). unfold normalize_import_records in Hr.
  rw merge_sort_Permutation in Hr. apply list_elem_of_fmap in Hr as (e & -> & ([k e'] & -> & He%elem_of_map_to_list)%list_elem_of_fmap). cbn in Hin.
  rw normalize_members_ids in Hin. destruct (Hx x) as [(? & ? & [=] & _)|?]; [|done]. eauto.
Qed.

Lemma merge_record_self r : merge_record (with_memberships [] r) r = r.
Proof.
  destruct r as [i s l t ms]. unfold merge_record. cbn. f_equal.
  - by destruct (empty_string s).
  - by destruct (empty_string l).
  - repeat case_bool_decide; lia.
Qed.

Lemma normalize_members_same r : members_normal (ir_memberships r) → normalize_members r = r.
Proof. intros Hn. rw normalize_members_id //. by destruct r. Qed.

Lemma file_records_distinct rs merged :
  NoDup (ir_record_id <$> rs) → (∀ r, r ∈ rs → is_blank (ir_record_id r) = false ∧ members_normal (ir_memberships r) ∧ merged !! ir_record_id r = None) →
  fold_left file_record rs merged = list_to_map ((λ r, (ir_record_id r, r)) <$> rs) ∪ merged.
Proof.
  revert merged. induction rs as [|r rs IH]; intros merged Hn Hr; cbn; [by rw left_id_L|]. apply NoDup_cons in Hn as [Hi Hn].
  destruct (Hr r) as (Hb & Hm & Hf); [by left|]. assert (file_record merged r = <[ir_record_id r := r]> merged) as ->.
  { unfold file_record. rw normalize_members_same // Hb Hf. cbn. by rw merge_record_self. }
  rw IH //; cycle 1.
  { intros r' Hr'. destruct (Hr r') as (? & ? & ?); [by right|]. split_and!; try done. rw lookup_insert_ne //. intros Heq. apply Hi. rw Heq.
    by apply list_elem_of_fmap_2. }
  rw -insert_union_l -insert_union_r //. apply not_elem_of_list_to_map_1. rw -list_fmap_compose. done.
Qed.

(** A normal table is its own normal form. *)
Lemma normalize_records_id rs : records_normal rs → normalize_import_records rs = rs.
Proof.
  intros (Hs & Hn & Hr). unfold normalize_import_records. rw file_records_distinct //; [|intros r Hin; by destruct (Hr r Hin)].
  rw right_id_L. assert ((map_to_list (list_to_map ((λ r, (ir_record_id r, r)) <$> rs) : gmap string ImportRecord)).*2 ≡ₚ rs) as Hp.
  { rw map_to_list_to_map; [|by rw -list_fmap_compose]. rw -list_fmap_compose. rw (list_fmap_ext _ id); [|done]. by rw list_fmap_id. }
  apply (keyed_sort_id (λ r, record_key r) (lex_le (lex_le string_le Z.le) string_le)); [done|done| |].
  - apply (NoDup_fmap_1 snd). by rw -list_fmap_compose.
  - rw Hp. rw (list_fmap_ext _ id); [by rw list_fmap_id|]. intros i r Hi. apply normalize_members_same, Hr. by apply list_elem_of_lookup_2 in Hi.
Qed.

(** ** Edits of the table *)

Lemma records_normal_filter (P : ImportRecord → Prop) `{∀ r, Decision (P r)} rs : records_normal rs → records_normal (filter P rs).
Proof.
  intros (Hs & Hn & Hr). split_and!; [by apply filter_sorted| |intros r [_ Hin]%list_elem_of_filter; by apply Hr].
  eapply sublist_NoDup; [exact Hn|]. apply fmap_sublist, sublist_filter.
Qed.

(** Rewriting the memberships of each record, keeping them in order. *)
Lemma records_normal_members (f : ImportRecord → list ImportRecordMembership) rs :
  records_normal rs → (∀ r, r ∈ rs → members_normal (f r)) → records_normal ((λ r, with_memberships (f r) r) <$> rs).
Proof.
  intros (Hs & Hn & Hr) Hf. split_and!.
  - eapply StronglySorted_fmap; [|exact Hs]. done.
  - rw -list_fmap_compose. done.
  - intros r (r0 & -> & Hin)%list_elem_of_fmap. cbn. split; [by apply Hr|by apply Hf].
Qed.

Lemma forget_member_normal x rs : records_normal rs → records_normal (forget_member x rs).
Proof.
  intros Hn. apply records_normal_filter. apply (records_normal_members (λ r, filter (λ m, im_node_id m ≠ x) (ir_memberships r))); [done|].
  intros r Hr. apply filter_sorted. by apply Hn.
Qed.

Lemma suppress_in_eq rid n b r :
  (suppress_in rid n b r).1 =
    with_memberships (if bool_decide (ir_record_id r = rid) then (suppress_first n b (ir_memberships r)).1 else ir_memberships r) r.
Proof. unfold suppress_in. case_bool_decide; [by destruct (suppress_first n b _)|]. by destruct r. Qed.

Lemma suppress_normal rid n b rs : records_normal rs → records_normal (suppress_in rid n b <$> rs).*1.
Proof.
  intros Hn. rw -list_fmap_compose. rw (list_fmap_ext _ _ _ (λ i r _, suppress_in_eq rid n b r)).
  apply (records_normal_members (λ r, if bool_decide (ir_record_id r = rid) then _ else _)); [done|]. intros r Hr.
  destruct Hn as (_ & _ & Hm). destruct (Hm r Hr) as [_ Hms]. case_bool_decide; [|done]. eapply members_normal_ids; [|exact Hms].
  by rw suppress_first_ids.
Qed.
