(* ===== verification/KernelDelta.v ===== *)
(** The write path of the graph kernel
    (crates/graph/graph-kernel/src/graph/{apply,capture,journal}.rs, with the
    persisted field types of persistence_fields.rs).

    [GraphDelta] is every durable mutation, by the live graph's keys or by stable
    ids; [apply_graph_delta] applies one and emits what the capture hook is given,
    a [CapturedDelta] that carries stable ids only.  [replay_delta] turns a record
    back into a delta; the journal is a log of attributed records, and the graph is
    its replay.  [None] is a panic.

    JSON text of facet values and of field definitions is a parameter
    ([JsonText], [FieldText]). *)

From S2P Require Import Prelude Wire Journal SlotMap Stemma StableGraph GraphLog KernelEdges KernelGraph KernelNav KernelNode Muniment.

Local Open Scope Z_scope.

Class JsonText (J : Type) : Type := { json_to_string : J → string; json_from_str : string → option J }.
Class FieldText (D : Type) : Type := { definition_to_string : D → option string; definition_from_str : string → option D }.

(** ** Persisted fields (persistence_fields.rs) *)

Inductive PersistedFieldExtent : Type :=
| PGlobal | PRegion (min_x min_y max_x max_y : Z) | PAttachedToNode (node : string) | PPolygon (points : list (Z * Z)).
Inductive PersistedFieldLifecycle : Type := PActive | PRetired.
Record PersistedField : Type := mkPersistedField {
  pf_id : string; pf_name : option string; pf_definition_json : string; pf_extent : PersistedFieldExtent; pf_lifecycle : PersistedFieldLifecycle }.
Inductive PersistedNodeSelector : Type := PSelAll | PSelTagged (tag : string) | PSelKind (kind : string) | PSelNotTagged (tag : string).
Inductive PersistedCouplingResponse : Type :=
| PAttractToMin | PRepelFromMax | PAlignVelocity | PFlowAdvect | PDampenInside (factor : Z) | PContainmentWall | POpen (predicate : string).
Record PersistedCoupling : Type := mkPersistedCoupling {
  pc_id : string; pc_field_id : string; pc_selector : PersistedNodeSelector; pc_response : PersistedCouplingResponse; pc_strength : Z }.

Section persisted.
Context {U : Type} `{UuidText U} {D : Type} `{FieldText D}.

Definition persisted_field_from_field (f : Field U D) : PersistedField :=
  mkPersistedField (uuid_to_string (fi_id f)) (fi_name f) (default "" (definition_to_string (fi_definition f)))
    (match fi_extent f with
     | Global => PGlobal
     | Region a b c d => PRegion a b c d
     | AttachedToNode i => PAttachedToNode (uuid_to_string i)
     | Polygon l => PPolygon l
     end)
    (match fi_lifecycle f with FieldActive => PActive | FieldRetired => PRetired end).

Definition field_from_persisted (p : PersistedField) : option (Field U D) :=
  i ← uuid_parse (pf_id p);
  definition ← definition_from_str (pf_definition_json p);
  let extent := match pf_extent p with
                | PGlobal => Global
                | PRegion a b c d => Region a b c d
                | PAttachedToNode s => match uuid_parse s with Some i => AttachedToNode i | None => Global end
                | PPolygon l => Polygon l
                end in
  Some (mkField i (pf_name p) definition extent (match pf_lifecycle p with PActive => FieldActive | PRetired => FieldRetired end)).

Definition persisted_coupling_from_coupling (c : Coupling U) : PersistedCoupling :=
  mkPersistedCoupling (uuid_to_string (co_id c)) (uuid_to_string (co_field c))
    (match co_selector c with
     | SelAll => PSelAll | SelTagged t => PSelTagged t | SelKind k => PSelKind k | SelNotTagged t => PSelNotTagged t
     end)
    (match co_response c with
     | AttractToMin => PAttractToMin | RepelFromMax => PRepelFromMax | AlignVelocity => PAlignVelocity | FlowAdvect => PFlowAdvect
     | DampenInside f => PDampenInside f | ContainmentWall => PContainmentWall | OpenResponse p => POpen p
     end)
    (co_strength c).

Definition coupling_from_persisted (p : PersistedCoupling) : option (Coupling U) :=
  c ← uuid_parse (pc_id p);
  f ← uuid_parse (pc_field_id p);
  Some (mkCoupling c f
    (match pc_selector p with
     | PSelAll => SelAll | PSelTagged t => SelTagged t | PSelKind k => SelKind k | PSelNotTagged t => SelNotTagged t
     end)
    (match pc_response p with
     | PAttractToMin => AttractToMin | PRepelFromMax => RepelFromMax | PAlignVelocity => AlignVelocity | PFlowAdvect => FlowAdvect
     | PDampenInside f => DampenInside f | PContainmentWall => ContainmentWall | POpen p => OpenResponse p
     end)
    (pc_strength p)).
End persisted.

(** ** The mutations *)

Section deltas.
Context {G : Type → Type → Type} `{StableGraph G} {M : Type → Type} `{SlotMap M} `{HashOrder} `{WebText}.
Context {U : Type} `{Countable U} `{UuidText U} {J D : Type} `{EqDecision J} `{JsonText J} `{FieldText D}.
Context `{Facet J bool} `{Facet J (list FrameLayoutHint)} `{Facet J NodeTagPresentationState} `{Facet J VisitHistoryFacet}.
Context `{Facet J (list NodeImportProvenance)} `{Facet J (list NodeDerivation)}.
Context `{Facet J (list NodeClassification)} `{Facet J (list NodeProperty)}.

Abbreviation Graph := (KGraph (G := G) (N := Node U) (Id := U) (R := Rest (U := U) (J := J) (D := D))).
Implicit Types (g : Graph) (key from to : Z) (id : U).

Inductive GraphDelta : Type :=
| AddNode (id : option U) (url : string) (position : Z * Z)
| AssertRelation (from to : Z) (assertion : EdgeAssertion)
| RemoveNode (key : Z)
| ReplayAddNodeWithIdIfMissing (id : U) (url : string) (position : Z * Z)
| ReplayAssertRelationByIds (from_id to_id : U) (assertion : EdgeAssertion)
| ReplayRemoveNodeById (id : U)
| ReplayRetractRelationsByIds (from_id to_id : U) (selector : RelationSelector)
| ReplayAppendTraversalByIds (from_id to_id : U) (trigger : NavigationTrigger) (at_ms : Z)
| ReplaySetNodeTitleById (id : U) (title : string)
| ReplaySetNodeUrlById (id : U) (new_url : string)
| ReplaySetNodeImageById (id : U) (role : ImageRole) (image : ImageRef)
| ReplaySetNodeMimeHintById (id : U) (mime_hint : option string)
| ReplaySetNodeContentById (id : U) (content : option Z)
| ReplaySetNodeNestedById (id : U) (nested : option string)
| ReplaySetNodePinnedById (id : U) (is_pinned : bool)
| ReplaySetNodeFacetById (id : U) (facet : string) (value : J)
| ReplayRemoveNodeFacetById (id : U) (facet : string)
| ReplayInsertNodeTagById (id : U) (tag : string)
| ReplayRemoveNodeTagById (id : U) (tag : string)
| ReplaySetNodeBodyById (id : U) (body : option string)
| ReplayNavigateNodeById (id : U) (url : string) (transition : TransitionKind) (at_ms session : Z)
| ReplayBranchHistoryByIds (child_id parent_id : U)
| ReplayNodeHistoryBackById (id : U) (at_ms : Z)
| ReplayNodeHistoryForwardById (id : U) (at_ms : Z)
| ReplayAppendNodePropertyById (id : U) (property : NodeProperty)
| ReplayAddNodeClassificationById (id : U) (classification : NodeClassification)
| ReplayRemoveNodeClassificationById (id : U) (scheme : ClassificationScheme) (value : string)
| ReplaySetNodeClassificationStatusById (id : U) (scheme : ClassificationScheme) (value : string) (status : ClassificationStatus)
| ReplaySetNodePrimaryClassificationById (id : U) (scheme : ClassificationScheme) (value : string)
| ReplayRecordNodeDerivationById (id : U) (derivation : NodeDerivation)
| ReplaySetNodeTagIconOverrideById (id : U) (tag : string) (icon : option BadgeIcon)
| ReplaySetEdgeSemanticPredicateByIds (from_id to_id : U) (predicate : option string)
| ReplayAssertSemanticPredicateByIds (from_id to_id : U) (predicate : string)
| ReplayAppendFrameLayoutHintById (id : U) (hint : FrameLayoutHint)
| ReplayRemoveFrameLayoutHintById (id : U) (hint_index : nat)
| ReplayMoveFrameLayoutHintById (id : U) (from_index to_index : nat)
| ReplaySetFrameSplitOfferSuppressedById (id : U) (suppressed : bool)
| ReplayUpdateNodeHistoryById (id : U) (entries : list string) (current_index : nat)
| ReplaySetImportRecords (import_records : list ImportRecord)
| ReplayTouchNodeLastVisitedById (id : U) (at_ms : Z)
| RetractRelations (from to : Z) (selector : RelationSelector)
| AppendTraversal (from to : Z) (trigger : NavigationTrigger) (at_ms : option Z)
| SetNodeTitle (key : Z) (title : string)
| SetNodeUrl (key : Z) (new_url : string)
| SetNodeImage (key : Z) (role : ImageRole) (image : ImageRef)
| SetNodeMimeHint (key : Z) (mime_hint : option string)
| SetNodeContent (key : Z) (content : option Z)
| SetNodeNested (key : Z) (nested : option string)
| SetNodePinned (key : Z) (is_pinned : bool)
| SetNodeFacet (key : Z) (facet : string) (value : J)
| RemoveNodeFacet (key : Z) (facet : string)
| AppendFrameLayoutHint (key : Z) (hint : FrameLayoutHint)
| RemoveFrameLayoutHint (key : Z) (hint_index : nat)
| MoveFrameLayoutHint (key : Z) (from_index to_index : nat)
| SetFrameSplitOfferSuppressed (key : Z) (suppressed : bool)
| UpdateNodeHistory (key : Z) (entries : list string) (current_index : nat)
| SetImportRecords (import_records : list ImportRecord)
| DeleteImportRecord (record_id : string)
| SetImportRecordMembershipSuppressed (record_id : string) (key : Z) (suppressed : bool)
| SetNodeImportProvenance (key : Z) (import_provenance : list NodeImportProvenance)
| TouchNodeLastVisited (key : Z)
| NavigateNode (key : Z) (url : string)
| BranchHistory (child parent : Z)
| NodeHistoryBack (key : Z)
| NodeHistoryForward (key : Z)
| InsertNodeTag (key : Z) (tag : string)
| RemoveNodeTag (key : Z) (tag : string)
| SetNodeBody (key : Z) (body : option string)
| AppendNodeProperty (key : Z) (property : NodeProperty)
| AddNodeClassification (key : Z) (classification : NodeClassification)
| RemoveNodeClassification (key : Z) (scheme : ClassificationScheme) (value : string)
| SetNodeClassificationStatus (key : Z) (scheme : ClassificationScheme) (value : string) (status : ClassificationStatus)
| SetNodePrimaryClassification (key : Z) (scheme : ClassificationScheme) (value : string)
| RecordNodeDerivation (key : Z) (derivation : NodeDerivation)
| SetNodeTagIconOverride (key : Z) (tag : string) (icon : option BadgeIcon)
| SetEdgeSemanticPredicate (edge : Z) (predicate : option string)
| AssertSemanticPredicate (from to : Z) (predicate : string)
| ReplayAddField (field : PersistedField)
| ReplayRetireFieldById (field_id : string)
| ReplayAddCoupling (coupling : PersistedCoupling)
| ReplaySetFieldCouplingStrengthByFieldId (field_id : string) (strength : Z)
| ReplayActivateFieldById (field_id : string)
| ReplayRetractCouplingById (coupling_id : string)
| AddField (field : Field U D)
| RetireField (id : U)
| AddCoupling (coupling : Coupling U)
| SetFieldCouplingStrength (field : U) (strength : Z)
| ActivateField (id : U)
| RetractCoupling (id : U).

Inductive GraphDeltaResult : Type :=
| NodeAdded (key : Z)
| NodeMaybeAdded (key : option Z)
| EdgeAdded (edge : option Z)
| NodeRemoved (removed : bool)
| EdgesRemoved (count : nat)
| TraversalAppended (appended : bool)
| NodeMetadataUpdated (updated : bool)
| NodeUrlUpdated (old : option string)
| HistoryStepped (url : option string)
| FieldChanged (changed : bool)
| ImportRecordsUpdated (changed : bool)
| Applied.

(** The serializable record of a mutation.  The last two are read, never written:
    imagery from before images were stored out of line. *)
Inductive CapturedDelta : Type :=
| CAddNodeWithIdIfMissing (id url : string) (position : Z * Z)
| CAssertRelationByIds (from_id to_id : string) (assertion : EdgeAssertion)
| CRemoveNodeById (id : string)
| CRetractRelationsByIds (from_id to_id : string) (selector : RelationSelector)
| CAppendTraversalByIds (from_id to_id : string) (trigger : NavigationTrigger) (at_ms : Z)
| CSetNodeTitleById (id title : string)
| CSetNodeUrlById (id new_url : string)
| CSetNodeImageById (id : string) (role : ImageRole) (image : ImageRef)
| CSetNodeMimeHintById (id : string) (mime_hint : option string)
| CSetNodeNestedById (id : string) (nested : option string)
| CSetNodePinnedById (id : string) (is_pinned : bool)
| CSetNodeFacetById (id facet value_json : string)
| CRemoveNodeFacetById (id facet : string)
| CInsertNodeTagById (id tag : string)
| CRemoveNodeTagById (id tag : string)
| CSetNodeBodyById (id : string) (body : option string)
| CNavigateNodeById (id url : string) (transition : TransitionKind) (at_ms session : Z)
| CBranchHistoryByIds (child_id parent_id : string)
| CNodeHistoryBackById (id : string) (at_ms : Z)
| CNodeHistoryForwardById (id : string) (at_ms : Z)
| CAppendNodePropertyById (id : string) (property : NodeProperty)
| CAddNodeClassificationById (id : string) (classification : NodeClassification)
| CRemoveNodeClassificationById (id : string) (scheme : ClassificationScheme) (value : string)
| CSetNodeClassificationStatusById (id : string) (scheme : ClassificationScheme) (value : string) (status : ClassificationStatus)
| CSetNodePrimaryClassificationById (id : string) (scheme : ClassificationScheme) (value : string)
| CRecordNodeDerivationById (id : string) (derivation : NodeDerivation)
| CSetNodeTagIconOverrideById (id tag : string) (icon : option BadgeIcon)
| CSetEdgeSemanticPredicateByIds (from_id to_id : string) (predicate : option string)
| CAssertSemanticPredicateByIds (from_id to_id predicate : string)
| CAppendFrameLayoutHintById (id : string) (hint : FrameLayoutHint)
| CRemoveFrameLayoutHintById (id : string) (hint_index : nat)
| CMoveFrameLayoutHintById (id : string) (from_index to_index : nat)
| CSetFrameSplitOfferSuppressedById (id : string) (suppressed : bool)
| CUpdateNodeHistoryById (id : string) (entries : list string) (current_index : nat)
| CSetImportRecords (import_records : list ImportRecord)
| CTouchNodeLastVisitedById (id : string) (at_ms : Z)
| CAddField (field : PersistedField)
| CRetireFieldById (field_id : string)
| CAddCoupling (coupling : PersistedCoupling)
| CSetFieldCouplingStrengthByFieldId (field_id : string) (strength : Z)
| CActivateFieldById (field_id : string)
| CRetractCouplingById (coupling_id : string)
| CSetNodeContentById (id : string) (content : option Z)
| CSetNodeThumbnailById (id : string) (png_bytes : list Z) (width height : Z)
| CSetNodeFaviconById (id : string) (rgba : list Z) (width height : Z).

(** The outer [None] is the panic of an id that does not parse, the inner one a
    record that folds into nothing. *)
Definition replay_delta (c : CapturedDelta) : option (option GraphDelta) :=
  match c with
  | CAddNodeWithIdIfMissing i url pos => i ← uuid_parse i; Some (Some (ReplayAddNodeWithIdIfMissing i url pos))
  | CAssertRelationByIds i j a => i ← uuid_parse i; j ← uuid_parse j; Some (Some (ReplayAssertRelationByIds i j a))
  | CRemoveNodeById i => i ← uuid_parse i; Some (Some (ReplayRemoveNodeById i))
  | CRetractRelationsByIds i j sel => i ← uuid_parse i; j ← uuid_parse j; Some (Some (ReplayRetractRelationsByIds i j sel))
  | CAppendTraversalByIds i j t at_ms => i ← uuid_parse i; j ← uuid_parse j; Some (Some (ReplayAppendTraversalByIds i j t at_ms))
  | CSetNodeTitleById i title => i ← uuid_parse i; Some (Some (ReplaySetNodeTitleById i title))
  | CSetNodeUrlById i url => i ← uuid_parse i; Some (Some (ReplaySetNodeUrlById i url))
  | CSetNodeImageById i role image => i ← uuid_parse i; Some (Some (ReplaySetNodeImageById i role image))
  | CSetNodeThumbnailById _ _ _ _ | CSetNodeFaviconById _ _ _ _ => Some None
  | CSetNodeMimeHintById i h => i ← uuid_parse i; Some (Some (ReplaySetNodeMimeHintById i h))
  | CSetNodeContentById i h => i ← uuid_parse i; Some (Some (ReplaySetNodeContentById i h))
  | CSetNodeNestedById i l => i ← uuid_parse i; Some (Some (ReplaySetNodeNestedById i l))
  | CSetNodePinnedById i b => i ← uuid_parse i; Some (Some (ReplaySetNodePinnedById i b))
  | CSetNodeFacetById i facet json =>
      match json_from_str json with
      | None => Some None
      | Some value => i ← uuid_parse i; Some (Some (ReplaySetNodeFacetById i facet value))
      end
  | CRemoveNodeFacetById i facet => i ← uuid_parse i; Some (Some (ReplayRemoveNodeFacetById i facet))
  | CInsertNodeTagById i tag => i ← uuid_parse i; Some (Some (ReplayInsertNodeTagById i tag))
  | CRemoveNodeTagById i tag => i ← uuid_parse i; Some (Some (ReplayRemoveNodeTagById i tag))
  | CSetNodeBodyById i body => i ← uuid_parse i; Some (Some (ReplaySetNodeBodyById i body))
  | CNavigateNodeById i url t at_ms session => i ← uuid_parse i; Some (Some (ReplayNavigateNodeById i url t at_ms session))
  | CBranchHistoryByIds i j => i ← uuid_parse i; j ← uuid_parse j; Some (Some (ReplayBranchHistoryByIds i j))
  | CNodeHistoryBackById i at_ms => i ← uuid_parse i; Some (Some (ReplayNodeHistoryBackById i at_ms))
  | CNodeHistoryForwardById i at_ms => i ← uuid_parse i; Some (Some (ReplayNodeHistoryForwardById i at_ms))
  | CAppendNodePropertyById i p => i ← uuid_parse i; Some (Some (ReplayAppendNodePropertyById i p))
  | CAddNodeClassificationById i c => i ← uuid_parse i; Some (Some (ReplayAddNodeClassificationById i c))
  | CRemoveNodeClassificationById i s v => i ← uuid_parse i; Some (Some (ReplayRemoveNodeClassificationById i s v))
  | CSetNodeClassificationStatusById i s v st => i ← uuid_parse i; Some (Some (ReplaySetNodeClassificationStatusById i s v st))
  | CSetNodePrimaryClassificationById i s v => i ← uuid_parse i; Some (Some (ReplaySetNodePrimaryClassificationById i s v))
  | CRecordNodeDerivationById i d => i ← uuid_parse i; Some (Some (ReplayRecordNodeDerivationById i d))
  | CSetNodeTagIconOverrideById i tag icon => i ← uuid_parse i; Some (Some (ReplaySetNodeTagIconOverrideById i tag icon))
  | CSetEdgeSemanticPredicateByIds i j p => i ← uuid_parse i; j ← uuid_parse j; Some (Some (ReplaySetEdgeSemanticPredicateByIds i j p))
  | CAssertSemanticPredicateByIds i j p => i ← uuid_parse i; j ← uuid_parse j; Some (Some (ReplayAssertSemanticPredicateByIds i j p))
  | CAppendFrameLayoutHintById i h => i ← uuid_parse i; Some (Some (ReplayAppendFrameLayoutHintById i h))
  | CRemoveFrameLayoutHintById i n => i ← uuid_parse i; Some (Some (ReplayRemoveFrameLayoutHintById i n))
  | CMoveFrameLayoutHintById i a b => i ← uuid_parse i; Some (Some (ReplayMoveFrameLayoutHintById i a b))
  | CSetFrameSplitOfferSuppressedById i b => i ← uuid_parse i; Some (Some (ReplaySetFrameSplitOfferSuppressedById i b))
  | CUpdateNodeHistoryById i es n => i ← uuid_parse i; Some (Some (ReplayUpdateNodeHistoryById i es n))
  | CSetImportRecords rs => Some (Some (ReplaySetImportRecords rs))
  | CTouchNodeLastVisitedById i at_ms => i ← uuid_parse i; Some (Some (ReplayTouchNodeLastVisitedById i at_ms))
  | CAddField f => Some (Some (ReplayAddField f))
  | CRetireFieldById i => Some (Some (ReplayRetireFieldById i))
  | CAddCoupling c => Some (Some (ReplayAddCoupling c))
  | CSetFieldCouplingStrengthByFieldId i s => Some (Some (ReplaySetFieldCouplingStrengthByFieldId i s))
  | CActivateFieldById i => Some (Some (ReplayActivateFieldById i))
  | CRetractCouplingById i => Some (Some (ReplayRetractCouplingById i))
  end.

(** ** apply_graph_delta *)

Abbreviation Outcome := (option (Graph * list CapturedDelta * GraphDeltaResult)).
Abbreviation text := uuid_to_string.

Definition is_some_b {A} (o : option A) : bool := match o with Some _ => true | None => false end.

(** A node setter reached by key, and by stable id: what it captures when it
    changed something. *)
Definition by_key g key (op : Graph → Z → Graph * bool) (cap : string → CapturedDelta) : Outcome :=
  let '(g', updated) := op g key in
  Some (g', match node_id_of g key with Some id => if updated then [cap (text id)] else [] | None => [] end, NodeMetadataUpdated updated).
Definition by_stable_id g id (op : Graph → Z → Graph * bool) (cap : string → CapturedDelta) : Outcome :=
  match get_node_key_by_id g id with
  | None => Some (g, [], NodeMetadataUpdated false)
  | Some key => let '(g', updated) := op g key in Some (g', if updated then [cap (text id)] else [], NodeMetadataUpdated updated)
  end.

(** The same for an operation on a pair. *)
Definition pair_capture g from to (changed : bool) (cap : string → string → CapturedDelta) : list CapturedDelta :=
  match node_id_of g from, node_id_of g to with
  | Some i, Some j => if changed then [cap (text i) (text j)] else []
  | _, _ => []
  end.

Definition navigate (g : Graph) key id (url : string) (transition : TransitionKind) (at_ms session : Z) : Outcome :=
  m ← nav_record_visit (M := M) (nav (k_rest g)) id url transition at_ms;
  let g := (set_node_last_session_visited (with_nav m g) key session).1 in
  u ← update_node_url g key url;
  Some (u.1, [CNavigateNodeById (text id) url transition at_ms session], Applied).

(** [stepped] is what [nav.back] or [nav.forward] returned. *)
Definition step_history g key (stepped : option (SharedNavigationMemory * option string)) (c : CapturedDelta) : Outcome :=
  s ← stepped;
  match s with
  | (m, None) => Some (with_nav m g, [], HistoryStepped None)
  | (m, Some url) => u ← update_node_url (with_nav m g) key url; Some (u.1, [c], HistoryStepped (Some url))
  end.

Definition last_traversal g from to : option Traversal :=
  edge ← find_edge_key g from to; p ← get_edge g edge; last (payload_traversals p).

(** The record of a node found by key, if it is there. *)
Definition node_capture g key (cap : string → CapturedDelta) : list CapturedDelta :=
  match node_id_of g key with Some id => [cap (text id)] | None => [] end.
Definition url_outcome (r : option (Graph * option string)) (cs : list CapturedDelta) : Outcome :=
  u ← r; Some (u.1, if is_some_b u.2 then cs else [], NodeUrlUpdated u.2).
Definition history_outcome (r : option (Graph * bool)) (cs : list CapturedDelta) : Outcome :=
  u ← r; Some (u.1, if u.2 : bool then cs else [], NodeMetadataUpdated u.2).
Definition branch_history g (child_id parent_id : U) : Outcome :=
  m ← nav_spawn (M := M) (nav (k_rest g)) child_id parent_id;
  Some (with_nav m g, [CBranchHistoryByIds (text child_id) (text parent_id)], Applied).

Definition import_outcome (r : Graph * bool) : Outcome :=
  let '(g', changed) := r in
  Some (g', if changed then [CSetImportRecords (import_records (k_rest g'))] else [], ImportRecordsUpdated changed).

Definition field_outcome (r : Graph * bool) (c : CapturedDelta) : Outcome :=
  let '(g', changed) := r in Some (g', if changed then [c] else [], FieldChanged changed).
(** A field or coupling operation by the text of its id. *)
Definition by_field_text (g : Graph) (s : string) (op : U → Graph * bool) : Graph * bool :=
  match uuid_parse s with Some id => op id | None => (g, false) end.

Definition apply_graph_delta (env : Env U) (g : Graph) (d : GraphDelta) : Outcome :=
  match d with
  | AddNode id url position =>
      gk ← match id with Some id => Some (add_node_with_id env g id url) | None => if wasm32 env then None else Some (add_node env g url) end;
      let '(g', key) := gk in
      Some (g', match node_id_of g' key with Some id => [CAddNodeWithIdIfMissing (text id) url position] | None => [] end, NodeAdded key)
  | AssertRelation from to a =>
      let '(g', edge) := assert_relation (mint env) g from to a in
      Some (g', pair_capture g from to (is_some_b edge) (λ i j, CAssertRelationByIds i j a), EdgeAdded edge)
  | RemoveNode key =>
      let '(g', removed) := remove_node g key in
      Some (g', match node_id_of g key with Some id => if removed then [CRemoveNodeById (text id)] else [] | None => [] end, NodeRemoved removed)
  | ReplayAddNodeWithIdIfMissing id url position =>
      let '(g', added) := replay_add_node_with_id_if_missing env g id url in
      Some (g', if is_some_b added then [CAddNodeWithIdIfMissing (text id) url position] else [], NodeMaybeAdded added)
  | ReplayAssertRelationByIds i j a =>
      let '(g', edge) := replay_assert_relation_by_ids (mint env) g i j a in
      Some (g', if is_some_b edge then [CAssertRelationByIds (text i) (text j) a] else [], EdgeAdded edge)
  | ReplayRemoveNodeById id =>
      let '(g', removed) := replay_remove_node_by_id g id in
      Some (g', if removed then [CRemoveNodeById (text id)] else [], NodeRemoved removed)
  | ReplayRetractRelationsByIds i j sel =>
      let '(g', removed) := replay_retract_relations_by_ids g i j sel in
      Some (g', if bool_decide (0 < removed)%nat then [CRetractRelationsByIds (text i) (text j) sel] else [], EdgesRemoved removed)
  | ReplayAppendTraversalByIds i j t at_ms =>
      let '(g', appended) := replay_append_traversal_by_ids g i j t at_ms in
      Some (g', if appended then [CAppendTraversalByIds (text i) (text j) t at_ms] else [], TraversalAppended appended)
  | RetractRelations from to sel =>
      let '(g', removed) := retract_relations g from to sel in
      Some (g', pair_capture g from to (bool_decide (0 < removed)%nat) (λ i j, CRetractRelationsByIds i j sel), EdgesRemoved removed)
  | AppendTraversal from to t at_ms =>
      let '(g', appended) := append_traversal (now_ms env) g from to t at_ms in
      Some (g', match last_traversal g' from to with
                | Some tr => pair_capture g from to appended (λ i j, CAppendTraversalByIds i j (trigger tr) (timestamp_ms tr))
                | None => []
                end, TraversalAppended appended)
  | ReplaySetNodeTitleById id title => by_stable_id g id (λ g k, set_node_title g k title) (λ i, CSetNodeTitleById i title)
  | SetNodeTitle key title => by_key g key (λ g k, set_node_title g k title) (λ i, CSetNodeTitleById i title)
  | ReplaySetNodeUrlById id new_url =>
      match get_node_key_by_id g id with
      | None => Some (g, [], NodeUrlUpdated None)
      | Some key => url_outcome (update_node_url g key new_url) [CSetNodeUrlById (text id) new_url]
      end
  | SetNodeUrl key new_url =>
      url_outcome (update_node_url g key new_url) (node_capture g key (λ i, CSetNodeUrlById i new_url))
  | ReplaySetNodeImageById id role image => by_stable_id g id (λ g k, set_node_image g k role image) (λ i, CSetNodeImageById i role image)
  | SetNodeImage key role image => by_key g key (λ g k, set_node_image g k role image) (λ i, CSetNodeImageById i role image)
  | ReplaySetNodeMimeHintById id h => by_stable_id g id (λ g k, set_node_mime_hint g k h) (λ i, CSetNodeMimeHintById i h)
  | SetNodeMimeHint key h => by_key g key (λ g k, set_node_mime_hint g k h) (λ i, CSetNodeMimeHintById i h)
  | ReplaySetNodeContentById id c => by_stable_id g id (λ g k, set_node_content g k c) (λ i, CSetNodeContentById i c)
  | SetNodeContent key c => by_key g key (λ g k, set_node_content g k c) (λ i, CSetNodeContentById i c)
  | ReplaySetNodeNestedById id l => by_stable_id g id (λ g k, set_node_nested g k l) (λ i, CSetNodeNestedById i l)
  | SetNodeNested key l => by_key g key (λ g k, set_node_nested g k l) (λ i, CSetNodeNestedById i l)
  | ReplaySetNodePinnedById id b => by_stable_id g id (λ g k, set_node_pinned g k b) (λ i, CSetNodePinnedById i b)
  | SetNodePinned key b => by_key g key (λ g k, set_node_pinned g k b) (λ i, CSetNodePinnedById i b)
  | ReplaySetNodeFacetById id f v => by_stable_id g id (λ g k, set_node_facet_value g k f v) (λ i, CSetNodeFacetById i f (json_to_string v))
  | SetNodeFacet key f v => by_key g key (λ g k, set_node_facet_value g k f v) (λ i, CSetNodeFacetById i f (json_to_string v))
  | ReplayRemoveNodeFacetById id f => by_stable_id g id (λ g k, remove_node_facet g k f) (λ i, CRemoveNodeFacetById i f)
  | RemoveNodeFacet key f => by_key g key (λ g k, remove_node_facet g k f) (λ i, CRemoveNodeFacetById i f)
  | ReplayAppendFrameLayoutHintById id h => by_stable_id g id (λ g k, append_frame_layout_hint g k h) (λ i, CAppendFrameLayoutHintById i h)
  | AppendFrameLayoutHint key h => by_key g key (λ g k, append_frame_layout_hint g k h) (λ i, CAppendFrameLayoutHintById i h)
  | ReplayRemoveFrameLayoutHintById id n => by_stable_id g id (λ g k, remove_frame_layout_hint_at g k n) (λ i, CRemoveFrameLayoutHintById i n)
  | RemoveFrameLayoutHint key n => by_key g key (λ g k, remove_frame_layout_hint_at g k n) (λ i, CRemoveFrameLayoutHintById i n)
  | ReplayMoveFrameLayoutHintById id a b => by_stable_id g id (λ g k, move_frame_layout_hint g k a b) (λ i, CMoveFrameLayoutHintById i a b)
  | MoveFrameLayoutHint key a b => by_key g key (λ g k, move_frame_layout_hint g k a b) (λ i, CMoveFrameLayoutHintById i a b)
  | ReplaySetFrameSplitOfferSuppressedById id b =>
      by_stable_id g id (λ g k, set_frame_split_offer_suppressed g k b) (λ i, CSetFrameSplitOfferSuppressedById i b)
  | SetFrameSplitOfferSuppressed key b =>
      by_key g key (λ g k, set_frame_split_offer_suppressed g k b) (λ i, CSetFrameSplitOfferSuppressedById i b)
  | ReplayUpdateNodeHistoryById id es n =>
      match get_node_key_by_id g id with
      | None => Some (g, [], NodeMetadataUpdated false)
      | Some key => history_outcome (set_node_history_state (M := M) g key es n) [CUpdateNodeHistoryById (text id) es n]
      end
  | UpdateNodeHistory key es n =>
      history_outcome (set_node_history_state (M := M) g key es n) (node_capture g key (λ i, CUpdateNodeHistoryById i es n))
  | ReplaySetImportRecords rs | SetImportRecords rs => import_outcome (set_import_records g rs)
  | ReplayTouchNodeLastVisitedById id at_ms =>
      by_stable_id g id (λ g k, set_node_last_visited_at_ms g k at_ms) (λ i, CTouchNodeLastVisitedById i at_ms)
  | NavigateNode key url =>
      match node_id_of g key with
      | None => Some (g, [], Applied)
      | Some id => navigate g key id url UrlTyped (now_ms env) (current_session (k_rest g))
      end
  | BranchHistory child parent =>
      match node_id_of g child, node_id_of g parent with
      | Some i, Some j => branch_history g i j
      | _, _ => Some (g, [], Applied)
      end
  | NodeHistoryBack key =>
      match node_id_of g key with
      | None => Some (g, [], HistoryStepped None)
      | Some id => step_history g key (nav_back (M := M) (nav (k_rest g)) id (now_ms env)) (CNodeHistoryBackById (text id) (now_ms env))
      end
  | NodeHistoryForward key =>
      match node_id_of g key with
      | None => Some (g, [], HistoryStepped None)
      | Some id => step_history g key (nav_forward (M := M) (nav (k_rest g)) id (now_ms env)) (CNodeHistoryForwardById (text id) (now_ms env))
      end
  | ReplayInsertNodeTagById id tag => by_stable_id g id (λ g k, insert_node_tag g k tag) (λ i, CInsertNodeTagById i tag)
  | InsertNodeTag key tag => by_key g key (λ g k, insert_node_tag g k tag) (λ i, CInsertNodeTagById i tag)
  | ReplayRemoveNodeTagById id tag => by_stable_id g id (λ g k, remove_node_tag g k tag) (λ i, CRemoveNodeTagById i tag)
  | RemoveNodeTag key tag => by_key g key (λ g k, remove_node_tag g k tag) (λ i, CRemoveNodeTagById i tag)
  | ReplaySetNodeBodyById id body => by_stable_id g id (λ g k, set_node_body g k body) (λ i, CSetNodeBodyById i body)
  | SetNodeBody key body => by_key g key (λ g k, set_node_body g k body) (λ i, CSetNodeBodyById i body)
  | ReplayNavigateNodeById id url transition at_ms session =>
      match get_node_key_by_id g id with
      | None => Some (g, [], Applied)
      | Some key => navigate g key id url transition at_ms session
      end
  | ReplayBranchHistoryByIds i j =>
      match get_node_key_by_id g i, get_node_key_by_id g j with
      | Some _, Some _ => branch_history g i j
      | _, _ => Some (g, [], Applied)
      end
  | ReplayNodeHistoryBackById id at_ms =>
      match get_node_key_by_id g id with
      | None => Some (g, [], HistoryStepped None)
      | Some key => step_history g key (nav_back (M := M) (nav (k_rest g)) id at_ms) (CNodeHistoryBackById (text id) at_ms)
      end
  | ReplayNodeHistoryForwardById id at_ms =>
      match get_node_key_by_id g id with
      | None => Some (g, [], HistoryStepped None)
      | Some key => step_history g key (nav_forward (M := M) (nav (k_rest g)) id at_ms) (CNodeHistoryForwardById (text id) at_ms)
      end
  | ReplayAppendNodePropertyById id p => by_stable_id g id (λ g k, append_node_property g k p) (λ i, CAppendNodePropertyById i p)
  | AppendNodeProperty key p => by_key g key (λ g k, append_node_property g k p) (λ i, CAppendNodePropertyById i p)
  | ReplayAddNodeClassificationById id c => by_stable_id g id (λ g k, add_node_classification g k c) (λ i, CAddNodeClassificationById i c)
  | AddNodeClassification key c => by_key g key (λ g k, add_node_classification g k c) (λ i, CAddNodeClassificationById i c)
  | ReplayRemoveNodeClassificationById id s v =>
      by_stable_id g id (λ g k, remove_node_classification g k s v) (λ i, CRemoveNodeClassificationById i s v)
  | RemoveNodeClassification key s v => by_key g key (λ g k, remove_node_classification g k s v) (λ i, CRemoveNodeClassificationById i s v)
  | ReplaySetNodeClassificationStatusById id s v st =>
      by_stable_id g id (λ g k, set_node_classification_status g k s v st) (λ i, CSetNodeClassificationStatusById i s v st)
  | SetNodeClassificationStatus key s v st =>
      by_key g key (λ g k, set_node_classification_status g k s v st) (λ i, CSetNodeClassificationStatusById i s v st)
  | ReplaySetNodePrimaryClassificationById id s v =>
      by_stable_id g id (λ g k, set_node_primary_classification g k s v) (λ i, CSetNodePrimaryClassificationById i s v)
  | SetNodePrimaryClassification key s v =>
      by_key g key (λ g k, set_node_primary_classification g k s v) (λ i, CSetNodePrimaryClassificationById i s v)
  | ReplayRecordNodeDerivationById id x => by_stable_id g id (λ g k, record_derivation g k x) (λ i, CRecordNodeDerivationById i x)
  | RecordNodeDerivation key x => by_key g key (λ g k, record_derivation g k x) (λ i, CRecordNodeDerivationById i x)
  | ReplaySetNodeTagIconOverrideById id tag icon =>
      by_stable_id g id (λ g k, set_node_tag_icon_override g k tag icon) (λ i, CSetNodeTagIconOverrideById i tag icon)
  | SetNodeTagIconOverride key tag icon =>
      by_key g key (λ g k, set_node_tag_icon_override g k tag icon) (λ i, CSetNodeTagIconOverrideById i tag icon)
  | ReplaySetEdgeSemanticPredicateByIds i j p =>
      let '(g', updated) := replay_set_edge_semantic_predicate_by_ids (mint env) g i j p in
      Some (g', if updated then [CSetEdgeSemanticPredicateByIds (text i) (text j) p] else [], NodeMetadataUpdated updated)
  | ReplayAssertSemanticPredicateByIds i j p =>
      let '(g', edge) := replay_assert_semantic_predicate_by_ids (mint env) g i j p in
      Some (g', if is_some_b edge then [CAssertSemanticPredicateByIds (text i) (text j) p] else [], EdgeAdded edge)
  | SetEdgeSemanticPredicate edge p =>
      let '(g', updated) := set_edge_semantic_predicate (mint env) g edge p in
      Some (g', match sg_edges (inner (k_inner g)) !! edge with
                | Some (from, to, _) => pair_capture g from to updated (λ i j, CSetEdgeSemanticPredicateByIds i j p)
                | None => []
                end, NodeMetadataUpdated updated)
  | AssertSemanticPredicate from to p =>
      let '(g', edge) := assert_semantic_predicate (mint env) g from to p in
      Some (g', pair_capture g from to (is_some_b edge) (λ i j, CAssertSemanticPredicateByIds i j p), EdgeAdded edge)
  | ReplayAddField f =>
      field_outcome (match field_from_persisted f with Some x => (add_field g x, true) | None => (g, false) end) (CAddField f)
  | ReplayRetireFieldById s => field_outcome (by_field_text g s (retire_field g)) (CRetireFieldById s)
  | ReplayAddCoupling c =>
      field_outcome (match coupling_from_persisted c with Some x => (add_coupling g x, true) | None => (g, false) end) (CAddCoupling c)
  | ReplaySetFieldCouplingStrengthByFieldId s v =>
      field_outcome (by_field_text g s (λ id, set_field_coupling_strength g id v)) (CSetFieldCouplingStrengthByFieldId s v)
  | ReplayActivateFieldById s => field_outcome (by_field_text g s (activate_field g)) (CActivateFieldById s)
  | ReplayRetractCouplingById s => field_outcome (by_field_text g s (retract_coupling g)) (CRetractCouplingById s)
  | AddField f => field_outcome (add_field g f, true) (CAddField (persisted_field_from_field f))
  | RetireField id => field_outcome (retire_field g id) (CRetireFieldById (text id))
  | AddCoupling c => field_outcome (add_coupling g c, true) (CAddCoupling (persisted_coupling_from_coupling c))
  | SetFieldCouplingStrength id v => field_outcome (set_field_coupling_strength g id v) (CSetFieldCouplingStrengthByFieldId (text id) v)
  | ActivateField id => field_outcome (activate_field g id) (CActivateFieldById (text id))
  | RetractCoupling id => field_outcome (retract_coupling g id) (CRetractCouplingById (text id))
  | DeleteImportRecord record_id => import_outcome (delete_import_record g record_id)
  | SetImportRecordMembershipSuppressed record_id key b => import_outcome (set_import_record_membership_suppressed g record_id key b)
  | SetNodeImportProvenance key ps => import_outcome (set_node_import_provenance env g key ps)
  | TouchNodeLastVisited key =>
      let '(g', updated) := touch_node_last_visited_now env g key in
      Some (g', match node_id_of g key, node_last_visited g' key with
                | Some id, Some at_ms => if updated then [CTouchNodeLastVisitedById (text id) at_ms] else []
                | _, _ => []
                end, NodeMetadataUpdated updated)
  end.

(** ** Replay (capture.rs) *)

Definition replay_one (g : Graph) (ec : Env U * CapturedDelta) : option Graph :=
  d ← replay_delta ec.2;
  match d with None => Some g | Some d => r ← apply_graph_delta ec.1 g d; Some r.1.1 end.
(** Each record is replayed at its own moment. *)
Definition replay_captured_deltas_onto (g : Graph) (cs : list (Env U * CapturedDelta)) : option Graph := foldM replay_one cs g.
Definition replay_captured_deltas (cs : list (Env U * CapturedDelta)) : option Graph := replay_captured_deltas_onto kernel_new cs.

(** ** The journal (journal.rs) *)

Definition USER_AUTHOR : string := "user".
Record AttributedDelta : Type := mkAttributed { ad_author : string; ad_delta : CapturedDelta }.
Record GraphJournal : Type := mkGraphJournal { gj_log : Journal AttributedDelta; gj_author : string }.

Definition gj_new : GraphJournal := mkGraphJournal journal_new USER_AUTHOR.
Definition gj_with_id (id : LogId) : GraphJournal := mkGraphJournal (journal_with_id id) USER_AUTHOR.
Definition gj_from_log (log : Journal AttributedDelta) : GraphJournal := mkGraphJournal log USER_AUTHOR.
Definition set_author (j : GraphJournal) (author : string) : GraphJournal := mkGraphJournal (gj_log j) author.
Definition record_as (j : GraphJournal) (author : string) (c : CapturedDelta) : nat * GraphJournal :=
  let '(seq, log) := append (gj_log j) (mkAttributed author c) in (seq, mkGraphJournal log (gj_author j)).
Definition record (j : GraphJournal) (c : CapturedDelta) : nat * GraphJournal := record_as j (gj_author j) c.

Definition live_cursor (j : GraphJournal) : nat := next_seq (gj_log j).
Definition gj_deltas (j : GraphJournal) : list CapturedDelta := ad_delta <$> j_entries (gj_log j).

Definition snapshot_at (envs : list (Env U)) (j : GraphJournal) (cursor : nat) : option (option Graph) :=
  if bool_decide (cursor ≤ journal_len (gj_log j))%nat
  then Some (replay_captured_deltas (zip envs (take cursor (gj_deltas j))))
  else None.

(** [u64] arithmetic; [None] is the overflow of the product. *)
Definition sequence_ticks (live : Z) (max_points : nat) : option (list Z) :=
  if bool_decide (max_points = 0)%nat then Some []
  else if bool_decide (max_points = 1)%nat || bool_decide (live = 0) then Some [live]
  else let points := Z.to_nat (Z.min (Z.of_nat max_points) (live + 1)) in
       let denominator := Z.of_nat points - 1 in
       mapM (λ index, let p := Z.of_nat index * live in
                      if bool_decide (p ≤ u64_max) then Some (p / denominator) else None) (seq 0 points).

Definition gj_replay (envs : list (Env U)) (j : GraphJournal) : option Graph := replay_captured_deltas (zip envs (gj_deltas j)).
Definition gj_replay_from (envs : list (Env U)) (j : GraphJournal) (since : nat) (g : Graph) : option Graph :=
  replay_captured_deltas_onto g (zip envs (ad_delta <$> journal_from (gj_log j) since)).
Definition gj_fork (j : GraphJournal) (new_id : LogId) : GraphJournal := mkGraphJournal (journal_fork (gj_log j) new_id) (gj_author j).
Definition migrate_bare_log (log : Journal CapturedDelta) : GraphJournal :=
  fold_left (λ j c, (record_as j "pre-gate" c).2) (j_entries log) gj_new.

(** A live mutation with the journal's hook installed. *)
Definition live_step (gj : Graph * GraphJournal) (ed : Env U * GraphDelta) : option (Graph * GraphJournal) :=
  r ← apply_graph_delta ed.1 gj.1 ed.2;
  Some (r.1.1, fold_left (λ j c, (record j c).2) r.1.2 gj.2).
Definition live_session (gj : Graph * GraphJournal) (ds : list (Env U * GraphDelta)) : option (Graph * GraphJournal) := foldM live_step ds gj.
End deltas.
