(* ===== verification/KernelRelate.v ===== *)
(** Two kernel graphs that agree by stable id, and the setters that keep them so
    (crates/graph/graph-kernel/src/graph/{node_props,node_facets,edge_ops}.rs).

    [k_inv] is the invariant of a graph: the id index, the URL index, the facets,
    the import records and the provenance derived from them fit together.
    [agrees] compares two graphs by the ids of their nodes; [related] is both
    invariants and agreement.  [respects] says of a setter that it keeps graphs
    related, and that it changed nothing where it says so: one lemma for each
    setter. *)

From S2P Require Import Prelude Wire Journal SlotMap Stemma StableGraph GraphLog KernelEdges KernelGraph KernelNav KernelNode KernelImports KernelDelta.

Local Open Scope Z_scope.

(** ** What the edge operations leave alone *)

Section rest.
Context {G : Type → Type → Type} `{StableGraph G}.
Context {N Id R : Type} `{Countable Id}.
Abbreviation KG := (KGraph (G := G) (N := N) (Id := Id) (R := R)).
Implicit Types g h : KG.

Lemma connect_rest from to p g : k_rest (connect_edge from to p g).2 = k_rest g.
Proof. unfold connect_edge. by destruct (graph_connect _ _ _ _). Qed.
Lemma bucket_rest g from to : k_rest (bucket_edge g from to).2 = k_rest g.
Proof. unfold bucket_edge. destruct (find_edge_key _ _ _); [done|apply connect_rest]. Qed.

Lemma assert_relation_rest m g a b x : k_rest (assert_relation m g a b x).1 = k_rest g.
Proof.
  assert (k_rest (assert_plain_relation m g a b x).1 = k_rest g) as Hp.
  { unfold assert_plain_relation. destruct (_ || _); [done|]. destruct (find_edge_key _ _ _).
    - destruct (get_edge g _); [|done]. by destruct (payload_assert_relation _ _ _) as [? []].
    - destruct (payload_assert_relation _ _ _) as [p []]; [|done]. pose proof (connect_rest a b p g) as Hc. by destruct (connect_edge a b p g). }
  unfold assert_relation. destruct x; try done. unfold assert_semantic_relation_in_scope. destruct (_ || _); [done|].
  pose proof (bucket_rest g a b) as Hb. destruct (bucket_edge g a b) as [k h]. destruct (get_edge h k); [|done].
  by destruct (insert_semantic_relation_in_scope _ _ _ _ _) as [? []].
Qed.

Lemma assert_predicate_rest m g a b x : k_rest (assert_semantic_predicate m g a b x).1 = k_rest g.
Proof.
  unfold assert_semantic_predicate, assert_semantic_predicate_in_scope. destruct (_ || _); [done|].
  pose proof (bucket_rest g a b) as Hb. destruct (bucket_edge g a b) as [k h]. destruct (get_edge h k); [|done].
  by destruct (payload_assert_predicate _ _ _ _) as [? []].
Qed.

Lemma retract_rest g a b sel : k_rest (retract_relations g a b sel).1 = k_rest g.
Proof.
  unfold retract_relations. assert (∀ l (acc : KG * nat * list Z), k_rest (fold_left (retract_edge sel) l acc).1.1 = k_rest acc.1.1) as Hf.
  { induction l as [|k l IH]; intros [[h n] d]; [done|]. cbn [fold_left]. rw IH. cbn. destruct (get_edge h k); [|done].
    by destruct (payload_retract_relation _ _) as [? []]. }
  specialize (Hf (retract_ids g a b sel) (g, 0%nat, [])). destruct (fold_left _ _ _) as [[h n] d]. cbn in Hf.
  assert (∀ l (h : KG), k_rest (fold_left (λ g key, disconnect_edge key g) l h) = k_rest h) as Hd by (induction l as [|k l IH]; intros ?; [done|]; cbn; by rw IH).
  case_bool_decide; cbn; by rw Hd.
Qed.

Lemma set_predicate_rest m g k p : k_rest (set_edge_semantic_predicate m g k p).1 = k_rest g.
Proof. unfold set_edge_semantic_predicate. by destruct (get_edge g k). Qed.

Lemma push_traversal_rest g a b t : k_rest (push_traversal g a b t).1 = k_rest g.
Proof.
  unfold push_traversal. destruct (_ || _); [done|]. destruct (_ ≫= _) as [[k p]|]; [done|]. cbn. apply connect_rest.
Qed.

Lemma run_edit_rest g e : k_rest (run_edit g e) = k_rest g.
Proof.
  destruct e; cbn; unfold replay_assert_relation_by_ids, replay_assert_semantic_predicate_by_ids, replay_set_edge_semantic_predicate_by_ids,
    replay_append_traversal_by_ids, replay_retract_relations_by_ids; (destruct (get_node_key_by_id g i); [|done]); (destruct (get_node_key_by_id g j); [|done]).
  - apply assert_relation_rest.
  - apply assert_predicate_rest.
  - destruct (find_edge_key g _ _); [|done]. apply set_predicate_rest.
  - apply push_traversal_rest.
  - apply retract_rest.
Qed.

Context (node_id : N → Id).

(** Buckets depend on the edges and on where the ids are. *)
Lemma pair_bucket_edges g h a b :
  kg_wf node_id g → kg_wf node_id h → (∀ k p, sg_edges (inner (k_inner h)) !! k = Some (a, b, p) ↔ sg_edges (inner (k_inner g)) !! k = Some (a, b, p)) →
  pair_bucket h a b = pair_bucket g a b.
Proof.
  intros Hg Hh He. apply option_eq. intros p. rw (pair_bucket_spec node_id h) // (pair_bucket_spec node_id g) //. by setoid_rewrite He.
Qed.
End rest.

(** ** Payloads up to the ids of their statements

    A replay mints its own statement ids: two payloads are compared with the ids
    blanked out.  No operation of a delta reads an id. *)

Definition anonymous (s : SemanticStatement) : SemanticStatement :=
  mkStatement "" (predicate s) (recognized_sub_kind s) (st_label s) (graph_scope s) (provenance_iri s) (asserted_at_ms s).
Definition strip_data (d : SemanticData) : SemanticData := with_statements d (anonymous <$> statements d).
Definition strip (p : EdgePayload) : EdgePayload := set_semantic (strip_data <$> semantic p) p.

Lemma rebuild_strip d : rebuild_compat (strip_data d) = strip_data (rebuild_compat d).
Proof.
  assert (∀ {B} (f : SemanticStatement → option B), (∀ s, f (anonymous s) = f s) → ∀ l : list SemanticStatement, omap f (anonymous <$> l) = omap f l) as Ho.
  { intros B f Hf l. induction l as [|s l IH]; cbn; [done|]. by rw Hf IH. }
  unfold rebuild_compat, strip_data, with_statements. cbn [statements]. rw -(fmap_reverse anonymous) !Ho // -list_fmap_compose. done.
Qed.

Lemma find_anonymous x l :
  list_find (λ s, fact s = x) (anonymous <$> l) = prod_map id anonymous <$> list_find (λ s, fact s = x) l.
Proof. rw list_find_fmap. done. Qed.

Lemma insert_strip m d k pr label sc prov at_ms :
  insert_statement "" (strip_data d) k pr label sc prov at_ms =
    let '(d', c) := insert_statement m d k pr label sc prov at_ms in (strip_data d', c).
Proof.
  unfold insert_statement. cbn [strip_data with_statements statements]. rw find_anonymous.
  destruct (list_find _ (statements d)) as [[i s]|]; cbn [fmap option_fmap option_map prod_map fst snd].
  - change (metadata_differs (anonymous s) label prov at_ms) with (metadata_differs s label prov at_ms).
    destruct (metadata_differs s label prov at_ms); [|done]. rw -rebuild_strip. unfold strip_data. cbn. by rw list_fmap_insert.
  - rw -rebuild_strip. unfold strip_data. cbn. by rw fmap_app.
Qed.

Lemma drop_strip d : drop_if_empty (strip_data d) = strip_data <$> drop_if_empty d.
Proof. unfold drop_if_empty. cbn. by destruct (statements d). Qed.

Lemma retain_strip (keep : SemanticStatement → bool) d :
  (∀ s, keep (anonymous s) = keep s) →
  retain_statements keep (strip_data d) = let '(d', c) := retain_statements keep d in (strip_data d', c).
Proof.
  intros Hk. unfold retain_statements. cbn. assert (filter (λ s, keep s = true) (anonymous <$> statements d) =
    anonymous <$> filter (λ s, keep s = true) (statements d)) as ->.
  { induction (statements d) as [|s l IH]; [done|]. cbn [fmap list_fmap]. rw !filter_cons Hk. by case_decide; cbn; rw IH. }
  rw !length_fmap. case_bool_decide; [done|]. rw -rebuild_strip. done.
Qed.

Lemma set_predicate_strip m d new : set_statement_predicate "" (strip_data d) new = strip_data (set_statement_predicate m d new).
Proof.
  unfold set_statement_predicate. rw -rebuild_strip. f_equal. unfold strip_data. cbn. f_equal. destruct new as [p|].
  - destruct (statements d) as [|s l]; [done|]. cbn. f_equal. rw -!list_fmap_compose. done.
  - induction (statements d) as [|s l IH]; [done|]. cbn [fmap list_fmap]. rw !filter_cons. cbn [anonymous recognized_sub_kind].
    case_decide; [|done]. cbn. rw IH. by destruct (recognized_sub_kind s).
Qed.

Lemma default_strip x : default semantic_default (strip_data <$> x) = strip_data (default semantic_default x).
Proof. by destruct x. Qed.

Lemma assert_strip m p a :
  payload_assert_relation "" (strip p) a = let '(p', c) := payload_assert_relation m p a in (strip p', c).
Proof.
  destruct a; cbn; try done. unfold insert_semantic_relation_in_scope. cbn. rw default_strip (insert_strip m).
  by destruct (insert_statement m _ _ _ _ _ _ _).
Qed.
Lemma assert_predicate_strip m p pr sc :
  payload_assert_predicate "" (strip p) pr sc = let '(p', c) := payload_assert_predicate m p pr sc in (strip p', c).
Proof.
  unfold payload_assert_predicate. cbn. rw default_strip (insert_strip m). by destruct (insert_statement m _ _ _ _ _ _ _).
Qed.
Lemma set_semantic_predicate_strip m p new : set_semantic_predicate "" (strip p) new = strip (set_semantic_predicate m p new).
Proof.
  unfold set_semantic_predicate. cbn. destruct (semantic p) as [d|] eqn:Es; cbn.
  - rw (set_predicate_strip m) drop_strip. by destruct new.
  - destruct new as [pr|]; [done|]. unfold strip. by rw Es.
Qed.
Lemma retract_strip p sel : payload_retract_relation (strip p) sel = let '(p', c) := payload_retract_relation p sel in (strip p', c).
Proof.
  destruct sel as [[]|k|k|k|k|k]; cbn; try done.
  - unfold remove_semantic_relation. cbn. destruct (semantic p) as [d|] eqn:Es; cbn; [|unfold strip; by rw Es].
    unfold remove_statements_with_sub_kind. rw retain_strip //. destruct (retain_statements _ d) as [d' []]; [|done]. by rw drop_strip.
  - by destruct (retract_sub_kind _ _).
  - by destruct (retract_sub_kind _ _).
  - by destruct (retract_sub_kind _ _).
  - by destruct (retract_sub_kind _ _).
Qed.
Lemma is_empty_strip p : payload_is_empty (strip p) = payload_is_empty p.
Proof.
  unfold payload_is_empty. do 5 f_equal. cbn. destruct (semantic p) as [d|]; [|done]. cbn. do 3 f_equal. apply bool_decide_ext.
  by destruct (statements d).
Qed.

Section edits.
Context {Id : Type} `{EqDecision Id}.

Definition unminted (e : EdgeEdit (Id := Id)) : EdgeEdit :=
  match e with
  | EdAssert _ i j a => EdAssert "" i j a
  | EdPredicate _ i j p => EdPredicate "" i j p
  | EdSetPredicate _ i j p => EdSetPredicate "" i j p
  | e => e
  end.

Lemma edit_bucket_strip e r : strip <$> edit_bucket e r = edit_bucket (unminted e) (strip <$> r).
Proof.
  assert (default payload_new (strip <$> r) = strip (default payload_new r)) as Hd by by destruct r.
  destruct e as [m i j a|m i j pr|m i j pr|i j trig at_ms|i j sel]; cbn [edit_bucket unminted]; rw ?Hd.
  - rw (assert_strip m). by destruct (payload_assert_relation _ _ _).
  - rw (assert_predicate_strip m). by destruct (payload_assert_predicate _ _ _ _).
  - destruct r as [p|]; [|done]. cbn. by rw (set_semantic_predicate_strip m).
  - by case_decide.
  - destruct r as [p|]; [|done]. cbn. rw retract_strip. destruct (payload_retract_relation p sel) as [p' []]; [|done].
    unfold kept. rw is_empty_strip. by destruct (payload_is_empty p').
Qed.

Lemma edit_bucket_agree e e' r r' :
  unminted e = unminted e' → strip <$> r = strip <$> r' → strip <$> edit_bucket e r = strip <$> edit_bucket e' r'.
Proof. intros He Hr. by rw !edit_bucket_strip He Hr. Qed.
End edits.

(** ** The invariant and the agreement *)

Section relate.
Context {G : Type → Type → Type} `{StableGraph G} {M : Type → Type} `{SlotMap M} `{HashOrder} `{WebText}.
Context {U : Type} `{Countable U} `{UuidText U} {J D : Type} `{EqDecision J} `{JsonText J} `{FieldText D}.
Context `{Facet J bool} `{Facet J (list FrameLayoutHint)} `{Facet J NodeTagPresentationState} `{Facet J VisitHistoryFacet}.
Context `{Facet J (list NodeImportProvenance)} `{Facet J (list NodeDerivation)}.
Context `{Facet J (list NodeClassification)} `{Facet J (list NodeProperty)}.
Context `{!FacetRoundtrip J VisitHistoryFacet}.

Abbreviation Graph := (KGraph (G := G) (N := Node U) (Id := U) (R := Rest (U := U) (J := J) (D := D))).
Implicit Types (g h : Graph) (i j : U) (k key : Z).
Abbreviation text := uuid_to_string.
Abbreviation wf := (kg_wf n_id).

Definition node_url (n : Node U) : option string := as_url_str <$> primary_address n.

Definition node_at g i : option (Node U) := k ← get_node_key_by_id g i; get_node g k.
Definition facet_of g i (f : string) : option J := facet_get (r_facets (k_rest g)) i f.
Definition session_of g i : Z := last_session_visited (default visit_history_default (facet_of g i VISIT_HISTORY ≫= from_value)).
Definition provenance_of g i : list NodeImportProvenance := default [] (facet_of g i PROVENANCE_IMPORT ≫= from_value).
Definition url_ids g (url : string) : list (option U) := node_id_of g <$> get_nodes_by_url g url.

(** The sources of the records that name a node and do not suppress it. *)
Definition record_sources (rs : list ImportRecord) (x : string) : list NodeImportProvenance :=
  rs ≫= λ r, omap (λ m, if im_suppressed m then None
                        else if bool_decide (im_node_id m = x) then Some (mkImportProvenance (ir_source_id r) (ir_source_label r)) else None)
               (ir_memberships r).

Record k_inv g : Prop := {
  iv_wf : wf g;
  iv_address k n : get_node g k = Some n → ∃ a, n_addresses n = [a];
  iv_urls url k : k ∈ get_nodes_by_url g url ↔ ∃ n, get_node g k = Some n ∧ node_url n = Some url;
  iv_urls_NoDup url : NoDup (get_nodes_by_url g url);
  iv_urls_nonempty url : url_to_nodes (k_rest g) !! url ≠ Some [];
  iv_facets i : is_Some (r_facets (k_rest g) !! i) → live_id g i;
  iv_records : records_normal (import_records (k_rest g));
  iv_members x : mentions (import_records (k_rest g)) x → ∃ i, live_id g i ∧ x = text i;
  iv_sync i : live_id g i → provenance_of g i = sort_dedup (record_sources (import_records (k_rest g)) (text i))
}.

(** What live editing and replay are compared on: everything but the keys, the
    statement ids, the last-visited clocks, and the per-launch session and
    revision counters. *)
Record agrees g h : Prop := {
  ag_nodes i : node_at g i = node_at h i;
  ag_buckets i j : strip <$> id_bucket g i j = strip <$> id_bucket h i j;
  ag_facets i f : f ≠ VISIT_HISTORY → f ≠ PROVENANCE_IMPORT → facet_of g i f = facet_of h i f;
  ag_provenance i : live_id g i → provenance_of g i = provenance_of h i;
  ag_sessions i : session_of g i = session_of h i;
  ag_urls url : url_ids g url = url_ids h url;
  ag_records : import_records (k_rest g) = import_records (k_rest h);
  ag_fields : fields (k_rest g) = fields (k_rest h);
  ag_couplings : couplings (k_rest g) = couplings (k_rest h);
  ag_nav : nav (k_rest g) = nav (k_rest h)
}.

(** *** Keys and ids *)

Lemma node_key g k n : wf g → get_node g k = Some n → get_node_key_by_id g (n_id n) = Some k.
Proof. intros Hw Hn. apply (kw_ids n_id g Hw). by exists n. Qed.
Lemma key_node g i k : wf g → get_node_key_by_id g i = Some k → ∃ n, get_node g k = Some n ∧ n_id n = i.
Proof. intros Hw Hk. by apply (kw_ids n_id g Hw) in Hk. Qed.
Lemma node_id_key g k i : wf g → node_id_of g k = Some i ↔ get_node_key_by_id g i = Some k.
Proof.
  intros Hw. unfold node_id_of. rw fmap_Some. split; [intros (n & Hn & ->); by apply node_key|].
  intros (n & Hn & <-)%key_node; eauto.
Qed.
Lemma live_node g i : wf g → live_id g i ↔ is_Some (node_at g i).
Proof.
  intros Hw. unfold live_id, node_at. split; [|intros [n (k & Hk & _)%bind_Some]; by exists k].
  intros [k Hk]. destruct (key_node g i k Hw Hk) as (n & Hn & _). exists n. rw Hk. done.
Qed.
Lemma agrees_live g h i : wf g → wf h → agrees g h → live_id g i ↔ live_id h i.
Proof. intros Hg Hh Ha. by rw !live_node // (ag_nodes g h Ha). Qed.

Lemma wf_inner g h : k_inner h = k_inner g → wf g → wf h.
Proof. intros He [W1 W2 W3 W4]. split; rw He; done. Qed.

Lemma get_node_inner g h k : k_inner h = k_inner g → get_node h k = get_node g k.
Proof. unfold get_node. by intros ->. Qed.

(** Fields that the invariant does not read. *)
Lemma inv_ext g h :
  k_inner h = k_inner g → r_facets (k_rest h) = r_facets (k_rest g) → url_to_nodes (k_rest h) = url_to_nodes (k_rest g) →
  import_records (k_rest h) = import_records (k_rest g) → k_inv g → k_inv h.
Proof.
  intros Hi Hf Hu Hr [I1 I2 I3 I4 I5 I6 I7 I8 I9]. split; unfold get_nodes_by_url, live_id, provenance_of, facet_of, get_node, get_node_key_by_id in *; rw ?Hi ?Hf ?Hu ?Hr; try done.
  by eapply wf_inner.
Qed.

Lemma agrees_ext g h g' h' :
  k_inner g' = k_inner g → k_inner h' = k_inner h →
  r_facets (k_rest g') = r_facets (k_rest g) → r_facets (k_rest h') = r_facets (k_rest h) →
  url_to_nodes (k_rest g') = url_to_nodes (k_rest g) → url_to_nodes (k_rest h') = url_to_nodes (k_rest h) →
  import_records (k_rest g') = import_records (k_rest h') → fields (k_rest g') = fields (k_rest h') →
  couplings (k_rest g') = couplings (k_rest h') → nav (k_rest g') = nav (k_rest h') → agrees g h → agrees g' h'.
Proof.
  intros E1 E2 E3 E4 E5 E6 E7 E8 E9 E10 [A1 A2 A3 A4 A5 A6 A7 A8 A9 A10].
  split; try done; unfold node_at, id_bucket, pair_bucket, get_edge, find_edge_key, provenance_of, session_of, facet_of, url_ids, get_nodes_by_url,
    node_id_of, live_id, get_node, get_node_key_by_id in *; rw ?E1 ?E2 ?E3 ?E4 ?E5 ?E6; done.
Qed.

Definition related g h : Prop := k_inv g ∧ k_inv h ∧ agrees g h.

Lemma related_nav g h m : related g h → related (with_nav m g) (with_nav m h).
Proof.
  intros (Hg & Hh & Ha). split_and!; [by apply (inv_ext g)|by apply (inv_ext h)|].
  apply (agrees_ext g h); try done; by destruct Ha.
Qed.
Lemma related_fields g h f c : related g h → related (with_fields f c g) (with_fields f c h).
Proof.
  intros (Hg & Hh & Ha). split_and!; [by apply (inv_ext g)|by apply (inv_ext h)|].
  apply (agrees_ext g h); try done; by destruct Ha.
Qed.
Lemma related_bump g h : related g h → related (bump_revision g) (bump_revision h).
Proof.
  intros (Hg & Hh & Ha). split_and!; [by apply (inv_ext g)|by apply (inv_ext h)|]. apply (agrees_ext g h); try done; by destruct Ha.
Qed.
Lemma related_bump_l g h : related g h → related (bump_revision g) h.
Proof.
  intros (Hg & Hh & Ha). split_and!; [by apply (inv_ext g)|done|]. apply (agrees_ext g h); try done; by destruct Ha.
Qed.

(** *** Facets *)

Lemma facet_get_set (st : gmap U (gmap string J)) i f v j f' :
  facet_get (<[i := <[f := v]> (default ∅ (st !! i))]> st) j f' = if decide (j = i ∧ f' = f) then Some v else facet_get st j f'.
Proof.
  unfold facet_get. case_decide as Hd.
  - destruct Hd as [-> ->]. rw lookup_insert_eq. cbn. apply lookup_insert_eq.
  - destruct (decide (j = i)) as [->|Hj]; [|by rw lookup_insert_ne]. rw lookup_insert_eq. cbn. rw lookup_insert_ne; [|naive_solver].
    by destruct (st !! i); cbn; rw ?lookup_empty.
Qed.

Lemma facet_get_remove (st : gmap U (gmap string J)) i f j f' :
  facet_get (facet_remove st i f).2 j f' = if decide (j = i ∧ f' = f) then None else facet_get st j f'.
Proof.
  unfold facet_get, facet_remove. destruct (st !! i) as [fs|] eqn:Ei; cbn; [|case_decide as Hd; [destruct Hd as [-> _]; by rw Ei|done]].
  destruct (decide (j = i)) as [->|Hj]; cycle 1.
  { rw decide_False; [|by intros []]. case_bool_decide; by rw ?lookup_delete_ne ?lookup_insert_ne. }
  rw Ei. cbn. case_bool_decide as Hf.
  - rw lookup_delete_eq. cbn. case_decide as Hd; [done|]. assert (f' ≠ f) as Hne by naive_solver.
    assert (delete f fs !! f' = None) as Hn by by rw Hf lookup_empty. by rw lookup_delete_ne // in Hn.
  - rw lookup_insert_eq. cbn. case_decide as Hd; [destruct Hd as [_ ->]; apply lookup_delete_eq|]. rw lookup_delete_ne //. naive_solver.
Qed.

Lemma with_facets_same g : with_facets (r_facets (k_rest g)) g = g.
Proof. by destruct g as [? ? []]. Qed.

Lemma set_facet_frame g k f v :
  (set_node_facet_value g k f v).1 = with_facets (r_facets (k_rest (set_node_facet_value g k f v).1)) g.
Proof. unfold set_node_facet_value. destruct (node_id_of g k); [case_bool_decide|]; cbn; by rw ?with_facets_same. Qed.

Lemma set_facet_of g k i f v j f' :
  node_id_of g k = Some i → facet_of (set_node_facet_value g k f v).1 j f' = if decide (j = i ∧ f' = f) then Some v else facet_of g j f'.
Proof.
  intros Hk. unfold set_node_facet_value. rw Hk. case_bool_decide as Hf.
  - case_decide as Hd; [by destruct Hd as [-> ->]|done].
  - apply facet_get_set.
Qed.
Lemma set_facet_dom g k i f v j :
  node_id_of g k = Some i → is_Some (r_facets (k_rest (set_node_facet_value g k f v).1) !! j) → j = i ∨ is_Some (r_facets (k_rest g) !! j).
Proof.
  intros Hk. unfold set_node_facet_value. rw Hk. case_bool_decide; cbn; [by right|]. rw lookup_insert_is_Some'. naive_solver.
Qed.
Lemma set_facet_flag g k i f v : node_id_of g k = Some i → (set_node_facet_value g k f v).2 = negb (bool_decide (facet_of g i f = Some v)).
Proof. intros Hk. unfold set_node_facet_value. rw Hk. unfold facet_of. by case_bool_decide. Qed.

Lemma inv_with_facets g F :
  k_inv g → (∀ j, is_Some (F !! j) → live_id g j) →
  (∀ j, live_id g j → default [] (facet_get F j PROVENANCE_IMPORT ≫= from_value) = provenance_of g j) → k_inv (with_facets F g).
Proof.
  intros [I1 I2 I3 I4 I5 I6 I7 I8 I9] Hd Hp. split; try done; [by apply (wf_inner g)|]. intros i Hi. rw -I9 //. by apply Hp.
Qed.

Lemma agrees_with_facets g h F F' :
  agrees g h → (∀ j f, f ≠ VISIT_HISTORY → f ≠ PROVENANCE_IMPORT → facet_get F j f = facet_get F' j f) →
  (∀ j, live_id g j → provenance_of (with_facets F g) j = provenance_of (with_facets F' h) j) →
  (∀ j, session_of (with_facets F g) j = session_of (with_facets F' h) j) → agrees (with_facets F g) (with_facets F' h).
Proof. by intros [A1 A2 A3 A4 A5 A6 A7 A8 A9 A10] Hf Hp Hs. Qed.

Lemma agrees_id g h i k k' :
  wf g → wf h → agrees g h → get_node_key_by_id g i = Some k → get_node_key_by_id h i = Some k' → get_node g k = get_node h k'.
Proof. intros Hg Hh Ha Hk Hk'. pose proof (ag_nodes g h Ha i) as Hn. unfold node_at in Hn. by rw Hk Hk' in Hn. Qed.

Lemma node_facet_key {T} `{Facet J T} (d : T) g i k f :
  wf g → get_node_key_by_id g i = Some k → node_facet_or d g k f = default d (facet_of g i f ≫= from_value).
Proof. intros Hw Hk. apply node_id_key in Hk; [|done]. unfold node_facet_or, node_facet. by rw Hk. Qed.

Lemma inv_set_facet g i k f v : k_inv g → get_node_key_by_id g i = Some k → f ≠ PROVENANCE_IMPORT → k_inv (set_node_facet_value g k f v).1.
Proof.
  intros Hg Hk Hp. pose proof Hk as Hi%(node_id_key g k i (iv_wf g Hg)). rw set_facet_frame. apply inv_with_facets; [done| |].
  - intros j Hj%(set_facet_dom g k i f v j Hi). destruct Hj as [->|Hj]; [by eexists|by apply (iv_facets g Hg)].
  - intros j _. fold (facet_of (set_node_facet_value g k f v).1 j PROVENANCE_IMPORT). rw (set_facet_of g k i) // decide_False //. naive_solver.
Qed.

Abbreviation value_session v := (last_session_visited (default visit_history_default (from_value v))).

(** One facet of one node, in both graphs: of a visit history the clocks may
    differ, the session may not. *)
Lemma related_write g h i k k' f v v' :
  related g h → get_node_key_by_id g i = Some k → get_node_key_by_id h i = Some k' → f ≠ PROVENANCE_IMPORT →
  (f ≠ VISIT_HISTORY → v = v') → (f = VISIT_HISTORY → value_session v = value_session v') →
  related (set_node_facet_value g k f v).1 (set_node_facet_value h k' f v').1.
Proof.
  intros (Hg & Hh & Ha) Hk Hk' Hp Hv Hs. split_and!; [by eapply inv_set_facet|by eapply inv_set_facet|].
  pose proof Hk as Hi%(node_id_key g k i (iv_wf g Hg)). pose proof Hk' as Hi'%(node_id_key h k' i (iv_wf h Hh)).
  assert (∀ j f', facet_get (r_facets (k_rest (set_node_facet_value g k f v).1)) j f' = if decide (j = i ∧ f' = f) then Some v else facet_of g j f') as Eg by (intros; by apply set_facet_of).
  assert (∀ j f', facet_get (r_facets (k_rest (set_node_facet_value h k' f v').1)) j f' = if decide (j = i ∧ f' = f) then Some v' else facet_of h j f') as Eh by (intros; by apply set_facet_of).
  rw set_facet_frame (set_facet_frame h). apply agrees_with_facets; [done| | |].
  - intros j f' Hv' Hp'. rw Eg Eh. case_decide as Hd; [|by apply (ag_facets g h Ha)]. destruct Hd as [_ ->]. by rw Hv.
  - intros j Hj. unfold provenance_of, facet_of. cbn. rw Eg Eh !decide_False; [|naive_solver..]. by apply (ag_provenance g h Ha).
  - intros j. unfold session_of, facet_of. cbn. rw Eg Eh. case_decide as Hd; [|by apply (ag_sessions g h Ha)]. destruct Hd as [_ <-]. cbn. by apply Hs.
Qed.

Lemma related_set_facet g h i k k' f v :
  related g h → get_node_key_by_id g i = Some k → get_node_key_by_id h i = Some k' → f ≠ VISIT_HISTORY → f ≠ PROVENANCE_IMPORT →
  related (set_node_facet_value g k f v).1 (set_node_facet_value h k' f v).1 ∧
  (set_node_facet_value g k f v).2 = (set_node_facet_value h k' f v).2.
Proof.
  intros HR Hk Hk' Hv Hp. split; [by eapply related_write|]. destruct HR as (Hg & Hh & Ha).
  rw (set_facet_flag g k i); [|by apply node_id_key, Hk; apply Hg]. rw (set_facet_flag h k' i); [|by apply node_id_key, Hk'; apply Hh]. by rw (ag_facets g h Ha).
Qed.

Lemma related_set_visit g h i k k' (a b : VisitHistoryFacet) :
  related g h → get_node_key_by_id g i = Some k → get_node_key_by_id h i = Some k' → last_session_visited a = last_session_visited b →
  related (set_node_facet g k VISIT_HISTORY a).1 (set_node_facet h k' VISIT_HISTORY b).1.
Proof. intros HR Hk Hk' Hab. eapply related_write; [done..|]. intros _. by rw !(facet_roundtrip (J := J) (T := VisitHistoryFacet)). Qed.

Lemma session_read g i k :
  wf g → get_node_key_by_id g i = Some k → last_session_visited (node_facet_or visit_history_default g k VISIT_HISTORY) = session_of g i.
Proof. intros Hw Hk. by rw (node_facet_key visit_history_default g i k). Qed.

(** *** Writing a node *)

Lemma get_put_node g k n k' : get_node (put_node k n g) k' = if decide (k' = k) then (λ _, n) <$> get_node g k else get_node g k'.
Proof.
  unfold get_node, put_node, graph_node. cbn. rw sg_nodes_set_node. case_decide as Hd; [subst; apply lookup_alter_eq|by rw lookup_alter_ne].
Qed.

Lemma put_node_wf g k n n' : wf g → get_node g k = Some n → n_id n' = n_id n → wf (put_node k n' g).
Proof.
  intros [W1 W2 W3 W4] Hn Hid. unfold get_node, graph_node in Hn.
  split; unfold put_node, with_inner; cbn; rw ?sg_nodes_set_node ?sg_edges_set_node; try done.
  - intros i k'. rw W1. destruct (decide (k' = k)) as [->|Hk]; [|by rw lookup_alter_ne]. rw lookup_alter_eq Hn. cbn.
    split; intros (m & [= <-] & <-); eauto.
  - intros key a b p [[x Hx] [y Hy]]%W2. split; apply lookup_alter_is_Some; by eexists.
Qed.

Lemma put_node_buckets g k n n' i j : wf g → get_node g k = Some n → n_id n' = n_id n → id_bucket (put_node k n' g) i j = id_bucket g i j.
Proof.
  intros Hw Hn Hid. unfold id_bucket. change (get_node_key_by_id (put_node k n' g)) with (get_node_key_by_id g).
  destruct (get_node_key_by_id g i) as [a|]; [|done]. destruct (get_node_key_by_id g j) as [b|]; [|done]. cbn.
  apply (pair_bucket_edges n_id); [done|by eapply put_node_wf|]. intros k' p. cbn. by rw sg_edges_set_node.
Qed.

Lemma put_node_at g i k n n' j :
  wf g → get_node_key_by_id g i = Some k → get_node g k = Some n → node_at (put_node k n' g) j = if decide (j = i) then Some n' else node_at g j.
Proof.
  intros Hw Hk Hn. unfold node_at. change (get_node_key_by_id (put_node k n' g)) with (get_node_key_by_id g). case_decide as Hd.
  - subst j. rw Hk. cbn. rw get_put_node decide_True // Hn. done.
  - destruct (get_node_key_by_id g j) as [k'|] eqn:Ej; [|done]. cbn. rw get_put_node decide_False //. intros ->. apply Hd. by eapply (key_inj n_id).
Qed.

Lemma put_node_id_of g k n n' k' : get_node g k = Some n → n_id n' = n_id n → node_id_of (put_node k n' g) k' = node_id_of g k'.
Proof. intros Hn Hid. unfold node_id_of. rw get_put_node. case_decide as Hd; [|done]. subst. by rw Hn /= Hid. Qed.

Lemma inv_put_node g k n n' :
  k_inv g → get_node g k = Some n → n_id n' = n_id n → n_addresses n' = n_addresses n → k_inv (put_node k n' g).
Proof.
  intros [I1 I2 I3 I4 I5 I6 I7 I8 I9] Hn Hid Ha. split; try done; [by eapply put_node_wf| |].
  - intros k' m. rw get_put_node. case_decide as Hd; [|by apply I2]. rw Hn. cbn. intros [= <-]. rw Ha. by eapply I2.
  - intros url k'. change (get_nodes_by_url (put_node k n' g) url) with (get_nodes_by_url g url). rw I3 get_put_node. case_decide as Hd; [|done].
    subst k'. rw Hn. cbn. unfold node_url, primary_address. split; intros (m & [= <-] & Hm); eexists; (split; [done|]); [by rw Ha|by rw -Ha].
Qed.

Lemma related_put_node g h i k k' n n' :
  related g h → get_node_key_by_id g i = Some k → get_node_key_by_id h i = Some k' → get_node g k = Some n →
  n_id n' = n_id n → n_addresses n' = n_addresses n → related (put_node k n' g) (put_node k' n' h).
Proof.
  intros (Hg & Hh & Ha) Hk Hk' Hn Hid Had. pose proof (iv_wf g Hg) as Wg. pose proof (iv_wf h Hh) as Wh.
  assert (get_node h k' = Some n) as Hn' by by rw -(agrees_id g h i k k').
  split_and!; [by eapply inv_put_node|by eapply inv_put_node|]. destruct Ha as [A1 A2 A3 A4 A5 A6 A7 A8 A9 A10]. split; try done.
  - intros j. rw (put_node_at g i k n) // (put_node_at h i k' n) // A1. done.
  - intros a b. rw (put_node_buckets g k n) // (put_node_buckets h k' n) //.
  - intros url. unfold url_ids. change (get_nodes_by_url (put_node k n' g) url) with (get_nodes_by_url g url).
    change (get_nodes_by_url (put_node k' n' h) url) with (get_nodes_by_url h url).
    etrans; [|etrans; [apply A6|]]; apply list_fmap_ext; intros; [by eapply put_node_id_of|symmetry; by eapply put_node_id_of].
Qed.

(** *** Setters *)

(** An operation on the node of a key does in both graphs what it does in one;
    where it reports no change there was none; on a dead key it does nothing. *)
Record respects (op : Graph → Z → Graph * bool) : Prop := {
  re_related g h i k k' : related g h → get_node_key_by_id g i = Some k → get_node_key_by_id h i = Some k' →
    related (op g k).1 (op h k').1 ∧ ((op g k).2 = false → related (op g k).1 h);
  re_dead g k : get_node g k = None → op g k = (g, false)
}.

(** Either the node is gone, or it is the same in both graphs. *)
Lemma respects_intro op :
  (∀ g k, get_node g k = None → op g k = (g, false)) →
  (∀ g h i k k' n, related g h → get_node_key_by_id g i = Some k → get_node_key_by_id h i = Some k' →
     get_node g k = Some n → get_node h k' = Some n → related (op g k).1 (op h k').1 ∧ ((op g k).2 = false → related (op g k).1 h)) →
  respects op.
Proof.
  intros Hd Ho. split; [|done]. intros g h i k k' HR Hk Hk'. pose proof HR as (Hg & Hh & Ha).
  destruct (key_node g i k (iv_wf g Hg) Hk) as (n & Hn & _). apply (Ho g h i k k' n); try done. by rw -(agrees_id g h i k k' (iv_wf g Hg) (iv_wf h Hh)).
Qed.

Lemma facet_read {T} `{Facet J T} (d : T) g h i k k' f :
  related g h → get_node_key_by_id g i = Some k → get_node_key_by_id h i = Some k' → f ≠ VISIT_HISTORY → f ≠ PROVENANCE_IMPORT →
  node_facet_or d h k' f = node_facet_or d g k f.
Proof.
  intros (Hg & Hh & Ha) Hk Hk' Hv Hp. rw (node_facet_key d g i k) // ?(node_facet_key d h i k') //; [|apply Hh|apply Hg]. by rw (ag_facets g h Ha).
Qed.

Lemma set_false_related g h k f v : related g h → (set_node_facet_value g k f v).2 = false → related (set_node_facet_value g k f v).1 h.
Proof. unfold set_node_facet_value. destruct (node_id_of g k); [case_bool_decide|]; done. Qed.

(** A facet write on which both graphs agree. *)
Lemma respect_set {T} `{Facet J T} g h i k k' f (v : T) :
  related g h → get_node_key_by_id g i = Some k → get_node_key_by_id h i = Some k' → f ≠ VISIT_HISTORY → f ≠ PROVENANCE_IMPORT →
  related (set_node_facet g k f v).1 (set_node_facet h k' f v).1 ∧ ((set_node_facet g k f v).2 = false → related (set_node_facet g k f v).1 h).
Proof. intros HR Hk Hk' Hv Hp. split; [by eapply related_set_facet|by apply set_false_related]. Qed.

Ltac node_op :=
  apply respects_intro;
  [intros g k Hn; cbn; by rw Hn
  |intros g h i k k' n HR Hk Hk' Hn Hn'; cbn; rw Hn Hn'].

Ltac finish := first [done | split; [by eapply related_put_node|done] | by eapply respect_set].

Lemma title_respects t : respects (λ g k, set_node_title g k t).
Proof. unfold set_node_title. node_op. case_bool_decide; finish. Qed.
Lemma image_respects r x : respects (λ g k, set_node_image g k r x).
Proof. unfold set_node_image. node_op. case_bool_decide; finish. Qed.
Lemma nested_respects l : respects (λ g k, set_node_nested g k l).
Proof. unfold set_node_nested. node_op. case_bool_decide; finish. Qed.
Lemma mime_respects x : respects (λ g k, set_node_mime_hint g k x).
Proof. unfold set_node_mime_hint. node_op. case_bool_decide; finish. Qed.
Lemma content_respects x : respects (λ g k, set_node_content g k x).
Proof. unfold set_node_content. node_op. case_bool_decide; finish. Qed.
Lemma body_respects x : respects (λ g k, set_node_body g k x).
Proof. unfold set_node_body. node_op. destruct (_ && _); finish. Qed.
Lemma pinned_respects b : respects (λ g k, set_node_pinned g k b).
Proof.
  unfold set_node_pinned, node_is_pinned. node_op. cbn. rw (facet_read false g h i k k' ARRANGEMENT_PIN) //. case_bool_decide; finish.
Qed.
Lemma append_hint_respects x : respects (λ g k, append_frame_layout_hint g k x).
Proof. unfold append_frame_layout_hint. node_op. rw (facet_read [] g h i k k' ARRANGEMENT_FRAME_LAYOUT) //. finish. Qed.
Lemma remove_hint_respects x : respects (λ g k, remove_frame_layout_hint_at g k x).
Proof.
  unfold remove_frame_layout_hint_at. node_op. rw (facet_read [] g h i k k' ARRANGEMENT_FRAME_LAYOUT) //. case_bool_decide; finish.
Qed.
Lemma move_hint_respects a b : respects (λ g k, move_frame_layout_hint g k a b).
Proof.
  unfold move_frame_layout_hint. node_op. rw (facet_read [] g h i k k' ARRANGEMENT_FRAME_LAYOUT) //. destruct (_ || _); [done|].
  destruct (_ !! a); finish.
Qed.
Lemma suppress_respects b : respects (λ g k, set_frame_split_offer_suppressed g k b).
Proof.
  unfold set_frame_split_offer_suppressed, frame_split_offer_suppressed. node_op. cbn.
  rw (facet_read false g h i k k' ARRANGEMENT_SPLIT_OFFER_SUPPRESSED) //. case_bool_decide; finish.
Qed.
Lemma property_respects x : respects (λ g k, append_node_property g k x).
Proof.
  unfold append_node_property. node_op. rw (facet_read [] g h i k k' SEMANTIC_PROPERTIES) //. destruct (list_find _ _) as [[a e]|]; [|finish].
  destruct (_ || _); finish.
Qed.
Lemma add_classification_respects c : respects (λ g k, add_node_classification g k c).
Proof.
  unfold add_node_classification. node_op. rw (facet_read [] g h i k k' SEMANTIC_CLASSIFICATIONS) //. destruct (existsb _ _); finish.
Qed.
Lemma remove_classification_respects x v : respects (λ g k, remove_node_classification g k x v).
Proof.
  unfold remove_node_classification. node_op. rw (facet_read [] g h i k k' SEMANTIC_CLASSIFICATIONS) //. case_bool_decide; finish.
Qed.
Lemma classification_status_respects x v t : respects (λ g k, set_node_classification_status g k x v t).
Proof.
  unfold set_node_classification_status. node_op. rw (facet_read [] g h i k k' SEMANTIC_CLASSIFICATIONS) //. destruct (existsb _ _); finish.
Qed.
Lemma primary_classification_respects x v : respects (λ g k, set_node_primary_classification g k x v).
Proof.
  unfold set_node_primary_classification. node_op. rw (facet_read [] g h i k k' SEMANTIC_CLASSIFICATIONS) //. destruct (existsb _ _); finish.
Qed.
Lemma derivation_respects x : respects (λ g k, record_derivation g k x).
Proof. unfold record_derivation. node_op. rw (facet_read [] g h i k k' PROVENANCE_DERIVATIONS) //. case_bool_decide; finish. Qed.
Lemma icon_respects tag icon : respects (λ g k, set_node_tag_icon_override g k tag icon).
Proof.
  unfold set_node_tag_icon_override. node_op. rw (facet_read presentation_default g h i k k' PRESENTATION_TAGS) //.
  destruct (_ || _); [done|]. destruct icon; case_bool_decide; finish.
Qed.

Lemma tag_respects tag : respects (λ g k, insert_node_tag g k tag).
Proof.
  unfold insert_node_tag. node_op. case_bool_decide; [done|]. set (n' := node_with_tags _ n).
  assert (related (put_node k n' g) (put_node k' n' h)) as HR' by by eapply related_put_node.
  rw (facet_read presentation_default _ _ i k k' PRESENTATION_TAGS HR') //. case_bool_decide; [done|]. cbn [fst snd]. split; [|done].
  by apply (respect_set _ _ i).
Qed.
Lemma untag_respects tag : respects (λ g k, remove_node_tag g k tag).
Proof.
  unfold remove_node_tag. node_op. destruct (negb _); [done|]. set (n' := node_with_tags _ n).
  assert (related (put_node k n' g) (put_node k' n' h)) as HR' by by eapply related_put_node.
  rw (facet_read presentation_default _ _ i k k' PRESENTATION_TAGS HR') //. cbn [fst snd]. split; [|done]. by apply (respect_set _ _ i).
Qed.

(** Every facet but the one that is derived from the import records. *)
Definition free_facet (f : string) : Prop := f ≠ PROVENANCE_IMPORT.

Lemma facet_value_respects f v : free_facet f → respects (λ g k, set_node_facet_value g k f v).
Proof.
  intros Hp. split.
  - intros g h i k k' HR Hk Hk'. split; [by eapply related_write|by apply set_false_related].
  - intros g k Hn. unfold set_node_facet_value, node_id_of. by rw Hn.
Qed.

Lemma facet_removed g k i f j f' :
  node_id_of g k = Some i → facet_of (remove_node_facet g k f).1 j f' = if decide (j = i ∧ f' = f) then None else facet_of g j f'.
Proof.
  intros Hk. unfold remove_node_facet. rw Hk. pose proof (facet_get_remove (r_facets (k_rest g)) i f j f') as Hr. by destruct (facet_remove _ _ _).
Qed.
Lemma remove_facet_frame g k f : (remove_node_facet g k f).1 = with_facets (r_facets (k_rest (remove_node_facet g k f).1)) g.
Proof. unfold remove_node_facet. destruct (node_id_of g k); [by destruct (facet_remove _ _ _)|]. cbn. by rw with_facets_same. Qed.
Lemma remove_facet_dom g k f j : is_Some (r_facets (k_rest (remove_node_facet g k f).1) !! j) → is_Some (r_facets (k_rest g) !! j).
Proof.
  unfold remove_node_facet. destruct (node_id_of g k) as [i|]; [|done]. unfold facet_remove. destruct (r_facets (k_rest g) !! i) as [fs|] eqn:Ei; [|done]. cbn.
  case_bool_decide; [rw lookup_delete_is_Some; naive_solver|]. rw lookup_insert_is_Some'. intros [<-|?]; [by rw Ei|done].
Qed.
Lemma remove_facet_flag g k i f : node_id_of g k = Some i → (remove_node_facet g k f).2 = bool_decide (is_Some (facet_of g i f)).
Proof.
  intros Hk. unfold remove_node_facet. rw Hk. unfold facet_of, facet_get, facet_remove. by destruct (r_facets (k_rest g) !! i).
Qed.

Lemma inv_remove_facet g k f : k_inv g → f ≠ PROVENANCE_IMPORT → k_inv (remove_node_facet g k f).1.
Proof.
  intros Hg Hp. destruct (node_id_of g k) as [i|] eqn:Hk; [|unfold remove_node_facet; by rw Hk].
  rw remove_facet_frame. apply inv_with_facets; [done| |].
  - intros j Hj%remove_facet_dom. by apply (iv_facets g Hg).
  - intros j _. fold (facet_of (remove_node_facet g k f).1 j PROVENANCE_IMPORT). rw (facet_removed g k i) // decide_False //. naive_solver.
Qed.

Lemma remove_facet_respects f : free_facet f → respects (λ g k, remove_node_facet g k f).
Proof.
  intros Hp. split; cycle 1. { intros g k Hn. unfold remove_node_facet, node_id_of. by rw Hn. }
  intros g h i k k' HR Hk Hk'. pose proof HR as (Hg & Hh & Ha).
  pose proof Hk as Hi%(node_id_key g k i (iv_wf g Hg)). pose proof Hk' as Hi'%(node_id_key h k' i (iv_wf h Hh)).
  assert (∀ j f', facet_get (r_facets (k_rest (remove_node_facet g k f).1)) j f' = if decide (j = i ∧ f' = f) then None else facet_of g j f') as Eg by (intros; by apply facet_removed).
  assert (∀ j f', facet_get (r_facets (k_rest (remove_node_facet h k' f).1)) j f' = if decide (j = i ∧ f' = f) then None else facet_of h j f') as Eh by (intros; by apply facet_removed).
  split.
  - split_and!; [by apply inv_remove_facet|by apply inv_remove_facet|]. rw remove_facet_frame (remove_facet_frame h). apply agrees_with_facets; [done|..].
    + intros j f' Hv' Hp'. rw Eg Eh. case_decide; [done|]. by apply (ag_facets g h Ha).
    + intros j Hj. unfold provenance_of, facet_of. cbn. rw Eg Eh !decide_False; [|naive_solver..]. by apply (ag_provenance g h Ha).
    + intros j. unfold session_of, facet_of. cbn. rw Eg Eh. case_decide; [done|]. by apply (ag_sessions g h Ha).
  - rw (remove_facet_flag g k i) //. intros Hf%bool_decide_eq_false%eq_None_not_Some. split_and!; [by apply inv_remove_facet|done|]. rw remove_facet_frame.
    assert (∀ j f', facet_get (r_facets (k_rest (remove_node_facet g k f).1)) j f' = facet_of g j f') as Es.
    { intros j f'. rw Eg. case_decide as Hd; [destruct Hd as [-> ->]; done|done]. }
    rw -{1}(with_facets_same h). apply agrees_with_facets; [done|..].
    + intros j f' Hv' Hp'. rw Es. by apply (ag_facets g h Ha).
    + intros j Hj. rw with_facets_same. unfold provenance_of, facet_of. cbn. rw Es. by apply (ag_provenance g h Ha).
    + intros j. rw with_facets_same. unfold session_of, facet_of. cbn. rw Es. by apply (ag_sessions g h Ha).
Qed.

Lemma touch_respects t : respects (λ g k, set_node_last_visited_at_ms g k t).
Proof.
  unfold set_node_last_visited_at_ms. node_op. split; [|by apply set_false_related]. eapply related_set_visit; [done..|]. cbn.
  rw (session_read g i k) // ?(session_read h i k') //; [apply HR|apply HR|apply HR].
Qed.
Lemma session_respects t : respects (λ g k, set_node_last_session_visited g k t).
Proof.
  unfold set_node_last_session_visited. node_op. pose proof HR as (Hg & Hh & Ha).
  rw (session_read g i k) // ?(session_read h i k') //; [|apply Hh|apply Hg]. rw (ag_sessions g h Ha). case_bool_decide; [done|].
  split; [by eapply related_set_visit|by apply set_false_related].
Qed.
End relate.
