(* ===== verification/KernelUrls.v ===== *)
(** Addresses and lifecycle in related graphs
    (crates/graph/graph-kernel/src/graph/mod.rs): moving a node to another URL,
    adding a node, removing one. *)

From S2P Require Import Prelude Wire Journal SlotMap Stemma StableGraph GraphLog KernelEdges KernelGraph KernelNav KernelNode KernelImports KernelDelta KernelRelate.

Local Open Scope Z_scope.

Section urls.
Context {G : Type → Type → Type} `{StableGraph G} {M : Type → Type} `{SlotMap M} `{HashOrder} `{WebText}.
Context {U : Type} `{Countable U} `{UuidText U} {J D : Type} `{EqDecision J}.
Context `{Facet J VisitHistoryFacet} `{Facet J (list NodeImportProvenance)} `{!FacetRoundtrip J VisitHistoryFacet}.

Abbreviation Graph := (KGraph (G := G) (N := Node U) (Id := U) (R := Rest (U := U) (J := J) (D := D))).
Implicit Types (g h : Graph) (i j : U) (k key : Z).
Abbreviation text := uuid_to_string.
Abbreviation wf := (kg_wf n_id).

(** ** The index *)

Definition urls_nonempty g : Prop := ∀ url, url_to_nodes (k_rest g) !! url ≠ Some [].

Lemma urls_push g u k url :
  get_nodes_by_url (push_url u k g) url = get_nodes_by_url g url ++ (if decide (url = u) then [k] else []).
Proof.
  unfold get_nodes_by_url, push_url. cbn. case_decide as Hd.
  - subst. by rw lookup_insert_eq.
  - rw lookup_insert_ne // app_nil_r. done.
Qed.
Lemma push_nonempty g u k : urls_nonempty g → urls_nonempty (push_url u k g).
Proof.
  intros Hg url. unfold push_url. cbn. destruct (decide (url = u)) as [->|Hu]; [|rw lookup_insert_ne //; apply Hg].
  rw lookup_insert_eq. intros [= Hn]. by destruct (app_cons_not_nil _ _ _ (eq_sym Hn)).
Qed.

Lemma urls_remove g u k url :
  get_nodes_by_url (remove_url_mapping u k g) url = if decide (url = u) then filter (λ x, x ≠ k) (get_nodes_by_url g url) else get_nodes_by_url g url.
Proof.
  unfold get_nodes_by_url, remove_url_mapping. destruct (url_to_nodes (k_rest g) !! u) as [keys|] eqn:Eu; cycle 1.
  { case_decide as Hd; [|done]. subst. by rw Eu. }
  case_decide as Hd.
  - subst. rw Eu. cbn. destruct (filter _ keys); [by rw lookup_delete_eq|by rw lookup_insert_eq].
  - cbn. destruct (filter _ keys); [by rw lookup_delete_ne|by rw lookup_insert_ne].
Qed.
Lemma remove_nonempty g u k : urls_nonempty g → urls_nonempty (remove_url_mapping u k g).
Proof.
  intros Hg url. unfold remove_url_mapping. destruct (url_to_nodes (k_rest g) !! u) as [keys|]; [|apply Hg]. cbn.
  destruct (filter _ keys) eqn:Ef; (destruct (decide (url = u)) as [->|Hu]; [by rw ?lookup_delete_eq ?lookup_insert_eq|]).
  - by rw lookup_delete_ne.
  - by rw lookup_insert_ne.
Qed.

Lemma filter_absent k (l : list Z) : k ∉ l → filter (λ x, x ≠ k) l = l.
Proof. intros Hk. induction l as [|x l IH]; [done|]. apply not_elem_of_cons in Hk as [Hx Hl]. rw filter_cons_True //. by rw IH. Qed.

(** The key of a node is only under the node's own URL. *)
Lemma urls_forget g k n old url :
  k_inv g → get_node g k = Some n → node_url n = Some old →
  (if decide (url = old) then filter (λ x, x ≠ k) (get_nodes_by_url g url) else get_nodes_by_url g url) =
  filter (λ x, x ≠ k) (get_nodes_by_url g url).
Proof.
  intros Hg Hn Ho. case_decide as Hd; [done|]. rw filter_absent //. rw (iv_urls g Hg). intros (m & Hm & Hu). congruence.
Qed.

Lemma ids_forget g k i (l : list Z) :
  wf g → get_node_key_by_id g i = Some k → node_id_of g <$> filter (λ x, x ≠ k) l = filter (λ o, o ≠ Some i) (node_id_of g <$> l).
Proof.
  intros Hw Hk. induction l as [|x l IH]; [done|]. cbn [fmap list_fmap]. rw !filter_cons.
  assert (x ≠ k ↔ node_id_of g x ≠ Some i) as Hx by (rw node_id_key // Hk; naive_solver).
  case_decide; case_decide; try tauto. cbn. by rw IH.
Qed.

(** ** Moving a node *)

Definition moved_node (n : Node U) (old new : string) : Node U :=
  node_with_addresses [address_from_url new]
    (node_with_images (if bool_decide (cached_host_from_url old ≠ cached_host_from_url new) then delete Favicon (n_images n) else n_images n) n).

Lemma as_url_from_url url : as_url_str (address_from_url url) = url.
Proof. unfold address_from_url. by repeat case_match. Qed.
Lemma moved_url n old new : node_url (moved_node n old new) = Some new.
Proof. unfold node_url, primary_address. cbn. by rw as_url_from_url. Qed.

Lemma node_url_address g k n : k_inv g → get_node g k = Some n → ∃ a, n_addresses n = [a] ∧ node_url n = Some (as_url_str a).
Proof. intros Hg Hn. destruct (iv_address g Hg k n Hn) as [a Ha]. exists a. split; [done|]. unfold node_url, primary_address. by rw Ha. Qed.

Lemma update_url_spec g k n new :
  k_inv g → get_node g k = Some n → ∃ old W,
  node_url n = Some old ∧ update_node_url g k new = Some (with_urls W (put_node k (moved_node n old new) g), Some old) ∧
  (∀ url, default [] (W !! url) = filter (λ x, x ≠ k) (get_nodes_by_url g url) ++ (if decide (url = new) then [k] else [])) ∧
  (∀ url, W !! url ≠ Some []).
Proof.
  intros Hg Hn. destruct (node_url_address g k n Hg Hn) as (a & Ha & Hu). unfold node_url in Hu.
  set (n' := moved_node n (as_url_str a) new). set (g' := push_url new k (remove_url_mapping (as_url_str a) k (put_node k n' g))).
  exists (as_url_str a), (url_to_nodes (k_rest g')). split_and!; [done| | |].
  - unfold update_node_url. rw Hn Hu. cbn. do 2 f_equal. rw Ha. fold (moved_node n (as_url_str a) new). fold n'. fold g'.
    unfold g', push_url, remove_url_mapping. by destruct (_ !! as_url_str a).
  - intros url. change (default [] (url_to_nodes (k_rest g') !! url)) with (get_nodes_by_url g' url). unfold g'. rw urls_push urls_remove.
    f_equal. by apply (urls_forget g k n).
  - apply push_nonempty, remove_nonempty. intros url. apply (iv_urls_nonempty g Hg).
Qed.

Section moved.
Context g k (new : string) (n n' : Node U) (W : gmap string (list Z)).
Hypothesis Hg : k_inv g.
Hypothesis Hn : get_node g k = Some n.
Hypothesis Hid : n_id n' = n_id n.
Hypothesis Ha : n_addresses n' = [address_from_url new].
Hypothesis HW : ∀ url, default [] (W !! url) = filter (λ x, x ≠ k) (get_nodes_by_url g url) ++ (if decide (url = new) then [k] else []).
Hypothesis HW' : ∀ url, W !! url ≠ Some [].
Abbreviation g' := (with_urls W (put_node k n' g)).

Lemma inv_moved : k_inv g'.
Proof.
  destruct Hg as [I1 I2 I3 I4 I5 I6 I7 I8 I9]. assert (node_url n' = Some new) as Hu'.
  { unfold node_url, primary_address. rw Ha /= as_url_from_url. done. }
  assert (∀ k', get_node g' k' = if decide (k' = k) then Some n' else get_node g k') as Hget.
  { intros k'. etrans; [apply (get_put_node g k n')|]. by rw Hn. }
  split; try done.
  - apply (wf_inner (put_node k n' g)); [done|]. by eapply put_node_wf.
  - intros k' m. rw Hget. case_decide; [intros [= <-]; eauto|apply I2].
  - intros url k'. unfold get_nodes_by_url. cbn. rw HW elem_of_app list_elem_of_filter I3 Hget. destruct (decide (k' = k)) as [->|Hk'].
    + case_decide as Hd; [subst; rw list_elem_of_singleton; naive_solver|]. split; [intros [[? _]|?%elem_of_nil]; done|].
      intros (m & [= <-] & Hm). congruence.
    + assert (k' ∉ (if decide (url = new) then [k] else [])) as Hno by (case_decide; rw ?list_elem_of_singleton; [done|apply not_elem_of_nil]). tauto.
  - intros url. unfold get_nodes_by_url. cbn. rw HW. apply NoDup_app. split_and!; [by apply NoDup_filter, I4| |].
    + intros x [Hx _]%list_elem_of_filter. case_decide; rw ?list_elem_of_singleton; [done|apply not_elem_of_nil].
    + case_decide; [apply NoDup_singleton|apply NoDup_nil_2].
Qed.

Lemma moved_url_ids i url :
  get_node_key_by_id g i = Some k → url_ids g' url = filter (λ o, o ≠ Some i) (url_ids g url) ++ (if decide (url = new) then [Some i] else []).
Proof.
  intros Hk. unfold url_ids, get_nodes_by_url at 1. cbn. rw HW fmap_app.
  assert (∀ x, node_id_of g' x = node_id_of g x) as Hx by (intros; by apply (put_node_id_of g k n n')).
  rw (list_fmap_ext _ (node_id_of g)); [|done]. rw (ids_forget g k i) //; [|apply Hg]. f_equal. case_decide; [|done]. cbn. rw Hx. f_equal.
  apply node_id_key; [apply Hg|done].
Qed.
End moved.

Lemma related_update_url g h i k k' new :
  related g h → get_node_key_by_id g i = Some k → get_node_key_by_id h i = Some k' →
  ∃ g' h' old, update_node_url g k new = Some (g', Some old) ∧ update_node_url h k' new = Some (h', Some old) ∧ related g' h'.
Proof.
  intros HR Hk Hk'. pose proof HR as (Hg & Hh & Ha). destruct (key_node g i k (iv_wf g Hg) Hk) as (n & Hn & Hid).
  assert (get_node h k' = Some n) as Hn' by by rw -(agrees_id g h i k k' (iv_wf g Hg) (iv_wf h Hh)).
  destruct (update_url_spec g k n new Hg Hn) as (old & W & Hu & Eg & HW & HW'). destruct (update_url_spec h k' n new Hh Hn') as (old' & V & Hu' & Eh & HV & HV').
  assert (old' = old) as -> by congruence. eexists _, _, old. split_and!; [done|done|]. set (n' := moved_node n old new) in *.
  assert (n_id n' = n_id n) as Hi by done. assert (n_addresses n' = [address_from_url new]) as Had by done.
  split_and!; [by eapply inv_moved|by eapply inv_moved|]. destruct Ha as [A1 A2 A3 A4 A5 A6 A7 A8 A9 A10]. split; try done.
  - intros j. etrans; [apply (put_node_at g i k n n' j (iv_wf g Hg) Hk Hn)|]. etrans; [|symmetry; apply (put_node_at h i k' n n' j (iv_wf h Hh) Hk' Hn')]. by rw A1.
  - intros a b. etrans; [|etrans; [apply A2|]]; f_equal; [by apply (put_node_buckets g k n n' a b (iv_wf g Hg))|symmetry; by apply (put_node_buckets h k' n n' a b (iv_wf h Hh))].
  - intros url. rw (moved_url_ids g k new n n' W Hg Hn Hi HW i) // (moved_url_ids h k' new n n' V Hh Hn' Hi HV i) // A6. done.
Qed.

(** ** Adding a node *)

Lemma inserted_spec g n :
  wf g → get_node_key_by_id g (n_id n) = None →
  let '(key, ig) := graph_insert n_id (k_inner g) n in
  get_node g key = None ∧ wf (with_inner ig g) ∧
  (∀ k, get_node (with_inner ig g) k = if decide (k = key) then Some n else get_node g k) ∧
  (∀ j, get_node_key_by_id (with_inner ig g) j = if decide (j = n_id n) then Some key else get_node_key_by_id g j) ∧
  (∀ a b, id_bucket (with_inner ig g) a b = id_bucket g a b).
Proof.
  intros Hw Hi. destruct (insert_node_wf n_id g n (k_revision g) (k_rest g) Hw) as [Hw' He]. unfold get_node_key_by_id, key_of in Hi.
  unfold graph_insert in *. rw Hi in Hw' He |- *. pose proof (add_node_fresh _ _ n (inner (k_inner g))) as Hf.
  pose proof (sg_nodes_add_node _ _ n (inner (k_inner g))) as Hn. destruct (StableGraph.add_node n (inner (k_inner g))) as [key ig]. cbn in *.
  assert (∀ j, get_node_key_by_id (with_inner (mkGraph ig (<[n_id n := key]> (by_id (k_inner g)))) g) j =
    if decide (j = n_id n) then Some key else get_node_key_by_id g j) as Hkey.
  { intros j. unfold get_node_key_by_id, key_of. cbn. case_decide; [subst; by rw lookup_insert_eq|by rw lookup_insert_ne]. }
  split_and!; [done|done| |done|].
  - intros k. unfold get_node, graph_node. cbn. rw Hn. case_decide; [subst; by rw lookup_insert_eq|by rw lookup_insert_ne].
  - assert (∀ k x y p, sg_edges (inner (k_inner g)) !! k = Some (x, y, p) → x ≠ key ∧ y ≠ key) as Hends.
    { intros k x y p [[? Hx] [? Hy]]%(kw_ends n_id g Hw). split; intros ->; congruence. }
    assert (∀ x y, x = key ∨ y = key → pair_bucket (with_inner (mkGraph ig (<[n_id n := key]> (by_id (k_inner g)))) g) x y = None) as Hnone.
    { intros x y Hxy. apply (pair_bucket_None n_id); [done|]. intros k p. cbn. rw He. intros [? ?]%Hends. tauto. }
    assert (∀ j, j = n_id n → get_node_key_by_id g j = None) as Hnew by (intros j ->; done).
    intros a b. unfold id_bucket. rw !Hkey. destruct (decide (a = n_id n)) as [Ha|Ha].
    { rw (Hnew a Ha). cbn. destruct (if decide (b = n_id n) then _ else _); [cbn; apply Hnone; by left|done]. }
    destruct (get_node_key_by_id g a) as [x|]; [|done]. cbn. destruct (decide (b = n_id n)) as [Hb|Hb].
    { rw (Hnew b Hb). cbn. apply Hnone. by right. }
    destruct (get_node_key_by_id g b) as [y|]; [|done]. cbn. apply (pair_bucket_edges n_id); [done|done|]. intros k p. cbn. by rw He.
Qed.

Lemma unmentioned_sources rs x : ¬ mentions rs x → record_sources rs x = [].
Proof.
  intros Hx. unfold record_sources. induction rs as [|r rs IH]; [done|]. cbn. rw IH; [|intros (r' & Hr & Hin); apply Hx; exists r'; split; [by right|done]].
  rw app_nil_r. assert (x ∉ im_node_id <$> ir_memberships r) as Hno by (intros Hin; apply Hx; exists r; split; [by left|done]).
  clear Hx IH. induction (ir_memberships r) as [|m ms IH]; [done|]. cbn in *. apply not_elem_of_cons in Hno as [Hm Hms].
  destruct (im_suppressed m); [by apply IH|]. rw bool_decide_eq_false_2 //. by apply IH.
Qed.

Lemma dead_facets g i : k_inv g → get_node_key_by_id g i = None → r_facets (k_rest g) !! i = None.
Proof. intros Hg Hi. apply eq_None_not_Some. intros [k Hk]%(iv_facets g Hg). congruence. Qed.
Lemma dead_member g i : k_inv g → get_node_key_by_id g i = None → ¬ mentions (import_records (k_rest g)) (text i).
Proof. intros Hg Hi (j & [k Hk] & Hj%uuid_to_string_inj)%(iv_members g Hg). congruence. Qed.

(** The graph with the node in it and indexed, before its visit is stamped. *)
Definition placed_with g (n : Node U) (url : string) : Graph :=
  let '(key, ig) := graph_insert n_id (k_inner g) n in push_url url key (with_inner ig g).
Definition placed g (i : U) (url : string) : Graph := placed_with g (new_node i url) url.

Lemma placed_with_spec g n a url :
  k_inv g → get_node_key_by_id g (n_id n) = None → n_addresses n = [a] → as_url_str a = url → ∃ key,
  key = (graph_insert n_id (k_inner g) n).1 ∧
  get_node g key = None ∧ k_inv (placed_with g n url) ∧ k_rest (placed_with g n url) = k_rest (push_url url key g) ∧
  (∀ k, get_node (placed_with g n url) k = if decide (k = key) then Some n else get_node g k) ∧
  (∀ j, get_node_key_by_id (placed_with g n url) j = if decide (j = n_id n) then Some key else get_node_key_by_id g j) ∧
  (∀ a b, id_bucket (placed_with g n url) a b = id_bucket g a b).
Proof.
  intros Hg Hi Ha Hau. pose proof (inserted_spec g n (iv_wf g Hg) Hi) as Hs. unfold placed_with.
  destruct (graph_insert n_id (k_inner g) n) as [key ig]. destruct Hs as (Hf & Hw & Hget & Hkey & Hb).
  set (g' := push_url url key (with_inner ig g)). exists key. assert (∀ j, live_id g j → live_id g' j) as Hmono.
  { intros j [k Hk]. exists k. etrans; [apply Hkey|]. rw decide_False //. intros ->. congruence. }
  assert (node_url n = Some url) as Hurl by (unfold node_url, primary_address; rw Ha; cbn; by rw Hau).
  assert (∀ x, get_nodes_by_url g' x = get_nodes_by_url g x ++ (if decide (x = url) then [key] else [])) as Hurls by (intros; apply (urls_push (with_inner ig g))).
  split_and!; try done. split.
  - by apply (wf_inner (with_inner ig g)).
  - intros k m Hm. rw (Hget k : get_node g' k = _) in Hm. case_decide; [injection Hm as <-; by eexists|by eapply (iv_address g Hg)].
  - intros x k. rw Hurls elem_of_app (iv_urls g Hg) (Hget k : get_node g' k = _). destruct (decide (k = key)) as [->|Hk].
    + rw Hf. case_decide as Hx; [subst; rw list_elem_of_singleton; naive_solver|]. split; [intros [(? & ? & _)|?%elem_of_nil]; done|].
      intros (m & [= <-] & Hm). congruence.
    + assert (k ∉ (if decide (x = url) then [key] else [])) as Hno by (case_decide; rw ?list_elem_of_singleton; [done|apply not_elem_of_nil]). tauto.
  - intros x. rw Hurls. apply NoDup_app. split_and!; [apply (iv_urls_NoDup g Hg)| |case_decide; [apply NoDup_singleton|apply NoDup_nil_2]].
    intros k (m & Hm & _)%(iv_urls g Hg). case_decide; rw ?list_elem_of_singleton; [intros ->; congruence|apply not_elem_of_nil].
  - apply push_nonempty. intros x. apply (iv_urls_nonempty g Hg).
  - intros j Hj. by apply Hmono, (iv_facets g Hg).
  - apply (iv_records g Hg).
  - intros x (j & Hj & ->)%(iv_members g Hg). exists j. split; [by apply Hmono|done].
  - intros j [k Hk]. rw (Hkey j : get_node_key_by_id g' j = _) in Hk. case_decide as Hj; [|by apply (iv_sync g Hg); exists k]. subst j.
    change (import_records (k_rest g')) with (import_records (k_rest g)). rw (unmentioned_sources _ _ (dead_member g (n_id n) Hg Hi)).
    unfold provenance_of, facet_of, facet_get. change (r_facets (k_rest g')) with (r_facets (k_rest g)). by rw (dead_facets g (n_id n) Hg Hi).
Qed.

Lemma placed_spec g i url :
  k_inv g → get_node_key_by_id g i = None → ∃ key,
  get_node g key = None ∧ k_inv (placed g i url) ∧ k_rest (placed g i url) = k_rest (push_url url key g) ∧
  (∀ k, get_node (placed g i url) k = if decide (k = key) then Some (new_node i url) else get_node g k) ∧
  (∀ j, get_node_key_by_id (placed g i url) j = if decide (j = i) then Some key else get_node_key_by_id g j) ∧
  (∀ a b, id_bucket (placed g i url) a b = id_bucket g a b).
Proof.
  intros Hg Hi. destruct (placed_with_spec g (new_node i url) (address_from_url url) url Hg Hi) as (key & _ & Hs); [done|apply as_url_from_url|]. by exists key.
Qed.

Lemma related_placed g h i url :
  related g h → get_node_key_by_id g i = None → get_node_key_by_id h i = None → related (placed g i url) (placed h i url).
Proof.
  intros (Hg & Hh & Ha) Hi Hi'. destruct (placed_spec g i url Hg Hi) as (k & Hf & Ig & Rg & Ng & Kg & Bg).
  destruct (placed_spec h i url Hh Hi') as (k' & Hf' & Ih & Rh & Nh & Kh & Bh). destruct Ha as [A1 A2 A3 A4 A5 A6 A7 A8 A9 A10].
  assert (∀ (g : Graph) k x, get_node g k = None → k_inv g → (∀ y, get_node x y = if decide (y = k) then Some (new_node i url) else get_node g y) →
    k_rest x = k_rest (push_url url k g) → ∀ u, url_ids x u = url_ids g u ++ (if decide (u = url) then [Some i] else [])) as Hu.
  { clear. intros g k x Hf Hg Hx Hr u. unfold url_ids. assert (get_nodes_by_url x u = get_nodes_by_url (push_url url k g) u) as -> by (unfold get_nodes_by_url; by rw Hr).
    rw urls_push fmap_app. assert (∀ y, node_id_of x y = if decide (y = k) then Some i else node_id_of g y) as Hy.
    { intros y. unfold node_id_of. rw Hx. by case_decide. }
    f_equal.
    - apply list_fmap_ext. intros ? y Hin%list_elem_of_lookup_2. rw Hy decide_False //. intros ->. apply (iv_urls g Hg) in Hin as (? & ? & _). congruence.
    - case_decide; [|done]. cbn. by rw Hy decide_True. }
  split_and!; [done|done|]. split; rw ?Rg ?Rh; try done.
  - intros j. unfold node_at. rw Kg Kh. case_decide; cbn; [rw Ng Nh !decide_True //|]. pose proof (A1 j) as Hj. unfold node_at in Hj.
    destruct (get_node_key_by_id g j) as [x|] eqn:Ej, (get_node_key_by_id h j) as [y|] eqn:Ej'; cbn in *; try done.
    + rw Ng Nh !decide_False //; intros ->; [destruct (key_node h j k' (iv_wf h Hh) Ej') as (? & ? & _)|destruct (key_node g j k (iv_wf g Hg) Ej) as (? & ? & _)]; congruence.
    + destruct (key_node g j x (iv_wf g Hg) Ej) as (? & ? & _). congruence.
    + destruct (key_node h j y (iv_wf h Hh) Ej') as (? & ? & _). congruence.
  - intros a b. by rw Bg Bh.
  - intros j f. unfold facet_of. rw Rg Rh. apply A3.
  - intros j [x Hx]. rw Kg in Hx. unfold provenance_of, facet_of. rw Rg Rh. case_decide; [|by apply A4; exists x]. subst j.
    cbn. unfold facet_get. by rw (dead_facets g i Hg Hi) (dead_facets h i Hh Hi').
  - intros j. unfold session_of, facet_of. rw Rg Rh. apply A5.
  - intros u. rw (Hu g k (placed g i url)) // (Hu h k' (placed h i url)) // A6. done.
Qed.

Lemma add_node_placed env g i url :
  k_inv g → get_node_key_by_id g i = None → ∃ key, get_node_key_by_id (placed g i url) i = Some key ∧
  add_node_with_id env g i url = (bump_revision (set_node_last_visited_at_ms (placed g i url) key (now_ms env)).1, key).
Proof.
  intros Hg Hi. destruct (placed_spec g i url Hg Hi) as (key & Hf & _ & _ & _ & Hk & _). unfold placed, placed_with in *.
  exists key. rw Hk decide_True //. split; [done|]. pose proof (inserted_spec g (new_node i url) (iv_wf g Hg) Hi) as Hs. unfold add_node_with_id.
  destruct (graph_insert n_id (k_inner g) (new_node i url)) as [key' ig]. destruct Hs as (_ & _ & _ & Hk' & _). cbn [n_id new_node] in Hk'.
  assert (key' = key) as ->. { pose proof (Hk' i) as E1. pose proof (Hk i) as E2. rw decide_True // in E1. rw decide_True // in E2.
    change (get_node_key_by_id (push_url url key' (with_inner ig g)) i) with (get_node_key_by_id (with_inner ig g) i) in E2. congruence. }
  f_equal. f_equal. set (g1 := with_inner ig g). change (push_url url key g1) with (with_urls (url_to_nodes (k_rest (push_url url key g1))) g1).
  unfold set_node_last_visited_at_ms. change (get_node (with_urls _ g1) key) with (get_node g1 key). destruct (get_node g1 key) eqn:En; [|done].
  unfold set_node_facet, set_node_facet_value. change (node_id_of (with_urls _ g1) key) with (node_id_of g1 key).
  destruct (node_id_of g1 key) as [j|] eqn:Ej; [|done]. unfold node_facet_or, node_facet.
  change (node_id_of (with_urls _ g1) key) with (node_id_of g1 key). rw Ej. cbn. by case_bool_decide.
Qed.

Lemma related_add env env' g h i url :
  related g h → get_node_key_by_id g i = None → get_node_key_by_id h i = None →
  related (add_node_with_id env g i url).1 (add_node_with_id env' h i url).1 ∧
  node_id_of (add_node_with_id env g i url).1 (add_node_with_id env g i url).2 = Some i.
Proof.
  intros HR Hi Hi'. pose proof HR as (Hg & Hh & _). pose proof (related_placed g h i url HR Hi Hi') as HR'.
  destruct (add_node_placed env g i url Hg Hi) as (k & Hk & ->). destruct (add_node_placed env' h i url Hh Hi') as (k' & Hk' & ->).
  pose proof HR' as (Hg' & Hh' & Ha').
  destruct (key_node _ i k (iv_wf _ Hg') Hk) as (n & Hn & _). destruct (key_node _ i k' (iv_wf _ Hh') Hk') as (n' & Hn' & _). cbn [fst snd]. split.
  - apply related_bump. unfold set_node_last_visited_at_ms. rw Hn Hn'. eapply related_set_visit; [done..|]. cbn.
    rw (session_read _ i k) // ?(session_read _ i k') //; [apply (ag_sessions _ _ Ha')|apply Hh'|apply Hg'].
  - change (node_id_of (bump_revision ?x) k) with (node_id_of x k). unfold set_node_last_visited_at_ms. rw Hn. unfold set_node_facet. rw set_facet_frame.
    apply node_id_key in Hk; [|apply Hg']. done.
Qed.

(** ** Removing a node *)

Lemma removed_spec g k n :
  wf g → get_node g k = Some n →
  let g' := with_inner (graph_remove n_id (k_inner g) k).2 g in
  wf g' ∧ (∀ x, get_node g' x = if decide (x = k) then None else get_node g x) ∧
  (∀ j, get_node_key_by_id g' j = if decide (j = n_id n) then None else get_node_key_by_id g j) ∧
  (∀ a b, id_bucket g' a b = if decide (a = n_id n ∨ b = n_id n) then None else id_bucket g a b).
Proof.
  intros Hw Hn. destruct (remove_node_wf n_id g k (k_revision g) (k_rest g) Hw) as [Hw' _]. set (g' := with_inner _ g).
  assert (∀ j, get_node_key_by_id g' j = if decide (j = n_id n) then None else get_node_key_by_id g j) as Hkey.
  { intros j. unfold get_node_key_by_id, key_of, g', graph_remove. cbn. rw (Hn : sg_nodes _ !! k = Some n).
    case_decide; [subst; by rw lookup_delete_eq|by rw lookup_delete_ne]. }
  split_and!; [done| |done|].
  - intros x. unfold get_node, graph_node, g', graph_remove. cbn. rw sg_nodes_remove_node. case_decide; [subst; by rw lookup_delete_eq|by rw lookup_delete_ne].
  - intros a b. unfold id_bucket. rw !Hkey. destruct (decide (a = n_id n)) as [->|Ha]; [cbn; by case_decide; [|tauto]|].
    destruct (get_node_key_by_id g a) as [x|] eqn:Ea; cbn; [|by case_decide]. destruct (decide (b = n_id n)) as [->|Hb]; [case_decide; [done|tauto]|].
    rw decide_False; [|naive_solver]. destruct (get_node_key_by_id g b) as [y|] eqn:Eb; cbn; [|done].
    assert (x ≠ k ∧ y ≠ k) as [Hx Hy].
    { pose proof (node_key g k n Hw Hn) as Hk. split; intros ->; [destruct Ha|destruct Hb]; by eapply (key_inj n_id g). }
    apply (pair_bucket_edges n_id); [done|done|]. intros e p. unfold g', graph_remove. cbn. rw sg_edges_remove_node.
    destruct (sg_edges (inner (k_inner g)) !! e) as [[[u v] q]|]; [|done]. cbn. case_decide as Hd; [|done]. split; [done|]. intros [= -> -> ->]. naive_solver.
Qed.

Lemma forget_mentions x rs y : mentions (forget_member x rs) y → mentions rs y ∧ y ≠ x.
Proof.
  intros (r & [_ (r0 & -> & Hr)%list_elem_of_fmap]%list_elem_of_filter & Hy). cbn in Hy.
  apply list_elem_of_fmap in Hy as (m & -> & [Hm Hin]%list_elem_of_filter). split; [|done]. exists r0. split; [done|]. by apply list_elem_of_fmap_2.
Qed.

Lemma forget_sources x rs y : y ≠ x → record_sources (forget_member x rs) y = record_sources rs y.
Proof.
  intros Hy. unfold record_sources, forget_member. induction rs as [|r rs IH]; [done|]. cbn [fmap list_fmap mbind list_bind].
  assert (∀ ms s, omap (λ m, if im_suppressed m then None else if bool_decide (im_node_id m = y) then Some s else None)
    (filter (λ m, im_node_id m ≠ x) ms) = omap (λ m, if im_suppressed m then None else if bool_decide (im_node_id m = y) then Some s else None) ms :> list NodeImportProvenance) as Hms.
  { intros ms s. induction ms as [|m ms IHm]; [done|]. rw filter_cons. case_decide as Hd; cbn; [by rw IHm|]. rw IHm.
    assert (im_node_id m = x) as -> by (destruct (decide (im_node_id m = x)); [done|tauto]). rw (bool_decide_eq_false_2 (x = y)) //. by destruct (im_suppressed m). }
  rw filter_cons. case_decide as Hd; cbn [mbind list_bind]; rw IH -(Hms (ir_memberships r)); [done|].
  assert (filter (λ m, im_node_id m ≠ x) (ir_memberships r) = []) as Hnil by exact Hd.
  by rw Hnil.
Qed.

(** What removing the node of a key leaves. *)
Definition removed g k (n : Node U) (W : gmap string (list Z)) : Graph :=
  bump_revision (with_import_records (forget_member (text (n_id n)) (import_records (k_rest g)))
    (with_facets (delete (n_id n) (r_facets (k_rest g))) (with_urls W (with_inner (graph_remove n_id (k_inner g) k).2 g)))).

Lemma remove_node_spec g k n :
  k_inv g → get_node g k = Some n → ∃ W, remove_node g k = (removed g k n W, true) ∧
  (∀ url, default [] (W !! url) = filter (λ x, x ≠ k) (get_nodes_by_url g url)) ∧ (∀ url, W !! url ≠ Some []).
Proof.
  intros Hg Hn. destruct (node_url_address g k n Hg Hn) as (a & Ha & Hu).
  set (g1 := with_inner (graph_remove n_id (k_inner g) k).2 g). set (g2 := remove_url_mapping (as_url_str a) k g1).
  exists (url_to_nodes (k_rest g2)). split_and!.
  - assert (graph_remove n_id (k_inner g) k = (Some n, (graph_remove n_id (k_inner g) k).2)) as Hr by by rw -(Hn : sg_nodes _ !! k = Some n).
    assert (g2 = with_urls (url_to_nodes (k_rest g2)) g1) as Hg2.
    { unfold g2, remove_url_mapping. destruct (_ !! as_url_str a); [done|]. by destruct g1 as [? ? []]. }
    unfold remove_node. rw Hr Ha. cbn [fold_left]. fold g1. fold g2. rw Hg2. done.
  - intros url. change (default [] (url_to_nodes (k_rest g2) !! url)) with (get_nodes_by_url g2 url). unfold g2. rw urls_remove. by apply (urls_forget g k n).
  - apply remove_nonempty. intros url. apply (iv_urls_nonempty g Hg).
Qed.

Lemma inv_removed g k n W :
  k_inv g → get_node g k = Some n → (∀ url, default [] (W !! url) = filter (λ x, x ≠ k) (get_nodes_by_url g url)) → (∀ url, W !! url ≠ Some []) →
  k_inv (removed g k n W).
Proof.
  intros Hg Hn HW HW'. destruct (removed_spec g k n (iv_wf g Hg) Hn) as (Hw & Hget & Hkey & _). set (g' := removed g k n W).
  assert (∀ j, live_id g j → j ≠ n_id n → live_id g' j) as Hlive. { intros j [x Hx] Hj. exists x. etrans; [apply Hkey|]. by rw decide_False. }
  split.
  - by apply (wf_inner (with_inner (graph_remove n_id (k_inner g) k).2 g)).
  - intros x m Hx. rw (Hget x : get_node g' x = _) in Hx. case_decide; [done|]. by eapply (iv_address g Hg).
  - intros url x. unfold get_nodes_by_url. cbn. rw HW list_elem_of_filter (iv_urls g Hg) (Hget x : get_node g' x = _). case_decide; naive_solver.
  - intros url. unfold get_nodes_by_url. cbn. rw HW. apply NoDup_filter, (iv_urls_NoDup g Hg).
  - done.
  - cbn. intros j [fs Hj]. apply lookup_delete_Some in Hj as [Hne Hj]. apply Hlive; [|done]. apply (iv_facets g Hg). by eexists.
  - apply forget_member_normal, (iv_records g Hg).
  - cbn. intros x [(j & Hj & ->)%(iv_members g Hg) Hx]%forget_mentions. exists j. split; [|done]. apply Hlive; [done|]. by intros ->.
  - intros j [x Hx]. rw (Hkey j : get_node_key_by_id g' j = _) in Hx. case_decide as Hj; [done|].
    change (import_records (k_rest g')) with (forget_member (text (n_id n)) (import_records (k_rest g))). rw forget_sources; [|by intros ?%uuid_to_string_inj]. rw -(iv_sync g Hg); [|by exists x].
    unfold provenance_of, facet_of, facet_get. cbn. by rw lookup_delete_ne.
Qed.

Lemma related_remove g h i k k' :
  related g h → get_node_key_by_id g i = Some k → get_node_key_by_id h i = Some k' →
  related (remove_node g k).1 (remove_node h k').1 ∧ (remove_node g k).2 = true.
Proof.
  intros HR Hk Hk'. pose proof HR as (Hg & Hh & Ha). destruct (key_node g i k (iv_wf g Hg) Hk) as (n & Hn & Hid).
  assert (get_node h k' = Some n) as Hn' by by rw -(agrees_id g h i k k' (iv_wf g Hg) (iv_wf h Hh)).
  destruct (remove_node_spec g k n Hg Hn) as (W & -> & HW & HW'). destruct (remove_node_spec h k' n Hh Hn') as (V & -> & HV & HV'). cbn [fst snd].
  split; [|done]. destruct (removed_spec g k n (iv_wf g Hg) Hn) as (_ & Ng & Kg & Bg). destruct (removed_spec h k' n (iv_wf h Hh) Hn') as (_ & Nh & Kh & Bh).
  split_and!; [by apply inv_removed|by apply inv_removed|]. set (g' := removed g k n W). set (h' := removed h k' n V).
  assert (∀ (g : Graph) k W, k_inv g → get_node_key_by_id g i = Some k → (∀ x, get_node (removed g k n W) x = if decide (x = k) then None else get_node g x) →
    (∀ url, default [] (W !! url) = filter (λ x, x ≠ k) (get_nodes_by_url g url)) → ∀ u, url_ids (removed g k n W) u = filter (λ o, o ≠ Some i) (url_ids g u)) as Hu.
  { clear. intros g k W Hg Hk Hx HW u. unfold url_ids, get_nodes_by_url at 1. cbn. rw HW -(ids_forget g k i) //; [|apply Hg].
    apply list_fmap_ext. intros ? y [Hy _]%list_elem_of_lookup_2%list_elem_of_filter. unfold node_id_of. rw Hx. by rw decide_False. }
  destruct Ha as [A1 A2 A3 A4 A5 A6 A7 A8 A9 A10]. split; try done.
  - intros j. unfold node_at. rw (Kg j : get_node_key_by_id g' j = _) (Kh j : get_node_key_by_id h' j = _). case_decide as Hj; [done|].
    pose proof (A1 j) as Hat. unfold node_at in Hat.
    assert (∀ (g : Graph) k x, wf g → get_node_key_by_id g i = Some k → get_node_key_by_id g j = Some x → x ≠ k) as Hne.
    { intros g0 k0 x Hw Hk0 Hx ->. apply Hj. rw Hid. by eapply (key_inj n_id g0). }
    destruct (get_node_key_by_id g j) as [x|] eqn:Ej, (get_node_key_by_id h j) as [y|] eqn:Ej'; cbn in *.
    + rw (Ng x : get_node g' x = _) (Nh y : get_node h' y = _) !decide_False //; [by apply (Hne h k' y (iv_wf h Hh))|by apply (Hne g k x (iv_wf g Hg))].
    + rw (Ng x : get_node g' x = _) decide_False //. by apply (Hne g k x (iv_wf g Hg)).
    + rw (Nh y : get_node h' y = _) decide_False //. by apply (Hne h k' y (iv_wf h Hh)).
    + done.
  - intros a b. rw (Bg a b : id_bucket g' a b = _) (Bh a b : id_bucket h' a b = _). by case_decide.
  - intros j f Hv Hp. unfold facet_of, facet_get. cbn. destruct (decide (j = n_id n)) as [->|Hj]; [by rw !lookup_delete_eq|]. rw !lookup_delete_ne //. by apply A3.
  - intros j [x Hx]. rw (Kg j : get_node_key_by_id g' j = _) in Hx. case_decide as Hj; [done|].
    unfold provenance_of, facet_of, facet_get. cbn. rw !lookup_delete_ne //. apply A4. by exists x.
  - intros j. unfold session_of, facet_of, facet_get. cbn. destruct (decide (j = n_id n)) as [->|Hj]; [by rw !lookup_delete_eq|]. rw !lookup_delete_ne //. apply A5.
  - intros u. unfold g', h'. rw (Hu g k W) // (Hu h k' V) // A6. done.
  - cbn. by rw A7.
Qed.

Lemma remove_dead g k : get_node g k = None → remove_node g k = (g, false).
Proof. intros Hn. unfold remove_node, graph_remove. unfold get_node, graph_node in Hn. by rw Hn. Qed.
End urls.
