(* ===== verification/KernelSync.v ===== *)
(** Import records and the provenance derived from them, in related graphs
    (crates/graph/graph-kernel/src/graph/import_records.rs).

    Every operation on the records ends by deriving each node's provenance facet
    from them again; [synced] is what that derivation leaves. *)

From S2P Require Import Prelude Wire Journal SlotMap Stemma StableGraph GraphLog KernelEdges KernelGraph KernelNav KernelNode KernelImports KernelDelta KernelRelate KernelUrls.

Local Open Scope Z_scope.

Section sync.
Context {G : Type → Type → Type} `{StableGraph G} {M : Type → Type} `{SlotMap M} `{HashOrder} `{WebText}.
Context {U : Type} `{Countable U} `{UuidText U} {J D : Type} `{EqDecision J}.
Context `{Facet J VisitHistoryFacet} `{Facet J (list NodeImportProvenance)} `{!FacetRoundtrip J (list NodeImportProvenance)}.

Abbreviation Graph := (KGraph (G := G) (N := Node U) (Id := U) (R := Rest (U := U) (J := J) (D := D))).
Implicit Types (g h : Graph) (i j : U) (k key : Z).
Abbreviation text := uuid_to_string.
Abbreviation wf := (kg_wf n_id).

(** ** Deriving the provenance *)

Definition members_live g (rs : list ImportRecord) : Prop := ∀ x, mentions rs x → ∃ i, live_id g i ∧ x = text i.

Abbreviation sources_of r x := (λ m, if im_suppressed m then None else if bool_decide (im_node_id m = x) then Some (mkImportProvenance (ir_source_id r) (ir_source_label r)) else None).

Lemma add_provenance_spec g r i k ms acc :
  wf g → get_node_key_by_id g i = Some k → (∀ x, x ∈ im_node_id <$> ms → ∃ j, live_id g j ∧ x = text j) →
  default [] (fold_left (add_provenance g r) ms acc !! k) = default [] (acc !! k) ++ omap (sources_of r (text i)) ms.
Proof.
  intros Hw Hk. revert acc. induction ms as [|m ms IH]; intros acc Hms; [by rw app_nil_r|]. cbn [fold_left omap list_omap].
  rw IH; [|intros x Hx; apply Hms; by right]. unfold add_provenance. destruct (im_suppressed m); [done|].
  destruct (Hms (im_node_id m)) as (j & [k' Hj] & Hm); [by left|]. rw Hm uuid_parse_print. cbn. rw Hj. case_bool_decide as Hd.
  - apply uuid_to_string_inj in Hd. subst j. rw Hk in Hj. injection Hj as <-. rw lookup_insert_eq. cbn. by rw -app_assoc.
  - rw lookup_insert_ne //. intros ->. apply Hd. f_equal. by eapply (key_inj n_id g).
Qed.

Lemma provenance_by_node_spec g i k :
  wf g → get_node_key_by_id g i = Some k → members_live g (import_records (k_rest g)) →
  default [] (provenance_by_node g !! k) = record_sources (import_records (k_rest g)) (text i).
Proof.
  intros Hw Hk. unfold provenance_by_node, record_sources, members_live. generalize (import_records (k_rest g)) as rs.
  assert (∀ rs acc, (∀ x, mentions rs x → ∃ j, live_id g j ∧ x = text j) →
    default [] (fold_left (λ acc r, fold_left (add_provenance g r) (ir_memberships r) acc) rs acc !! k) =
    default [] (acc !! k) ++ (rs ≫= λ r, omap (sources_of r (text i)) (ir_memberships r))) as Hall; [|intros rs Hrs; by rw Hall].
  induction rs as [|r rs IH]; intros acc Hrs; [by rw app_nil_r|]. cbn [fold_left mbind list_bind]. rw IH.
  - rw (add_provenance_spec g r i k) //; [by rw app_assoc|]. intros x Hx. apply Hrs. exists r. split; [by left|done].
  - intros x (r' & Hr & Hx). apply Hrs. exists r'. split; [by right|done].
Qed.

(** One facet of many nodes. *)
Lemma write_all_spec g (f : string) (v : Z → list NodeImportProvenance) l :
  wf g → NoDup l → (∀ k, k ∈ l → is_Some (node_id_of g k)) →
  let h := fold_left (λ g k, (set_node_facet g k f (v k)).1) l g in
  h = with_facets (r_facets (k_rest h)) g ∧
  (∀ j, is_Some (r_facets (k_rest h) !! j) → live_id g j ∨ is_Some (r_facets (k_rest g) !! j)) ∧
  (∀ j f', (f' ≠ f ∨ ∀ k, k ∈ l → node_id_of g k ≠ Some j) → facet_of h j f' = facet_of g j f') ∧
  (∀ k j, k ∈ l → node_id_of g k = Some j → facet_of h j f = Some (to_value (v k))).
Proof.
  intros Hw. revert g Hw. induction l as [|k l IH]; intros g Hw Hnd Hlive; cbn [fold_left].
  { split_and!; [by rw with_facets_same|by right|done|by intros ? ? ?%elem_of_nil]. }
  apply NoDup_cons in Hnd as [Hk Hnd]. destruct (Hlive k) as [i Hi]; [by left|]. set (g1 := (set_node_facet g k f (v k)).1).
  assert (g1 = with_facets (r_facets (k_rest g1)) g) as Hg1 by apply set_facet_frame.
  assert (∀ x, node_id_of g1 x = node_id_of g x) as Hid by (intros; by rw Hg1). assert (wf g1) as Hw1 by (apply (wf_inner g); [by rw Hg1|done]).
  assert (∀ j, live_id g1 j ↔ live_id g j) as Hl1 by (intros; by rw Hg1).
  destruct (IH g1 Hw1 Hnd) as (Eh & Hd & Ho & Hv); [intros; rw Hid; apply Hlive; by right|]. set (h := fold_left _ l g1) in *.
  split_and!.
  - rw {1}Eh Hg1. done.
  - intros j Hj. destruct (Hd j Hj) as [?|Hj']; [left; by apply Hl1|].
    destruct (set_facet_dom g k i f (to_value (v k)) j Hi Hj') as [->|?]; [left; exists k; by apply node_id_key|by right].
  - intros j f' Hcase. rw Ho; [|destruct Hcase as [?|Hno]; [by left|right; intros x Hx; rw Hid; apply Hno; by right]].
    unfold g1, set_node_facet. rw (set_facet_of g k i) // decide_False //. intros [-> ->]. destruct Hcase as [?|Hno]; [done|]. by apply (Hno k); [left|].
  - intros x j [->|Hx]%elem_of_cons Hj; [|apply Hv; [done|by rw Hid]]. rw Ho.
    + unfold g1, set_node_facet. rw (set_facet_of g k i) // decide_True //. split; [congruence|done].
    + right. intros y Hy. rw Hid. intros Hj'. apply node_id_key in Hj; [|done]. apply node_id_key in Hj'; [|done]. assert (y = k) as -> by congruence. done.
Qed.

Lemma node_indices_keys g k : k ∈ node_indices (inner (k_inner g)) ↔ is_Some (get_node g k).
Proof.
  rw node_indices_nodes list_elem_of_fmap. unfold get_node, graph_node. split.
  - intros ([k' n] & -> & Hk%elem_of_map_to_list). by exists n.
  - intros [n Hn]. exists (k, n). by rw elem_of_map_to_list.
Qed.

(** Facets that carry what the records say, on a graph with the nodes of [g]. *)
Record synced g (F : gmap U (gmap string J)) (rs : list ImportRecord) : Prop := {
  sy_dom j : is_Some (F !! j) → live_id g j;
  sy_other j f : f ≠ PROVENANCE_IMPORT → facet_get F j f = facet_of g j f;
  sy_prov j : live_id g j → default [] (facet_get F j PROVENANCE_IMPORT ≫= from_value) = sort_dedup (record_sources rs (text j))
}.

Lemma synced_same g : k_inv g → synced g (r_facets (k_rest g)) (import_records (k_rest g)).
Proof. intros Hg. split; [apply (iv_facets g Hg)|done|apply (iv_sync g Hg)]. Qed.

Lemma sync_synced g F0 rs :
  k_inv g → (∀ j, is_Some (F0 !! j) → live_id g j) → (∀ j f, f ≠ PROVENANCE_IMPORT → facet_get F0 j f = facet_of g j f) → members_live g rs →
  ∃ F, sync_node_import_provenance_from_records (with_import_records rs (with_facets F0 g)) = with_facets F (with_import_records rs g) ∧ synced g F rs.
Proof.
  intros Hg Hd Ho Hm. set (g0 := with_import_records rs (with_facets F0 g)). assert (wf g0) as Hw by (apply (wf_inner g); [done|apply Hg]).
  assert (NoDup (node_indices (inner (k_inner g0)))) as Hnd by (rw node_indices_nodes; apply NoDup_fst_map_to_list).
  destruct (write_all_spec g0 PROVENANCE_IMPORT (λ k, sort_dedup (default [] (provenance_by_node g0 !! k))) _ Hw Hnd) as (Eh & Hdom & Hoth & Hval).
  { intros k Hk. apply node_indices_keys in Hk as [n Hn]. unfold node_id_of. by rw Hn. }
  unfold sync_node_import_provenance_from_records. set (h := fold_left _ _ g0) in *. exists (r_facets (k_rest h)). split; [rw {1}Eh; done|]. split.
  - intros j Hj. destruct (Hdom j Hj); [done|by apply Hd].
  - intros j f Hf. fold (facet_of h j f). rw Hoth; [|by left]. by apply Ho.
  - intros j [k Hk]. pose proof Hk as Hj%(node_id_key g0 k j Hw). fold (facet_of h j PROVENANCE_IMPORT). rw (Hval k j) //.
    + cbn. rw facet_roundtrip. cbn. by rw (provenance_by_node_spec g0 j k).
    + apply node_indices_keys. destruct (key_node g0 j k Hw Hk) as (n & Hn & _). by exists n.
Qed.

(** ** Replacing the records *)

Abbreviation resynced F rs g := (with_facets F (with_import_records rs g)).

Lemma inv_resynced g F rs : k_inv g → records_normal rs → members_live g rs → synced g F rs → k_inv (resynced F rs g).
Proof. intros [I1 I2 I3 I4 I5 I6 I7 I8 I9] Hn Hm [S1 S2 S3]. split; try done. by apply (wf_inner g). Qed.

Lemma related_resynced g h F F' rs :
  related g h → records_normal rs → members_live g rs → synced g F rs → synced h F' rs → related (resynced F rs g) (resynced F' rs h).
Proof.
  intros (Hg & Hh & Ha) Hn Hm Sg Sh. assert (∀ j, live_id g j ↔ live_id h j) as Hl by (intros; apply agrees_live; [apply Hg|apply Hh|done]).
  split_and!; [by apply inv_resynced|apply inv_resynced; [done..| |done]; intros x (j & Hj & ->)%Hm; exists j; by rw -Hl|].
  destruct Ha as [A1 A2 A3 A4 A5 A6 A7 A8 A9 A10]. split; try done.
  - intros j f Hv Hp. unfold facet_of. cbn. rw (sy_other g F rs Sg) // (sy_other h F' rs Sh) //. by apply A3.
  - intros j Hj. unfold provenance_of, facet_of. cbn. rw (sy_prov g F rs Sg) // (sy_prov h F' rs Sh) //. by apply Hl.
  - intros j. unfold session_of, facet_of. cbn. rw (sy_other g F rs Sg) // (sy_other h F' rs Sh) //. apply A5.
Qed.

(** The records of one graph, written into the other as a replay does. *)
Lemma related_set_records g h F rs :
  related g h → records_normal rs → members_live g rs → synced g F rs → related (resynced F rs g) (set_import_records h rs).1.
Proof.
  intros HR Hn Hm Sg. pose proof HR as (Hg & Hh & Ha). unfold set_import_records. rw normalize_records_id //. case_bool_decide as Hd.
  - assert (resynced (r_facets (k_rest h)) rs h = h) as Eh by (subst rs; by destruct h as [? ? []]).
    cbn [fst]. rw -{1}Eh. apply related_resynced; [done..|]. subst rs. by apply synced_same.
  - cbn [fst]. destruct (sync_synced h (r_facets (k_rest h)) rs) as (F' & E & Sh); [done|apply (iv_facets h Hh)|done| |].
    { intros x (j & Hj & ->)%Hm. exists j. split; [|done]. apply (agrees_live g h j); [apply Hg|apply Hh|done|done]. }
    rw with_facets_same in E. rw E. by apply related_resynced.
Qed.

(** ** The operations on records

    Each leaves the graph alone and says so, or replaces the records by others in
    normal form about live nodes and derives the provenance from them. *)

Definition reimports g (r : Graph * bool) : Prop :=
  r = (g, false) ∨ ∃ F rs, r = (resynced F rs g, true) ∧ records_normal rs ∧ members_live g rs ∧ synced g F rs.

Lemma reimports_intro g F0 rs :
  k_inv g → (∀ j, is_Some (F0 !! j) → live_id g j) → (∀ j f, f ≠ PROVENANCE_IMPORT → facet_get F0 j f = facet_of g j f) →
  records_normal rs → members_live g rs →
  reimports g (sync_node_import_provenance_from_records (with_import_records rs (with_facets F0 g)), true).
Proof. intros Hg Hd Ho Hn Hm. right. destruct (sync_synced g F0 rs) as (F & -> & Hs); [done..|]. by exists F, rs. Qed.
Lemma reimports_intro' g rs :
  k_inv g → records_normal rs → members_live g rs → reimports g (sync_node_import_provenance_from_records (with_import_records rs g), true).
Proof.
  intros Hg Hn Hm. pose proof (reimports_intro g (r_facets (k_rest g)) rs Hg (iv_facets g Hg)) as Hr. rw with_facets_same in Hr. by apply Hr.
Qed.

Lemma set_records_reimports g rs : k_inv g → members_live g rs → reimports g (set_import_records g rs).
Proof.
  intros Hg Hm. unfold set_import_records. case_bool_decide; [by left|]. apply reimports_intro'; [done|apply normalize_records_normal|].
  intros x Hx%normalize_records_mentions. by apply Hm.
Qed.

Lemma delete_record_reimports g rid : k_inv g → reimports g (delete_import_record g rid).
Proof.
  intros Hg. unfold delete_import_record. case_bool_decide; [by left|].
  apply reimports_intro'; [done|apply records_normal_filter, (iv_records g Hg)|].
  intros x (r & [_ Hr]%list_elem_of_filter & Hx). apply (iv_members g Hg). by exists r.
Qed.

Lemma suppress_first_same n b ms : (suppress_first n b ms).2 = false → (suppress_first n b ms).1 = ms.
Proof.
  induction ms as [|m ms IH]; [done|]. cbn. case_bool_decide; cbn.
  - intros Hs%bool_decide_eq_false%dec_stable. rw -Hs. by destruct m.
  - destruct (suppress_first n b ms). cbn in *. intros Hs. by rw IH.
Qed.
Lemma suppress_same rid n b rs : existsb snd (suppress_in rid n b <$> rs) = false → (suppress_in rid n b <$> rs).*1 = rs.
Proof.
  induction rs as [|r rs IH]; [done|]. cbn. intros [Hr Hrs]%orb_false_elim. rw IH //. f_equal. unfold suppress_in in *. case_bool_decide; [|done].
  pose proof (suppress_first_same n b (ir_memberships r)) as Hs. destruct (suppress_first _ _ _). cbn in *. rw Hs //. by destruct r.
Qed.

Lemma suppress_reimports g rid k b : k_inv g → reimports g (set_import_record_membership_suppressed g rid k b).
Proof.
  intros Hg. unfold set_import_record_membership_suppressed. destruct (node_id_of g k) as [i|]; [|by left]. destruct (existsb _ _) eqn:Es.
  - apply reimports_intro'; [done|apply suppress_normal, (iv_records g Hg)|]. intros x (r & Hr & Hx). apply (iv_members g Hg).
    apply list_elem_of_fmap in Hr as ([r' c] & -> & (r0 & Heq & Hr0)%list_elem_of_fmap). exists r0. split; [done|]. revert Hx.
    assert (r' = (suppress_in rid (text i) b r0).1) as -> by by rw -Heq. rw suppress_in_eq. cbn. case_bool_decide; [|done]. by rw suppress_first_ids.
  - left. rw suppress_same //. by destruct g as [? ? []].
Qed.

(** *** Rebuilding the records from the nodes *)

Definition names_only (P : string → Prop) (m : gmap (string * string) (list ImportRecordMembership)) : Prop :=
  ∀ s ms x, m !! s = Some ms → x ∈ im_node_id <$> ms → P x.

Lemma group_node_ids m ip P : names_only P m → P (text ip.1) → names_only P (group_node m ip).
Proof.
  intros Hm Hp. destruct ip as [i ps]. cbn in Hp. unfold group_node. cbn [fst snd]. revert m Hm. induction ps as [|p ps IH]; intros m Hm; [done|].
  cbn [fold_left]. apply IH. intros s ms x Hs Hx. apply lookup_insert_Some in Hs as [[<- <-]|[_ Hs]]; [|by eapply Hm].
  rw fmap_app in Hx. apply elem_of_app in Hx as [Hx|Hx%list_elem_of_singleton]; [|by subst].
  destruct (m !! (ip_source_id p, ip_source_label p)) as [ms|] eqn:E; [by eapply Hm|by apply elem_of_nil in Hx].
Qed.
Lemma group_nodes_ids l m P : names_only P m → Forall (λ ip : U * _, P (text ip.1)) l → names_only P (fold_left group_node l m).
Proof.
  intros Hm Hl. revert m Hm. induction Hl as [|ip l Hp _ IH]; intros m Hm; [done|]. apply IH. by apply group_node_ids.
Qed.

Lemma rebuild_reimports g F0 at_secs :
  k_inv g → (∀ j, is_Some (F0 !! j) → live_id g j) → (∀ j f, f ≠ PROVENANCE_IMPORT → facet_get F0 j f = facet_of g j f) →
  reimports g (rebuild_import_records_from_node_provenance (with_facets F0 g) at_secs, true).
Proof.
  intros Hg Hd Ho. unfold rebuild_import_records_from_node_provenance. set (rs := merge_sort _ _). set (rs' := _ <$> rs).
  apply reimports_intro; [done..|apply normalize_records_normal|]. intros x Hx%normalize_records_mentions. revert Hx.
  intros (r & (e & -> & He)%list_elem_of_fmap & Hx). unfold rs in He. rw merge_sort_Permutation in He. destruct e as [e ms]. apply elem_of_map_to_list in He.
  assert (x ∈ im_node_id <$> ms) as Hin by by destruct (default _ _). revert He Hin.
  apply (group_nodes_ids _ _ (λ x, ∃ i, live_id g i ∧ x = text i)); [by intros s ms' y Hs; rw lookup_empty in Hs|]. apply Forall_forall.
  intros ip ([k n] & -> & (k' & Hk & Hn)%list_elem_of_omap)%list_elem_of_fmap. apply fmap_Some in Hn as (n' & Hn & [= -> ->]). cbn. exists (n_id n').
  split; [|done]. exists k'. by apply node_key; [apply Hg|].
Qed.

Lemma set_provenance_reimports env g k ps : k_inv g → reimports g (set_node_import_provenance env g k ps).
Proof.
  intros Hg. unfold set_node_import_provenance. destruct (get_node g k) as [n|] eqn:Hn; [|by left]. case_bool_decide; [by left|].
  assert (node_id_of g k = Some (n_id n)) as Hi by (unfold node_id_of; by rw Hn). unfold set_node_facet. rw set_facet_frame.
  apply rebuild_reimports; [done| |].
  - intros j [->|Hj]%(set_facet_dom g k (n_id n) _ _ j Hi); [exists k; by apply node_key; [apply Hg|]|by apply (iv_facets g Hg)].
  - intros j f Hf. fold (facet_of (set_node_facet_value g k PROVENANCE_IMPORT (to_value (sort_dedup ps))).1 j f).
    rw (set_facet_of g k (n_id n)) // decide_False //. by intros [_ ->].
Qed.
End sync.
