(* ===== verification/KernelReplay.v ===== *)
(** One step of live editing and its replay
    (crates/graph/graph-kernel/src/graph/{apply,capture}.rs).

    [tracks g' cs h] says that replaying the records [cs] on [h], at any moment,
    ends in a graph related to [g'].  [apply_tracks] is the simulation: whatever
    delta is applied to a graph, what it captured leads every related graph along.
    It is proved by family (edges, setters, URLs and node lifecycle, import
    records, fields, navigation), each family against its generic lemma.
    [delta_ok] is what the caller of a delta owes:
    - an added node has an id no live node has;
    - a facet set or removed by name is not the derived provenance facet, and its
      value survives JSON text;
    - the definition of an added field survives its text;
    - import records set as a whole name live nodes only. *)

From S2P Require Import Prelude Wire Journal SlotMap Stemma StableGraph GraphLog KernelEdges KernelGraph KernelNav KernelNode KernelImports KernelDelta KernelRelate KernelUrls KernelSync.

Local Open Scope Z_scope.

Section replay.
Context {G : Type → Type → Type} `{StableGraph G} {M : Type → Type} `{SlotMap M} `{HashOrder} `{WebText}.
Context {U : Type} `{Countable U} `{UuidText U} {J D : Type} `{EqDecision J} `{JsonText J} `{FieldText D}.
Context `{Facet J bool} `{Facet J (list FrameLayoutHint)} `{Facet J NodeTagPresentationState} `{Facet J VisitHistoryFacet}.
Context `{Facet J (list NodeImportProvenance)} `{Facet J (list NodeDerivation)}.
Context `{Facet J (list NodeClassification)} `{Facet J (list NodeProperty)}.
Context `{!FacetRoundtrip J VisitHistoryFacet} `{!FacetRoundtrip J (list NodeImportProvenance)}.

Abbreviation Graph := (KGraph (G := G) (N := Node U) (Id := U) (R := Rest (U := U) (J := J) (D := D))).
Implicit Types (g h : Graph) (i j : U) (k key : Z) (e : EdgeEdit (Id := U)) (env : Env U).
Abbreviation text := uuid_to_string.
Abbreviation wf := (kg_wf n_id).

(** ** Edits of edges *)

(** A graph that differs from another in its edges and its revision only. *)
Record same_nodes g g' : Prop := {
  sn_wf : wf g';
  sn_node k : get_node g' k = get_node g k;
  sn_key i : get_node_key_by_id g' i = get_node_key_by_id g i;
  sn_rest : k_rest g' = k_rest g
}.

Lemma run_edit_same g e : wf g → same_nodes g (run_edit g e).
Proof.
  intros Hw. destruct (run_edit_spec n_id g e Hw) as (Hw' & Hk & _). split; [done| |done|apply run_edit_rest].
  intros k. pose proof (run_edit_pair n_id g e Hw) as Hp. destruct (get_node_key_by_id g (edit_pair e).1) as [a|]; [|by rw Hp].
  destruct (get_node_key_by_id g (edit_pair e).2) as [b|]; [|by rw Hp]. destruct Hp as [_ Hn _ _]. unfold get_node, graph_node. by rw Hn.
Qed.

Lemma inv_same_nodes g g' : k_inv g → same_nodes g g' → k_inv g'.
Proof.
  intros [I1 I2 I3 I4 I5 I6 I7 I8 I9] [S1 S2 S3 S4]. split; unfold get_nodes_by_url, live_id, provenance_of, facet_of in *; rw ?S4; try done.
  - intros k n. rw S2. apply I2.
  - intros url k. rw S2. apply I3.
  - intros i. rw S3. apply I6.
  - intros x Hx. destruct (I8 x Hx) as (i & Hi & ->). exists i. by rw S3.
  - intros i. rw S3. apply I9.
Qed.

Lemma related_edges g h g' h' :
  related g h → same_nodes g g' → same_nodes h h' → (∀ a b, strip <$> id_bucket g' a b = strip <$> id_bucket h' a b) → related g' h'.
Proof.
  intros (Hg & Hh & Ha) Sg Sh Hb. split_and!; [by apply (inv_same_nodes g)|by apply (inv_same_nodes h)|].
  destruct Ha as [A1 A2 A3 A4 A5 A6 A7 A8 A9 A10], Sg as [S1 S2 S3 S4], Sh as [T1 T2 T3 T4].
  split; try done; unfold facet_of, live_id, provenance_of, session_of, facet_of, url_ids, get_nodes_by_url, node_at in *; rw ?S4 ?T4; try done.
  - intros i. rw S3 T3. specialize (A1 i). destruct (get_node_key_by_id g i), (get_node_key_by_id h i); cbn in *; by rw ?S2 ?T2.
  - intros i. rw S3. apply A4.
  - intros url. specialize (A6 url). unfold node_id_of in *. etrans; [|etrans; [exact A6|]]; apply list_fmap_ext; intros; by rw ?S2 ?T2.
Qed.

Lemma unminted_pair e : edit_pair (unminted e) = edit_pair e.
Proof. by destruct e. Qed.

Lemma related_edit g h e e' : related g h → unminted e = unminted e' → related (run_edit g e) (run_edit h e').
Proof.
  intros HR He. pose proof HR as (Hg & Hh & Ha). pose proof (iv_wf g Hg) as Wg. pose proof (iv_wf h Hh) as Wh.
  apply (related_edges g h); [done|by apply run_edit_same|by apply run_edit_same|]. intros a b.
  destruct (run_edit_spec n_id g e Wg) as (_ & _ & Bg). destruct (run_edit_spec n_id h e' Wh) as (_ & _ & Bh). rw Bg Bh.
  assert (edit_pair e' = edit_pair e) as -> by by rw -unminted_pair -He unminted_pair. pose proof (ag_buckets g h Ha a b) as Hab.
  assert (∀ x, live_id g x ↔ live_id h x) as Hl by (intros; by apply agrees_live).
  destruct (decide ((a, b) = edit_pair e ∧ live_id g a ∧ live_id g b)) as [(Hp & La & Lb)|Hno].
  - rw decide_True; [by apply edit_bucket_agree|]. split_and!; [done|by apply Hl..].
  - rw decide_False //. intros (Hp & La & Lb). apply Hno. split_and!; [done|by apply Hl..].
Qed.

Lemma related_noop g h e : related g h → (∀ a b, id_bucket (run_edit g e) a b = id_bucket g a b) → related (run_edit g e) h.
Proof.
  intros HR Hb. pose proof HR as (Hg & Hh & Ha). apply (related_edges g h); [done|apply run_edit_same, Hg|by split; [apply Hh|..]|].
  intros a b. rw Hb. apply (ag_buckets g h Ha).
Qed.

Lemma unbumped_noop g h e : related g h → structural e → k_revision (run_edit g e) = k_revision g → related (run_edit g e) h.
Proof.
  intros HR Hs Hr. pose proof HR as (Hg & _ & _). apply related_noop; [done|]. intros a b.
  destruct (run_edit_spec n_id g e (iv_wf g Hg)) as (_ & _ & ->). case_decide as Hd; [|done]. destruct Hd as (Hp & [x Hx] & [y Hy]).
  unfold id_bucket. rw Hx Hy. cbn. apply (run_edit_unbumped n_id); rw -?Hp; try done. apply Hg.
Qed.

(** *** Edits by key *)

Lemma connect_revision g a b p : k_revision (connect_edge a b p g).2 = k_revision g.
Proof. unfold connect_edge. by destruct (graph_connect _ _ _ _). Qed.
Lemma bucket_revision g a b : k_revision (bucket_edge g a b).2 = k_revision g.
Proof. unfold bucket_edge. destruct (find_edge_key g a b); [done|apply connect_revision]. Qed.

Lemma assert_unchanged m g a b x : (assert_relation m g a b x).2 = None → k_revision (assert_relation m g a b x).1 = k_revision g.
Proof.
  assert ((assert_plain_relation m g a b x).2 = None → k_revision (assert_plain_relation m g a b x).1 = k_revision g) as Hp.
  { unfold assert_plain_relation. destruct (_ || _); [done|]. destruct (find_edge_key g a b).
    - destruct (get_edge g _); [|done]. by destruct (payload_assert_relation _ _ _) as [? []].
    - destruct (payload_assert_relation _ _ _) as [? []]; [|done]. by destruct (connect_edge _ _ _ _). }
  unfold assert_relation. destruct x; try done. unfold assert_semantic_relation_in_scope. destruct (_ || _); [done|].
  pose proof (bucket_revision g a b) as Hb. destruct (bucket_edge g a b) as [key g']. destruct (get_edge g' key); [|done].
  by destruct (insert_semantic_relation_in_scope _ _ _ _ _) as [? []].
Qed.
Lemma predicate_unchanged m g a b x : (assert_semantic_predicate m g a b x).2 = None → k_revision (assert_semantic_predicate m g a b x).1 = k_revision g.
Proof.
  unfold assert_semantic_predicate, assert_semantic_predicate_in_scope. destruct (_ || _); [done|].
  pose proof (bucket_revision g a b) as Hb. destruct (bucket_edge g a b) as [key g']. destruct (get_edge g' key); [|done].
  by destruct (payload_assert_predicate _ _ _ _) as [? []].
Qed.
Lemma retract_unchanged g a b sel : wf g → (retract_relations g a b sel).2 = 0%nat → k_revision (retract_relations g a b sel).1 = k_revision g.
Proof.
  intros Hw. destruct (retract_relations g a b sel) as [g' n] eqn:E. apply (retract_relations_pair n_id) in E; [|done].
  destruct (pair_bucket g a b); [|by destruct E as [-> _]]. destruct (payload_retract_relation _ _) as [? []]; by destruct E as (-> & _ & Hr).
Qed.

(** A dead endpoint. *)
Lemma contains_dead g k : get_node g k = None → contains_node g k = false.
Proof. intros Hn. unfold contains_node. apply bool_decide_eq_false_2. intros [? Hk]. unfold get_node, graph_node in Hn. congruence. Qed.
Lemma assert_dead m g a b x : contains_node g a = false ∨ contains_node g b = false → assert_relation m g a b x = (g, None).
Proof.
  intros Hd. assert (negb (contains_node g a) || negb (contains_node g b) = true) as Hg by (destruct Hd as [-> | ->]; [done|apply orb_true_r]).
  unfold assert_relation, assert_plain_relation, assert_semantic_relation_in_scope. rw Hg. by destruct x.
Qed.
Lemma predicate_dead m g a b x : contains_node g a = false ∨ contains_node g b = false → assert_semantic_predicate m g a b x = (g, None).
Proof.
  intros Hd. assert (negb (contains_node g a) || negb (contains_node g b) = true) as Hg by (destruct Hd as [-> | ->]; [done|apply orb_true_r]).
  unfold assert_semantic_predicate, assert_semantic_predicate_in_scope. by rw Hg.
Qed.
Lemma traversal_dead g a b t : contains_node g a = false ∨ contains_node g b = false → push_traversal g a b t = (g, false).
Proof.
  intros Hd. assert (bool_decide (a = b) || negb (contains_node g a) || negb (contains_node g b) = true) as Hg
    by (destruct Hd as [-> | ->]; [by rw orb_true_r|by rw orb_true_r]).
  unfold push_traversal. by rw Hg.
Qed.
Lemma retract_dead g a b sel : wf g → get_node g a = None ∨ get_node g b = None → retract_relations g a b sel = (g, 0%nat).
Proof.
  intros Hw Hd. destruct (retract_relations g a b sel) as [g' n] eqn:E. apply (retract_relations_pair n_id) in E; [|done].
  assert (pair_bucket g a b = None) as Hno. { apply (pair_bucket_None n_id); [done|]. intros k p [[? Ha] [? Hb]]%(kw_ends n_id g Hw).
    unfold get_node, graph_node in Hd. destruct Hd; congruence. }
  rw Hno in E. by destruct E as [-> ->].
Qed.

(** ** One delta

    What is left of applying a delta to one of two related graphs, the new graph
    and the records captured, leads the other graph along: it is related to what
    the replay of the records makes of it, at any clock and with any minted ids. *)

Definition tracks g' (cs : list CapturedDelta) h : Prop :=
  match cs with
  | [] => related g' h
  | [c] => ∀ env, ∃ h', replay_one (M := M) h (env, c) = Some h' ∧ related g' h'
  | _ => False
  end.

Lemma tracks_replay g' h c d :
  replay_delta c = Some (Some d) → (∀ env, ∃ h' cs r, apply_graph_delta (M := M) env h d = Some (h', cs, r) ∧ related g' h') → tracks g' [c] h.
Proof.
  intros Hc Hd env. destruct (Hd env) as (h' & cs & r & Ha & HR). exists h'. split; [|done]. unfold replay_one. cbn [snd fst]. rw Hc. cbn [mbind option_bind].
  by rw Ha.
Qed.

(** *** Setters *)

Section setters.
Context (op : Graph → Z → Graph * bool) (cap : string → CapturedDelta) (mk : U → GraphDelta (U := U) (J := J) (D := D)).
Hypothesis Hop : respects op.
Hypothesis Hcap : ∀ i, replay_delta (cap (text i)) = Some (Some (mk i)).
Hypothesis Hmk : ∀ env g i, apply_graph_delta (M := M) env g (mk i) = by_stable_id g i op cap.

Lemma tracks_setter g h i k :
  related g h → get_node_key_by_id g i = Some k → tracks (op g k).1 (if (op g k).2 then [cap (text i)] else []) h.
Proof.
  intros HR Hk. pose proof HR as (Hg & Hh & Ha). assert (live_id h i) as [k' Hk'] by (apply (agrees_live g h i (iv_wf g Hg) (iv_wf h Hh) Ha); by exists k).
  destruct (re_related op Hop g h i k k' HR Hk Hk') as [HR' Hf]. destruct (op g k).2 eqn:Ec; [|by apply Hf].
  apply (tracks_replay _ _ _ (mk i)); [done|]. intros env. rw Hmk. unfold by_stable_id. rw Hk'. destruct (op h k') as [h' u]. cbn in HR'. eauto 6.
Qed.

Lemma tracks_by_key g h k g' cs r : related g h → by_key g k op cap = Some (g', cs, r) → tracks g' cs h.
Proof.
  intros HR. pose proof HR as (Hg & _ & _). unfold by_key. destruct (node_id_of g k) as [i|] eqn:Hi.
  - apply node_id_key in Hi; [|apply Hg]. pose proof (tracks_setter g h i k HR Hi) as Ht. destruct (op g k). by intros [= <- <- <-].
  - rw (re_dead op Hop); [by intros [= <- <- <-]|]. unfold node_id_of in Hi. by apply fmap_None in Hi.
Qed.
Lemma tracks_by_id g h i g' cs r : related g h → by_stable_id g i op cap = Some (g', cs, r) → tracks g' cs h.
Proof.
  intros HR. unfold by_stable_id. destruct (get_node_key_by_id g i) as [k|] eqn:Hk; [|by intros [= <- <- <-]].
  pose proof (tracks_setter g h i k HR Hk) as Ht. destruct (op g k). by intros [= <- <- <-].
Qed.
End setters.

(** *** Edges *)

Section edits.
Context (cap : string → string → CapturedDelta) (e : U → U → EdgeEdit (Id := U)).
Hypothesis Hcap : ∀ i j h env, ∃ e', unminted e' = unminted (e i j) ∧ replay_one (M := M) h (env, cap (text i) (text j)) = Some (run_edit h e').

Lemma tracks_edit g h i j (changed : bool) :
  related g h → (changed = false → related (run_edit g (e i j)) h) → tracks (run_edit g (e i j)) (if changed then [cap (text i) (text j)] else []) h.
Proof.
  intros HR Hf. destruct changed; [|by apply Hf]. intros env. destruct (Hcap i j h env) as (e' & He & Hr). exists (run_edit h e'). split; [done|].
  by apply related_edit.
Qed.

(** By the keys of the ends: the same edit, or nothing where an end is dead. *)
Lemma tracks_pair g h a b g' (changed : bool) :
  related g h → (∀ i j, get_node_key_by_id g i = Some a → get_node_key_by_id g j = Some b → g' = run_edit g (e i j) ∧ (changed = false → related g' h)) →
  (get_node g a = None ∨ get_node g b = None → g' = g) → tracks g' (pair_capture g a b changed cap) h.
Proof.
  intros HR Hlive Hdead. pose proof HR as (Hg & _ & _). unfold pair_capture.
  destruct (node_id_of g a) as [i|] eqn:Ha; cycle 1.
  { unfold node_id_of in Ha. apply fmap_None in Ha. rw Hdead; [done|by left]. }
  destruct (node_id_of g b) as [j|] eqn:Hb; cycle 1.
  { unfold node_id_of in Hb. apply fmap_None in Hb. rw Hdead; [done|by right]. }
  apply node_id_key in Ha; [|apply Hg]. apply node_id_key in Hb; [|apply Hg]. destruct (Hlive i j Ha Hb) as [-> Hf]. by apply tracks_edit.
Qed.
End edits.

Lemma is_some_false {A} (o : option A) : is_some_b o = false → o = None.
Proof. by destruct o. Qed.

Lemma assert_capture m x i j h env : ∃ e', unminted e' = unminted (EdAssert m i j x) ∧
  replay_one (M := M) h (env, CAssertRelationByIds (text i) (text j) x) = Some (run_edit h e').
Proof.
  exists (EdAssert (mint env) i j x). split; [done|]. unfold replay_one. cbn. rw !uuid_parse_print. cbn. by destruct (replay_assert_relation_by_ids _ _ _ _ _).
Qed.
Lemma predicate_capture m x i j h env : ∃ e', unminted e' = unminted (EdPredicate m i j x) ∧
  replay_one (M := M) h (env, CAssertSemanticPredicateByIds (text i) (text j) x) = Some (run_edit h e').
Proof.
  exists (EdPredicate (mint env) i j x). split; [done|]. unfold replay_one. cbn. rw !uuid_parse_print. cbn. by destruct (replay_assert_semantic_predicate_by_ids _ _ _ _ _).
Qed.
Lemma set_predicate_capture m x i j h env : ∃ e', unminted e' = unminted (EdSetPredicate m i j x) ∧
  replay_one (M := M) h (env, CSetEdgeSemanticPredicateByIds (text i) (text j) x) = Some (run_edit h e').
Proof.
  exists (EdSetPredicate (mint env) i j x). split; [done|]. unfold replay_one. cbn. rw !uuid_parse_print. cbn. by destruct (replay_set_edge_semantic_predicate_by_ids _ _ _ _ _).
Qed.
Lemma traversal_capture t at_ms i j h env : ∃ e', unminted e' = unminted (EdTraversal i j t at_ms) ∧
  replay_one (M := M) h (env, CAppendTraversalByIds (text i) (text j) t at_ms) = Some (run_edit h e').
Proof.
  exists (EdTraversal i j t at_ms). split; [done|]. unfold replay_one. cbn. rw !uuid_parse_print. cbn. by destruct (replay_append_traversal_by_ids _ _ _ _ _).
Qed.
Lemma retract_capture sel i j h env : ∃ e', unminted e' = unminted (EdRetract i j sel) ∧
  replay_one (M := M) h (env, CRetractRelationsByIds (text i) (text j) sel) = Some (run_edit h e').
Proof.
  exists (EdRetract i j sel). split; [done|]. unfold replay_one. cbn. rw !uuid_parse_print. cbn. by destruct (replay_retract_relations_by_ids _ _ _ _).
Qed.

(** By stable ids. *)
Lemma assert_ids_tracks m g h i j x :
  related g h → let r := replay_assert_relation_by_ids m g i j x in
  tracks r.1 (if is_some_b r.2 then [CAssertRelationByIds (text i) (text j) x] else []) h.
Proof.
  intros HR r. apply (tracks_edit (λ s s', CAssertRelationByIds s s' x) (λ i j, EdAssert m i j x) (assert_capture m x) g h i j); [done|]. intros Hn%is_some_false. apply unbumped_noop; [done..|].
  revert Hn. unfold r. cbn. unfold replay_assert_relation_by_ids. destruct (get_node_key_by_id g i); [|done]. destruct (get_node_key_by_id g j); [|done].
  apply assert_unchanged.
Qed.
Lemma predicate_ids_tracks m g h i j x :
  related g h → let r := replay_assert_semantic_predicate_by_ids m g i j x in
  tracks r.1 (if is_some_b r.2 then [CAssertSemanticPredicateByIds (text i) (text j) x] else []) h.
Proof.
  intros HR r. apply (tracks_edit (λ s s', CAssertSemanticPredicateByIds s s' x) (λ i j, EdPredicate m i j x) (predicate_capture m x) g h i j); [done|]. intros Hn%is_some_false. apply unbumped_noop; [done..|].
  revert Hn. unfold r. cbn. unfold replay_assert_semantic_predicate_by_ids. destruct (get_node_key_by_id g i); [|done]. destruct (get_node_key_by_id g j); [|done].
  apply predicate_unchanged.
Qed.
Lemma set_predicate_ids_tracks m g h i j x :
  related g h → let r := replay_set_edge_semantic_predicate_by_ids m g i j x in
  tracks r.1 (if r.2 : bool then [CSetEdgeSemanticPredicateByIds (text i) (text j) x] else []) h.
Proof.
  intros HR r. apply (tracks_edit (λ s s', CSetEdgeSemanticPredicateByIds s s' x) (λ i j, EdSetPredicate m i j x) (set_predicate_capture m x) g h i j); [done|]. unfold r. cbn.
  unfold replay_set_edge_semantic_predicate_by_ids. destruct (get_node_key_by_id g i); [|done]. destruct (get_node_key_by_id g j); [|done].
  destruct (find_edge_key g _ _); [|done]. unfold set_edge_semantic_predicate. by destruct (get_edge g _).
Qed.
Lemma push_false g a b t : (push_traversal g a b t).2 = false → (push_traversal g a b t).1 = g.
Proof. unfold push_traversal. destruct (_ || _); [done|]. by destruct (_ ≫= _) as [[]|]. Qed.
Lemma traversal_ids_tracks g h i j t at_ms :
  related g h → let r := replay_append_traversal_by_ids g i j t at_ms in
  tracks r.1 (if r.2 : bool then [CAppendTraversalByIds (text i) (text j) t at_ms] else []) h.
Proof.
  intros HR r. apply (tracks_edit (λ s s', CAppendTraversalByIds s s' t at_ms) (λ i j, EdTraversal i j t at_ms) (traversal_capture t at_ms) g h i j); [done|]. unfold r. cbn.
  unfold replay_append_traversal_by_ids. destruct (get_node_key_by_id g i); [|done]. destruct (get_node_key_by_id g j); [|done].
  unfold append_traversal. intros Hf. by rw push_false.
Qed.
Lemma retract_ids_tracks g h i j sel :
  related g h → let r := replay_retract_relations_by_ids g i j sel in
  tracks r.1 (if bool_decide (0 < r.2)%nat then [CRetractRelationsByIds (text i) (text j) sel] else []) h.
Proof.
  intros HR r. apply (tracks_edit (λ s s', CRetractRelationsByIds s s' sel) (λ i j, EdRetract i j sel) (retract_capture sel) g h i j); [done|]. intros Hn%bool_decide_eq_false. apply unbumped_noop; [done..|].
  revert Hn. unfold r. cbn. unfold replay_retract_relations_by_ids. destruct (get_node_key_by_id g i); [|done]. destruct (get_node_key_by_id g j); [|done].
  intros Hn. apply retract_unchanged; [apply HR|lia].
Qed.

(** By key. *)
Lemma node_dead g a b : get_node g a = None ∨ get_node g b = None → contains_node g a = false ∨ contains_node g b = false.
Proof. intros [?%contains_dead|?%contains_dead]; by [left|right]. Qed.

Lemma assert_tracks m g h a b x :
  related g h → let r := assert_relation m g a b x in tracks r.1 (pair_capture g a b (is_some_b r.2) (λ s s', CAssertRelationByIds s s' x)) h.
Proof.
  intros HR r. apply (tracks_pair _ (λ i j, EdAssert m i j x) (assert_capture m x)); [done| |intros Hd%node_dead; unfold r; by rw assert_dead].
  intros i j Hi Hj. assert (r.1 = run_edit g (EdAssert m i j x)) as Hr by (cbn; unfold replay_assert_relation_by_ids; by rw Hi Hj). split; [done|].
  intros Hn%is_some_false. rw Hr. apply unbumped_noop; [done..|]. rw -Hr. by apply assert_unchanged.
Qed.
Lemma predicate_tracks m g h a b x :
  related g h → let r := assert_semantic_predicate m g a b x in tracks r.1 (pair_capture g a b (is_some_b r.2) (λ s s', CAssertSemanticPredicateByIds s s' x)) h.
Proof.
  intros HR r. apply (tracks_pair _ (λ i j, EdPredicate m i j x) (predicate_capture m x)); [done| |intros Hd%node_dead; unfold r; by rw predicate_dead].
  intros i j Hi Hj. assert (r.1 = run_edit g (EdPredicate m i j x)) as Hr by (cbn; unfold replay_assert_semantic_predicate_by_ids; by rw Hi Hj). split; [done|].
  intros Hn%is_some_false. rw Hr. apply unbumped_noop; [done..|]. rw -Hr. by apply predicate_unchanged.
Qed.
Lemma retract_tracks g h a b sel :
  related g h → let r := retract_relations g a b sel in tracks r.1 (pair_capture g a b (bool_decide (0 < r.2)%nat) (λ s s', CRetractRelationsByIds s s' sel)) h.
Proof.
  intros HR r. pose proof HR as (Hg & _ & _).
  apply (tracks_pair _ (λ i j, EdRetract i j sel) (retract_capture sel)); [done| |intros Hd; unfold r; rw retract_dead //; apply Hg].
  intros i j Hi Hj. assert (r.1 = run_edit g (EdRetract i j sel)) as Hr by (cbn; unfold replay_retract_relations_by_ids; by rw Hi Hj). split; [done|].
  intros Hn%bool_decide_eq_false. rw Hr. apply unbumped_noop; [done..|]. rw -Hr. apply retract_unchanged; [apply Hg|]. unfold r in Hn. lia.
Qed.

Lemma last_pushed p t : last (payload_traversals (payload_push_traversal p t)) = Some t.
Proof. unfold payload_traversals. cbn. by rw last_snoc. Qed.

Lemma traversal_tracks now g h a b t at_ms :
  related g h → let r := append_traversal now g a b t at_ms in
  tracks r.1 (match last_traversal r.1 a b with
              | Some tr => pair_capture g a b r.2 (λ s s', CAppendTraversalByIds s s' (trigger tr) (timestamp_ms tr))
              | None => []
              end) h.
Proof.
  intros HR r. pose proof HR as (Hg & _ & _). unfold append_traversal in r. set (tr := mkTraversal (default now at_ms) t) in *.
  destruct r.2 eqn:Ec; cycle 1.
  { unfold r in *. rw (push_false g a b tr Ec). unfold pair_capture. by repeat case_match. }
  assert (last_traversal r.1 a b = Some tr ∧ ∃ i j, get_node_key_by_id g i = Some a ∧ get_node_key_by_id g j = Some b ∧ a ≠ b) as (-> & i & j & Hi & Hj & Hab).
  { unfold r in *. assert (a ≠ b ∧ contains_node g a ∧ contains_node g b) as (Hab & Ha & Hb).
    { unfold push_traversal in Ec. destruct (bool_decide (a = b)) eqn:Eab, (contains_node g a), (contains_node g b); try done. by apply bool_decide_eq_false in Eab. }
    apply bool_decide_unpack in Ha as [n Hn]. apply bool_decide_unpack in Hb as [n' Hn'].
    pose proof (push_traversal_pair n_id g a b tr _ _ (iv_wf g Hg) (ex_intro _ n Hn) (ex_intro _ n' Hn') Hab (surjective_pairing _)) as [Hu _].
    pose proof (up_pair _ _ _ _ _ _ Hu a b) as Hp. rw decide_True // in Hp. split.
    - unfold last_traversal. unfold pair_bucket in Hp. destruct (find_edge_key _ a b) as [key|]; [|done]. cbn in *. rw Hp. cbn. apply last_pushed.
    - exists (n_id n), (n_id n'). split_and!; [by apply node_key; [apply Hg|]..|done]. }
  pose proof (tracks_pair (λ s s', CAppendTraversalByIds s s' t (default now at_ms)) (λ i j, EdTraversal i j t (default now at_ms))
    (traversal_capture t (default now at_ms)) g h a b r.1 true HR) as Ht. apply Ht.
  - intros x y Hx Hy. split; [|done]. cbn. unfold replay_append_traversal_by_ids. by rw Hx Hy.
  - intros Hd%node_dead. unfold r. by rw traversal_dead.
Qed.

Lemma set_predicate_tracks m g h key p :
  related g h → let r := set_edge_semantic_predicate m g key p in
  tracks r.1 (match sg_edges (inner (k_inner g)) !! key with
              | Some (a, b, _) => pair_capture g a b r.2 (λ s s', CSetEdgeSemanticPredicateByIds s s' p)
              | None => []
              end) h.
Proof.
  intros HR r. pose proof HR as (Hg & _ & _). pose proof (iv_wf g Hg) as Hw. destruct (sg_edges (inner (k_inner g)) !! key) as [[[a b] q]|] eqn:Ek; cycle 1.
  { unfold r, set_edge_semantic_predicate, get_edge, graph_edge. by rw Ek. }
  apply (tracks_pair _ (λ i j, EdSetPredicate m i j p) (set_predicate_capture m p)); [done| |].
  - intros i j Hi Hj. split.
    + cbn. unfold replay_set_edge_semantic_predicate_by_ids. rw Hi Hj. destruct (find_edge_key g a b) as [key'|] eqn:Ef.
      * destruct (find_edge_Some g a b key' Ef) as [q' Hq]. by rw (kw_pair n_id g Hw key' key a b q' q Hq Ek).
      * by apply (find_edge_None g a b key q) in Ef.
    + unfold r, set_edge_semantic_predicate, get_edge, graph_edge. by rw Ek.
  - intros Hd. destruct (kw_ends n_id g Hw key a b q Ek) as [[? Ha] [? Hb]]. unfold get_node, graph_node in Hd. destruct Hd; congruence.
Qed.

(** *** Lifecycle *)

Lemma key_in_other g h i k : related g h → get_node_key_by_id g i = Some k → ∃ k', get_node_key_by_id h i = Some k'.
Proof. intros (Hg & Hh & Ha) Hk. apply (agrees_live g h i (iv_wf g Hg) (iv_wf h Hh) Ha). by exists k. Qed.
Lemma dead_in_other g h i : related g h → get_node_key_by_id g i = None → get_node_key_by_id h i = None.
Proof.
  intros (Hg & Hh & Ha) Hk. apply eq_None_not_Some. intros Hl. apply (agrees_live g h i (iv_wf g Hg) (iv_wf h Hh) Ha) in Hl as [k Hk']. congruence.
Qed.

Lemma add_tracks env g h i url pos :
  related g h → get_node_key_by_id g i = None → let r := add_node_with_id env g i url in
  node_id_of r.1 r.2 = Some i ∧ tracks r.1 [CAddNodeWithIdIfMissing (text i) url pos] h.
Proof.
  intros HR Hi r. pose proof (dead_in_other g h i HR Hi) as Hi'. split; [by apply (related_add env env g h)|].
  apply (tracks_replay _ _ _ (ReplayAddNodeWithIdIfMissing i url pos)); [cbn; by rw uuid_parse_print|]. intros env'. cbn.
  unfold replay_add_node_with_id_if_missing. rw Hi'. destruct (related_add env env' g h i url HR Hi Hi') as [HR' _]. destruct (add_node_with_id env' h i url). eauto 6.
Qed.

Lemma remove_tracks g h i k :
  related g h → get_node_key_by_id g i = Some k → (remove_node g k).2 = true ∧ tracks (remove_node g k).1 [CRemoveNodeById (text i)] h.
Proof.
  intros HR Hk. destruct (key_in_other g h i k HR Hk) as [k' Hk']. destruct (related_remove g h i k k' HR Hk Hk') as [HR' Hr]. split; [done|].
  apply (tracks_replay _ _ _ (ReplayRemoveNodeById i)); [cbn; by rw uuid_parse_print|]. intros env. cbn. unfold replay_remove_node_by_id. rw Hk'.
  destruct (remove_node h k'). eauto 6.
Qed.

(** *** Addresses and navigation *)

Lemma url_tracks g h i k url g' old :
  related g h → get_node_key_by_id g i = Some k → update_node_url g k url = Some (g', old) →
  is_some_b old = true ∧ tracks g' [CSetNodeUrlById (text i) url] h.
Proof.
  intros HR Hk Hu. destruct (key_in_other g h i k HR Hk) as [k' Hk']. destruct (related_update_url g h i k k' url HR Hk Hk') as (g1 & h1 & o & Eg & Eh & HR').
  rw Eg in Hu. injection Hu as <- <-. split; [done|]. apply (tracks_replay _ _ _ (ReplaySetNodeUrlById i url)); [cbn; by rw uuid_parse_print|].
  intros env. cbn. rw Hk' Eh. cbn. eauto 6.
Qed.

Lemma session_frame g k s i : get_node_key_by_id (set_node_last_session_visited g k s).1 i = get_node_key_by_id g i.
Proof.
  unfold set_node_last_session_visited. destruct (get_node g k); [|done]. case_bool_decide; [done|]. unfold set_node_facet. by rw set_facet_frame.
Qed.

Lemma navigate_tracks g h i k url t at_ms session g' cs r :
  related g h → get_node_key_by_id g i = Some k → navigate (M := M) g k i url t at_ms session = Some (g', cs, r) → tracks g' cs h.
Proof.
  intros HR Hk. unfold navigate. intros (m & Em & (u & Eu & [= <- <- <-])%bind_Some)%bind_Some. destruct (key_in_other g h i k HR Hk) as [k' Hk'].
  pose proof (related_nav g h m HR) as HR1. destruct (re_related _ (session_respects session) _ _ i k k' HR1 Hk Hk') as [HR2 _]. cbn in HR2.
  destruct (related_update_url _ _ i k k' url HR2) as (g1 & h1 & o & Eg & Eh & HR'); [by rw session_frame|by rw session_frame|].
  rw Eg in Eu. injection Eu as <-. apply (tracks_replay _ _ _ (ReplayNavigateNodeById i url t at_ms session)); [cbn; by rw uuid_parse_print|].
  intros env. cbn. rw Hk'. unfold navigate. destruct HR as (_ & _ & Ha). rw -(ag_nav g h Ha) Em. cbn. rw Eh. cbn. eauto 6.
Qed.

Lemma step_tracks g h i k back at_ms c d g' cs r :
  related g h → get_node_key_by_id g i = Some k →
  step_history g k (nav_step (M := M) (nav (k_rest g)) i back at_ms) c = Some (g', cs, r) →
  replay_delta c = Some (Some d) →
  (∀ env h k', get_node_key_by_id h i = Some k' →
     apply_graph_delta (M := M) env h d = step_history h k' (nav_step (M := M) (nav (k_rest h)) i back at_ms) c) →
  tracks g' cs h.
Proof.
  intros HR Hk Hs Hc Hd. destruct (key_in_other g h i k HR Hk) as [k' Hk']. pose proof HR as (_ & _ & Ha).
  unfold step_history in Hs. apply bind_Some in Hs as ([m [url|]] & Em & Hs); cycle 1.
  { injection Hs as <- <- <-. apply nav_step_none in Em as ->. assert (with_nav (nav (k_rest g)) g = g) as -> by by destruct g as [? ? []]. done. }
  apply bind_Some in Hs as (u & Eu & [= <- <- <-]). pose proof (related_nav g h m HR) as HR1.
  destruct (related_update_url _ _ i k k' url HR1 Hk Hk') as (g1 & h1 & o & Eg & Eh & HR'). rw Eg in Eu. injection Eu as <-.
  apply (tracks_replay _ _ _ d); [done|]. intros env. rw (Hd env h k' Hk') -(ag_nav g h Ha) Em. cbn. rw Eh. cbn. eauto 6.
Qed.

Lemma history_tracks g h i k es n g' cs r :
  related g h → get_node_key_by_id g i = Some k →
  history_outcome (set_node_history_state (M := M) g k es n) [CUpdateNodeHistoryById (text i) es n] = Some (g', cs, r) → tracks g' cs h.
Proof.
  intros HR Hk. destruct (key_in_other g h i k HR Hk) as [k' Hk']. pose proof HR as (Hg & Hh & Ha).
  pose proof Hk as Hi%(node_id_key g k i (iv_wf g Hg)). pose proof Hk' as Hi'%(node_id_key h k' i (iv_wf h Hh)).
  unfold history_outcome. intros ([g1 c] & Es & [= <- <- <-])%bind_Some. cbn [fst snd]. unfold set_node_history_state in Es. rw Hi in Es. cbn zeta in Es.
  assert (∀ env, apply_graph_delta (M := M) env h (ReplayUpdateNodeHistoryById i es n) =
    history_outcome (set_node_history_state (M := M) h k' es n) [CUpdateNodeHistoryById (text i) es n]) as Hap by (intros; cbn; by rw Hk').
  apply bind_Some in Es as (cur & Ec & Es). destruct (_ && _) eqn:Eb; [by injection Es as <- <-|].
  apply bind_Some in Es as (m1 & E1 & (m2 & E2 & [= <- <-])%bind_Some).
  apply (tracks_replay _ _ _ (ReplayUpdateNodeHistoryById i es n)); [cbn; by rw uuid_parse_print|]. intros env. rw Hap. unfold set_node_history_state.
  rw Hi' -(ag_nav g h Ha) Ec. cbn zeta. cbn [mbind option_bind]. rw Eb E1. cbn [mbind option_bind]. rw E2. cbn. eexists _, _, _. split; [done|].
  by apply related_nav.
Qed.

Lemma branch_tracks g h i j a b g' cs r :
  related g h → get_node_key_by_id g i = Some a → get_node_key_by_id g j = Some b → branch_history (M := M) g i j = Some (g', cs, r) → tracks g' cs h.
Proof.
  intros HR Hi Hj. destruct (key_in_other g h i a HR Hi) as [a' Hi']. destruct (key_in_other g h j b HR Hj) as [b' Hj']. pose proof HR as (_ & _ & Ha).
  unfold branch_history. intros (m & Em & [= <- <- <-])%bind_Some.
  apply (tracks_replay _ _ _ (ReplayBranchHistoryByIds i j)); [cbn; by rw !uuid_parse_print|]. intros env. cbn. rw Hi' Hj'. unfold branch_history.
  rw -(ag_nav g h Ha) Em. cbn. eexists _, _, _. split; [done|]. by apply related_nav.
Qed.

(** *** Import records *)

Lemma import_tracks g h r0 g' cs r : related g h → reimports g r0 → import_outcome r0 = Some (g', cs, r) → tracks g' cs h.
Proof.
  intros HR [-> |(F & rs & -> & Hn & Hm & Hs)]; cbn; intros [= <- <- <-]; [done|].
  apply (tracks_replay _ _ _ (ReplaySetImportRecords rs)); [done|]. intros env. cbn. pose proof (related_set_records g h F rs HR Hn Hm Hs) as HR'.
  unfold import_outcome. destruct (set_import_records h rs). eauto 6.
Qed.

(** *** Fields and couplings *)

Definition field_op (op : Graph → Graph * bool) : Prop :=
  ∀ g h, related g h → related (op g).1 (op h).1 ∧ ((op g).2 = false → related (op g).1 h).

Lemma tracks_field op c d g h g' cs r :
  field_op op → replay_delta c = Some (Some d) → (∀ env h, apply_graph_delta (M := M) env h d = field_outcome (op h) c) →
  related g h → field_outcome (op g) c = Some (g', cs, r) → tracks g' cs h.
Proof.
  intros Hop Hc Hd HR. destruct (Hop g h HR) as [HR' Hf]. unfold field_outcome. destruct (op g) as [g1 []]; intros [= <- <- <-]; [|by apply Hf].
  apply (tracks_replay _ _ _ d); [done|]. intros env. rw Hd. unfold field_outcome. destruct (op h). cbn in HR'. eauto 6.
Qed.

Lemma with_fields_same g : with_fields (fields (k_rest g)) (couplings (k_rest g)) g = g.
Proof. by destruct g as [? ? []]. Qed.
Lemma related_fields_of g h f c f' c' : related g h → f = f' → c = c' → related (with_fields f c g) (with_fields f' c' h).
Proof. intros HR -> ->. by apply related_fields. Qed.

Lemma none_op : field_op (λ g, (g, false)).
Proof. done. Qed.
Lemma add_field_op f : field_op (λ g, (add_field g f, true)).
Proof. intros g h HR. split; [|done]. destruct HR as (? & ? & Ha). apply related_fields_of; [done|by rw (ag_fields g h Ha)|apply (ag_couplings g h Ha)]. Qed.
Lemma add_coupling_op c : field_op (λ g, (add_coupling g c, true)).
Proof. intros g h HR. split; [|done]. destruct HR as (? & ? & Ha). apply related_fields_of; [done|apply (ag_fields g h Ha)|by rw (ag_couplings g h Ha)]. Qed.
Lemma lifecycle_op i l : field_op (λ g, set_field_lifecycle g i l).
Proof.
  intros g h HR. unfold set_field_lifecycle. pose proof HR as (_ & _ & Ha). rw (ag_fields g h Ha). destruct (fields (k_rest h) !! i); [|done].
  split; [|done]. apply related_fields_of; [done..|apply (ag_couplings g h Ha)].
Qed.
Lemma retract_coupling_op i : field_op (λ g, retract_coupling g i).
Proof.
  intros g h HR. unfold retract_coupling. cbn [fst snd]. pose proof HR as (_ & _ & Ha). split.
  - apply related_fields_of; [done|apply (ag_fields g h Ha)|by rw (ag_couplings g h Ha)].
  - intros Hn%bool_decide_eq_false%eq_None_not_Some. by rw delete_id // with_fields_same.
Qed.
Lemma strength_op i v : field_op (λ g, set_field_coupling_strength g i v).
Proof.
  intros g h HR. unfold set_field_coupling_strength. cbn [fst snd]. pose proof HR as (_ & _ & Ha). split.
  - apply related_fields_of; [done|apply (ag_fields g h Ha)|by rw (ag_couplings g h Ha)].
  - intros Hn. assert ((λ c, if bool_decide (co_field c = i) then mkCoupling (co_id c) (co_field c) (co_selector c) (co_response c) v else c)
      <$> couplings (k_rest g) = couplings (k_rest g)) as ->; [|by rw with_fields_same].
    apply map_eq. intros x. rw lookup_fmap. destruct (couplings (k_rest g) !! x) as [c|] eqn:Ec; [|done]. cbn. f_equal. rw bool_decide_eq_false_2 //.
    intros Hc. apply not_true_iff_false in Hn. apply Hn. apply existsb_exists. exists (x, c). split; [by apply list_elem_of_In, elem_of_map_to_list|]. by apply bool_decide_eq_true_2.
Qed.
Lemma by_text_op s (op : Graph → U → Graph * bool) : (∀ i, field_op (λ g, op g i)) → field_op (λ g, by_field_text g s (op g)).
Proof. intros Hop. unfold by_field_text. destruct (uuid_parse s) as [i|]; [apply (Hop i)|done]. Qed.
Lemma persisted_field_op p : field_op (λ g, match field_from_persisted p with Some x => (add_field g x, true) | None => (g, false) end).
Proof. destruct (field_from_persisted p); [apply add_field_op|done]. Qed.
Lemma persisted_coupling_op p : field_op (λ g, match coupling_from_persisted p with Some x => (add_coupling g x, true) | None => (g, false) end).
Proof. destruct (coupling_from_persisted p); [apply add_coupling_op|done]. Qed.

(** What is stored of a coupling is all of it; of a field, all but a definition
    that its own text loses. *)
Lemma coupling_roundtrip (c : Coupling U) : coupling_from_persisted (persisted_coupling_from_coupling c) = Some c.
Proof. unfold coupling_from_persisted. cbn. rw !uuid_parse_print. destruct c as [? ? [] [] ?]; done. Qed.
Lemma field_roundtrip (f : Field U D) :
  definition_from_str (default "" (definition_to_string (fi_definition f))) = Some (fi_definition f) →
  field_from_persisted (persisted_field_from_field f) = Some f.
Proof.
  intros Hd. unfold field_from_persisted. cbn. rw uuid_parse_print. cbn. rw Hd. cbn. destruct f as [? ? ? [] []]; cbn; rw ?uuid_parse_print; done.
Qed.

(** *** Every delta *)

(** What a caller owes: a node is added under an id that is not in use, the facet
    derived from the import records is not written by hand, values survive their
    own JSON text, and import records are about nodes of the graph. *)
Definition delta_ok env g (d : GraphDelta (U := U) (J := J) (D := D)) : Prop :=
  match d with
  | AddNode id _ _ => ¬ live_id g (default (new_uuid env) id)
  | SetNodeFacet _ f v | ReplaySetNodeFacetById _ f v => free_facet f ∧ json_from_str (json_to_string v) = Some v
  | RemoveNodeFacet _ f | ReplayRemoveNodeFacetById _ f => free_facet f
  | AddField f => definition_from_str (default "" (definition_to_string (fi_definition f))) = Some (fi_definition f)
  | SetImportRecords rs | ReplaySetImportRecords rs => members_live g rs
  | _ => True
  end.

Create HintDb kernel.
#[local] Hint Resolve title_respects image_respects nested_respects mime_respects content_respects body_respects pinned_respects
  append_hint_respects remove_hint_respects move_hint_respects suppress_respects property_respects add_classification_respects
  remove_classification_respects classification_status_respects primary_classification_respects derivation_respects icon_respects
  tag_respects untag_respects facet_value_respects remove_facet_respects touch_respects : kernel.
#[local] Hint Resolve add_field_op add_coupling_op lifecycle_op retract_coupling_op strength_op by_text_op persisted_field_op persisted_coupling_op : kernel.

Ltac setter_with L :=
  eapply L; cycle 3;
  [eassumption | eassumption | solve [eauto with kernel] | intros ?; cbn; rw ?uuid_parse_print; reflexivity | intros; reflexivity].
Ltac setter := first [solve [setter_with tracks_by_key] | solve [setter_with tracks_by_id]].

(** An operation that returns what its records are made from. *)
Lemma tracks_paired {A} (x : Graph * A) (f : Graph → A → list CapturedDelta) (res : A → GraphDeltaResult) g' cs r h :
  tracks x.1 (f x.1 x.2) h → (let '(g1, a) := x in Some (g1, f g1 a, res a)) = Some (g', cs, r) → tracks g' cs h.
Proof. destruct x. by intros Ht [= <- <- <-]. Qed.
#[local] Hint Resolve assert_tracks predicate_tracks retract_tracks traversal_tracks set_predicate_tracks assert_ids_tracks predicate_ids_tracks
  retract_ids_tracks traversal_ids_tracks set_predicate_ids_tracks : kernel.
Ltac paired :=
  match goal with Hap : (let '(_, _) := ?x in _) = _ |- _ => eapply (tracks_paired x); [|exact Hap]; cbv beta; solve [eauto with kernel] end.

Ltac field_delta op :=
  eapply (tracks_field op); cycle 3;
  [eassumption | eassumption | solve [eauto with kernel] | reflexivity
  | intros; cbn; unfold by_field_text, retire_field, activate_field; rw ?uuid_parse_print; reflexivity].

Lemma field_deltas_track env g h d g' cs r :
  related g h → delta_ok env g d → apply_graph_delta (M := M) env g d = Some (g', cs, r) →
  match d with
  | ReplayAddField _ | ReplayRetireFieldById _ | ReplayAddCoupling _ | ReplaySetFieldCouplingStrengthByFieldId _ _ | ReplayActivateFieldById _
  | ReplayRetractCouplingById _ | AddField _ | RetireField _ | AddCoupling _ | SetFieldCouplingStrength _ _ | ActivateField _ | RetractCoupling _ => tracks g' cs h
  | _ => True
  end.
Proof.
  intros HR Hok Hap. destruct d; try done; cbn [apply_graph_delta delta_ok] in *.
  - field_delta (λ g, match field_from_persisted field with Some x => (add_field g x, true) | None => (g, false) end).
  - field_delta (λ g, by_field_text g field_id (retire_field g)).
  - field_delta (λ g, match coupling_from_persisted coupling with Some x => (add_coupling g x, true) | None => (g, false) end).
  - field_delta (λ g, by_field_text g field_id (λ i, set_field_coupling_strength g i strength)).
  - field_delta (λ g, by_field_text g field_id (activate_field g)).
  - field_delta (λ g, by_field_text g coupling_id (retract_coupling g)).
  - eapply (tracks_field (λ g, (add_field g field, true)) (CAddField (persisted_field_from_field field)) (ReplayAddField (persisted_field_from_field field))); [apply add_field_op|reflexivity| |done|done]. intros. cbn. by rw field_roundtrip.
  - field_delta (λ g, retire_field g id).
  - eapply (tracks_field (λ g, (add_coupling g coupling, true)) (CAddCoupling (persisted_coupling_from_coupling coupling)) (ReplayAddCoupling (persisted_coupling_from_coupling coupling))); [apply add_coupling_op|reflexivity| |done|done]. intros. cbn. by rw coupling_roundtrip.
  - field_delta (λ g, set_field_coupling_strength g field strength).
  - field_delta (λ g, activate_field g id).
  - field_delta (λ g, retract_coupling g id).
Qed.

(** Nodes and their facets. *)
Lemma add_delta_tracks env g h i url pos g' cs r :
  related g h → get_node_key_by_id g i = None →
  (let '(g1, key) := add_node_with_id env g i url in
   Some (g1, match node_id_of g1 key with Some id => [CAddNodeWithIdIfMissing (text id) url pos] | None => [] end, NodeAdded key)) = Some (g', cs, r) →
  tracks g' cs h.
Proof.
  intros HR Hi. destruct (add_tracks env g h i url pos HR Hi) as [Hid Ht]. destruct (add_node_with_id env g i url) as [g1 key]. cbn [fst snd] in *. rw Hid.
  by intros [= <- <- <-].
Qed.
Lemma replay_add_tracks env g h i url pos :
  related g h → let r := replay_add_node_with_id_if_missing env g i url in
  tracks r.1 (if is_some_b r.2 then [CAddNodeWithIdIfMissing (text i) url pos] else []) h.
Proof.
  intros HR. unfold replay_add_node_with_id_if_missing. destruct (get_node_key_by_id g i) eqn:Hi; [done|].
  destruct (add_tracks env g h i url pos HR Hi) as [_ Ht]. by destruct (add_node_with_id env g i url).
Qed.
Lemma remove_delta_tracks g h k :
  related g h → let r := remove_node g k in
  tracks r.1 (match node_id_of g k with Some id => if r.2 : bool then [CRemoveNodeById (text id)] else [] | None => [] end) h.
Proof.
  intros HR. destruct (node_id_of g k) as [i|] eqn:Hi.
  - apply node_id_key in Hi; [|apply HR]. destruct (remove_tracks g h i k HR Hi) as [Hr Ht]. cbn. by rw Hr.
  - unfold node_id_of in Hi. apply fmap_None in Hi. by rw remove_dead.
Qed.
Lemma replay_remove_tracks g h i :
  related g h → let r := replay_remove_node_by_id g i in tracks r.1 (if r.2 : bool then [CRemoveNodeById (text i)] else []) h.
Proof.
  intros HR. unfold replay_remove_node_by_id. destruct (get_node_key_by_id g i) as [k|] eqn:Hk; [|done].
  destruct (remove_tracks g h i k HR Hk) as [Hr Ht]. cbn. by rw Hr.
Qed.
Lemma touch_tracks env g h k :
  related g h → let r := touch_node_last_visited_now env g k in
  tracks r.1 (match node_id_of g k, node_last_visited r.1 k with
              | Some id, Some at_ms => if r.2 : bool then [CTouchNodeLastVisitedById (text id) at_ms] else []
              | _, _ => []
              end) h.
Proof.
  intros HR r. pose proof HR as (Hg & _ & _). unfold touch_node_last_visited_now in r. destruct (node_id_of g k) as [i|] eqn:Hi; cycle 1.
  { unfold node_id_of in Hi. apply fmap_None in Hi. unfold r. rw (re_dead _ (touch_respects (now_ms env)) g k Hi). done. }
  pose proof Hi as Hk%(node_id_key g k i (iv_wf g Hg)). destruct (key_node g i k (iv_wf g Hg) Hk) as (n & Hn & _).
  assert (node_last_visited r.1 k = Some (now_ms env)) as Hl.
  { assert (r = set_node_facet_value g k VISIT_HISTORY (to_value (mkVisitHistory (Some (now_ms env)) (last_session_visited (node_facet_or visit_history_default g k VISIT_HISTORY))))) as Er
      by (unfold r, set_node_last_visited_at_ms; by rw Hn).
    assert (k_inner r.1 = k_inner g) as Ei by by rw Er set_facet_frame.
    unfold node_last_visited. rw (get_node_inner g r.1 k Ei) Hn. cbn [mbind option_bind].
    rw (node_facet_key visit_history_default r.1 i k); [|by apply (wf_inner g); [|apply Hg]|by unfold get_node_key_by_id; rw Ei].
    rw Er (set_facet_of g k i) // decide_True //. cbn. by rw facet_roundtrip. }
  rw Hl. refine (tracks_setter _ (λ s, CTouchNodeLastVisitedById s (now_ms env)) (λ i, ReplayTouchNodeLastVisitedById i (now_ms env))
    (touch_respects (now_ms env)) _ _ g h i k HR Hk); [|done]. intros j. cbn. by rw uuid_parse_print.
Qed.
#[local] Hint Resolve replay_add_tracks remove_delta_tracks replay_remove_tracks touch_tracks : kernel.
#[local] Hint Resolve set_records_reimports delete_record_reimports suppress_reimports set_provenance_reimports : kernel.

Lemma url_delta_tracks g h i k url g' cs r :
  related g h → get_node_key_by_id g i = Some k → url_outcome (update_node_url g k url) [CSetNodeUrlById (text i) url] = Some (g', cs, r) → tracks g' cs h.
Proof.
  intros HR Hk. unfold url_outcome. intros ([g1 old] & Hu & Hap)%bind_Some. destruct (url_tracks g h i k url g1 old HR Hk Hu) as [Ho Ht]. cbn [fst snd] in Hap.
  rw Ho in Hap. by injection Hap as <- <- <-.
Qed.
Lemma back_tracks g h i k at_ms g' cs r :
  related g h → get_node_key_by_id g i = Some k →
  step_history g k (nav_back (M := M) (nav (k_rest g)) i at_ms) (CNodeHistoryBackById (text i) at_ms) = Some (g', cs, r) → tracks g' cs h.
Proof.
  intros HR Hk Hs. apply (step_tracks g h i k true at_ms _ (ReplayNodeHistoryBackById i at_ms) g' cs r HR Hk Hs); [cbn; by rw uuid_parse_print|].
  intros env h' k' Hk'. cbn. by rw Hk'.
Qed.
Lemma forward_tracks g h i k at_ms g' cs r :
  related g h → get_node_key_by_id g i = Some k →
  step_history g k (nav_forward (M := M) (nav (k_rest g)) i at_ms) (CNodeHistoryForwardById (text i) at_ms) = Some (g', cs, r) → tracks g' cs h.
Proof.
  intros HR Hk Hs. apply (step_tracks g h i k false at_ms _ (ReplayNodeHistoryForwardById i at_ms) g' cs r HR Hk Hs); [cbn; by rw uuid_parse_print|].
  intros env h' k' Hk'. cbn. by rw Hk'.
Qed.
Lemma facet_capture f v i :
  json_from_str (json_to_string v) = Some v → replay_delta (D := D) (CSetNodeFacetById (text i) f (json_to_string v)) = Some (Some (ReplaySetNodeFacetById i f v)).
Proof. intros Hj. cbn. rw Hj uuid_parse_print. done. Qed.
#[local] Hint Resolve url_delta_tracks back_tracks forward_tracks navigate_tracks branch_tracks history_tracks : kernel.

(** The node named, by key or by id; nothing happens to one that is not there. *)
Ltac find_node Hap :=
  repeat match type of Hap with
  | match get_node_key_by_id ?g ?i with _ => _ end = _ => destruct (get_node_key_by_id g i) eqn:?; [|by injection Hap as <- <- <-]
  | match node_id_of ?g ?k with _ => _ end = _ =>
      let Hid := fresh "Hid" in destruct (node_id_of g k) eqn:Hid; [apply node_id_key in Hid; [|assumption]|by injection Hap as <- <- <-]
  end; solve [eauto with kernel].

Lemma apply_tracks env g h d g' cs r :
  related g h → delta_ok env g d → apply_graph_delta (M := M) env g d = Some (g', cs, r) → tracks g' cs h.
Proof.
  intros HR Hok Hap. pose proof HR as (Hg & Hh & Ha). pose proof (iv_wf g Hg) as Hw. pose proof (field_deltas_track env g h d g' cs r HR Hok Hap) as Hf.
  destruct d; try exact Hf; clear Hf; cbn [apply_graph_delta delta_ok] in *.
  all: try solve [setter | paired | eapply import_tracks; [eassumption| |eassumption]; eauto with kernel].
  all: try solve [find_node Hap].
  - destruct id as [i|]; [|destruct (wasm32 env); [done|]]; (eapply add_delta_tracks; [done|by apply eq_None_not_Some|exact Hap]).
  - destruct Hok as [Hf Hj]. eapply tracks_by_id; cycle 3; [done|exact Hap|by apply facet_value_respects|intros; by apply facet_capture|done].
  - unfold node_capture in Hap. destruct (node_id_of g key) as [i|] eqn:Hi; [apply node_id_key in Hi; eauto with kernel|].
    unfold node_id_of in Hi. apply fmap_None in Hi. unfold update_node_url in Hap. rw Hi in Hap. by injection Hap as <- <- <-.
  - destruct Hok as [Hf Hj]. eapply tracks_by_key; cycle 3; [done|exact Hap|by apply facet_value_respects|intros; by apply facet_capture|done].
  - unfold node_capture in Hap. destruct (node_id_of g key) as [i|] eqn:Hi; [apply node_id_key in Hi; eauto with kernel|].
    unfold set_node_history_state in Hap. rw Hi in Hap. by injection Hap as <- <- <-.
Qed.
End replay.
