(* ===== verification/KernelJournal.v ===== *)
(** The graph is its journal
    (crates/graph/graph-kernel/src/graph/{apply,capture,journal}.rs).

    [live_session] applies deltas with the journal's capture hook installed, from
    the empty graph and a new journal; [session_ok] says that each delta meets
    [delta_ok] in the graph it is applied to.  Replays take their own clock,
    uuids and statement ids, one [Env] per record.  The live graph and its replay
    [agrees]: the same nodes under the same ids, the same relations, statements
    and visits between them, the same facets, provenance and last session, the same
    URL index in the same order, the same import records, fields and couplings, and
    the same navigation memory.  Keys, statement ids, last-visited clocks and the
    per-launch session and revision counters are not compared.

    [Sample] has a session for the witnesses, and one example for each way a
    caller who owes [delta_ok] and breaks it makes the two part. *)

From S2P Require Import Prelude Wire Journal SlotMap Stemma StableGraph GraphLog KernelEdges KernelGraph KernelNav KernelNode KernelImports KernelDelta KernelRelate KernelUrls KernelSync KernelReplay.

Local Open Scope Z_scope.

Section journal.
Context {G : Type → Type → Type} `{StableGraph G} {M : Type → Type} `{SlotMap M} `{HashOrder} `{WebText}.
Context {U : Type} `{Countable U} `{UuidText U} {J D : Type} `{EqDecision J} `{JsonText J} `{FieldText D}.
Context `{Facet J bool} `{Facet J (list FrameLayoutHint)} `{Facet J NodeTagPresentationState} `{Facet J VisitHistoryFacet}.
Context `{Facet J (list NodeImportProvenance)} `{Facet J (list NodeDerivation)}.
Context `{Facet J (list NodeClassification)} `{Facet J (list NodeProperty)}.
Context `{!FacetRoundtrip J VisitHistoryFacet} `{!FacetRoundtrip J (list NodeImportProvenance)}.

Abbreviation Graph := (KGraph (G := G) (N := Node U) (Id := U) (R := Rest (U := U) (J := J) (D := D))).
Abbreviation Delta := (GraphDelta (U := U) (J := J) (D := D)).
Implicit Types (g h : Graph) (i : U) (k : Z) (j : GraphJournal) (envs : list (Env U)) (ds : list (Env U * Delta)) (cs : list CapturedDelta).

(** ** Sessions *)

(** Every delta of a session meets what its caller owes, where it is applied. *)
Fixpoint session_ok g ds : Prop :=
  match ds with
  | [] => True
  | (env, d) :: ds => delta_ok env g d ∧ match apply_graph_delta (M := M) env g d with Some r => session_ok r.1.1 ds | None => True end
  end.

Lemma record_deltas j c : gj_deltas (record j c).2 = gj_deltas j ++ [c].
Proof. unfold record, record_as, gj_deltas, append. cbn. by rw fmap_app. Qed.
Lemma records_deltas cs j : gj_deltas (fold_left (λ j c, (record j c).2) cs j) = gj_deltas j ++ cs.
Proof. revert j. induction cs as [|c cs IH]; intros j; cbn [fold_left]; [by rw app_nil_r|]. by rw IH record_deltas -app_assoc. Qed.

(** What a delta captured leads a related graph along, as a list of records. *)
Lemma tracks_list g' cs h envs :
  tracks (M := M) g' cs h → length envs = length cs → ∃ h', replay_captured_deltas_onto (M := M) h (zip envs cs) = Some h' ∧ related g' h'.
Proof.
  intros Ht Hl. unfold replay_captured_deltas_onto. destruct cs as [|c [|]]; [by destruct envs; [exists h|]| |done].
  destruct envs as [|env [|]]; try done. destruct (Ht env) as (h' & Hr & HR). exists h'. cbn [zip zip_with]. rw foldM_cons Hr. done.
Qed.

Lemma session_tracks ds g h j g' j' :
  related g h → session_ok g ds → live_session (M := M) (g, j) ds = Some (g', j') → ∃ cs, gj_deltas j' = gj_deltas j ++ cs ∧
  ∀ envs, length envs = length cs → ∃ h', replay_captured_deltas_onto (M := M) h (zip envs cs) = Some h' ∧ related g' h'.
Proof.
  unfold live_session. revert g h j. induction ds as [|[env d] ds IH]; intros g h j HR Hok.
  { intros [= <- <-]. exists []. rw app_nil_r. split; [done|]. intros [|]; [by exists h|done]. }
  rw foldM_cons. intros ([g1 j1] & Hs & Hrest)%bind_Some. unfold live_step in Hs. cbn [fst snd] in Hs.
  apply bind_Some in Hs as ([[g2 c1] r] & Ha & [= -> <-]). cbn [fst snd] in *. destruct Hok as [Hd Hok]. rw Ha in Hok. cbn [fst] in Hok.
  pose proof (apply_tracks env g h d g1 c1 r HR Hd Ha) as Ht.
  assert (∃ h1, related g1 h1) as [h0 HR0].
  { destruct (tracks_list g1 c1 h (replicate (length c1) env) Ht) as (h1 & _ & HR1); [by rw length_replicate|by exists h1]. }
  destruct (IH g1 h0 _ HR0 Hok Hrest) as (c2 & Hj & _). rw records_deltas -app_assoc in Hj. exists (c1 ++ c2). split; [done|].
  intros envs Hl. rw length_app in Hl. destruct (tracks_list g1 c1 h (take (length c1) envs) Ht) as (h1 & Hr1 & HR1); [rw length_take; lia|].
  destruct (IH g1 h1 _ HR1 Hok Hrest) as (c2' & Hj' & Hr2). rw records_deltas -app_assoc in Hj'.
  assert (c2' = c2) as -> by (rw Hj in Hj'; by apply app_inv_head in Hj'; apply app_inv_head in Hj').
  destruct (Hr2 (drop (length c1) envs)) as (h2 & Hr2' & HR2); [rw length_drop; lia|]. exists h2. split; [|done].
  unfold replay_captured_deltas_onto in *. rw -(take_drop (length c1) envs) zip_with_app; [|rw length_take; lia]. rw foldM_app Hr1. done.
Qed.

Lemma new_inv : k_inv (kernel_new : Graph).
Proof.
  assert (∀ k, get_node (kernel_new : Graph) k = None) as Hn by (intros; unfold get_node, graph_node; cbn; by rw sg_nodes_new lookup_empty).
  assert (∀ i, get_node_key_by_id (kernel_new : Graph) i = None) as Hk by (intros; apply lookup_empty).
  assert (∀ url, get_nodes_by_url (kernel_new : Graph) url = []) as Hu by (intros; unfold get_nodes_by_url; cbn; by rw lookup_empty).
  split.
  - apply new_wf.
  - intros k n. by rw Hn.
  - intros url k. rw Hu Hn elem_of_nil. naive_solver.
  - intros url. rw Hu. apply NoDup_nil_2.
  - intros url. cbn. by rw lookup_empty.
  - intros i. cbn. rw lookup_empty. by intros [].
  - split_and!; [constructor|constructor|by intros ? ?%elem_of_nil].
  - by intros x (r & ?%elem_of_nil & _).
  - intros i [k Hi]. by rw Hk in Hi.
Qed.

Lemma related_refl g : k_inv g → related g g.
Proof. intros Hg. split_and!; [done|done|]. by split. Qed.

Lemma session_inv ds g j : session_ok kernel_new ds → live_session (M := M) (kernel_new, gj_new) ds = Some (g, j) → k_inv g.
Proof.
  intros Hok Hs. destruct (session_tracks ds kernel_new kernel_new gj_new g j (related_refl _ new_inv) Hok Hs) as (cs & _ & Hr).
  destruct ds as [|[env d] ds]; [by injection Hs as <- _; apply new_inv|].
  destruct (Hr (replicate (length cs) env)) as (h & _ & Hg & _); [by rw length_replicate|done].
Qed.

Lemma session_appends ds g j g' j' : live_session (M := M) (g, j) ds = Some (g', j') → gj_deltas j `prefix_of` gj_deltas j'.
Proof.
  unfold live_session. revert g j. induction ds as [|[env d] ds IH]; intros g j; [by intros [= <- <-]|]. rw foldM_cons.
  intros ([g1 j1] & (r & _ & [= _ <-])%bind_Some & Hrest)%bind_Some. apply IH in Hrest. etrans; [|exact Hrest]. rw records_deltas. by eexists.
Qed.

Lemma cursor_deltas j : live_cursor j = length (gj_deltas j).
Proof. unfold live_cursor, next_seq, gj_deltas. by rw length_fmap. Qed.

(** C2. The graph is its journal.  After any session of deltas, of every kind, that
    meets [session_ok] (no node added under an id in use, the derived provenance facet
    not written by hand, facet values and field definitions that survive their own
    text, import records about nodes of the graph), the records the capture hook journaled replay from
    the empty graph without a panic, at whatever later moments, to a graph that
    agrees with the live one on nodes, relations, facets, URL index, import records,
    fields, couplings and navigation memory. *)
Theorem live_is_its_journal ds g j envs :
  session_ok kernel_new ds → live_session (M := M) (kernel_new, gj_new) ds = Some (g, j) → length envs = live_cursor j →
  ∃ h, gj_replay (M := M) envs j = Some h ∧ agrees g h.
Proof.
  intros Hok Hs Hl. destruct (session_tracks ds kernel_new kernel_new gj_new g j (related_refl _ new_inv) Hok Hs) as (cs & Hj & Hr).
  rw cursor_deltas Hj in Hl. destruct (Hr envs Hl) as (h & Hrep & _ & _ & Ha). exists h. split; [|done]. unfold gj_replay. by rw Hj.
Qed.

(** C15. Time travel.  After a session that meets [session_ok], whatever happens then, with
    no condition on it, [snapshot_at] the cursor the
    journal had then is a graph that agrees with the live graph of that moment. *)
Theorem snapshot_is_the_past ds ds' g j g' j' envs :
  session_ok kernel_new ds → live_session (M := M) (kernel_new, gj_new) ds = Some (g, j) →
  live_session (M := M) (g, j) ds' = Some (g', j') → length envs = live_cursor j →
  ∃ h, snapshot_at (M := M) envs j' (live_cursor j) = Some (Some h) ∧ agrees g h.
Proof.
  intros Hok Hs Hs' Hl. destruct (session_tracks ds kernel_new kernel_new gj_new g j (related_refl _ new_inv) Hok Hs) as (cs & Hj & Hr).
  change (gj_deltas j = cs) in Hj. rw cursor_deltas Hj in Hl. destruct (Hr envs Hl) as (h & Hrep & _ & _ & Ha). exists h. split; [|done].
  apply session_appends in Hs' as [cs' Hj']. rw Hj in Hj'. assert (live_cursor j ≤ journal_len (gj_log j'))%nat as Hle.
  { unfold journal_len. rw -(length_fmap ad_delta). fold (gj_deltas j'). rw Hj' cursor_deltas Hj length_app. lia. }
  unfold snapshot_at. rw bool_decide_eq_true_2 // Hj' cursor_deltas Hj take_app_length. unfold replay_captured_deltas. by rw Hrep.
Qed.

(** C16. A checkpoint and the tail.  In a session that meets [session_ok] throughout, a
    graph saved at a cursor and brought forward by [replay_from] that cursor agrees
    with the live graph after the rest of the session. *)
Theorem checkpoint_and_tail ds ds' g j g' j' envs :
  session_ok kernel_new ds → live_session (M := M) (kernel_new, gj_new) ds = Some (g, j) →
  session_ok g ds' → live_session (M := M) (g, j) ds' = Some (g', j') → length envs = (live_cursor j' - live_cursor j)%nat →
  ∃ h, gj_replay_from (M := M) envs j' (live_cursor j) g = Some h ∧ agrees g' h.
Proof.
  intros Hok Hs Hok' Hs' Hl. pose proof (session_inv ds g j Hok Hs) as Hg.
  destruct (session_tracks ds' g g j g' j' (related_refl g Hg) Hok' Hs') as (cs & Hj & Hr). rw !cursor_deltas Hj length_app in Hl.
  destruct (Hr envs) as (h & Hrep & _ & _ & Ha); [lia|]. exists h. split; [|done]. unfold gj_replay_from, journal_from.
  assert (ad_delta <$> drop (live_cursor j `min` length (j_entries (gj_log j'))) (j_entries (gj_log j')) = cs) as ->; [|done].
  rw fmap_drop. fold (gj_deltas j'). rw -(length_fmap ad_delta (j_entries (gj_log j'))). fold (gj_deltas j'). rw Hj length_app cursor_deltas.
  rw Nat.min_l; [apply drop_app_length|lia].
Qed.

(** C17. The URL index is exact.  After any session that meets [session_ok], the nodes filed under a URL are
    exactly the live nodes whose primary address is that URL, each filed once, and
    no URL is left with an empty entry. *)
Theorem url_index_exact ds g j :
  session_ok kernel_new ds → live_session (M := M) (kernel_new, gj_new) ds = Some (g, j) →
  (∀ url k, k ∈ get_nodes_by_url g url ↔ ∃ n, get_node g k = Some n ∧ as_url_str <$> primary_address n = Some url) ∧
  (∀ url, NoDup (get_nodes_by_url g url) ∧ url_to_nodes (k_rest g) !! url ≠ Some []).
Proof. intros Hok Hs. pose proof (session_inv ds g j Hok Hs) as Hg. split; [apply (iv_urls g Hg)|]. intros url. split; [apply (iv_urls_NoDup g Hg)|apply (iv_urls_nonempty g Hg)]. Qed.

(** C18. Provenance is derived.  After any session that meets [session_ok] the import records are in normal
    form and name live nodes only, and the provenance shown for each node is exactly
    the sorted set of sources of the records whose membership for that node is not
    suppressed. *)
Theorem provenance_is_derived ds g j :
  session_ok kernel_new ds → live_session (M := M) (kernel_new, gj_new) ds = Some (g, j) →
  normalize_import_records (import_records (k_rest g)) = import_records (k_rest g) ∧
  (∀ x, mentions (import_records (k_rest g)) x → ∃ k n, get_node g k = Some n ∧ x = uuid_to_string (n_id n)) ∧
  ∀ k n, get_node g k = Some n →
    node_import_provenance g k = Some (sort_dedup (record_sources (import_records (k_rest g)) (uuid_to_string (n_id n)))).
Proof.
  intros Hok Hs. pose proof (session_inv ds g j Hok Hs) as Hg. split_and!.
  - apply normalize_records_id, (iv_records g Hg).
  - intros x (i & [k Hk] & ->)%(iv_members g Hg). destruct (key_node g i k (iv_wf g Hg) Hk) as (n & Hn & <-). eauto.
  - intros k n Hn. unfold node_import_provenance. rw Hn. cbn [mbind option_bind]. f_equal. pose proof (node_key g k n (iv_wf g Hg) Hn) as Hk.
    rw (node_facet_key [] g (n_id n) k PROVENANCE_IMPORT (iv_wf g Hg) Hk). rw -(iv_sync g Hg); [done|]. by exists k.
Qed.

(** ** Panics *)

(** Adding a node without an id, which a wasm32 build cannot mint. *)
Definition mints_id (d : Delta) : bool := match d with AddNode None _ _ => true | _ => false end.

(** The deltas that go through the navigation memory. *)
Definition touches_history (d : Delta) : bool :=
  match d with
  | NavigateNode _ _ | BranchHistory _ _ | NodeHistoryBack _ | NodeHistoryForward _ | UpdateNodeHistory _ _ _
  | ReplayNavigateNodeById _ _ _ _ _ | ReplayBranchHistoryByIds _ _ | ReplayNodeHistoryBackById _ _ | ReplayNodeHistoryForwardById _ _
  | ReplayUpdateNodeHistoryById _ _ _ => true
  | _ => false
  end.

Lemma update_url_total g k url : k_inv g → is_Some (update_node_url g k url).
Proof.
  intros Hg. destruct (get_node g k) as [n|] eqn:Hn; [|unfold update_node_url; rw Hn; by eexists].
  destruct (update_url_spec g k n url Hg Hn) as (? & ? & _ & -> & _). by eexists.
Qed.

(** C19. What can panic.  After any session that meets [session_ok], a delta that panics
    goes through the navigation memory or, in a wasm32 build, adds a node without
    giving its id, which always panics there: no other delta can panic, whatever keys,
    ids and values it is given. *)
Theorem what_panics ds g j env d :
  session_ok kernel_new ds → live_session (M := M) (kernel_new, gj_new) ds = Some (g, j) →
  (apply_graph_delta (M := M) env g d = None → touches_history d = true ∨ (wasm32 env = true ∧ mints_id d = true)) ∧
  (wasm32 env = true → mints_id d = true → apply_graph_delta (M := M) env g d = None).
Proof.
  intros Hok Hs. pose proof (session_inv ds g j Hok Hs) as Hg. split; cycle 1.
  { intros Hw Hm. destruct d; try done. destruct id; [done|]. cbn [apply_graph_delta]. by rw Hw. }
  intros Hn. destruct (touches_history d) eqn:Eh; [by left|right]. destruct d; cbn [touches_history apply_graph_delta mints_id] in *; try done.
  all: revert Hn; unfold by_key, by_stable_id, import_outcome, field_outcome, url_outcome.
  all: try by repeat case_match.
  - destruct id as [i|]; [|destruct (wasm32 env); [done|]]; cbn [mbind option_bind]; by repeat case_match.
  - destruct (get_node_key_by_id g id) as [k|]; [|done]. destruct (update_url_total g k new_url Hg) as [? ->]. done.
  - destruct (update_url_total g key new_url Hg) as [? ->]. done.
Qed.

End journal.

(** ** The timeline *)

Section timeline.
Context (live : Z) (n : nat).
Hypothesis Hn : (2 ≤ n)%nat.
Hypothesis Hlive : 0 < live.
Hypothesis Hfits : (Z.of_nat n - 1) * live ≤ u64_max.

Abbreviation points := (Z.to_nat (Z.min (Z.of_nat n) (live + 1))).
Abbreviation gaps := (Z.of_nat points - 1).

Lemma sequence_ticks_list : sequence_ticks live n = Some ((λ index, Z.of_nat index * live / gaps) <$> seq 0 points).
Proof.
  unfold sequence_ticks. rw !bool_decide_eq_false_2; [|lia..]. cbn [orb]. apply mapM_Some, Forall2_fmap_r, Forall_Forall2_diag, Forall_forall.
  intros index Hi%elem_of_seq. rw bool_decide_eq_true_2 //. etrans; [|exact Hfits]. apply Z.mul_le_mono_nonneg_r; lia.
Qed.

(** The distance of two neighbours: the quotient of the whole by the gaps, or one more. *)
Lemma tick_gap (i d l : Z) : 0 < d → 0 ≤ l → l / d ≤ (i + 1) * l / d - i * l / d ≤ l / d + 1.
Proof.
  intros Hd Hl. pose proof (Z.div_mod l d) as E1. pose proof (Z.mod_pos_bound l d Hd) as B1. pose proof (Z.div_mod (i * l) d) as E2.
  pose proof (Z.mod_pos_bound (i * l) d Hd) as B2. assert ((i + 1) * l / d = l / d + i * l / d + (l mod d + (i * l) mod d) / d) as ->.
  { assert ((i + 1) * l = (l mod d + (i * l) mod d) + (l / d + i * l / d) * d) as -> by lia. rw Z.div_add; lia. }
  assert (0 ≤ (l mod d + (i * l) mod d) / d < 2); [|lia]. split; [apply Z.div_pos; lia|apply Z.div_lt_upper_bound; lia].
Qed.

(** The ticks of a timeline.  For at least two points and a live cursor whose
    product with the gaps fits 64 bits, [sequence_ticks] starts at 0, ends at the live
    cursor, has the points asked for (or one per sequence number where there are
    fewer), and every two neighbours are as far apart as any other two, up to one,
    and distinct. *)
Theorem sequence_ticks_even :
  ∃ ticks, sequence_ticks live n = Some ticks ∧ length ticks = points ∧ head ticks = Some 0 ∧ last ticks = Some live ∧
  ∀ i a b, ticks !! i = Some a → ticks !! S i = Some b → 1 ≤ live / gaps ∧ live / gaps ≤ b - a ≤ live / gaps + 1.
Proof.
  eexists. split_and!; [apply sequence_ticks_list|by rw length_fmap length_seq| | |].
  - rw head_lookup list_lookup_fmap lookup_seq_lt; [|lia]. done.
  - rw last_lookup list_lookup_fmap length_fmap length_seq lookup_seq_lt; [|lia]. cbn. f_equal.
    assert (Z.of_nat (pred points) = gaps) as -> by lia. rw Z.mul_comm Z.div_mul //. lia.
  - intros i a b Ha Hb. rw list_lookup_fmap in Ha. rw list_lookup_fmap in Hb. apply fmap_Some in Ha as (x & Hx & ->). apply fmap_Some in Hb as (y & Hy & ->).
    apply lookup_seq in Hx as [-> _]. apply lookup_seq in Hy as [-> _]. split; [apply Z.div_le_lower_bound; lia|].
    assert (Z.of_nat (0 + S i) = Z.of_nat (0 + i) + 1) as -> by lia. apply tick_gap; lia.
Qed.
End timeline.

(** ** A session *)

Module Sample.
(** JSON values, as far as the kernel's own facets need them. *)
Inductive SampleJson : Type :=
| JBool (b : bool) | JHints (l : list FrameLayoutHint) | JTags (order : list string) (icons : list (string * BadgeIcon)) | JVisits (v : VisitHistoryFacet)
| JImports (l : list NodeImportProvenance) | JDerivations (l : list NodeDerivation) | JClasses (l : list NodeClassification) | JProperties (l : list NodeProperty).
#[export] Instance SplitOrientation_eq_dec : EqDecision SplitOrientation.
Proof. solve_decision. Defined.
#[export] Instance DominantEdge_eq_dec : EqDecision DominantEdge.
Proof. solve_decision. Defined.
#[export] Instance FrameLayoutHint_eq_dec : EqDecision FrameLayoutHint.
Proof. solve_decision. Defined.
#[export] Instance VisitHistoryFacet_eq_dec : EqDecision VisitHistoryFacet.
Proof. solve_decision. Defined.
#[export] Instance ClassificationProvenance_eq_dec : EqDecision ClassificationProvenance.
Proof. solve_decision. Defined.
#[export] Instance ClassificationStatus_eq_dec : EqDecision ClassificationStatus.
Proof. solve_decision. Defined.
#[export] Instance NodeClassification_eq_dec : EqDecision NodeClassification.
Proof. solve_decision. Defined.
#[export] Instance NodeProperty_eq_dec : EqDecision NodeProperty.
Proof. solve_decision. Defined.
#[export] Instance SampleJson_eq_dec : EqDecision SampleJson.
Proof. solve_decision. Defined.

#[export] Instance bool_facet : Facet SampleJson bool := {| to_value := JBool; from_value v := match v with JBool b => Some b | _ => None end |}.
#[export] Instance hints_facet : Facet SampleJson (list FrameLayoutHint) := {| to_value := JHints; from_value v := match v with JHints l => Some l | _ => None end |}.
#[export] Instance tags_facet : Facet SampleJson NodeTagPresentationState :=
  {| to_value p := JTags (ordered_tags p) (map_to_list (icon_overrides p));
     from_value v := match v with JTags l m => Some (mkPresentation l (list_to_map m)) | _ => None end |}.
#[export] Instance visits_facet : Facet SampleJson VisitHistoryFacet := {| to_value := JVisits; from_value v := match v with JVisits x => Some x | _ => None end |}.
#[export] Instance imports_facet : Facet SampleJson (list NodeImportProvenance) := {| to_value := JImports; from_value v := match v with JImports l => Some l | _ => None end |}.
#[export] Instance derivations_facet : Facet SampleJson (list NodeDerivation) := {| to_value := JDerivations; from_value v := match v with JDerivations l => Some l | _ => None end |}.
#[export] Instance classes_facet : Facet SampleJson (list NodeClassification) := {| to_value := JClasses; from_value v := match v with JClasses l => Some l | _ => None end |}.
#[export] Instance properties_facet : Facet SampleJson (list NodeProperty) := {| to_value := JProperties; from_value v := match v with JProperties l => Some l | _ => None end |}.
#[export] Instance visits_roundtrip : FacetRoundtrip SampleJson VisitHistoryFacet.
Proof. by intros []. Defined.
#[export] Instance imports_roundtrip : FacetRoundtrip SampleJson (list NodeImportProvenance).
Proof. by intros l. Defined.
#[export] Instance sample_json : JsonText SampleJson :=
  {| json_to_string v := match v with JBool true => "true" | JBool false => "false" | _ => "null" end;
     json_from_str s := if bool_decide (s = "true") then Some (JBool true) else if bool_decide (s = "false") then Some (JBool false) else None |}.
#[export] Instance sample_fields : FieldText string := {| definition_to_string := Some; definition_from_str := Some |}.
#[export] Instance sample_web : WebText :=
  {| url_host url := strip_prefix "https://" url; url_path _ := None; mime_guess _ := []; infer_mime _ := None |}.

Abbreviation SGraph := (KGraph (G := fresh_graph) (N := Node string) (Id := string) (R := Rest (U := string) (J := SampleJson) (D := string))).
Abbreviation SDelta := (GraphDelta (U := string) (J := SampleJson) (D := string)).

Definition at_ (t : Z) : Env string := mkEnv t (t / 1000) "st" "fresh" false.

(** Two pages, a relation, a move, a tag, an import, a facet, a visit to a third
    page, a step back, and the first page is gone. *)
Definition day : list (Env string * SDelta) :=
  [(at_ 1000, AddNode (Some "a") "https://one" (0, 0)); (at_ 2000, AddNode None "https://two" (0, 0));
   (at_ 3000, AssertRelation 0 1 (ASemantic Cites None None)); (at_ 4000, SetNodeUrl 1 "https://three"); (at_ 5000, InsertNodeTag 1 "#read");
   (at_ 6000, SetNodeImportProvenance 1 [mkImportProvenance "src" "Bookmarks"]); (at_ 7000, SetNodeFacet 0 "arrangement.pin" (JBool true));
   (at_ 8000, NavigateNode 1 "https://four"); (at_ 8500, NavigateNode 1 "https://five"); (at_ 9000, NodeHistoryBack 1); (at_ 9500, AddCoupling (mkCoupling "c" "f" SelAll AttractToMin 1))].
Definition evening : list (Env string * SDelta) := [(at_ 20000, TouchNodeLastVisited 1); (at_ 21000, RemoveNode 0)].

Definition lived : option (SGraph * GraphJournal) := live_session (kernel_new, gj_new) day.
Definition later (n : nat) : list (Env string) := replicate n (at_ 99000).

Example lived_journal : (λ gj, live_cursor gj.2) <$> lived = Some 11%nat.
Proof. vm_compute. reflexivity. Qed.
Lemma day_ok : session_ok (kernel_new : SGraph) day.
Proof. vm_compute. repeat split; try by intros []. all: discriminate. Qed.
Lemma evening_ok gj : lived = Some gj → session_ok gj.1 evening.
Proof.
  intros Hl. assert (match lived with Some gj => session_ok gj.1 evening | None => True end) as Ho by (vm_compute; repeat split). rw Hl in Ho. exact Ho.
Qed.
Lemma day_passes : ∃ g j, lived = Some (g, j) ∧ live_cursor j = 11%nat.
Proof. pose proof lived_journal as Hl. destruct lived as [[g j]|]; [|done]. exists g, j. split; [done|]. by injection Hl. Qed.
Lemma evening_passes g j : lived = Some (g, j) → ∃ g' j', live_session (g, j) evening = Some (g', j') ∧ live_cursor j' = 13%nat.
Proof.
  intros Hl. assert ((λ gj, live_cursor gj.2) <$> (lived ≫= λ gj, live_session gj evening) = Some 13%nat) as Hc by (vm_compute; reflexivity).
  rw Hl in Hc. cbn [mbind option_bind] in Hc. destruct (live_session (g, j) evening) as [[g' j']|]; [|done]. exists g', j'. split; [done|]. by injection Hc.
Qed.

Lemma live_is_its_journal_witness : ∃ g j h, lived = Some (g, j) ∧ gj_replay (later 11) j = Some h ∧ agrees g h.
Proof.
  destruct day_passes as (g & j & Hl & Hc). destruct (live_is_its_journal day g j (later 11)) as (h & Hr & Ha).
  - apply day_ok.
  - exact Hl.
  - rw Hc. reflexivity.
  - exists g, j, h. exact (conj Hl (conj Hr Ha)).
Defined.

Lemma snapshot_is_the_past_witness :
  ∃ g j g' j' h, lived = Some (g, j) ∧ live_session (g, j) evening = Some (g', j') ∧ snapshot_at (later 11) j' 11 = Some (Some h) ∧ agrees g h.
Proof.
  destruct day_passes as (g & j & Hl & Hc). destruct (evening_passes g j Hl) as (g' & j' & Hl' & _).
  destruct (snapshot_is_the_past day evening g j g' j' (later 11)) as (h & Hr & Ha).
  - apply day_ok.
  - exact Hl.
  - exact Hl'.
  - rw Hc. reflexivity.
  - rw Hc in Hr. exists g, j, g', j', h. exact (conj Hl (conj Hl' (conj Hr Ha))).
Defined.

Lemma checkpoint_and_tail_witness :
  ∃ g j g' j' h, lived = Some (g, j) ∧ live_session (g, j) evening = Some (g', j') ∧ gj_replay_from (later 2) j' 11 g = Some h ∧ agrees g' h.
Proof.
  destruct day_passes as (g & j & Hl & Hc). destruct (evening_passes g j Hl) as (g' & j' & Hl' & Hc').
  destruct (checkpoint_and_tail day evening g j g' j' (later 2)) as (h & Hr & Ha).
  - apply day_ok.
  - exact Hl.
  - exact (evening_ok (g, j) Hl).
  - exact Hl'.
  - rw Hc Hc'. reflexivity.
  - rw Hc in Hr. exists g, j, g', j', h. exact (conj Hl (conj Hl' (conj Hr Ha))).
Defined.

Lemma url_index_exact_witness : ∃ g j, lived = Some (g, j) ∧ get_nodes_by_url g "https://four" = [1] ∧ NoDup (get_nodes_by_url g "https://four").
Proof.
  destruct day_passes as (g & j & Hl & _). exists g, j. split; [exact Hl|]. split.
  - assert ((λ gj, get_nodes_by_url gj.1 "https://four") <$> lived = Some [1]) as Hu by (vm_compute; reflexivity). rw Hl in Hu. by injection Hu.
  - apply (url_index_exact day g j); [apply day_ok|exact Hl].
Defined.

Lemma provenance_is_derived_witness :
  ∃ g j, lived = Some (g, j) ∧ normalize_import_records (import_records (k_rest g)) = import_records (k_rest g) ∧
  node_import_provenance g 1 = Some [mkImportProvenance "src" "Bookmarks"].
Proof.
  destruct day_passes as (g & j & Hl & _). exists g, j. split; [exact Hl|]. split.
  - apply (provenance_is_derived day g j); [apply day_ok|exact Hl].
  - assert ((λ gj, node_import_provenance gj.1 1) <$> lived = Some (Some [mkImportProvenance "src" "Bookmarks"])) as Hp by (vm_compute; reflexivity).
    rw Hl in Hp. by injection Hp.
Defined.

(** Once [b] is branched from [a], resetting the history of [a] panics. *)
Definition branching : list (Env string * SDelta) :=
  [(at_ 1, AddNode (Some "a") "https://one" (0, 0)); (at_ 2, AddNode (Some "b") "https://two" (0, 0));
   (at_ 3, NavigateNode 0 "https://three"); (at_ 4, BranchHistory 1 0)].

Lemma what_panics_witness :
  ∃ g j, live_session (kernel_new : SGraph, gj_new) branching = Some (g, j) ∧
  apply_graph_delta (at_ 5) g (UpdateNodeHistory 0 ["https://six"] 0) = None ∧
  touches_history (UpdateNodeHistory 0 ["https://six"] 0 : SDelta) = true ∧
  apply_graph_delta (mkEnv 5 0 "st" "fresh" true) g (AddNode None "https://six" (0, 0)) = None.
Proof.
  assert ((live_session (kernel_new : SGraph, gj_new) branching ≫= λ gj, Some (bool_decide (is_Some (apply_graph_delta (at_ 5) gj.1 (UpdateNodeHistory 0 ["https://six"] 0)))))
    = Some false) as Hp by (vm_compute; reflexivity).
  destruct (live_session (kernel_new : SGraph, gj_new) branching) as [[g j]|] eqn:Hl; [|discriminate]. cbn [mbind option_bind fst] in Hp.
  exists g, j. split; [reflexivity|]. assert (apply_graph_delta (at_ 5) g (UpdateNodeHistory 0 ["https://six"] 0) = None) as Hn.
  { injection Hp as Hp. apply bool_decide_eq_false in Hp. by apply eq_None_not_Some. }
  assert (session_ok (kernel_new : SGraph) branching) as Hok by (vm_compute; repeat split; by intros []).
  split; [exact Hn|]. split.
  - destruct (proj1 (what_panics branching g j (at_ 5) _ Hok Hl) Hn) as [Ht|[Hw _]]; [exact Ht|discriminate Hw].
  - exact (proj2 (what_panics branching g j (mkEnv 5 0 "st" "fresh" true) (AddNode None "https://six" (0, 0)) Hok Hl) eq_refl eq_refl).
Defined.

Lemma sequence_ticks_even_witness : sequence_ticks 10 4 = Some [0; 3; 6; 10] ∧ last [0; 3; 6; 10] = Some 10.
Proof.
  split; [vm_compute; reflexivity|]. destruct (sequence_ticks_even 10 4) as (ticks & Ht & _ & _ & Hlast & _); [lia|lia|unfold u64_max; lia|].
  injection Ht as <-. exact Hlast.
Defined.

(** ** Where the two part

    Each of these breaks one thing [delta_ok] asks of a caller. *)

Definition title_of (g : SGraph) (k : Z) : option string := n_title <$> get_node g k.
Definition both {A} (ds : list (Env string * SDelta)) (f : SGraph → A) : option (A * option A) :=
  gj ← live_session (kernel_new, gj_new) ds; Some (f gj.1, f <$> gj_replay (later (live_cursor gj.2)) gj.2).

(** Adding a node under an id that is in use replaces the node; its replay does
    nothing. *)
Example readding_diverges :
  both [(at_ 1, AddNode (Some "a") "https://one" (0, 0)); (at_ 2, SetNodeTitle 0 "One"); (at_ 3, AddNode (Some "a") "https://two" (0, 0))] (λ g, title_of g 0)
  = Some (Some "https://two", Some (Some "One")).
Proof. vm_compute. reflexivity. Qed.

(** It also leaves the node filed under its old URL, in the live graph. *)
Example readding_keeps_old_url :
  both [(at_ 1, AddNode (Some "a") "https://one" (0, 0)); (at_ 2, AddNode (Some "a") "https://two" (0, 0))]
    (λ g, (get_nodes_by_url g "https://one", get_nodes_by_url g "https://two", (λ n, as_url_str <$> primary_address n) <$> get_node g 0))
  = Some ([0], [0], Some (Some "https://two"), Some ([0], [], Some (Some "https://one"))).
Proof. vm_compute. reflexivity. Qed.

(** The provenance facet written by hand is not backed by any record. *)
Example handwritten_provenance :
  both [(at_ 1, AddNode (Some "a") "https://one" (0, 0)); (at_ 2, SetNodeFacet 0 PROVENANCE_IMPORT (JImports [mkImportProvenance "src" "Bookmarks"]))]
    (λ g, (node_import_provenance g 0, import_records (k_rest g))) ≫= (λ r, Some r.1)
  = Some (Some [mkImportProvenance "src" "Bookmarks"], []).
Proof. vm_compute. reflexivity. Qed.

(** A record may name a node before the node is there.  Asking for that very
    provenance afterwards changes the node and leaves the records as they are, and
    replaying the records does nothing. *)
Example early_record_diverges :
  both [(at_ 1, SetImportRecords [mkImportRecord "import-record:src" "src" "Bookmarks" 7 [mkMembership "a" false]]);
        (at_ 2, AddNode (Some "a") "https://one" (0, 0)); (at_ 3, SetNodeImportProvenance 0 [mkImportProvenance "src" "Bookmarks"])]
    (λ g, node_import_provenance g 0)
  = Some (Some [mkImportProvenance "src" "Bookmarks"], Some (Some [])).
Proof. vm_compute. reflexivity. Qed.

(** Clocks and minted ids are the replay's own: the last visit of an added node
    is stamped again. *)
Example replay_restamps : both [(at_ 1, AddNode (Some "a") "https://one" (0, 0))] (λ g, node_last_visited g 0) = Some (Some 1, Some (Some 99000)).
Proof. vm_compute. reflexivity. Qed.

(** Provenance from one source under two labels: both new records get the id of
    the source, are merged under the first label, and the second one is lost. *)
Example two_labels_collapse :
  both [(at_ 1, AddNode (Some "a") "https://one" (0, 0));
        (at_ 2, SetNodeImportProvenance 0 [mkImportProvenance "src" "Bookmarks"; mkImportProvenance "src" "Reading list"])]
    (λ g, node_import_provenance g 0)
  = Some (Some [mkImportProvenance "src" "Bookmarks"], Some (Some [mkImportProvenance "src" "Bookmarks"])).
Proof. vm_compute. reflexivity. Qed.
End Sample.
