(* ===== verification/KernelBatch.v ===== *)
(** Batched facet writers (crates/graph/graph-kernel/src/graph/node_facets.rs).

    The linked-data ingest writes many properties or classifications of a node in
    one go: the facet is read once, every item is folded into it in memory, and it
    is written once.  The theorems compare each batch with its items applied one
    by one through [apply_graph_delta]: the same graph, and the same records,
    except that a batch whose refreshes cancel out records nothing.  The JSON of
    either facet reads back ([FacetRoundtrip], with finite confidences).  The third
    writer, of tags, is not modelled. *)

From S2P Require Import Prelude Wire Journal SlotMap Stemma StableGraph GraphLog KernelEdges KernelGraph KernelNav KernelNode KernelDelta KernelRelate KernelReplay KernelJournal.

Local Open Scope Z_scope.

Section batch.
Context {G : Type → Type → Type} `{StableGraph G} {M : Type → Type} `{SlotMap M} `{HashOrder} `{WebText}.
Context {U : Type} `{Countable U} `{UuidText U} {J D : Type} `{EqDecision J} `{JsonText J} `{FieldText D}.
Context `{Facet J bool} `{Facet J (list FrameLayoutHint)} `{Facet J NodeTagPresentationState} `{Facet J VisitHistoryFacet}.
Context `{Facet J (list NodeImportProvenance)} `{Facet J (list NodeDerivation)}.
Context `{Facet J (list NodeClassification)} `{Facet J (list NodeProperty)}.

Abbreviation Graph := (KGraph (G := G) (N := Node U) (Id := U) (R := Rest (U := U) (J := J) (D := D))).
Abbreviation Delta := (GraphDelta (U := U) (J := J) (D := D)).
Implicit Types (g h : Graph) (i : U) (k key : Z).
Abbreviation text := uuid_to_string.

(** ** The writers *)

(** One property folded into the list in memory: the new list, or nothing to do. *)
Definition fold_property (properties : list NodeProperty) (property : NodeProperty) : option (list NodeProperty) :=
  match list_find (λ p, property_content p = property_content property) properties with
  | Some (n, existing) =>
      if bool_decide (pr_provenance_iri existing = pr_provenance_iri property) && bool_decide (pr_asserted_at_ms existing = pr_asserted_at_ms property)
      then None else Some (<[n := refresh_property existing property]> properties)
  | None => Some (properties ++ [property])
  end.
Definition fold_classification (cs : list NodeClassification) (c : NodeClassification) : option (list NodeClassification) :=
  if existsb (names_classification (nc_scheme c) (nc_value c)) cs then None else Some (cs ++ [c]).

(** The list after all items, and the items it took. *)
Definition fold_items {T} (step : list T → T → option (list T)) (l : list T) (xs : list T) : list T * list T :=
  fold_left (λ '(l, accepted) x, match step l x with None => (l, accepted) | Some l => (l, accepted ++ [x]) end) xs (l, []).

Definition append_node_properties g key (incoming : list NodeProperty) : Graph * list CapturedDelta * bool :=
  match node_id_of g key with
  | None => (g, [], false)
  | Some id =>
      let '(properties, accepted) := fold_items fold_property (node_facet_or [] g key SEMANTIC_PROPERTIES) incoming in
      match accepted with
      | [] => (g, [], false)
      | _ => let '(g', changed) := set_node_facet g key SEMANTIC_PROPERTIES properties in
             (g', if changed then CAppendNodePropertyById (text id) <$> accepted else [], changed)
      end
  end.

(** Accepted classifications are the tail that was appended. *)
Definition add_node_classifications g key (incoming : list NodeClassification) : Graph * list CapturedDelta * bool :=
  match node_id_of g key with
  | None => (g, [], false)
  | Some id =>
      let before : list NodeClassification := node_facet_or [] g key SEMANTIC_CLASSIFICATIONS in
      let cs := (fold_items fold_classification before incoming).1 in
      if bool_decide (length cs = length before) then (g, [], false)
      else let '(g', changed) := set_node_facet g key SEMANTIC_CLASSIFICATIONS cs in
           (g', if changed then CAddNodeClassificationById (text id) <$> drop (length before) cs else [], changed)
  end.

(** The reference: one delta after another, with all they capture. *)
Definition apply_all (env : Env U) (ds : list Delta) g : option (Graph * list CapturedDelta) :=
  foldM (λ gc d, r ← apply_graph_delta (M := M) env gc.1 d; Some (r.1.1, gc.2 ++ r.1.2)) ds (g, []).

(** ** Item by item, on any facet that is a list *)

Section items.
Context {T : Type} `{Facet J (list T)} `{!FacetRoundtrip J (list T)}.
Context (f : string) (step : list T → T → option (list T)) (op : Graph → Z → T → Graph * bool) (cap : string → T → CapturedDelta) (mk : Z → T → Delta).
Hypothesis step_new : ∀ l x l', step l x = Some l' → l' ≠ l.
Hypothesis op_step : ∀ g k x n, get_node g k = Some n →
  op g k x = match step (node_facet_or [] g k f) x with None => (g, false) | Some l => set_node_facet g k f l end.
Hypothesis op_dead : ∀ g k x, get_node g k = None → op g k x = (g, false).
Hypothesis apply_mk : ∀ env g k x, apply_graph_delta (M := M) env g (mk k x) = by_key g k (λ g k, op g k x) (λ s, cap s x).

Definition written g i (l : list T) : Graph := with_facets (<[i := <[f := to_value l]> (default ∅ (r_facets (k_rest g) !! i))]> (r_facets (k_rest g))) g.

Lemma written_read g k i l : node_id_of g k = Some i → node_facet_or [] (written g i l) k f = l.
Proof.
  intros Hi. unfold node_facet_or, node_facet. change (node_id_of (written g i l) k) with (node_id_of g k). rw Hi. cbn [mbind option_bind].
  unfold facet_get. cbn. rw lookup_insert_eq. cbn. rw lookup_insert_eq. cbn. by rw facet_roundtrip.
Qed.
Lemma written_twice g i l l' : written (written g i l) i l' = written g i l'.
Proof. unfold written, with_facets, with_rest. cbn. f_equal. f_equal. rw lookup_insert_eq. cbn. by rw !insert_insert_eq. Qed.

Lemma set_list_spec g k i l :
  node_id_of g k = Some i → set_node_facet g k f l = (written g i l, negb (bool_decide (facet_get (r_facets (k_rest g)) i f = Some (to_value l)))).
Proof.
  intros Hi. unfold set_node_facet, set_node_facet_value. rw Hi. case_bool_decide as Hd; [|done]. cbn. f_equal. unfold written, with_facets, with_rest. cbn.
  destruct g as [gi gr rest]. cbn in *. f_equal. unfold facet_get in Hd. destruct (r_facets rest !! i) as [fs|] eqn:Ei; [|done]. cbn in *.
  rw (insert_id fs) // insert_id //. by destruct rest.
Qed.
Lemma set_list_changes g k i l : node_id_of g k = Some i → l ≠ node_facet_or [] g k f → set_node_facet g k f l = (written g i l, true).
Proof.
  intros Hi Hl. rw (set_list_spec g k i) //. f_equal. rw bool_decide_eq_false_2 //. intros Hd. apply Hl. unfold node_facet_or, node_facet. rw Hi. cbn [mbind option_bind].
  rw Hd. cbn. by rw facet_roundtrip.
Qed.

Lemma fold_items_acc xs l acc :
  fold_left (λ '(l, accepted) x, match step l x with None => (l, accepted) | Some l => (l, accepted ++ [x]) end) xs (l, acc) =
  ((fold_items step l xs).1, acc ++ (fold_items step l xs).2).
Proof.
  unfold fold_items. revert l acc. induction xs as [|x xs IH]; intros l acc; cbn [fold_left]; [by rw app_nil_r|].
  destruct (step l x) as [l'|]; [|apply IH]. rw (IH l' (acc ++ [x])) (IH l' ([] ++ [x])). cbn. by rw -app_assoc.
Qed.
Lemma fold_items_cons x xs l :
  fold_items step l (x :: xs) =
  match step l x with None => fold_items step l xs | Some l' => ((fold_items step l' xs).1, x :: (fold_items step l' xs).2) end.
Proof. unfold fold_items at 1. cbn [fold_left]. destruct (step l x); rw fold_items_acc; [done|by destruct (fold_items step l xs)]. Qed.
Lemma fold_items_none xs l : (fold_items step l xs).2 = [] → (fold_items step l xs).1 = l.
Proof. revert l. induction xs as [|x xs IH]; intros l; [done|]. rw fold_items_cons. by destruct (step l x); [|apply IH]. Qed.

Lemma apply_all_acc env ds g acc :
  foldM (λ gc d, r ← apply_graph_delta (M := M) env gc.1 d; Some (r.1.1, gc.2 ++ r.1.2)) ds (g, acc) = (λ gc : Graph * list CapturedDelta, (gc.1, acc ++ gc.2)) <$> apply_all env ds g.
Proof.
  unfold apply_all. revert g acc. induction ds as [|d ds IH]; intros g acc; [cbn; by rw app_nil_r|]. rw !foldM_cons. cbn [fst snd].
  destruct (apply_graph_delta env g d) as [[[g' c] r]|]; [|done]. cbn [mbind option_bind fst snd]. rw IH (IH g' ([] ++ c)). cbn [app].
  destruct (foldM _ ds (g', [])) as [[g'' c']|]; [|done]. cbn. by rw app_assoc.
Qed.

Lemma apply_items env g k i xs :
  node_id_of g k = Some i →
  let '(l, accepted) := fold_items step (node_facet_or [] g k f) xs in
  apply_all env (mk k <$> xs) g = Some (match accepted with [] => g | _ => written g i l end, cap (text i) <$> accepted).
Proof.
  intros Hi. assert (∃ n, get_node g k = Some n) as [n Hn] by (unfold node_id_of in Hi; apply fmap_Some in Hi as (n & Hn & _); eauto).
  revert g n Hi Hn. induction xs as [|x xs IH]; intros g n Hi Hn; [done|]. rw fold_items_cons. unfold apply_all. cbn [fmap list_fmap]. rw foldM_cons. cbn [fst snd].
  rw apply_mk. unfold by_key. rw (op_step g k x n Hn) Hi. destruct (step (node_facet_or [] g k f) x) as [l'|] eqn:Es; cycle 1.
  { cbn [mbind option_bind fst snd app]. by apply (IH g n). }
  rw (set_list_changes g k i l' Hi (step_new _ _ _ Es)). cbn [mbind option_bind fst snd app]. rw apply_all_acc.
  specialize (IH (written g i l') n Hi Hn). rw (written_read g k i l' Hi) in IH. destruct (fold_items step l' xs) as [l accepted] eqn:Ef. rw IH. cbn.
  f_equal. f_equal. destruct accepted as [|y ys].
  - pose proof (fold_items_none xs l') as Hl. rw Ef in Hl. cbn in Hl. by rw (Hl eq_refl).
  - apply written_twice.
Qed.

Lemma apply_items_dead env g k xs : node_id_of g k = None → apply_all env (mk k <$> xs) g = Some (g, []).
Proof.
  intros Hi. pose proof Hi as Hn%fmap_None. induction xs as [|x xs IH]; [done|]. unfold apply_all. cbn [fmap list_fmap]. rw foldM_cons. cbn [fst snd].
  rw apply_mk. unfold by_key. rw op_dead // Hi. done.
Qed.
End items.

(** ** Classifications *)

Section classifications.
Context `{!FacetRoundtrip J (list NodeClassification)}.

Lemma fold_classification_new l x l' : fold_classification l x = Some l' → l' ≠ l.
Proof. unfold fold_classification. case_match; [done|]. intros [= <-] Hl%(f_equal length). rw length_app in Hl. cbn in Hl. lia. Qed.
Lemma add_classification_step g k x n :
  get_node g k = Some n → add_node_classification g k x =
  match fold_classification (node_facet_or [] g k SEMANTIC_CLASSIFICATIONS) x with
  | None => (g, false) | Some l => set_node_facet g k SEMANTIC_CLASSIFICATIONS l
  end.
Proof. intros Hn. unfold add_node_classification, fold_classification. rw Hn. by case_match. Qed.
Lemma add_classification_dead g k x : get_node g k = None → add_node_classification g k x = (g, false).
Proof. intros Hn. unfold add_node_classification. by rw Hn. Qed.

(** What the fold took is the tail it appended. *)
Lemma accepted_tail xs l : (fold_items fold_classification l xs).1 = l ++ (fold_items fold_classification l xs).2.
Proof.
  revert l. induction xs as [|x xs IH]; intros l; [by rw app_nil_r|]. rw fold_items_cons.
  destruct (fold_classification l x) as [l'|] eqn:Ex; [|apply IH]. unfold fold_classification in Ex. case_match; [done|]. injection Ex as <-. cbn [fst snd].
  by rw IH -app_assoc.
Qed.

(** A batch of classifications is its items, one delta after another: on any
    node and any list, [add_node_classifications] leaves exactly the graph that
    applying [AddNodeClassification] for each item leaves, hands the capture hook
    exactly the same records in the same order, and reports a change exactly when
    there is a record. *)
Theorem batch_classifications_exact env g k incoming :
  let '(g', records, changed) := add_node_classifications g k incoming in
  apply_all env (AddNodeClassification k <$> incoming) g = Some (g', records) ∧ changed = bool_decide (records ≠ []).
Proof.
  unfold add_node_classifications. destruct (node_id_of g k) as [i|] eqn:Hi; cycle 1.
  { split; [|done]. by apply (apply_items_dead add_node_classification CAddNodeClassificationById AddNodeClassification); [apply add_classification_dead|done|]. }
  pose proof (apply_items SEMANTIC_CLASSIFICATIONS fold_classification add_node_classification CAddNodeClassificationById AddNodeClassification
    fold_classification_new add_classification_step (λ _ _ _ _, eq_refl) env g k i incoming Hi) as Ha.
  pose proof (accepted_tail incoming (node_facet_or [] g k SEMANTIC_CLASSIFICATIONS)) as Ht.
  destruct (fold_items fold_classification _ incoming) as [l accepted]. cbn [fst snd] in *. subst l. rw length_app. case_bool_decide as Hc.
  { destruct accepted; [done|cbn in Hc; lia]. }
  destruct accepted as [|x accepted]; [cbn in Hc; lia|]. rw (set_list_changes SEMANTIC_CLASSIFICATIONS g k i) //.
  - rw drop_app_length Ha. by rw bool_decide_eq_true_2.
  - intros Hl%(f_equal length). rw length_app in Hl. cbn in Hl. lia.
Qed.
End classifications.

(** ** Properties *)

Section properties.
Context `{!FacetRoundtrip J (list NodeProperty)}.

Lemma fold_property_new l x l' : fold_property l x = Some l' → l' ≠ l.
Proof.
  unfold fold_property. destruct (list_find _ l) as [[n p]|] eqn:Hf; cycle 1.
  { intros [= <-] Hl%(f_equal length). rw length_app in Hl. cbn in Hl. lia. }
  apply list_find_Some in Hf as (Hp & _). case_match eqn:Hb; [done|]. intros [= <-] Hl%(f_equal (.!! n)).
  rw list_lookup_insert_eq in Hl; [|by eapply lookup_lt_Some]. rw Hp in Hl. injection Hl as Hr.
  assert (pr_provenance_iri p = pr_provenance_iri x ∧ pr_asserted_at_ms p = pr_asserted_at_ms x) as [Hiri Hms] by (split; by rw -{1}Hr).
  by rw !bool_decide_eq_true_2 in Hb.
Qed.
Lemma append_property_step g k x n :
  get_node g k = Some n → append_node_property g k x =
  match fold_property (node_facet_or [] g k SEMANTIC_PROPERTIES) x with
  | None => (g, false) | Some l => set_node_facet g k SEMANTIC_PROPERTIES l
  end.
Proof.
  intros Hn. unfold append_node_property, fold_property. rw Hn. destruct (list_find _ _) as [[m p]|]; [|done].
  by repeat case_bool_decide.
Qed.
Lemma append_property_dead g k x : get_node g k = None → append_node_property g k x = (g, false).
Proof. intros Hn. unfold append_node_property. by rw Hn. Qed.

(** A batch of properties is its items, one delta after another, up to a
    batch that comes to nothing: on any node and any list,
    [append_node_properties] leaves exactly the graph that applying
    [AppendNodeProperty] for each item leaves; when it reports a change it hands
    the capture hook exactly the records of those deltas, and when it reports none
    it hands it nothing and has left the graph alone. *)
Theorem batch_properties_exact env g k incoming :
  let '(g', records, changed) := append_node_properties g k incoming in
  ∃ each, apply_all env (AppendNodeProperty k <$> incoming) g = Some (g', each) ∧
    (if changed then records = each else records = [] ∧ g' = g).
Proof.
  unfold append_node_properties. destruct (node_id_of g k) as [i|] eqn:Hi; cycle 1.
  { exists []. split; [|done]. by apply (apply_items_dead append_node_property CAppendNodePropertyById AppendNodeProperty); [apply append_property_dead|done|]. }
  pose proof (apply_items SEMANTIC_PROPERTIES fold_property append_node_property CAppendNodePropertyById AppendNodeProperty
    fold_property_new append_property_step (λ _ _ _ _, eq_refl) env g k i incoming Hi) as Ha.
  destruct (fold_items fold_property _ incoming) as [l [|x accepted]]; [by exists []|]. rw (set_list_spec SEMANTIC_PROPERTIES g k i) //.
  case_bool_decide as Hd; cbn [negb]; eexists; (split; [exact Ha|]); [|done]. split; [done|].
  pose proof (set_list_spec SEMANTIC_PROPERTIES g k i l Hi) as Hs. unfold set_node_facet, set_node_facet_value in Hs. rw Hi (bool_decide_eq_true_2 _ Hd) in Hs. by injection Hs.
Qed.
End properties.
End batch.

(** ** A page and what it says of itself *)

Module Sample.
Import KernelJournal.Sample.

#[export] Instance classes_roundtrip : FacetRoundtrip SampleJson (list NodeClassification).
Proof. by intros l. Defined.
#[export] Instance properties_roundtrip : FacetRoundtrip SampleJson (list NodeProperty).
Proof. by intros l. Defined.

Definition page : SGraph := (KernelNode.add_node (at_ 1) kernel_new "https://one").1.
Definition about (value : string) : NodeClassification := mkClassification Udc value None 1 CImported CAccepted false.
Definition says (value provenance : string) : NodeProperty := mkProperty "s" "name" value None None ScopeDefault (Some provenance) None.

(** A repeated classification is taken once, by the batch and by the deltas. *)
Definition described : SGraph * list CapturedDelta * bool := add_node_classifications page 0 [about "51"; about "52"; about "51"].
Lemma batch_classifications_exact_witness :
  described.1.2 = CAddNodeClassificationById "fresh" <$> [about "51"; about "52"] ∧
  apply_all (at_ 2) (AddNodeClassification 0 <$> [about "51"; about "52"; about "51"]) page = Some described.1.
Proof.
  split; [vm_compute; reflexivity|]. pose proof (batch_classifications_exact (at_ 2) page 0 [about "51"; about "52"; about "51"]) as Hb.
  change (add_node_classifications page 0 [about "51"; about "52"; about "51"]) with described in Hb. destruct described as [[g' c] b]. exact (proj1 Hb).
Defined.

Definition told : SGraph * list CapturedDelta * bool := append_node_properties page 0 [says "One" "x"; says "Eins" "x"; says "One" "y"].
Lemma batch_properties_exact_witness :
  told.2 = true ∧ length told.1.2 = 3%nat ∧
  apply_all (at_ 2) (AppendNodeProperty 0 <$> [says "One" "x"; says "Eins" "x"; says "One" "y"]) page = Some told.1.
Proof.
  assert (told.2 = true) as Hc by (vm_compute; reflexivity). split; [exact Hc|]. split; [vm_compute; reflexivity|].
  pose proof (batch_properties_exact (at_ 2) page 0 [says "One" "x"; says "Eins" "x"; says "One" "y"]) as Hb.
  change (append_node_properties page 0 [says "One" "x"; says "Eins" "x"; says "One" "y"]) with told in Hb.
  destruct told as [[g' c] b]. cbn [snd] in Hc. subst b. destruct Hb as (each & He & ->). exact He.
Defined.

(** Two refreshes that cancel out: the deltas record both, the batch neither. *)
Example cancelling_batch_records_nothing :
  let g := (append_node_properties page 0 [says "One" "x"]).1.1 in
  ((append_node_properties g 0 [says "One" "y"; says "One" "x"]).1.2,
   (λ gc, length gc.2) <$> apply_all (at_ 2) (AppendNodeProperty 0 <$> [says "One" "y"; says "One" "x"]) g) = ([], Some 2%nat).
Proof. vm_compute. reflexivity. Qed.
End Sample.
