(* ===== verification/KernelWalk.v ===== *)
(** Graph walks (crates/graph/graph-kernel/src/graph/query.rs).

    The two loops of the query layer over any neighbour function: the queue of
    [bfs_members], with its [u8] depth, and the stack of
    [weakly_connected_components].  Each runs on fuel; the theorems show that one
    more than the number of nodes is enough, and what the loop returns. *)

From S2P Require Import Prelude.

(** ** Breadth first *)

(** [seen.insert] for each neighbour in turn: the set, and what was new. *)
Definition insert_new (seen : gset Z) (l : list Z) : gset Z * list Z :=
  fold_left (λ '(seen, new) b, if decide (b ∈ seen) then (seen, new) else ({[b]} ∪ seen, new ++ [b])) l (seen, []).

Lemma insert_new_acc l seen new :
  fold_left (λ '(seen, new) b, if decide (b ∈ seen) then (seen, new) else ({[b]} ∪ seen, new ++ [b])) l (seen, new) =
  ((insert_new seen l).1, new ++ (insert_new seen l).2).
Proof.
  unfold insert_new. revert seen new. induction l as [|b l IH]; intros seen new; cbn [fold_left]; [by rw app_nil_r|].
  case_decide; [apply IH|]. rw (IH _ (new ++ [b])) (IH _ ([] ++ [b])). cbn. by rw -app_assoc.
Qed.
Lemma insert_new_spec seen l :
  let '(seen', new) := insert_new seen l in
  NoDup new ∧ (∀ b, b ∈ new ↔ b ∈ l ∧ b ∉ seen) ∧ (∀ b, b ∈ seen' ↔ b ∈ seen ∨ b ∈ l).
Proof.
  revert seen. induction l as [|b l IH]; intros seen.
  { cbn. split_and!; [constructor| |]; intros b; rw elem_of_nil; naive_solver. }
  unfold insert_new. cbn [fold_left]. case_decide as Hb.
  - fold (insert_new seen l). specialize (IH seen). destruct (insert_new seen l) as [s new]. destruct IH as (Hn & Ha & Hs). split_and!; [done| |].
    all: intros c; rw ?Ha ?Hs elem_of_cons; naive_solver.
  - rw insert_new_acc. specialize (IH ({[b]} ∪ seen)). destruct (insert_new ({[b]} ∪ seen) l) as [s new]. destruct IH as (Hn & Ha & Hs). cbn.
    split_and!; [constructor; [|done]| |].
    + rw Ha elem_of_union elem_of_singleton. naive_solver.
    + intros c. rw !elem_of_cons Ha elem_of_union elem_of_singleton. destruct (decide (c = b)); naive_solver.
    + intros c. rw Hs elem_of_union elem_of_singleton elem_of_cons. naive_solver.
Qed.

Section bfs.
Context {U : Type} (next : Z → list Z) (name : Z → option U).

(** The loop of [bfs_members]; [Err] is the overflow of [depth + 1]. *)
Fixpoint bfs_loop (fuel : nat) (max_depth : option nat) (seen : gset Z) (queue : list (Z * nat)) (order : list U) : option (result unit (list U)) :=
  match fuel with
  | 0%nat => None
  | S fuel =>
      match queue with
      | [] => Some (Ok order)
      | (key, depth) :: queue =>
          let order := match name key with Some i => order ++ [i] | None => order end in
          if match max_depth with Some m => bool_decide (m ≤ depth)%nat | None => false end
          then bfs_loop fuel max_depth seen queue order
          else let '(seen, new) := insert_new seen (next key) in
               if bool_decide (new ≠ []) && bool_decide (255 < S depth)%nat then Some (Err tt)
               else bfs_loop fuel max_depth seen (queue ++ ((λ b, (b, S depth)) <$> new)) order
      end
  end.

(** *** Distances *)

Abbreviation R := (λ a b, b ∈ next a).
Context (start : Z).

(** [k] is [d] hops away, and no fewer. *)
Definition distance (k : Z) (d : nat) : Prop := nsteps R d start k ∧ ∀ n, nsteps R n start k → (d ≤ n)%nat.

Lemma distance_unique k d d' : distance k d → distance k d' → d = d'.
Proof. intros [Hd Hm] [Hd' Hm']. specialize (Hm _ Hd'). specialize (Hm' _ Hd). lia. Qed.
Lemma distance_pred k d : distance k (S d) → ∃ p, distance p d ∧ k ∈ next p.
Proof.
  intros [(p & Hp & Hk)%nsteps_inv_r Hm]. exists p. split; [split; [done|]|done]. intros n Hn. assert (nsteps R (S n) start k) as Hs by by eapply nsteps_r. specialize (Hm _ Hs). lia.
Qed.

(** *** The invariant of the queue *)

Context (V : gset Z).
Hypothesis start_in : start ∈ V.
Hypothesis next_in : ∀ k b, k ∈ V → b ∈ next k → b ∈ V.
Context (max_depth : option nat).

Definition expands (d : nat) : Prop := match max_depth with Some m => (d < m)%nat | None => True end.
Definition within (d : nat) : Prop := match max_depth with Some m => (d ≤ m)%nat | None => True end.

(** [walk] is what has left the queue, with its depths. *)
Record walking (seen : gset Z) (walk queue : list (Z * nat)) : Prop := {
  wk_dist k d : (k, d) ∈ walk ++ queue → distance k d ∧ within d ∧ (d ≤ 255)%nat ∧ k ∈ V;
  wk_seen k : k ∈ seen ↔ k ∈ (walk ++ queue).*1;
  wk_NoDup : NoDup (walk ++ queue).*1;
  wk_sorted : StronglySorted le (walk ++ queue).*2;
  wk_spread k d k' d' : head queue = Some (k, d) → (k', d') ∈ queue → (d' ≤ S d)%nat;
  wk_expanded k d b : (k, d) ∈ walk → expands d → b ∈ next k → b ∈ seen;
  wk_start : start ∈ seen
}.

Lemma walking_start : walking {[start]} [] [(start, 0%nat)].
Proof.
  split; cbn.
  - intros k d [= -> ->]%list_elem_of_singleton. split_and!; [split; [constructor|lia]|unfold within; destruct max_depth; [lia|done]|lia|done].
  - intros k. by rw elem_of_singleton list_elem_of_singleton.
  - apply NoDup_singleton.
  - repeat constructor.
  - intros k d k' d' [= <- <-] [= -> ->]%list_elem_of_singleton. lia.
  - by intros k d b ?%elem_of_nil.
  - by apply elem_of_singleton.
Qed.

Lemma pair_in_keys (l : list (Z * nat)) k : k ∈ l.*1 ↔ ∃ d, (k, d) ∈ l.
Proof. rw list_elem_of_fmap. split; [intros ([? d] & -> & Hi); eauto|intros [d Hi]; by exists (k, d)]. Qed.

Lemma pair_in_depths (l : list (Z * nat)) k d : (k, d) ∈ l → d ∈ l.*2.
Proof. intros Hi. apply list_elem_of_fmap. by exists (k, d). Qed.

(** Depths grow from the walk to the head of the queue, and along the queue. *)
Lemma walking_order seen walk queue k d : walking seen walk ((k, d) :: queue) → (∀ a e, (a, e) ∈ walk → e ≤ d)%nat ∧ (∀ a e, (a, e) ∈ queue → d ≤ e)%nat.
Proof.
  intros W. pose proof (wk_sorted _ _ _ W) as Hs. rw fmap_app in Hs. apply StronglySorted_app in Hs as (Hb & _ & Hq).
  apply StronglySorted_cons in Hq as [Hall _]. rw Forall_forall in Hall. split; intros a e Ha%pair_in_depths; [apply Hb; [done|]; apply elem_of_cons; by left|by apply Hall].
Qed.

(** Whatever is nearer than the head of the queue has been seen. *)
Lemma walking_near seen walk queue n k :
  walking seen walk queue → nsteps R n start k → (∀ d, d < n → expands d)%nat → (∀ k d, head queue = Some (k, d) → n ≤ d)%nat → k ∈ seen.
Proof.
  intros W. revert k. induction n as [|n IH]; intros k Hk He Hh; [inversion Hk; subst; apply (wk_start _ _ _ W)|].
  apply nsteps_inv_r in Hk as (p & Hp & Hk). assert (p ∈ seen) as Hs by (apply IH; [done|intros; apply He; lia|intros k' d Hq; specialize (Hh k' d Hq); lia]).
  apply (wk_seen _ _ _ W), pair_in_keys in Hs as [d Hd]. destruct (wk_dist _ _ _ W p d Hd) as ((_ & Hmin) & _). specialize (Hmin n Hp).
  apply elem_of_app in Hd as [Hd|Hd]; [apply (wk_expanded _ _ _ W p d k Hd); [apply He; lia|done]|].
  exfalso. destruct queue as [|[k' d'] queue]; [by apply elem_of_nil in Hd|]. specialize (Hh k' d' eq_refl).
  apply elem_of_cons in Hd as [[= -> ->]|Hd]; [lia|]. apply walking_order in W as [_ Hq]. specialize (Hq p d Hd). lia.
Qed.

(** A node at the end of the radius leaves the queue. *)
Lemma walking_pop seen walk queue k d : walking seen walk ((k, d) :: queue) → ¬ expands d → walking seen (walk ++ [(k, d)]) queue.
Proof.
  intros W He. assert ((walk ++ [(k, d)]) ++ queue = walk ++ (k, d) :: queue) as Heq by by rw -app_assoc.
  split; rw ?Heq; [apply W|apply W|apply W|apply W| | |apply (wk_start _ _ _ W)].
  - intros a e a' e' Hh Hin. destruct queue as [|[x y] queue]; [done|]. injection Hh as -> ->.
    assert (d ≤ e)%nat by (eapply walking_order; [done|]; apply elem_of_cons; by left).
    assert (e' ≤ S d)%nat by (apply (wk_spread _ _ _ W k d a' e' eq_refl), elem_of_cons; by right). lia.
  - intros a e b [Ha| [= -> ->]%list_elem_of_singleton]%elem_of_app; [by apply (wk_expanded _ _ _ W)|done].
Qed.

(** A new neighbour of the head is one hop further. *)
Lemma new_distance seen walk queue k d b : walking seen walk ((k, d) :: queue) → expands d → b ∈ next k → b ∉ seen → distance b (S d).
Proof.
  intros W He Hb Hn. destruct (wk_dist _ _ _ W k d) as ((Hk & _) & _); [apply elem_of_app; right; apply elem_of_cons; by left|].
  split; [by eapply nsteps_r|]. intros n Hs. destruct (decide (S d ≤ n)%nat) as [|Hlt]; [done|]. exfalso. apply Hn.
  apply (walking_near seen walk ((k, d) :: queue) n); [done|done| |].
  - intros e Hle. unfold expands in *. destruct max_depth; [lia|done].
  - intros a e [= <- <-]. lia.
Qed.

Lemma walking_push seen walk queue k d :
  walking seen walk ((k, d) :: queue) → expands d → ((insert_new seen (next k)).2 ≠ [] → S d ≤ 255)%nat →
  walking (insert_new seen (next k)).1 (walk ++ [(k, d)]) (queue ++ ((λ b, (b, S d)) <$> (insert_new seen (next k)).2)).
Proof.
  intros W He Hd. pose proof (insert_new_spec seen (next k)) as Hi. destruct (insert_new seen (next k)) as [seen' new]. cbn [fst snd] in *.
  destruct Hi as (Hnd & Hnew & Hseen). assert (k ∈ V ∧ d ≤ 255)%nat as [HkV Hd255].
  { destruct (wk_dist _ _ _ W k d) as (_ & _ & ? & ?); [apply elem_of_app; right; apply elem_of_cons; by left|done]. }
  assert ((walk ++ [(k, d)]) ++ queue ++ ((λ b, (b, S d)) <$> new) = (walk ++ (k, d) :: queue) ++ ((λ b, (b, S d)) <$> new)) as Heq by by rw -!app_assoc.
  assert ((((λ b, (b, S d)) <$> new).*1 : list Z) = new) as Hkeys by (rw -list_fmap_compose; by apply list_fmap_id).
  assert (∀ e, e ∈ ((walk ++ (k, d) :: queue).*2) → e ≤ S d)%nat as Hle.
  { intros e ([a e'] & -> & Ha)%list_elem_of_fmap. cbn. apply elem_of_app in Ha as [Ha|Ha].
    - apply walking_order in W as [Hw _]. specialize (Hw a e' Ha). lia.
    - by apply (wk_spread _ _ _ W k d a e'). }
  split; rw ?Heq.
  - intros a e [Ha|Ha]%elem_of_app; [by apply (wk_dist _ _ _ W)|]. apply list_elem_of_fmap in Ha as (b & [= -> ->] & Hb). apply Hnew in Hb as [Hb Hbs].
    split_and!; [by eapply new_distance| |apply Hd; intros ->; by apply (elem_of_nil b), Hnew|by eapply next_in]. unfold within, expands in *. destruct max_depth; [lia|done].
  - intros a. rw fmap_app Hkeys elem_of_app Hseen Hnew -(wk_seen _ _ _ W). destruct (decide (a ∈ seen)); naive_solver.
  - rw fmap_app Hkeys. apply NoDup_app. split_and!; [apply W| |done]. intros a Ha%(wk_seen _ _ _ W) Hb. apply Hnew in Hb. naive_solver.
  - rw fmap_app. apply StronglySorted_app_2; [|apply W|].
    + intros e e' He1 ([? ?] & -> & (b & [= -> ->] & Hb)%list_elem_of_fmap)%list_elem_of_fmap. by apply Hle.
    + clear. induction new as [|b new IH]; cbn; [constructor|]. constructor; [done|]. apply Forall_forall.
      intros e ([? ?] & -> & (b' & [= -> ->] & Hb)%list_elem_of_fmap)%list_elem_of_fmap. done.
  - intros a e a' e' Hh Hin.
    assert (d ≤ e)%nat.
    { apply head_Some_elem_of in Hh. apply elem_of_app in Hh as [Hh|Hh].
      - by eapply walking_order.
      - apply list_elem_of_fmap in Hh as (b & [= -> ->] & _). lia. }
    assert (e' ≤ S d)%nat; [|lia]. apply elem_of_app in Hin as [Hin|Hin].
    + apply Hle, (pair_in_depths _ a'), elem_of_app. right. apply elem_of_cons. by right.
    + apply list_elem_of_fmap in Hin as (b & [= -> ->] & _). lia.
  - intros a e b [Ha| [= -> ->]%list_elem_of_singleton]%elem_of_app He' Hb; apply Hseen; [left; by apply (wk_expanded _ _ _ W a e)|by right].
  - apply Hseen. left. apply (wk_start _ _ _ W).
Qed.

Lemma walking_bound seen walk queue : walking seen walk queue → (length walk + length queue ≤ size V)%nat.
Proof.
  intros W. rw -length_app -(length_fmap fst) -(size_list_to_set (C := gset Z)); [|apply W]. apply subseteq_size. intros k Hk%elem_of_list_to_set.
  apply pair_in_keys in Hk as [d Hd]. by apply (wk_dist _ _ _ W) in Hd as (_ & _ & _ & ?).
Qed.

Lemma expands_dec d : match max_depth with Some m => bool_decide (m ≤ d)%nat | None => false end = false ↔ expands d.
Proof. unfold expands. destruct max_depth; [rw bool_decide_eq_false; lia|done]. Qed.

(** The loop ends: with a walk that is finished, or at the edge of [u8]. *)
Lemma bfs_runs fuel seen walk queue :
  walking seen walk queue → (size V < fuel + length walk)%nat →
  ∃ r, bfs_loop fuel max_depth seen queue (omap name walk.*1) = Some r ∧
  match r with Ok order => ∃ seen' w, walking seen' w [] ∧ order = omap name w.*1 | Err _ => expands 255 ∧ ∃ k, distance k 256 end.
Proof.
  revert seen walk queue. induction fuel as [|fuel IH]; intros seen walk queue W Hf; [pose proof (walking_bound _ _ _ W); lia|].
  cbn [bfs_loop]. destruct queue as [|[k d] queue]; [eexists; split; [done|]; by exists seen, walk|].
  assert (match name k with Some i => omap name walk.*1 ++ [i] | None => omap name walk.*1 end = omap name (walk ++ [(k, d)]).*1) as Ho.
  { rw fmap_app omap_app. cbn. destruct (name k); [done|by rw app_nil_r]. }
  rw Ho. assert (size V < fuel + length (walk ++ [(k, d)]))%nat as Hf' by (rw length_app; cbn; lia).
  destruct (match max_depth with Some m => bool_decide (m ≤ d)%nat | None => false end) eqn:He.
  { apply IH; [|done]. apply walking_pop; [done|]. intros Hx%expands_dec. by rw Hx in He. }
  apply expands_dec in He. pose proof (walking_push seen walk queue k d W He) as Hp. pose proof (insert_new_spec seen (next k)) as Hi.
  destruct (insert_new seen (next k)) as [seen' new]. cbn [fst snd] in Hp. destruct Hi as (_ & Hnew & _).
  destruct (wk_dist _ _ _ W k d) as (_ & _ & Hd & _); [apply elem_of_app; right; apply elem_of_cons; by left|].
  case_bool_decide as Hn; [case_bool_decide as Hd'|]; cbn [andb].
  - eexists. split; [done|]. assert (d = 255%nat) as -> by lia. split; [done|]. destruct new as [|b new]; [done|]. exists b.
    eapply new_distance; [done|done|apply Hnew; apply elem_of_cons; by left..].
  - apply IH; [|done]. apply Hp. lia.
  - apply IH; [|done]. apply Hp. done.
Qed.

(** A finished walk has exactly the nodes inside the radius, at their distances. *)
Lemma walked_all seen w n k : walking seen w [] → nsteps R n start k → within n → k ∈ w.*1.
Proof.
  intros W Hn Hw. rw -(app_nil_r w). apply (wk_seen _ _ _ W). eapply walking_near; [done|done| |done].
  intros d Hd. unfold within, expands in *. destruct max_depth; [lia|done].
Qed.
Lemma walked_exact seen w k d : walking seen w [] → (k, d) ∈ w ↔ distance k d ∧ within d.
Proof.
  intros W. split.
  - intros Hk. destruct (wk_dist _ _ _ W k d) as (? & ? & _); [by rw app_nil_r|done].
  - intros [Hd Hw]. pose proof (walked_all seen w d k W (proj1 Hd) Hw) as [e He]%pair_in_keys.
    destruct (wk_dist _ _ _ W k e) as (Hd' & _); [by rw app_nil_r|]. by rw (distance_unique k d e Hd Hd').
Qed.

Lemma bfs_spec :
  ∃ r, bfs_loop (S (size V)) max_depth {[start]} [(start, 0%nat)] [] = Some r ∧
  match r with
  | Ok order => ∃ w, order = omap name w.*1 ∧ NoDup w.*1 ∧ StronglySorted le w.*2 ∧ (∀ k d, (k, d) ∈ w ↔ distance k d ∧ within d) ∧
                     (∀ k, k ∈ w.*1 ↔ ∃ n, within n ∧ nsteps R n start k) ∧ (∀ k d, (k, d) ∈ w → k ∈ V ∧ d ≤ 255)%nat
  | Err _ => expands 255 ∧ ∃ k, distance k 256
  end.
Proof.
  destruct (bfs_runs (S (size V)) {[start]} [] [(start, 0%nat)] walking_start) as (r & Hr & Hm); [cbn; lia|]. exists r. split; [exact Hr|].
  destruct r as [order|]; [|done]. destruct Hm as (seen & w & W & ->). exists w. pose proof (wk_NoDup _ _ _ W) as Hn. pose proof (wk_sorted _ _ _ W) as Hs. rw app_nil_r in Hn, Hs.
  split_and!; try done.
  - intros k d. by eapply walked_exact.
  - intros k. split; [|intros (n & Hw & Hn'); by eapply walked_all]. intros [d Hd]%pair_in_keys. apply (walked_exact seen w k d W) in Hd as [[Hd _] Hw]. eauto.
  - intros k d Hd. destruct (wk_dist _ _ _ W k d) as (_ & _ & ? & ?); [by rw app_nil_r|done].
Qed.
End bfs.

(** ** Depth first, component by component *)

Section components.
Context (next : Z → list Z).

(** One component: [current] is popped, its new neighbours are pushed one by one. *)
Fixpoint dfs_loop (fuel : nat) (visited : gset Z) (stack component : list Z) : option (gset Z * list Z) :=
  match fuel with
  | 0%nat => None
  | S fuel =>
      match stack with
      | [] => Some (visited, component)
      | current :: stack =>
          let '(visited, new) := insert_new visited (next current) in
          dfs_loop fuel visited (reverse new ++ stack) (component ++ [current])
      end
  end.
Definition components_step (fuel : nat) (acc : gset Z * list (list Z)) (start : Z) : option (gset Z * list (list Z)) :=
  if decide (start ∈ acc.1) then Some acc
  else vc ← dfs_loop fuel ({[start]} ∪ acc.1) [start] []; Some (vc.1, acc.2 ++ [vc.2]).

Abbreviation R := (λ a b, b ∈ next a).
Context (V : gset Z).
Hypothesis next_in : ∀ k b, k ∈ V → b ∈ next k → b ∈ V.
Hypothesis next_sym : ∀ a b, b ∈ next a → a ∈ next b.

Definition closed (s : gset Z) : Prop := ∀ a b, a ∈ s → b ∈ next a → b ∈ s.

Record visiting (old : gset Z) (start : Z) (visited : gset Z) (stack component : list Z) : Prop := {
  vs_visited k : k ∈ visited ↔ k ∈ old ∨ k ∈ component ++ stack;
  vs_apart k : k ∈ component ++ stack → k ∉ old;
  vs_NoDup : NoDup (component ++ stack);
  vs_in k : k ∈ component ++ stack → k ∈ V ∧ rtc R start k;
  vs_expanded a b : a ∈ component → b ∈ next a → b ∈ visited;
  vs_start : start ∈ component ++ stack
}.

Lemma visiting_start old start : start ∈ V → start ∉ old → visiting old start ({[start]} ∪ old) [start] [].
Proof.
  intros Hs Hn. split; cbn.
  - intros k. rw elem_of_union elem_of_singleton list_elem_of_singleton. naive_solver.
  - by intros k ->%list_elem_of_singleton.
  - apply NoDup_singleton.
  - intros k ->%list_elem_of_singleton. by split; [|constructor].
  - by intros a b ?%elem_of_nil.
  - by apply list_elem_of_singleton.
Qed.

Lemma visiting_step old start visited current stack component :
  visiting old start visited (current :: stack) component →
  visiting old start (insert_new visited (next current)).1 (reverse (insert_new visited (next current)).2 ++ stack) (component ++ [current]).
Proof.
  intros I. pose proof (insert_new_spec visited (next current)) as Hi. destruct (insert_new visited (next current)) as [visited' new]. cbn [fst snd].
  destruct Hi as (Hnd & Hnew & Hseen). 
  assert (∀ k, k ∈ (component ++ [current]) ++ reverse new ++ stack ↔ k ∈ component ++ (current :: stack) ∨ k ∈ new) as Hin.
  { intros k. rw !elem_of_app elem_of_reverse !elem_of_cons elem_of_nil. tauto. }
  assert (∀ k, k ∈ new → k ∈ next current ∧ (k ∉ old) ∧ (k ∉ component ++ (current :: stack))) as Hfresh.
  { intros k [Hk Hv]%Hnew. rw (vs_visited _ _ _ _ _ I) in Hv. tauto. }
  destruct (vs_in _ _ _ _ _ I current) as [HcV Hcr]; [apply elem_of_app; right; apply elem_of_cons; by left|].
  split.
  - intros k. rw Hseen Hin Hnew. pose proof (vs_visited _ _ _ _ _ I k). destruct (decide (k ∈ visited)); tauto.
  - intros k [Hk|Hk]%Hin; [by apply (vs_apart _ _ _ _ _ I)|by apply Hfresh].
  - assert ((component ++ [current]) ++ reverse new ++ stack ≡ₚ new ++ component ++ (current :: stack)) as ->.
    { rw (reverse_Permutation new) (Permutation_app_comm new stack) -app_assoc. cbn. by rw (Permutation_app_comm new) -!app_assoc. }
    apply NoDup_app. split_and!; [done| |apply I]. intros k Hk. by apply Hfresh.
  - intros k [Hk|Hk]%Hin; [by apply (vs_in _ _ _ _ _ I)|]. apply Hfresh in Hk as [Hk _]. split; [by eapply next_in|by eapply rtc_r].
  - intros a b [Ha| ->%list_elem_of_singleton]%elem_of_app Hb; apply Hseen; [left; by apply (vs_expanded _ _ _ _ _ I a)|by right].
  - apply Hin. left. apply (vs_start _ _ _ _ _ I).
Qed.

Lemma dfs_runs fuel old start visited stack component :
  visiting old start visited stack component → (size V < fuel + length component)%nat →
  ∃ visited' c, dfs_loop fuel visited stack component = Some (visited', c) ∧ visiting old start visited' [] c.
Proof.
  revert visited stack component. induction fuel as [|fuel IH]; intros visited stack component I Hf.
  { exfalso. assert (length component ≤ size V)%nat; [|lia]. rw -(size_list_to_set (C := gset Z)); [|apply (NoDup_app component stack), I].
    apply subseteq_size. intros k Hk%elem_of_list_to_set. apply (vs_in _ _ _ _ _ I). apply elem_of_app. by left. }
  cbn [dfs_loop]. destruct stack as [|current stack]; [by exists visited, component|]. apply visiting_step in I.
  destruct (insert_new visited (next current)) as [v new]. apply IH; [done|]. rw length_app. cbn. lia.
Qed.

Lemma visited_component old start visited c :
  closed old → visiting old start visited [] c → (∀ k, k ∈ c ↔ rtc R start k) ∧ closed visited ∧ (∀ k, k ∈ visited ↔ k ∈ old ∨ k ∈ c).
Proof.
  intros Hc [I1 I2 I3 I4 I5 I6]. rw app_nil_r in I1, I2, I3, I4, I6. assert (∀ a b, a ∈ c → b ∈ next a → b ∈ c) as Hcl.
  { intros a b Ha Hb. pose proof (I5 a b Ha Hb) as [Ho|]%I1; [|done]. exfalso. apply (I2 a Ha). apply (Hc b a Ho). by apply next_sym. }
  split_and!; [|intros a b [Ha|Ha]%I1 Hb; apply I1; [left; by eapply Hc|right; by eapply Hcl]|done].
  intros k. split; [apply I4|]. intros Hr. revert I6. clear -Hr Hcl. induction Hr as [|x y z Hxy Hyz IH]; [done|]. intros Hx. by apply IH, (Hcl x).
Qed.

(** What the loop over the starts keeps: the components found so far partition
    the visited nodes. *)
Record partitioned (visited : gset Z) (comps : list (list Z)) : Prop := {
  pt_closed : closed visited;
  pt_visited k : k ∈ visited ↔ k ∈ concat comps;
  pt_NoDup : NoDup (concat comps);
  pt_class c a b : c ∈ comps → a ∈ c → b ∈ c ↔ rtc R a b;
  pt_nonempty : [] ∉ comps;
  pt_in k : k ∈ visited → k ∈ V
}.

Lemma rtc_next_sym a b : rtc R a b → rtc R b a.
Proof. induction 1 as [|x y z Hxy _ IH]; [done|]. eapply rtc_r; [done|]. by apply next_sym. Qed.

Lemma components_step_spec visited comps start :
  partitioned visited comps → start ∈ V →
  ∃ visited' comps', components_step (S (size V)) (visited, comps) start = Some (visited', comps') ∧ partitioned visited' comps' ∧ start ∈ visited' ∧ visited ⊆ visited'.
Proof.
  intros P Hs. unfold components_step. cbn [fst snd]. case_decide as Hv; [by exists visited, comps|].
  destruct (dfs_runs (S (size V)) visited start _ [start] [] (visiting_start visited start Hs Hv)) as (v & c & -> & I); [cbn; lia|].
  destruct (visited_component visited start v c (pt_closed _ _ P) I) as (Hc & Hcl & Hv'). destruct I as [_ I2 I3 I4 _ I6]. rw app_nil_r in I2, I3, I4, I6.
  exists v, (comps ++ [c]). split; [done|]. assert (∀ k, k ∈ concat (comps ++ [c]) ↔ k ∈ visited ∨ k ∈ c) as Hcat.
  { intros k. rw concat_app elem_of_app (pt_visited _ _ P). cbn. by rw app_nil_r. }
  split_and!; [split| |].
  - done.
  - intros k. by rw Hcat Hv'.
  - rw concat_app. cbn. rw app_nil_r. apply NoDup_app. split_and!; [apply P| |done]. intros k Hk%(pt_visited _ _ P) Hk'. by apply (I2 k).
  - intros c' a b [Hin| ->%list_elem_of_singleton]%elem_of_app; [by apply (pt_class _ _ P)|]. intros Ha%Hc. rw Hc. split; intros Hr; [|by etrans].
    etrans; [by apply rtc_next_sym|done].
  - intros [Hin|Hin%list_elem_of_singleton]%elem_of_app; [by apply (pt_nonempty _ _ P)|]. subst c. by apply elem_of_nil in I6.
  - intros k [Hk|Hk]%Hv'; [by apply (pt_in _ _ P)|by apply I4].
  - apply Hv'. by right.
  - intros k Hk. apply Hv'. by left.
Qed.

Lemma components_fold (nodes : list Z) visited comps :
  partitioned visited comps → (∀ k, k ∈ nodes → k ∈ V) →
  ∃ visited' comps', foldM (components_step (S (size V))) nodes (visited, comps) = Some (visited', comps') ∧ partitioned visited' comps' ∧
    visited ⊆ visited' ∧ ∀ k, k ∈ nodes → k ∈ visited'.
Proof.
  revert visited comps. induction nodes as [|k nodes IH]; intros v cs P Hin; [exists v, cs; split_and!; [done|done|done|by intros k ?%elem_of_nil]|].
  destruct (components_step_spec v cs k P) as (v' & cs' & Hs & P' & Hk & Hsub); [apply Hin, elem_of_cons; by left|].
  destruct (IH v' cs' P') as (v'' & cs'' & Hf & P'' & Hsub' & Hall); [intros j Hj; apply Hin, elem_of_cons; by right|].
  exists v'', cs''. rw foldM_cons Hs. split_and!; [done|done|by etrans|]. intros j [->|Hj]%elem_of_cons; [by apply Hsub'|by apply Hall].
Qed.

Lemma partitioned_empty : partitioned ∅ [].
Proof.
  split; cbn.
  - by intros a b ?%elem_of_empty.
  - intros k. by rw elem_of_empty elem_of_nil.
  - constructor.
  - by intros c a b ?%elem_of_nil.
  - apply not_elem_of_nil.
  - by intros k ?%elem_of_empty.
Qed.

Lemma components_spec (nodes : list Z) :
  NoDup nodes → (∀ k, k ∈ nodes ↔ k ∈ V) →
  ∃ visited comps, foldM (components_step (S (size V))) nodes (∅, []) = Some (visited, comps) ∧ (concat comps ≡ₚ nodes) ∧ ([] ∉ comps) ∧
    ∀ c a b, c ∈ comps → a ∈ c → b ∈ c ↔ rtc R a b.
Proof.
  intros Hn Hin. destruct (components_fold nodes ∅ [] partitioned_empty) as (v & cs & Hf & P & _ & Hall); [by intros k ?%Hin|].
  exists v, cs. split_and!; [done| |apply P|apply P]. apply NoDup_Permutation; [apply P|done|]. intros k. rw -(pt_visited _ _ P). split; [|apply Hall].
  intros Hk. by apply Hin, (pt_in _ _ P).
Qed.
End components.
