(* ===== verification/KernelQuery.v ===== *)
(** Queries over the kernel's graph (crates/graph/graph-kernel/src/graph/query.rs).

    Neighbourhoods, the breadth-first members of a component or an ego network under
    a projection of relations, candidates one or two hops away, weakly connected
    components and orphans, over the loops of [KernelWalk].  The iterator over the
    neighbours of a node in either direction is petgraph's ([Undirected]); its
    searches (dijkstra, astar, kosaraju) are only called by the source and have no
    definition here. *)

From S2P Require Import Prelude Wire Journal SlotMap Stemma StableGraph GraphLog KernelEdges KernelGraph KernelNav KernelNode KernelDelta KernelRelate KernelReplay KernelJournal KernelWalk.

Local Open Scope Z_scope.

(** petgraph's [neighbors_undirected]: every node with an edge to or from the
    given one, in some order, possibly more than once. *)
Class Undirected (G : Type → Type → Type) `{StableGraph G} : Type := {
  neighbors : ∀ {N E}, G N E → Z → list Z;
  elem_of_neighbors N E (g : G N E) a b :
    b ∈ neighbors g a ↔ ∃ e w, sg_edges g !! e = Some (a, b, w) ∨ sg_edges g !! e = Some (b, a, w)
}.

(** Outgoing neighbours, then incoming ones. *)
#[export] Instance out_then_in (G : Type → Type → Type) `{StableGraph G} : Undirected G.
Proof.
  refine {| neighbors N E g k := ((λ e : Z * Z * E, e.1.2) <$> edges_out g k) ++ ((λ e : Z * Z * E, e.1.2) <$> edges_in g k) |}.
  intros N E g a b. rw elem_of_app !list_elem_of_fmap. split.
  - intros [([[e t] w] & -> & He%elem_of_edges_out)|([[e t] w] & -> & He%elem_of_edges_in)]; eauto.
  - intros (e & w & [He%elem_of_edges_out|He%elem_of_edges_in]); [left|right]; by exists (e, b, w).
Defined.

Section query.
Context {G : Type → Type → Type} `{StableGraph G} `{!Undirected G}.
Context {U : Type} `{Countable U} {J D : Type}.

Abbreviation Graph := (KGraph (G := G) (N := Node U) (Id := U) (R := Rest (U := U) (J := J) (D := D))).
Implicit Types (g : Graph) (key a b : Z) (selectors : list RelationSelector).

Definition neighbors_undirected g key : list Z := neighbors (inner (k_inner g)) key.

(** Through a [HashSet], then sorted by index. *)
Definition neighbors_undirected_sorted g key : list Z :=
  merge_sort Z.le (elements (list_to_set (filter (λ k, k ≠ key ∧ is_Some (get_node g k)) (neighbors_undirected g key)) : gset Z)).

Definition connected_frame_import_nodes g (seeds : list Z) : list Z :=
  let out : gset Z := fold_left (λ out seed, match get_node g seed with
                                             | None => out
                                             | Some _ => list_to_set (neighbors_undirected g seed) ∪ ({[seed]} ∪ out)
                                             end) seeds ∅ in
  merge_sort Z.le (filter (λ k, is_Some (get_node g k)) (elements out)).

(** One depth-1 node's contribution to the second ring. *)
Definition second_ring g (acc : gset Z * list (Z * nat)) (k : Z) : gset Z * list (Z * nat) :=
  let '(visited, new) := insert_new acc.1 (neighbors_undirected_sorted g k) in
  (visited, acc.2 ++ ((λ b, (b, 2%nat)) <$> new)).
Definition connected_candidates_with_depth g (source : Z) (max_depth : nat) : list (Z * nat) :=
  match get_node g source with
  | None => []
  | Some _ =>
      if bool_decide (max_depth = 0)%nat then []
      else let '(visited, ring) := insert_new {[source]} (neighbors_undirected_sorted g source) in
           let out := (λ b, (b, 1%nat)) <$> ring in
           if bool_decide (max_depth < 2)%nat then out
           else (fold_left (second_ring g) ring (visited, out)).2
  end.

Definition orphan_node_keys g : list Z :=
  filter (λ k, edges_out (inner (k_inner g)) k = [] ∧ edges_in (inner (k_inner g)) k = []) (node_indices (inner (k_inner g))).

Definition weakly_connected_components g : option (list (list Z)) :=
  snd <$> foldM (components_step (neighbors_undirected g) (S (size (sg_nodes (inner (k_inner g)))))) (node_indices (inner (k_inner g))) (∅, []).

(** The edge from [a] to [b]; the edge back only when there is none. *)
Definition edge_matches_selectors g a b selectors : bool :=
  match match find_edge_key g a b with Some k => Some k | None => find_edge_key g b a end ≫= get_edge g with
  | Some payload => existsb (has_relation payload) selectors
  | None => false
  end.

(** The neighbours [bfs_members] goes on to. *)
Definition followed g selectors key : list Z :=
  filter (λ b, selectors = [] ∨ edge_matches_selectors g key b selectors = true) (neighbors_undirected_sorted g key).

(** The outer [None] is a loop that does not end; [Err] the overflow of a depth. *)
Definition bfs_members g (seed : U) (max_depth : option nat) selectors : option (result unit (list U)) :=
  match (k ← get_node_key_by_id g seed; n ← get_node g k; Some (k, n)) with
  | None => Some (Ok [])
  | Some (start, _) =>
      bfs_loop (followed g selectors) (node_id_of g) (S (size (sg_nodes (inner (k_inner g))))) max_depth {[start]} [(start, 0%nat)] []
  end.
Definition component_members g (seed : U) selectors : option (result unit (list U)) := bfs_members g seed None selectors.
Definition ego_members g (seed : U) (radius : nat) selectors : option (result unit (list U)) := bfs_members g seed (Some radius) selectors.

Definition has_edge_between g from to : bool := bool_decide (is_Some (find_edge_key g from to)).
Definition node_count g : nat := size (sg_nodes (inner (k_inner g))).
Definition edge_count g : nat := size (sg_edges (inner (k_inner g))).

(** ** What the walks follow *)

Abbreviation wf := (kg_wf n_id).
Abbreviation nodes g := (sg_nodes (inner (k_inner g))).

(** There is an edge between the two, in one direction or the other. *)
Definition linked g a b : Prop := ∃ e p, sg_edges (inner (k_inner g)) !! e = Some (a, b, p) ∨ sg_edges (inner (k_inner g)) !! e = Some (b, a, p).

Lemma linked_sym g a b : linked g a b → linked g b a.
Proof. intros (e & p & [He|He]); exists e, p; auto. Qed.
Lemma linked_live g a b : wf g → linked g a b → is_Some (nodes g !! a) ∧ is_Some (nodes g !! b).
Proof. intros Hw (e & p & [He|He]); apply (kw_ends n_id g Hw) in He; naive_solver. Qed.
Lemma elem_of_undirected g a b : b ∈ neighbors_undirected g a ↔ linked g a b.
Proof. apply elem_of_neighbors. Qed.

Lemma elem_of_undirected_sorted g a b : wf g → b ∈ neighbors_undirected_sorted g a ↔ linked g a b ∧ b ≠ a.
Proof.
  intros Hw. unfold neighbors_undirected_sorted. rw merge_sort_Permutation elem_of_elements elem_of_list_to_set list_elem_of_filter elem_of_undirected.
  split; [naive_solver|]. intros [Hl Hne]. split_and!; [done|by apply (linked_live g a b)|done].
Qed.
Lemma undirected_sorted_sorted g a : StronglySorted Z.le (neighbors_undirected_sorted g a) ∧ NoDup (neighbors_undirected_sorted g a).
Proof.
  split; [apply (StronglySorted_merge_sort _)|]. unfold neighbors_undirected_sorted. rw merge_sort_Permutation. apply NoDup_elements.
Qed.

Definition follows g selectors a b : Prop := linked g a b ∧ b ≠ a ∧ (selectors = [] ∨ edge_matches_selectors g a b selectors = true).
Lemma elem_of_followed g selectors a b : wf g → b ∈ followed g selectors a ↔ follows g selectors a b.
Proof. intros Hw. unfold followed, follows. rw list_elem_of_filter (elem_of_undirected_sorted g a b Hw). naive_solver. Qed.

(** ** Members *)

(** [j] is [d] hops from [i] along followed edges, and no fewer. *)
Definition hops g selectors (i j : U) (d : nat) : Prop :=
  ∃ a b, get_node_key_by_id g i = Some a ∧ get_node_key_by_id g j = Some b ∧ distance (followed g selectors) a b d.

Lemma followed_in g selectors a b : wf g → a ∈ dom (nodes g) → b ∈ followed g selectors a → b ∈ dom (nodes g).
Proof. intros Hw _ (Hl & _)%(elem_of_followed g selectors a b Hw). apply elem_of_dom. by apply (linked_live g a b). Qed.

Lemma bfs_members_start g i a max_depth selectors :
  wf g → get_node_key_by_id g i = Some a → bfs_members g i max_depth selectors =
  bfs_loop (followed g selectors) (node_id_of g) (S (size (dom (nodes g)))) max_depth {[a]} [(a, 0%nat)] [].
Proof. intros Hw Hi. unfold bfs_members. rw Hi size_dom. cbn. by destruct (key_node g i a Hw Hi) as (n & -> & _). Qed.

(** A walk over keys, told by ids. *)
Definition named g (w : list (Z * nat)) : list (U * nat) := omap (λ kd, (λ i, (i, kd.2)) <$> node_id_of g kd.1) w.

Lemma elem_of_named_walk g w j d : wf g → (j, d) ∈ named g w ↔ ∃ k, get_node_key_by_id g j = Some k ∧ (k, d) ∈ w.
Proof.
  intros Hw. unfold named. rw list_elem_of_omap. split.
  - intros ([k e] & Hin & (i & Hi & [= <- <-])%fmap_Some). exists k. split; [by apply node_id_key|done].
  - intros (k & Hk & Hin). exists (k, d). split; [done|]. cbn [fst snd]. by rw (proj2 (node_id_key g k j Hw) Hk).
Qed.
Lemma named_cons g k d w : named g ((k, d) :: w) = match node_id_of g k with Some i => (i, d) :: named g w | None => named g w end.
Proof. unfold named. cbn [omap list_omap fst snd]. by destruct (node_id_of g k). Qed.
Lemma named_keys g w : (named g w).*1 = omap (node_id_of g) w.*1.
Proof.
  induction w as [|[k d] w IH]; [done|]. rw named_cons. cbn [fmap list_fmap omap list_omap fst]. destruct (node_id_of g k); [|done]. cbn [fmap list_fmap fst]. by f_equal.
Qed.
Lemma named_depths g w : (∀ k, k ∈ w.*1 → k ∈ dom (nodes g)) → (named g w).*2 = w.*2.
Proof.
  induction w as [|[k d] w IH]; intros Hin; [done|]. assert (k ∈ dom (nodes g)) as [n Hn]%elem_of_dom by (apply Hin, elem_of_cons; by left).
  assert (node_id_of g k = Some (n_id n)) as Hk by (unfold node_id_of, get_node, graph_node; by rw Hn). rw named_cons Hk. cbn [fmap list_fmap snd]. f_equal.
  apply IH. intros x Hx. apply Hin, elem_of_cons. by right.
Qed.
Lemma named_NoDup g w : wf g → NoDup w.*1 → NoDup (named g w).*1.
Proof.
  intros Hw. rw named_keys. generalize (w.*1). intros l. induction l as [|k l IH]; [constructor|]. intros [Hk Hl]%NoDup_cons. cbn.
  destruct (node_id_of g k) as [i|] eqn:Hi; [|by apply IH]. apply NoDup_cons. split; [|by apply IH].
  intros (k' & Hk' & Hi')%list_elem_of_omap. apply Hk. apply (node_id_key g _ _ Hw) in Hi, Hi'. by simplify_eq.
Qed.

(** The walk of [bfs_members] from a live seed. *)
Lemma bfs_members_spec g i a max_depth selectors :
  wf g → get_node_key_by_id g i = Some a → ∃ r, bfs_members g i max_depth selectors = Some r ∧
  match r with
  | Ok l => ∃ w : list (U * nat), l = w.*1 ∧ NoDup w.*1 ∧ StronglySorted le w.*2 ∧ (∀ j d, (j, d) ∈ w ↔ within max_depth d ∧ hops g selectors i j d) ∧ (∀ j d, (j, d) ∈ w → d ≤ 255)%nat ∧
      ∀ j, j ∈ w.*1 ↔ ∃ b n, get_node_key_by_id g j = Some b ∧ within max_depth n ∧ nsteps (λ a b, b ∈ followed g selectors a) n a b
  | Err _ => expands max_depth 255 ∧ ∃ j, hops g selectors i j 256
  end.
Proof.
  intros Hw Hi. rw (bfs_members_start g i a) //. assert (a ∈ dom (nodes g)) as Ha by (apply elem_of_dom; destruct (key_node g i a Hw Hi) as (n & Hn & _); by exists n).
  destruct (bfs_spec (followed g selectors) (node_id_of g) a (dom (nodes g)) Ha (λ k b, followed_in g selectors k b Hw) max_depth) as (r & -> & Hr).
  exists r. split; [done|]. destruct r as [l|].
  - destruct Hr as (w & -> & Hn & Hs & Hex & Hall & Hin). exists (named g w). split_and!.
    + by rw named_keys.
    + by apply named_NoDup.
    + rw named_depths //. intros k [d Hd]%pair_in_keys. by apply (Hin k d).
    + intros j d. rw elem_of_named_walk //. unfold hops. setoid_rewrite Hex. split; [intros (k & Hk & Hd & Hd'); eauto 10|].
      intros (Hd & a' & b & Hi' & Hj & Hd'). simplify_eq. eauto.
    + intros j d (k & _ & Hd)%elem_of_named_walk; [by apply (Hin k d)|done].
    + intros j. rw named_keys list_elem_of_omap. setoid_rewrite Hall. split; [intros (k & (n & ? & ?) & Hk%node_id_key); eauto|].
      intros (b & n & Hj & ? & ?). exists b. split; [eauto|by apply node_id_key].
  - destruct Hr as (He & b & Hb). split; [done|]. assert (b ∈ dom (nodes g)) as [n Hn]%elem_of_dom.
    { apply distance_pred in Hb as (p & _ & Hb). apply (elem_of_followed g selectors p b Hw) in Hb as (Hl & _). apply elem_of_dom. by apply (linked_live g p b). }
    exists (n_id n), a, b. split_and!; [done|by apply node_key|done].
Qed.

(** ** Components *)

Lemma linked_followed g a b : wf g → rtc (linked g) a b ↔ rtc (λ a b, b ∈ followed g [] a) a b.
Proof.
  intros Hw. split; induction 1 as [|x y z Hxy _ IH]; try done.
  - destruct (decide (y = x)) as [->|Hne]; [done|]. eapply rtc_l; [|done]. apply elem_of_followed; [done|]. split_and!; [done|done|by left].
  - apply (elem_of_followed g [] x y Hw) in Hxy as (Hl & _). by eapply rtc_l.
Qed.

Lemma components_of g :
  wf g → ∃ comps, weakly_connected_components g = Some comps ∧ (concat comps ≡ₚ node_indices (inner (k_inner g))) ∧ ([] ∉ comps) ∧
  ∀ c a b, c ∈ comps → a ∈ c → b ∈ c ↔ rtc (linked g) a b.
Proof.
  intros Hw. assert (∀ k, k ∈ node_indices (inner (k_inner g)) ↔ k ∈ dom (nodes g)) as Hin.
  { intros k. rw node_indices_nodes elem_of_dom list_elem_of_fmap. split; [intros ([? n] & -> & Hn%elem_of_map_to_list); by exists n|].
    intros [n Hn]. exists (k, n). split; [done|by apply elem_of_map_to_list]. }
  assert (∀ a b, rtc (λ a b, b ∈ neighbors_undirected g a) a b ↔ rtc (linked g) a b) as Hr.
  { intros a b. split; apply rtc_subrel; intros x y; apply elem_of_undirected. }
  destruct (components_spec (neighbors_undirected g) (dom (nodes g))) with (nodes := node_indices (inner (k_inner g))) as (v & comps & Hf & Hp & Hne & Hc).
  - intros k b _ Hl%elem_of_undirected. apply elem_of_dom. by apply (linked_live g k b).
  - intros a b Hl%elem_of_undirected. by apply elem_of_undirected, linked_sym.
  - rw node_indices_nodes. apply NoDup_fst_map_to_list.
  - done.
  - exists comps. rw size_dom in Hf. unfold weakly_connected_components. rw Hf. split_and!; [done|done|done|]. intros c a b Hcin Ha. rw -Hr. by apply Hc.
Qed.
End query.

(** ** After a session *)

Section queries.
Context {G : Type → Type → Type} `{StableGraph G} `{!Undirected G} {M : Type → Type} `{SlotMap M} `{HashOrder} `{WebText}.
Context {U : Type} `{Countable U} `{UuidText U} {J D : Type} `{EqDecision J} `{JsonText J} `{FieldText D}.
Context `{Facet J bool} `{Facet J (list FrameLayoutHint)} `{Facet J NodeTagPresentationState} `{Facet J VisitHistoryFacet}.
Context `{Facet J (list NodeImportProvenance)} `{Facet J (list NodeDerivation)}.
Context `{Facet J (list NodeClassification)} `{Facet J (list NodeProperty)}.
Context `{!FacetRoundtrip J VisitHistoryFacet} `{!FacetRoundtrip J (list NodeImportProvenance)}.

Abbreviation Graph := (KGraph (G := G) (N := Node U) (Id := U) (R := Rest (U := U) (J := J) (D := D))).
Implicit Types (g : Graph) (i j : U) (ds : list (Env U * GraphDelta (U := U) (J := J) (D := D))) (selectors : list RelationSelector).

Definition reached ds g : Prop := session_ok (M := M) kernel_new ds ∧ ∃ jn, live_session (M := M) (kernel_new, gj_new) ds = Some (g, jn).
Lemma reached_wf ds g : reached ds g → kg_wf n_id g.
Proof. intros (Hok & jn & Hs). apply iv_wf. by eapply session_inv. Qed.

(** C22. Ego networks are exact.  After any session that meets
    [session_ok], for any seed, radius and
    projection, [ego_members] returns: nothing for an unknown seed, and otherwise each
    node within the radius of the seed, along edges the projection follows, exactly
    once, nearest first; the depth never overflows. *)
Theorem ego_members_exact ds g i r selectors :
  reached ds g → (r ≤ 255)%nat →
  match get_node_key_by_id g i with
  | None => ego_members g i r selectors = Some (Ok [])
  | Some _ => ∃ w : list (U * nat), ego_members g i r selectors = Some (Ok w.*1) ∧ NoDup w.*1 ∧ StronglySorted le w.*2 ∧
                ∀ j d, (j, d) ∈ w ↔ (d ≤ r)%nat ∧ hops g selectors i j d
  end.
Proof.
  intros Hr Hle. apply reached_wf in Hr. destruct (get_node_key_by_id g i) as [a|] eqn:Hi; [|unfold ego_members, bfs_members; by rw Hi].
  destruct (bfs_members_spec g i a (Some r) selectors Hr Hi) as ([l|] & Hb & Hm).
  - destruct Hm as (w & -> & Hn & Hs & Hex & _). by exists w.
  - destruct Hm as (He & _). cbn in He. lia.
Qed.

(** C23. Components are exact up to depth 255.  After any session that meets
    [session_ok], from a live seed,
    [component_members] ends; it fails on the overflow of its depth exactly when some
    node is 256 hops away, and otherwise returns each node reachable along the edges
    the projection follows, exactly once. *)
Theorem component_members_exact ds g i a selectors :
  reached ds g → get_node_key_by_id g i = Some a →
  (component_members g i selectors = Some (Err tt) ↔ ∃ j, hops g selectors i j 256) ∧
  ((¬ ∃ j, hops g selectors i j 256) → ∃ l, component_members g i selectors = Some (Ok l) ∧ NoDup l ∧
     ∀ j, j ∈ l ↔ ∃ b, get_node_key_by_id g j = Some b ∧ rtc (follows g selectors) a b).
Proof.
  intros Hr Hi. apply reached_wf in Hr. destruct (bfs_members_spec g i a None selectors Hr Hi) as ([l|[]] & Hb & Hm); unfold component_members; rw Hb.
  - destruct Hm as (w & -> & Hn & Hs & Hex & Hmax & Hall). split.
    + split; [done|]. intros (j & Hj). assert (256 ≤ 255)%nat; [|lia]. apply (Hmax j), Hex. by split.
    + intros _. exists (w.*1). split_and!; [done|done|]. intros j. rw Hall. setoid_rewrite rtc_nsteps.
      assert (∀ n x y, nsteps (λ a b, b ∈ followed g selectors a) n x y ↔ nsteps (follows g selectors) n x y) as Heq.
      { intros n x y. split; apply nsteps_congruence with (f := λ z, z); intros ? ?; by rw elem_of_followed. }
      split; [intros (b & n & Hj & _ & Hs'%Heq)|intros (b & Hj & n & Hs'%Heq)]; [eauto|]. by exists b, n.
  - destruct Hm as (_ & Hj). split; [done|]. by intros Hn.
Qed.

Lemma NoDup_omap_ids g l : kg_wf n_id g → NoDup l → NoDup (omap (node_id_of g) l).
Proof.
  intros Hw Hl. assert (l = ((λ k, (k, 0%nat)) <$> l).*1) as Hk by (rw -list_fmap_compose; symmetry; by apply list_fmap_id).
  rw Hk -named_keys. apply named_NoDup; [done|]. by rw -Hk.
Qed.
Lemma concat_NoDup {A} (ls : list (list A)) l : NoDup (concat ls) → l ∈ ls → NoDup l.
Proof. induction ls as [|x ls IH]; intros Hn; [by intros ?%elem_of_nil|]. cbn in Hn. apply NoDup_app in Hn as (? & _ & ?). intros [->|Hl]%elem_of_cons; auto. Qed.

(** C24. Weak components partition the graph.  After any session that meets [session_ok],
    [weakly_connected_components] ends with non-empty lists that hold each live node
    exactly once; two nodes share a list exactly when edges in either direction
    connect them; and the component [component_members] finds from a seed, when all
    relations are followed and its depth does not overflow, is the list that holds
    the seed. *)
Theorem weak_components_partition ds g :
  reached ds g → ∃ comps, weakly_connected_components g = Some comps ∧ (concat comps ≡ₚ node_indices (inner (k_inner g))) ∧ ([] ∉ comps) ∧
  (∀ c a b, c ∈ comps → a ∈ c → b ∈ c ↔ rtc (linked g) a b) ∧
  (∀ c a i l, c ∈ comps → a ∈ c → node_id_of g a = Some i → component_members g i [] = Some (Ok l) → l ≡ₚ omap (node_id_of g) c).
Proof.
  intros Hr%reached_wf. destruct (components_of g Hr) as (comps & Hc & Hp & Hne & Hcl). exists comps. split_and!; [done..|].
  intros c a i l Hcin Ha Hi%(node_id_key g _ _ Hr) Hl. destruct (bfs_members_spec g i a None [] Hr Hi) as (r & Hb & Hm). unfold component_members in Hl. rw Hb in Hl.
  injection Hl as ->. destruct Hm as (w & -> & Hn & _ & _ & _ & Hall). apply NoDup_Permutation; [done| |].
  - apply NoDup_omap_ids; [done|]. apply (concat_NoDup comps); [|done]. rw Hp node_indices_nodes. apply NoDup_fst_map_to_list.
  - intros j. rw Hall list_elem_of_omap. setoid_rewrite (λ b, Hcl c a b Hcin Ha). setoid_rewrite (linked_followed g a _ Hr). split.
    + intros (b & n & Hj & _ & Hs). exists b. split; [by eapply rtc_nsteps_2|by apply node_id_key].
    + intros (b & (n & Hs)%rtc_nsteps_1 & Hj%(node_id_key g _ _ Hr)). by exists b, n.
Qed.

(** ** Candidates *)

Lemma distance_0 next s k : distance next s k 0 ↔ k = s.
Proof. split; [intros [Hs _]; by inversion Hs|]. intros ->. split; [constructor|lia]. Qed.
Lemma distance_1 next s k : distance next s k 1 ↔ k ∈ next s ∧ k ≠ s.
Proof.
  split.
  - intros [Hs Hm]. split; [by apply nsteps_once_inv in Hs|]. intros ->. assert (nsteps (λ a b, b ∈ next a) 0 s s) as H0s by constructor. apply Hm in H0s. lia.
  - intros [Hk Hne]. split; [by apply nsteps_once|]. intros [|n] Hs; [by inversion Hs|lia].
Qed.
Lemma distance_2 next s k : distance next s k 2 ↔ (∃ p, p ∈ next s ∧ p ≠ s ∧ k ∈ next p) ∧ (k ∉ next s) ∧ k ≠ s.
Proof.
  split.
  - intros Hd. destruct (distance_pred next s k 1 Hd) as (p & [Hp Hps]%distance_1 & Hk). split; [by exists p|]. destruct Hd as [_ Hm]. split.
    + intros Hks. assert (nsteps (λ a b, b ∈ next a) 1 s k) as H1s by by apply nsteps_once. apply Hm in H1s. lia.
    + intros ->. assert (nsteps (λ a b, b ∈ next a) 0 s s) as H0s by constructor. apply Hm in H0s. lia.
  - intros ((p & Hp & _ & Hk) & Hns & Hne). split; [eapply nsteps_l; [done|by apply nsteps_once]|].
    intros [|[|n]] Hs; [by inversion Hs|by apply nsteps_once_inv in Hs|lia].
Qed.

Lemma second_ring_spec g ring visited out :
  let '(visited', out') := fold_left (second_ring g) ring (visited, out) in
  (∀ b, b ∈ visited' ↔ b ∈ visited ∨ ∃ p, p ∈ ring ∧ b ∈ neighbors_undirected_sorted g p) ∧
  ∃ new, out' = out ++ ((λ b, (b, 2%nat)) <$> new) ∧ NoDup new ∧ ∀ b, b ∈ new ↔ b ∈ visited' ∧ b ∉ visited.
Proof.
  revert visited out. induction ring as [|k ring IH]; intros visited out; cbn [fold_left].
  { split; [intros b; split; [auto|]; by intros [|(p & ?%elem_of_nil & _)]|]. exists []. rw app_nil_r. split_and!; [done|constructor|]. intros b. rw elem_of_nil. tauto. }
  unfold second_ring at 2. cbn [fst snd]. pose proof (insert_new_spec visited (neighbors_undirected_sorted g k)) as Hi.
  destruct (insert_new visited (neighbors_undirected_sorted g k)) as [v1 new1]. destruct Hi as (Hn1 & Hnew1 & Hv1).
  specialize (IH v1 (out ++ ((λ b, (b, 2%nat)) <$> new1))). destruct (fold_left (second_ring g) ring _) as [v2 out2].
  destruct IH as (Hv2 & new2 & -> & Hn2 & Hnew2). split.
  - intros b. rw Hv2 Hv1. setoid_rewrite elem_of_cons. split; [intros [[?|?]|(p & ? & ?)]; eauto|]. intros [?|(p & [->|?] & ?)]; eauto.
  - exists (new1 ++ new2). rw fmap_app app_assoc. split_and!; [done| |].
    + apply NoDup_app. split_and!; [done| |done]. intros b Hb1 Hb2. apply Hnew2 in Hb2 as [_ Hb2]. apply Hb2, Hv1. right. by apply Hnew1.
    + intros b. rw elem_of_app Hnew1 Hnew2 Hv2 Hv1. destruct (decide (b ∈ visited)), (decide (b ∈ neighbors_undirected_sorted g k)); tauto.
Qed.

(** Candidates are exact.  For a live source, [connected_candidates_with_depth]
    lists each node one hop away, and two hops away when asked for two or more, exactly
    once, with its distance; for an unknown source or depth 0 it lists nothing. *)
Theorem candidates_exact g source max_depth :
  NoDup (connected_candidates_with_depth g source max_depth).*1 ∧
  ∀ k d, (k, d) ∈ connected_candidates_with_depth g source max_depth ↔
    is_Some (get_node g source) ∧ (1 ≤ d ≤ 2 ∧ d ≤ max_depth)%nat ∧ distance (neighbors_undirected_sorted g) source k d.
Proof.
  unfold connected_candidates_with_depth. destruct (get_node g source) as [n|]; cycle 1.
  { split; [constructor|]. intros k d. rw elem_of_nil. split; [done|by intros ([? ?] & _)]. }
  case_bool_decide as Hzero; [subst; split; [constructor|]; intros k d; rw elem_of_nil; split; [done|lia]|].
  pose proof (insert_new_spec {[source]} (neighbors_undirected_sorted g source)) as Hi. destruct (insert_new _ _) as [v ring]. destruct Hi as (Hn & Hring & Hv).
  assert ((((λ b : Z, (b, 1%nat)) <$> ring).*1 : list Z) = ring) as Hk1 by (rw -list_fmap_compose; by apply list_fmap_id).
  assert (∀ k d, (k, d) ∈ ((λ b : Z, (b, 1%nat)) <$> ring) ↔ d = 1%nat ∧ distance (neighbors_undirected_sorted g) source k 1) as Hr1.
  { intros k d. rw list_elem_of_fmap distance_1. setoid_rewrite Hring. setoid_rewrite elem_of_singleton. naive_solver. }
  case_bool_decide as Hone.
  { rw Hk1. split; [done|]. intros k d. rw Hr1. split; [intros [-> ?]; split_and!; [by eexists|lia..|done]|]. intros (_ & Hd & Hk). assert (d = 1%nat) as -> by lia. done. }
  pose proof (second_ring_spec g ring v ((λ b, (b, 1%nat)) <$> ring)) as Hs. destruct (fold_left (second_ring g) ring _) as [v2 out2]. cbn [snd].
  destruct Hs as (Hv2 & new & -> & Hn2 & Hnew). assert ((((λ b : Z, (b, 2%nat)) <$> new).*1 : list Z) = new) as Hk2 by (rw -list_fmap_compose; by apply list_fmap_id).
  assert (∀ k, k ∈ new ↔ distance (neighbors_undirected_sorted g) source k 2) as Hr2.
  { intros k. rw Hnew distance_2 Hv2 Hv elem_of_singleton. setoid_rewrite Hring. setoid_rewrite elem_of_singleton. naive_solver. }
  split.
  - rw fmap_app Hk1 Hk2. apply NoDup_app. split_and!; [done| |done]. intros k [Hk _]%Hring [_ Hk']%Hnew. apply Hk', Hv. by right.
  - intros k d. rw elem_of_app Hr1. assert ((k, d) ∈ ((λ b : Z, (b, 2%nat)) <$> new) ↔ d = 2%nat ∧ distance (neighbors_undirected_sorted g) source k 2) as ->.
    { rw list_elem_of_fmap. setoid_rewrite Hr2. naive_solver. }
    split; [intros [[-> ?]|[-> ?]]; (split_and!; [by eexists|lia..|done])|]. intros (_ & Hd & Hk). destruct d as [|[|[|d]]]; [lia|by left|by right|lia].
Qed.
End queries.

(** ** A small graph *)

Module Sample.
Import KernelJournal.Sample.

(** [a] cites [b], [b] lies inside [a], [b] cites [c]; [d] stands alone. *)
Definition visits : list (Env string * SDelta) :=
  [(at_ 1, AddNode (Some "a") "https://a" (0, 0)); (at_ 2, AddNode (Some "b") "https://b" (0, 0));
   (at_ 3, AddNode (Some "c") "https://c" (0, 0)); (at_ 4, AddNode (Some "d") "https://d" (0, 0));
   (at_ 5, AssertRelation 0 1 (ASemantic Cites None None)); (at_ 6, AssertRelation 1 0 (AContainment UrlPath));
   (at_ 7, AssertRelation 1 2 (ASemantic Cites None None))].
Definition web : SGraph := match live_session (kernel_new, gj_new) visits with Some gj => gj.1 | None => kernel_new end.

Lemma visits_ok : session_ok (kernel_new : SGraph) visits.
Proof. vm_compute. repeat split. all: by intros []. Qed.
Lemma web_reached : reached visits web.
Proof.
  assert (bool_decide (is_Some (live_session (kernel_new : SGraph, gj_new) visits)) = true) as Hs%bool_decide_eq_true by (vm_compute; reflexivity).
  apply (conj visits_ok). unfold web. destruct Hs as [[g j] Hs]. rw Hs. exists j. reflexivity.
Qed.

Lemma web_key : get_node_key_by_id web "a" = Some 0.
Proof. vm_compute. reflexivity. Qed.

Lemma ego_members_exact_witness :
  ego_members web "a" 1 [] = Some (Ok ["a"; "b"]) ∧
  ∃ w, ego_members web "a" 1 [] = Some (Ok w.*1) ∧ ∀ j d, (j, d) ∈ w ↔ (d ≤ 1)%nat ∧ hops web [] "a" j d.
Proof.
  split; [vm_compute; reflexivity|]. pose proof (ego_members_exact visits web "a" 1 [] web_reached ltac:(lia)) as Hx. rw web_key in Hx.
  destruct Hx as (w & Hw & _ & _ & Hall). exact (ex_intro _ w (conj Hw Hall)).
Defined.

Lemma component_members_exact_witness :
  component_members web "a" [] = Some (Ok ["a"; "b"; "c"]) ∧ (component_members web "a" [] = Some (Err tt) ↔ ∃ j, hops web [] "a" j 256).
Proof.
  split; [vm_compute; reflexivity|]. exact (proj1 (component_members_exact visits web "a" 0 [] web_reached web_key)).
Defined.

Lemma weak_components_partition_witness : weakly_connected_components web = Some [[0; 1; 2]; [3]] ∧ rtc (linked web) 0 2.
Proof.
  assert (weakly_connected_components web = Some [[0; 1; 2]; [3]]) as Hc by (vm_compute; reflexivity). apply (conj Hc).
  destruct (weak_components_partition visits web web_reached) as (comps & Hc' & _ & _ & Hcl & _). rw Hc in Hc'. injection Hc' as Hc'. subst comps.
  apply (Hcl [0; 1; 2] 0 2); [left|left|right; right; left].
Defined.

(** Under a projection the walk looks at one of the two edges of a pair only: from
    [a] it sees the citation, from [b] the containment. *)
Example projected_component_not_symmetric :
  component_members web "a" [SContainment UrlPath] = Some (Ok ["a"]) ∧ component_members web "b" [SContainment UrlPath] = Some (Ok ["b"; "a"]).
Proof. vm_compute. split; reflexivity. Qed.

(** A chain of 257 pages: the last is 256 hops from the first. *)
Definition page_name (n : nat) : string := String (ascii_of_nat (n / 16 + 65)) (String (ascii_of_nat (n mod 16 + 65)) "").
Definition chain : list (Env string * SDelta) :=
  ((λ n, (at_ 1, AddNode (Some (page_name n)) (page_name n) (0, 0))) <$> seq 0 257) ++
  ((λ n, (at_ 2, AssertRelation (Z.of_nat n) (Z.of_nat n + 1) (ASemantic Cites None None))) <$> seq 0 256).
Example long_chain_overflows :
  (λ gj, (component_members gj.1 (page_name 0) [], (λ l, length l) <$> weakly_connected_components gj.1)) <$>
    live_session (kernel_new : SGraph, gj_new) chain = Some (Some (Err tt), Some 1%nat).
Proof. vm_compute. reflexivity. Qed.
End Sample.
