(* ===== verification/KernelCopy.v ===== *)
(** Copying a component into another graph
    (crates/graph/graph-kernel/src/graph/cross_graph.rs).

    A tear-out forks the connected component of a node: every node is minted anew
    in the destination with its content and a record of where it came from, and the
    edges among the copied nodes are connected again with the same payloads.  Each
    mint reads the machine once ([Env]).  [None] is a panic. *)

From S2P Require Import Prelude Wire Journal SlotMap Stemma StableGraph GraphLog KernelEdges KernelGraph KernelNav KernelNode KernelDelta KernelRelate KernelUrls KernelReplay KernelJournal KernelWalk KernelQuery.

Local Open Scope Z_scope.

Section copy.
Context {G : Type → Type → Type} `{StableGraph G} `{!Undirected G} `{WebText}.
Context {U : Type} `{Countable U} `{UuidText U} {J D : Type} `{EqDecision J}.
Context `{Facet J VisitHistoryFacet} `{Facet J (list NodeImportProvenance)} `{Facet J (list NodeDerivation)}.

Abbreviation Graph := (KGraph (G := G) (N := Node U) (Id := U) (R := Rest (U := U) (J := J) (D := D))).
Implicit Types (g source : Graph) (i j : U) (key : Z) (env : Env U) (source_graph : option string).
Abbreviation text := uuid_to_string.
Abbreviation wf := (kg_wf n_id).

(** ** One node *)

Definition copied_node (n : Node U) (id : U) : Node U :=
  mkNode id (n_addresses n) (n_content n) (n_body n) (n_media_type n) (n_title n) (n_tags n) None (n_images n).
Definition copied_from (n : Node U) source_graph : NodeDerivation := mkNodeDerivation CopiedFrom (text (n_id n)) source_graph.

Definition copy_node_from_with_id env g (id : U) (n : Node U) source_graph : option (Graph * Z) :=
  url ← as_url_str <$> primary_address n;
  let '(key, i) := graph_insert n_id (k_inner g) (copied_node n id) in
  let g := with_inner i g in
  let g := (set_node_facet g key PROVENANCE_DERIVATIONS [copied_from n source_graph]).1 in
  let g := (set_node_facet g key VISIT_HISTORY (mkVisitHistory (Some (now_ms env)) 0)).1 in
  Some (bump_revision (push_url url key g), key).
Definition copy_node_from env g (n : Node U) source_graph : option (Graph * Z) := copy_node_from_with_id env g (new_uuid env) n source_graph.

(** ** A component *)

Record ComponentCopy : Type := mkCopy { new_keys : list Z; id_remap : list (U * U) }.

Definition content_facets : list string := [PRESENTATION_TAGS; SEMANTIC_CLASSIFICATIONS; SEMANTIC_PROPERTIES].
Definition carry_facet source (source_id : U) (new_key : Z) g (facet : string) : option Graph :=
  match facet_get (r_facets (k_rest source)) source_id facet with
  | None => Some g
  | Some value =>
      id ← node_id_of g new_key;
      match facet_set (r_facets (k_rest g)) id facet value accept_all with Ok st => Some (with_facets st g) | Err _ => None end
  end.

Definition copy_one source source_graph (acc : Graph * gmap Z Z * ComponentCopy) (ek : Env U * Z) : option (Graph * gmap Z Z * ComponentCopy) :=
  let '(g, remap, copy) := acc in
  match get_node source ek.2 with
  | None => Some acc
  | Some n =>
      gk ← copy_node_from ek.1 g n source_graph;
      let '(g, key) := gk in
      g ← foldM (carry_facet source (n_id n) key) content_facets g;
      Some (g, <[ek.2 := key]> remap,
            mkCopy (new_keys copy ++ [key]) (id_remap copy ++ match node_id_of g key with Some i => [(n_id n, i)] | None => [] end))
  end.

(** One edge of the source, when both its ends were copied. *)
Definition copy_edge (remap : gmap Z Z) g (e : Z * (Z * Z * EdgePayload)) : Graph :=
  match remap !! e.2.1.1, remap !! e.2.1.2 with
  | Some from, Some to => (connect_edge from to e.2.2 g).2
  | _, _ => g
  end.

(** [envs] is what each mint reads, in order. *)
Definition copy_component_from (envs : list (Env U)) g source (seed : U) source_graph : option (Graph * ComponentCopy) :=
  match get_node_key_by_id source seed with
  | None => Some (g, mkCopy [] [])
  | Some seed_key =>
      comps ← weakly_connected_components source;
      let component := match list_find (λ c, seed_key ∈ c) comps with Some (_, c) => c | None => [seed_key] end in
      acc ← foldM (copy_one source source_graph) (zip envs component) (g, ∅, mkCopy [] []);
      let '(g, remap, copy) := acc in
      Some (bump_revision (fold_left (copy_edge remap) (bt_iter (sg_edges (inner (k_inner source)))) g), copy)
  end.

(** ** Writing facets of one node *)

Definition write_facets key (W : list (string * J)) g : Graph := fold_left (λ g fv, (set_node_facet_value g key fv.1 fv.2).1) W g.

Record same_but_facets g g' : Prop := {
  sf_inner : k_inner g' = k_inner g;
  sf_urls : url_to_nodes (k_rest g') = url_to_nodes (k_rest g);
  sf_records : import_records (k_rest g') = import_records (k_rest g)
}.
Lemma set_facet_same g key f v : same_but_facets g (set_node_facet_value g key f v).1.
Proof. unfold set_node_facet_value. destruct (node_id_of g key); [case_bool_decide|]; done. Qed.
Lemma write_facets_same key W g : same_but_facets g (write_facets key W g).
Proof.
  revert g. induction W as [|[f v] W IH]; intros g; [done|]. destruct (IH (set_node_facet_value g key f v).1) as [H1' H2' H3'].
  destruct (set_facet_same g key f v) as [H4' H5' H6']. split; cbn; by etrans.
Qed.

Lemma write_facets_inv key W g i :
  k_inv g → get_node_key_by_id g i = Some key → Forall (λ fv, fv.1 ≠ PROVENANCE_IMPORT) W → k_inv (write_facets key W g).
Proof.
  revert g. induction W as [|[f v] W IH]; intros g Hg Hk Hall; [done|]. apply Forall_cons in Hall as [Hf Hall]. apply IH; [by eapply inv_set_facet| |done].
  unfold get_node_key_by_id. by rw (sf_inner _ _ (set_facet_same g key f v)).
Qed.

Lemma write_facets_of key W g i j f :
  NoDup W.*1 → node_id_of g key = Some i →
  facet_of (write_facets key W g) j f = if decide (j = i) then match (list_to_map W : gmap string J) !! f with Some v => Some v | None => facet_of g i f end else facet_of g j f.
Proof.
  intros Hn Hk. revert g Hk. induction W as [|[f' v] W IH]; intros g Hk; [cbn; rw lookup_empty; case_decide; by subst|].
  apply NoDup_cons in Hn as [Hf' Hn]. change (write_facets key ((f', v) :: W) g) with (write_facets key W (set_node_facet_value g key f' v).1).
  rw IH //; cycle 1.
  { unfold node_id_of, get_node. by rw (sf_inner _ _ (set_facet_same g key f' v)). }
  rw !(set_facet_of g key i) //. case_decide as Hj; [|by rw decide_False; [|naive_solver]]. cbn [list_to_map foldr fst snd].
  destruct (decide (f = f')) as [->|Hf].
  - rw lookup_insert_eq (not_elem_of_list_to_map_1 W f') // decide_True //.
  - rw lookup_insert_ne // (decide_False (P := i = i ∧ f = f')) //. naive_solver.
Qed.

Lemma write_facets_bump key W g : write_facets key W (bump_revision g) = bump_revision (write_facets key W g).
Proof.
  revert g. induction W as [|[f v] W IH]; intros g; [done|]. change (write_facets key ((f, v) :: W) ?x) with (write_facets key W (set_node_facet_value x key f v).1).
  rw -IH. f_equal. unfold set_node_facet_value. change (node_id_of (bump_revision g) key) with (node_id_of g key). destruct (node_id_of g key); [|done].
  change (r_facets (k_rest (bump_revision g))) with (r_facets (k_rest g)). by case_bool_decide.
Qed.

(** Writing through the store directly is the setter's write. *)
Lemma store_write g key i f v :
  node_id_of g key = Some i → with_facets (<[i := <[f := v]> (default ∅ (r_facets (k_rest g) !! i))]> (r_facets (k_rest g))) g = (set_node_facet_value g key f v).1.
Proof.
  intros Hi. unfold set_node_facet_value. rw Hi. case_bool_decide as Hd; [|done]. cbn. destruct g as [gi gr rest]. cbn in *. unfold facet_get in Hd.
  destruct (r_facets rest !! i) as [fs|] eqn:Ei; [|done]. cbn in *. rw (insert_id fs) // insert_id //. by destruct rest.
Qed.

(** The facets a component copy carries over. *)
Definition content_of source i : list (string * J) := omap (λ f, (λ v, (f, v)) <$> facet_of source i f) content_facets.

Lemma carry_one source i key g j f :
  node_id_of g key = Some j →
  carry_facet source i key g f = Some (match facet_of source i f with Some v => (set_node_facet_value g key f v).1 | None => g end).
Proof.
  intros Hj. unfold carry_facet, facet_of. destruct (facet_get (r_facets (k_rest source)) i f) as [v|]; [|done]. rw Hj. cbn [mbind option_bind facet_set accept_all].
  by rw (store_write g key j f v Hj).
Qed.
Lemma carry_writes source i key g j fs :
  node_id_of g key = Some j → foldM (carry_facet source i key) fs g = Some (write_facets key (omap (λ f, (λ v, (f, v)) <$> facet_of source i f) fs) g).
Proof.
  revert g. induction fs as [|f fs IH]; intros g Hj; [done|]. rw foldM_cons (carry_one source i key g j f Hj). cbn [mbind option_bind omap list_omap].
  destruct (facet_of source i f) as [v|]; cbn [fmap option_fmap option_map]; [|by apply IH]. rw IH; [done|].
  unfold node_id_of, get_node. by rw (sf_inner _ _ (set_facet_same g key f v)).
Qed.

(** ** One copied node *)

(** Everything the copy of a node has on the side. *)
Definition copied_facets source (n : Node U) source_graph (at_ms : Z) : list (string * J) :=
  [(PROVENANCE_DERIVATIONS, to_value [copied_from n source_graph]); (VISIT_HISTORY, to_value (mkVisitHistory (Some at_ms) 0))] ++ content_of source (n_id n).

Lemma copied_facets_names source n source_graph at_ms :
  NoDup (copied_facets source n source_graph at_ms).*1 ∧ Forall (λ fv, fv.1 ≠ PROVENANCE_IMPORT) (copied_facets source n source_graph at_ms).
Proof.
  unfold copied_facets, content_of, content_facets. cbn. destruct (facet_of source (n_id n) PRESENTATION_TAGS), (facet_of source (n_id n) SEMANTIC_CLASSIFICATIONS), (facet_of source (n_id n) SEMANTIC_PROPERTIES); cbn.
  all: split; [apply (bool_decide_eq_true_1 (NoDup _)); by vm_compute|repeat (constructor; [done|]); constructor].
Qed.

Lemma set_facet_push g url key key' f v : (set_node_facet_value (push_url url key g) key' f v).1 = push_url url key (set_node_facet_value g key' f v).1.
Proof.
  unfold set_node_facet_value. change (node_id_of (push_url url key g) key') with (node_id_of g key'). destruct (node_id_of g key'); [|done].
  change (r_facets (k_rest (push_url url key g))) with (r_facets (k_rest g)). by case_bool_decide.
Qed.

(** [g'] is [g] with a node under [key], its facets, and nothing else. *)
Record minted g g' key (n : Node U) (W : list (string * J)) : Prop := {
  mi_inv : k_inv g';
  mi_free : get_node g key = None;
  mi_node k : get_node g' k = if decide (k = key) then Some n else get_node g k;
  mi_key j : get_node_key_by_id g' j = if decide (j = n_id n) then Some key else get_node_key_by_id g j;
  mi_bucket a b : id_bucket g' a b = id_bucket g a b;
  mi_facet j f : facet_of g' j f = if decide (j = n_id n) then (list_to_map W : gmap string J) !! f else facet_of g j f;
  mi_records : import_records (k_rest g') = import_records (k_rest g)
}.

Lemma copy_one_mints source source_graph g remap copy env old n a :
  k_inv g → get_node_key_by_id g (new_uuid env) = None → get_node source old = Some n → n_addresses n = [a] →
  ∃ g' key, minted g g' key (copied_node n (new_uuid env)) (copied_facets source n source_graph (now_ms env)) ∧
    copy_one source source_graph (g, remap, copy) (env, old) =
      Some (g', <[old := key]> remap, mkCopy (new_keys copy ++ [key]) (id_remap copy ++ [(n_id n, new_uuid env)])).
Proof.
  intros Hg Hi Hn Ha. set (m := copied_node n (new_uuid env)). set (url := as_url_str a). set (W := copied_facets source n source_graph (now_ms env)).
  destruct (placed_with_spec g m a url Hg Hi Ha eq_refl) as (key & Hkey & Hfree & Hpi & Hrest & Hnode & Hid & Hbucket).
  pose proof (copied_facets_names source n source_graph (now_ms env)) as [Hnd Himp]. fold W in Hnd, Himp.
  assert (get_node_key_by_id (placed_with g m url) (n_id m) = Some key) as Hk by by rw Hid decide_True.
  assert (node_id_of (placed_with g m url) key = Some (n_id m)) as Hik by (by apply node_id_key; [apply iv_wf|]).
  set (g' := bump_revision (write_facets key W (placed_with g m url))). pose proof (write_facets_same key W (placed_with g m url)) as [S1 S2 S3].
  exists g', key. split.
  - split.
    + apply (inv_ext (write_facets key W (placed_with g m url))); [done..|]. by eapply write_facets_inv.
    + done.
    + intros k. rw -Hnode. by apply get_node_inner.
    + intros j. rw -Hid. unfold get_node_key_by_id. by rw -S1.
    + intros x y. rw -Hbucket. unfold id_bucket, get_node_key_by_id, pair_bucket, find_edge_key, get_edge. by rw -S1.
    + intros j f. change (facet_of g' j f) with (facet_of (write_facets key W (placed_with g m url)) j f). rw (write_facets_of key W _ (n_id m) j f Hnd Hik).
      assert (∀ x y, facet_of (placed_with g m url) x y = facet_of g x y) as Hfo by (intros; unfold facet_of; by rw Hrest). rw !Hfo.
      case_decide; [|done]. destruct (list_to_map W !! f) as [v|]; [done|]. unfold facet_of, facet_get. by rw (dead_facets g (n_id m) Hg Hi).
    + etrans; [apply S3|]. by rw Hrest.
  - unfold copy_one, copy_node_from, copy_node_from_with_id. cbn [fst snd]. rw Hn. unfold primary_address. rw Ha. cbn [head fmap option_fmap option_map mbind option_bind].
    fold m url. unfold placed_with in *. destruct (graph_insert n_id (k_inner g) m) as [key' ig]. cbn [fst] in Hkey. subst key'.
    unfold set_node_facet. rw -!set_facet_push. cbn [mbind option_bind].
    match goal with |- context [foldM _ content_facets (bump_revision ?x)] => set (h := x) end.
    assert (node_id_of h key = Some (n_id m)) as Hh.
    { unfold h, node_id_of, get_node. rw (sf_inner _ _ (set_facet_same _ _ _ _)) (sf_inner _ _ (set_facet_same _ _ _ _)). exact Hik. }
    rw (carry_writes source (n_id n) key (bump_revision h) (n_id m) content_facets Hh). cbn [mbind option_bind].
    rw write_facets_bump. change (bump_revision (write_facets key _ h)) with g'. assert (node_id_of g' key = Some (n_id m)) as ->; [|done].
    unfold node_id_of, get_node. change (k_inner g') with (k_inner (write_facets key W (push_url url key (with_inner ig g)))). by rw S1.
Qed.

Lemma minted_live g g' key n W j : minted g g' key n W → live_id g' j ↔ j = n_id n ∨ live_id g j.
Proof.
  intros I. unfold live_id. rw (mi_key _ _ _ _ _ I). case_decide as Hj; [split; [by left|by eexists]|]. split; [by right|]. by intros [|].
Qed.

(** ** All nodes of a component *)

Section nodes.
Context g0 source (source_graph : option string).
Hypothesis Hsource : k_inv source.

Abbreviation new_id := (λ ek : Env U * Z, new_uuid ek.1).
Definition remapped (done : list (Env U * Z)) : list (U * U) := omap (λ ek, (λ n, (n_id n, new_id ek)) <$> get_node source ek.2) done.

Record copying (done : list (Env U * Z)) g (remap : gmap Z Z) (copy : ComponentCopy) : Prop := {
  cp_inv : k_inv g;
  cp_node env old n : (env, old) ∈ done → get_node source old = Some n → ∃ key, remap !! old = Some key ∧
    get_node_key_by_id g (new_uuid env) = Some key ∧ get_node g key = Some (copied_node n (new_uuid env)) ∧
    ∀ f, facet_of g (new_uuid env) f = (list_to_map (copied_facets source n source_graph (now_ms env)) : gmap string J) !! f;
  cp_dom old : is_Some (remap !! old) → old ∈ done.*2;
  cp_old i : live_id g0 i → get_node_key_by_id g i = get_node_key_by_id g0 i ∧ node_at g i = node_at g0 i ∧ ∀ f, facet_of g i f = facet_of g0 i f;
  cp_live i : live_id g i ↔ live_id g0 i ∨ i ∈ new_id <$> done;
  cp_bucket a b : id_bucket g a b = id_bucket g0 a b;
  cp_records : import_records (k_rest g) = import_records (k_rest g0);
  cp_ids : id_remap copy = remapped done;
  cp_keys : Forall2 (λ p k, get_node_key_by_id g p.2 = Some k) (id_remap copy) (new_keys copy)
}.

Lemma copying_start : k_inv g0 → copying [] g0 ∅ (mkCopy [] []).
Proof.
  intros Hg. split; try done.
  - by intros env old n ?%elem_of_nil.
  - intros old. rw lookup_empty. by intros [].
  - intros i. cbn. rw elem_of_nil. tauto.
Qed.

Lemma copying_step done g remap copy env old n :
  copying done g remap copy → get_node source old = Some n → old ∉ done.*2 → ¬ live_id g (new_uuid env) →
  ∃ g' remap' copy', copy_one source source_graph (g, remap, copy) (env, old) = Some (g', remap', copy') ∧ copying (done ++ [(env, old)]) g' remap' copy'.
Proof.
  intros C Hn Hold Hfresh. apply eq_None_not_Some in Hfresh. destruct (iv_address source Hsource old n Hn) as [a Ha].
  destruct (copy_one_mints source source_graph g remap copy env old n a (cp_inv _ _ _ _ C) Hfresh Hn Ha) as (g' & key & I & Hc).
  do 3 eexists. split; [exact Hc|]. clear Hc. cbn [n_id copied_node] in *. set (i' := new_uuid env) in *.
  assert (∀ j, live_id g j → get_node_key_by_id g' j = get_node_key_by_id g j ∧ node_at g' j = node_at g j ∧ ∀ f, facet_of g' j f = facet_of g j f) as Hkeep.
  { intros j [k Hk]. assert (j ≠ i') as Hj by congruence. assert (get_node_key_by_id g' j = get_node_key_by_id g j) as Hk' by (rw (mi_key _ _ _ _ _ I); cbn; by rw decide_False).
    split_and!; [done| |intros f; rw (mi_facet _ _ _ _ _ I); cbn; by rw decide_False]. unfold node_at. rw Hk' Hk. cbn. rw (mi_node _ _ _ _ _ I) decide_False //.
    intros ->. destruct (key_node g j key (iv_wf _ (cp_inv _ _ _ _ C)) Hk) as (m & Hm & _). pose proof (mi_free _ _ _ _ _ I). congruence. }
  split.
  - apply I.
  - intros env' old' n' [Hin| [= -> ->]%list_elem_of_singleton]%elem_of_app Hn'.
    + destruct (cp_node _ _ _ _ C env' old' n' Hin Hn') as (k & Hr & Hk & Hnode & Hf). assert (live_id g (new_uuid env')) as Hl by by exists k.
      destruct (Hkeep _ Hl) as (Hk' & Hat & Hf'). exists k. split_and!.
      * rw lookup_insert_ne //. intros ->. apply Hold. by apply (list_elem_of_fmap_2 snd) in Hin.
      * by rw Hk'.
      * unfold node_at in Hat. rw Hk' Hk in Hat. cbn in Hat. by rw Hat.
      * intros f. by rw Hf'.
    + simplify_eq. exists key. split_and!; [apply lookup_insert_eq|rw (mi_key _ _ _ _ _ I); cbn; by rw decide_True|by rw (mi_node _ _ _ _ _ I) decide_True|].
      intros f. rw (mi_facet _ _ _ _ _ I). cbn. by rw decide_True.
  - intros old' Ho. rw fmap_app elem_of_app. cbn. rw list_elem_of_singleton. destruct (decide (old' = old)) as [|Hne]; [by right|left].
    apply (cp_dom _ _ _ _ C). by rw lookup_insert_ne // in Ho.
  - intros j Hj. destruct (cp_old _ _ _ _ C j Hj) as (Hk & Hat & Hf). destruct (Hkeep j) as (Hk' & Hat' & Hf'); [unfold live_id; by rw Hk|].
    split_and!; [by etrans|by etrans|]. intros f. by rw Hf'.
  - intros j. rw (minted_live _ _ _ _ _ j I) (cp_live _ _ _ _ C) fmap_app elem_of_app. cbn. rw list_elem_of_singleton. tauto.
  - intros x y. by rw (mi_bucket _ _ _ _ _ I) (cp_bucket _ _ _ _ C).
  - by rw (mi_records _ _ _ _ _ I) (cp_records _ _ _ _ C).
  - cbn. rw (cp_ids _ _ _ _ C). unfold remapped. rw omap_app. cbn [omap list_omap snd fst]. by rw Hn.
  - cbn [id_remap new_keys]. apply Forall2_app; [|repeat constructor; rw (mi_key _ _ _ _ _ I); cbn; by rw decide_True].
    eapply Forall2_impl; [apply (cp_keys _ _ _ _ C)|]. intros [x y] k Hk. cbn [snd] in *. destruct (Hkeep y) as (-> & _); [by exists k|done].
Qed.

Lemma copying_all todo done g remap copy :
  copying done g remap copy → NoDup (new_id <$> (done ++ todo)) → NoDup (done ++ todo).*2 → (∀ ek, ek ∈ todo → is_Some (get_node source ek.2) ∧ ¬ live_id g0 (new_id ek)) →
  ∃ g' remap' copy', foldM (copy_one source source_graph) todo (g, remap, copy) = Some (g', remap', copy') ∧ copying (done ++ todo) g' remap' copy'.
Proof.
  revert done g remap copy. induction todo as [|[env old] todo IH]; intros done g remap copy C Hids Holds Hall; [rw app_nil_r; by exists g, remap, copy|].
  destruct (Hall (env, old)) as [[n Hn] Hf]; [by left|]. cbn [fst snd] in Hn, Hf.
  assert (done ++ (env, old) :: todo = (done ++ [(env, old)]) ++ todo) as Heq by by rw -app_assoc. rw Heq in Hids Holds |- *.
  destruct (copying_step done g remap copy env old n C Hn) as (g' & remap' & copy' & Hc & C').
  - rw !fmap_app in Holds. apply NoDup_app in Holds as (Hd & _). apply NoDup_app in Hd as (_ & Hd & _). intros Hin. apply (Hd _ Hin). by left.
  - intros [Hl|Hl]%(cp_live _ _ _ _ C); [by apply Hf|]. rw !fmap_app in Hids. apply NoDup_app in Hids as (Hd & _). apply NoDup_app in Hd as (_ & Hd & _). apply (Hd _ Hl). by left.
  - rw foldM_cons Hc. cbn [mbind option_bind]. apply IH; [done|done|done|]. intros ek Hek. apply Hall. by right.
Qed.
End nodes.

(** ** All edges among them *)

Section edges.
Context source (h : Graph) (remap : gmap Z Z).
Hypothesis Hsource : wf source.
Hypothesis Hwf : wf h.
Hypothesis remap_inj : ∀ a b x, remap !! a = Some x → remap !! b = Some x → a = b.
Hypothesis remap_live : ∀ a x, remap !! a = Some x → is_Some (get_node h x).
Hypothesis remap_bare : ∀ a b x y, remap !! a = Some x → remap !! b = Some y → pair_bucket h x y = None.

Abbreviation edges_of g := (sg_edges (inner (k_inner g))).

(** The copies [x] and [y] stand for the ends of this edge. *)
Definition stands (e : Z * (Z * Z * EdgePayload)) (x y : Z) : Prop := remap !! e.2.1.1 = Some x ∧ remap !! e.2.1.2 = Some y.

Record connecting (done : list (Z * (Z * Z * EdgePayload))) g : Prop := {
  co_same : same_nodes h g;
  co_copied e x y : e ∈ done → stands e x y → pair_bucket g x y = Some e.2.2;
  co_others x y : (∀ e, e ∈ done → ¬ stands e x y) → pair_bucket g x y = pair_bucket h x y
}.

Lemma same_nodes_refl : same_nodes h h.
Proof. by split. Qed.

(** Distinct edges of the source stand for distinct pairs. *)
Lemma stands_once e e' x y : e ∈ bt_iter (edges_of source) → e' ∈ bt_iter (edges_of source) → stands e x y → stands e' x y → e = e'.
Proof.
  destruct e as [k [[a b] p]], e' as [k' [[a' b'] p']]. intros He%elem_of_bt_iter He'%elem_of_bt_iter [Ha Hb] [Ha' Hb']. cbn in *.
  assert (a' = a) as -> by by eapply remap_inj. assert (b' = b) as -> by by eapply remap_inj.
  assert (k = k') as <- by by eapply (kw_pair n_id source Hsource). rw He in He'. by simplify_eq.
Qed.

Lemma connecting_step done g e :
  connecting done g → (∀ e', e' ∈ done ++ [e] → e' ∈ bt_iter (edges_of source)) → e ∉ done → connecting (done ++ [e]) (copy_edge remap g e).
Proof.
  intros C Hin Hnew. unfold copy_edge. destruct (remap !! e.2.1.1) as [x|] eqn:Ex; [destruct (remap !! e.2.1.2) as [y|] eqn:Ey|].
  2,3: split; [apply C| |intros u v Hno; apply (co_others _ _ C); intros e' He'; apply Hno, elem_of_app; by left].
  2,3: intros e' u v [He'| ->%list_elem_of_singleton]%elem_of_app Hs; [by apply (co_copied _ _ C)|destruct Hs; congruence].
  assert (stands e x y) as Hs by by split. assert (∀ e', e' ∈ done → ¬ stands e' x y) as Hfree.
  { intros e' He' Hs'. apply Hnew. rw (stands_once e e' x y) //; apply Hin, elem_of_app; [right; by left|by left]. }
  destruct (co_same _ _ C) as [S1 S2 S3 S4]. pose proof (connect_edge_updates n_id g x y e.2.2) as Hu. destruct (connect_edge x y e.2.2 g) as [k g'] eqn:Ec.
  destruct Hu as (_ & _ & [U1 U2 U3 U4]).
  - done.
  - pose proof (remap_live _ x Ex) as Hx. by rw -S2 in Hx.
  - pose proof (remap_live _ y Ey) as Hy. by rw -S2 in Hy.
  - rw (co_others _ _ C) //. by eapply remap_bare.
  - destruct e as [k0 [[a b] p]]. apply (kw_payload n_id source Hsource k0 a b). apply elem_of_bt_iter, Hin, elem_of_app. right. by left.
  - cbn [snd]. split.
    + split; [done| | |].
      * intros z. rw -S2. unfold get_node, graph_node. by rw U2.
      * intros j. rw -S3. unfold get_node_key_by_id, key_of. by rw U3.
      * rw -S4. pose proof (connect_rest x y e.2.2 g) as Hr. by rw Ec in Hr.
    + intros e' u v [He'| ->%list_elem_of_singleton]%elem_of_app Hs'.
      * rw U4 decide_False; [by apply (co_copied _ _ C)|]. intros [-> ->]. by apply (Hfree e').
      * destruct Hs' as [Hu' Hv']. rw U4 decide_True //. split; congruence.
    + intros u v Hno. rw U4 decide_False; [apply (co_others _ _ C); intros e' He'; apply Hno, elem_of_app; by left|].
      intros [-> ->]. apply (Hno e); [apply elem_of_app; right; by left|done].
Qed.

Lemma connecting_all : connecting (bt_iter (edges_of source)) (fold_left (copy_edge remap) (bt_iter (edges_of source)) h).
Proof.
  assert (∀ todo done g, connecting done g → done ++ todo = bt_iter (edges_of source) → connecting (bt_iter (edges_of source)) (fold_left (copy_edge remap) todo g)) as Hall.
  { induction todo as [|e todo IH]; intros done g C Heq; [by rw -Heq app_nil_r|]. assert ((done ++ [e]) ++ todo = bt_iter (edges_of source)) as Heq' by by rw -Heq -app_assoc.
    cbn [fold_left]. apply (IH (done ++ [e])); [|done]. apply connecting_step; [done|intros e' He'; rw -Heq'; apply elem_of_app; by left|].
    intros Hin. pose proof (bt_iter_keys_NoDup (edges_of source)) as Hn%NoDup_fmap_1. rw -Heq' in Hn. apply NoDup_app in Hn as (Hn & _). apply NoDup_app in Hn as (_ & Hn & _).
    apply (Hn e Hin). by left. }
  apply (Hall _ []); [|done]. split; [apply same_nodes_refl|by intros e x y ?%elem_of_nil|done].
Qed.

(** The copies are linked as the nodes they stand for. *)
Lemma connected_pairs a b x y :
  remap !! a = Some x → remap !! b = Some y →
  pair_bucket (fold_left (copy_edge remap) (bt_iter (edges_of source)) h) x y = pair_bucket source a b.
Proof.
  intros Ha Hb. destruct (pair_bucket source a b) as [p|] eqn:Ep.
  - apply (pair_bucket_spec n_id source a b p Hsource) in Ep as [k Hk]. by apply (co_copied _ _ connecting_all (k, (a, b, p))); [apply elem_of_bt_iter|].
  - rw (co_others _ _ connecting_all); [by eapply remap_bare|]. intros [k [[a' b'] p]] He%elem_of_bt_iter [Ha' Hb']. cbn in *.
    assert (a' = a) as -> by by eapply remap_inj. assert (b' = b) as -> by by eapply remap_inj.
    apply (pair_bucket_None n_id source a b Hsource) in He; done.
Qed.
End edges.

(** ** A fork *)

(** [g'] is [g] and, apart from it, a copy of the component of [seed_key] in
    [source]. *)
Record forked g source (seed_key : Z) source_graph g' (copy : ComponentCopy) : Prop := {
  fk_inv : k_inv g';
  (** The copied nodes are those connected to the seed, each copied once, under an id of its own. *)
  fk_sources i : i ∈ (id_remap copy).*1 ↔ ∃ b, get_node_key_by_id source i = Some b ∧ rtc (linked source) seed_key b;
  fk_once : NoDup (id_remap copy).*1 ∧ NoDup (id_remap copy).*2;
  fk_live i : live_id g' i ↔ live_id g i ∨ i ∈ (id_remap copy).*2;
  fk_fresh i : i ∈ (id_remap copy).*2 → ¬ live_id g i;
  fk_keys : Forall2 (λ p k, get_node_key_by_id g' p.2 = Some k) (id_remap copy) (new_keys copy);
  (** A copy has the content of its source but what it bears, and the facets of a copy. *)
  fk_node i i' : (i, i') ∈ id_remap copy → ∃ n at_ms, node_at source i = Some n ∧ node_at g' i' = Some (copied_node n i') ∧
    ∀ f, facet_of g' i' f = (list_to_map (copied_facets source n source_graph at_ms) : gmap string J) !! f;
  (** Copies are related exactly as their sources. *)
  fk_edges i i' j j' : (i, i') ∈ id_remap copy → (j, j') ∈ id_remap copy → id_bucket g' i' j' = id_bucket source i j;
  (** What was there is untouched, and not related to the copies. *)
  fk_kept i : live_id g i → node_at g' i = node_at g i ∧ ∀ f, facet_of g' i f = facet_of g i f;
  fk_kept_edges i j : live_id g i ∨ live_id g j → id_bucket g' i j = id_bucket g i j;
  fk_records : import_records (k_rest g') = import_records (k_rest g)
}.

Lemma zip_fst_prefix {A B} (l : list A) (k : list B) : (zip l k).*1 `prefix_of` l.
Proof. revert k. induction l as [|x l IH]; intros [|y k]; cbn; try apply prefix_nil. apply prefix_cons, IH. Qed.

Lemma remapped_parts source done :
  (∀ ek, ek ∈ done → is_Some (get_node source ek.2)) →
  (remapped source done).*1 = omap (node_id_of source) done.*2 ∧ (remapped source done).*2 = new_uuid <$> done.*1.
Proof.
  induction done as [|[env old] done IH]; intros Hall; [done|]. destruct IH as [IH1 IH2]; [intros ek Hek; apply Hall; by right|].
  destruct (Hall (env, old)) as [n Hn]; [by left|]. cbn [snd] in Hn. assert (node_id_of source old = Some (n_id n)) as Hi by (unfold node_id_of; by rw Hn).
  unfold remapped. cbn [omap list_omap fmap list_fmap fst snd]. rw Hn Hi. cbn [fmap option_fmap option_map list_fmap fst snd]. split; f_equal; done.
Qed.
Lemma elem_of_remapped source done i i' :
  (i, i') ∈ remapped source done ↔ ∃ env old n, (env, old) ∈ done ∧ get_node source old = Some n ∧ i = n_id n ∧ i' = new_uuid env.
Proof.
  unfold remapped. rw list_elem_of_omap. split.
  - intros ([env old] & Hin & (n & Hn & [= -> ->])%fmap_Some). by exists env, old, n.
  - intros (env & old & n & Hin & Hn & -> & ->). exists (env, old). split; [done|]. cbn [fst snd]. by rw Hn.
Qed.

Section fork.
Context g source (source_graph : option string) (done : list (Env U * Z)) (h : Graph) (remap : gmap Z Z) (copy : ComponentCopy).
Hypothesis Hsource : k_inv source.
Hypothesis C : copying g source source_graph done h remap copy.
Hypothesis Hids : NoDup (new_uuid <$> done.*1).
Hypothesis Hlive : ∀ ek, ek ∈ done → is_Some (get_node source ek.2) ∧ ¬ live_id g (new_uuid ek.1).

Lemma remap_spec old x : remap !! old = Some x → ∃ env n, (env, old) ∈ done ∧ get_node source old = Some n ∧
  get_node_key_by_id h (new_uuid env) = Some x ∧ get_node h x = Some (copied_node n (new_uuid env)).
Proof.
  intros Hx. assert (old ∈ done.*2) as ([env old'] & Ho & Hin)%list_elem_of_fmap by (apply (cp_dom _ _ _ _ _ _ _ C); by exists x). cbn in Ho. subst old'. destruct (Hlive (env, old) Hin) as [[n Hn] _]. cbn in *.
  destruct (cp_node _ _ _ _ _ _ _ C env old n Hin Hn) as (k & Hk & Hi & Hg & _). exists env, n. by simplify_eq.
Qed.
Lemma minted_once env env' old old' : (env, old) ∈ done → (env', old') ∈ done → new_uuid env = new_uuid env' → old = old'.
Proof.
  intros Hi Hi' He. assert (NoDup ((λ ek : Env U * Z, new_uuid ek.1) <$> done)) as Hn by (pose proof Hids as Hn; by rw -list_fmap_compose in Hn).
  apply list_elem_of_lookup_1 in Hi as [m Hm]. apply list_elem_of_lookup_1 in Hi' as [m' Hm'].
  assert (m = m') as <-; [|by rw Hm in Hm'; simplify_eq]. eapply (NoDup_lookup _ _ _ (new_uuid env) Hn); rw list_lookup_fmap ?Hm ?Hm'; cbn; [done|by rw He].
Qed.
Lemma fork_inj a b x : remap !! a = Some x → remap !! b = Some x → a = b.
Proof.
  intros (env & n & Hin & _ & _ & Hx)%remap_spec (env' & n' & Hin' & _ & _ & Hx')%remap_spec. rw Hx in Hx'.
  apply (f_equal (fmap n_id)) in Hx'. cbn in Hx'. injection Hx' as He.
  by eapply minted_once.
Qed.
Lemma fork_live a x : remap !! a = Some x → is_Some (get_node h x).
Proof. intros (env & n & _ & _ & _ & Hx)%remap_spec. by eexists. Qed.
Lemma fork_bare a b x y : remap !! a = Some x → remap !! b = Some y → pair_bucket h x y = None.
Proof.
  intros (env & n & Hin & _ & Hx & _)%remap_spec (env' & n' & _ & _ & Hy & _)%remap_spec. pose proof (cp_bucket _ _ _ _ _ _ _ C (new_uuid env) (new_uuid env')) as Hb.
  destruct (Hlive _ Hin) as [_ Hno%eq_None_not_Some]. unfold id_bucket in Hb. rw Hx Hy Hno in Hb. exact Hb.
Qed.

Abbreviation connected := (fold_left (copy_edge remap) (bt_iter (sg_edges (inner (k_inner source)))) h).
Abbreviation result := (bump_revision connected).

Lemma fork_connecting : connecting h remap (bt_iter (sg_edges (inner (k_inner source)))) connected.
Proof. apply connecting_all; [by apply iv_wf|apply iv_wf, C|apply fork_inj|apply fork_live|apply fork_bare]. Qed.
Lemma fork_same : same_nodes h result.
Proof. destruct (co_same _ _ _ _ fork_connecting) as [S1 S2 S3 S4]. split; [by apply (wf_inner connected)|exact S2|exact S3|exact S4]. Qed.

Lemma fork_key i : get_node_key_by_id result i = get_node_key_by_id h i.
Proof. apply fork_same. Qed.
Lemma fork_node i : node_at result i = node_at h i.
Proof. unfold node_at. rw fork_key. destruct (get_node_key_by_id h i) as [k|]; [|done]. apply fork_same. Qed.
Lemma fork_facet i f : facet_of result i f = facet_of h i f.
Proof. unfold facet_of. by rw (sn_rest _ _ fork_same). Qed.

Lemma fork_edges i i' j j' : (i, i') ∈ remapped source done → (j, j') ∈ remapped source done → id_bucket result i' j' = id_bucket source i j.
Proof.
  intros (env & a & n & Hin & Hn & -> & ->)%elem_of_remapped (env' & b & m & Hin' & Hm & -> & ->)%elem_of_remapped.
  destruct (cp_node _ _ _ _ _ _ _ C env a n Hin Hn) as (x & Hx & Hi & _). destruct (cp_node _ _ _ _ _ _ _ C env' b m Hin' Hm) as (y & Hy & Hj & _).
  unfold id_bucket. rw !fork_key Hi Hj (node_key source a n (iv_wf _ Hsource) Hn) (node_key source b m (iv_wf _ Hsource) Hm). cbn [mbind option_bind].
  change (pair_bucket result x y) with (pair_bucket connected x y). apply connected_pairs; [by apply iv_wf|apply iv_wf, C|apply fork_inj|apply fork_live|apply fork_bare|done|done].
Qed.
Lemma fork_kept_edges i j : live_id g i ∨ live_id g j → id_bucket result i j = id_bucket g i j.
Proof.
  intros Hl. rw -(cp_bucket _ _ _ _ _ _ _ C). unfold id_bucket. rw !fork_key. destruct (get_node_key_by_id h i) as [x|] eqn:Hx; [|done].
  destruct (get_node_key_by_id h j) as [y|] eqn:Hy; [|done]. cbn [mbind option_bind]. change (pair_bucket result x y) with (pair_bucket connected x y).
  apply (co_others _ _ _ _ fork_connecting). intros e _ [(env & n & Hin & _ & Hx' & _)%remap_spec (env' & n' & Hin' & _ & Hy' & _)%remap_spec].
  assert (i = new_uuid env) as -> by by eapply (key_inj n_id h _ _ x (iv_wf _ (cp_inv _ _ _ _ _ _ _ C))).
  assert (j = new_uuid env') as -> by by eapply (key_inj n_id h _ _ y (iv_wf _ (cp_inv _ _ _ _ _ _ _ C))).
  destruct Hl as [Hl|Hl]; [by apply (Hlive _ Hin)|by apply (Hlive _ Hin')].
Qed.

Lemma fork_spec seed_key :
  NoDup done.*2 → (∀ b, b ∈ done.*2 ↔ rtc (linked source) seed_key b) → forked g source seed_key source_graph result copy.
Proof.
  intros Holds Hcomp. destruct (remapped_parts source done) as [Hr1 Hr2]; [intros ek Hek; by apply Hlive|]. pose proof (iv_wf _ Hsource) as Hw.
  assert ((remapped source done).*2 = (λ ek : Env U * Z, new_uuid ek.1) <$> done) as Hr2' by (rw Hr2 -list_fmap_compose //).
  split; rw ?(cp_ids _ _ _ _ _ _ _ C).
  - eapply inv_same_nodes; [apply C|apply fork_same].
  - intros i. rw Hr1 list_elem_of_omap. setoid_rewrite Hcomp. setoid_rewrite (λ b, node_id_key source b i Hw). split; intros (b & ? & ?); eauto.
  - rw Hr1 Hr2. split; [by apply NoDup_omap_ids|done].
  - intros i. unfold live_id at 1. rw fork_key Hr2'. apply (cp_live _ _ _ _ _ _ _ C).
  - intros i. rw Hr2'. intros (ek & -> & Hek)%list_elem_of_fmap. by apply Hlive.
  - rw -(cp_ids _ _ _ _ _ _ _ C). eapply Forall2_impl; [apply (cp_keys _ _ _ _ _ _ _ C)|]. intros p k. by rw fork_key.
  - intros i i' (env & a & n & Hin & Hn & -> & ->)%elem_of_remapped. destruct (cp_node _ _ _ _ _ _ _ C env a n Hin Hn) as (x & _ & Hi & Hx & Hf).
    exists n, (now_ms env). split_and!.
    + unfold node_at. by rw (node_key source a n Hw Hn).
    + rw fork_node. unfold node_at. by rw Hi.
    + intros f. by rw fork_facet.
  - apply fork_edges.
  - intros i Hi. destruct (cp_old _ _ _ _ _ _ _ C i Hi) as (_ & Hn & Hf). rw fork_node. split; [done|]. intros f. by rw fork_facet.
  - apply fork_kept_edges.
  - rw (sn_rest _ _ fork_same). apply C.
Qed.
End fork.

(** ** The component of a seed *)

Lemma component_found source seed_key comps :
  wf source → is_Some (get_node source seed_key) → weakly_connected_components source = Some comps →
  ∃ n c, list_find (λ c, seed_key ∈ c) comps = Some (n, c) ∧ NoDup c ∧ (∀ b, b ∈ c ↔ rtc (linked source) seed_key b) ∧ ∀ b, b ∈ c → is_Some (get_node source b).
Proof.
  intros Hw Hs Hc. destruct (components_of source Hw) as (comps' & Hc' & Hp & _ & Hcl). rw Hc in Hc'. injection Hc' as <-.
  assert (∀ b, b ∈ concat comps ↔ is_Some (get_node source b)) as Hin.
  { intros b. rw Hp node_indices_nodes list_elem_of_fmap. split; [intros ([? m] & -> & ?%elem_of_map_to_list); by exists m|]. intros [m Hm]. exists (b, m). by rw elem_of_map_to_list. }
  apply Hin in Hs. apply list_elem_of_In, in_concat in Hs as (c0 & Hc0%list_elem_of_In & Hs0%list_elem_of_In).
  destruct (list_find_elem_of (λ c, seed_key ∈ c) comps c0 Hc0 Hs0) as [[n c] Hf]. exists n, c. apply list_find_Some in Hf as Hf'. destruct Hf' as (Hn & Hsc & _).
  apply list_elem_of_lookup_2 in Hn. split_and!; [done| |by intros b; apply Hcl|].
  - apply (concat_NoDup comps); [|done]. rw Hp node_indices_nodes. apply NoDup_fst_map_to_list.
  - intros b Hb. apply Hin, list_elem_of_In, in_concat. exists c. by rw -!list_elem_of_In.
Qed.

Lemma copy_component_spec envs g source seed seed_key source_graph :
  k_inv g → k_inv source → get_node_key_by_id source seed = Some seed_key → NoDup (new_uuid <$> envs) → Forall (λ env, ¬ live_id g (new_uuid env)) envs →
  (size (sg_nodes (inner (k_inner source))) ≤ length envs)%nat →
  ∃ g' copy, copy_component_from envs g source seed source_graph = Some (g', copy) ∧ forked g source seed_key source_graph g' copy.
Proof.
  intros Hg Hsource Hseed Hids Hfresh Hlen. pose proof (iv_wf _ Hsource) as Hw. destruct (key_node source seed seed_key Hw Hseed) as (ns & Hns & _).
  destruct (components_of source Hw) as (comps & Hc & _). destruct (component_found source seed_key comps Hw) as (m & c & Hf & Hcn & Hcc & Hlive); [by exists ns|done|].
  assert (length c ≤ length envs)%nat as Hle.
  { etrans; [|done]. apply keys_length_le; done. }
  set (done := zip envs c). assert (done.*2 = c) as Hd2 by (by apply snd_zip).
  assert (NoDup (new_uuid <$> done.*1)) as Hd1.
  { destruct (zip_fst_prefix envs c) as [tl Htl]. rw Htl fmap_app in Hids. by apply NoDup_app in Hids as (? & _). }
  assert (∀ ek, ek ∈ done → is_Some (get_node source ek.2) ∧ ¬ live_id g (new_uuid ek.1)) as Hall.
  { intros [env old] Hek. split; [apply Hlive; rw -Hd2; by apply (list_elem_of_fmap_2 snd) in Hek|]. rw Forall_forall in Hfresh. apply Hfresh. by apply elem_of_zip_l in Hek. }
  destruct (copying_all g source source_graph Hsource done [] g ∅ (mkCopy [] [])) as (h & remap & copy & Hfold & C).
  - by apply copying_start.
  - cbn [app]. by rw -list_fmap_compose in Hd1.
  - cbn [app]. by rw Hd2.
  - done.
  - cbn [app] in C. do 2 eexists. split; [unfold copy_component_from; rw Hseed Hc; cbn [mbind option_bind]; rw Hf; fold done; rw Hfold; reflexivity|].
    apply (fork_spec g source source_graph done h remap copy Hsource C Hd1 Hall); rw Hd2; done.
Qed.
End copy.

Section forks.
Context {G : Type → Type → Type} `{StableGraph G} `{!Undirected G} {M : Type → Type} `{SlotMap M} `{HashOrder} `{WebText}.
Context {U : Type} `{Countable U} `{UuidText U} {J D : Type} `{EqDecision J} `{JsonText J} `{FieldText D}.
Context `{Facet J bool} `{Facet J (list FrameLayoutHint)} `{Facet J NodeTagPresentationState} `{Facet J VisitHistoryFacet}.
Context `{Facet J (list NodeImportProvenance)} `{Facet J (list NodeDerivation)}.
Context `{Facet J (list NodeClassification)} `{Facet J (list NodeProperty)}.
Context `{!FacetRoundtrip J VisitHistoryFacet} `{!FacetRoundtrip J (list NodeImportProvenance)}.

Abbreviation Graph := (KGraph (G := G) (N := Node U) (Id := U) (R := Rest (U := U) (J := J) (D := D))).
Implicit Types (g source : Graph) (ds : list (Env U * GraphDelta (U := U) (J := J) (D := D))).

(** C25. A fork is faithful.  Between two graphs that sessions meeting
    [session_ok] produced, with ids minted
    without repetition and unknown to the destination, [copy_component_from] never
    panics: for an unknown seed it changes nothing; otherwise it copies each node
    connected to the seed exactly once, under a fresh id and with the content, the
    content facets and the derivation record a copy has, relates two copies exactly as
    their sources are, touches neither a node, a facet nor an edge that was there, and
    keeps the invariant of the graph. *)
Theorem copy_component_faithful ds ds' g source envs seed source_graph :
  reached (M := M) ds g → reached (M := M) ds' source → NoDup (new_uuid <$> envs) → Forall (λ env, ¬ live_id g (new_uuid env)) envs →
  (size (sg_nodes (inner (k_inner source))) ≤ length envs)%nat →
  match get_node_key_by_id source seed with
  | None => copy_component_from envs g source seed source_graph = Some (g, mkCopy [] [])
  | Some seed_key => ∃ g' copy, copy_component_from envs g source seed source_graph = Some (g', copy) ∧ forked g source seed_key source_graph g' copy
  end.
Proof.
  intros (Hok & jn & Hs) (Hok' & jn' & Hs') Hids Hfresh Hlen. destruct (get_node_key_by_id source seed) as [k|] eqn:Hk.
  - apply copy_component_spec; [exact (session_inv ds g jn Hok Hs)|exact (session_inv ds' source jn' Hok' Hs')|done..].
  - unfold copy_component_from. by rw Hk.
Qed.
End forks.

(** ** A small fork *)

Module Sample.
Import KernelJournal.Sample KernelQuery.Sample.

Definition mint (t : Z) (i : string) : Env string := mkEnv t (t / 1000) "st" i false.
Definition mints : list (Env string) := [mint 10 "x"; mint 11 "y"; mint 12 "z"; mint 13 "w"].
Definition desk : SGraph := match live_session (kernel_new, gj_new) day with Some gj => gj.1 | None => kernel_new end.
Lemma desk_reached : reached day desk.
Proof.
  assert (bool_decide (is_Some (live_session (kernel_new : SGraph, gj_new) day)) = true) as Hs%bool_decide_eq_true by (vm_compute; reflexivity).
  apply (conj day_ok). unfold desk. destruct Hs as [[g j] Hs]. rw Hs. exists j. reflexivity.
Qed.

(** Three of the four pages of [web] are connected to the first. *)
Example desk_forked :
  (λ gc, (id_remap gc.2, new_keys gc.2, id_bucket gc.1 "y" "z", id_bucket gc.1 "a" "x")) <$> copy_component_from mints desk web "a" (Some "web") =
  Some ([("a", "x"); ("b", "y"); ("c", "z")], [2; 3; 4], id_bucket web "b" "c", None).
Proof. vm_compute. reflexivity. Qed.

(** A property of a page: a fork carries it, the copy of the page alone does not. *)
Definition noted : SGraph := (set_node_facet_value web 0 SEMANTIC_PROPERTIES (JProperties [mkProperty "st" "p" "v" None None ScopeDefault None None])).1.
Example single_copy_drops_properties :
  (λ n, (λ gk, facet_of gk.1 "x" SEMANTIC_PROPERTIES) <$> copy_node_from (mint 10 "x") desk n None) <$> get_node noted 0 = Some (Some None) ∧
  (λ gc, facet_of gc.1 "x" SEMANTIC_PROPERTIES) <$> copy_component_from mints desk noted "a" None = Some (facet_of noted "a" SEMANTIC_PROPERTIES) ∧
  is_Some (facet_of noted "a" SEMANTIC_PROPERTIES).
Proof. vm_compute. split; [reflexivity|]. split; [reflexivity|]. by eexists. Qed.

Lemma copy_component_faithful_witness : ∃ g' copy, copy_component_from mints desk web "a" (Some "web") = Some (g', copy) ∧ forked desk web 0 (Some "web") g' copy.
Proof.
  assert (NoDup (new_uuid <$> mints)) as Hids by (apply (bool_decide_eq_true_1 (NoDup _)); vm_compute; reflexivity).
  assert (Forall (λ env, ¬ live_id desk (new_uuid env)) mints) as Hfresh by (repeat constructor; apply eq_None_not_Some; vm_compute; reflexivity).
  assert (size (sg_nodes (inner (k_inner web))) = 4%nat) as Hsize by (vm_compute; reflexivity).
  pose proof (copy_component_faithful day visits desk web mints "a" (Some "web") desk_reached web_reached Hids Hfresh) as Hx. rw Hsize web_key in Hx.
  exact (Hx (le_n 4)).
Defined.
End Sample.
